(* ===== verification/_CoqProject ===== *)
-Q . S2P
Prelude.v
Text.v
Types.v
Config.v
Store.v
Codec.v
ConcreteWire.v
Scanner.v
Writer.v
WriterTask.v
Damage.v
WalTests.v
TestStorage.v
Recovery.v
RecoveryProofs.v
RecoveryTotal.v
LogCounts.v
Cli.v
RetryHeap.v
Environment.v
Coordinator.v
Quiet.v
QueueInv.v
CoordinatorInv.v
JobMachine.v
CoordinatorSafe.v
CoordinatorLoop.v
CoordinatorInit.v
CoordinatorProps.v
CoordinatorStats.v
CoordinatorReplies.v
CoordinatorLive.v
Refinement.v
Durability.v
CliProofs.v
Runtime.v
RuntimeProofs.v
History.v
Lifecycle.v
Restart.v
Client.v
Worker.v
Pool.v
Schedule.v
Basic.v
