(* ===== verification/Prelude.v ===== *)
(** * A verified model of the Rust durable queue

    The program is an embedded job queue with a write-ahead log.  Clients take a
    capacity permit and send commands through a bounded channel to one
    coordinator task, which owns the job store, the ready lists, the leases, the
    retry heap and the permits; workers ask it for jobs and report outcomes; every
    change of a job is appended to the log and synced before it is applied and
    acknowledged; at the start the log is scanned, repaired, replayed and
    reconciled.  Paths below are relative to [src/src].

    ** Files

    - [Prelude]: results with [?], fixed-width integers, counting the entries of
      a map, the arbitrary iteration order of hash maps ([HashIter]), automation.
    - [Text]: decimal printing and parsing, UTF-8 and prefixes, as the standard
      library has them.
    - [Types]: [types.rs], [wal/record.rs], [wal/error.rs], [error.rs],
      [stats.rs] and the error of [handler.rs].
    - [Config]: [config.rs], the backoff included.
    - [Store]: [MemoryStore] of [store.rs].
    - [Codec], [ConcreteWire]: [wal/codec.rs] over an abstract serializer and
      checksum ([Wire], [WireLaws]), and a concrete instance with CRC-32.
    - [Scanner]: [wal/scanner.rs].
    - [Writer]: [wal/writer.rs] and [Storage] of [store.rs].
    - [WriterTask]: the thread behind the writer of [wal/writer.rs], its channel
      and the lock file, for any number of writers on one directory.
    - [Damage]: CRC-32 detects a changed byte; damage to frames and lengths.
    - [WalTests]: the unit tests of [wal/codec.rs], [wal/scanner.rs] and
      [wal/writer.rs] as programs over the model.
    - [TestStorage]: the storage of the fault-injection tests of [store.rs].
    - [Recovery], [RecoveryProofs], [RecoveryTotal]: [recovery.rs].
    - [LogCounts]: counting the records of a log is counting jobs.
    - [Cli], [CliProofs]: the command line tool [bin/rdq.rs]; the runtime that
      its demo drives is a record of operations ([RtOps]).
    - [RetryHeap]: the [BinaryHeap] of the coordinator as an interface with laws.
    - [Environment]: clocks, random source, UUIDs, disk, one-shot receivers and
      tokio semaphores as interfaces; actions that may panic, and their [wp].
    - [Coordinator]: [coordinator.rs], one definition per method and per loop.
    - [Quiet]: which messages an action sends and which fields it leaves alone.
    - [QueueInv], [CoordinatorInv]: what the tables have to do with each other
      ([inv]), how a state may differ from an earlier one ([frame]), and the
      interface [LogInv] through which the storage enters.
    - [JobMachine]: the specification of the coordinator, an abstract machine for
      the life of jobs ([move], [path]), and what follows from it alone: attempts,
      lease numbers, counters, the work that is left, who may work on a job.
    - [CoordinatorSafe], [CoordinatorLoop], [CoordinatorInit]: every action, every
      command and the loop preserve [inv]; both constructors establish it.
    - [CoordinatorProps], [CoordinatorStats]: the guarantees of the coordinator.
    - [CoordinatorReplies]: every request is answered, and jobs go to the workers
      that wait longest.
    - [CoordinatorLive]: no worker idles, a shutdown ends.
    - [Refinement]: every action, command and turn of the coordinator is a path of
      [JobMachine].
    - [Durability]: [durable] implements [LogInv]; crash and restart.
    - [Runtime], [RuntimeProofs]: [lib.rs], [runtime.rs], [handle.rs] and
      [open_with_recovery] of [store.rs]: start and submission, and the system
      of clients, channel and coordinator as a step relation.
    - [History]: every job of a running system was recovered or comes from a
      submission of its history.
    - [Lifecycle]: the consequences of [Refinement] for the running system.
    - [Restart]: crash and restart of the whole system.
    - [Client]: the calls of [handle.rs] and [runtime.rs], from the permit to the
      reply, and [Runtime::shutdown].
    - [Worker]: [worker.rs], the loop of a worker and the pool.
    - [Pool]: the workers as tasks with one state per await, interleaved with the
      system ([pool_step]).
    - [Schedule]: a deterministic scheduler, every move of which is a [pool_step].
    - [Basic]: [examples/basic.rs] on the modelled runtime.

    ** How the code is modelled

    Definitions keep the names of the source.  [Result] is [result], [?] is
    [try .. := .. in ..].  An integer is a [Z] with the wrap-around or saturation
    of the source written out; a duration is its nanoseconds; a file is its
    bytes; a [HashMap] is a [gmap], and a loop over one follows [hash_iter], an
    arbitrary permutation.  A method of the coordinator is a function from
    [State] to an optional result and [State], where [None] is a panic
    (an [unwrap] or an [Instant] overflow) and [State] is the [Coordinator], the
    number of questions asked to the environment, and the trace of effects
    (replies, cancelled tokens, logged errors).  Each question takes the next
    tick, so the answers of the environment are unrelated.  [run] interprets a
    list of wake-ups (a command, a timer, a closed channel); [sys_step]
    interleaves the clients with the turns of the coordinator.  A worker is a
    function of the script of its polls in [Worker], and a state machine beside
    the system in [Pool].  [writer_append] is an append as one call;
    [WriterTask] has the two sides of the channel.

    Third-party code is a parameter with the laws that are documented for it:
    [postcard] and [crc32fast] ([WireLaws]: a serialized record is read back, a
    checksum is a [u32]; in [Damage] also that it detects a changed byte, which is
    proved for the concrete CRC-32), tokio semaphores ([SemaphoresLaws]), UUIDs that do not
    repeat and a random source within its range ([EnvLaws]).  Each has an
    instance, with which the witnesses evaluate the model.

    ** What is proved

    - Crash and restart: a system that was started, ran under any interleaving
      with appends that succeed or fail as a whole, and was killed in any state
      can be started again and has lost no job ([restart_always_succeeds], over
      [crash_loses_nothing]); the restarted coordinator satisfies the same
      invariant, also under a changed configuration
      ([restart_reestablishes_invariant]).
    - Consistency: from any state that satisfies the invariant no sequence of
      commands, timers and failures panics or breaks it
      ([coordinator_consistent], [invariant_preserved]).
    - Specification: whatever the coordinator does is a sequence of moves of the
      abstract machine, licensed by the reports of workers
      ([coordinator_implements_job_machine]).  So, in every reachable state, the
      attempts of a job are handed out in order, within their limit and with the
      data of its submission ([attempts_in_order]), the statistics are exact
      ([statistics_exact]) and the work of the known jobs runs out
      ([queue_drains]).
    - Workers: of two workers with the same job one has been told to stop
      ([exclusive_execution]); an outcome is for the current lease unless its
      worker was told to stop, and is then applied unless the log refuses its
      record ([outcomes_count]).
    - Capacity: the unfinished jobs of a queue never exceed its capacity, in any
      interleaving and over restarts ([capacity_respected]).
    - Leases: stale outcomes are fenced off, also over a restart
      ([stale_outcome_fenced], [recovery_fences_leases]); queues are served in
      turn ([lease_round_robin]).
    - Liveness: no request is forgotten ([no_request_forgotten]) and each is
      answered once, with the right type ([requests_answered_once]); no worker is
      parked while a job is ready ([no_worker_idles]); a shutdown is over by its
      deadline ([shutdown_completes]).
    - Operations: what submission, cancellation, outcomes, due retries,
      statistics and shutdown do on every branch; an operation that changes a job
      is decided by its guards and by the append of its one record
      ([submit_all_or_nothing], [cancel_all_or_nothing], [outcome_applied]).
    - Recovery: reconciliation, idempotence up to the order of the retry list when
      the two recoveries iterate over their hash maps in unrelated orders, the
      rebuilt queues, the hand-over to the writer, capacity.
    - Log: the scanner accepts exactly the valid frames with an optional torn
      tail and terminates; repair; logs are read back; a failed write keeps the
      log readable; a changed byte of a frame is detected
      ([damaged_byte_detected]); writers exclude each other and work through
      their requests in order, a thread that ended has answered all that it was
      sent ([writers_take_turns]), and a directory can be opened again after the
      drop of its writer ([drop_releases_lock]); the unit tests pass
      ([wal_unit_tests_pass]).
    - Tools: [verify] and [inspect] agree with recovery and report the numbers of
      jobs ([tools_agree_with_recovery], [inspect_counts_jobs]); [demo] returns
      ([run_demo_returns]).
    - Backoff and validation in closed form.
    - Defects: a failed sync leaves a log that no scan accepts
      ([sync_failure_poisons_log]); an outcome that cannot be persisted strands
      its job ([failed_outcome_strands_job]); the permits of recovered jobs are
      never returned ([recovered_permits_leak]); a shutdown ends the last attempt
      of a running job ([shutdown_kills_last_attempt]); a restart forgets the
      submissions of each queue ([restart_forgets_submissions]); a damaged length
      makes the repair delete whole records ([damaged_length_drops_records]).

    ** Bounds and fuel

    The scan loop has one unit of fuel per byte and one more, enough since every
    frame has bytes ([scan_terminates]); dispatching has one unit per parked
    worker, and the due-retry loop one per heap entry: each turn removes one, and
    the theorems show that the loops finish.  The demo waits in rounds of fifty
    milliseconds for thirty seconds, at most 602 of them.  The
    scheduler of the example makes at most a thousand moves per call and is shown to
    come to the end ([basic_example_runs]).  Sequence numbers and lease epochs
    are [u64]: theorems that depend on their not wrapping around assume fewer than
    [2^63] questions to the environment ([small]) and a log file of at most
    [u64::MAX] bytes.  [config_fits] keeps the deadlines within the last
    [Instant]; a queue or a channel with more places than a tokio semaphore has
    permits ([MAX_PERMITS]) makes [start] panic; a restart assumes that the clock is more than [i64::MAX]
    milliseconds before it.

    ** Not modelled

    The text of most error messages; errors of opening the directory and of
    reading a file or its metadata, in recovery and in the tools, and of writing
    the reconciliation records, as opposed to appends of the running writer, which
    may fail at every point; argument parsing and tracing of the tool.  The awaits
    inside a turn of the coordinator are not points of interleaving: [sys_step]
    makes a turn and the wake-up after it one step, and a client acts between the
    steps.  What the handler of the example prints; the integration tests, which are clients of the
    library.  Next in line: a fair scheduler under which liveness becomes a statement about whole
    executions, and the demo on the modelled runtime instead of an interface. *)

From stdpp Require Export prelude gmap strings list fin_maps sorting.
From Stdlib Require Export ZArith Lia.
From Stdlib Require Export Strings.Byte.

#[global] Open Scope Z_scope.
Set Default Proof Using "Type".

(** ** Results

    [Result<T, E>] of the source: a value or an error, with [?] as monadic
    bind. *)

Inductive result (A E : Type) : Type :=
| Ok (a : A)
| Err (e : E).
Arguments Ok {A E} a.
Arguments Err {A E} e.

Definition rbind {A B E : Type} (m : result A E) (k : A → result B E) : result B E :=
  match m with
  | Ok a => k a
  | Err e => Err e
  end.

Definition is_ok {A E : Type} (m : result A E) : bool :=
  match m with Ok _ => true | Err _ => false end.

(** [o.ok_or(e)] *)
Definition ok_or {A E : Type} (o : option A) (e : E) : result A E :=
  match o with Some a => Ok a | None => Err e end.

(** [r.map_err(f)] *)
Definition map_err {A E F : Type} (f : E → F) (m : result A E) : result A F :=
  match m with Ok a => Ok a | Err e => Err (f e) end.

Declare Scope result_scope.
Delimit Scope result_scope with result.
Notation "'try' x ':=' m 'in' k" := (rbind m (λ x, k))
  (at level 10, x name, m at level 100, k at level 200) : result_scope.
Notation "'try' ' p ':=' m 'in' k" := (rbind m (λ p, k))
  (at level 10, p strict pattern, m at level 100, k at level 200) : result_scope.
#[global] Open Scope result_scope.

Lemma rbind_ok {A B E} (m : result A E) (k : A → result B E) b :
  rbind m k = Ok b ↔ ∃ a, m = Ok a ∧ k a = Ok b.
Proof. destruct m; naive_solver. Qed.

Lemma ok_or_ok {A E} (o : option A) (e : E) a :
  ok_or o e = Ok a ↔ o = Some a.
Proof. destruct o; naive_solver. Qed.

(** ** Machine integers

    A [w]-bit unsigned integer is a [Z] in [0, 2^w); [i64] is a [Z] in
    [-2^63, 2^63).  Additions that the source does not check wrap around. *)

Definition u32_max : Z := 2 ^ 32 - 1.
Definition u64_max : Z := 2 ^ 64 - 1.

Definition u32_range (z : Z) : Prop := 0 ≤ z < 2 ^ 32.
Definition u64_range (z : Z) : Prop := 0 ≤ z < 2 ^ 64.
Definition i64_range (z : Z) : Prop := - 2 ^ 63 ≤ z < 2 ^ 63.

Definition u32_wrap (z : Z) : Z := z mod 2 ^ 32.
Definition u64_wrap (z : Z) : Z := z mod 2 ^ 64.
Definition i64_wrap (z : Z) : Z := (z + 2 ^ 63) mod 2 ^ 64 - 2 ^ 63.

(** [x += 1] on a [u64]. *)
Definition u64_incr (z : Z) : Z := u64_wrap (z + 1).
(** [x.saturating_sub(1)] on an unsigned integer. *)
Definition sat_decr (z : Z) : Z := Z.max 0 (z - 1).
(** [x.checked_add(1)] on a [u64]. *)
Definition u64_checked_incr (z : Z) : option Z :=
  if z + 1 <=? u64_max then Some (z + 1) else None.

Lemma u64_wrap_small z : u64_range z → u64_wrap z = z.
Proof. intros; by apply Z.mod_small. Qed.

Lemma i64_wrap_range z : i64_range (i64_wrap z).
Proof. unfold i64_range, i64_wrap. pose proof (Z.mod_pos_bound (z + 2 ^ 63) (2 ^ 64)). lia. Qed.

Lemma u64_incr_small z : 0 ≤ z < u64_max → u64_incr z = z + 1.
Proof. intros. apply u64_wrap_small. unfold u64_range, u64_max in *. lia. Qed.

Lemma sat_decr_pos z : 1 ≤ z → sat_decr z = z - 1.
Proof. unfold sat_decr. lia. Qed.

Lemma u64_checked_incr_Some z z' :
  u64_checked_incr z = Some z' ↔ z' = z + 1 ∧ z + 1 ≤ u64_max.
Proof. unfold u64_checked_incr. case_match; naive_solver lia. Qed.

Lemma u64_checked_incr_lt z :
  z < u64_max → u64_checked_incr z = Some (z + 1).
Proof. intros. apply u64_checked_incr_Some. lia. Qed.

(** ** Bytes and little-endian encodings *)

Abbreviation byte := Byte.byte.

#[global] Instance byte_eq_dec : EqDecision byte := Byte.byte_eq_dec.

Definition byte_to_Z (b : byte) : Z := Z.of_N (Byte.to_N b).
Definition byte_of_Z (z : Z) : byte :=
  default Byte.x00 (Byte.of_N (Z.to_N (z mod 256))).

Lemma byte_to_Z_range b : 0 ≤ byte_to_Z b < 256.
Proof. unfold byte_to_Z. pose proof (Byte.to_N_bounded b). lia. Qed.

Lemma byte_to_of_Z z : byte_to_Z (byte_of_Z z) = z mod 256.
Proof.
  pose proof (Z.mod_pos_bound z 256 ltac:(lia)).
  unfold byte_to_Z, byte_of_Z.
  destruct (Byte.of_N (Z.to_N (z mod 256))) as [b|] eqn:Hb; simpl.
  - apply Byte.to_of_N in Hb. lia.
  - apply Byte.of_N_None_iff in Hb. lia.
Qed.

Lemma byte_of_to_Z b : byte_of_Z (byte_to_Z b) = b.
Proof.
  unfold byte_of_Z. rewrite Z.mod_small by apply byte_to_Z_range.
  unfold byte_to_Z. by rewrite N2Z.id, Byte.of_to_N.
Qed.

(** [z.to_le_bytes()] for an [n]-byte unsigned integer. *)
Fixpoint to_le_bytes (n : nat) (z : Z) : list byte :=
  match n with
  | O => []
  | S n => byte_of_Z z :: to_le_bytes n (z / 256)
  end.

(** [uN::from_le_bytes(bs)]. *)
Fixpoint from_le_bytes (bs : list byte) : Z :=
  match bs with
  | [] => 0
  | b :: bs => byte_to_Z b + 256 * from_le_bytes bs
  end.

Lemma length_to_le_bytes n z : length (to_le_bytes n z) = n.
Proof. revert z; induction n; intros; simpl; auto. Qed.

Lemma from_to_le_bytes n z :
  0 ≤ z < 256 ^ Z.of_nat n → from_le_bytes (to_le_bytes n z) = z.
Proof.
  revert z; induction n as [|n IH]; intros z Hz; simpl; [lia|].
  rewrite Nat2Z.inj_succ, Z.pow_succ_r in Hz by lia.
  rewrite byte_to_of_Z, IH; pose proof (Z.div_mod z 256); [lia|].
  split; [apply Z.div_pos; lia|apply Z.div_lt_upper_bound; lia].
Qed.

Lemma to_from_le_bytes bs : to_le_bytes (length bs) (from_le_bytes bs) = bs.
Proof.
  induction bs as [|b bs IH]; [done|]. cbn [length to_le_bytes from_le_bytes].
  pose proof (byte_to_Z_range b) as Hb. f_equal.
  - rewrite <-(byte_of_to_Z b) at 2. unfold byte_of_Z. do 3 f_equal.
    rewrite (Z.mul_comm 256), Z.mod_add by lia. done.
  - rewrite (Z.mul_comm 256), Z.div_add by lia.
    by rewrite Z.div_small, Z.add_0_l.
Qed.

(** ** Lists *)

(** [l.len()] as an integer. *)
Abbreviation zlen l := (Z.of_nat (length l)).

Lemma take_app_exact {A} (l k : list A) n : n = length l → take n (l ++ k) = l.
Proof. intros ->. apply take_app_length. Qed.

Lemma drop_app_exact {A} (l k : list A) n : n = length l → drop n (l ++ k) = k.
Proof. intros ->. apply drop_app_length. Qed.

Lemma NoDup_snoc {A} (l : list A) x : NoDup (l ++ [x]) ↔ NoDup l ∧ x ∉ l.
Proof. rewrite NoDup_app. pose proof (NoDup_singleton x). set_solver. Qed.

(** ** Counting in a map *)

(** Elements that a partial function tells apart. *)
Lemma NoDup_omap_eq {A B} (f : A → option B) (l : list A) x y z :
  NoDup (omap f l) → x ∈ l → y ∈ l → f x = Some z → f y = Some z → x = y.
Proof.
  induction l as [|a l IH]; [by intros _ []%elem_of_nil|]. cbn. intros Hnd Hx Hy Hfx Hfy.
  apply elem_of_cons in Hx as [->|Hx], Hy as [->|Hy]; [done|..].
  - rewrite Hfx in Hnd. apply NoDup_cons in Hnd as [[] _]. by apply list_elem_of_omap; exists y.
  - rewrite Hfy in Hnd. apply NoDup_cons in Hnd as [[] _]. by apply list_elem_of_omap; exists x.
  - apply IH; [|done..]. destruct (f a); [by apply NoDup_cons in Hnd as [_ ?]|done].
Qed.

Definition b2z (b : bool) : Z := if b then 1 else 0.

(** The number of entries whose value satisfies [P]. *)
Definition mcount {K V} `{Countable K} (P : V → bool) (m : gmap K V) : Z :=
  Z.of_nat (size (filter (λ p, P p.2 = true) m)).

Section counting.
Context {K V : Type} `{Countable K} (P : V → bool).
Implicit Types (m : gmap K V).

Lemma mcount_empty : mcount P (∅ : gmap K V) = 0.
Proof. unfold mcount. by rewrite map_filter_empty, map_size_empty. Qed.

Lemma mcount_new m k v : m !! k = None → mcount P (<[k := v]> m) = mcount P m + b2z (P v).
Proof.
  intros Hn. unfold mcount, b2z. destruct (P v) eqn:HP.
  - rewrite map_filter_insert_True by done.
    rewrite map_size_insert_None by (by apply map_lookup_filter_None_2; left). lia.
  - rewrite map_filter_insert_False by (cbn; congruence).
    rewrite delete_id by done. lia.
Qed.

Lemma mcount_delete m k v : m !! k = Some v → mcount P m = mcount P (delete k m) + b2z (P v).
Proof.
  intros Hs. rewrite <-(mcount_new (delete k m) k v) by apply lookup_delete_eq.
  by rewrite insert_delete_id.
Qed.

Lemma mcount_update m k v v' :
  m !! k = Some v → mcount P (<[k := v']> m) = mcount P m - b2z (P v) + b2z (P v').
Proof.
  intros Hs. rewrite (mcount_delete m k v) by done.
  rewrite <-insert_delete_eq, mcount_new by apply lookup_delete_eq. lia.
Qed.

Lemma mcount_nonneg m : 0 ≤ mcount P m.
Proof. unfold mcount. lia. Qed.

Lemma mcount_pos m k v : m !! k = Some v → P v = true → 1 ≤ mcount P m.
Proof.
  intros Hs HP. rewrite (mcount_delete m k v) by done. rewrite HP.
  pose proof (mcount_nonneg (delete k m)). cbn. lia.
Qed.

Lemma mcount_size m : mcount P m ≤ Z.of_nat (size m).
Proof. unfold mcount. apply inj_le, map_size_filter. Qed.

(** Counting through a list of the keys. *)
Lemma mcount_list m (ks : list K) :
  NoDup ks → (∀ k, k ∈ ks ↔ ∃ v, m !! k = Some v ∧ P v = true) → mcount P m = zlen ks.
Proof.
  intros Hnd Hin. unfold mcount. f_equal.
  rewrite <-size_dom, <-(size_list_to_set (C := gset K) ks) by done. f_equal.
  apply set_eq. intros k. rewrite elem_of_dom, elem_of_list_to_set, Hin.
  unfold is_Some. setoid_rewrite map_lookup_filter_Some. done.
Qed.
End counting.

(** Counting properties that agree on the entries. *)
Lemma mcount_ext {K V} `{Countable K} (p q : V → bool) (m : gmap K V) :
  (∀ k v, m !! k = Some v → p v = q v) → mcount p m = mcount q m.
Proof.
  intros Hpq. unfold mcount. do 2 f_equal. apply map_filter_ext. intros k v Hk. cbn. by rewrite (Hpq k v).
Qed.

(** Counting two disjoint properties. *)
Lemma mcount_split {K V} `{Countable K} (P P1 P2 : V → bool) (m : gmap K V) :
  map_Forall (λ _ v, b2z (P v) = b2z (P1 v) + b2z (P2 v)) m →
  mcount P m = mcount P1 m + mcount P2 m.
Proof.
  induction m as [|k v m Hk IH] using map_ind; [by rewrite !mcount_empty|].
  intros [Hv Hm]%map_Forall_insert; [|done]. rewrite !mcount_new by done. specialize (IH Hm). lia.
Qed.

(** Counting in a map with fewer matches. *)
Lemma mcount_le {K V} `{Countable K} (P P' : V → bool) (m m' : gmap K V) :
  (∀ k v, m !! k = Some v → P v = true → ∃ v', m' !! k = Some v' ∧ P' v' = true) →
  mcount P m ≤ mcount P' m'.
Proof.
  intros Hsub. unfold mcount. apply inj_le. rewrite <-!(size_dom (D := gset K)). apply subseteq_size.
  intros k. rewrite !elem_of_dom. intros [v [Hv HP]%map_lookup_filter_Some].
  destruct (Hsub k v Hv HP) as (v' & Hv' & HP'). exists v'. by apply map_lookup_filter_Some.
Qed.

(** ** Hash map iteration

    The order in which a [HashMap] yields its entries is unspecified: every
    result that depends on such a loop is proved for an arbitrary order. *)

Class HashIter := {
  hash_iter : ∀ {K V : Type} `{Countable K}, gmap K V → list (K * V);
  hash_iter_perm : ∀ (K V : Type) `{Countable K} (m : gmap K V),
    hash_iter m ≡ₚ map_to_list m;
}.

(** A concrete order, used to evaluate the model. *)
Definition canonical_iter : HashIter := {|
  hash_iter K V _ _ m := map_to_list m;
  hash_iter_perm K V _ _ m := Permutation_refl (map_to_list m);
|}.

Lemma elem_of_hash_iter `{HashIter} {K V} `{Countable K} (m : gmap K V) k v :
  (k, v) ∈ hash_iter m ↔ m !! k = Some v.
Proof. by rewrite hash_iter_perm, elem_of_map_to_list. Qed.

Lemma hash_iter_NoDup_fst `{HashIter} {K V} `{Countable K} (m : gmap K V) :
  NoDup (hash_iter m).*1.
Proof. rewrite hash_iter_perm. apply NoDup_fst_map_to_list. Qed.

(** ** Automation *)

Create HintDb rdq.

(** Case analysis on the scrutinees of a hypothesis or of the goal. *)
Ltac destruct_match_in H :=
  match type of H with
  | context [match ?x with _ => _ end] => destruct x eqn:?; simplify_eq/=
  end.

Ltac inv_result :=
  repeat match goal with
  | H : rbind _ _ = Ok _ |- _ => apply rbind_ok in H as (? & ? & H)
  | H : ok_or _ _ = Ok _ |- _ => apply ok_or_ok in H
  | H : Ok _ = Ok _ |- _ => injection H as H
  | H : Err _ = Ok _ |- _ => discriminate H
  | H : Ok _ = Err _ |- _ => discriminate H
  end.
