(* ===== verification/Text.v ===== *)
(** * Text

    What the command line tool uses of the standard library's strings: the
    decimal [Display] of unsigned integers, [str::parse::<u32>], the validity
    check of [str::from_utf8], and [str::strip_prefix].  A [str] is its bytes. *)

From S2P Require Import Prelude.

(** The bytes of a literal. *)
Abbreviation bytes_of s := (String.list_byte_of_string s).

(** ** Decimal numbers *)

Definition digit (d : Z) : byte := byte_of_Z (48 + d).

(** The digits of [n] before [acc]; one unit of fuel per digit. *)
Fixpoint decimal (fuel : nat) (n : Z) (acc : list byte) : list byte :=
  match fuel with
  | O => acc
  | S fuel =>
      if n <? 10 then digit n :: acc
      else decimal fuel (n / 10) (digit (n mod 10) :: acc)
  end.

(** [format!("{n}")]: twenty digits are enough for a [u64]. *)
Definition display (n : Z) : list byte := decimal 20 n [].

Definition digit_value (b : byte) : option Z :=
  let d := byte_to_Z b - 48 in
  if (0 <=? d) && (d <? 10) then Some d else None.

(** The loop of [u32::from_str]: [checked_mul(10)] and [checked_add]. *)
Fixpoint parse_digits (acc : Z) (s : list byte) : option Z :=
  match s with
  | [] => Some acc
  | b :: s =>
      match digit_value b with
      | None => None
      | Some d =>
          if acc * 10 + d <=? u32_max then parse_digits (acc * 10 + d) s else None
      end
  end.

(** [s.parse::<u32>().ok()]: an optional plus sign and at least one digit. *)
Definition parse_u32 (s : list byte) : option Z :=
  match s with
  | [] => None
  | b :: rest =>
      if bool_decide (b = Byte.x2b) then
        if bool_decide (rest = []) then None else parse_digits 0 rest
      else parse_digits 0 s
  end.

(** ** UTF-8 *)

Definition in_range (lo hi : Z) (b : byte) : bool := (lo <=? byte_to_Z b) && (byte_to_Z b <=? hi).
Definition continuation (b : byte) : bool := in_range 128 191 b.

(** Whether the bytes are well-formed UTF-8 (Unicode, table 3-7). *)
Fixpoint utf8_valid (s : list byte) : bool :=
  match s with
  | [] => true
  | b0 :: s0 =>
      if byte_to_Z b0 <? 128 then utf8_valid s0
      else
        match s0 with
        | [] => false
        | b1 :: s1 =>
            if in_range 194 223 b0 then continuation b1 && utf8_valid s1
            else
              match s1 with
              | [] => false
              | b2 :: s2 =>
                  if in_range 224 239 b0 then
                    (if byte_to_Z b0 =? 224 then in_range 160 191 b1
                     else if byte_to_Z b0 =? 237 then in_range 128 159 b1
                     else continuation b1)
                    && continuation b2 && utf8_valid s2
                  else
                    match s2 with
                    | [] => false
                    | b3 :: s3 =>
                        in_range 240 244 b0
                        && (if byte_to_Z b0 =? 240 then in_range 144 191 b1
                            else if byte_to_Z b0 =? 244 then in_range 128 143 b1
                            else continuation b1)
                        && continuation b2 && continuation b3 && utf8_valid s3
                    end
              end
        end
  end.

(** [str::from_utf8(s).ok()] *)
Definition from_utf8 (s : list byte) : option (list byte) := if utf8_valid s then Some s else None.

(** [s.strip_prefix(p)] *)
Fixpoint strip_prefix (p s : list byte) : option (list byte) :=
  match p, s with
  | [], _ => Some s
  | b :: p, c :: s => if bool_decide (b = c) then strip_prefix p s else None
  | _ :: _, [] => None
  end.

(** ** Printing and parsing *)

Definition ascii_byte (b : byte) : Prop := byte_to_Z b < 128.

Lemma digit_to_Z d : 0 ≤ d < 10 → byte_to_Z (digit d) = 48 + d.
Proof. intros Hd. unfold digit. rewrite byte_to_of_Z. apply Z.mod_small. lia. Qed.

Lemma digit_value_digit d : 0 ≤ d < 10 → digit_value (digit d) = Some d.
Proof.
  intros Hd. unfold digit_value. rewrite digit_to_Z by done. replace (48 + d - 48) with d by lia.
  by rewrite (proj2 (Z.leb_le 0 d)), (proj2 (Z.ltb_lt d 10)) by lia.
Qed.

Lemma decimal_app fuel n acc : decimal fuel n acc = decimal fuel n [] ++ acc.
Proof.
  revert n acc; induction fuel as [|fuel IH]; intros n acc; cbn [decimal]; [done|].
  destruct (n <? 10); [done|]. rewrite IH, (IH _ [_]), <-app_assoc. done.
Qed.

Lemma parse_digits_app acc s s' :
  parse_digits acc (s ++ s') = match parse_digits acc s with Some m => parse_digits m s' | None => None end.
Proof.
  revert acc; induction s as [|b s IH]; intros acc; cbn; [done|].
  destruct (digit_value b); [|done]. case_match; [apply IH|done].
Qed.

(** Parsing the digits of a number gives the number. *)
Lemma parse_decimal fuel n :
  0 ≤ n ≤ u32_max → n < 10 ^ Z.of_nat fuel → parse_digits 0 (decimal fuel n []) = Some n.
Proof.
  revert n; induction fuel as [|fuel IH]; intros n Hn Hf; cbn [decimal].
  { cbn in Hf. cbn. f_equal. lia. }
  rewrite Nat2Z.inj_succ, Z.pow_succ_r in Hf by lia.
  destruct (Z.ltb_spec n 10) as [Hlt|Hge].
  - cbn [parse_digits]. rewrite digit_value_digit by lia. rewrite Z.add_0_l.
    by rewrite (proj2 (Z.leb_le n u32_max)) by lia.
  - pose proof (Z.div_mod n 10 ltac:(lia)) as Hdm. pose proof (Z.mod_pos_bound n 10 ltac:(lia)) as Hm.
    assert (0 ≤ n / 10 ≤ n) as Hq by lia.
    rewrite decimal_app, parse_digits_app, IH by lia. cbn [parse_digits]. rewrite digit_value_digit by done.
    replace (n / 10 * 10 + n mod 10) with n by lia. by rewrite (proj2 (Z.leb_le n u32_max)) by lia.
Qed.

(** What is printed: at least one digit, and only digits. *)
Lemma decimal_digits fuel n acc :
  0 ≤ n → Forall (λ b, 48 ≤ byte_to_Z b < 58) acc → Forall (λ b, 48 ≤ byte_to_Z b < 58) (decimal fuel n acc).
Proof.
  revert n acc; induction fuel as [|fuel IH]; intros n acc Hn Hacc; cbn [decimal]; [done|].
  pose proof (Z.mod_pos_bound n 10 ltac:(lia)).
  destruct (Z.ltb_spec n 10); [constructor; [rewrite digit_to_Z by lia; lia|done]|].
  apply IH; [apply Z.div_pos; lia|]. constructor; [rewrite digit_to_Z by lia; lia|done].
Qed.

Lemma decimal_head fuel n : 0 ≤ n → ∃ b s, decimal (S fuel) n [] = b :: s ∧ 48 ≤ byte_to_Z b < 58.
Proof.
  intros Hn. pose proof (decimal_digits (S fuel) n [] Hn ltac:(constructor)) as Hd.
  destruct (decimal (S fuel) n []) as [|b s] eqn:Heq; [|apply Forall_cons in Hd as [Hb _]; by eauto].
  cbn [decimal] in Heq. destruct (n <? 10); [done|]. rewrite decimal_app in Heq. by apply app_eq_nil in Heq as [_ ?].
Qed.

Lemma parse_display n : u32_range n → parse_u32 (display n) = Some n.
Proof.
  unfold u32_range. intros Hn. assert (parse_digits 0 (display n) = Some n) as Hp.
  { apply parse_decimal; [unfold u32_max; lia|cbn; lia]. }
  unfold display in *. destruct (decimal_head 19 n) as (b & s & Hb & Hr); [lia|].
  rewrite Hb in *. cbn [parse_u32]. rewrite bool_decide_false; [done|].
  intros ->. assert (byte_to_Z Byte.x2b = 43) by reflexivity. lia.
Qed.

Lemma display_ascii n : 0 ≤ n → Forall ascii_byte (display n).
Proof.
  intros Hn. eapply Forall_impl; [by apply decimal_digits|]. unfold ascii_byte. cbn beta. lia.
Qed.

(** ASCII is valid UTF-8. *)
Lemma ascii_utf8 s : Forall ascii_byte s → utf8_valid s = true.
Proof.
  induction 1 as [|b s Hb _ IH]; [done|]. cbn [utf8_valid]. unfold ascii_byte in Hb.
  by rewrite (proj2 (Z.ltb_lt _ _) Hb).
Qed.

Lemma strip_prefix_app p s : strip_prefix p (p ++ s) = Some s.
Proof. induction p as [|b p IH]; [done|]. cbn. by rewrite bool_decide_true. Qed.

Lemma strip_prefix_Some p s r : strip_prefix p s = Some r ↔ s = p ++ r.
Proof.
  split; [|intros ->; apply strip_prefix_app].
  revert s; induction p as [|b p IH]; intros [|c s]; cbn; try (by intros [= ->]).
  case_bool_decide; [|done]. intros Hs%IH. by subst.
Qed.
