(* ===== verification/Types.v ===== *)
(** * Types

    The data of the queue: identifiers, job specifications and records, the
    WAL record type and the error types ([types.rs], [wal/record.rs],
    [wal/error.rs], [error.rs], [stats.rs], [handler.rs]). *)

From S2P Require Import Prelude.

(** ** Identifiers and timestamps *)

(** Wall-clock milliseconds, an [i64]. *)
Record UnixMillis := from_millis { as_millis : Z }.

(** [JobId(Uuid)]: a 128-bit UUID. *)
Record JobId := from_uuid { as_uuid : N }.

(** [LeaseId(u64)]: the epoch fences stale outcomes. *)
Record LeaseId := LeaseId_new { epoch : Z }.

(** [QueueName(String)], built by [QueueName_new] only when non-empty. *)
Record QueueName := mkQueueName { as_str : string }.

Definition QueueName_new (name : string) : option QueueName :=
  match name with
  | EmptyString => None
  | _ => Some (mkQueueName name)
  end.

#[global] Instance UnixMillis_eq_dec : EqDecision UnixMillis.
Proof. solve_decision. Defined.
#[global] Instance JobId_eq_dec : EqDecision JobId.
Proof. solve_decision. Defined.
#[global] Instance LeaseId_eq_dec : EqDecision LeaseId.
Proof. solve_decision. Defined.
#[global] Instance QueueName_eq_dec : EqDecision QueueName.
Proof. solve_decision. Defined.

#[global] Instance UnixMillis_countable : Countable UnixMillis.
Proof. by refine (inj_countable' as_millis from_millis _); intros []. Defined.
#[global] Instance JobId_countable : Countable JobId.
Proof. by refine (inj_countable' as_uuid from_uuid _); intros []. Defined.
#[global] Instance LeaseId_countable : Countable LeaseId.
Proof. by refine (inj_countable' epoch LeaseId_new _); intros []. Defined.
#[global] Instance QueueName_countable : Countable QueueName.
Proof. by refine (inj_countable' as_str mkQueueName _); intros []. Defined.

(** ** Jobs *)

Inductive JobState :=
| Queued
| Running
| RetryWaiting
| Completed
| Dead
| Cancelled.

#[global] Instance JobState_eq_dec : EqDecision JobState.
Proof. solve_decision. Defined.

Definition is_terminal (s : JobState) : bool :=
  match s with
  | Completed | Dead | Cancelled => true
  | _ => false
  end.

Definition MAX_PAYLOAD_SIZE : Z := 1024 * 1024.

Record JobSpec := mkJobSpec {
  payload : list byte;
  max_attempts : Z;
}.

Definition JobSpec_new (payload : list byte) : JobSpec :=
  {| payload := payload; max_attempts := 3 |}.

Definition with_max_attempts (spec : JobSpec) (n : Z) : JobSpec :=
  {| payload := payload spec; max_attempts := n |}.

Record JobRecord := mkJobRecord {
  job_id : JobId;
  job_queue : QueueName;
  job_spec : JobSpec;
  job_state : JobState;
  job_attempts : Z;
  job_created_at : UnixMillis;
}.

Definition JobRecord_new (id : JobId) (queue : QueueName) (spec : JobSpec)
    (created_at : UnixMillis) : JobRecord :=
  {| job_id := id; job_queue := queue; job_spec := spec;
     job_state := Queued; job_attempts := 0; job_created_at := created_at |}.

(** [job.state = s] *)
Definition set_state (s : JobState) (j : JobRecord) : JobRecord :=
  {| job_id := job_id j; job_queue := job_queue j; job_spec := job_spec j;
     job_state := s; job_attempts := job_attempts j;
     job_created_at := job_created_at j |}.

(** [job.attempts = n] *)
Definition set_attempts (n : Z) (j : JobRecord) : JobRecord :=
  {| job_id := job_id j; job_queue := job_queue j; job_spec := job_spec j;
     job_state := job_state j; job_attempts := n;
     job_created_at := job_created_at j |}.

(** ** WAL records *)

Inductive WalRecord :=
| JobSubmitted (id : JobId) (queue : QueueName) (spec : JobSpec) (created_at : UnixMillis)
| JobLeased (id : JobId) (lease_id : LeaseId) (attempt : Z) (leased_at : UnixMillis)
| JobRetryScheduled (id : JobId) (lease_id : LeaseId) (attempt : Z) (available_at : UnixMillis)
| JobCompleted (id : JobId) (lease_id : LeaseId) (completed_at : UnixMillis)
| JobDead (id : JobId) (lease_id : LeaseId) (dead_at : UnixMillis)
| JobCancelled (id : JobId) (cancelled_at : UnixMillis).

Definition record_job_id (r : WalRecord) : JobId :=
  match r with
  | JobSubmitted id _ _ _ => id
  | JobLeased id _ _ _ => id
  | JobRetryScheduled id _ _ _ => id
  | JobCompleted id _ _ => id
  | JobDead id _ _ => id
  | JobCancelled id _ => id
  end.

Definition record_type (r : WalRecord) : Z :=
  match r with
  | JobSubmitted _ _ _ _ => 1
  | JobLeased _ _ _ _ => 2
  | JobRetryScheduled _ _ _ _ => 3
  | JobCompleted _ _ _ => 4
  | JobDead _ _ _ => 5
  | JobCancelled _ _ => 6
  end.

Lemma record_type_range r : 1 ≤ record_type r ≤ 6.
Proof. destruct r; simpl; lia. Qed.

#[global] Instance JobSpec_eq_dec : EqDecision JobSpec.
Proof. solve_decision. Defined.
#[global] Instance JobRecord_eq_dec : EqDecision JobRecord.
Proof. solve_decision. Defined.
#[global] Instance WalRecord_eq_dec : EqDecision WalRecord.
Proof. solve_decision. Defined.

(** ** Errors

    The rendered text of an error is not modelled: where the source stores
    [id.to_string()] the model stores the identifier, and an [io::Error] or a
    serializer error is an opaque string. *)

Inductive WalError :=
| Io (msg : string)
| StoreLocked
| InvalidWalHeader
| UnsupportedWalVersion (v : Z)
| UnsupportedRecordVersion (v : Z)
| RecordTooLarge (n : Z)
| Serialization (msg : string)
| ChecksumMismatch (expected computed : Z)
| SequenceViolation (expected got : Z)
| TruncatedFrame
| SyncFailed
| WriterChannelClosed
| RecoveryQueueNotFound (queue : string)
| RecoveryCapacityExceeded (queue : string) (recovered capacity : Z)
| SequenceExhausted
| LeaseEpochExhausted
| RecoveryStateError (msg : string).

Abbreviation WalResult A := (result A WalError).

Inductive Error :=
| QueueNotFound (queue : string)
| QueueFull (queue : string)
| InvalidQueueName
| InvalidConfiguration (msg : string)
| JobNotFound (id : JobId)
| InvalidTransition (from to : JobState)
| StaleLease (id : JobId)
| ShuttingDown
| PayloadTooLarge (size max : Z)
| Storage_error (e : WalError).

Abbreviation Result A := (result A Error).

(** ** Statistics *)

Record QueueStats := mkQueueStats {
  qstat_submitted : Z;
  qstat_queued : Z;
  qstat_running : Z;
  qstat_retrying : Z;
  qstat_completed : Z;
  qstat_dead : Z;
  qstat_cancelled : Z;
}.

Definition QueueStats_default : QueueStats := mkQueueStats 0 0 0 0 0 0 0.

Record StatsSnapshot := mkStatsSnapshot {
  snap_submitted : Z;
  snap_queued : Z;
  snap_running : Z;
  snap_retrying : Z;
  snap_completed : Z;
  snap_dead : Z;
  snap_cancelled : Z;
  snap_retried : Z;
  snap_stale_outcomes : Z;
  snap_per_queue : gmap string QueueStats;
}.

(** ** Handler errors *)

(** [JobError], whose boxed cause is an opaque string. *)
Inductive JobError :=
| Retryable_error (cause : string)
| Fatal_error (cause : string).

Definition is_retryable (e : JobError) : bool :=
  match e with
  | Retryable_error _ => true
  | Fatal_error _ => false
  end.
