(* ===== verification/Config.v ===== *)
(** * Configuration ([config.rs])

    Queue, retry and runtime configuration, its validation, and the
    exponential backoff with optional full jitter.  A [Duration] is its total
    number of nanoseconds, between 0 and [DURATION_MAX]. *)

From S2P Require Import Prelude Types.

(** ** Durations *)

Definition NANOS_PER_MILLI : Z := 1000000.
Definition NANOS_PER_SEC : Z := 1000000000.

(** [Duration::MAX]: [u64::MAX] seconds and 999,999,999 nanoseconds. *)
Definition DURATION_MAX : Z := u64_max * NANOS_PER_SEC + (NANOS_PER_SEC - 1).

Definition duration_range (d : Z) : Prop := 0 ≤ d ≤ DURATION_MAX.

Definition from_secs (s : Z) : Z := s * NANOS_PER_SEC.
Definition duration_from_millis (ms : Z) : Z := ms * NANOS_PER_MILLI.
(** [d.saturating_mul(n)] *)
Definition duration_saturating_mul (d n : Z) : Z := Z.min (d * n) DURATION_MAX.
(** [d.as_millis()] *)
Definition duration_as_millis (d : Z) : Z := d / NANOS_PER_MILLI.

(** ** Queues and retries *)

Record QueueConfig := mkQueueConfig {
  qc_name : QueueName;
  qc_capacity : Z;
}.

Inductive Jitter := NoJitter | Full.

Record RetryConfig := mkRetryConfig {
  base_delay : Z;
  max_delay : Z;
  jitter : Jitter;
}.

Definition RetryConfig_default : RetryConfig :=
  {| base_delay := from_secs 1; max_delay := from_secs 300; jitter := NoJitter |}.

Definition RetryConfig_new (base_delay max_delay : Z) : RetryConfig :=
  {| base_delay := base_delay; max_delay := max_delay; jitter := NoJitter |}.

Definition with_jitter (c : RetryConfig) (j : Jitter) : RetryConfig :=
  {| base_delay := base_delay c; max_delay := max_delay c; jitter := j |}.

Definition RetryConfig_validate (c : RetryConfig) : Result unit :=
  if base_delay c =? 0 then
    Err (InvalidConfiguration "retry base_delay must be positive")
  else if max_delay c =? 0 then
    Err (InvalidConfiguration "retry max_delay must be positive")
  else if max_delay c <? base_delay c then
    Err (InvalidConfiguration "retry base_delay must not exceed max_delay")
  else Ok ().

(** The doubling loop of [cap_for_attempt], with its early exit. *)
Fixpoint backoff_loop (exp : nat) (backoff max_delay : Z) : Z :=
  match exp with
  | O => Z.min backoff max_delay
  | S exp =>
      let backoff := duration_saturating_mul backoff 2 in
      if max_delay <=? backoff then max_delay
      else backoff_loop exp backoff max_delay
  end.

(** [attempt.saturating_sub(1).min(63)] *)
Definition backoff_exp (attempt : Z) : Z := Z.min (sat_decr attempt) 63.

Definition cap_for_attempt (c : RetryConfig) (attempt : Z) : Z :=
  backoff_loop (Z.to_nat (backoff_exp attempt)) (base_delay c) (max_delay c).

(** [rand hi] is what [rng.random_range(0..=hi)] returns. *)
Definition delay_with_rng (c : RetryConfig) (attempt : Z) (rand : Z → Z) : Z :=
  let cap := cap_for_attempt c attempt in
  match jitter c with
  | NoJitter => cap
  | Full =>
      let cap_nanos := cap in
      if cap_nanos =? 0 then 0
      else
        let jittered_nanos :=
          if cap_nanos <=? u64_max then rand cap_nanos
          else
            let scale := cap_nanos / u64_max in
            let base := rand u64_max in
            Z.min (base * scale) cap_nanos in
        Z.min jittered_nanos u64_max
  end.

(** ** Runtime configuration *)

Inductive StorageConfig :=
| MemoryStorage
| WalStorage (path : string).

Record RuntimeConfig := mkRuntimeConfig {
  cfg_queues : list QueueConfig;
  channel_capacity : Z;
  worker_concurrency : Z;
  visibility_timeout : Z;
  cfg_retry : RetryConfig;
  shutdown_timeout : Z;
  cfg_storage : StorageConfig;
}.

Definition RuntimeConfig_new (queues : list QueueConfig) (channel_capacity : Z) : RuntimeConfig :=
  {| cfg_queues := queues;
     channel_capacity := channel_capacity;
     worker_concurrency := 4;
     visibility_timeout := from_secs 30;
     cfg_retry := RetryConfig_default;
     shutdown_timeout := from_secs 30;
     cfg_storage := MemoryStorage |}.

Definition with_worker_concurrency (c : RuntimeConfig) (n : Z) : RuntimeConfig :=
  mkRuntimeConfig (cfg_queues c) (channel_capacity c) n (visibility_timeout c)
    (cfg_retry c) (shutdown_timeout c) (cfg_storage c).

Definition with_visibility_timeout (c : RuntimeConfig) (t : Z) : RuntimeConfig :=
  mkRuntimeConfig (cfg_queues c) (channel_capacity c) (worker_concurrency c) t
    (cfg_retry c) (shutdown_timeout c) (cfg_storage c).

Definition with_retry (c : RuntimeConfig) (r : RetryConfig) : RuntimeConfig :=
  mkRuntimeConfig (cfg_queues c) (channel_capacity c) (worker_concurrency c)
    (visibility_timeout c) r (shutdown_timeout c) (cfg_storage c).

Definition with_shutdown_timeout (c : RuntimeConfig) (t : Z) : RuntimeConfig :=
  mkRuntimeConfig (cfg_queues c) (channel_capacity c) (worker_concurrency c)
    (visibility_timeout c) (cfg_retry c) t (cfg_storage c).

Definition with_storage (c : RuntimeConfig) (s : StorageConfig) : RuntimeConfig :=
  mkRuntimeConfig (cfg_queues c) (channel_capacity c) (worker_concurrency c)
    (visibility_timeout c) (cfg_retry c) (shutdown_timeout c) s.

(** The loop over the queues, with the set of names seen so far. *)
Fixpoint validate_queues (seen : gset string) (qs : list QueueConfig) : Result unit :=
  match qs with
  | [] => Ok ()
  | q :: qs =>
      let name := as_str (qc_name q) in
      if qc_capacity q =? 0 then
        Err (InvalidConfiguration (("queue '" +:+ name) +:+ "' has zero capacity"))
      else if decide (name ∈ seen) then
        Err (InvalidConfiguration (("duplicate queue name: '" +:+ name) +:+ "'"))
      else validate_queues ({[name]} ∪ seen) qs
  end.

Definition RuntimeConfig_validate (c : RuntimeConfig) : Result unit :=
  if channel_capacity c =? 0 then
    Err (InvalidConfiguration "channel capacity must be positive")
  else if worker_concurrency c =? 0 then
    Err (InvalidConfiguration "worker concurrency must be positive")
  else if visibility_timeout c =? 0 then
    Err (InvalidConfiguration "visibility_timeout must be positive")
  else if shutdown_timeout c =? 0 then
    Err (InvalidConfiguration "shutdown_timeout must be positive")
  else
    try _ := RetryConfig_validate (cfg_retry c) in
    validate_queues ∅ (cfg_queues c).

(** ** Backoff *)

(** The closed form of the backoff loop: the saturating doubling with its
    early exit computes [min (b * 2^n) max]. *)
Lemma backoff_loop_spec n b mx :
  0 ≤ b → 0 ≤ mx ≤ DURATION_MAX →
  backoff_loop n b mx = Z.min (b * 2 ^ Z.of_nat n) mx.
Proof.
  revert b; induction n as [|n IH]; intros b Hb Hmx; cbn [backoff_loop].
  { by rewrite Z.pow_0_r, Z.mul_1_r. }
  rewrite Nat2Z.inj_succ, Z.pow_succ_r by lia.
  pose proof (Z.pow_pos_nonneg 2 (Z.of_nat n)) as Hp.
  unfold duration_saturating_mul.
  destruct (Z.leb_spec mx (Z.min (b * 2) DURATION_MAX)) as [Hle|Hlt].
  - symmetry; apply Z.min_r. nia.
  - rewrite Z.min_l, IH by lia. f_equal. lia.
Qed.

Section retry.
Context (c : RetryConfig).
Context (Hbase : duration_range (base_delay c)) (Hmax : duration_range (max_delay c)).

Lemma cap_for_attempt_eq attempt :
  cap_for_attempt c attempt =
    Z.min (base_delay c * 2 ^ backoff_exp attempt) (max_delay c).
Proof.
  unfold cap_for_attempt, duration_range in *.
  rewrite backoff_loop_spec, Z2Nat.id by
    (unfold backoff_exp, sat_decr; lia). done.
Qed.

Lemma backoff_exp_mono a a' : a ≤ a' → 0 ≤ backoff_exp a ≤ backoff_exp a'.
Proof. unfold backoff_exp, sat_decr. lia. Qed.

Lemma cap_for_attempt_range attempt : 0 ≤ cap_for_attempt c attempt ≤ max_delay c.
Proof.
  rewrite cap_for_attempt_eq. unfold duration_range in *.
  pose proof (Z.pow_nonneg 2 (backoff_exp attempt)). nia.
Qed.

Lemma delay_with_rng_range attempt rand :
  (∀ hi, 0 ≤ hi ≤ u64_max → 0 ≤ rand hi ≤ hi) →
  0 ≤ delay_with_rng c attempt rand ≤ cap_for_attempt c attempt.
Proof.
  intros Hrand. pose proof (cap_for_attempt_range attempt) as [Hc _].
  unfold delay_with_rng. destruct (jitter c); [lia|].
  destruct (Z.eqb_spec (cap_for_attempt c attempt) 0); [lia|].
  destruct (Z.leb_spec (cap_for_attempt c attempt) u64_max).
  - specialize (Hrand (cap_for_attempt c attempt)). lia.
  - specialize (Hrand u64_max). unfold u64_max in *.
    assert (0 ≤ cap_for_attempt c attempt / (2 ^ 64 - 1)) by (apply Z.div_pos; lia).
    nia.
Qed.
End retry.

(** C39: the capped backoff is exactly exponential: for every attempt it is
    [base_delay * 2^(min (attempt - 1) 63)] cut at [max_delay], it never
    exceeds [max_delay], and it never decreases from an attempt to a later one;
    the saturating loop with early exit computes this closed form. *)
Theorem cap_for_attempt_spec c attempt attempt' :
  duration_range (base_delay c) → duration_range (max_delay c) →
  attempt ≤ attempt' →
  cap_for_attempt c attempt =
    Z.min (base_delay c * 2 ^ Z.min (Z.max 0 (attempt - 1)) 63) (max_delay c)
  ∧ cap_for_attempt c attempt ≤ cap_for_attempt c attempt' ≤ max_delay c.
Proof.
  intros Hb Hm Ha. split; [by apply cap_for_attempt_eq|].
  split; [|by apply cap_for_attempt_range].
  rewrite !cap_for_attempt_eq by done.
  pose proof (backoff_exp_mono _ _ Ha) as [? ?].
  assert (2 ^ backoff_exp attempt ≤ 2 ^ backoff_exp attempt') by (apply Z.pow_le_mono_r; lia).
  unfold duration_range in *. nia.
Qed.

Lemma cap_for_attempt_spec_witness :
  cap_for_attempt RetryConfig_default 4 = 8 * NANOS_PER_SEC
  ∧ cap_for_attempt RetryConfig_default 4 ≤ cap_for_attempt RetryConfig_default 40 ≤ 300 * NANOS_PER_SEC.
Proof.
  apply (cap_for_attempt_spec RetryConfig_default 4 40); vm_compute; intuition discriminate.
Defined.

(** C40: whatever the random source returns, the jittered delay lies between
    zero and the capped backoff of the attempt, so [available_at] is never
    scheduled beyond [max_delay]; without jitter the delay is the cap itself. *)
Theorem delay_with_rng_bounds c attempt rand :
  duration_range (base_delay c) → duration_range (max_delay c) →
  (∀ hi, 0 ≤ hi ≤ u64_max → 0 ≤ rand hi ≤ hi) →
  0 ≤ delay_with_rng c attempt rand ≤ cap_for_attempt c attempt
  ∧ delay_with_rng c attempt rand ≤ max_delay c
  ∧ (jitter c = NoJitter → delay_with_rng c attempt rand = cap_for_attempt c attempt).
Proof.
  intros Hb Hm Hrand.
  pose proof (delay_with_rng_range c Hb Hm attempt rand Hrand).
  pose proof (cap_for_attempt_range c Hb Hm attempt).
  split_and!; [lia|lia|lia|]. unfold delay_with_rng. by intros ->.
Qed.

Lemma delay_with_rng_bounds_witness :
  let c := with_jitter (RetryConfig_new (from_secs 1) DURATION_MAX) Full in
  0 ≤ delay_with_rng c 64 (λ hi, hi / 2) ≤ cap_for_attempt c 64
  ∧ delay_with_rng c 64 (λ hi, hi / 2) ≤ DURATION_MAX
  ∧ (jitter c = NoJitter → delay_with_rng c 64 (λ hi, hi / 2) = cap_for_attempt c 64).
Proof.
  intros c.
  apply (delay_with_rng_bounds c 64 (λ hi, hi / 2)); [vm_compute; intuition discriminate..|].
  intros hi Hhi. split; [apply Z.div_pos; lia|apply Z.div_le_upper_bound; lia].
Defined.

(** ** Validation *)

Definition queue_names (qs : list QueueConfig) : list string :=
  (λ q, as_str (qc_name q)) <$> qs.

Lemma validate_queues_ok seen qs :
  validate_queues seen qs = Ok () ↔
    Forall (λ q, qc_capacity q ≠ 0) qs
    ∧ NoDup (queue_names qs) ∧ (∀ n, n ∈ queue_names qs → n ∉ seen).
Proof.
  revert seen; induction qs as [|q qs IH]; intros seen; cbn.
  { split; [|done]. intros _. split_and!; [constructor|constructor|set_solver]. }
  rewrite Forall_cons, NoDup_cons.
  destruct (Z.eqb_spec (qc_capacity q) 0); [naive_solver|].
  case_decide as Hseen; [split; [done|]; set_solver|].
  rewrite IH. set_solver.
Qed.

(** [RuntimeConfig::validate] accepts exactly the configurations with a
    positive channel, a positive number of workers, positive timeouts, a retry
    policy with [0 < base_delay <= max_delay], non-zero queue capacities and
    pairwise distinct queue names. *)
Lemma RuntimeConfig_validate_ok c :
  RuntimeConfig_validate c = Ok () ↔
    channel_capacity c ≠ 0 ∧ worker_concurrency c ≠ 0
    ∧ visibility_timeout c ≠ 0 ∧ shutdown_timeout c ≠ 0
    ∧ base_delay (cfg_retry c) ≠ 0 ∧ max_delay (cfg_retry c) ≠ 0
    ∧ base_delay (cfg_retry c) ≤ max_delay (cfg_retry c)
    ∧ Forall (λ q, qc_capacity q ≠ 0) (cfg_queues c)
    ∧ NoDup (queue_names (cfg_queues c)).
Proof.
  unfold RuntimeConfig_validate, RetryConfig_validate.
  repeat match goal with
  | |- context [if ?a =? 0 then _ else _] =>
      destruct (Z.eqb_spec a 0); [cbn; naive_solver|]
  | |- context [if ?a <? ?b then _ else _] =>
      destruct (Z.ltb_spec a b); [cbn; naive_solver lia|]
  end.
  cbn. rewrite validate_queues_ok. set_solver.
Qed.
