(* ===== verification/Store.v ===== *)
(** * The in-memory job store ([MemoryStore] of [store.rs])

    The store maps job identifiers to job records.  [apply_record] is the only
    way a WAL record changes it; [transition_to_queued] moves a job whose retry
    delay has expired back to [Queued] without a record. *)

From S2P Require Import Prelude Types.

Abbreviation MemoryStore := (gmap JobId JobRecord).

Definition store_new : MemoryStore := ∅.

Definition store_get (st : MemoryStore) (id : JobId) : option JobRecord := st !! id.

(** [insert_job] *)
Definition insert_job (job : JobRecord) (st : MemoryStore) : MemoryStore :=
  <[job_id job := job]> st.

Definition is_valid_transition (from to : JobState) : bool :=
  match from, to with
  | Queued, Running => true
  | Queued, Cancelled => true
  | Running, Completed => true
  | Running, RetryWaiting => true
  | Running, Dead => true
  | Running, Cancelled => true
  | RetryWaiting, Queued => true
  | RetryWaiting, Dead => true
  | RetryWaiting, Cancelled => true
  | _, _ => false
  end.

(** The lookup, the transition check and the in-place update that the arms of
    [apply_record] share. *)
Definition transition (id : JobId) (to : JobState) (upd : JobRecord → JobRecord)
    (st : MemoryStore) : Result MemoryStore :=
  try job := ok_or (st !! id) (JobNotFound id) in
  if negb (is_valid_transition (job_state job) to) then
    Err (InvalidTransition (job_state job) to)
  else Ok (<[id := upd job]> st).

Definition apply_record (st : MemoryStore) (record : WalRecord) : Result MemoryStore :=
  match record with
  | JobSubmitted id queue spec created_at =>
      Ok (<[id := JobRecord_new id queue spec created_at]> st)
  | JobLeased id _ attempt _ =>
      transition id Running (λ job, set_attempts attempt (set_state Running job)) st
  | JobRetryScheduled id _ _ _ => transition id RetryWaiting (set_state RetryWaiting) st
  | JobCompleted id _ _ => transition id Completed (set_state Completed) st
  | JobDead id _ _ => transition id Dead (set_state Dead) st
  | JobCancelled id _ => transition id Cancelled (set_state Cancelled) st
  end.

Definition transition_to_queued (st : MemoryStore) (id : JobId)
    : Result (JobRecord * MemoryStore) :=
  try st' := transition id Queued (set_state Queued) st in
  try job := ok_or (st' !! id) (JobNotFound id) in
  Ok (job, st').

(** ** Lemmas *)

Lemma transition_ok id to upd st st' :
  transition id to upd st = Ok st' ↔
    ∃ job, st !! id = Some job ∧ is_valid_transition (job_state job) to = true
           ∧ st' = <[id := upd job]> st.
Proof.
  unfold transition. destruct (st !! id) as [job|]; cbn; [|naive_solver].
  destruct (is_valid_transition _ _) eqn:?; cbn; naive_solver congruence.
Qed.

Lemma transition_terminal id to upd st job :
  st !! id = Some job → is_terminal (job_state job) = true →
  transition id to upd st = Err (InvalidTransition (job_state job) to).
Proof.
  intros Hj Ht. unfold transition. rewrite Hj. cbn.
  by destruct (job_state job), to.
Qed.

Lemma valid_from_live from to : is_valid_transition from to = true → is_terminal from = false.
Proof. by destruct from, to. Qed.

(** The record that a successful [apply_record] leaves for its job. *)
Definition record_effect (record : WalRecord) (old : option JobRecord) : option JobRecord :=
  match record with
  | JobSubmitted id queue spec created_at => Some (JobRecord_new id queue spec created_at)
  | JobLeased _ _ attempt _ => (λ job, set_attempts attempt (set_state Running job)) <$> old
  | JobRetryScheduled _ _ _ _ => set_state RetryWaiting <$> old
  | JobCompleted _ _ _ => set_state Completed <$> old
  | JobDead _ _ _ => set_state Dead <$> old
  | JobCancelled _ _ => set_state Cancelled <$> old
  end.

(** The state that a record moves its job to. *)
Definition record_target (record : WalRecord) : JobState :=
  match record with
  | JobSubmitted _ _ _ _ => Queued
  | JobLeased _ _ _ _ => Running
  | JobRetryScheduled _ _ _ _ => RetryWaiting
  | JobCompleted _ _ _ => Completed
  | JobDead _ _ _ => Dead
  | JobCancelled _ _ => Cancelled
  end.

Definition is_submit (record : WalRecord) : bool :=
  match record with JobSubmitted _ _ _ _ => true | _ => false end.

Lemma apply_record_ok st record st' :
  apply_record st record = Ok st' →
  st' !! record_job_id record = record_effect record (st !! record_job_id record)
  ∧ is_Some (st' !! record_job_id record)
  ∧ (∀ id, id ≠ record_job_id record → st' !! id = st !! id)
  ∧ (is_submit record = false →
       ∃ job, st !! record_job_id record = Some job
              ∧ is_valid_transition (job_state job) (record_target record) = true).
Proof.
  intros H. destruct record; cbn in *; simplify_eq;
    try apply transition_ok in H as (job & Hj & Hv & ->);
    rewrite lookup_insert_eq; rewrite ?Hj; cbn;
    (split_and!; [done|by eexists| |naive_solver]);
    intros ??; by rewrite lookup_insert_ne.
Qed.

Lemma record_effect_state record old job :
  record_effect record old = Some job → job_state job = record_target record.
Proof. destruct record, old; cbn; naive_solver. Qed.

(** ** Invariant: every job is stored under its own identifier *)

Definition store_wf (st : MemoryStore) : Prop :=
  map_Forall (λ id job, job_id job = id) st.

Lemma store_wf_empty : store_wf store_new.
Proof. apply map_Forall_empty. Qed.

Lemma store_wf_insert st id job :
  store_wf st → job_id job = id → store_wf (<[id := job]> st).
Proof. intros. by apply map_Forall_insert_2. Qed.

Lemma record_effect_id record old job :
  (∀ j, old = Some j → job_id j = record_job_id record) →
  record_effect record old = Some job → job_id job = record_job_id record.
Proof. destruct record, old; cbn; naive_solver. Qed.

#[export] Hint Resolve store_wf_empty store_wf_insert : rdq.

(** [apply_record] preserves store well-formedness and acts on a single
    job: the job of the record ends in the state the record names, through a
    transition of the lifecycle table when it existed before, every other job
    is untouched, and on an error no store is produced. *)
Lemma apply_record_spec st record st' :
  store_wf st → apply_record st record = Ok st' →
  store_wf st'
  ∧ (∃ job', st' !! record_job_id record = Some job'
       ∧ job_state job' = record_target record)
  ∧ (is_submit record = false →
       ∃ job, st !! record_job_id record = Some job
              ∧ is_valid_transition (job_state job) (record_target record) = true)
  ∧ (∀ id, id ≠ record_job_id record → st' !! id = st !! id).
Proof.
  intros Hwf H. pose proof (apply_record_ok _ _ _ H) as (Heff & [job' Hj'] & Hne & Hv).
  split_and!; [|exists job'; split; [done|]|done|done].
  - intros id job Hj. destruct (decide (id = record_job_id record)) as [->|Hid].
    + rewrite Heff in Hj. eapply record_effect_id; [|done]. intros j. apply Hwf.
    + apply Hwf. by rewrite <-Hne.
  - eapply record_effect_state. by rewrite <-Heff.
Qed.

(** A job in a terminal state is frozen: every record for it other than a
    new submission under the same identifier is rejected with
    [InvalidTransition], and [transition_to_queued] rejects it as well. *)
Lemma terminal_jobs_are_final st record job :
  st !! record_job_id record = Some job → is_terminal (job_state job) = true →
  is_submit record = false →
  apply_record st record = Err (InvalidTransition (job_state job) (record_target record))
  ∧ transition_to_queued st (record_job_id record)
      = Err (InvalidTransition (job_state job) Queued).
Proof.
  intros Hj Ht Hs. unfold transition_to_queued.
  rewrite (transition_terminal _ _ _ _ _ Hj Ht). split; [|done].
  destruct record; [done|..]; by apply transition_terminal.
Qed.

(** ** Counting jobs *)

(** The number of stored jobs that satisfy [P]. *)
Abbreviation count_jobs := (mcount (K := JobId) (V := JobRecord)).

(** The jobs of a queue in a state. *)
Definition in_queue (q : string) (s : JobState) (job : JobRecord) : bool :=
  bool_decide (as_str (job_queue job) = q) && bool_decide (job_state job = s).

Lemma in_queue_spec q s job :
  in_queue q s job = true ↔ as_str (job_queue job) = q ∧ job_state job = s.
Proof. unfold in_queue. by rewrite andb_true_iff, !bool_decide_eq_true. Qed.

Lemma in_queue_false q s job :
  in_queue q s job = false ↔ ¬ (as_str (job_queue job) = q ∧ job_state job = s).
Proof. by rewrite <-in_queue_spec, not_true_iff_false. Qed.

(** The jobs in a state. *)
Definition has_state (s : JobState) (job : JobRecord) : bool := bool_decide (job_state job = s).

(** The unfinished jobs of a queue. *)
Definition live_in (q : string) (job : JobRecord) : bool :=
  bool_decide (as_str (job_queue job) = q) && negb (is_terminal (job_state job)).

Lemma live_in_spec q job :
  live_in q job = true ↔ as_str (job_queue job) = q ∧ is_terminal (job_state job) = false.
Proof. unfold live_in. by rewrite andb_true_iff, bool_decide_eq_true, negb_true_iff. Qed.

(** ** Example data *)

Definition ex_id : JobId := from_uuid 7.
Definition ex_queue : QueueName := mkQueueName "default".
Definition ex_submit : WalRecord := JobSubmitted ex_id ex_queue (JobSpec_new []) (from_millis 100).
Definition ex_job : JobRecord := JobRecord_new ex_id ex_queue (JobSpec_new []) (from_millis 100).

