(* ===== verification/Codec.v ===== *)
(** * The WAL codec ([wal/codec.rs])

    The file header and the frame layout: little-endian length, version, type
    and sequence, the serialized record, and a checksum over all of it.  The
    serializer ([postcard]) and the checksum ([crc32fast]) are third-party
    code: they are the operations of the class [Wire], and [WireLaws] states
    what the codec relies on. *)

From S2P Require Import Prelude Types.

(** ** External code *)

Class Wire := {
  (** [postcard::to_allocvec] *)
  to_allocvec : WalRecord → result (list byte) string;
  (** [postcard::from_bytes] *)
  from_bytes : list byte → result WalRecord string;
  (** [crc32fast::hash] *)
  crc32 : list byte → Z;
}.

Class WireLaws (W : Wire) : Prop := {
  (** what is serialized can be read back *)
  from_to_allocvec : ∀ r bs, to_allocvec r = Ok bs → from_bytes bs = Ok r;
  (** the checksum is a [u32] *)
  crc32_range : ∀ bs, u32_range (crc32 bs);
}.

(** ** Header *)

(** ["RDQUEUE\0"] *)
Definition WAL_MAGIC : list byte :=
  [Byte.x52; Byte.x44; Byte.x51; Byte.x55; Byte.x45; Byte.x55; Byte.x45; Byte.x00].
Definition WAL_VERSION : Z := 1.
Definition HEADER_SIZE : nat := 10.
Definition FRAME_OVERHEAD : nat := 18.
Definition MAX_RECORD_SIZE : Z := 1024 * 1024.
Definition RECORD_VERSION : Z := 1.

(** [&buf[i..j]] *)
Definition slice (buf : list byte) (i j : nat) : list byte := drop i (take j buf).
(** [buf[i]] *)
Definition index_u8 (buf : list byte) (i : nat) : Z := from_le_bytes (slice buf i (S i)).

Record WalHeader := mkWalHeader {
  magic : list byte;
  version : Z;
}.

Definition WalHeader_new : WalHeader :=
  {| magic := WAL_MAGIC; version := WAL_VERSION |}.

Definition header_encode (h : WalHeader) : list byte :=
  magic h ++ to_le_bytes 2 (version h).

Definition header_decode (buf : list byte) : WalResult WalHeader :=
  let magic := slice buf 0 8 in
  if decide (magic ≠ WAL_MAGIC) then Err InvalidWalHeader
  else
    let version := from_le_bytes (slice buf 8 10) in
    if negb (version =? WAL_VERSION) then Err (UnsupportedWalVersion version)
    else Ok {| magic := magic; version := version |}.

(** ** Frames *)

Record WalFrame := mkWalFrame {
  sequence : Z;
  frame_record : WalRecord;
}.

Section codec.
Context `{W : Wire}.

(** Everything of a frame before the checksum. *)
Definition frame_body (seq : Z) (record : WalRecord) (payload : list byte) : list byte :=
  to_le_bytes 4 (u32_wrap (zlen payload)) ++ [byte_of_Z RECORD_VERSION]
  ++ [byte_of_Z (record_type record)] ++ to_le_bytes 8 seq ++ payload.

Definition frame_encode (f : WalFrame) : WalResult (list byte) :=
  try payload := map_err Serialization (to_allocvec (frame_record f)) in
  if MAX_RECORD_SIZE <? zlen payload then Err (RecordTooLarge (zlen payload))
  else
    let buf := frame_body (sequence f) (frame_record f) payload in
    let crc := crc32 buf in
    Ok (buf ++ to_le_bytes 4 crc).

Definition frame_decode (buf : list byte) : WalResult (WalFrame * nat) :=
  if (length buf <? FRAME_OVERHEAD)%nat then Err TruncatedFrame
  else
    let payload_len := from_le_bytes (slice buf 0 4) in
    if MAX_RECORD_SIZE <? payload_len then Err (RecordTooLarge payload_len)
    else
      let total_size := (FRAME_OVERHEAD + Z.to_nat payload_len)%nat in
      if (length buf <? total_size)%nat then Err TruncatedFrame
      else
        let record_version := index_u8 buf 4 in
        if negb (record_version =? RECORD_VERSION) then
          Err (UnsupportedRecordVersion record_version)
        else
          let sequence := from_le_bytes (slice buf 6 14) in
          let payload_start := 14%nat in
          let payload_end := (payload_start + Z.to_nat payload_len)%nat in
          let payload := slice buf payload_start payload_end in
          let stored_crc := from_le_bytes (slice buf payload_end (payload_end + 4)) in
          let computed_crc := crc32 (take payload_end buf) in
          if negb (stored_crc =? computed_crc) then
            Err (ChecksumMismatch stored_crc computed_crc)
          else
            try record := map_err Serialization (from_bytes payload) in
            Ok ({| sequence := sequence; frame_record := record |}, total_size).
End codec.

(** ** Slices *)

Lemma slice_app_mid (a b c : list byte) i j :
  i = length a → j = (length a + length b)%nat → slice (a ++ b ++ c) i j = b.
Proof.
  intros -> ->. unfold slice. rewrite take_app_ge by lia.
  rewrite Nat.add_comm, Nat.add_sub, drop_app_length. by apply take_app_exact.
Qed.

Lemma slice_app_hd (b c : list byte) j : j = length b → slice (b ++ c) 0 j = b.
Proof. intros ->. apply (slice_app_mid [] b c); done. Qed.

Lemma slice_ext (buf buf' : list byte) i j n :
  (j ≤ n)%nat → take n buf = take n buf' → slice buf i j = slice buf' i j.
Proof.
  intros Hj Heq. unfold slice.
  replace j with (j `min` n)%nat by lia. by rewrite <-!take_take, Heq.
Qed.

Lemma take_ext (buf buf' : list byte) j n :
  (j ≤ n)%nat → take n buf = take n buf' → take j buf = take j buf'.
Proof. intros ? Heq. exact (slice_ext buf buf' 0 j n ltac:(done) Heq). Qed.

Lemma length_ext (buf buf' : list byte) n :
  take n buf = take n buf' → (n ≤ length buf)%nat → (n ≤ length buf')%nat.
Proof. intros Heq%(f_equal length). rewrite !length_take in Heq. lia. Qed.

(** ** Header laws *)

Lemma length_header_encode : length (header_encode WalHeader_new) = HEADER_SIZE.
Proof. done. Qed.

Lemma header_decode_encode : header_decode (header_encode WalHeader_new) = Ok WalHeader_new.
Proof. reflexivity. Qed.

(** The header codec is exact: a ten-byte buffer decodes exactly when it is
    the encoding of the current header; a wrong magic is [InvalidWalHeader] and
    a right magic with another version is [UnsupportedWalVersion]. *)
Lemma header_decode_cases buf :
  length buf = HEADER_SIZE →
  (is_ok (header_decode buf) = true ↔ buf = header_encode WalHeader_new)
  ∧ (header_decode buf = Err InvalidWalHeader ↔ take 8 buf ≠ WAL_MAGIC)
  ∧ (∀ v, header_decode buf = Err (UnsupportedWalVersion v) ↔
       take 8 buf = WAL_MAGIC ∧ v = from_le_bytes (drop 8 buf) ∧ v ≠ WAL_VERSION).
Proof.
  intros Hlen. unfold HEADER_SIZE in Hlen.
  assert (∃ m v, buf = m ++ v ∧ length m = 8%nat ∧ length v = 2%nat) as (m & v & -> & Hm & Hv).
  { exists (take 8 buf), (drop 8 buf).
    rewrite take_drop, length_take, length_drop. split_and!; lia || done. }
  unfold header_decode, header_encode.
  assert (slice (m ++ v) 0 8 = m) as -> by
    (unfold slice; rewrite take_app_exact by done; done).
  assert (slice (m ++ v) 8 10 = v) as -> by
    (unfold slice; rewrite take_ge by (rewrite length_app; lia); by apply drop_app_exact).
  rewrite take_app_exact, drop_app_exact by done. cbn [magic version WalHeader_new].
  assert (m ++ v = WAL_MAGIC ++ to_le_bytes 2 WAL_VERSION
          ↔ m = WAL_MAGIC ∧ from_le_bytes v = WAL_VERSION) as ->.
  { split; [intros [-> ->]%app_inj_1; done|]. intros [-> <-]. by rewrite <-Hv, to_from_le_bytes. }
  case_decide; [naive_solver|].
  destruct (Z.eqb_spec (from_le_bytes v) WAL_VERSION); cbn; naive_solver.
Qed.

Lemma header_decode_ok buf h :
  length buf = HEADER_SIZE → header_decode buf = Ok h → buf = header_encode WalHeader_new.
Proof. intros Hlen Hok. apply (header_decode_cases buf Hlen). by rewrite Hok. Qed.

(** ** Frame laws *)

Section frames.
Context `{W : Wire}.

Lemma length_frame_body seq r p : length (frame_body seq r p) = (14 + length p)%nat.
Proof.
  unfold frame_body. rewrite !length_app, !length_to_le_bytes. cbn. lia.
Qed.

Lemma frame_encode_ok f bs :
  frame_encode f = Ok bs ↔
    ∃ p, to_allocvec (frame_record f) = Ok p ∧ zlen p ≤ MAX_RECORD_SIZE
         ∧ bs = frame_body (sequence f) (frame_record f) p
                ++ to_le_bytes 4 (crc32 (frame_body (sequence f) (frame_record f) p)).
Proof.
  unfold frame_encode. destruct (to_allocvec _) as [p|]; cbn; [|naive_solver].
  destruct (Z.ltb_spec MAX_RECORD_SIZE (zlen p)); naive_solver lia.
Qed.

Lemma frame_encode_length f bs :
  frame_encode f = Ok bs → (FRAME_OVERHEAD ≤ length bs)%nat.
Proof.
  intros (p & _ & _ & ->)%frame_encode_ok.
  rewrite length_app, length_frame_body, length_to_le_bytes. unfold FRAME_OVERHEAD. lia.
Qed.

(** The first four bytes of an encoded frame announce its length. *)
Lemma frame_encode_payload_len f bs rest :
  frame_encode f = Ok bs →
  from_le_bytes (slice (bs ++ rest) 0 4) = zlen bs - Z.of_nat FRAME_OVERHEAD
  ∧ 0 ≤ zlen bs - Z.of_nat FRAME_OVERHEAD ≤ MAX_RECORD_SIZE.
Proof.
  intros (p & _ & Hp & ->)%frame_encode_ok.
  rewrite length_app, length_frame_body, length_to_le_bytes.
  unfold frame_body, MAX_RECORD_SIZE, FRAME_OVERHEAD, u32_wrap in *.
  rewrite Z.mod_small by lia. rewrite <-!app_assoc.
  rewrite slice_app_hd by (by rewrite length_to_le_bytes).
  rewrite from_to_le_bytes; lia.
Qed.

(** Where the fields of a frame lie. *)
Lemma frame_body_fields seq r p tail :
  let body := frame_body seq r p in
  index_u8 (body ++ tail) 4 = RECORD_VERSION
  ∧ slice (body ++ tail) 6 14 = to_le_bytes 8 seq
  ∧ slice (body ++ tail) 14 (length body) = p.
Proof.
  intros body. unfold body, frame_body. split_and!.
  - unfold index_u8. rewrite <-!app_assoc.
    by rewrite slice_app_mid by (by rewrite ?length_to_le_bytes).
  - rewrite <-!app_assoc.
    rewrite (app_assoc (to_le_bytes 4 _)), (app_assoc (_ ++ [byte_of_Z RECORD_VERSION])).
    apply slice_app_mid; rewrite !length_app, !length_to_le_bytes; done.
  - unfold slice. rewrite take_app_length, !app_assoc.
    apply drop_app_exact. by rewrite !length_app, !length_to_le_bytes.
Qed.

Lemma frame_decode_encode `{!WireLaws W} f bs rest :
  u64_range (sequence f) → frame_encode f = Ok bs →
  frame_decode (bs ++ rest) = Ok (f, length bs).
Proof.
  intros Hseq Henc. pose proof (frame_encode_payload_len _ _ rest Henc) as [Hlen Hmax].
  pose proof (frame_encode_length _ _ Henc) as Hge.
  unfold frame_decode. rewrite length_app, Hlen.
  destruct (Nat.ltb_spec (length bs + length rest) FRAME_OVERHEAD); [lia|].
  destruct (Z.ltb_spec MAX_RECORD_SIZE (zlen bs - Z.of_nat FRAME_OVERHEAD)); [lia|].
  replace (Z.to_nat (zlen bs - Z.of_nat FRAME_OVERHEAD))
    with (length bs - FRAME_OVERHEAD)%nat by lia.
  destruct (Nat.ltb_spec (length bs + length rest) (FRAME_OVERHEAD + (length bs - FRAME_OVERHEAD))); [lia|].
  apply frame_encode_ok in Henc as (p & Hp & Hle & ->).
  set (body := frame_body _ _ _) in *.
  rewrite !length_app, length_to_le_bytes in *.
  pose proof (length_frame_body (sequence f) (frame_record f) p : length body = _) as Hb.
  unfold FRAME_OVERHEAD in *. rewrite Hb.
  replace (14 + (14 + length p + 4 - 18))%nat with (length body) by lia.
  rewrite <-app_assoc.
  destruct (frame_body_fields (sequence f) (frame_record f) p (to_le_bytes 4 (crc32 body) ++ rest))
    as (Hver & Hseqs & Hpay). fold body in Hver, Hseqs, Hpay. rewrite Hver, Hseqs, Hpay.
  rewrite (slice_app_mid body) by (rewrite ?length_to_le_bytes; done).
  rewrite take_app_length.
  rewrite from_to_le_bytes by (pose proof (crc32_range body); unfold u32_range in *; lia).
  rewrite !Z.eqb_refl. cbn [negb].
  rewrite (from_to_allocvec _ _ Hp). cbn [map_err rbind].
  rewrite from_to_le_bytes by (unfold u64_range in *; lia).
  destruct f. cbn. do 2 f_equal. lia.
Qed.

(** Decoding reads no byte past the frame it returns. *)
Lemma frame_decode_ext buf buf' f n :
  frame_decode buf = Ok (f, n) → take n buf = take n buf' → frame_decode buf' = Ok (f, n).
Proof.
  unfold frame_decode. intros H Heq.
  destruct (Nat.ltb_spec (length buf) FRAME_OVERHEAD) as [|Hge]; [done|].
  destruct (Z.ltb_spec MAX_RECORD_SIZE (from_le_bytes (slice buf 0 4))) as [|Hmax]; [done|].
  set (len := Z.to_nat (from_le_bytes (slice buf 0 4))) in *.
  destruct (Nat.ltb_spec (length buf) (FRAME_OVERHEAD + len)) as [|Hlen]; [done|].
  assert (n = FRAME_OVERHEAD + len)%nat as ->.
  { do 2 (destruct (negb _); [done|]). apply rbind_ok in H as (? & _ & H). congruence. }
  pose proof (length_ext _ _ _ Heq Hlen) as Hlen'. unfold FRAME_OVERHEAD in *.
  assert (∀ i j, (j ≤ 18 + len)%nat → slice buf' i j = slice buf i j) as Hs
    by (intros; by eapply slice_ext).
  unfold index_u8 in *. rewrite (Hs 0%nat 4%nat) by lia. fold len. rewrite !Hs by lia.
  rewrite (take_ext buf' buf (14 + len) (18 + len)) by (lia || done).
  destruct (Nat.ltb_spec (length buf') 18); [lia|].
  destruct (Z.ltb_spec MAX_RECORD_SIZE (from_le_bytes (slice buf 0 4))); [lia|].
  destruct (Nat.ltb_spec (length buf') (18 + len)); [lia|]. exact H.
Qed.

Lemma frame_decode_size buf f n :
  frame_decode buf = Ok (f, n) →
  (FRAME_OVERHEAD ≤ n ≤ length buf)%nat
  ∧ n = (FRAME_OVERHEAD + Z.to_nat (from_le_bytes (slice buf 0 4)))%nat.
Proof.
  unfold frame_decode. intros H.
  destruct (Nat.ltb_spec (length buf) FRAME_OVERHEAD); [done|].
  destruct (Z.ltb_spec MAX_RECORD_SIZE (from_le_bytes (slice buf 0 4))); [done|].
  destruct (Nat.ltb_spec (length buf) (FRAME_OVERHEAD + Z.to_nat (from_le_bytes (slice buf 0 4)))); [done|].
  do 2 (destruct (negb _); [done|]). apply rbind_ok in H as (? & _ & H).
  assert (n = FRAME_OVERHEAD + Z.to_nat (from_le_bytes (slice buf 0 4)))%nat by congruence.
  unfold FRAME_OVERHEAD in *. lia.
Qed.
End frames.

(** A decoded frame occupies at least [FRAME_OVERHEAD] bytes of the buffer
    and at most all of it, and the result depends only on those bytes: any
    buffer with the same prefix decodes to the same frame. *)
Lemma frame_decode_local `{W : Wire} buf f n :
  frame_decode buf = Ok (f, n) →
  (FRAME_OVERHEAD ≤ n ≤ length buf)%nat
  ∧ ∀ rest, frame_decode (take n buf ++ rest) = Ok (f, n).
Proof.
  intros H. pose proof (frame_decode_size _ _ _ H) as [Hn _]. split; [done|].
  intros rest. eapply frame_decode_ext; [done|].
  rewrite take_app_le by (rewrite length_take; lia). by rewrite take_take, Nat.min_id.
Qed.

(** A frame whose stored checksum differs from the checksum of its bytes is
    never returned: a buffer that holds a whole frame of a supported version
    and size with a wrong checksum is rejected with [ChecksumMismatch]. *)
Lemma corrupt_frame_rejected `{W : Wire} buf :
  let len := from_le_bytes (slice buf 0 4) in
  let fin := (14 + Z.to_nat len)%nat in
  len ≤ MAX_RECORD_SIZE → (fin + 4 ≤ length buf)%nat →
  index_u8 buf 4 = RECORD_VERSION →
  from_le_bytes (slice buf fin (fin + 4)) ≠ crc32 (take fin buf) →
  frame_decode buf =
    Err (ChecksumMismatch (from_le_bytes (slice buf fin (fin + 4))) (crc32 (take fin buf))).
Proof.
  intros len fin Hmax Hlen Hver Hcrc. unfold frame_decode. fold len.
  destruct (Nat.ltb_spec (length buf) FRAME_OVERHEAD); [unfold FRAME_OVERHEAD in *; lia|].
  destruct (Z.ltb_spec MAX_RECORD_SIZE len); [lia|].
  destruct (Nat.ltb_spec (length buf) (FRAME_OVERHEAD + Z.to_nat len)); [unfold FRAME_OVERHEAD in *; lia|].
  rewrite Hver, Z.eqb_refl. cbn [negb]. fold fin.
  by destruct (Z.eqb_spec (from_le_bytes (slice buf fin (fin + 4))) (crc32 (take fin buf))).
Qed.
