(* ===== verification/ConcreteWire.v ===== *)
(** * A concrete wire format

    An instance of the [Wire] interface of the codec, so that the model can be
    evaluated and its hypotheses are seen to be satisfiable: a serializer built
    from the countability of [WalRecord], and the bitwise CRC-32 of IEEE 802.3
    that [crc32fast::hash] computes. *)

From S2P Require Import Prelude Types Codec.

(** ** Serializer *)

#[global] Instance byte_countable : Countable byte.
Proof. refine (inj_countable' byte_to_Z byte_of_Z _). apply byte_of_to_Z. Defined.

#[global] Instance JobSpec_countable : Countable JobSpec.
Proof.
  by refine (inj_countable' (λ s, (payload s, max_attempts s)) (λ '(p, n), mkJobSpec p n) _);
    intros [].
Defined.

#[global] Instance WalRecord_countable : Countable WalRecord.
Proof.
  refine (inj_countable'
    (λ r, match r with
          | JobSubmitted i q s t => inl (i, q, s, t)
          | JobLeased i l a t => inr (inl (i, l, a, t))
          | JobRetryScheduled i l a t => inr (inr (inl (i, l, a, t)))
          | JobCompleted i l t => inr (inr (inr (inl (i, l, t))))
          | JobDead i l t => inr (inr (inr (inr (inl (i, l, t)))))
          | JobCancelled i t => inr (inr (inr (inr (inr (i, t)))))
          end)
    (λ x, match x with
          | inl (i, q, s, t) => JobSubmitted i q s t
          | inr (inl (i, l, a, t)) => JobLeased i l a t
          | inr (inr (inl (i, l, a, t))) => JobRetryScheduled i l a t
          | inr (inr (inr (inl (i, l, t)))) => JobCompleted i l t
          | inr (inr (inr (inr (inl (i, l, t))))) => JobDead i l t
          | inr (inr (inr (inr (inr (i, t))))) => JobCancelled i t
          end) _); by intros [].
Defined.

Definition positive_to_bytes (p : positive) : list byte :=
  to_le_bytes (Z.to_nat (Z.log2 (Zpos p) / 8 + 1)) (Zpos p).

Definition positive_of_bytes (bs : list byte) : positive := Z.to_pos (from_le_bytes bs).

Lemma positive_of_to_bytes p : positive_of_bytes (positive_to_bytes p) = p.
Proof.
  unfold positive_of_bytes, positive_to_bytes.
  pose proof (Z.log2_nonneg (Zpos p)). pose proof (Z.log2_spec (Zpos p)).
  assert (0 ≤ Z.log2 (Zpos p) / 8) by (apply Z.div_pos; lia).
  rewrite from_to_le_bytes; [done|]. split; [lia|].
  rewrite Z2Nat.id by lia. change 256 with (2 ^ 8). rewrite <-Z.pow_mul_r by lia.
  eapply Z.lt_le_trans; [apply H0; lia|]. apply Z.pow_le_mono_r; [lia|].
  pose proof (Z.div_mod (Z.log2 (Zpos p)) 8). pose proof (Z.mod_pos_bound (Z.log2 (Zpos p)) 8). lia.
Qed.

(** ** CRC-32 *)

Definition crc_bit (c : Z) : Z :=
  if Z.testbit c 0 then Z.lxor (Z.shiftr c 1) 0xEDB88320 else Z.shiftr c 1.

Definition crc_byte (c : Z) (b : byte) : Z :=
  Nat.iter 8 crc_bit (Z.lxor c (byte_to_Z b)).

Definition crc32_ieee (bs : list byte) : Z :=
  Z.land (Z.lxor (foldl crc_byte 0xFFFFFFFF bs) 0xFFFFFFFF) 0xFFFFFFFF.

Lemma crc32_ieee_range bs : u32_range (crc32_ieee bs).
Proof.
  unfold crc32_ieee, u32_range. generalize (Z.lxor (foldl crc_byte 0xFFFFFFFF bs) 0xFFFFFFFF).
  intros z. change 0xFFFFFFFF with (Z.ones 32).
  rewrite Z.land_ones by lia. apply Z.mod_pos_bound. lia.
Qed.

(** The check value of the CRC catalogue: the CRC-32 of ["123456789"]. *)
Example crc32_check :
  crc32_ieee [Byte.x31; Byte.x32; Byte.x33; Byte.x34; Byte.x35; Byte.x36; Byte.x37; Byte.x38; Byte.x39]
  = 0xCBF43926.
Proof. vm_compute. reflexivity. Qed.

(** ** The instance *)

#[global] Instance concrete_wire : Wire := {|
  to_allocvec r := Ok (positive_to_bytes (encode r));
  from_bytes bs := ok_or (decode (positive_of_bytes bs)) "deserialization failed"%string;
  crc32 := crc32_ieee;
|}.

#[global] Instance concrete_wire_laws : WireLaws concrete_wire.
Proof.
  split; [|apply crc32_ieee_range].
  cbn. intros r bs H. injection H as <-.
  by rewrite positive_of_to_bytes, decode_encode.
Qed.

