(* ===== verification/Scanner.v ===== *)
(** * The WAL scanner ([wal/scanner.rs])

    Sequential reading of the frames after the header: sequence numbers are
    checked, a torn final frame is reported, anything else that does not decode
    is an error; [repair_truncated_tail] cuts the torn tail off.  A file is the
    list of its bytes. *)

From S2P Require Import Prelude Types Codec ConcreteWire.

Record ScanResult := mkScanResult {
  scan_records : list WalRecord;
  last_sequence : Z;
  scan_max_lease_epoch : Z;
  last_valid_offset : Z;
  had_truncated_tail : bool;
}.

(** The local variables of [scan_frames]. *)
Record ScanState := mkScanState {
  ss_records : list WalRecord;
  ss_last_sequence : Z;
  ss_max_lease_epoch : Z;
  ss_offset : nat;
  ss_last_valid_offset : Z;
  ss_expected_seq : Z;
}.

Definition scan_init : ScanState := mkScanState [] 0 0 0 0 1.

Definition scan_finish (s : ScanState) (truncated : bool) : ScanResult :=
  {| scan_records := ss_records s;
     last_sequence := ss_last_sequence s;
     scan_max_lease_epoch := ss_max_lease_epoch s;
     last_valid_offset := ss_last_valid_offset s;
     had_truncated_tail := truncated |}.

(** [if let JobLeased { lease_id, .. } = record { max = max.max(epoch) }] *)
Definition bump_epoch (m : Z) (r : WalRecord) : Z :=
  match r with
  | JobLeased _ lease_id _ _ => Z.max m (epoch lease_id)
  | _ => m
  end.

Section scanner.
Context `{W : Wire}.

(** The [while] loop, by iterations; [None] when the fuel runs out. *)
Fixpoint scan_loop (fuel : nat) (buf : list byte) (s : ScanState)
    : option (WalResult ScanResult) :=
  match fuel with
  | O => None
  | S fuel =>
      if negb (ss_offset s <? length buf)%nat then Some (Ok (scan_finish s false))
      else
        let remaining := drop (ss_offset s) buf in
        if (length remaining <? 4)%nat then Some (Ok (scan_finish s true))
        else
          let payload_len := from_le_bytes (slice remaining 0 4) in
          if MAX_RECORD_SIZE <? payload_len then Some (Err (RecordTooLarge payload_len))
          else
            let total_frame_size := (FRAME_OVERHEAD + Z.to_nat payload_len)%nat in
            if (length remaining <? total_frame_size)%nat then Some (Ok (scan_finish s true))
            else
              match frame_decode remaining with
              | Ok (frame, consumed) =>
                  if negb (sequence frame =? ss_expected_seq s) then
                    Some (Err (SequenceViolation (ss_expected_seq s) (sequence frame)))
                  else
                    match u64_checked_incr (ss_expected_seq s) with
                    | None => Some (Err (SequenceViolation u64_max 0))
                    | Some expected_seq =>
                        let offset := (ss_offset s + consumed)%nat in
                        scan_loop fuel buf
                          {| ss_records := ss_records s ++ [frame_record frame];
                             ss_last_sequence := sequence frame;
                             ss_max_lease_epoch := bump_epoch (ss_max_lease_epoch s) (frame_record frame);
                             ss_offset := offset;
                             ss_last_valid_offset := Z.of_nat offset;
                             ss_expected_seq := expected_seq |}
                    end
              | Err TruncatedFrame => Some (Ok (scan_finish s true))
              | Err e => Some (Err e)
              end
  end.

(** Every iteration that continues consumes at least [FRAME_OVERHEAD] bytes, so
    one unit of fuel per byte is enough ([scan_loop_total]); the default is
    never used. *)
Definition scan_frames (buf : list byte) : WalResult ScanResult :=
  default (Err TruncatedFrame) (scan_loop (S (length buf)) buf scan_init).

Definition scan_wal (file : list byte) : WalResult ScanResult :=
  if (length file =? 0)%nat then Ok (mkScanResult [] 0 0 0 false)
  else if (length file <? HEADER_SIZE)%nat then Err InvalidWalHeader
  else
    try _ := header_decode (take HEADER_SIZE file) in
    scan_frames (drop HEADER_SIZE file).
End scanner.

(** The file after [repair_truncated_tail] and whether it was cut. *)
Definition repair_truncated_tail (file : list byte) (last_valid_offset : Z) : bool * list byte :=
  let expected_len := Z.of_nat HEADER_SIZE + last_valid_offset in
  if zlen file <=? expected_len then (false, file)
  else (true, take (Z.to_nat expected_len) file).

(** ** Specification of a scan *)

Definition max_epoch (rs : list WalRecord) : Z := foldl bump_epoch 0 rs.

(** The loop variables after reading the records [rs] from the first [n] bytes. *)
Definition scan_state (rs : list WalRecord) (n : nat) : ScanState :=
  mkScanState rs (zlen rs) (max_epoch rs) n (Z.of_nat n) (zlen rs + 1).

Definition scan_result (rs : list WalRecord) (n : nat) (truncated : bool) : ScanResult :=
  mkScanResult rs (zlen rs) (max_epoch rs) (Z.of_nat n) truncated.

(** A non-empty tail that ends before the frame it announces does. *)
Definition torn (tail : list byte) : Prop :=
  tail ≠ [] ∧
  ((length tail < 4)%nat
   ∨ from_le_bytes (slice tail 0 4) ≤ MAX_RECORD_SIZE
     ∧ (length tail < FRAME_OVERHEAD + Z.to_nat (from_le_bytes (slice tail 0 4)))%nat).

Section spec.
Context `{W : Wire}.

(** [frames_prefix buf rs n]: the first [n] bytes of [buf] are frames with the
    sequence numbers 1, 2, ... that decode to the records [rs]. *)
Inductive frames_prefix (buf : list byte) : list WalRecord → nat → Prop :=
| fp_nil : frames_prefix buf [] 0
| fp_snoc rs n r k :
    frames_prefix buf rs n →
    frame_decode (drop n buf) = Ok (mkWalFrame (zlen rs + 1) r, k) →
    frames_prefix buf (rs ++ [r]) (n + k).

(** The bytes that appending the records [rs] from sequence [seq] on writes. *)
Fixpoint encode_log (seq : Z) (rs : list WalRecord) : WalResult (list byte) :=
  match rs with
  | [] => Ok []
  | r :: rs =>
      try b := frame_encode (mkWalFrame seq r) in
      try bs := encode_log (seq + 1) rs in
      Ok (b ++ bs)
  end.

Lemma encode_log_app seq rs rs' bs :
  encode_log seq (rs ++ rs') = Ok bs ↔
    ∃ b b', encode_log seq rs = Ok b ∧ encode_log (seq + zlen rs) rs' = Ok b' ∧ bs = b ++ b'.
Proof.
  revert seq bs; induction rs as [|r rs IH]; intros seq bs; cbn [app encode_log length].
  { rewrite Z.add_0_r. split; [naive_solver|]. intros (? & ? & [= <-] & ? & ->). done. }
  destruct (frame_encode _) as [b0|]; cbn [rbind]; [|naive_solver].
  rewrite rbind_ok. setoid_rewrite IH.
  replace (seq + Z.of_nat (S (length rs))) with (seq + 1 + zlen rs) by lia.
  split.
  - intros (? & (b & b' & Hb & Hb' & ->) & [= <-]). exists (b0 ++ b), b'.
    rewrite Hb. cbn. by rewrite app_assoc.
  - intros (b & b' & Hb & Hb' & ->). apply rbind_ok in Hb as (b1 & Hb1 & [= <-]).
    exists (b1 ++ b'). split; [by eauto|]. by rewrite app_assoc.
Qed.

Lemma encode_log_length seq rs bs :
  encode_log seq rs = Ok bs → (FRAME_OVERHEAD * length rs ≤ length bs)%nat.
Proof.
  revert seq bs; induction rs as [|r rs IH]; intros seq bs; cbn [encode_log length]; [lia|].
  rewrite rbind_ok. intros (b & Hb & H). apply rbind_ok in H as (bs' & Hbs' & [= <-]).
  apply IH in Hbs'. apply frame_encode_length in Hb. rewrite length_app. lia.
Qed.

Lemma frames_prefix_le buf rs n : frames_prefix buf rs n → (n ≤ length buf)%nat.
Proof.
  induction 1 as [|rs n r k _ IH Hd]; [lia|].
  apply frame_decode_size in Hd as [[_ Hk] _]. rewrite length_drop in Hk. lia.
Qed.

Lemma frames_prefix_len buf rs n :
  frames_prefix buf rs n → (FRAME_OVERHEAD * length rs ≤ n)%nat.
Proof.
  induction 1 as [|rs n r k _ IH Hd]; [cbn; lia|].
  apply frame_decode_size in Hd as [[Hk _] _]. rewrite length_app. cbn [length]. lia.
Qed.

Lemma frames_prefix_ext buf buf' rs n :
  frames_prefix buf rs n → take n buf = take n buf' → frames_prefix buf' rs n.
Proof.
  induction 1 as [|rs n r k Hp IH Hd]; intros Heq; [constructor|].
  constructor; [apply IH; eapply take_ext; [|done]; lia|].
  eapply frame_decode_ext; [done|]. rewrite !take_drop_commute. by rewrite Heq.
Qed.

(** A frame cut anywhere strictly inside is torn. *)
Lemma torn_take f bs k :
  frame_encode f = Ok bs → (0 < k < length bs)%nat → torn (take k bs).
Proof.
  intros Henc Hk. pose proof (frame_encode_payload_len _ _ [] Henc) as [Hl Hmax].
  pose proof (frame_encode_length _ _ Henc) as Hge. rewrite app_nil_r in Hl.
  split. { intros Hn%(f_equal length). rewrite length_take in Hn. cbn in Hn. lia. }
  rewrite length_take. destruct (decide (k < 4)%nat); [left; lia|right].
  assert (slice (take k bs) 0 4 = slice bs 0 4) as ->.
  { unfold slice. rewrite take_take. do 2 f_equal. lia. }
  rewrite Hl. lia.
Qed.
End spec.

(** ** The loop against its specification *)

Section loop.
Context `{W : Wire}.
Implicit Types (buf : list byte) (rs : list WalRecord).

Lemma max_epoch_snoc rs r : max_epoch (rs ++ [r]) = bump_epoch (max_epoch rs) r.
Proof. unfold max_epoch. by rewrite foldl_app. Qed.

Lemma scan_state_snoc rs n r k :
  mkScanState (rs ++ [r]) (zlen rs + 1) (bump_epoch (max_epoch rs) r) (n + k)
    (Z.of_nat (n + k)) (zlen rs + 1 + 1) = scan_state (rs ++ [r]) (n + k).
Proof.
  unfold scan_state. rewrite max_epoch_snoc, length_app. cbn [length].
  f_equal; lia.
Qed.

(** One iteration on a whole frame with the expected sequence number. *)
Lemma scan_loop_step fuel buf rs n r k :
  frame_decode (drop n buf) = Ok (mkWalFrame (zlen rs + 1) r, k) →
  zlen rs + 1 < u64_max →
  scan_loop (S fuel) buf (scan_state rs n) = scan_loop fuel buf (scan_state (rs ++ [r]) (n + k)).
Proof.
  intros Hd Hseq. pose proof (frame_decode_size _ _ _ Hd) as [[Hk1 Hk2] Hk3].
  rewrite length_drop in Hk2. unfold FRAME_OVERHEAD in *.
  cbn [scan_loop scan_state ss_offset ss_expected_seq ss_records ss_max_lease_epoch].
  destruct (Nat.ltb_spec n (length buf)); [|lia]. cbn [negb].
  rewrite length_drop.
  destruct (Nat.ltb_spec (length buf - n) 4); [lia|].
  destruct (Z.ltb_spec MAX_RECORD_SIZE (from_le_bytes (slice (drop n buf) 0 4))) as [Hm|_].
  { exfalso. revert Hd. unfold frame_decode. rewrite length_drop.
    apply Z.ltb_lt in Hm. rewrite Hm. by case_match. }
  unfold FRAME_OVERHEAD. rewrite <-Hk3.
  destruct (Nat.ltb_spec (length buf - n) k); [lia|].
  rewrite Hd. cbn [sequence frame_record]. rewrite Z.eqb_refl. cbn [negb].
  rewrite u64_checked_incr_lt by lia. by rewrite scan_state_snoc.
Qed.

(** The loop reads a whole prefix of frames. *)
Lemma scan_loop_run buf rs n fuel :
  frames_prefix buf rs n → zlen rs < u64_max →
  scan_loop (length rs + fuel) buf scan_init = scan_loop fuel buf (scan_state rs n).
Proof.
  intros Hp. revert fuel. induction Hp as [|rs n r k Hp IH Hd]; intros fuel Hlen; [done|].
  rewrite length_app in *. cbn [length] in *.
  replace (length rs + 1 + fuel)%nat with (length rs + S fuel)%nat by lia.
  rewrite IH by lia. apply scan_loop_step; [done|lia].
Qed.

Lemma scan_loop_end fuel buf rs :
  scan_loop (S fuel) buf (scan_state rs (length buf)) = Some (Ok (scan_result rs (length buf) false)).
Proof. cbn [scan_loop scan_state ss_offset]. by rewrite Nat.ltb_irrefl. Qed.

Lemma scan_loop_torn fuel buf rs n :
  torn (drop n buf) →
  scan_loop (S fuel) buf (scan_state rs n) = Some (Ok (scan_result rs n true)).
Proof.
  intros [Hne Htorn]. cbn [scan_loop scan_state ss_offset].
  destruct (Nat.ltb_spec n (length buf)) as [|Hge]; cbn [negb];
    [|by rewrite drop_ge in Hne by lia].
  destruct (Nat.ltb_spec (length (drop n buf)) 4); [done|].
  destruct Htorn as [|[Hm Hl]]; [lia|].
  destruct (Z.ltb_spec MAX_RECORD_SIZE (from_le_bytes (slice (drop n buf) 0 4))); [lia|].
  destruct (Nat.ltb_spec (length (drop n buf))
    (FRAME_OVERHEAD + Z.to_nat (from_le_bytes (slice (drop n buf) 0 4)))); [done|lia].
Qed.

(** Where a scan can stop: at the end of the buffer or at a torn tail. *)
Definition scan_stops buf (n : nat) (truncated : bool) : Prop :=
  if truncated then torn (drop n buf) else n = length buf.

(** Every result of the loop comes from a prefix of frames. *)
Lemma scan_loop_sound fuel buf rs n res :
  frames_prefix buf rs n →
  scan_loop fuel buf (scan_state rs n) = Some (Ok res) →
  ∃ rs' n' t, frames_prefix buf rs' n' ∧ scan_stops buf n' t ∧ res = scan_result rs' n' t.
Proof.
  revert rs n; induction fuel as [|fuel IH]; intros rs n Hp H; [done|].
  pose proof (frames_prefix_le _ _ _ Hp).
  cbn [scan_loop scan_state ss_offset ss_expected_seq ss_records ss_max_lease_epoch] in H.
  destruct (Nat.ltb_spec n (length buf)); cbn [negb] in H;
    [|injection H as <-; exists rs, n, false; split_and!; [done|cbn; lia|done]].
  assert (drop n buf ≠ []) as Hne.
  { intros Hn%(f_equal length). rewrite length_drop in Hn. cbn in Hn. lia. }
  destruct (Nat.ltb_spec (length (drop n buf)) 4).
  { injection H as <-. exists rs, n, true. split_and!; [done| |done]. split; [done|by left]. }
  destruct (Z.ltb_spec MAX_RECORD_SIZE (from_le_bytes (slice (drop n buf) 0 4))); [done|].
  destruct (Nat.ltb_spec (length (drop n buf))
    (FRAME_OVERHEAD + Z.to_nat (from_le_bytes (slice (drop n buf) 0 4)))) as [|Hwhole].
  { injection H as <-. exists rs, n, true. split_and!; [done| |done]. split; [done|by right]. }
  destruct (frame_decode (drop n buf)) as [[[s r] k]|e] eqn:Hd.
  - cbn [sequence frame_record] in H.
    destruct (Z.eqb_spec s (zlen rs + 1)) as [->|]; cbn [negb] in H; [|done].
    destruct (u64_checked_incr _) as [s'|] eqn:Hs; [|done].
    apply u64_checked_incr_Some in Hs as [-> _]. rewrite scan_state_snoc in H.
    by apply IH in H; [|by constructor].
  - exfalso. destruct e; try done. revert Hd. unfold frame_decode.
    unfold FRAME_OVERHEAD in *.
    destruct (Nat.ltb_spec (length (drop n buf)) 18); [lia|].
    destruct (Z.ltb_spec MAX_RECORD_SIZE (from_le_bytes (slice (drop n buf) 0 4))); [lia|].
    destruct (Nat.ltb_spec (length (drop n buf))
      (18 + Z.to_nat (from_le_bytes (slice (drop n buf) 0 4)))); [lia|].
    do 2 (destruct (negb _); [done|]). destruct (from_bytes _); done.
Qed.

Lemma scan_loop_total fuel buf s :
  (length buf - ss_offset s < fuel)%nat → is_Some (scan_loop fuel buf s).
Proof.
  revert s; induction fuel as [|fuel IH]; intros s Hf; [lia|].
  cbn [scan_loop].
  destruct (Nat.ltb_spec (ss_offset s) (length buf)); cbn [negb]; [|by eexists].
  repeat (case_match; try by eexists).
  apply IH. cbn [ss_offset].
  match goal with H : frame_decode _ = Ok _ |- _ => apply frame_decode_size in H as [[Hk _] _] end.
  unfold FRAME_OVERHEAD in *. lia.
Qed.
End loop.

(** ** Scanning whole buffers and files *)

Section scan.
Context `{W : Wire}.

Lemma frames_prefix_small buf rs n :
  zlen buf ≤ u64_max → frames_prefix buf rs n →
  zlen rs < u64_max ∧ (length rs ≤ length buf)%nat.
Proof.
  intros Hb Hp. pose proof (frames_prefix_le _ _ _ Hp).
  pose proof (frames_prefix_len _ _ _ Hp). unfold FRAME_OVERHEAD, u64_max in *. lia.
Qed.

Lemma scan_frames_complete buf rs n t :
  zlen buf ≤ u64_max → frames_prefix buf rs n → scan_stops buf n t →
  scan_frames buf = Ok (scan_result rs n t).
Proof.
  intros Hb Hp Ht. pose proof (frames_prefix_small _ _ _ Hb Hp) as [Hlen Hle].
  unfold scan_frames.
  replace (S (length buf)) with (length rs + S (length buf - length rs))%nat by lia.
  rewrite (scan_loop_run _ _ _ _ Hp Hlen).
  destruct t; cbn in Ht; [by rewrite scan_loop_torn|]. subst n. by rewrite scan_loop_end.
Qed.

Lemma scan_frames_sound buf res :
  scan_frames buf = Ok res →
  ∃ rs n t, frames_prefix buf rs n ∧ scan_stops buf n t ∧ res = scan_result rs n t.
Proof.
  unfold scan_frames.
  destruct (scan_loop_total (S (length buf)) buf scan_init) as [r Hr]; [cbn; lia|].
  rewrite Hr. cbn. intros ->. eapply (scan_loop_sound _ _ [] 0); [constructor|exact Hr].
Qed.

Lemma scan_wal_nonempty file :
  (HEADER_SIZE ≤ length file)%nat →
  scan_wal file = try _ := header_decode (take HEADER_SIZE file) in
                  scan_frames (drop HEADER_SIZE file).
Proof.
  intros H. unfold scan_wal, HEADER_SIZE in *.
  destruct (Nat.eqb_spec (length file) 0); [lia|].
  by destruct (Nat.ltb_spec (length file) 10); [lia|].
Qed.

Lemma scan_wal_header content :
  scan_wal (header_encode WalHeader_new ++ content) = scan_frames content.
Proof.
  rewrite scan_wal_nonempty by (rewrite length_app, length_header_encode; lia).
  by rewrite take_app_exact, drop_app_exact, header_decode_encode.
Qed.

Lemma encode_log_small seq rs bs :
  encode_log seq rs = Ok bs → zlen bs ≤ u64_max → zlen rs < u64_max.
Proof.
  intros Hbs%encode_log_length Hlen. unfold FRAME_OVERHEAD, u64_max in *. lia.
Qed.

(** Scanning whole frames followed by nothing or by a torn tail. *)
Lemma scan_wal_frames content rs (tail : list byte) (t : bool) :
  frames_prefix content rs (length content) → zlen (content ++ tail) ≤ u64_max →
  (if t then torn tail else tail = []) →
  scan_wal (header_encode WalHeader_new ++ content ++ tail)
  = Ok (scan_result rs (length content) t).
Proof.
  intros Hp Hlen Ht. rewrite scan_wal_header. apply scan_frames_complete; [done| |].
  - eapply frames_prefix_ext; [done|]. rewrite take_app_length. by rewrite take_ge.
  - destruct t; cbn; [by rewrite drop_app_length|]. subst tail. by rewrite app_nil_r.
Qed.

Lemma frames_prefix_snoc `{!WireLaws W} content rs r b :
  frames_prefix content rs (length content) →
  frame_encode (mkWalFrame (zlen rs + 1) r) = Ok b → zlen rs < u64_max →
  frames_prefix (content ++ b) (rs ++ [r]) (length (content ++ b)).
Proof.
  intros Hp Hb Hlen. rewrite length_app. constructor.
  - eapply frames_prefix_ext; [done|]. rewrite take_app_length. by rewrite take_ge.
  - rewrite drop_app_length. rewrite <-(app_nil_r b) at 1.
    apply frame_decode_encode; [|done]. unfold u64_range, u64_max in *. cbn [sequence]. lia.
Qed.

Lemma frames_prefix_append `{!WireLaws W} content rs rs' b :
  frames_prefix content rs (length content) →
  encode_log (zlen rs + 1) rs' = Ok b → zlen rs + zlen rs' ≤ u64_max →
  frames_prefix (content ++ b) (rs ++ rs') (length (content ++ b)).
Proof.
  revert content rs b; induction rs' as [|r rs' IH]; intros content rs b Hp Hb Hlen.
  { injection Hb as <-. by rewrite !app_nil_r. }
  cbn [encode_log length] in *. apply rbind_ok in Hb as (b1 & Hb1 & Hb).
  apply rbind_ok in Hb as (b2 & Hb2 & [= <-]).
  replace (rs ++ r :: rs') with ((rs ++ [r]) ++ rs') by (by rewrite <-app_assoc).
  rewrite app_assoc. apply IH.
  - apply frames_prefix_snoc; [done|done|lia].
  - rewrite length_app. cbn [length].
    by replace (Z.of_nat (length rs + 1) + 1) with (zlen rs + 1 + 1) by lia.
  - rewrite length_app. cbn [length]. lia.
Qed.

Lemma encode_log_frames `{!WireLaws W} rs bs :
  encode_log 1 rs = Ok bs → zlen rs ≤ u64_max → frames_prefix bs rs (length bs).
Proof. intros Hbs Hlen. apply (frames_prefix_append [] [] rs bs); [constructor|done|done]. Qed.
End scan.

(** The scan loop terminates: with one unit of fuel per byte and one more
    it always returns, so [scan_frames] never reports its default. *)
Lemma scan_terminates `{W : Wire} buf :
  scan_loop (S (length buf)) buf scan_init = Some (scan_frames buf).
Proof.
  unfold scan_frames.
  destruct (scan_loop_total (S (length buf)) buf scan_init) as [r Hr]; [cbn; lia|].
  by rewrite Hr.
Qed.

(** C33: the scanner is exact on every buffer: it succeeds with some result
    exactly when the buffer is a sequence of valid frames numbered 1, 2, ...
    followed by nothing or by a torn frame, and the result then lists exactly
    those records, their count as last sequence, their largest lease epoch, the
    offset where they end, and whether a torn tail follows. *)
Theorem scan_frames_exact `{W : Wire} buf res :
  zlen buf ≤ u64_max →
  scan_frames buf = Ok res ↔
    ∃ rs n t, frames_prefix buf rs n ∧ scan_stops buf n t ∧ res = scan_result rs n t.
Proof.
  intros Hb. split; [apply scan_frames_sound|].
  intros (rs & n & t & Hp & Ht & ->). by apply scan_frames_complete.
Qed.

(** C34: a WAL file written as header and frames is read back completely, and a
    crash that leaves any proper prefix of one more frame loses nothing: the
    scan returns exactly the records written before it, reports the torn tail,
    and gives the offset where the complete frames end. *)
Theorem scan_wal_crash_tail `{W : Wire} `{!WireLaws W} rs bs f fb k :
  encode_log 1 rs = Ok bs → frame_encode f = Ok fb → (k < length fb)%nat →
  zlen (bs ++ fb) ≤ u64_max →
  scan_wal (header_encode WalHeader_new ++ bs ++ take k fb)
    = Ok (scan_result rs (length bs) (negb (k =? 0)%nat)).
Proof.
  intros Hbs Hfb Hk Hlen. rewrite length_app in Hlen. apply scan_wal_frames.
  - apply encode_log_frames; [done|]. pose proof (encode_log_small _ _ _ Hbs). lia.
  - rewrite length_app, length_take. lia.
  - destruct (Nat.eqb_spec k 0) as [->|]; [done|]. eapply torn_take; [done|lia].
Qed.

Lemma repair_take file n :
  (HEADER_SIZE + n ≤ length file)%nat →
  (repair_truncated_tail file (Z.of_nat n)).2 = take (HEADER_SIZE + n) file.
Proof.
  intros H. unfold repair_truncated_tail. rewrite <-Nat2Z.inj_add, Nat2Z.id.
  destruct (Z.leb_spec (zlen file) (Z.of_nat (HEADER_SIZE + n))); [|done].
  cbn [snd]. symmetry. apply take_ge. lia.
Qed.

Lemma repair_noop file off :
  zlen file ≤ Z.of_nat HEADER_SIZE + off → repair_truncated_tail file off = (false, file).
Proof. intros H. unfold repair_truncated_tail. by apply Z.leb_le in H as ->. Qed.

(** C35: repairing after a successful scan is correct for every file: the
    repaired file is a prefix of the original, scanning it gives the same
    records, sequence, epoch and offset with no torn tail, and a second repair
    changes nothing. *)
Theorem repair_then_scan `{W : Wire} file res :
  zlen file ≤ u64_max → scan_wal file = Ok res →
  let file' := (repair_truncated_tail file (last_valid_offset res)).2 in
  file' `prefix_of` file
  ∧ scan_wal file' = Ok (mkScanResult (scan_records res) (last_sequence res)
                           (scan_max_lease_epoch res) (last_valid_offset res) false)
  ∧ repair_truncated_tail file' (last_valid_offset res) = (false, file').
Proof.
  intros Hlen Hscan. destruct (decide (HEADER_SIZE ≤ length file)%nat) as [Hhdr|Hhdr].
  - rewrite scan_wal_nonempty in Hscan by done.
    apply rbind_ok in Hscan as (h & Hh & Hscan).
    apply scan_frames_sound in Hscan as (rs & n & t & Hp & Ht & ->).
    cbn [scan_result last_valid_offset scan_records last_sequence scan_max_lease_epoch].
    pose proof (frames_prefix_le _ _ _ Hp) as Hn. rewrite length_drop in Hn.
    rewrite repair_take by lia. split_and!; [apply prefix_take| |].
    + rewrite scan_wal_nonempty by (rewrite length_take; lia).
      rewrite take_take, Nat.min_l, Hh by lia. cbn [rbind]. rewrite <-take_drop_commute.
      apply (scan_frames_complete _ rs n false).
      * rewrite length_take, length_drop. lia.
      * eapply frames_prefix_ext; [exact Hp|]. by rewrite take_take, Nat.min_id.
      * unfold scan_stops. rewrite length_take, length_drop. lia.
    + apply repair_noop. rewrite length_take. lia.
  - unfold scan_wal in Hscan.
    destruct (Nat.eqb_spec (length file) 0) as [H0|];
      [|by destruct (Nat.ltb_spec (length file) HEADER_SIZE); [|lia]].
    apply nil_length_inv in H0 as ->. injection Hscan as <-. done.
Qed.

(** Anything after the valid frames that is neither the next frame nor a torn
    tail is a hard error. *)
Lemma scan_frames_bad_frame `{W : Wire} buf rs n :
  let tail := drop n buf in
  let len := from_le_bytes (slice tail 0 4) in
  zlen buf ≤ u64_max → frames_prefix buf rs n → tail ≠ [] → (torn tail → False) →
  (∀ r k, frame_decode tail = Ok (mkWalFrame (zlen rs + 1) r, k) → False) →
  scan_frames buf =
    Err (if MAX_RECORD_SIZE <? len then RecordTooLarge len
         else match frame_decode tail with
              | Ok (f, _) => SequenceViolation (zlen rs + 1) (sequence f)
              | Err e => e
              end).
Proof.
  intros tail len Hb Hp Hne Hnt Hbad.
  pose proof (frames_prefix_small _ _ _ Hb Hp) as [Hlen Hle].
  unfold scan_frames.
  replace (S (length buf)) with (length rs + S (length buf - length rs))%nat by lia.
  rewrite (scan_loop_run _ _ _ _ Hp Hlen).
  cbn [scan_loop scan_state ss_offset ss_expected_seq]. fold tail. fold len.
  destruct (Nat.ltb_spec n (length buf)) as [|Hge]; cbn [negb];
    [|exfalso; apply Hne; by apply drop_ge].
  destruct (Nat.ltb_spec (length tail) 4); [exfalso; apply Hnt; split; [done|by left]|].
  destruct (Z.ltb_spec MAX_RECORD_SIZE len); [done|].
  destruct (Nat.ltb_spec (length tail) (FRAME_OVERHEAD + Z.to_nat len)) as [|Hwhole];
    [exfalso; apply Hnt; split; [done|by right]|].
  destruct (frame_decode tail) as [[[s r] k]|e] eqn:Hd; cbn [sequence frame_record].
  - destruct (Z.eqb_spec s (zlen rs + 1)) as [->|]; [by destruct (Hbad r k)|done].
  - destruct e; try done. exfalso. revert Hd. unfold frame_decode. fold len.
    destruct (Nat.ltb_spec (length tail) FRAME_OVERHEAD); [lia|].
    destruct (Z.ltb_spec MAX_RECORD_SIZE len); [lia|].
    destruct (Nat.ltb_spec (length tail) (FRAME_OVERHEAD + Z.to_nat len)); [lia|].
    do 2 (destruct (negb _); [done|]). destruct (from_bytes _); done.
Qed.


(** A whole frame with another sequence number after the frames of a log. *)
Lemma scan_wal_wrong_seq `{W : Wire} `{!WireLaws W} content rs s r eb tail :
  frames_prefix content rs (length content) → frame_encode (mkWalFrame s r) = Ok eb →
  u64_range s → s ≠ zlen rs + 1 → zlen (content ++ eb ++ tail) ≤ u64_max →
  scan_wal (header_encode WalHeader_new ++ content ++ eb ++ tail)
  = Err (SequenceViolation (zlen rs + 1) s).
Proof.
  intros Hp Heb Hs Hne Hlen. rewrite scan_wal_header.
  pose proof (frame_encode_length _ _ Heb) as Hl. unfold FRAME_OVERHEAD in Hl.
  destruct (frame_encode_payload_len _ _ tail Heb) as [Hpl Hm].
  assert (frame_decode (eb ++ tail) = Ok (mkWalFrame s r, length eb)) as Hd
    by (by apply frame_decode_encode).
  rewrite (scan_frames_bad_frame _ rs (length content)); rewrite ?drop_app_length, ?Hd, ?Hpl.
  - by destruct (Z.ltb_spec MAX_RECORD_SIZE (zlen eb - Z.of_nat FRAME_OVERHEAD)); [lia|].
  - done.
  - eapply frames_prefix_ext; [done|]. rewrite take_app_length. by rewrite take_ge.
  - destruct eb; [cbn in Hl; lia|done].
  - intros [_ Ht]. rewrite Hpl, length_app in Ht. unfold FRAME_OVERHEAD in *. lia.
  - intros r' k Heq. congruence.
Qed.

(** ** Witnesses *)

Section witnesses.

Definition ex_records : list WalRecord :=
  [JobSubmitted (from_uuid 7) (mkQueueName "q") (JobSpec_new [Byte.x01]) (from_millis 5);
   JobLeased (from_uuid 7) (LeaseId_new 4) 1 (from_millis 6)].

Definition ex_log : list byte :=
  match encode_log 1 ex_records with Ok bs => bs | Err _ => [] end.

(** A third frame, whose bytes the crash cuts. *)
Definition ex_next : WalFrame := mkWalFrame 3 (JobCompleted (from_uuid 7) (LeaseId_new 4) (from_millis 8)).
Definition ex_next_bytes : list byte :=
  match frame_encode ex_next with Ok bs => bs | Err _ => [] end.

Lemma scan_wal_crash_tail_witness :
  scan_wal (header_encode WalHeader_new ++ ex_log ++ take 20 ex_next_bytes)
  = Ok (scan_result ex_records (length ex_log) true).
Proof.
  apply (scan_wal_crash_tail ex_records ex_log ex_next ex_next_bytes 20);
    [vm_compute; reflexivity..|vm_compute; lia|vm_compute; discriminate].
Defined.

Lemma repair_then_scan_witness :
  let file := header_encode WalHeader_new ++ ex_log ++ take 20 ex_next_bytes in
  scan_wal (repair_truncated_tail file (zlen ex_log)).2
  = Ok (scan_result ex_records (length ex_log) false).
Proof.
  intros file.
  apply (repair_then_scan file (scan_result ex_records (length ex_log) true));
    [vm_compute; discriminate|vm_compute; reflexivity].
Defined.

Lemma scan_frames_exact_witness :
  ∃ rs n t, frames_prefix ex_log rs n ∧ scan_stops ex_log n t
    ∧ scan_result ex_records (length ex_log) false = scan_result rs n t.
Proof.
  apply (scan_frames_exact ex_log (scan_result ex_records (length ex_log) false));
    [vm_compute; discriminate|vm_compute; reflexivity].
Defined.

End witnesses.
