(* ===== verification/Writer.v ===== *)
(** * The WAL writer ([wal/writer.rs]) and the storage backend ([store.rs])

    A single thread owns the file and its next sequence number; an append
    encodes a frame, writes it, syncs, and only then advances the sequence.  The
    file is the list of its bytes; what the operating system answers to a write
    and to a sync is the argument [io]: a write can fail after any number of
    bytes. *)

From S2P Require Import Prelude Types Config Codec ConcreteWire Scanner.

(** What happens to one [write_all] and the [sync_data] after it. *)
Record WriteIo := mkWriteIo {
  (** [None] when all bytes are written, else how many were before the error *)
  io_write : option (nat * string);
  (** [None] when the sync succeeds *)
  io_sync : option string;
}.

Definition io_ok : WriteIo := mkWriteIo None None.

Record WriterThread := mkWriterThread {
  wt_file : list byte;
  wt_next_seq : Z;
  wt_fail_next_append : bool;
  wt_fail_next_sync : bool;
}.

Definition WriterThread_new (file : list byte) (next_seq : Z) : WriterThread :=
  mkWriterThread file next_seq false false.

Section writer.
Context `{W : Wire}.

Definition process_write (io : WriteIo) (t : WriterThread) (record : WalRecord)
    : WalResult Z * WriterThread :=
  if wt_fail_next_append t then
    (Err (Io "injected append failure"),
     mkWriterThread (wt_file t) (wt_next_seq t) false (wt_fail_next_sync t))
  else
    let seq := wt_next_seq t in
    match frame_encode (mkWalFrame seq record) with
    | Err e => (Err e, t)
    | Ok encoded =>
        match io_write io with
        | Some (k, msg) =>
            (Err (Io msg),
             mkWriterThread (wt_file t ++ take k encoded) seq false (wt_fail_next_sync t))
        | None =>
            let file := wt_file t ++ encoded in
            if wt_fail_next_sync t then
              (Err SyncFailed, mkWriterThread file seq false false)
            else
              match io_sync io with
              | Some msg => (Err (Io msg), mkWriterThread file seq false false)
              | None => (Ok seq, mkWriterThread file (u64_incr seq) false false)
              end
        end
    end.

(** [WriterThread::run]: the requests in the order of the channel, with the
    reply to each. *)
Fixpoint writer_run (t : WriterThread) (reqs : list (WriteIo * WalRecord))
    : list (WalResult Z) * WriterThread :=
  match reqs with
  | [] => ([], t)
  | (io, record) :: reqs =>
      let '(reply, t) := process_write io t record in
      let '(replies, t) := writer_run t reqs in
      (reply :: replies, t)
  end.

(** The loop of [scan_for_next_sequence] over the content after the header. *)
Fixpoint next_sequence_loop (fuel : nat) (buf : list byte) (offset : nat) (max_seq : Z)
    : option (WalResult Z) :=
  match fuel with
  | O => None
  | S fuel =>
      if negb (offset <? length buf)%nat then Some (Ok max_seq)
      else
        match frame_decode (drop offset buf) with
        | Ok (frame, consumed) =>
            next_sequence_loop fuel buf (offset + consumed) (Z.max max_seq (sequence frame))
        | Err TruncatedFrame => Some (Ok max_seq)
        | Err e => Some (Err e)
        end
  end.

Definition scan_for_next_sequence (buf : list byte) : WalResult Z :=
  match buf with
  | [] => Ok 1
  | _ =>
      try max_seq := default (Err TruncatedFrame)
        (next_sequence_loop (S (length buf)) buf 0 0) in
      Ok (u64_incr max_seq)
  end.

(** [open_wal_file]: [None] when the file does not exist. *)
Definition open_wal_file (file : option (list byte)) : WalResult (list byte * Z) :=
  match file with
  | None => Ok (header_encode WalHeader_new, 1)
  | Some bytes =>
      let n := (length bytes `min` HEADER_SIZE)%nat in
      if (n =? 0)%nat then Ok (header_encode WalHeader_new, 1)
      else if (n <? HEADER_SIZE)%nat then Err InvalidWalHeader
      else
        try _ := header_decode (take HEADER_SIZE bytes) in
        try next_seq := scan_for_next_sequence (drop HEADER_SIZE bytes) in
        Ok (bytes, next_seq)
  end.
End writer.

(** ** The writer handle *)

Record WalWriter := mkWalWriter {
  (** [tx] is [Some] until the handle is dropped *)
  ww_tx : bool;
  ww_thread : WriterThread;
}.

(** [WalWriter::open]; [locked] when another process holds the lock file. *)
Definition WalWriter_open `{W : Wire} (locked : bool) (file : option (list byte)) : WalResult WalWriter :=
  if locked then Err StoreLocked
  else
    try '(file, next_seq) := open_wal_file file in
    Ok (mkWalWriter true (WriterThread_new file next_seq)).

Definition from_recovered (file : list byte) (next_seq : Z) : WalResult WalWriter :=
  Ok (mkWalWriter true (WriterThread_new file next_seq)).

Definition writer_append `{W : Wire} (io : WriteIo) (w : WalWriter) (record : WalRecord)
    : WalResult Z * WalWriter :=
  if negb (ww_tx w) then (Err WriterChannelClosed, w)
  else
    let '(reply, t) := process_write io (ww_thread w) record in
    (reply, mkWalWriter (ww_tx w) t).

(** [drop]: the channel closes, so the thread ends and the lock is released. *)
Definition writer_drop (w : WalWriter) : WalWriter := mkWalWriter false (ww_thread w).

(** ** The fault-injection flags of [TestableWalWriter] *)

Definition fail_next_append (w : WalWriter) : WalWriter :=
  let t := ww_thread w in
  mkWalWriter (ww_tx w) (mkWriterThread (wt_file t) (wt_next_seq t) true (wt_fail_next_sync t)).

Definition fail_next_sync (w : WalWriter) : WalWriter :=
  let t := ww_thread w in
  mkWalWriter (ww_tx w) (mkWriterThread (wt_file t) (wt_next_seq t) (wt_fail_next_append t) true).

(** ** Storage *)

Inductive Storage :=
| Storage_Memory
| Storage_Wal (w : WalWriter).

Definition storage_open `{W : Wire} (config : StorageConfig) (locked : bool)
    (file : option (list byte)) : WalResult Storage :=
  match config with
  | MemoryStorage => Ok Storage_Memory
  | WalStorage _ => try w := WalWriter_open locked file in Ok (Storage_Wal w)
  end.

Definition is_durable (s : Storage) : bool :=
  match s with Storage_Wal _ => true | Storage_Memory => false end.

Definition persist `{W : Wire} (io : WriteIo) (s : Storage) (record : WalRecord)
    : WalResult (option Z) * Storage :=
  match s with
  | Storage_Memory => (Ok None, s)
  | Storage_Wal w =>
      let '(reply, w) := writer_append io w record in
      (try seq := reply in Ok (Some seq), Storage_Wal w)
  end.

(** ** Invariant of the file *)

Section invariant.
Context `{W : Wire}.

(** The file is the header and whole frames that hold exactly the records
    [rs], numbered from 1, and the writer continues their numbering. *)
Definition wal_ok (t : WriterThread) (rs : list WalRecord) : Prop :=
  wt_next_seq t = zlen rs + 1
  ∧ ∃ content, frames_prefix content rs (length content)
               ∧ wt_file t = header_encode WalHeader_new ++ content.

Lemma wal_ok_new : wal_ok (WriterThread_new (header_encode WalHeader_new) 1) [].
Proof. split; [done|]. exists []. split; [constructor|done]. Qed.

(** The next frame of a file that holds [rs]. *)
Lemma wal_ok_encode `{!WireLaws W} t rs record encoded :
  wal_ok t rs → frame_encode (mkWalFrame (wt_next_seq t) record) = Ok encoded →
  zlen rs < u64_max →
  ∃ content, frames_prefix content rs (length content)
        ∧ frames_prefix (content ++ encoded) (rs ++ [record]) (length (content ++ encoded))
        ∧ wt_file t = header_encode WalHeader_new ++ content
        ∧ wt_file t ++ encoded = header_encode WalHeader_new ++ content ++ encoded.
Proof.
  intros (Hseq & content & Hp & Hf) Henc Hlen. exists content. rewrite Hseq in Henc.
  split_and!; [done|by apply frames_prefix_snoc|done|by rewrite Hf, <-app_assoc].
Qed.

Lemma wal_ok_small t rs : wal_ok t rs → zlen (wt_file t) ≤ u64_max → zlen rs < u64_max.
Proof.
  intros (_ & content & Hp & ->) Hlen. rewrite length_app in Hlen.
  apply (frames_prefix_small content rs (length content)); [lia|done].
Qed.

Lemma wal_ok_scan t rs :
  wal_ok t rs → zlen (wt_file t) ≤ u64_max →
  ∃ n, scan_wal (wt_file t) = Ok (scan_result rs n false)
       ∧ (HEADER_SIZE + n = length (wt_file t))%nat.
Proof.
  intros (_ & content & Hp & ->) Hlen. exists (length content).
  rewrite length_app, length_header_encode in *. split; [|done].
  rewrite <-(app_nil_r content) at 1. apply scan_wal_frames; [done| |done].
  rewrite app_nil_r. lia.
Qed.

(** A request that leaves no partial frame behind: the write fails before its
    first byte, or it and the sync succeed. *)
Definition clean_io (io : WriteIo) : Prop :=
  match io_write io with
  | Some (k, _) => k = 0%nat
  | None => io_sync io = None
  end.

Lemma process_write_clean `{!WireLaws W} io t rs record :
  wal_ok t rs → wt_fail_next_sync t = false → clean_io io → zlen rs + 1 < u64_max →
  let '(reply, t') := process_write io t record in
  wt_fail_next_sync t' = false
  ∧ match reply with
    | Ok seq => seq = zlen rs + 1 ∧ wal_ok t' (rs ++ [record])
    | Err _ => wal_ok t' rs
    end.
Proof.
  intros Hok Hfs Hio Hlen. unfold process_write. pose proof Hok as (Hseq & _).
  destruct (wt_fail_next_append t); [done|].
  destruct (frame_encode _) as [encoded|e] eqn:Henc; [|done].
  destruct (wal_ok_encode _ _ _ _ Hok Henc ltac:(lia)) as (bs & Hbs & Hbs' & Hf & Hf').
  unfold clean_io in Hio. destruct (io_write io) as [[k msg]|].
  - subst k. cbn. split; [done|]. split; [done|]. exists bs. by rewrite app_nil_r.
  - rewrite Hfs, Hio. split; [done|]. split; [done|]. split; [|by exists (bs ++ encoded)].
    cbn. rewrite Hseq, u64_incr_small, length_app by lia. cbn [length]. lia.
Qed.

(** The records whose append was acknowledged. *)
Fixpoint acked (reqs : list (WriteIo * WalRecord)) (replies : list (WalResult Z)) : list WalRecord :=
  match reqs, replies with
  | (_, record) :: reqs, Ok _ :: replies => record :: acked reqs replies
  | _ :: reqs, Err _ :: replies => acked reqs replies
  | _, _ => []
  end.

Lemma writer_run_clean `{!WireLaws W} t rs reqs :
  wal_ok t rs → wt_fail_next_sync t = false → Forall (λ q, clean_io q.1) reqs →
  zlen rs + zlen reqs < u64_max →
  let '(replies, t') := writer_run t reqs in wal_ok t' (rs ++ acked reqs replies).
Proof.
  revert t rs; induction reqs as [|[io record] reqs IH]; intros t rs Hok Hfs Hio Hlen.
  { cbn. by rewrite app_nil_r. }
  apply Forall_cons in Hio as [Hio Hios]. cbn [writer_run length] in *.
  pose proof (process_write_clean io t rs record Hok Hfs Hio ltac:(lia)) as Hp.
  destruct (process_write io t record) as [[seq|e] t1]; destruct Hp as [Hfs1 Hp].
  - destruct Hp as [-> Hok1].
    specialize (IH t1 _ Hok1 Hfs1 Hios). rewrite length_app in IH. cbn [length] in IH.
    destruct (writer_run t1 reqs) as [replies t2]. cbn [acked].
    rewrite <-app_assoc in IH. apply IH. lia.
  - specialize (IH t1 _ Hp Hfs1 Hios ltac:(lia)). by destruct (writer_run t1 reqs).
Qed.
End invariant.

(** C29: acknowledged appends are durable and nothing else is: if every request
    either succeeds or fails before its first byte is written, then scanning the
    file afterwards gives exactly the records it held before followed by the
    acknowledged ones, in order, with no torn tail. *)
Theorem writer_durability `{W : Wire} `{!WireLaws W} t rs reqs replies t' :
  wal_ok t rs → wt_fail_next_sync t = false → Forall (λ q, clean_io q.1) reqs →
  zlen rs + zlen reqs < u64_max →
  writer_run t reqs = (replies, t') → zlen (wt_file t') ≤ u64_max →
  ∃ n, scan_wal (wt_file t') = Ok (scan_result (rs ++ acked reqs replies) n false).
Proof.
  intros Hok Hfs Hio Hlen Hrun Hf.
  pose proof (writer_run_clean t rs reqs Hok Hfs Hio Hlen) as H. rewrite Hrun in H.
  destruct (wal_ok_scan _ _ H Hf) as (n & Hn & _). by exists n.
Qed.

(** A crash or an I/O error in the middle of an append is harmless: however
    many bytes of the new frame reached the file, a scan finds the records
    written before, and the new record in addition only when its whole frame
    reached the file. *)
Lemma write_error_keeps_log `{W : Wire} `{!WireLaws W} t rs record k msg sync e t' encoded :
  wal_ok t rs → wt_fail_next_append t = false →
  frame_encode (mkWalFrame (wt_next_seq t) record) = Ok encoded →
  process_write (mkWriteIo (Some (k, msg)) sync) t record = (Err e, t') →
  zlen (wt_file t ++ encoded) ≤ u64_max →
  ∃ n, scan_wal (wt_file t') =
    Ok (if (length encoded <=? k)%nat then scan_result (rs ++ [record]) n false
        else scan_result rs n (negb (k =? 0)%nat)).
Proof.
  intros Hok Hfa Henc Hp Hlen. rewrite length_app in Hlen.
  pose proof (wal_ok_small _ _ Hok ltac:(lia)) as Hsm.
  destruct (wal_ok_encode _ _ _ _ Hok Henc Hsm) as (content & Hc & Hc' & Hf & Hf').
  unfold process_write in Hp. rewrite Hfa, Henc in Hp. cbn in Hp. injection Hp as _ <-. cbn [wt_file].
  rewrite Hf in *. rewrite length_app, length_header_encode in Hlen. rewrite <-app_assoc.
  destruct (Nat.leb_spec (length encoded) k) as [Hk|Hk].
  - rewrite take_ge by done. exists (length (content ++ encoded)).
    rewrite <-(app_nil_r (content ++ encoded)) at 1. apply scan_wal_frames; [done| |done].
    rewrite app_nil_r, length_app. lia.
  - exists (length content). apply scan_wal_frames; [done|rewrite length_app, length_take; lia|].
    destruct (Nat.eqb_spec k 0) as [->|]; [done|]. eapply torn_take; [done|lia].
Qed.

(** The bytes of a failed sync stay in the file and their sequence number is
    used again. *)
Lemma sync_failure_file `{W : Wire} io t rs record encoded e t' :
  wal_ok t rs → wt_fail_next_append t = false →
  frame_encode (mkWalFrame (wt_next_seq t) record) = Ok encoded →
  io_write io = None → process_write io t record = (Err e, t') →
  wt_file t' = wt_file t ++ encoded ∧ wt_next_seq t' = wt_next_seq t
  ∧ wt_fail_next_append t' = false ∧ wt_fail_next_sync t' = false.
Proof.
  intros Hok Hfa Henc Hw Hp. unfold process_write in Hp. rewrite Hfa, Henc, Hw in Hp.
  repeat case_match; naive_solver.
Qed.

(** C32: after a failed sync the log is poisoned: the frame that was written but
    not acknowledged stays in the file while its sequence number is reused, so
    once the next append is acknowledged every later scan, and with it every
    restart, fails with [SequenceViolation]. *)
Theorem sync_failure_poisons_log `{W : Wire} `{!WireLaws W} io t rs r1 e1 e t1 r2 seq t2 :
  wal_ok t rs → wt_fail_next_append t = false →
  frame_encode (mkWalFrame (wt_next_seq t) r1) = Ok e1 → io_write io = None →
  process_write io t r1 = (Err e, t1) →
  process_write io_ok t1 r2 = (Ok seq, t2) →
  zlen (wt_file t2) ≤ u64_max →
  seq = zlen rs + 1
  ∧ scan_wal (wt_file t2) = Err (SequenceViolation (zlen rs + 2) (zlen rs + 1)).
Proof.
  intros Hok Hfa He1 Hw Hp1 Hp2 Hlen. pose proof Hok as (Hseq & _).
  destruct (sync_failure_file _ _ _ _ _ _ _ Hok Hfa He1 Hw Hp1) as (Hf1 & Hs1 & Hfa1 & Hfs1).
  unfold process_write in Hp2. rewrite Hfa1, Hfs1, Hs1, Hseq in Hp2. cbn [io_write io_sync io_ok] in Hp2.
  destruct (frame_encode (mkWalFrame (zlen rs + 1) r2)) as [e2|] eqn:He2; [|done].
  injection Hp2 as <- <-. split; [done|]. cbn [wt_file] in *. rewrite Hf1, !length_app in Hlen.
  pose proof (wal_ok_small _ _ Hok ltac:(lia)) as Hsm.
  destruct (wal_ok_encode _ _ _ _ Hok He1 Hsm) as (content & Hc & Hc' & Hf & Hf').
  rewrite Hf, length_app, length_header_encode in Hlen.
  rewrite Hf1, Hf', <-!app_assoc, (app_assoc content), <-(app_nil_r e2).
  erewrite scan_wal_wrong_seq; [|done|done|..]; rewrite ?length_app; cbn [length].
  - do 2 f_equal. lia.
  - unfold u64_range, u64_max in *. lia.
  - lia.
  - lia.
Qed.

(** ** Reopening *)

Lemma torn_decode `{W : Wire} tail : torn tail → frame_decode tail = Err TruncatedFrame.
Proof.
  intros [_ Ht]. unfold frame_decode.
  destruct (Nat.ltb_spec (length tail) FRAME_OVERHEAD); [done|].
  unfold FRAME_OVERHEAD in *. destruct Ht as [|[Hm Hl]]; [lia|].
  destruct (Z.ltb_spec MAX_RECORD_SIZE (from_le_bytes (slice tail 0 4))); [lia|].
  by destruct (Nat.ltb_spec (length tail) (18 + Z.to_nat (from_le_bytes (slice tail 0 4)))); [|lia].
Qed.

Lemma next_sequence_run `{W : Wire} buf rs n fuel :
  frames_prefix buf rs n →
  next_sequence_loop (length rs + fuel) buf 0 0 = next_sequence_loop fuel buf n (zlen rs).
Proof.
  intros Hp. revert fuel. induction Hp as [|rs n r k Hp IH Hd]; intros fuel; [done|].
  rewrite length_app. cbn [length].
  replace (length rs + 1 + fuel)%nat with (length rs + S fuel)%nat by lia.
  rewrite IH. cbn [next_sequence_loop].
  pose proof (frame_decode_size _ _ _ Hd) as [[Hk1 Hk2] _].
  rewrite length_drop in Hk2. unfold FRAME_OVERHEAD in *.
  destruct (Nat.ltb_spec n (length buf)); [|lia]. cbn [negb]. rewrite Hd. cbn [sequence].
  f_equal. lia.
Qed.

Lemma scan_for_next_sequence_prefix `{W : Wire} buf rs n t :
  zlen buf ≤ u64_max → frames_prefix buf rs n → scan_stops buf n t →
  scan_for_next_sequence buf = Ok (zlen rs + 1).
Proof.
  intros Hb Hp Ht. pose proof (frames_prefix_small _ _ _ Hb Hp) as [Hlen Hle].
  unfold scan_for_next_sequence. destruct (decide (buf = [])) as [->|Hne].
  { destruct rs; [done|cbn in Hle; lia]. }
  assert (next_sequence_loop (S (length buf)) buf 0 0 = Some (Ok (zlen rs))) as ->.
  { replace (S (length buf)) with (length rs + S (length buf - length rs))%nat by lia.
    rewrite (next_sequence_run _ _ _ _ Hp). cbn [next_sequence_loop].
    pose proof (frames_prefix_le _ _ _ Hp).
    destruct (Nat.ltb_spec n (length buf)); cbn [negb]; [|done].
    destruct t; cbn in Ht; [|lia]. by rewrite torn_decode. }
  cbn. rewrite u64_incr_small by lia. by destruct buf.
Qed.

(** Reopening continues the numbering: opening a file that holds the records
    [rs], even with a torn tail, gives a writer whose next sequence number is
    one more than the number of records, and the file is left as it is. *)
Lemma reopen_continues_sequence `{W : Wire} `{!WireLaws W} rs bs (tail : list byte) (t : bool) :
  encode_log 1 rs = Ok bs → (if t then torn tail else tail = []) →
  zlen (bs ++ tail) ≤ u64_max →
  let file := header_encode WalHeader_new ++ bs ++ tail in
  WalWriter_open false (Some file)
    = Ok (mkWalWriter true (WriterThread_new file (zlen rs + 1)))
  ∧ WalWriter_open true (Some file) = Err StoreLocked.
Proof.
  intros Hbs Ht Hlen file. split; [|done]. unfold WalWriter_open, open_wal_file.
  assert (length file `min` HEADER_SIZE = HEADER_SIZE)%nat as ->
    by (unfold file; rewrite length_app, length_header_encode; lia).
  cbn [Nat.eqb Nat.ltb HEADER_SIZE]. unfold file.
  rewrite take_app_exact, drop_app_exact, header_decode_encode by done. cbn [rbind].
  rewrite (scan_for_next_sequence_prefix _ rs (length bs) t); [done|done| |].
  - rewrite length_app in Hlen. pose proof (encode_log_small _ _ _ Hbs).
    eapply frames_prefix_ext; [apply encode_log_frames; [done|lia]|].
    rewrite take_app_length. by rewrite take_ge.
  - destruct t; cbn; [by rewrite drop_app_length|]. subst tail. by rewrite app_nil_r.
Qed.

(** ** Witnesses *)

Section witnesses.

Definition ex_thread : WriterThread :=
  WriterThread_new (header_encode WalHeader_new ++ ex_log) 3.

Lemma ex_thread_ok : wal_ok ex_thread ex_records.
Proof.
  split; [reflexivity|]. exists ex_log. split; [|reflexivity].
  apply encode_log_frames; [vm_compute; reflexivity|vm_compute; discriminate].
Qed.

Definition ex_r1 : WalRecord := JobCompleted (from_uuid 7) (LeaseId_new 4) (from_millis 8).
Definition ex_r2 : WalRecord := JobCancelled (from_uuid 9) (from_millis 9).
Definition ex_reqs : list (WriteIo * WalRecord) :=
  [(io_ok, ex_r1); (mkWriteIo (Some (0%nat, "disk full"%string)) None, ex_r2); (io_ok, ex_r2)].

Definition ex_after (t : WriterThread) (reqs : list (WriteIo * WalRecord)) : WriterThread :=
  (writer_run t reqs).2.

Lemma writer_durability_witness :
  ∃ n, scan_wal (wt_file (ex_after ex_thread ex_reqs))
       = Ok (scan_result (ex_records ++ [ex_r1; ex_r2]) n false).
Proof.
  apply (writer_durability ex_thread ex_records ex_reqs
           [Ok 3; Err (Io "disk full"); Ok 4] (ex_after ex_thread ex_reqs)).
  - apply ex_thread_ok.
  - reflexivity.
  - repeat constructor.
  - vm_compute. reflexivity.
  - vm_compute. reflexivity.
  - vm_compute. discriminate.
Defined.

Definition ex_sync_fail : WriteIo := mkWriteIo None (Some "fsync"%string).

Lemma sync_failure_poisons_log_witness :
  scan_wal (wt_file (ex_after ex_thread [(ex_sync_fail, ex_r1); (io_ok, ex_r2)]))
  = Err (SequenceViolation 4 3).
Proof.
  apply (sync_failure_poisons_log ex_sync_fail ex_thread ex_records ex_r1
           (match frame_encode (mkWalFrame 3 ex_r1) with Ok b => b | Err _ => [] end)
           (Io "fsync") (ex_after ex_thread [(ex_sync_fail, ex_r1)]) ex_r2 3
           (ex_after ex_thread [(ex_sync_fail, ex_r1); (io_ok, ex_r2)])).
  - apply ex_thread_ok.
  - reflexivity.
  - vm_compute. reflexivity.
  - reflexivity.
  - vm_compute. reflexivity.
  - vm_compute. reflexivity.
  - vm_compute. discriminate.
Defined.

End witnesses.
