(* ===== verification/WriterTask.v ===== *)
(** * The writer thread, its channel and the lock ([wal/writer.rs])

    [Writer] treats an append as one call.  Here is what happens between the
    handle and the thread: requests go through a bounded channel, the thread takes
    them one by one and answers each on its own channel, a dropped handle closes
    the channel, and the thread ends when the channel is closed and empty, which
    closes the lock file.  Any number of writers may be opened on one directory,
    by any processes; the lock lets one of them be alive at a time. *)

From S2P Require Import Prelude Types Codec ConcreteWire Scanner Writer.

Definition WRITER_CHANNEL_SIZE : nat := 64.

(** Who waits for the answer. *)
Abbreviation ReplyTo := nat (only parsing).

Record WriteRequest := mkWriteRequest {
  rq_record : WalRecord;
  rq_reply : ReplyTo;
}.

(** The directory: the content of [wal.log], and whether the lock on [LOCK] is
    taken. *)
Record Dir := mkDir {
  d_file : option (list byte);
  d_locked : bool;
}.

(** A handle with its channel and its thread, and what has happened so far. *)
Record Handle := mkHandle {
  h_tx : bool;
  h_queue : list WriteRequest;
  (** [None] when the thread has ended *)
  h_thread : option WriterThread;
  (** the thread as it was opened *)
  h_opened : WriterThread;
  (** every request that got into the channel *)
  h_sent : list WriteRequest;
  (** the requests that the thread has processed, with what the disk did, and its
      answers *)
  h_done : list (WriteIo * WriteRequest);
  h_replies : list (ReplyTo * WalResult Z);
}.

Definition Handle_new (t : WriterThread) : Handle := mkHandle true [] (Some t) t [] [] [].

Section task.
Context `{W : Wire}.

(** [WalWriter::open]: the lock file is closed again when the log cannot be
    opened. *)
Definition dir_open (d : Dir) : WalResult Handle * Dir :=
  if d_locked d then (Err StoreLocked, d)
  else match open_wal_file (d_file d) with
       | Ok (bytes, next_seq) => (Ok (Handle_new (WriterThread_new bytes next_seq)), mkDir (Some bytes) true)
       | Err e => (Err e, d)
       end.

(** [append] up to its answer: [None] while the channel is full. *)
Definition handle_send (req : WriteRequest) (h : Handle) : option (WalResult unit * Handle) :=
  if negb (h_tx h) then Some (Err WriterChannelClosed, h)
  else match h_thread h with
       | None => Some (Err WriterChannelClosed, h)
       | Some _ =>
           if (length (h_queue h) <? WRITER_CHANNEL_SIZE)%nat
           then Some (Ok (), mkHandle (h_tx h) (h_queue h ++ [req]) (h_thread h) (h_opened h) (h_sent h ++ [req])
                                (h_done h) (h_replies h))
           else None
       end.

(** The file that the thread writes to is the one in the directory. *)
Definition on_file (bytes : list byte) (t : WriterThread) : WriterThread :=
  mkWriterThread bytes (wt_next_seq t) (wt_fail_next_append t) (wt_fail_next_sync t).

(** A turn of [WriterThread::run]: [None] while there is nothing to do. *)
Definition thread_turn (io : WriteIo) (d : Dir) (h : Handle) : option (Dir * Handle) :=
  match h_thread h, h_queue h with
  | None, _ => None
  | Some t, [] =>
      if h_tx h then None
      else Some (mkDir (d_file d) false, mkHandle false [] None (h_opened h) (h_sent h) (h_done h) (h_replies h))
  | Some t, req :: queue =>
      let '(result, t) := process_write io (on_file (default [] (d_file d)) t) (rq_record req) in
      Some (mkDir (Some (wt_file t)) (d_locked d),
            mkHandle (h_tx h) queue (Some t) (h_opened h) (h_sent h) (h_done h ++ [(io, req)])
              (h_replies h ++ [(rq_reply req, result)]))
  end.

(** [append] of a handle that nobody else uses: the request is sent, the thread
    processes it, and its answer comes back. *)
Definition handle_append (io : WriteIo) (record : WalRecord) (d : Dir) (h : Handle)
    : option (WalResult Z * Dir * Handle) :=
  match handle_send (mkWriteRequest record (length (h_replies h))) h with
  | None => None
  | Some (Err e, h) => Some (Err e, d, h)
  | Some (Ok _, h) =>
      match thread_turn io d h with
      | Some (d, h) => (λ e, (e.2, d, h)) <$> last (h_replies h)
      | None => None
      end
  end.

(** The first half of [drop]; the second waits for the thread to end. *)
Definition handle_close (h : Handle) : Handle :=
  mkHandle false (h_queue h) (h_thread h) (h_opened h) (h_sent h) (h_done h) (h_replies h).

(** Joining the thread: it processes what is in the channel and ends. *)
Fixpoint handle_join (fuel : nat) (ios : nat → WriteIo) (d : Dir) (h : Handle) : option (Dir * Handle) :=
  match h_thread h with
  | None => Some (d, h)
  | Some _ =>
      match fuel with
      | O => None
      | S fuel =>
          match thread_turn (ios fuel) d h with
          | Some (d, h) => handle_join fuel ios d h
          | None => None
          end
      end
  end.

Definition handle_drop (ios : nat → WriteIo) (d : Dir) (h : Handle) : option (Dir * Handle) :=
  handle_join (S (length (h_queue h))) ios d (handle_close h).

(** ** All writers of a directory *)

Inductive dir_step : Dir * list Handle → Dir * list Handle → Prop :=
| dir_opens d hs h d' :
    dir_open d = (Ok h, d') → dir_step (d, hs) (d', hs ++ [h])
| dir_sends i req d hs h h' :
    hs !! i = Some h → handle_send req h = Some (Ok (), h') → dir_step (d, hs) (d, <[i := h']> hs)
| dir_works i io d hs h d' h' :
    hs !! i = Some h → thread_turn io d h = Some (d', h') → dir_step (d, hs) (d', <[i := h']> hs)
| dir_closes i d hs h :
    hs !! i = Some h → dir_step (d, hs) (d, <[i := handle_close h]> hs).

(** What a handle has done so far is what [writer_run] does, and what was sent and
    is not done is in the channel. *)
Record handle_ok (h : Handle) (t : WriterThread) : Prop := {
  ho_run : writer_run (h_opened h) (prod_map id rq_record <$> h_done h) = ((h_replies h).*2, t);
  ho_to : (h_replies h).*1 = (λ e, rq_reply e.2) <$> h_done h;
  ho_sent : h_sent h = (h_done h).*2 ++ h_queue h;
}.

(** A thread that is alive holds the lock, and its file is the one in the
    directory; one that has ended has left nothing in its channel. *)
Definition handle_in (d : Dir) (h : Handle) : Prop :=
  ∃ t, handle_ok h t ∧
    match h_thread h with
    | Some t' => t' = t ∧ d_file d = Some (wt_file t) ∧ d_locked d = true
    | None => h_tx h = false ∧ h_queue h = []
    end.

Record dir_inv (d : Dir) (hs : list Handle) : Prop := {
  di_ok : ∀ i h, hs !! i = Some h → handle_in d h;
  di_alone : ∀ i j hi hj, hs !! i = Some hi → hs !! j = Some hj →
    is_Some (h_thread hi) → is_Some (h_thread hj) → i = j;
  di_lock : d_locked d = true → ∃ i h, hs !! i = Some h ∧ is_Some (h_thread h);
}.

Lemma writer_run_snoc t reqs io r :
  writer_run t (reqs ++ [(io, r)]) =
    let '(replies, t1) := writer_run t reqs in
    let '(reply, t2) := process_write io t1 r in (replies ++ [reply], t2).
Proof.
  revert t; induction reqs as [|[io' r'] reqs IH]; intros t; cbn [app writer_run].
  - by destruct (process_write io t r) as [reply t2].
  - destruct (process_write io' t r') as [reply' t']. rewrite IH.
    destruct (writer_run t' reqs) as [replies t1]. by destruct (process_write io t1 r).
Qed.

Lemma on_file_id t : on_file (wt_file t) t = t.
Proof. by destruct t. Qed.

Lemma handle_ok_new t : handle_ok (Handle_new t) t.
Proof. by split. Qed.

(** The thread processes a request. *)
Lemma handle_ok_turn h t io req queue result t' :
  handle_ok h t → h_queue h = req :: queue → process_write io t (rq_record req) = (result, t') →
  handle_ok (mkHandle (h_tx h) queue (Some t') (h_opened h) (h_sent h) (h_done h ++ [(io, req)])
    (h_replies h ++ [(rq_reply req, result)])) t'.
Proof.
  intros [Hrun Hto Hsent] Hq Hp. split; cbn [h_opened h_sent h_done h_queue h_replies]; rewrite ?fmap_app; cbn.
  - by rewrite writer_run_snoc, Hrun, Hp.
  - by rewrite Hto.
  - by rewrite Hsent, Hq, <-app_assoc.
Qed.

Lemma thread_turn_cases io d h d' h' :
  thread_turn io d h = Some (d', h') →
  ∃ t, h_thread h = Some t ∧
    ( h_queue h = [] ∧ h_tx h = false ∧ d' = mkDir (d_file d) false
      ∧ h' = mkHandle false [] None (h_opened h) (h_sent h) (h_done h) (h_replies h)
    ∨ ∃ req queue result t', h_queue h = req :: queue
      ∧ process_write io (on_file (default [] (d_file d)) t) (rq_record req) = (result, t')
      ∧ d' = mkDir (Some (wt_file t')) (d_locked d)
      ∧ h' = mkHandle (h_tx h) queue (Some t') (h_opened h) (h_sent h) (h_done h ++ [(io, req)])
               (h_replies h ++ [(rq_reply req, result)])).
Proof.
  unfold thread_turn. destruct (h_thread h) as [t|]; [|done]. destruct (h_queue h) as [|req queue]; intros H.
  - destruct (h_tx h); [done|]. injection H as <- <-. eexists; split; [done|]. by left.
  - destruct (process_write _ _ _) as [result t'] eqn:Hp. injection H as <- <-. eexists; split; [done|]. right.
    by eexists _, _, _, _.
Qed.

Lemma insert_cases (hs : list Handle) i h' k hk :
  <[i := h']> hs !! k = Some hk → k = i ∧ hk = h' ∨ k ≠ i ∧ hs !! k = Some hk.
Proof. intros Hk. apply list_lookup_insert_Some in Hk. naive_solver. Qed.

(** Changing one handle, that is alive or not as before. *)
Lemma dir_inv_update d hs i h h' :
  dir_inv d hs → hs !! i = Some h → (is_Some (h_thread h') ↔ is_Some (h_thread h)) → handle_in d h' →
  dir_inv d (<[i := h']> hs).
Proof.
  intros [Hok Ha Hl] Hi Halive Hh'. split.
  - intros k hk [[-> ->]|[_ Hk]]%insert_cases; [done|by eapply Hok].
  - intros k j hk hj [[-> ->]|[_ Hk]]%insert_cases [[-> ->]|[_ Hj]]%insert_cases H1 H2; [done| | |by eapply Ha];
      eapply Ha; eauto; by apply Halive.
  - intros (k & hk & Hk & Hs)%Hl. destruct (decide (k = i)) as [->|Hne].
    + exists i, h'. rewrite list_lookup_insert_eq by (by eapply lookup_lt_Some). split; [done|].
      apply Halive. by simplify_eq.
    + exists k, hk. by rewrite list_lookup_insert_ne.
Qed.

(** ... and the one that is alive, with the directory. *)
Lemma dir_inv_alive d hs i h d' h' :
  dir_inv d hs → hs !! i = Some h → is_Some (h_thread h) → handle_in d' h' →
  (d_locked d' = true → is_Some (h_thread h')) → dir_inv d' (<[i := h']> hs).
Proof.
  intros [Hok Ha Hl] Hi Halive Hh' Hlk. assert (∀ k hk, k ≠ i → hs !! k = Some hk → h_thread hk = None) as Hdead.
  { intros k hk Hne Hk. destruct (h_thread hk) eqn:Htk; [|done]. destruct Hne. by eapply Ha. }
  split.
  - intros k hk [[-> ->]|[Hne Hk]]%insert_cases; [done|]. destruct (Hok _ _ Hk) as (t & Ht & Hm). exists t.
    by rewrite (Hdead _ _ Hne Hk) in *.
  - intros k j hk hj [[-> ->]|[Hne Hk]]%insert_cases [[-> ->]|[Hne' Hj]]%insert_cases H1 H2; [done|..].
    + rewrite (Hdead _ _ Hne' Hj) in H2. by destruct H2.
    + rewrite (Hdead _ _ Hne Hk) in H1. by destruct H1.
    + by eapply Ha.
  - intros H. exists i, h'. rewrite list_lookup_insert_eq by (by eapply lookup_lt_Some). auto.
Qed.

Lemma dir_open_inv d hs h d' : dir_inv d hs → dir_open d = (Ok h, d') → dir_inv d' (hs ++ [h]).
Proof.
  intros [Hok Ha Hl] Ho. unfold dir_open in Ho. destruct (d_locked d) eqn:Hlk; [done|].
  destruct (open_wal_file (d_file d)) as [[bytes seq]|e]; [|done]. injection Ho as <- <-.
  assert (∀ i hi, hs !! i = Some hi → h_thread hi = None) as Hdead.
  { intros i hi Hi. destruct (Hok _ _ Hi) as (t & _ & Ht). destruct (h_thread hi); [|done]. destruct Ht as (_ & _ & Ht). congruence. }
  set (new := Handle_new _). assert (∀ i hi, (hs ++ [new]) !! i = Some hi →
    hs !! i = Some hi ∨ i = length hs ∧ hi = new) as Hcases.
  { intros i hi Hi. apply lookup_app_Some in Hi as [?|[Hge Hi]]; [by left|right].
    apply list_lookup_singleton_Some in Hi as [Hi <-]. split; [lia|done]. }
  split.
  - intros i hi [Hi|[-> ->]]%Hcases.
    + destruct (Hok _ _ Hi) as (t & Ht & Hm). exists t. rewrite (Hdead _ _ Hi) in *. done.
    + eexists. split; [apply handle_ok_new|]. by cbn.
  - intros i j hi hj [Hi|[-> ->]]%Hcases [Hj|[-> ->]]%Hcases [? H1] [? H2]; [..|done];
      [rewrite (Hdead _ _ Hi) in H1|rewrite (Hdead _ _ Hi) in H1|rewrite (Hdead _ _ Hj) in H2]; done.
  - intros _. exists (length hs), new. by rewrite lookup_app_r, Nat.sub_diag by done.
Qed.

(** A turn of a thread. *)
Lemma thread_turn_in io d h d' h' :
  handle_in d h → thread_turn io d h = Some (d', h') →
  is_Some (h_thread h) ∧ handle_in d' h' ∧ (d_locked d' = true ↔ is_Some (h_thread h'))
  ∧ (h_done h').*2 ++ h_queue h' = (h_done h).*2 ++ h_queue h.
Proof.
  intros (t0 & Hho & Hm) (t & Hth & Hcase)%thread_turn_cases. rewrite Hth in *. destruct Hm as (<- & Hf & Hlk).
  split; [done|]. destruct Hcase as [(Hq & Htx & -> & ->)|(req & queue & result & t' & Hq & Hp & -> & ->)]; cbn.
  - split_and!; [exists t; cbn; split; [|done]|done|by rewrite Hq]. destruct Hho. split; cbn; [done..|]. by rewrite <-Hq.
  - rewrite Hf in Hp. cbn in Hp. rewrite on_file_id in Hp. split_and!.
    + exists t'. split; [by eapply handle_ok_turn|]. by cbn.
    + by rewrite Hlk.
    + by rewrite Hq, fmap_app, <-app_assoc.
Qed.

Lemma dir_step_inv d hs d' hs' : dir_inv d hs → dir_step (d, hs) (d', hs') → dir_inv d' hs'.
Proof.
  intros I Hs. inversion Hs as [? ? h ? Ho|i req ? ? h h' Hi Hsend|i io ? ? h ? h' Hi Ht|i ? ? h Hi]; subst.
  - by eapply dir_open_inv.
  - unfold handle_send in Hsend. destruct (h_tx h); [|done]. cbn [negb] in Hsend.
    destruct (h_thread h) as [t|] eqn:Hth; [|done]. destruct (Nat.ltb _ _); [|done]. injection Hsend as <-.
    eapply dir_inv_update; [done..|cbn; by rewrite Hth|]. destruct (di_ok _ _ I _ _ Hi) as (t0 & [Hr Hto Hsn] & Hm).
    exists t0. rewrite Hth in *. split; [|done]. split; [done..|]. cbn. by rewrite Hsn, app_assoc.
  - destruct (thread_turn_in _ _ _ _ _ (di_ok _ _ I _ _ Hi) Ht) as (Ha & Hin & Hl & _).
    eapply dir_inv_alive; [done..|]. by apply Hl.
  - eapply dir_inv_update; [done..|]. destruct (di_ok _ _ I _ _ Hi) as (t0 & [Hr Hto Hsn] & Hm).
    exists t0. split; [by split|]. cbn. destruct (h_thread h); [done|]. by destruct Hm.
Qed.

Lemma dir_reachable_inv file d hs : rtc dir_step (mkDir file false, []) (d, hs) → dir_inv d hs.
Proof.
  intros Hr. change (dir_inv (d, hs).1 (d, hs).2). revert Hr. generalize (d, hs).
  assert (dir_inv (mkDir file false) []) as I0 by (by split).
  change (dir_inv (mkDir file false, @nil Handle).1 (mkDir file false, @nil Handle).2) in I0. revert I0. generalize (mkDir file false, @nil Handle). intros x I0 y Hr.
  induction Hr as [|[d0 h0] [d1 h1] z Hs _ IH]; [done|]. apply IH. by eapply dir_step_inv.
Qed.

(** The end of a thread: everything that was sent is done, and the file is what
    its run has left. *)
Record ended (d : Dir) (h0 h : Handle) : Prop := {
  en_thread : h_thread h = None;
  en_sent : h_sent h = h_sent h0;
  en_opened : h_opened h = h_opened h0;
  en_done : (h_done h).*2 = h_sent h;
  en_lock : d_locked d = false;
  en_file : ∃ t, handle_ok h t ∧ d_file d = Some (wt_file t);
}.

Lemma handle_join_ends fuel ios d h :
  handle_in d h → h_tx h = false → is_Some (h_thread h) → (length (h_queue h) < fuel)%nat →
  ∃ d' h', handle_join fuel ios d h = Some (d', h') ∧ ended d' h h'.
Proof.
  revert d h; induction fuel as [|fuel IH]; intros d h Hin Htx [t Hth] Hlen; [lia|]. cbn [handle_join]. rewrite Hth.
  destruct (thread_turn (ios fuel) d h) as [[d1 h1]|] eqn:Ht.
  2: { unfold thread_turn in Ht. rewrite Hth in Ht. destruct (h_queue h); [by rewrite Htx in Ht|].
       by destruct (process_write _ _ _). }
  destruct (thread_turn_in _ _ _ _ _ Hin Ht) as (_ & Hin1 & Hlk & _).
  destruct (thread_turn_cases _ _ _ _ _ Ht) as (t' & _ & [(Hq & _ & -> & ->)|(req & q & res & t2 & Hq & _ & -> & ->)]).
  - eexists _, _. split; [by destruct fuel|]. destruct Hin as (t0 & Hok & Hm). rewrite Hth in Hm. destruct Hm as (-> & Hf & _).
    destruct Hok as [Hr Hto Hsn]. rewrite Hq, app_nil_r in Hsn. split; cbn; try done.
    exists t0. split; [|done]. split; cbn; [done..|]. by rewrite app_nil_r.
  - destruct (IH _ _ Hin1 Htx) as (d' & h' & Hj & [H1 H2 H3 H4 H5 H6]); [by eexists|rewrite Hq in Hlen; cbn in *; lia|].
    exists d', h'. split; [done|]. by split.
Qed.

(** Only the lock is reported as a lock. *)
Lemma frame_decode_not_locked buf : frame_decode buf ≠ Err StoreLocked.
Proof. unfold frame_decode. repeat case_match; try done. by destruct (from_bytes _). Qed.

Lemma next_sequence_not_locked fuel buf offset m : next_sequence_loop fuel buf offset m ≠ Some (Err StoreLocked).
Proof.
  revert offset m; induction fuel as [|fuel IH]; intros offset m; [done|]. cbn [next_sequence_loop].
  destruct (negb _); [done|]. destruct (frame_decode (drop offset buf)) as [[f k]|e] eqn:Hd; [done|].
  destruct e; try done. by apply frame_decode_not_locked in Hd.
Qed.

Lemma open_wal_file_not_locked file : open_wal_file file ≠ Err StoreLocked.
Proof.
  unfold open_wal_file. destruct file as [bytes|]; [|done]. repeat (case_match; [done|]).
  destruct (header_decode _) as [h|e] eqn:Hh; cbn [rbind].
  - unfold scan_for_next_sequence. destruct (drop HEADER_SIZE bytes) as [|x l]; [done|].
    destruct (next_sequence_loop _ _ _ _) as [[n|e]|] eqn:Hn; cbn; [done| |done]. intros [= ->].
    by apply next_sequence_not_locked in Hn.
  - intros [= ->]. unfold header_decode in Hh. repeat case_match; done.
Qed.

Lemma reply_of_done (l : list (WriteIo * WriteRequest)) : (λ e, rq_reply e.2) <$> l = rq_reply <$> l.*2.
Proof. by rewrite <-list_fmap_compose. Qed.

(** A log that is intact can be opened, and its numbering goes on. *)
Lemma open_wal_ok t rs :
  wal_ok t rs → zlen (wt_file t) ≤ u64_max → open_wal_file (Some (wt_file t)) = Ok (wt_file t, zlen rs + 1).
Proof.
  intros (_ & content & Hp & ->) Hlen. unfold open_wal_file. rewrite length_app, length_header_encode in *.
  assert ((HEADER_SIZE + length content) `min` HEADER_SIZE = HEADER_SIZE)%nat as -> by lia.
  cbn [Nat.eqb Nat.ltb HEADER_SIZE]. rewrite take_app_exact, drop_app_exact, header_decode_encode by done. cbn [rbind].
  by rewrite (scan_for_next_sequence_prefix content rs (length content) false); [|lia|..].
Qed.

(** C30: the writers of a directory take turns, and each of them works through its
    requests in order: whatever is opened, sent, dropped and written, at most one
    thread is alive, and exactly while the lock is taken; the requests that were
    sent to a thread are those it has taken, in order, and those still in its
    channel; what it has answered, to whom, and the content of [wal.log] are what
    the sequential [writer_run] gives for the requests it has taken; and a thread
    that has ended has answered everything that was sent to it. *)
Theorem writers_take_turns file d hs :
  rtc dir_step (mkDir file false, []) (d, hs) →
  (∀ i j hi hj, hs !! i = Some hi → hs !! j = Some hj →
     is_Some (h_thread hi) → is_Some (h_thread hj) → i = j)
  ∧ (d_locked d = true ↔ ∃ i h, hs !! i = Some h ∧ is_Some (h_thread h))
  ∧ ∀ i h, hs !! i = Some h → ∃ t,
      writer_run (h_opened h) (prod_map id rq_record <$> h_done h) = ((h_replies h).*2, t)
      ∧ (h_replies h).*1 = (λ e, rq_reply e.2) <$> h_done h
      ∧ h_sent h = (h_done h).*2 ++ h_queue h
      ∧ (is_Some (h_thread h) → h_thread h = Some t ∧ d_file d = Some (wt_file t))
      ∧ (h_thread h = None → (h_replies h).*1 = rq_reply <$> h_sent h).
Proof.
  intros [Hok Ha Hl]%dir_reachable_inv. split_and!; [done| |].
  - split; [done|]. intros (i & h & Hi & [t' Ht']). destruct (Hok _ _ Hi) as (t & _ & Hm). rewrite Ht' in Hm. by destruct Hm as (_ & _ & ?).
  - intros i h Hi. destruct (Hok _ _ Hi) as (t & [Hr Hto Hsn] & Hm). exists t. split_and!; [done..| |].
    + intros [t' Ht']. rewrite Ht' in *. by destruct Hm as (-> & ? & _).
    + intros Hn. rewrite Hn in Hm. destruct Hm as [_ Hq]. by rewrite Hto, Hsn, Hq, app_nil_r, reply_of_done.
Qed.

End task.

(** ** Witnesses *)

(** A new directory is opened; one record is written, another one waits in the
    channel. *)
Definition ex_opened : Handle :=
  Handle_new (WriterThread_new (header_encode WalHeader_new) 1).
Definition ex_sent (h : Handle) (r : WalRecord) (reply : nat) : Handle :=
  match handle_send (mkWriteRequest r reply) h with Some (_, h) => h | None => h end.
Definition ex_turned_once (d : Dir) (h : Handle) : Dir * Handle := default (d, h) (thread_turn io_ok d h).
Definition ex_dir : Dir * Handle :=
  ex_turned_once (mkDir (Some (header_encode WalHeader_new)) true) (ex_sent (ex_sent ex_opened ex_r1 1) ex_r2 2).

Lemma ex_dir_reached : rtc dir_step (mkDir None false, []) (ex_dir.1, [ex_dir.2]).
Proof.
  set (d := mkDir (Some (header_encode WalHeader_new)) true). set (h1 := ex_sent ex_opened ex_r1 1).
  set (h2 := ex_sent h1 ex_r2 2).
  apply (rtc_l _ _ (d, [ex_opened])); [apply (dir_opens _ [] ex_opened); reflexivity|].
  apply (rtc_l _ _ (d, [h1])); [apply (dir_sends 0 (mkWriteRequest ex_r1 1) d [ex_opened] ex_opened h1); reflexivity|].
  apply (rtc_l _ _ (d, [h2])); [apply (dir_sends 0 (mkWriteRequest ex_r2 2) d [h1] h1 h2); reflexivity|].
  apply (rtc_l _ _ (ex_dir.1, [ex_dir.2])); [|apply rtc_refl].
  apply (dir_works 0 io_ok d [h2] h2 ex_dir.1 ex_dir.2); [reflexivity|vm_compute; reflexivity].
Qed.

Lemma writers_take_turns_witness :
  ∃ t, (h_replies ex_dir.2).*2 = [Ok 1] ∧ d_file ex_dir.1 = Some (wt_file t) ∧ wt_next_seq t = 2.
Proof.
  destruct (proj2 (proj2 (writers_take_turns None ex_dir.1 [ex_dir.2] ex_dir_reached)) 0%nat ex_dir.2 eq_refl)
    as (t & _ & _ & _ & Ht & _).
  destruct Ht as [Ht Hf]; [vm_compute; eexists; reflexivity|]. exists t. split; [vm_compute; reflexivity|].
  split; [exact Hf|]. vm_compute in Ht. injection Ht as <-. reflexivity.
Defined.

(** Both records are in the log when it is opened again. *)
Definition ex_dropped : Dir * Handle := default ex_dir (handle_drop (λ _, io_ok) ex_dir.1 ex_dir.2).

