(* ===== verification/Damage.v ===== *)
(** * Damage to the log

    What the checksums of the log find.  CRC-32 tells apart byte strings that
    differ in one byte; so a byte of a frame that is changed on disk makes every
    later scan fail, and is not taken for a record or for a crash.  The length
    field is not protected in this way: a length that is changed so that it
    reaches behind the end of the file makes the rest of the log look like the
    torn tail of a crash. *)

From S2P Require Import Prelude Types Codec ConcreteWire Scanner Writer.

(** [crc32fast::hash] is a CRC: it detects every change of one byte. *)
Class DetectsByte (W : Wire) : Prop :=
  crc32_byte : ∀ a b b' c, b ≠ b' → crc32 (a ++ b :: c) ≠ crc32 (a ++ b' :: c).

(** ** CRC-32 detects a changed byte *)

Definition w32 (c : Z) : Prop := 0 ≤ c < 2 ^ 32.

Lemma w32_bit c n : w32 c → 32 ≤ n → Z.testbit c n = false.
Proof.
  intros [H0 H1] Hn. destruct (decide (c = 0)) as [->|]; [apply Z.testbit_0_l|].
  apply Z.bits_above_log2; [done|]. apply Z.log2_lt_pow2; [lia|]. eapply Z.lt_le_trans; [done|].
  apply Z.pow_le_mono_r; lia.
Qed.

Lemma w32_lxor a b : w32 a → w32 b → w32 (Z.lxor a b).
Proof.
  intros Ha Hb. assert (0 ≤ Z.lxor a b) as H0 by (apply Z.lxor_nonneg; unfold w32 in *; lia). split; [done|].
  destruct (decide (Z.lxor a b = 0)) as [->|]; [done|]. apply Z.log2_lt_pow2; [lia|].
  destruct (Z.lt_ge_cases (Z.log2 (Z.lxor a b)) 32) as [|Hge]; [done|].
  pose proof (Z.bit_log2 (Z.lxor a b) ltac:(lia)) as Hbit.
  by rewrite Z.lxor_spec, (w32_bit a), (w32_bit b) in Hbit by done.
Qed.

Lemma w32_shiftr c : w32 c → w32 (Z.shiftr c 1).
Proof.
  intros [H0 H1]. unfold w32. rewrite Z.shiftr_div_pow2 by lia. change (2 ^ 1) with 2.
  split; [apply Z.div_pos; lia|]. apply Z.div_lt_upper_bound; lia.
Qed.

Lemma crc_bit_w32 c : w32 c → w32 (crc_bit c).
Proof.
  intros Hc. unfold crc_bit. destruct (Z.testbit c 0); [apply w32_lxor; [|done]|]; by apply w32_shiftr.
Qed.

(** The highest bit of the result is the lowest bit of the register. *)
Lemma crc_bit_31 c : w32 c → Z.testbit (crc_bit c) 31 = Z.testbit c 0.
Proof.
  intros Hc. unfold crc_bit. destruct (Z.testbit c 0);
    rewrite ?Z.lxor_spec, Z.shiftr_spec, (w32_bit c) by (done || lia); done.
Qed.

Lemma crc_bit_inj c c' : w32 c → w32 c' → crc_bit c = crc_bit c' → c = c'.
Proof.
  intros Hc Hc' Heq. pose proof (crc_bit_31 c Hc) as H0. rewrite Heq, crc_bit_31 in H0 by done.
  assert (Z.shiftr c 1 = Z.shiftr c' 1) as Hs.
  { unfold crc_bit in Heq. rewrite H0 in Heq. destruct (Z.testbit c 0); [|done].
    apply (f_equal (λ z, Z.lxor z 0xEDB88320)) in Heq.
    by rewrite !Z.lxor_assoc, Z.lxor_nilpotent, !Z.lxor_0_r in Heq. }
  apply Z.bits_inj'. intros n Hn. destruct (decide (n = 0)) as [->|]; [done|].
  apply (f_equal (λ z, Z.testbit z (n - 1))) in Hs. rewrite !Z.shiftr_spec in Hs by lia.
  by replace (n - 1 + 1) with n in Hs by lia.
Qed.

Lemma crc_bits_inj k c c' :
  w32 c → w32 c' → w32 (Nat.iter k crc_bit c) ∧ (Nat.iter k crc_bit c = Nat.iter k crc_bit c' → c = c').
Proof.
  intros Hc Hc'. assert (∀ k c, w32 c → w32 (Nat.iter k crc_bit c)) as Hw.
  { clear. intros k c Hc. induction k as [|k IH]; [done|]. by apply crc_bit_w32. }
  split; [by apply Hw|]. induction k as [|k IH]; [done|]. cbn. intros H%crc_bit_inj; [by apply IH|by apply Hw..].
Qed.

Lemma byte_w32 b : w32 (byte_to_Z b).
Proof. pose proof (byte_to_Z_range b). unfold w32. lia. Qed.

Lemma lxor_cancel a b c : Z.lxor a b = Z.lxor a c → b = c.
Proof.
  intros H%(f_equal (Z.lxor a)). by rewrite <-!Z.lxor_assoc, Z.lxor_nilpotent, !Z.lxor_0_l in H.
Qed.

Lemma crc_byte_w32 c b : w32 c → w32 (crc_byte c b).
Proof.
  intros Hc. assert (w32 (Z.lxor c (byte_to_Z b))) as H by (apply w32_lxor; [done|apply byte_w32]).
  exact (proj1 (crc_bits_inj 8 _ _ H H)).
Qed.

Lemma crc_byte_inj c c' b b' : w32 c → w32 c' → crc_byte c b = crc_byte c' b' → Z.lxor c (byte_to_Z b) = Z.lxor c' (byte_to_Z b').
Proof. intros Hc Hc'. apply (crc_bits_inj 8); apply w32_lxor; done || apply byte_w32. Qed.

Lemma crc_bytes_w32 bs c : w32 c → w32 (foldl crc_byte c bs).
Proof. revert c; induction bs as [|b bs IH]; intros c Hc; [done|]. cbn. by apply IH, crc_byte_w32. Qed.

Lemma crc_bytes_inj bs c c' : w32 c → w32 c' → foldl crc_byte c bs = foldl crc_byte c' bs → c = c'.
Proof.
  revert c c'; induction bs as [|b bs IH]; intros c c' Hc Hc'; [done|]. cbn.
  intros H%IH; [|by apply crc_byte_w32..]. apply crc_byte_inj in H; [|done..].
  rewrite (Z.lxor_comm c), (Z.lxor_comm c') in H. by apply lxor_cancel in H.
Qed.

(** The polynomial that the log uses has the property. *)
#[global] Instance concrete_wire_detects : DetectsByte concrete_wire.
Proof.
  intros a b b' c Hne. cbn. unfold crc32_ieee. rewrite !foldl_app. cbn [foldl].
  set (s := foldl crc_byte 0xFFFFFFFF a). assert (w32 s) as Hs by (by apply crc_bytes_w32).
  assert (∀ x, w32 x → Z.land (Z.lxor x 0xFFFFFFFF) 0xFFFFFFFF = Z.lxor x 0xFFFFFFFF) as Hl.
  { intros x Hx. change 0xFFFFFFFF with (Z.ones 32) at 2. rewrite Z.land_ones by lia.
    apply Z.mod_small. apply (w32_lxor x 0xFFFFFFFF); done. }
  rewrite !Hl by (apply crc_bytes_w32; by apply crc_byte_w32). intros H.
  rewrite !(Z.lxor_comm _ 0xFFFFFFFF) in H. apply lxor_cancel, crc_bytes_inj in H; [|by apply crc_byte_w32..].
  apply crc_byte_inj, lxor_cancel in H; [|done..]. apply (f_equal byte_of_Z) in H. by rewrite !byte_of_to_Z in H.
Qed.

(** ** A changed byte of a frame *)

Section damage.
Context `{W : Wire} `{!WireLaws W} `{!DetectsByte W}.

(** A frame that is not what it was: its body or its checksum has another byte,
    behind the length. *)
Lemma split_damage (p q body crc : list byte) b :
  p ++ b :: q = body ++ crc →
  (∃ q1, body = p ++ b :: q1 ∧ q = q1 ++ crc) ∨ (∃ p1, p = body ++ p1 ∧ crc = p1 ++ b :: q).
Proof.
  intros [k [[-> ->]|[-> Hk]]]%app_eq_app; [right; by exists k|].
  destruct k as [|x k]; [right; exists []; split; [by rewrite !app_nil_r|done]|]. left. injection Hk as -> ->. by exists k.
Qed.

(** What a scan reports of it: the byte at position 4 is the version. *)
Definition damage_error (i : nat) (e : WalError) : Prop :=
  if decide (i = 4%nat) then ∃ v, e = UnsupportedRecordVersion v
  else ∃ stored computed, e = ChecksumMismatch stored computed.

Lemma index_u8_mid (p l : list byte) b : index_u8 (p ++ b :: l) (length p) = byte_to_Z b.
Proof.
  unfold index_u8. rewrite (slice_app_mid p [b] l) by (cbn; lia). cbn. lia.
Qed.

Lemma index_u8_head (p l l' : list byte) i : (i < length p)%nat → index_u8 (p ++ l) i = index_u8 (p ++ l') i.
Proof. intros Hi. unfold index_u8, slice. by rewrite !take_app_le by lia. Qed.

(** The version of a frame with one changed byte. *)
Lemma damaged_version f bs p b b' q rest :
  frame_encode f = Ok bs → bs = p ++ b :: q → (4 ≤ length p)%nat → b ≠ b' →
  index_u8 ((p ++ b' :: q) ++ rest) 4 = RECORD_VERSION ↔ length p ≠ 4%nat.
Proof.
  intros (pl & _ & _ & Henc)%frame_encode_ok -> Hp Hne. set (body := frame_body _ _ _) in Henc.
  destruct (frame_body_fields (sequence f) (frame_record f) pl (to_le_bytes 4 (crc32 body))) as [Hv _].
  fold body in Hv. rewrite <-Henc in Hv. rewrite <-app_assoc. destruct (decide (length p = 4%nat)) as [H4|H4].
  - rewrite <-H4 in Hv |- *. rewrite index_u8_mid in Hv. cbn [app]. rewrite index_u8_mid, <-Hv. split; [|done].
    intros Heq%(f_equal byte_of_Z). by rewrite !byte_of_to_Z in Heq.
  - rewrite (index_u8_head p _ (b :: q)) by lia. by rewrite Hv.
Qed.

Lemma frame_decode_damaged f bs p b b' q rest :
  frame_encode f = Ok bs → bs = p ++ b :: q → (4 ≤ length p)%nat → b ≠ b' →
  ∃ e, frame_decode ((p ++ b' :: q) ++ rest) = Err e ∧ damage_error (length p) e.
Proof.
  intros Henc Hbs Hp Hne. pose proof (damaged_version _ _ _ _ _ _ rest Henc Hbs Hp Hne) as Hv4. pose proof (frame_encode_payload_len _ _ rest Henc) as [Hlen Hmax].
  apply frame_encode_ok in Henc as (pl & Hpl & Hle & Henc).
  set (body := frame_body (sequence f) (frame_record f) pl) in *.
  pose proof (length_frame_body (sequence f) (frame_record f) pl : length body = _) as Hb.
  set (buf := (p ++ b' :: q) ++ rest).
  assert (length (p ++ b' :: q) = length body + 4)%nat as Hlb.
  { transitivity (length bs); [subst bs; by rewrite Hbs, !length_app|]. by rewrite Henc, length_app, length_to_le_bytes. }
  assert (from_le_bytes (slice buf 0 4) = Z.of_nat (length body) - 14) as Hl.
  { etrans; [|etrans; [exact Hlen|rewrite Hbs, !length_app in *; unfold FRAME_OVERHEAD; cbn in *; lia]].
    unfold buf, slice. rewrite Hbs, <-!app_assoc, !take_app_le by done. done. }
  fold buf in Hv4. unfold damage_error. destruct (Z.eqb_spec (index_u8 buf 4) RECORD_VERSION) as [Hver|Hver].
  - assert (14 + Z.to_nat (from_le_bytes (slice buf 0 4)) = length body)%nat as Hfin by (rewrite Hl; lia).
    pose proof (corrupt_frame_rejected buf) as Hc. cbv zeta in Hc. rewrite Hfin in Hc.
    apply Hv4 in Hver as Hn4. eexists. split; [apply Hc|rewrite decide_False by done; by eexists _, _]; [|unfold buf; rewrite length_app; lia|done|].
    + rewrite Hl. unfold MAX_RECORD_SIZE in *. lia.
    + rewrite Hbs in Henc. apply split_damage in Henc as [(q1 & Hbody & ->)|(p1 & -> & Hcrc)].
      * assert (buf = (p ++ b' :: q1) ++ to_le_bytes 4 (crc32 body) ++ rest) as ->.
        { unfold buf. by rewrite <-!app_assoc, <-app_comm_cons, <-!app_assoc. }
        assert (length body = length (p ++ b' :: q1)) as -> by (by rewrite Hbody, !length_app).
        rewrite take_app_length, (slice_app_mid (p ++ b' :: q1)) by (rewrite ?length_to_le_bytes; done).
        rewrite from_to_le_bytes by (pose proof (crc32_range body); unfold u32_range in *; lia).
        rewrite Hbody. by apply crc32_byte.
      * assert (buf = body ++ (p1 ++ b' :: q) ++ rest) as -> by (unfold buf; by rewrite <-!app_assoc).
        assert (length (p1 ++ b' :: q) = 4%nat) as H4.
        { transitivity (length (p1 ++ b :: q)); [by rewrite !length_app|]. by rewrite <-Hcrc, length_to_le_bytes. }
        rewrite take_app_length, (slice_app_mid body) by lia. intros Heq.
        apply (f_equal (to_le_bytes 4)) in Heq. rewrite <-H4, to_from_le_bytes, H4, Hcrc in Heq.
        by apply app_inv_head in Heq; injection Heq.
  - exists (UnsupportedRecordVersion (index_u8 buf 4)). split.
    2: { rewrite decide_True by (destruct (decide (length p = 4%nat)); [done|by destruct Hver; apply Hv4]). by eexists. } unfold frame_decode.
    rewrite Hl. unfold buf at 1 2. rewrite !length_app in *. unfold FRAME_OVERHEAD, MAX_RECORD_SIZE in *.
    destruct (Nat.ltb_spec (length p + length (b' :: q) + length rest) 18); [lia|].
    destruct (Z.ltb_spec (1024 * 1024) (Z.of_nat (length body) - 14)); [lia|].
    destruct (Nat.ltb_spec (length p + length (b' :: q) + length rest) (18 + Z.to_nat (Z.of_nat (length body) - 14))); [lia|].
    destruct (Z.eqb_spec (index_u8 buf 4) RECORD_VERSION); done.
Qed.

(** C36: damage to a frame is found: when a byte of a frame in the log is changed,
    behind the length field, then, whatever comes after the frame, every scan
    fails with a version or a checksum error; the damaged record is not returned,
    and the damage is not taken for a crash. *)
Theorem damaged_byte_detected rs bs r eb p b b' q rest :
  encode_log 1 rs = Ok bs → frame_encode (mkWalFrame (zlen rs + 1) r) = Ok eb →
  eb = p ++ b :: q → (4 ≤ length p)%nat → b ≠ b' → zlen (bs ++ eb ++ rest) ≤ u64_max →
  ∃ e, scan_wal (header_encode WalHeader_new ++ bs ++ (p ++ b' :: q) ++ rest) = Err e ∧ damage_error (length p) e.
Proof.
  intros Hbs Heb Hsplit Hp Hne Hlen. pose proof (encode_log_small _ _ _ Hbs) as Hsm.
  assert (length (p ++ b' :: q) = length eb) as Hl by (by rewrite Hsplit, !length_app).
  destruct (frame_decode_damaged _ _ p b b' q rest Heb Hsplit Hp Hne) as (e & He & Hde).
  destruct (frame_encode_payload_len _ _ rest Heb) as [Hpl Hm]. pose proof (frame_encode_length _ _ Heb) as Hge.
  assert (slice ((p ++ b' :: q) ++ rest) 0 4 = slice (eb ++ rest) 0 4) as Hs4.
  { unfold slice. rewrite Hsplit, <-!app_assoc, !take_app_le by done. done. }
  exists e. split; [|done]. rewrite scan_wal_header, (scan_frames_bad_frame _ rs (length bs));
    rewrite ?drop_app_length, ?He, ?Hs4, ?Hpl.
  - by destruct (Z.ltb_spec MAX_RECORD_SIZE (zlen eb - Z.of_nat FRAME_OVERHEAD)); [lia|].
  - rewrite !length_app in *. cbn [length] in *. lia.
  - eapply frames_prefix_ext; [apply encode_log_frames; [done|rewrite !length_app in Hlen; lia]|].
    rewrite take_app_length. by rewrite take_ge.
  - by destruct p.
  - intros [_ Ht]. rewrite Hs4, Hpl, length_app, Hl in Ht. unfold FRAME_OVERHEAD in *. lia.
  - done.
Qed.

(** C37: damage to a length field is taken for a crash: when the length of a frame
    in the middle of the log is changed so that it reaches behind the end of the
    file, a scan succeeds with the records before this frame and reports a torn
    tail, and the repair then cuts off this frame and all frames behind it,
    although they are whole and were acknowledged. *)
Theorem damaged_length_drops_records rs bs r rs' tl len :
  encode_log 1 rs = Ok bs → encode_log (zlen rs + 1) (r :: rs') = Ok tl →
  zlen tl - Z.of_nat FRAME_OVERHEAD < len ≤ MAX_RECORD_SIZE → zlen (bs ++ tl) ≤ u64_max →
  let damaged := header_encode WalHeader_new ++ bs ++ to_le_bytes 4 len ++ drop 4 tl in
  scan_wal (header_encode WalHeader_new ++ bs ++ tl) = Ok (scan_result (rs ++ r :: rs') (length (bs ++ tl)) false)
  ∧ scan_wal damaged = Ok (scan_result rs (length bs) true)
  ∧ repair_truncated_tail damaged (zlen bs) = (true, header_encode WalHeader_new ++ bs).
Proof.
  intros Hbs Htl Hlen Hsz damaged. pose proof (encode_log_small _ _ _ Hbs) as Hsm.
  assert (encode_log 1 (rs ++ r :: rs') = Ok (bs ++ tl)) as Hall.
  { apply encode_log_app. exists bs, tl. by rewrite (Z.add_comm 1). }
  assert (18 ≤ length tl)%nat as H18 by (apply encode_log_length in Htl; cbn in Htl; unfold FRAME_OVERHEAD in *; lia).
  assert (length (to_le_bytes 4 len ++ drop 4 tl) = length tl) as Hl.
  { rewrite length_app, length_to_le_bytes, length_drop. lia. }
  split_and!.
  - rewrite <-(app_nil_r (bs ++ tl)) at 1. apply scan_wal_frames; [|by rewrite app_nil_r|done].
    apply encode_log_frames; [done|]. apply encode_log_small in Hall; lia.
  - apply scan_wal_frames; [apply encode_log_frames; [done|rewrite length_app in Hsz; lia]| |].
    + by rewrite length_app, Hl, <-length_app.
    + split; [intros Hnil; rewrite Hnil in Hl; cbn in Hl; lia|right].
      rewrite slice_app_hd, from_to_le_bytes, Hl by (rewrite ?length_to_le_bytes; unfold MAX_RECORD_SIZE, FRAME_OVERHEAD in *; lia).
      unfold FRAME_OVERHEAD in *. lia.
  - assert (zlen damaged = zlen (header_encode WalHeader_new ++ bs) + zlen tl) as Hd.
    { unfold damaged. rewrite app_assoc, length_app, Hl. lia. }
    unfold repair_truncated_tail. rewrite <-length_header_encode, <-Nat2Z.inj_add, Nat2Z.id, <-length_app, Hd.
    destruct (Z.leb_spec (zlen (header_encode WalHeader_new ++ bs) + zlen tl) (zlen (header_encode WalHeader_new ++ bs))); [lia|].
    unfold damaged. by rewrite app_assoc, take_app_length.
Qed.
End damage.

(** ** Witnesses *)

Definition ex_ignored : list byte := [Byte.x01; Byte.x02].

(** The fifteenth byte of the third frame. *)
Lemma damaged_byte_detected_witness :
  ∃ e, scan_wal (header_encode WalHeader_new ++ ex_log
         ++ (take 14 ex_next_bytes ++ Byte.xff :: drop 15 ex_next_bytes) ++ ex_ignored) = Err e
       ∧ damage_error 14 e.
Proof.
  destruct (ex_next_bytes !! 14%nat) as [b|] eqn:Hb; [|vm_compute in Hb; discriminate Hb].
  refine (damaged_byte_detected ex_records ex_log (frame_record ex_next) ex_next_bytes
    (take 14 ex_next_bytes) b Byte.xff (drop 15 ex_next_bytes) ex_ignored _ _ _ _ _ _).
  - vm_compute. reflexivity.
  - vm_compute. reflexivity.
  - symmetry. apply take_drop_middle. exact Hb.
  - vm_compute. repeat constructor.
  - vm_compute in Hb. injection Hb as <-. discriminate.
  - vm_compute. discriminate.
Defined.

(** The second of two frames has its length changed to a thousand. *)
Definition ex_first : list byte :=
  match encode_log 1 (take 1 ex_records) with Ok bs => bs | Err _ => [] end.
Definition ex_second : list byte :=
  match encode_log 2 (drop 1 ex_records) with Ok bs => bs | Err _ => [] end.

Lemma damaged_length_drops_records_witness :
  scan_wal (header_encode WalHeader_new ++ ex_first ++ to_le_bytes 4 1000 ++ drop 4 ex_second)
  = Ok (scan_result (take 1 ex_records) (length ex_first) true).
Proof.
  refine (proj1 (proj2 (damaged_length_drops_records (take 1 ex_records) ex_first
    (JobLeased (from_uuid 7) (LeaseId_new 4) 1 (from_millis 6)) [] ex_second 1000 _ _ _ _))).
  - vm_compute. reflexivity.
  - vm_compute. reflexivity.
  - vm_compute. split; [reflexivity|discriminate].
  - vm_compute. discriminate.
Defined.
