(* ===== verification/WalTests.v ===== *)
(** * The unit tests of the log ([wal/codec.rs], [wal/scanner.rs], [wal/writer.rs])

    The [#[cfg(test)]] modules of the log, as programs over the model: a test is
    [true] when it returns, and [false] when an [unwrap] or an assertion panics.
    They pass for all job identifiers and clocks and for every wire format, as far
    as the records of the tests can be encoded. *)

From S2P Require Import Prelude Types Codec ConcreteWire Scanner Writer WriterTask Damage.

Notation "'unwrap' x ':=' m 'in' k" := (match m with Ok x => k | Err _ => false end)
  (at level 10, x pattern, m at level 100, k at level 200, only parsing).

Abbreviation bytes_of s := (String.list_byte_of_string s) (only parsing).

(** [QueueName::new(name).unwrap()], which does not panic for the names of the
    tests. *)
Definition test_queue (name : string) : QueueName := default (mkQueueName name) (QueueName_new name).

Example test_queues : QueueName_new <$> ["test"; "q"] = [Some (test_queue "test"); Some (test_queue "q")].
Proof. reflexivity. Qed.

Section tests.
Context `{W : Wire}.

(** The record that the tests use: [JobSubmitted] with a new identifier and the
    time. *)
Definition test_record (queue : string) (data : list byte) (id : JobId) (now : UnixMillis) : WalRecord :=
  JobSubmitted id (test_queue queue) (JobSpec_new data) now.

(** ** [codec::tests] *)

Definition test_header_roundtrip : bool :=
  let header := WalHeader_new in
  let encoded := header_encode header in
  unwrap decoded := header_decode encoded in
  bool_decide (magic header = magic decoded) && (version header =? version decoded).

Definition test_bad_magic_rejected : bool :=
  let buf := <[0%nat := Byte.x58]> (header_encode WalHeader_new) in
  match header_decode buf with Err InvalidWalHeader => true | _ => false end.

Definition test_unsupported_version_rejected : bool :=
  let buf := <[9%nat := Byte.x00]> (<[8%nat := Byte.x63]> (header_encode WalHeader_new)) in
  match header_decode buf with Err (UnsupportedWalVersion v) => v =? 99 | _ => false end.

Definition test_frame_roundtrip (id : JobId) (now : UnixMillis) : bool :=
  let record := test_record "test" (bytes_of "payload") id now in
  let frame := mkWalFrame 1 record in
  unwrap encoded := frame_encode frame in
  unwrap (decoded, consumed) := frame_decode encoded in
  (consumed =? length encoded)%nat && (sequence decoded =? 1) && bool_decide (frame_record decoded = record).

(** [buf[i] ^= 0xFF] *)
Definition flip_byte (i : nat) (buf : list byte) : list byte :=
  alter (λ b, byte_of_Z (Z.lxor (byte_to_Z b) 255)) i buf.

Definition test_crc_validation (id : JobId) (now : UnixMillis) : bool :=
  let frame := mkWalFrame 1 (test_record "test" (bytes_of "payload") id now) in
  unwrap encoded := frame_encode frame in
  let encoded := flip_byte 15 encoded in
  match frame_decode encoded with Err (ChecksumMismatch _ _) => true | _ => false end.

Definition test_truncated_frame_rejected (id : JobId) (now : UnixMillis) : bool :=
  let frame := mkWalFrame 1 (test_record "test" (bytes_of "payload") id now) in
  unwrap encoded := frame_encode frame in
  let truncated := take (length encoded - 5) encoded in
  match frame_decode truncated with Err TruncatedFrame => true | _ => false end.

Definition test_oversized_frame_rejected : bool :=
  let buf := replicate (FRAME_OVERHEAD + 100) Byte.x00 in
  let huge_len := MAX_RECORD_SIZE + 1 in
  let buf := to_le_bytes 4 huge_len ++ drop 4 buf in
  match frame_decode buf with Err (RecordTooLarge _) => true | _ => false end.

Definition test_records (job_id : JobId) (ts : UnixMillis) : list WalRecord :=
  let lease_id := LeaseId_new 42 in
  [test_record "q" (bytes_of "test") job_id ts; JobLeased job_id lease_id 1 ts; JobRetryScheduled job_id lease_id 1 ts;
   JobCompleted job_id lease_id ts; JobDead job_id lease_id ts; JobCancelled job_id ts].

Definition test_all_record_types_roundtrip (job_id : JobId) (ts : UnixMillis) : bool :=
  forallb (λ '(seq, record),
    unwrap encoded := frame_encode (mkWalFrame (Z.of_nat seq + 1) record) in
    unwrap (decoded, _) := frame_decode encoded in
    bool_decide (frame_record decoded = record)) (imap pair (test_records job_id ts)).

(** ** [scanner::tests] *)

(** [create_test_wal]: [None] when an [unwrap] panics. *)
Definition create_test_wal (records : list WalRecord) : option (list byte) :=
  foldl (λ file '(i, record),
    match file, frame_encode (mkWalFrame (Z.of_nat i + 1) record) with
    | Some file, Ok encoded => Some (file ++ encoded)
    | _, _ => None
    end) (Some (header_encode WalHeader_new)) (imap pair records).

Definition test_scan_empty_wal : bool :=
  let file := header_encode WalHeader_new in
  unwrap result := scan_wal file in
  bool_decide (scan_records result = []) && (last_sequence result =? 0) && negb (had_truncated_tail result).

Definition test_scan_single_record (id : JobId) (now : UnixMillis) : bool :=
  let record := test_record "q" (bytes_of "test") id now in
  match create_test_wal [record] with
  | None => false
  | Some file =>
      unwrap result := scan_wal file in
      bool_decide (scan_records result = [record]) && (last_sequence result =? 1)
      && negb (had_truncated_tail result)
  end.

Definition test_scan_records (job_id : JobId) (t1 t2 t3 : UnixMillis) : list WalRecord :=
  let lease_id := LeaseId_new 42 in
  [test_record "q" (bytes_of "test") job_id t1; JobLeased job_id lease_id 1 t2; JobCompleted job_id lease_id t3].

Definition test_scan_multiple_records (job_id : JobId) (t1 t2 t3 : UnixMillis) : bool :=
  match create_test_wal (test_scan_records job_id t1 t2 t3) with
  | None => false
  | Some file =>
      unwrap result := scan_wal file in
      (length (scan_records result) =? 3)%nat && (last_sequence result =? 3)
      && (scan_max_lease_epoch result =? 42) && negb (had_truncated_tail result)
  end.

Definition test_scan_detects_truncated_tail (id : JobId) (now : UnixMillis) : bool :=
  match create_test_wal [test_record "q" (bytes_of "test") id now] with
  | None => false
  | Some file =>
      let file := file ++ (byte_of_Z <$> [50; 0; 0; 0; 1; 1]) in
      unwrap result := scan_wal file in
      (length (scan_records result) =? 1)%nat && had_truncated_tail result
  end.

Definition test_scan_rejects_bad_checksum (id : JobId) (now : UnixMillis) : bool :=
  let frame := mkWalFrame 1 (test_record "q" (bytes_of "test") id now) in
  unwrap encoded := frame_encode frame in
  let encoded := flip_byte 15 encoded in
  match scan_wal (header_encode WalHeader_new ++ encoded) with
  | Err (ChecksumMismatch _ _) => true
  | _ => false
  end.

Definition test_scan_rejects_sequence_gap (id : JobId) (now : UnixMillis) : bool :=
  let record := test_record "q" (bytes_of "test") id now in
  unwrap frame1 := frame_encode (mkWalFrame 1 record) in
  unwrap frame3 := frame_encode (mkWalFrame 3 record) in
  match scan_wal (header_encode WalHeader_new ++ frame1 ++ frame3) with
  | Err (SequenceViolation expected got) => (expected =? 2) && (got =? 3)
  | _ => false
  end.

Definition test_repair_truncated_tail (id : JobId) (now : UnixMillis) : bool :=
  match create_test_wal [test_record "q" (bytes_of "test") id now] with
  | None => false
  | Some file =>
      let original_len := length file in
      let file := file ++ (byte_of_Z <$> [50; 0; 0; 0; 1; 1; 0; 0; 0; 0]) in
      unwrap result := scan_wal file in
      had_truncated_tail result &&
      let '(repaired, file) := repair_truncated_tail file (last_valid_offset result) in
      repaired && (length file =? original_len)%nat &&
      unwrap result := scan_wal file in
      negb (had_truncated_tail result) && (length (scan_records result) =? 1)%nat
  end.

(** ** [writer::tests]

    [None] when an [unwrap] panics; a [TempDir] is empty. *)

Definition TempDir : Dir := mkDir None false.

Definition open_unwrap (d : Dir) : option (Handle * Dir) :=
  match dir_open d with (Ok h, d) => Some (h, d) | _ => None end.

Definition append_unwrap (record : WalRecord) (d : Dir) (h : Handle) : option (Z * Dir * Handle) :=
  match handle_append io_ok record d h with Some (Ok seq, d, h) => Some (seq, d, h) | _ => None end.

(** The end of the scope of a writer. *)
Definition drop_writer (d : Dir) (h : Handle) : option Dir := fst <$> handle_drop (λ _, io_ok) d h.

Definition test_writer_creates_wal_file (id : JobId) (now : UnixMillis) : bool :=
  default false
    ('(writer, d) ← open_unwrap TempDir;
     '(seq, d, writer) ← append_unwrap (test_record "test" (bytes_of "payload") id now) d writer;
     (* the lock file exists, as it is locked *)
     Some ((seq =? 1) && bool_decide (is_Some (d_file d)) && d_locked d)).

(** [for i in first.. { .. assert_eq!(writer.append(record), i) }] *)
Fixpoint append_all (i : Z) (records : list WalRecord) (d : Dir) (h : Handle) : option (Dir * Handle) :=
  match records with
  | [] => Some (d, h)
  | record :: records =>
      '(seq, d, h) ← append_unwrap record d h;
      if seq =? i then append_all (i + 1) records d h else None
  end.

Definition test_sequence_increments (records : list WalRecord) : bool :=
  default false
    ('(writer, d) ← open_unwrap TempDir;
     '(d, writer) ← append_all 1 records d writer;
     Some true).

(** [exclusive_lock_prevents_second_writer] and
    [second_writer_fails_while_first_alive] *)
Definition test_second_writer_fails : bool :=
  default false
    ('(_, d) ← open_unwrap TempDir;
     Some (match dir_open d with (Err StoreLocked, _) => true | _ => false end)).

(** The flags of [TestableWalWriter]. *)
Definition arm (f : WalWriter → WalWriter) (h : Handle) : Handle :=
  mkHandle (h_tx h) (h_queue h) ((λ t, ww_thread (f (mkWalWriter (h_tx h) t))) <$> h_thread h)
    (h_opened h) (h_sent h) (h_done h) (h_replies h).

Definition test_fault_injection_append (id : JobId) (now : UnixMillis) : bool :=
  default false
    ('(writer, d) ← open_unwrap TempDir;
     '(result, _, _) ← handle_append io_ok (test_record "test" (bytes_of "payload") id now) d
                         (arm fail_next_append writer);
     Some (match result with Err (Io _) => true | _ => false end)).

Definition test_fault_injection_sync (id : JobId) (now : UnixMillis) : bool :=
  default false
    ('(writer, d) ← open_unwrap TempDir;
     '(result, _, _) ← handle_append io_ok (test_record "test" (bytes_of "payload") id now) d
                         (arm fail_next_sync writer);
     Some (match result with Err SyncFailed => true | _ => false end)).

(** The records before and the one after the writer is opened again. *)
Definition test_reopen_continues_sequence (before : list WalRecord) (record : WalRecord) : bool :=
  default false
    ('(writer, d) ← open_unwrap TempDir;
     '(d, writer) ← append_all 1 before d writer;
     d ← drop_writer d writer;
     '(writer, d) ← open_unwrap d;
     '(seq, _, _) ← append_unwrap record d writer;
     Some (seq =? zlen before + 1)).

(** [drop_releases_lock_immediately] and
    [second_writer_succeeds_after_first_dropped] *)
Definition test_drop_releases_lock : bool :=
  default false
    ('(writer, d) ← open_unwrap TempDir;
     d ← drop_writer d writer;
     '(_, _) ← open_unwrap d;
     Some true).

Definition test_drop_after_append_releases_lock (id : JobId) (now : UnixMillis) : bool :=
  default false
    ('(writer, d) ← open_unwrap TempDir;
     '(_, d, writer) ← append_unwrap (test_record "test" (bytes_of "data") id now) d writer;
     d ← drop_writer d writer;
     '(_, _) ← open_unwrap d;
     Some true).

(** [for _ in 0..n { WalWriter::open(dir) }] *)
Fixpoint open_drop_cycle (n : nat) (d : Dir) : option Dir :=
  match n with
  | O => Some d
  | S n => '(writer, d) ← open_unwrap d; d ← drop_writer d writer; open_drop_cycle n d
  end.

Definition test_repeated_open_drop_cycle : bool := bool_decide (is_Some (open_drop_cycle 10 TempDir)).

(** [for i in first.. { open; append; assert_eq!(seq, i) }] *)
Fixpoint open_append_drop_cycle (i : Z) (records : list WalRecord) (d : Dir) : option Dir :=
  match records with
  | [] => Some d
  | record :: records =>
      '(writer, d) ← open_unwrap d;
      '(seq, d, writer) ← append_unwrap record d writer;
      if seq =? i then d ← drop_writer d writer; open_append_drop_cycle (i + 1) records d else None
  end.

Definition test_repeated_open_append_drop_cycle (records : list WalRecord) : bool :=
  bool_decide (is_Some (open_append_drop_cycle 1 records TempDir)).
End tests.

(** ** The tests pass *)

Section pass.
Context `{W : Wire} `{!WireLaws W} `{!DetectsByte W}.

(** The record can be encoded. *)
Definition record_fits (r : WalRecord) : Prop :=
  ∃ p, to_allocvec r = Ok p ∧ zlen p ≤ MAX_RECORD_SIZE.

Definition FRAME_MAX : Z := MAX_RECORD_SIZE + Z.of_nat FRAME_OVERHEAD.

Lemma fits_encode r s :
  record_fits r → ∃ bs, frame_encode (mkWalFrame s r) = Ok bs ∧ zlen bs ≤ FRAME_MAX.
Proof.
  intros (p & Hp & Hle). eexists. split; [apply frame_encode_ok; by exists p|].
  rewrite length_app, length_frame_body, length_to_le_bytes. unfold FRAME_MAX, FRAME_OVERHEAD. lia.
Qed.

Lemma fits_encode_log rs s :
  Forall record_fits rs → ∃ bs, encode_log s rs = Ok bs ∧ zlen bs ≤ zlen rs * FRAME_MAX.
Proof.
  intros Hrs. revert s; induction Hrs as [|r rs Hr _ IH]; intros s; [by exists []|].
  destruct (fits_encode r s Hr) as (b & Hb & Hl). destruct (IH (s + 1)) as (bs & Hbs & Hls).
  exists (b ++ bs). cbn [encode_log]. rewrite Hb. cbn. rewrite Hbs. split; [done|].
  rewrite length_app. cbn [length]. lia.
Qed.

(** Decoding what was encoded. *)
Lemma decode_encoded s r bs :
  u64_range s → frame_encode (mkWalFrame s r) = Ok bs → frame_decode bs = Ok (mkWalFrame s r, length bs).
Proof. intros Hs Hb. rewrite <-(app_nil_r bs) at 1. by apply frame_decode_encode. Qed.

Lemma flip_byte_split i l :
  (i < length l)%nat →
  ∃ b b', l = take i l ++ b :: drop (S i) l ∧ flip_byte i l = take i l ++ b' :: drop (S i) l ∧ b ≠ b'.
Proof.
  intros Hi. destruct (lookup_lt_is_Some_2 l i Hi) as [b Hb].
  exists b, (byte_of_Z (Z.lxor (byte_to_Z b) 255)). split; [by rewrite take_drop_middle|]. split.
  - unfold flip_byte. rewrite <-(take_drop_middle l i b Hb) at 1.
    rewrite <-(Nat.add_0_r i) at 1. rewrite <-(length_take_le l i) at 1 by lia. by rewrite alter_app_r.
  - clear. destruct b; vm_compute; discriminate.
Qed.

Lemma codec_tests_pass id now :
  Forall record_fits (test_record "test" (bytes_of "payload") id now :: test_records id now) →
  test_header_roundtrip && test_bad_magic_rejected && test_unsupported_version_rejected
  && test_frame_roundtrip id now && test_crc_validation id now && test_truncated_frame_rejected id now
  && test_oversized_frame_rejected && test_all_record_types_roundtrip id now = true.
Proof.
  intros [Hr Hrs]%Forall_cons. destruct (fits_encode _ 1 Hr) as (bs & Hbs & _).
  pose proof (frame_encode_length _ _ Hbs) as Hlen. unfold FRAME_OVERHEAD in Hlen. rewrite !andb_true_iff. split_and!.
  - unfold test_header_roundtrip. cbv zeta. rewrite header_decode_encode. by rewrite bool_decide_true.
  - vm_compute. reflexivity.
  - vm_compute. reflexivity.
  - unfold test_frame_roundtrip. cbv zeta. rewrite Hbs, (decode_encoded 1 _ _ ltac:(done) Hbs), Nat.eqb_refl.
    cbn [sequence frame_record]. by rewrite bool_decide_true.
  - unfold test_crc_validation. cbv zeta. rewrite Hbs. destruct (flip_byte_split 15 bs ltac:(lia)) as (b & b' & Hs & -> & Hne).
    destruct (frame_decode_damaged _ _ _ _ b' _ [] Hbs Hs) as (e & He & Hde); [rewrite length_take; lia|done|].
    rewrite app_nil_r in He. rewrite He. unfold damage_error in Hde.
    rewrite decide_False in Hde by (rewrite length_take; lia). by destruct Hde as (? & ? & ->).
  - unfold test_truncated_frame_rejected. cbv zeta. rewrite Hbs, torn_decode; [done|]. eapply torn_take; [done|lia].
  - vm_compute. reflexivity.
  - unfold test_all_record_types_roundtrip. cbv zeta. apply forallb_forall. intros [seq r] Hin.
    apply list_elem_of_In, elem_of_lookup_imap in Hin as (i & r' & [= -> ->] & Hi).
    destruct (fits_encode r' (Z.of_nat i + 1)) as (b & Hb & _); [by eapply Forall_lookup_1|].
    rewrite Hb, (decode_encoded (Z.of_nat i + 1) _ _) by (done || (apply lookup_lt_Some in Hi; cbn in Hi; unfold u64_range; lia)).
    cbn. by rewrite bool_decide_true.
Qed.

(** [create_test_wal] writes the log of its records. *)
Lemma create_test_wal_log rs bs :
  encode_log 1 rs = Ok bs → create_test_wal rs = Some (header_encode WalHeader_new ++ bs).
Proof.
  revert bs; induction rs as [|r rs IH] using rev_ind; intros bs Hbs.
  { injection Hbs as <-. by rewrite app_nil_r. }
  apply encode_log_app in Hbs as (b & b' & Hb & Hb' & ->). cbn [encode_log] in Hb'.
  apply rbind_ok in Hb' as (f & Hf & Hb'). cbn in Hb'. injection Hb' as <-.
  specialize (IH _ Hb). unfold create_test_wal in *. rewrite imap_app, foldl_app, IH. cbn [imap foldl].
  replace (Z.of_nat (length rs + 0) + 1) with (1 + zlen rs) by lia. by rewrite Hf, app_nil_r, <-app_assoc.
Qed.

(** Scanning it, with nothing or a torn tail behind. *)
Lemma scan_test_wal rs bs (tail : list byte) (t : bool) :
  Forall record_fits rs → encode_log 1 rs = Ok bs → zlen rs < 2 ^ 32 → (length tail ≤ 64)%nat →
  (if t then torn tail else tail = []) →
  scan_wal (header_encode WalHeader_new ++ bs ++ tail) = Ok (scan_result rs (length bs) t).
Proof.
  intros Hf Hbs Hrs Htl Ht. destruct (fits_encode_log rs 1 Hf) as (bs' & Hbs' & Hl). rewrite Hbs in Hbs'. injection Hbs' as <-.
  apply scan_wal_frames; [|rewrite length_app|done].
  - apply encode_log_frames; [done|]. unfold u64_max. lia.
  - unfold FRAME_MAX, MAX_RECORD_SIZE, FRAME_OVERHEAD, u64_max in *. lia.
Qed.

Lemma scanner_tests_pass id t1 t2 t3 :
  Forall record_fits (test_scan_records id t1 t2 t3) →
  test_scan_empty_wal && test_scan_single_record id t1 && test_scan_multiple_records id t1 t2 t3
  && test_scan_detects_truncated_tail id t1 && test_scan_rejects_bad_checksum id t1
  && test_scan_rejects_sequence_gap id t1 && test_repair_truncated_tail id t1 = true.
Proof.
  intros Hall. pose proof Hall as [Hr _]%Forall_cons.
  destruct (fits_encode _ 1 Hr) as (b1 & Hb1 & Hl1). destruct (fits_encode _ 3 Hr) as (b3 & Hb3 & Hl3).
  set (r := test_record "q" (bytes_of "test") id t1) in *.
  assert (encode_log 1 [r] = Ok b1) as Hlog by (cbn [encode_log]; rewrite Hb1; cbn; by rewrite app_nil_r).
  assert (Forall record_fits [r]) as Hfr by (by repeat constructor).
  pose proof (frame_encode_length _ _ Hb1) as Hge. unfold FRAME_OVERHEAD in Hge.
  assert (torn (byte_of_Z <$> [50; 0; 0; 0; 1; 1])) as Ht6 by (split; [done|right; vm_compute; split; [discriminate|lia]]).
  assert (torn (byte_of_Z <$> [50; 0; 0; 0; 1; 1; 0; 0; 0; 0])) as Ht10
    by (split; [done|right; vm_compute; split; [discriminate|lia]]).
  rewrite !andb_true_iff. split_and!.
  - unfold test_scan_empty_wal. vm_compute. reflexivity.
  - unfold test_scan_single_record. cbv zeta. fold r. rewrite (create_test_wal_log _ _ Hlog), <-(app_nil_r b1).
    rewrite (scan_test_wal [r] b1 [] false) by (done || (cbn; lia)). cbn. by rewrite bool_decide_true.
  - unfold test_scan_multiple_records. destruct (fits_encode_log _ 1 Hall) as (bs & Hbs & _).
    rewrite (create_test_wal_log _ _ Hbs), <-(app_nil_r bs).
    by rewrite (scan_test_wal (test_scan_records id t1 t2 t3) bs [] false) by (done || (cbn; lia)).
  - unfold test_scan_detects_truncated_tail. fold r. rewrite (create_test_wal_log _ _ Hlog), <-app_assoc.
    by rewrite (scan_test_wal [r] b1 _ true) by (done || (cbn; lia)).
  - unfold test_scan_rejects_bad_checksum. cbv zeta. fold r. rewrite Hb1.
    destruct (flip_byte_split 15 b1 ltac:(lia)) as (b & b' & Hs & -> & Hne).
    destruct (damaged_byte_detected [] [] r b1 _ b b' _ [] eq_refl Hb1 Hs) as (e & He & Hde);
      [rewrite length_take; lia|done|rewrite app_nil_r; unfold FRAME_MAX, MAX_RECORD_SIZE, FRAME_OVERHEAD, u64_max in *; cbn [app]; lia|].
    rewrite app_nil_r in He. cbn [app] in He. rewrite He. unfold damage_error in Hde.
    rewrite decide_False in Hde by (rewrite length_take; lia). by destruct Hde as (? & ? & ->).
  - unfold test_scan_rejects_sequence_gap. cbv zeta. fold r. rewrite Hb1, Hb3.
    pose proof (scan_wal_wrong_seq b1 [r] 3 r b3 [] (encode_log_frames _ _ Hlog ltac:(done)) Hb3) as Hw.
    rewrite app_nil_r in Hw. rewrite Hw; [done|done|done|].
    rewrite length_app. unfold FRAME_MAX, MAX_RECORD_SIZE, FRAME_OVERHEAD, u64_max in *. lia.
  - unfold test_repair_truncated_tail. fold r. rewrite (create_test_wal_log _ _ Hlog). cbv zeta.
    rewrite <-app_assoc, (scan_test_wal [r] b1 (byte_of_Z <$> [50; 0; 0; 0; 1; 1; 0; 0; 0; 0]) true Hfr Hlog ltac:(done) ltac:(cbn; lia) Ht10).
    cbn [had_truncated_tail scan_result last_valid_offset andb]. unfold repair_truncated_tail.
    rewrite !length_app, length_fmap, length_header_encode. cbn [length].
    destruct (Z.leb_spec (Z.of_nat (HEADER_SIZE + (length b1 + 10))) (Z.of_nat HEADER_SIZE + Z.of_nat (length b1))); [lia|].
    cbv beta zeta iota. rewrite <-Nat2Z.inj_add, Nat2Z.id, <-length_header_encode, <-length_app, app_assoc, take_app_length.
    rewrite Nat.eqb_refl. cbn [andb]. rewrite <-(app_nil_r b1).
    by rewrite (scan_test_wal [r] b1 [] false Hfr Hlog ltac:(done) ltac:(cbn; lia) eq_refl).
Qed.

(** *** Writers *)

(** The thread holds the log of the records [rs]. *)
Definition holds_log (t : WriterThread) (rs : list WalRecord) : Prop :=
  wal_ok t rs ∧ wt_fail_next_append t = false ∧ wt_fail_next_sync t = false
  ∧ zlen (wt_file t) ≤ Z.of_nat HEADER_SIZE + zlen rs * FRAME_MAX.

Definition writer_at (d : Dir) (h : Handle) (rs : list WalRecord) : Prop :=
  ∃ t, holds_log t rs ∧ d = mkDir (Some (wt_file t)) true ∧ h_thread h = Some t ∧ h_tx h = true ∧ h_queue h = [].

Definition closed_at (d : Dir) (rs : list WalRecord) : Prop :=
  ∃ t, holds_log t rs ∧ d = mkDir (Some (wt_file t)) false.

Lemma open_temp_dir : ∃ h d, open_unwrap TempDir = Some (h, d) ∧ writer_at d h [].
Proof.
  eexists _, _. split; [reflexivity|]. exists (WriterThread_new (header_encode WalHeader_new) 1).
  split; [|done]. split_and!; [apply wal_ok_new|done|done|vm_compute; discriminate].
Qed.

Lemma holds_log_append t rs r :
  holds_log t rs → record_fits r → zlen rs < 2 ^ 32 →
  ∃ t', process_write io_ok t r = (Ok (zlen rs + 1), t') ∧ holds_log t' (rs ++ [r]).
Proof.
  intros (Hok & Hfa & Hfs & Hsz) Hr Hlen. destruct (fits_encode r (wt_next_seq t) Hr) as (b & Hb & Hl).
  pose proof (process_write_clean io_ok t rs r Hok Hfs eq_refl ltac:(unfold u64_max; lia)) as Hp.
  unfold process_write in *. rewrite Hfa, Hb, Hfs in *. cbn in *. destruct Hp as (_ & Hs & Hok').
  eexists. rewrite Hs. split; [done|]. split_and!; [by rewrite Hs in Hok'|done|done|].
  cbn. rewrite !length_app. cbn [length]. lia.
Qed.

Lemma append_at d h rs r :
  writer_at d h rs → record_fits r → zlen rs < 2 ^ 32 →
  ∃ d' h', append_unwrap r d h = Some (zlen rs + 1, d', h') ∧ writer_at d' h' (rs ++ [r]).
Proof.
  intros (t & Ht & -> & Hth & Htx & Hq) Hr Hlen. destruct (holds_log_append t rs r Ht Hr Hlen) as (t' & Hp & Ht').
  unfold append_unwrap, handle_append, handle_send. rewrite Htx, Hth, Hq. cbn [negb length].
  change (0 <? WRITER_CHANNEL_SIZE)%nat with true. cbv iota beta.
  unfold thread_turn. cbn [h_thread h_queue app rq_record d_file].
  change (default [] (Some (wt_file t))) with (wt_file t). rewrite on_file_id, Hp.
  cbn [h_replies]. rewrite last_snoc. eexists _, _. split; [reflexivity|]. by exists t'.
Qed.

Lemma append_all_at rs' d h rs :
  writer_at d h rs → Forall record_fits rs' → zlen rs + zlen rs' < 2 ^ 32 →
  ∃ d' h', append_all (zlen rs + 1) rs' d h = Some (d', h') ∧ writer_at d' h' (rs ++ rs').
Proof.
  intros Hw Hf. revert d h rs Hw; induction Hf as [|r rs' Hr _ IH]; intros d h rs Hw Hlen; cbn [length] in Hlen.
  { exists d, h. by rewrite app_nil_r. }
  destruct (append_at _ _ _ _ Hw Hr ltac:(lia)) as (d1 & h1 & Ha & Hw1).
  destruct (IH _ _ _ Hw1) as (d' & h' & Hrest & Hw'); [rewrite length_app; cbn; lia|].
  exists d', h'. cbn [append_all]. rewrite Ha. cbn. rewrite Z.eqb_refl. rewrite <-app_assoc in Hw'. split; [|done].
  rewrite <-Hrest, length_app. cbn [length]. f_equal. lia.
Qed.

Lemma drop_at d h rs : writer_at d h rs → ∃ d', drop_writer d h = Some d' ∧ closed_at d' rs.
Proof.
  intros (t & Ht & -> & Hth & Htx & Hq). exists (mkDir (Some (wt_file t)) false). split; [|by exists t].
  unfold drop_writer, handle_drop, handle_close. rewrite Hq, Hth. done.
Qed.

Lemma reopen_at d rs :
  closed_at d rs → zlen rs < 2 ^ 32 → ∃ h d', open_unwrap d = Some (h, d') ∧ writer_at d' h rs.
Proof.
  intros (t & ((Hseq & content & Hp & Hf) & Hfa & Hfs & Hsz) & ->) Hlen.
  assert (open_wal_file (Some (wt_file t)) = Ok (wt_file t, zlen rs + 1)) as Ho.
  { rewrite Hf in *. rewrite length_app, length_header_encode in Hsz. unfold open_wal_file.
    rewrite length_app, length_header_encode. replace ((HEADER_SIZE + length content) `min` HEADER_SIZE)%nat with HEADER_SIZE by lia.
    cbn [Nat.eqb Nat.ltb HEADER_SIZE]. rewrite take_app_exact, drop_app_exact, header_decode_encode by done. cbn [rbind].
    rewrite (scan_for_next_sequence_prefix content rs (length content) false); [done| |done|done].
    unfold FRAME_MAX, MAX_RECORD_SIZE, FRAME_OVERHEAD, u64_max in *. lia. }
  unfold open_unwrap, dir_open. cbn [d_locked d_file]. rewrite Ho. eexists _, _. split; [reflexivity|].
  exists (WriterThread_new (wt_file t) (zlen rs + 1)). split; [|done]. split_and!; [|done|done|done].
  split; [done|by exists content].
Qed.

(** A writer whose thread was armed fails once. *)
Lemma armed_append f h d t r :
  h_thread h = Some t → h_tx h = true → h_queue h = [] → d = mkDir (Some (wt_file t)) true →
  let t' := ww_thread (f (mkWalWriter true t)) in wt_file t' = wt_file t →
  ∃ d' h', handle_append io_ok r d (arm f h) = Some ((process_write io_ok t' r).1, d', h').
Proof.
  intros Hth Htx Hq -> t' Hf. unfold handle_append, handle_send, arm. cbn [h_tx h_thread h_queue]. rewrite Htx, Hth, Hq.
  cbn [negb length fmap option_fmap option_map]. change (0 <? WRITER_CHANNEL_SIZE)%nat with true. cbv iota beta.
  unfold thread_turn. cbn [h_thread h_queue app rq_record d_file]. change (default [] (Some (wt_file t))) with (wt_file t).
  fold t'. rewrite <-Hf, on_file_id. destruct (process_write io_ok t' r) as [res t2]. cbn [h_replies fst].
  rewrite last_snoc. by eexists _, _.
Qed.

Lemma cycle_at n d : closed_at d [] → is_Some (open_drop_cycle n d).
Proof.
  revert d; induction n as [|n IH]; intros d Hd; [by eexists|]. cbn [open_drop_cycle].
  destruct (reopen_at _ _ Hd ltac:(done)) as (h & d1 & -> & Hw). cbn [mbind option_bind].
  destruct (drop_at _ _ _ Hw) as (d2 & -> & Hd2). by apply IH.
Qed.

Lemma append_cycle_at rs' d rs :
  closed_at d rs → Forall record_fits rs' → zlen rs + zlen rs' < 2 ^ 32 →
  is_Some (open_append_drop_cycle (zlen rs + 1) rs' d).
Proof.
  intros Hd Hf. revert d rs Hd; induction Hf as [|r rs' Hr _ IH]; intros d rs Hd Hlen; cbn [length] in Hlen; [by eexists|].
  cbn [open_append_drop_cycle]. destruct (reopen_at _ _ Hd ltac:(lia)) as (h & d1 & -> & Hw). cbn [mbind option_bind].
  destruct (append_at _ _ _ _ Hw Hr ltac:(lia)) as (d2 & h2 & -> & Hw2). cbn [mbind option_bind]. rewrite Z.eqb_refl.
  destruct (drop_at _ _ _ Hw2) as (d3 & -> & Hd3). cbn [mbind option_bind].
  replace (zlen rs + 1 + 1) with (zlen (rs ++ [r]) + 1) by (rewrite length_app; cbn; lia).
  apply IH; [done|]. rewrite length_app. cbn. lia.
Qed.

Lemma writer_tests_pass id now rs r :
  Forall record_fits (test_record "test" (bytes_of "payload") id now :: test_record "test" (bytes_of "data") id now :: r :: rs) →
  zlen rs < 2 ^ 31 →
  test_writer_creates_wal_file id now && test_sequence_increments rs && test_second_writer_fails
  && test_fault_injection_append id now && test_fault_injection_sync id now
  && test_reopen_continues_sequence rs r && test_drop_releases_lock && test_drop_after_append_releases_lock id now
  && test_repeated_open_drop_cycle && test_repeated_open_append_drop_cycle rs = true.
Proof.
  rewrite !Forall_cons. intros (Hp & Hd & Hr & Hrs) Hlen. destruct open_temp_dir as (h & d & Ho & Hw).
  pose proof Hw as (t & (Hok & Hfa & Hfs & Hsz) & Hdir & Hth & Htx & Hq).
  destruct (append_all_at rs _ _ _ Hw Hrs) as (d1 & h1 & Hall & Hw1); [cbn; lia|].
  rewrite !andb_true_iff. split_and!.
  - unfold test_writer_creates_wal_file. rewrite Ho. cbn [mbind option_bind].
    destruct (append_at _ _ _ _ Hw Hp ltac:(done)) as (d' & h' & -> & (t' & _ & -> & _)). done.
  - unfold test_sequence_increments. rewrite Ho. cbn [mbind option_bind]. by rewrite (Hall : append_all 1 rs d h = _).
  - unfold test_second_writer_fails. rewrite Ho. cbn [mbind option_bind]. unfold dir_open. by rewrite Hdir.
  - unfold test_fault_injection_append. rewrite Ho. cbn [mbind option_bind].
    destruct (armed_append fail_next_append h d t (test_record "test" (bytes_of "payload") id now)) as (d' & h' & ->); done.
  - unfold test_fault_injection_sync. rewrite Ho. cbn [mbind option_bind].
    destruct (armed_append fail_next_sync h d t (test_record "test" (bytes_of "payload") id now)) as (d' & h' & ->); [done..|].
    destruct (fits_encode _ (wt_next_seq t) Hp) as (b & Hb & _). unfold process_write.
    cbn [mbind option_bind fail_next_sync ww_thread wt_fail_next_append wt_next_seq]. by rewrite Hfa, Hb.
  - unfold test_reopen_continues_sequence. rewrite Ho. cbn [mbind option_bind]. rewrite (Hall : append_all 1 rs d h = _). cbn [mbind option_bind].
    destruct (drop_at _ _ _ Hw1) as (d2 & -> & Hd2). cbn [mbind option_bind].
    destruct (reopen_at _ _ Hd2 ltac:(cbn; lia)) as (h3 & d3 & -> & Hw3). cbn [mbind option_bind].
    destruct (append_at _ _ _ _ Hw3 Hr ltac:(cbn; lia)) as (d4 & h4 & -> & _). cbn. by rewrite Z.eqb_refl.
  - unfold test_drop_releases_lock. rewrite Ho. cbn [mbind option_bind]. destruct (drop_at _ _ _ Hw) as (d2 & -> & Hd2). cbn [mbind option_bind].
    by destruct (reopen_at _ _ Hd2 ltac:(done)) as (h3 & d3 & -> & _).
  - unfold test_drop_after_append_releases_lock. rewrite Ho. cbn [mbind option_bind].
    destruct (append_at _ _ _ _ Hw Hd ltac:(done)) as (d' & h' & -> & Hw'). cbn [mbind option_bind].
    destruct (drop_at _ _ _ Hw') as (d2 & -> & Hd2). cbn [mbind option_bind]. by destruct (reopen_at _ _ Hd2 ltac:(done)) as (h3 & d3 & -> & _).
  - apply bool_decide_eq_true. cbn [open_drop_cycle]. rewrite Ho. cbn [mbind option_bind].
    destruct (drop_at _ _ _ Hw) as (d2 & -> & Hd2). by apply (cycle_at 9).
  - apply bool_decide_eq_true. destruct Hrs as [|r0 rs0 Hr0 Hrs0]; [by eexists|]. cbn [open_append_drop_cycle]. rewrite Ho. cbn [mbind option_bind].
    destruct (append_at _ _ _ _ Hw Hr0 ltac:(done)) as (d' & h' & -> & Hw'). cbn [mbind option_bind].
    destruct (drop_at _ _ _ Hw') as (d2 & -> & Hd2). apply (append_cycle_at rs0 d2 [r0]); [done|done|cbn in *; lia].
Qed.

(** C38: the unit tests of the log pass: for every identifier and every reading of
    the clock, for any records in place of those that are written in loops, and
    for every wire format and checksum that the records of the tests fit into, the
    tests of the codec, of the scanner and of the writer return without a panic. *)
Theorem wal_unit_tests_pass id t1 t2 t3 rs r :
  Forall record_fits (test_record "test" (bytes_of "payload") id t1 :: test_record "test" (bytes_of "data") id t1 :: r :: rs) →
  Forall record_fits (test_records id t1) → Forall record_fits (test_scan_records id t1 t2 t3) → zlen rs < 2 ^ 31 →
  (test_header_roundtrip && test_bad_magic_rejected && test_unsupported_version_rejected
   && test_frame_roundtrip id t1 && test_crc_validation id t1 && test_truncated_frame_rejected id t1
   && test_oversized_frame_rejected && test_all_record_types_roundtrip id t1 = true)
  ∧ (test_scan_empty_wal && test_scan_single_record id t1 && test_scan_multiple_records id t1 t2 t3
     && test_scan_detects_truncated_tail id t1 && test_scan_rejects_bad_checksum id t1
     && test_scan_rejects_sequence_gap id t1 && test_repair_truncated_tail id t1 = true)
  ∧ (test_writer_creates_wal_file id t1 && test_sequence_increments rs && test_second_writer_fails
     && test_fault_injection_append id t1 && test_fault_injection_sync id t1
     && test_reopen_continues_sequence rs r && test_drop_releases_lock && test_drop_after_append_releases_lock id t1
     && test_repeated_open_drop_cycle && test_repeated_open_append_drop_cycle rs = true).
Proof.
  intros Hw Hc Hs Hlen. split_and!.
  - apply codec_tests_pass. constructor; [by apply Forall_cons in Hw as [? _]|done].
  - by apply scanner_tests_pass.
  - by apply writer_tests_pass.
Qed.
End pass.

(** ** Witness *)

Lemma wal_unit_tests_pass_witness :
  let id := from_uuid 1 in
  let now := from_millis 2 in
  test_writer_creates_wal_file id now && test_sequence_increments ex_records && test_second_writer_fails
  && test_fault_injection_append id now && test_fault_injection_sync id now
  && test_reopen_continues_sequence ex_records ex_r1 && test_drop_releases_lock
  && test_drop_after_append_releases_lock id now
  && test_repeated_open_drop_cycle && test_repeated_open_append_drop_cycle ex_records = true.
Proof.
  refine (proj2 (proj2 (wal_unit_tests_pass (from_uuid 1) (from_millis 2) (from_millis 3) (from_millis 4)
    ex_records ex_r1 _ _ _ _))).
  - repeat constructor; (eexists; split; [reflexivity|vm_compute; discriminate]).
  - repeat constructor; (eexists; split; [reflexivity|vm_compute; discriminate]).
  - repeat constructor; (eexists; split; [reflexivity|vm_compute; discriminate]).
  - vm_compute. reflexivity.
Defined.
