(* ===== verification/TestStorage.v ===== *)
(** * The storage of the fault-injection tests ([store.rs], [wal/writer.rs])

    [TestableStorage] is the storage backend with two switches that make the next
    append or the next sync fail.  The switches are shared with the writer thread,
    so they are part of its state. *)

From S2P Require Import Prelude Types Config Codec ConcreteWire Scanner Writer.

(** [TestableWalWriter::open]: the thread gets the switches of the handle. *)
Definition TestableWalWriter_open `{W : Wire} (locked : bool) (file : option (list byte)) : WalResult WalWriter :=
  if locked then Err StoreLocked
  else
    try '(file, next_seq) := open_wal_file file in
    let thread := WriterThread_new file next_seq in
    Ok (mkWalWriter true (mkWriterThread (wt_file thread) (wt_next_seq thread) false false)).

Inductive TestableStorage :=
| Testable_Memory
| Testable_Wal (writer : WalWriter).

Definition testable_open `{W : Wire} (config : StorageConfig) (locked : bool) (file : option (list byte))
    : WalResult TestableStorage :=
  match config with
  | MemoryStorage => Ok Testable_Memory
  | WalStorage _ => try w := TestableWalWriter_open locked file in Ok (Testable_Wal w)
  end.

Definition testable_is_durable (s : TestableStorage) : bool :=
  match s with Testable_Wal _ => true | Testable_Memory => false end.

Definition testable_persist `{W : Wire} (io : WriteIo) (s : TestableStorage) (record : WalRecord)
    : WalResult (option Z) * TestableStorage :=
  match s with
  | Testable_Memory => (Ok None, s)
  | Testable_Wal writer =>
      let '(reply, writer) := writer_append io writer record in
      (try seq := reply in Ok (Some seq), Testable_Wal writer)
  end.

Definition testable_fail_next_append (s : TestableStorage) : TestableStorage :=
  match s with Testable_Wal writer => Testable_Wal (fail_next_append writer) | _ => s end.

Definition testable_fail_next_sync (s : TestableStorage) : TestableStorage :=
  match s with Testable_Wal writer => Testable_Wal (fail_next_sync writer) | _ => s end.

(** ** The backend of the tests is the real one *)

Definition plain (s : TestableStorage) : Storage :=
  match s with Testable_Memory => Storage_Memory | Testable_Wal w => Storage_Wal w end.

(** What a test does with the storage. *)
Inductive TestOp :=
| Op_persist (io : WriteIo) (record : WalRecord)
| Op_fail_append
| Op_fail_sync.

Fixpoint run_test `{W : Wire} (ops : list TestOp) (s : TestableStorage)
    : list (WalResult (option Z)) * TestableStorage :=
  match ops with
  | [] => ([], s)
  | Op_persist io record :: ops =>
      let '(reply, s) := testable_persist io s record in
      let '(replies, s) := run_test ops s in
      (reply :: replies, s)
  | Op_fail_append :: ops => run_test ops (testable_fail_next_append s)
  | Op_fail_sync :: ops => run_test ops (testable_fail_next_sync s)
  end.

(** The appends of a test on the real backend. *)
Fixpoint run_plain `{W : Wire} (ops : list TestOp) (s : Storage) : list (WalResult (option Z)) * Storage :=
  match ops with
  | [] => ([], s)
  | Op_persist io record :: ops =>
      let '(reply, s) := persist io s record in
      let '(replies, s) := run_plain ops s in
      (reply :: replies, s)
  | _ :: ops => run_plain ops s
  end.

Definition is_persist (op : TestOp) : bool := match op with Op_persist _ _ => true | _ => false end.

(** No switch is set. *)
Definition disarmed (s : TestableStorage) : Prop :=
  match s with
  | Testable_Memory => True
  | Testable_Wal w => wt_fail_next_append (ww_thread w) = false ∧ wt_fail_next_sync (ww_thread w) = false
  end.

Lemma testable_open_plain `{W : Wire} config locked file :
  match testable_open config locked file with
  | Ok s => storage_open config locked file = Ok (plain s) ∧ disarmed s
  | Err e => storage_open config locked file = Err e
  end.
Proof.
  unfold testable_open, storage_open, TestableWalWriter_open, WalWriter_open.
  destruct config; [done|]. destruct locked; [done|]. destruct (open_wal_file file) as [[f n]|e]; done.
Qed.

Lemma testable_persist_plain `{W : Wire} io s record :
  persist io (plain s) record = ((testable_persist io s record).1, plain (testable_persist io s record).2).
Proof. destruct s as [|w]; [done|]. cbn. by destruct (writer_append io w record). Qed.

(** A test that sets no switch sees exactly the real backend, from opening on. *)
Lemma test_without_faults `{W : Wire} config locked file s ops :
  testable_open config locked file = Ok s → Forall (λ op, is_persist op = true) ops →
  ∃ s0, storage_open config locked file = Ok s0
    ∧ run_plain ops s0 = ((run_test ops s).1, plain (run_test ops s).2).
Proof.
  intros Ho Hops. pose proof (testable_open_plain config locked file) as H. rewrite Ho in H.
  destruct H as [H _]. exists (plain s). split; [done|]. clear Ho H. revert s.
  induction Hops as [|op ops Hop _ IH]; intros s; [done|]. destruct op as [io record| |]; [|done..].
  cbn [run_plain run_test]. rewrite testable_persist_plain.
  destruct (testable_persist io s record) as [reply s1]. cbn [fst snd]. rewrite IH.
  by destruct (run_test ops s1).
Qed.

(** Setting the append switch costs exactly one append: it fails, nothing is
    written, and the storage is then as if the test had done neither. *)
Lemma append_fault_is_one_shot `{W : Wire} w io record ops :
  disarmed (Testable_Wal w) → ww_tx w = true →
  run_test (Op_fail_append :: Op_persist io record :: ops) (Testable_Wal w)
  = (Err (Io "injected append failure") :: (run_test ops (Testable_Wal w)).1,
     (run_test ops (Testable_Wal w)).2).
Proof.
  intros [Ha Hs] Htx. destruct w as [tx [file seq fa fs]]. cbn in Ha, Hs, Htx. subst.
  cbn [run_test testable_fail_next_append fail_next_append testable_persist writer_append negb ww_tx
       ww_thread process_write wt_fail_next_append wt_file wt_next_seq wt_fail_next_sync rbind].
  unfold writer_append. cbn [negb ww_tx ww_thread process_write wt_fail_next_append wt_file wt_next_seq
    wt_fail_next_sync]. by destruct (run_test ops _).
Qed.
