(* ===== verification/Recovery.v ===== *)
(** * Crash recovery ([recovery.rs])

    Replay of the scanned records into a store and a tracker, reconciliation of
    the jobs that were running when the process died, and validation of the
    result against the configuration.  A loop over a hash map follows the
    arbitrary order [hash_iter]; the directory is the bytes of [wal.log], absent
    or not, and whether another process holds the lock. *)

From S2P Require Import Prelude Types Config Store Codec ConcreteWire Scanner Writer.

(** ** Data *)

Record RecoveredState := mkRecoveredState {
  rec_store : MemoryStore;
  rec_queued_jobs : gmap string (list JobId);
  rec_retry_jobs : list (JobId * UnixMillis);
  rec_next_sequence : Z;
  rec_next_lease_epoch : Z;
  rec_submitted : Z;
  rec_completed : Z;
  rec_dead : Z;
  rec_cancelled : Z;
  rec_retried : Z;
}.

Record RecoveryTracker := mkRecoveryTracker {
  submitted_jobs : gmap JobId (QueueName * Z);
  running_jobs : gmap JobId (LeaseId * Z);
  retry_waiting : gmap JobId UnixMillis;
  queued_order : gmap string (list JobId);
  max_lease_epoch : Z;
}.

Definition RecoveryTracker_new : RecoveryTracker := mkRecoveryTracker ∅ ∅ ∅ ∅ 0.

(** [q.retain(|&jid| jid != id)] *)
Definition retain_ne (id : JobId) (q : list JobId) : list JobId := filter (λ jid, jid ≠ id) q.

(** The removal from the queue the job was submitted to. *)
Definition unqueue (id : JobId) (submitted : gmap JobId (QueueName * Z))
    (order : gmap string (list JobId)) : gmap string (list JobId) :=
  match submitted !! id with
  | Some (queue, _) =>
      match order !! as_str queue with
      | Some q => <[as_str queue := retain_ne id q]> order
      | None => order
      end
  | None => order
  end.

Definition track_record (t : RecoveryTracker) (record : WalRecord) : RecoveryTracker :=
  match record with
  | JobSubmitted id queue spec _ =>
      mkRecoveryTracker
        (<[id := (queue, max_attempts spec)]> (submitted_jobs t))
        (running_jobs t) (retry_waiting t)
        (<[as_str queue := default [] (queued_order t !! as_str queue) ++ [id]]> (queued_order t))
        (max_lease_epoch t)
  | JobLeased id lease_id attempt _ =>
      mkRecoveryTracker
        (submitted_jobs t)
        (<[id := (lease_id, attempt)]> (running_jobs t))
        (delete id (retry_waiting t))
        (unqueue id (submitted_jobs t) (queued_order t))
        (Z.max (max_lease_epoch t) (epoch lease_id))
  | JobRetryScheduled id _ _ available_at =>
      mkRecoveryTracker
        (submitted_jobs t)
        (delete id (running_jobs t))
        (<[id := available_at]> (retry_waiting t))
        (queued_order t)
        (max_lease_epoch t)
  | JobCompleted id _ _ | JobDead id _ _ | JobCancelled id _ =>
      mkRecoveryTracker
        (submitted_jobs t)
        (delete id (running_jobs t))
        (delete id (retry_waiting t))
        (unqueue id (submitted_jobs t) (queued_order t))
        (max_lease_epoch t)
  end.

(** ** Replay *)

(** The store after [apply_record_for_recovery]. *)
Definition replay_record (st : MemoryStore) (record : WalRecord) : MemoryStore :=
  match record with
  | JobSubmitted id queue spec created_at =>
      insert_job (JobRecord_new id queue spec created_at) st
  | JobLeased id _ attempt _ =>
      alter (λ job, set_attempts attempt (set_state Running job)) id st
  | JobRetryScheduled id _ _ _ => alter (set_state RetryWaiting) id st
  | JobCompleted id _ _ => alter (set_state Completed) id st
  | JobDead id _ _ => alter (set_state Dead) id st
  | JobCancelled id _ => alter (set_state Cancelled) id st
  end.

Definition apply_record_for_recovery (st : MemoryStore) (record : WalRecord) : WalResult MemoryStore :=
  Ok (replay_record st record).

(** The counters of [recover]. *)
Record RecoveryCounts := mkRecoveryCounts {
  submitted_count : Z;
  completed_count : Z;
  dead_count : Z;
  cancelled_count : Z;
  retried_count : Z;
}.

Definition count_record (c : RecoveryCounts) (record : WalRecord) : RecoveryCounts :=
  let '(mkRecoveryCounts s co d ca r) := c in
  match record with
  | JobSubmitted _ _ _ _ => mkRecoveryCounts (u64_incr s) co d ca r
  | JobCompleted _ _ _ => mkRecoveryCounts s (u64_incr co) d ca r
  | JobDead _ _ _ => mkRecoveryCounts s co (u64_incr d) ca r
  | JobCancelled _ _ => mkRecoveryCounts s co d (u64_incr ca) r
  | JobRetryScheduled _ _ _ _ => mkRecoveryCounts s co d ca (u64_incr r)
  | JobLeased _ _ _ _ => c
  end.

(** The two replay loops of [recover]: track, count, apply.  The second one, over
    the reconciliation records, counts only retries and deaths, which are the
    only records reconciliation writes. *)
Fixpoint replay_loop (records : list WalRecord)
    (s : MemoryStore * RecoveryTracker * RecoveryCounts)
    : WalResult (MemoryStore * RecoveryTracker * RecoveryCounts) :=
  match records with
  | [] => Ok s
  | record :: records =>
      let '(store, tracker, counts) := s in
      let tracker := track_record tracker record in
      let counts := count_record counts record in
      try store := apply_record_for_recovery store record in
      replay_loop records (store, tracker, counts)
  end.

(** ** Reconciliation *)

(** The record for one entry of [running_jobs], if any. *)
Definition reconcile_job (now : UnixMillis) (st : MemoryStore)
    (entry : JobId * (LeaseId * Z)) : option WalRecord :=
  let '(job_id, (lease_id, _)) := entry in
  match store_get st job_id with
  | None => None
  | Some job =>
      match job_state job with
      | Running =>
          if job_attempts job <? max_attempts (job_spec job) then
            Some (JobRetryScheduled job_id lease_id (job_attempts job) now)
          else Some (JobDead job_id lease_id now)
      | _ => None
      end
  end.

Definition reconcile_running_jobs `{HashIter} (now : UnixMillis) (st : MemoryStore)
    (tracker : RecoveryTracker) : WalResult (list WalRecord) :=
  Ok (omap (reconcile_job now st) (hash_iter (running_jobs tracker))).

(** The loop that appends the reconciliation records to the file. *)
Fixpoint write_reconciliation `{W : Wire} (file : list byte) (next_sequence : Z)
    (records : list WalRecord) : WalResult (list byte * Z) :=
  match records with
  | [] => Ok (file, next_sequence)
  | record :: records =>
      try encoded := frame_encode (mkWalFrame next_sequence record) in
      try next_sequence := ok_or (u64_checked_incr next_sequence) SequenceExhausted in
      write_reconciliation (file ++ encoded) next_sequence records
  end.

(** ** The recovered queues *)

Definition in_state (st : MemoryStore) (s : JobState) (id : JobId) : bool :=
  match store_get st id with
  | Some job => bool_decide (job_state job = s)
  | None => false
  end.

Definition build_queued_jobs `{HashIter} (st : MemoryStore) (order : gmap string (list JobId))
    : gmap string (list JobId) :=
  foldl (λ queued_jobs '(queue_name, job_ids),
           let valid_queued := filter (λ id, in_state st Queued id = true) job_ids in
           if bool_decide (valid_queued = []) then queued_jobs
           else <[queue_name := valid_queued]> queued_jobs)
        ∅ (hash_iter order).

Definition build_retry_jobs `{HashIter} (st : MemoryStore) (waiting : gmap JobId UnixMillis)
    : list (JobId * UnixMillis) :=
  filter (λ e, in_state st RetryWaiting e.1 = true) (hash_iter waiting).

(** ** Validation *)

Definition config_queues (config : RuntimeConfig) : gmap string Z :=
  foldl (λ m q, <[as_str (qc_name q) := qc_capacity q]> m) ∅ (cfg_queues config).

(** [*map.entry(k).or_default() += n] *)
Definition bump (k : string) (n : Z) (m : gmap string Z) : gmap string Z :=
  <[k := default 0 (m !! k) + n]> m.

Fixpoint check_queued (cq : gmap string Z) (entries : list (string * list JobId))
    (live : gmap string Z) : WalResult (gmap string Z) :=
  match entries with
  | [] => Ok live
  | (queue_name, job_ids) :: entries =>
      if bool_decide (cq !! queue_name = None) then Err (RecoveryQueueNotFound queue_name)
      else check_queued cq entries (bump queue_name (zlen job_ids) live)
  end.

Fixpoint check_retry (st : MemoryStore) (cq : gmap string Z) (entries : list (JobId * UnixMillis))
    (live : gmap string Z) : WalResult (gmap string Z) :=
  match entries with
  | [] => Ok live
  | (job_id, _) :: entries =>
      match store_get st job_id with
      | Some job =>
          let queue_name := as_str (job_queue job) in
          if bool_decide (cq !! queue_name = None) then Err (RecoveryQueueNotFound queue_name)
          else check_retry st cq entries (bump queue_name 1 live)
      | None => check_retry st cq entries live
      end
  end.

Fixpoint check_capacity (cq : gmap string Z) (entries : list (string * Z)) : WalResult unit :=
  match entries with
  | [] => Ok ()
  | (queue_name, count) :: entries =>
      match cq !! queue_name with
      | Some capacity =>
          if capacity <? count then Err (RecoveryCapacityExceeded queue_name count capacity)
          else check_capacity cq entries
      | None => check_capacity cq entries
      end
  end.

Definition validate_recovered_state `{HashIter} (st : MemoryStore)
    (queued_jobs : gmap string (list JobId)) (retry_jobs : list (JobId * UnixMillis))
    (config : RuntimeConfig) : WalResult unit :=
  let cq := config_queues config in
  try live := check_queued cq (hash_iter queued_jobs) ∅ in
  try live := check_retry st cq retry_jobs live in
  check_capacity cq (hash_iter live).

(** ** Recovery *)

Definition empty_recovered : RecoveredState :=
  mkRecoveredState ∅ ∅ [] 1 1 0 0 0 0 0.

(** [recover]: the recovered state and the file it leaves. *)
Definition recover `{W : Wire} `{HashIter} (now : UnixMillis) (locked : bool)
    (file : option (list byte)) (config : RuntimeConfig) : WalResult (RecoveredState * list byte) :=
  if locked then Err StoreLocked
  else
    let file := default [] file in
    if (length file =? 0)%nat then Ok (empty_recovered, header_encode WalHeader_new)
    else
      try scan := scan_wal file in
      let file :=
        if had_truncated_tail scan then (repair_truncated_tail file (last_valid_offset scan)).2
        else file in
      try '(store, tracker, counts) :=
        replay_loop (scan_records scan) (∅, RecoveryTracker_new, mkRecoveryCounts 0 0 0 0 0) in
      try next_sequence := ok_or (u64_checked_incr (last_sequence scan)) SequenceExhausted in
      try next_lease_epoch :=
        ok_or (u64_checked_incr (max_lease_epoch tracker)) LeaseEpochExhausted in
      try reconciliation_records := reconcile_running_jobs now store tracker in
      try '(file, next_sequence) := write_reconciliation file next_sequence reconciliation_records in
      try '(store, tracker, counts) := replay_loop reconciliation_records (store, tracker, counts) in
      let queued_jobs := build_queued_jobs store (queued_order tracker) in
      let retry_jobs := build_retry_jobs store (retry_waiting tracker) in
      try _ := validate_recovered_state store queued_jobs retry_jobs config in
      Ok (mkRecoveredState store queued_jobs retry_jobs next_sequence next_lease_epoch
            (submitted_count counts) (completed_count counts) (dead_count counts)
            (cancelled_count counts) (retried_count counts), file).
