(* ===== verification/RecoveryProofs.v ===== *)
(** * Correctness of crash recovery

    The tracker follows the store through any sequence of records, reconciliation
    leaves no job running, what it appends to the file continues the log, and a
    recovery after a recovery finds nothing left to do. *)

From S2P Require Import Prelude Types Config Store Codec ConcreteWire Scanner Writer Recovery.

(** ** Replay as folds *)

Definition replay (st : MemoryStore) (rs : list WalRecord) : MemoryStore := foldl replay_record st rs.
Definition track (t : RecoveryTracker) (rs : list WalRecord) : RecoveryTracker := foldl track_record t rs.

Lemma replay_app st rs rs' : replay st (rs ++ rs') = replay (replay st rs) rs'.
Proof. apply foldl_app. Qed.

Lemma track_app t rs rs' : track t (rs ++ rs') = track (track t rs) rs'.
Proof. apply foldl_app. Qed.

Lemma replay_loop_eq rs st t c :
  replay_loop rs (st, t, c) = Ok (replay st rs, track t rs, foldl count_record c rs).
Proof. revert st t c; induction rs as [|r rs IH]; intros; [done|]. cbn. by rewrite IH. Qed.

Lemma replay_record_eq st r id :
  replay_record st r !! id =
    if decide (id = record_job_id r) then record_effect r (st !! id) else st !! id.
Proof.
  destruct r; cbn; unfold insert_job; cbn; rewrite ?lookup_insert, ?lookup_alter;
    repeat case_decide; subst; done || congruence.
Qed.

(** Strict and relaxed application agree whenever the strict one succeeds. *)
Lemma replay_record_strict st r st' : apply_record st r = Ok st' → replay_record st r = st'.
Proof.
  intros H. pose proof (apply_record_ok _ _ _ H) as (Heff & _ & Hne & _).
  apply map_eq. intros id. rewrite replay_record_eq. case_decide; subst; [done|]. by rewrite Hne.
Qed.

(** ** The tracker follows the store *)

(** What the tracker knows of a store, whatever the log was. *)
Record tracks (st : MemoryStore) (t : RecoveryTracker) : Prop := {
  tracks_wf : store_wf st;
  tracks_running : ∀ id job,
    st !! id = Some job → job_state job = Running → is_Some (running_jobs t !! id);
  tracks_retry : ∀ id job,
    st !! id = Some job → job_state job = RetryWaiting → is_Some (retry_waiting t !! id);
  tracks_submitted : ∀ id job,
    st !! id = Some job →
    submitted_jobs t !! id = Some (job_queue job, max_attempts (job_spec job));
  tracks_queued : ∀ id job,
    st !! id = Some job → job_state job = Queued →
    id ∈ default [] (queued_order t !! as_str (job_queue job));
}.

Lemma tracks_new : tracks ∅ RecoveryTracker_new.
Proof. split; intros ??; by rewrite lookup_empty. Qed.

Lemma elem_of_retain_ne id jid q : jid ∈ retain_ne id q ↔ jid ≠ id ∧ jid ∈ q.
Proof. unfold retain_ne. by rewrite list_elem_of_filter. Qed.

Lemma elem_of_unqueue id jid sub order q :
  jid ≠ id → jid ∈ default [] (order !! q) → jid ∈ default [] (unqueue id sub order !! q).
Proof.
  intros Hne Hin. unfold unqueue. destruct (sub !! id) as [[queue n]|]; [|done].
  destruct (order !! as_str queue) as [l|] eqn:Hl; [|done].
  destruct (decide (as_str queue = q)) as [<-|]; simplify_map_eq; [|done].
  by apply elem_of_retain_ne.
Qed.

(** How one record changes a job's stored record. *)
Lemma record_effect_cases r old job' :
  record_effect r old = Some job' →
  (∃ id queue spec created_at, r = JobSubmitted id queue spec created_at
     ∧ job' = JobRecord_new id queue spec created_at)
  ∨ ∃ job, old = Some job ∧ job_queue job' = job_queue job ∧ job_spec job' = job_spec job
           ∧ is_submit r = false.
Proof. destruct r, old; cbn; intros ?; simplify_eq; naive_solver. Qed.

Lemma tracks_step st t r : tracks st t → tracks (replay_record st r) (track_record t r).
Proof.
  intros [Hwf Hrun Hret Hsub Hq].
  split; intros id job; rewrite replay_record_eq; case_decide as Hid.
  - intros He. rewrite Hid. eapply record_effect_id; [|done]. subst id. intros j. apply Hwf.
  - apply Hwf.
  - intros He Hs. apply record_effect_state in He. rewrite He in Hs. subst id.
    destruct r; try done. cbn. rewrite lookup_insert_eq. by eexists.
  - intros He Hs. specialize (Hrun _ _ He Hs).
    destruct r; cbn in *; by rewrite ?lookup_insert_ne, ?lookup_delete_ne by congruence.
  - intros He Hs. apply record_effect_state in He. rewrite He in Hs. subst id.
    destruct r; try done. cbn. rewrite lookup_insert_eq. by eexists.
  - intros He Hs. specialize (Hret _ _ He Hs).
    destruct r; cbn in *; by rewrite ?lookup_insert_ne, ?lookup_delete_ne by congruence.
  - intros He. subst id.
    apply record_effect_cases in He as [(i & q & s & c & -> & ->)|(j & Hj & Hjq & Hjs & Hnot)].
    + cbn. by rewrite lookup_insert_eq.
    + rewrite Hjq, Hjs. destruct r; try done; by apply Hsub.
  - intros He. specialize (Hsub _ _ He). destruct r; try done. cbn in *.
    by rewrite lookup_insert_ne by congruence.
  - intros He Hs. pose proof (record_effect_state _ _ _ He) as Hst. rewrite Hst in Hs. subst id.
    destruct r; try done. cbn in *. injection He as <-. cbn.
    rewrite lookup_insert_eq. cbn. set_solver.
  - intros He Hs. specialize (Hq _ _ He Hs).
    destruct r as [i q s c| | | | |]; cbn in *;
      try (by apply elem_of_unqueue; [congruence|]); [|done].
    destruct (decide (as_str q = as_str (job_queue job))) as [->|]; simplify_map_eq; [|done].
    set_solver.
Qed.

Lemma tracks_replay st t rs : tracks st t → tracks (replay st rs) (track t rs).
Proof.
  revert st t; induction rs as [|r rs IH]; intros st t H; [done|].
  cbn. apply IH. by apply tracks_step.
Qed.

(** ** Reconciliation *)

(** What reconciliation makes of a job. *)
Definition reconciled (job : JobRecord) : JobRecord :=
  match job_state job with
  | Running =>
      set_state (if job_attempts job <? max_attempts (job_spec job) then RetryWaiting else Dead) job
  | _ => job
  end.

Lemma reconciled_not_running job : job_state (reconciled job) ≠ Running.
Proof. unfold reconciled. destruct (job_state job) eqn:?; cbn; try congruence. by case_match. Qed.

Lemma replay_reconcile_job now st0 st entry id :
  st !! entry.1 = st0 !! entry.1 →
  replay st (option_list (reconcile_job now st0 entry)) !! id =
    if decide (id = entry.1) then reconciled <$> st !! id else st !! id.
Proof.
  destruct entry as [i [lease n]]. cbn. intros Heq. unfold store_get. rewrite <-Heq.
  destruct (st !! i) as [job|] eqn:Hi; cbn; [|case_decide; [subst; by rewrite Hi|done]].
  unfold reconciled.
  destruct (job_state job) eqn:Hs; cbn;
    try (case_decide; [subst; rewrite Hi; cbn; by rewrite Hs|done]).
  destruct (job_attempts job <? _) eqn:Ha; cbn; rewrite lookup_alter;
    repeat case_decide; subst; try congruence; rewrite Hi; cbn; by rewrite Hs, Ha.
Qed.

Lemma replay_reconcile_list now st0 st entries id :
  NoDup entries.*1 → (∀ i, i ∈ entries.*1 → st !! i = st0 !! i) →
  replay st (omap (reconcile_job now st0) entries) !! id =
    if decide (id ∈ entries.*1) then reconciled <$> st !! id else st !! id.
Proof.
  revert st; induction entries as [|e es IH]; intros st Hnd Heq; [done|].
  cbn [fmap list_fmap] in *. apply NoDup_cons in Hnd as [Hni Hnd].
  assert (omap (reconcile_job now st0) (e :: es)
          = option_list (reconcile_job now st0 e) ++ omap (reconcile_job now st0) es) as ->
    by (cbn; by destruct (reconcile_job now st0 e)).
  pose proof (replay_reconcile_job now st0 st e) as Hstep.
  rewrite replay_app, IH; [|done|].
  - rewrite Hstep by (apply Heq; by left).
    destruct (decide (id ∈ es.*1)), (decide (id = e.1)); subst;
      repeat case_decide; set_solver.
  - intros i Hi. rewrite Hstep by (apply Heq; by left).
    destruct (decide (i = e.1)) as [->|]; [done|]. apply Heq. by right.
Qed.

Lemma reconcile_lookup `{HashIter} now st t recs id :
  tracks st t → reconcile_running_jobs now st t = Ok recs →
  replay st recs !! id = reconciled <$> st !! id.
Proof.
  intros Ht [= <-]. rewrite replay_reconcile_list by
    (apply hash_iter_NoDup_fst || done).
  case_decide as Hin; [done|]. destruct (st !! id) as [job|] eqn:Hj; [|done]. cbn. f_equal.
  unfold reconciled. destruct (job_state job) eqn:Hs; try done.
  destruct (tracks_running _ _ Ht _ _ Hj Hs) as [x Hx]. destruct Hin.
  apply list_elem_of_fmap. exists (id, x). split; [done|]. by apply elem_of_hash_iter.
Qed.

Lemma reconcile_no_running `{HashIter} now st t :
  (∀ id job, st !! id = Some job → job_state job ≠ Running) →
  reconcile_running_jobs now st t = Ok [].
Proof.
  intros Hnr. unfold reconcile_running_jobs. f_equal.
  induction (hash_iter (running_jobs t)) as [|[i [l n]] es IH]; [done|]. cbn. unfold store_get.
  destruct (st !! i) as [job|] eqn:Hi; cbn; [|done].
  specialize (Hnr _ _ Hi). by destruct (job_state job).
Qed.

(** ** The appended records *)

Lemma write_reconciliation_ok `{W : Wire} file seq recs file' seq' :
  write_reconciliation file seq recs = Ok (file', seq') →
  ∃ b, encode_log seq recs = Ok b ∧ file' = file ++ b ∧ seq' = seq + zlen recs
       ∧ (seq ≤ u64_max → seq' ≤ u64_max).
Proof.
  revert file seq; induction recs as [|r recs IH]; intros file seq; cbn [write_reconciliation length].
  { intros [= <- <-]. exists []. rewrite app_nil_r, Z.add_0_r. done. }
  intros H. apply rbind_ok in H as (b & Hb & H). apply rbind_ok in H as (s & Hs & H).
  apply ok_or_ok, u64_checked_incr_Some in Hs as [-> Hs].
  apply IH in H as (b' & Hb' & -> & -> & Hle). exists (b ++ b').
  cbn. rewrite Hb. cbn. rewrite Hb'. cbn. rewrite app_assoc. split_and!; [done|done|lia|lia].
Qed.

(** ** One run of recovery on an existing log *)

(** What [recover] does up to the validation: it finds the records [rs] in the
    repaired file, writes the reconciliation records [recs] after them, and builds
    the state from both. *)
Record recovery_run `{W : Wire} `{HashIter} (now : UnixMillis) (file : list byte)
    (rec : RecoveredState) (file' : list byte)
    (rs recs : list WalRecord) (content b : list byte) : Prop := {
  run_scan : ∃ n t, scan_wal file = Ok (scan_result rs n t);
  run_frames : frames_prefix content rs (length content);
  run_prefix : (header_encode WalHeader_new ++ content) `prefix_of` file;
  run_recs : reconcile_running_jobs now (replay ∅ rs) (track RecoveryTracker_new rs) = Ok recs;
  run_encode : encode_log (zlen rs + 1) recs = Ok b;
  run_file : file' = header_encode WalHeader_new ++ content ++ b;
  run_bound : zlen rs + zlen recs + 1 ≤ u64_max;
  run_epoch_bound : max_lease_epoch (track RecoveryTracker_new rs) + 1 ≤ u64_max;
  run_state : rec =
    let st := replay ∅ (rs ++ recs) in
    let t := track RecoveryTracker_new (rs ++ recs) in
    let c := foldl count_record (mkRecoveryCounts 0 0 0 0 0) (rs ++ recs) in
    mkRecoveredState st (build_queued_jobs st (queued_order t))
      (build_retry_jobs st (retry_waiting t))
      (zlen rs + zlen recs + 1) (max_lease_epoch (track RecoveryTracker_new rs) + 1)
      (submitted_count c) (completed_count c) (dead_count c) (cancelled_count c) (retried_count c);
}.

(** The file that [recover] appends to: the header and the valid frames. *)
Lemma repaired_file `{W : Wire} file res :
  file ≠ [] → scan_wal file = Ok res →
  ∃ rs n t content, res = scan_result rs n t ∧ length content = n
    ∧ frames_prefix content rs (length content)
    ∧ (if t then (repair_truncated_tail file (Z.of_nat n)).2 else file)
      = header_encode WalHeader_new ++ content
    ∧ (header_encode WalHeader_new ++ content) `prefix_of` file.
Proof.
  intros Hne Hscan. destruct (decide (HEADER_SIZE ≤ length file)%nat) as [Hhdr|Hhdr]; cycle 1.
  { unfold scan_wal in Hscan. destruct (Nat.eqb_spec (length file) 0) as [H0|];
      [by apply nil_length_inv in H0|by destruct (Nat.ltb_spec (length file) HEADER_SIZE); [|lia]]. }
  rewrite scan_wal_nonempty in Hscan by done. apply rbind_ok in Hscan as (h & Hh & Hscan).
  apply header_decode_ok in Hh; [|rewrite length_take; lia].
  apply scan_frames_sound in Hscan as (rs & n & t & Hp & Ht & ->).
  pose proof (frames_prefix_le _ _ _ Hp) as Hn. rewrite length_drop in Hn.
  exists rs, n, t, (take n (drop HEADER_SIZE file)).
  assert (length (take n (drop HEADER_SIZE file)) = n) as Hl by (rewrite length_take, length_drop; lia).
  assert (header_encode WalHeader_new ++ take n (drop HEADER_SIZE file) = take (HEADER_SIZE + n) file) as Hf.
  { rewrite <-Hh, <-take_take_drop. done. }
  split_and!; [done|done| | |].
  - rewrite Hl. eapply frames_prefix_ext; [done|]. by rewrite take_take, Nat.min_id.
  - rewrite Hf. destruct t; [by apply repair_take; lia|]. unfold scan_stops in Ht.
    rewrite length_drop in Ht. symmetry. apply take_ge. lia.
  - rewrite Hf. apply prefix_take.
Qed.

Lemma recover_run `{W : Wire} `{HashIter} now file config rec file' :
  file ≠ [] → recover now false (Some file) config = Ok (rec, file') →
  (∃ rs recs content b, recovery_run now file rec file' rs recs content b)
  ∧ validate_recovered_state (rec_store rec) (rec_queued_jobs rec) (rec_retry_jobs rec) config = Ok ().
Proof.
  intros Hne Hrec. unfold recover in Hrec. change (default [] (Some file)) with file in Hrec.
  destruct (Nat.eqb_spec (length file) 0) as [H0|_]; [by apply nil_length_inv in H0|].
  apply rbind_ok in Hrec as (scan & Hscan & Hrec).
  destruct (repaired_file _ _ Hne Hscan) as (rs & n & t & content & -> & Hn & Hp & Hf & Hpre).
  cbn [scan_result had_truncated_tail last_valid_offset scan_records last_sequence] in Hrec.
  rewrite Hf, replay_loop_eq in Hrec. cbn [rbind] in Hrec.
  apply rbind_ok in Hrec as (seq & Hseq & Hrec). apply ok_or_ok, u64_checked_incr_Some in Hseq as [-> Hseq].
  apply rbind_ok in Hrec as (ep & Hep & Hrec). apply ok_or_ok, u64_checked_incr_Some in Hep as [-> Hep].
  apply rbind_ok in Hrec as (recs & Hrecs & Hrec).
  apply rbind_ok in Hrec as ([file1 seq1] & Hw & Hrec). cbn in Hrec.
  apply write_reconciliation_ok in Hw as (b & Hb & -> & -> & Hle).
  rewrite replay_loop_eq in Hrec. cbn [rbind] in Hrec.
  apply rbind_ok in Hrec as ([] & Hv & Hrec).
  rewrite <-replay_app, <-track_app, <-foldl_app in *. injection Hrec as <- <-.
  split; [|done]. exists rs, recs, content, b.
  split; try done; [by eauto|lia|].
  f_equal. lia.
Qed.

(** ** Facts about a run *)

Lemma reconcile_records `{HashIter} now st t recs r :
  reconcile_running_jobs now st t = Ok recs → r ∈ recs →
  (∃ id l a ts, r = JobRetryScheduled id l a ts) ∨ (∃ id l ts, r = JobDead id l ts).
Proof.
  intros [= <-] ([i [l n]] & _ & Hj)%list_elem_of_omap. unfold reconcile_job in Hj.
  repeat case_match; simplify_eq; eauto 10.
Qed.

Lemma track_no_lease_epoch t rs :
  (∀ r, r ∈ rs → ∀ id l a ts, r ≠ JobLeased id l a ts) →
  max_lease_epoch (track t rs) = max_lease_epoch t.
Proof.
  revert t; induction rs as [|r rs IH]; intros t Hr; [done|]. cbn. rewrite IH by set_solver.
  specialize (Hr r ltac:(by left)). destruct r; try done. by destruct (Hr id lease_id attempt leased_at).
Qed.

Lemma track_epoch_le t rs id l a ts :
  JobLeased id l a ts ∈ rs → epoch l ≤ max_lease_epoch (track t rs).
Proof.
  revert t; induction rs as [|r rs IH]; intros t; [by intros ?%elem_of_nil|].
  intros [<-|Hin]%elem_of_cons; cbn; [|by apply IH].
  assert (∀ t, max_lease_epoch t ≤ max_lease_epoch (track t rs)) as Hmono.
  { clear. induction rs as [|r rs IH]; intros t; [done|]. cbn. etrans; [|apply IH].
    destruct r; cbn; lia. }
  etrans; [|apply Hmono]. cbn. lia.
Qed.

Section run.
Context `{W : Wire} `{!WireLaws W} `{HashIter}.
Context {now : UnixMillis} {file file' : list byte} {rec : RecoveredState}.
Context {rs recs : list WalRecord} {content b : list byte}.
Context (R : recovery_run now file rec file' rs recs content b).

Lemma run_store_eq : rec_store rec = replay ∅ (rs ++ recs).
Proof using R. by rewrite (run_state _ _ _ _ _ _ _ _ R). Qed.

Lemma run_lookup id : rec_store rec !! id = reconciled <$> replay ∅ rs !! id.
Proof using R.
  rewrite run_store_eq, replay_app. eapply reconcile_lookup; [|by apply (run_recs _ _ _ _ _ _ _ _ R)].
  apply tracks_replay, tracks_new.
Qed.

Lemma run_no_running id job : rec_store rec !! id = Some job → job_state job ≠ Running.
Proof using R.
  rewrite run_lookup. intros (j & _ & ->)%fmap_Some_1. apply reconciled_not_running.
Qed.

Lemma run_frames_all :
  frames_prefix (content ++ b) (rs ++ recs) (length (content ++ b)).
Proof using R WireLaws0.
  apply frames_prefix_append; [apply R|apply R|].
  pose proof (run_bound _ _ _ _ _ _ _ _ R). lia.
Qed.

Lemma run_wal_ok : wal_ok (WriterThread_new file' (rec_next_sequence rec)) (rs ++ recs).
Proof using R WireLaws0.
  split.
  - cbn. rewrite (run_state _ _ _ _ _ _ _ _ R). cbn. rewrite length_app. lia.
  - exists (content ++ b). split; [apply run_frames_all|apply R].
Qed.

Lemma run_epoch_all :
  max_lease_epoch (track RecoveryTracker_new (rs ++ recs))
  = max_lease_epoch (track RecoveryTracker_new rs).
Proof using R.
  rewrite track_app. apply track_no_lease_epoch. intros r Hr.
  destruct (reconcile_records _ _ _ _ _ (run_recs _ _ _ _ _ _ _ _ R) Hr); naive_solver.
Qed.

End run.

Lemma recover_empty `{W : Wire} `{HashIter} now file config rec file' :
  default [] file = [] → recover now false file config = Ok (rec, file') →
  rec = empty_recovered ∧ file' = header_encode WalHeader_new.
Proof. unfold recover. intros -> [= <- <-]. done. Qed.

(** C16: recovery leaves no job running, and changes nothing else: every job the
    log describes is recovered with the state the replay gives it, except that a
    job that was [Running] becomes [RetryWaiting] if attempts remain and [Dead]
    if not, with its attempt count, queue, payload and identity untouched; this
    holds for every log, including logs that no execution of the queue wrote. *)
Theorem recovery_reconciles `{W : Wire} `{HashIter} now file config rec file' id :
  file ≠ [] → recover now false (Some file) config = Ok (rec, file') →
  ∃ rs n t, scan_wal file = Ok (scan_result rs n t)
    ∧ rec_store rec !! id = reconciled <$> replay ∅ rs !! id
    ∧ (∀ job, rec_store rec !! id = Some job → job_state job ≠ Running ∧ job_id job = id).
Proof.
  intros Hne Hrec. destruct (recover_run _ _ _ _ _ Hne Hrec) as [(rs & recs & content & b & R) Hv].
  destruct (run_scan _ _ _ _ _ _ _ _ R) as (n & t & Hs). exists rs, n, t.
  split_and!; [done|by eapply run_lookup|].
  intros job Hj. split; [by eapply (run_no_running R)|].
  rewrite (run_store_eq R) in Hj.
  exact (tracks_wf _ _ (tracks_replay _ _ (rs ++ recs) tracks_new) _ _ Hj).
Qed.

(** Recovery hands the writer a well-formed log: the recovered file is the
    header and whole frames, holding the records found and the reconciliation
    records, and [next_sequence] continues their numbering, so that every later
    append is durable and readable in the sense of the writer's invariant. *)
Lemma recovery_hands_over_log `{W : Wire} `{!WireLaws W} `{HashIter} now file config rec file' :
  recover now false file config = Ok (rec, file') →
  ∃ rs recs, wal_ok (WriterThread_new file' (rec_next_sequence rec)) (rs ++ recs)
    ∧ rec_store rec = replay ∅ (rs ++ recs)
    ∧ (file = Some [] ∨ file = None → rs = [])
    ∧ (∀ f, file = Some f → f ≠ [] → ∃ n t, scan_wal f = Ok (scan_result rs n t)).
Proof.
  intros Hrec. destruct (decide (default [] file = [])) as [Hd|Hd].
  - destruct (recover_empty _ _ _ _ _ Hd Hrec) as [-> ->]. exists [], [].
    split_and!; [apply wal_ok_new|done|done|]. intros f -> Hf. done.
  - destruct file as [f|]; [|done].
    destruct (recover_run _ _ _ _ _ Hd Hrec) as [(rs & recs & content & b & R) Hv].
    exists rs, recs. split_and!; [by eapply run_wal_ok|by eapply run_store_eq| |].
    + intros [[= ->]|]; done.
    + intros f' [= <-] _. apply R.
Qed.

(** C19: leases are fenced across restarts: the lease epoch that the recovered
    coordinator starts from is larger than that of every lease in the log. *)
Theorem recovery_fences_leases `{W : Wire} `{HashIter} now file config rec file' rs n t id l a ts :
  file ≠ [] → recover now false (Some file) config = Ok (rec, file') →
  scan_wal file = Ok (scan_result rs n t) → JobLeased id l a ts ∈ rs →
  epoch l < rec_next_lease_epoch rec.
Proof.
  intros Hne Hrec Hscan Hin.
  destruct (recover_run _ _ _ _ _ Hne Hrec) as [(rs' & recs & content & b & R) Hv].
  destruct (run_scan _ _ _ _ _ _ _ _ R) as (n' & t' & Hs).
  assert (rs' = rs) as -> by (unfold scan_result in *; congruence).
  pose proof (track_epoch_le RecoveryTracker_new _ _ _ _ _ Hin).
  rewrite (run_state _ _ _ _ _ _ _ _ R). cbn. lia.
Qed.

(** ** The recovered queues *)

Definition submit_id (r : WalRecord) : option JobId :=
  match r with JobSubmitted id _ _ _ => Some id | _ => None end.

(** The identifiers submitted by a log, in submission order. *)
Definition submitted_ids (rs : list WalRecord) : list JobId := omap submit_id rs.

Lemma submitted_ids_snoc rs r :
  submitted_ids (rs ++ [r]) = submitted_ids rs ++ option_list (submit_id r).
Proof. unfold submitted_ids. rewrite omap_app. by destruct r. Qed.

(** What the tracker's queues hold for a log that submits no identifier twice. *)
Record orders (rs : list WalRecord) (t : RecoveryTracker) : Prop := {
  orders_sublist : ∀ q, default [] (queued_order t !! q) `sublist_of` submitted_ids rs;
  orders_submitted : ∀ id, is_Some (submitted_jobs t !! id) → id ∈ submitted_ids rs;
  orders_queue : ∀ q id, id ∈ default [] (queued_order t !! q) →
    ∃ queue n, submitted_jobs t !! id = Some (queue, n) ∧ as_str queue = q;
}.

Lemma unqueue_lookup id sub order q :
  default [] (unqueue id sub order !! q) = default [] (order !! q)
  ∨ default [] (unqueue id sub order !! q) = retain_ne id (default [] (order !! q)).
Proof.
  unfold unqueue. destruct (sub !! id) as [[queue n]|]; [|by left].
  destruct (order !! as_str queue) as [l|] eqn:Hl; [|by left].
  destruct (decide (as_str queue = q)) as [<-|]; simplify_map_eq; [by right|by left].
Qed.

Lemma unqueue_sublist id sub order q :
  default [] (unqueue id sub order !! q) `sublist_of` default [] (order !! q).
Proof.
  destruct (unqueue_lookup id sub order q) as [-> | ->]; [done|]. apply sublist_filter.
Qed.

Lemma orders_unqueue rs t id r run ret ep :
  orders rs t → submit_id r = None →
  orders (rs ++ [r]) (mkRecoveryTracker (submitted_jobs t) run ret
                        (unqueue id (submitted_jobs t) (queued_order t)) ep).
Proof.
  intros [Hs Hd Hq] Hr. split; intros *; rewrite ?submitted_ids_snoc, ?Hr, ?app_nil_r; cbn.
  - etrans; [apply unqueue_sublist|apply Hs].
  - apply Hd.
  - intros Hin. apply Hq. eapply elem_of_sublist; [exact Hin|]. apply unqueue_sublist.
Qed.

Lemma orders_step rs t r :
  NoDup (submitted_ids (rs ++ [r])) → orders rs t → orders (rs ++ [r]) (track_record t r).
Proof.
  intros Hnd H. destruct r as [id queue spec ts| | | | |]; cbn [track_record];
    [|by apply orders_unqueue| |by apply orders_unqueue..].
  - destruct H as [Hs Hd Hq]. rewrite submitted_ids_snoc in Hnd. cbn in Hnd.
    apply NoDup_snoc in Hnd as [_ Hni]. split; intros *; rewrite ?submitted_ids_snoc; cbn.
    + destruct (decide (as_str queue = q)) as [<-|]; simplify_map_eq.
      * apply sublist_app; [apply Hs|done].
      * etrans; [apply Hs|]. by apply sublist_inserts_r.
    + destruct (decide (id = id0)) as [<-|]; simplify_map_eq; [set_solver|]. intros ?%Hd. set_solver.
    + intros Hin. destruct (decide (id = id0)) as [<-|Hne].
      * destruct (decide (as_str queue = q)) as [<-|]; simplify_map_eq; [by eauto|].
        apply Hq in Hin as (qu & k & Hsub & _). destruct Hni. apply Hd. by eexists.
      * rewrite lookup_insert_ne by done. apply Hq.
        destruct (decide (as_str queue = q)) as [<-|]; simplify_map_eq; [|done]. set_solver.
  - destruct H as [Hs Hd Hq]. split; intros *; rewrite ?submitted_ids_snoc, ?app_nil_r; cbn; naive_solver.
Qed.

Lemma orders_track rs : NoDup (submitted_ids rs) → orders rs (track RecoveryTracker_new rs).
Proof.
  induction rs as [|r rs IH] using rev_ind; intros Hnd.
  { split; cbn; intros *; rewrite ?lookup_empty; [done|by intros []|by intros ?%elem_of_nil]. }
  rewrite track_app. apply orders_step; [done|]. apply IH.
  rewrite submitted_ids_snoc in Hnd. by apply NoDup_app in Hnd as [? _].
Qed.

Section queues.
Context `{HashIter}.

Definition queued_of (st : MemoryStore) (job_ids : list JobId) : list JobId :=
  filter (λ id, in_state st Queued id = true) job_ids.

Lemma build_queued_fold st l (m : gmap string (list JobId)) q :
  NoDup l.*1 →
  foldl (λ queued_jobs '(queue_name, job_ids),
           let valid_queued := filter (λ id, in_state st Queued id = true) job_ids in
           if bool_decide (valid_queued = []) then queued_jobs
           else <[queue_name := valid_queued]> queued_jobs) m l !! q =
  match (list_to_map l : gmap string (list JobId)) !! q with
  | Some ids => if bool_decide (queued_of st ids = []) then m !! q else Some (queued_of st ids)
  | None => m !! q
  end.
Proof.
  revert m; induction l as [|[k ids] l IH]; intros m Hnd; [done|].
  cbn in Hnd. apply NoDup_cons in Hnd as [Hni Hnd]. cbn [foldl]. rewrite IH by done. cbn.
  assert ((list_to_map l : gmap string (list JobId)) !! k = None) as Hk
    by (by apply not_elem_of_list_to_map_1).
  unfold queued_of. destruct (decide (k = q)) as [<-|Hne].
  - rewrite Hk, lookup_insert_eq. case_bool_decide; [done|]. by rewrite lookup_insert_eq.
  - rewrite (lookup_insert_ne _ k q) by done. case_bool_decide; [done|].
    by rewrite lookup_insert_ne.
Qed.

Lemma build_queued_lookup st order q :
  default [] (build_queued_jobs st order !! q) = queued_of st (default [] (order !! q)).
Proof.
  unfold build_queued_jobs. rewrite build_queued_fold by apply hash_iter_NoDup_fst.
  rewrite (list_to_map_proper (hash_iter order) (map_to_list order))
    by (apply hash_iter_NoDup_fst || apply hash_iter_perm).
  rewrite list_to_map_to_list, lookup_empty.
  destruct (order !! q) as [ids|]; cbn; [|done]. case_bool_decide as Hb; [symmetry; exact Hb|done].
Qed.

Lemma in_state_spec st s id :
  in_state st s id = true ↔ ∃ job, st !! id = Some job ∧ job_state job = s.
Proof.
  unfold in_state, store_get. destruct (st !! id) as [job|]; [|naive_solver].
  rewrite bool_decide_eq_true. naive_solver.
Qed.

Lemma build_retry_elem st t id :
  tracks st t → id ∈ (build_retry_jobs st (retry_waiting t)).*1 ↔ in_state st RetryWaiting id = true.
Proof.
  intros Ht. unfold build_retry_jobs. rewrite list_elem_of_fmap. split.
  - intros ([i a] & -> & Hin). by apply list_elem_of_filter in Hin as [? _].
  - intros Hs. pose proof Hs as (job & Hj & Hst)%in_state_spec.
    destruct (tracks_retry _ _ Ht _ _ Hj Hst) as [a Ha]. exists (id, a). split; [done|].
    apply list_elem_of_filter. split; [done|]. by apply elem_of_hash_iter.
Qed.

Lemma build_retry_NoDup st w : NoDup (build_retry_jobs st w).*1.
Proof.
  unfold build_retry_jobs. eapply sublist_NoDup; [apply (hash_iter_NoDup_fst w)|].
  apply fmap_sublist, sublist_filter.
Qed.
End queues.

(** ** Validation *)

Lemma bump_lookup k n (m : gmap string Z) q :
  default 0 (bump k n m !! q) = default 0 (m !! q) + (if decide (k = q) then n else 0).
Proof. unfold bump. case_decide; simplify_map_eq; lia. Qed.

Lemma check_queued_ok cq l live live' :
  NoDup l.*1 → check_queued cq l live = Ok live' →
  (∀ q, q ∈ l.*1 → is_Some (cq !! q))
  ∧ ∀ q, default 0 (live' !! q) =
      default 0 (live !! q) + zlen (default [] ((list_to_map l : gmap string (list JobId)) !! q)).
Proof.
  revert live; induction l as [|[k ids] l IH]; intros live Hnd H; cbn in *.
  { simplify_eq. split; [set_solver|]. intros q. rewrite lookup_empty. cbn. lia. }
  apply NoDup_cons in Hnd as [Hni Hnd]. case_bool_decide as Hk; [done|].
  apply IH in H as [Hin Hlen]; [|done]. split.
  - intros q [->|Hq]%elem_of_cons; [by apply not_eq_None_Some|by apply Hin].
  - intros q. rewrite Hlen, bump_lookup.
    destruct (decide (k = q)) as [<-|Hne]; [|rewrite lookup_insert_ne by done; lia].
    rewrite lookup_insert_eq, (not_elem_of_list_to_map_1 _ _ Hni). cbn. lia.
Qed.

(** The retry entries of a queue. *)
Definition retry_of (st : MemoryStore) (q : string) (l : list (JobId * UnixMillis)) : list JobId :=
  filter (λ id, (match st !! id with Some job => bool_decide (as_str (job_queue job) = q) | None => false end) = true)
    l.*1.

Lemma check_retry_ok st cq l live live' :
  check_retry st cq l live = Ok live' →
  (∀ id job, id ∈ l.*1 → st !! id = Some job → is_Some (cq !! as_str (job_queue job)))
  ∧ ∀ q, default 0 (live' !! q) = default 0 (live !! q) + zlen (retry_of st q l).
Proof.
  revert live; induction l as [|[i a] l IH]; intros live H; cbn [check_retry] in H.
  { simplify_eq. split; [set_solver|]. intros q. cbn. lia. }
  unfold store_get in H. destruct (st !! i) as [job|] eqn:Hi.
  - case_bool_decide as Hk; [done|]. apply IH in H as [Hin Hlen]. split.
    + intros id job' [->|Hid]%elem_of_cons Hj; [|by eapply Hin].
      cbn in Hj. assert (job' = job) as -> by congruence. by apply not_eq_None_Some.
    + intros q. rewrite Hlen, bump_lookup. unfold retry_of. rewrite fmap_cons, filter_cons. cbn [fst]. rewrite Hi.
      repeat case_decide; try (exfalso; rewrite bool_decide_eq_true in *; congruence); cbn; lia.
  - apply IH in H as [Hin Hlen]. split.
    + intros id job' [->|Hid]%elem_of_cons Hj; [cbn in Hj; congruence|by eapply Hin].
    + intros q. rewrite Hlen. unfold retry_of. rewrite fmap_cons, filter_cons. cbn [fst]. rewrite Hi.
      by case_decide.
Qed.

Lemma check_capacity_ok cq l :
  check_capacity cq l = Ok () → ∀ q n cap, (q, n) ∈ l → cq !! q = Some cap → n ≤ cap.
Proof.
  induction l as [|[k c] l IH]; cbn; [by intros _ ??? ?%elem_of_nil|].
  intros H q n cap [Heq|Hin]%elem_of_cons Hcap.
  - injection Heq as -> ->. rewrite Hcap in H. by destruct (Z.ltb_spec cap c); [|lia].
  - repeat case_match; try done; by eapply IH.
Qed.

Lemma validate_ok `{HashIter} st qj rj config q cap :
  validate_recovered_state st qj rj config = Ok () →
  config_queues config !! q = Some cap →
  zlen (default [] (qj !! q)) + zlen (retry_of st q rj) ≤ cap ∨ cap < 0.
Proof.
  unfold validate_recovered_state. intros Hv Hcap.
  apply rbind_ok in Hv as (live1 & H1 & Hv). apply rbind_ok in Hv as (live2 & H2 & Hv).
  apply check_queued_ok in H1 as [_ H1]; [|apply hash_iter_NoDup_fst].
  rewrite (list_to_map_proper (hash_iter qj) (map_to_list qj)), list_to_map_to_list in H1
    by (apply hash_iter_NoDup_fst || apply hash_iter_perm).
  apply check_retry_ok in H2 as [_ H2]. specialize (H1 q). specialize (H2 q).
  rewrite lookup_empty in H1. cbn in H1.
  destruct (live2 !! q) as [n|] eqn:Hn; cbn in H2.
  - left. cut (n ≤ cap); [lia|]. eapply check_capacity_ok; [done| |done]. by apply elem_of_hash_iter.
  - destruct (decide (cap < 0)); [by right|left; lia].
Qed.

Lemma config_queues_elem qs (m : gmap string Z) q cap :
  foldl (λ m q, <[as_str (qc_name q) := qc_capacity q]> m) m qs !! q = Some cap →
  m !! q = Some cap ∨ ∃ qc, qc ∈ qs ∧ as_str (qc_name qc) = q ∧ qc_capacity qc = cap.
Proof.
  revert m; induction qs as [|qc qs IH]; intros m; cbn; [by left|].
  intros [Hm|(qc' & ? & ?)]%IH; [|right; exists qc'; set_solver].
  destruct (decide (as_str (qc_name qc) = q)) as [<-|]; simplify_map_eq; [|by left].
  right. exists qc. set_solver.
Qed.

Lemma config_queues_nonneg config q cap :
  Forall (λ qc, 0 ≤ qc_capacity qc) (cfg_queues config) →
  config_queues config !! q = Some cap → 0 ≤ cap.
Proof.
  intros Hall [Hm|(qc & Hin & _ & <-)]%config_queues_elem; [by rewrite lookup_empty in Hm|].
  by eapply Forall_forall in Hall.
Qed.

Lemma validate_queues_known `{HashIter} st qj rj config :
  validate_recovered_state st qj rj config = Ok () →
  (∀ q ids, qj !! q = Some ids → is_Some (config_queues config !! q))
  ∧ (∀ id job, id ∈ rj.*1 → st !! id = Some job →
       is_Some (config_queues config !! as_str (job_queue job))).
Proof.
  unfold validate_recovered_state. intros Hv.
  apply rbind_ok in Hv as (live1 & H1 & Hv). apply rbind_ok in Hv as (live2 & H2 & _).
  apply check_queued_ok in H1 as [H1 _]; [|apply hash_iter_NoDup_fst].
  apply check_retry_ok in H2 as [H2 _]. split; [|done].
  intros q ids Hq. apply H1, list_elem_of_fmap. exists (q, ids). by rewrite elem_of_hash_iter.
Qed.

(** ** Recovering again

    The order in which a hash map yields its entries differs from process to
    process, so the second recovery has an order of its own. *)

Lemma bump_comm k n k' n' (m : gmap string Z) : bump k n (bump k' n' m) = bump k' n' (bump k n m).
Proof.
  unfold bump. destruct (decide (k = k')) as [<-|Hne].
  - rewrite !lookup_insert_eq, !insert_insert_eq. f_equal. cbn. lia.
  - rewrite (lookup_insert_ne _ k' k), (lookup_insert_ne _ k k') by done. by apply insert_insert_ne.
Qed.

Lemma check_queued_perm cq l l' live x :
  l ≡ₚ l' → check_queued cq l live = Ok x → check_queued cq l' live = Ok x.
Proof.
  intros Hp. revert live. induction Hp as [|[k ids] l l' _ IH|[k ids] [k' ids'] l|l1 l2 l3 _ IH1 _ IH2]; intros live;
    cbn [check_queued]; [done| | |by auto].
  - case_bool_decide; [done|apply IH].
  - repeat case_bool_decide; try done. by rewrite bump_comm.
Qed.

Lemma check_retry_perm st cq l l' live x :
  l ≡ₚ l' → check_retry st cq l live = Ok x → check_retry st cq l' live = Ok x.
Proof.
  intros Hp. revert live. induction Hp as [|[i a] l l' _ IH|[i a] [i' a'] l|l1 l2 l3 _ IH1 _ IH2]; intros live;
    cbn [check_retry]; [done| | |by auto].
  - destruct (store_get st i) as [job|]; [|apply IH]. case_bool_decide; [done|apply IH].
  - destruct (store_get st i) as [job|], (store_get st i') as [job'|]; repeat case_bool_decide; try done.
    by rewrite bump_comm.
Qed.

Lemma check_capacity_perm cq l l' : l ≡ₚ l' → check_capacity cq l = Ok () → check_capacity cq l' = Ok ().
Proof.
  induction 1 as [|[k c] l l' _ IH|[k c] [k' c'] l|l1 l2 l3 _ IH1 _ IH2]; cbn [check_capacity]; [done| | |by auto].
  - destruct (cq !! k); [|done]. case_match; [done|apply IH].
  - destruct (cq !! k), (cq !! k'); repeat case_match; done.
Qed.

Lemma hash_iter_any (HI HI' : HashIter) {K V} `{Countable K} (m : gmap K V) :
  hash_iter (HashIter := HI) m ≡ₚ hash_iter (HashIter := HI') m.
Proof. by rewrite !hash_iter_perm. Qed.

Lemma validate_any (HI HI' : HashIter) st qj rj rj' config :
  rj ≡ₚ rj' → validate_recovered_state (H := HI) st qj rj config = Ok () →
  validate_recovered_state (H := HI') st qj rj' config = Ok ().
Proof.
  unfold validate_recovered_state. intros Hp Hv.
  apply rbind_ok in Hv as (live1 & H1 & Hv). apply rbind_ok in Hv as (live2 & H2 & Hv).
  rewrite (check_queued_perm _ _ _ _ _ (hash_iter_any HI HI' qj) H1). cbn [rbind].
  rewrite (check_retry_perm _ _ _ _ _ _ Hp H2). cbn [rbind].
  exact (check_capacity_perm _ _ _ (hash_iter_any HI HI' live2) Hv).
Qed.

Lemma build_queued_any (HI HI' : HashIter) st order :
  build_queued_jobs (H := HI) st order = build_queued_jobs (H := HI') st order.
Proof.
  apply map_eq. intros q. unfold build_queued_jobs.
  rewrite (build_queued_fold st (hash_iter (HashIter := HI) order)) by apply hash_iter_NoDup_fst.
  rewrite (build_queued_fold st (hash_iter (HashIter := HI') order)) by apply hash_iter_NoDup_fst.
  by rewrite (list_to_map_proper _ _ (hash_iter_NoDup_fst order) (hash_iter_any HI HI' order)).
Qed.

Lemma build_retry_any (HI HI' : HashIter) st w :
  build_retry_jobs (H := HI) st w ≡ₚ build_retry_jobs (H := HI') st w.
Proof. unfold build_retry_jobs. by rewrite (hash_iter_any HI HI' w). Qed.

(** The same state, but for the order of the retries. *)
Definition with_retry_jobs (l : list (JobId * UnixMillis)) (r : RecoveredState) : RecoveredState :=
  mkRecoveredState (rec_store r) (rec_queued_jobs r) l (rec_next_sequence r) (rec_next_lease_epoch r)
    (rec_submitted r) (rec_completed r) (rec_dead r) (rec_cancelled r) (rec_retried r).

Definition same_recovery (r r' : RecoveredState) : Prop :=
  rec_retry_jobs r ≡ₚ rec_retry_jobs r' ∧ r' = with_retry_jobs (rec_retry_jobs r') r.

#[global] Instance same_recovery_equiv : Equivalence same_recovery.
Proof.
  split.
  - intros []. by split.
  - intros [] [] [Hp [=]]. split; [done|]. cbn in *. by subst.
  - intros [] [] [] [Hp [=]] [Hp' [=]]. split; [by etrans|]. cbn in *. by subst.
Qed.

(** C17: recovery is idempotent: a second recovery of the file that a recovery
    left, at any later time and with an iteration order of hash maps of its own,
    succeeds, leaves the file as it is and returns the same state, except that the
    retry list may be in another order; so a crash after recovery loses nothing
    and repeats no reconciliation. *)
Theorem recovery_idempotent `{W : Wire} `{!WireLaws W} (HI HI' : HashIter) now now' file config rec file' :
  file ≠ [] → recover (H := HI) now false (Some file) config = Ok (rec, file') → zlen file' ≤ u64_max →
  ∃ rec', recover (H := HI') now' false (Some file') config = Ok (rec', file') ∧ same_recovery rec rec'.
Proof.
  intros Hne Hrec Hlen. destruct (recover_run _ _ _ _ _ Hne Hrec) as [(rs & recs & content & b & R) Hv].
  pose proof (run_bound _ _ _ _ _ _ _ _ R) as Hbound.
  destruct (wal_ok_scan _ _ (run_wal_ok R) Hlen) as (n & Hscan & Hn). cbn [wt_file WriterThread_new] in *.
  pose proof (run_state _ _ _ _ _ _ _ _ R) as Hst. rewrite Hst in Hv. cbn [rec_store rec_queued_jobs rec_retry_jobs] in Hv.
  pose proof (validate_any HI HI' _ _ _ _ _ (build_retry_any HI HI' _ _) Hv) as Hv'.
  eexists. split.
  - unfold recover. change (default [] (Some file')) with file'.
    destruct (Nat.eqb_spec (length file') 0); [unfold HEADER_SIZE in *; lia|].
    rewrite Hscan. cbn [rbind scan_result had_truncated_tail scan_records last_sequence].
    rewrite replay_loop_eq. cbn [rbind].
    rewrite u64_checked_incr_lt by (rewrite length_app; lia). cbn [ok_or rbind].
    rewrite (run_epoch_all R).
    rewrite u64_checked_incr_lt by (pose proof (run_epoch_bound _ _ _ _ _ _ _ _ R); lia). cbn [ok_or rbind].
    rewrite (reconcile_no_running (H := HI')) by (rewrite <-(run_store_eq R); apply (run_no_running R)).
    cbn [rbind write_reconciliation replay_loop].
    rewrite (build_queued_any HI' HI). rewrite Hv'. cbn. reflexivity.
  - rewrite Hst. split; [apply build_retry_any|]. unfold with_retry_jobs. cbn. f_equal. rewrite length_app. lia.
Qed.

(** ** The recovered queues and the store *)

Section run_queues.
Context `{W : Wire} `{HashIter}.
Context {now : UnixMillis} {file file' : list byte} {rec : RecoveredState}.
Context {rs recs : list WalRecord} {content b : list byte}.
Context (R : recovery_run now file rec file' rs recs content b).

Lemma run_tracks : tracks (rec_store rec) (track RecoveryTracker_new (rs ++ recs)).
Proof using R. rewrite (run_store_eq R). apply tracks_replay, tracks_new. Qed.

Lemma run_submitted_ids : submitted_ids (rs ++ recs) = submitted_ids rs.
Proof using R.
  pose proof (λ r, reconcile_records _ _ _ _ r (run_recs _ _ _ _ _ _ _ _ R)) as Hr.
  unfold submitted_ids. rewrite omap_app. rewrite <-(app_nil_r (omap submit_id rs)) at 2. f_equal.
  clear R. induction recs as [|r l IH]; [done|]. cbn.
  destruct (Hr r ltac:(by left)) as [(?&?&?&?&->)|(?&?&?&->)]; apply IH; intros; apply Hr; by right.
Qed.

Lemma run_orders :
  NoDup (submitted_ids rs) → orders (rs ++ recs) (track RecoveryTracker_new (rs ++ recs)).
Proof using R. intros Hnd. apply orders_track. by rewrite run_submitted_ids. Qed.

Lemma run_queued_eq q :
  default [] (rec_queued_jobs rec !! q) =
  queued_of (rec_store rec)
    (default [] (queued_order (track RecoveryTracker_new (rs ++ recs)) !! q)).
Proof using R.
  rewrite (run_state _ _ _ _ _ _ _ _ R). cbn [rec_queued_jobs rec_store]. apply build_queued_lookup.
Qed.

Lemma run_queued_elem q id :
  NoDup (submitted_ids rs) →
  id ∈ default [] (rec_queued_jobs rec !! q) ↔
    ∃ job, rec_store rec !! id = Some job ∧ in_queue q Queued job = true.
Proof using R.
  intros Hnd. pose proof run_tracks as Ht. pose proof (run_orders Hnd) as Ho.
  rewrite run_queued_eq. unfold queued_of. rewrite list_elem_of_filter, in_state_spec.
  unfold in_queue. setoid_rewrite andb_true_iff. setoid_rewrite bool_decide_eq_true. split.
  - intros [(job & Hj & Hs) Hin]. exists job. split_and!; [done| |done].
    apply (orders_queue _ _ Ho) in Hin as (qu & n & Hsub & <-).
    rewrite (tracks_submitted _ _ Ht _ _ Hj) in Hsub. congruence.
  - intros (job & Hj & <- & Hs). split; [by eauto|]. by apply (tracks_queued _ _ Ht).
Qed.

Lemma run_queued_sublist q :
  NoDup (submitted_ids rs) →
  default [] (rec_queued_jobs rec !! q) `sublist_of` submitted_ids rs.
Proof using R.
  intros Hnd. rewrite run_queued_eq, <-run_submitted_ids.
  etrans; [apply sublist_filter|]. by apply (orders_sublist _ _ (run_orders Hnd)).
Qed.

Lemma run_retry_elem id :
  id ∈ (rec_retry_jobs rec).*1 ↔
    ∃ job, rec_store rec !! id = Some job ∧ job_state job = RetryWaiting.
Proof using R.
  rewrite <-in_state_spec, <-(build_retry_elem _ _ _ run_tracks).
  by rewrite (run_state _ _ _ _ _ _ _ _ R).
Qed.

Lemma run_retry_NoDup : NoDup (rec_retry_jobs rec).*1.
Proof using R. rewrite (run_state _ _ _ _ _ _ _ _ R). apply build_retry_NoDup. Qed.

Lemma run_retry_count q :
  count_jobs (in_queue q RetryWaiting) (rec_store rec)
  = zlen (retry_of (rec_store rec) q (rec_retry_jobs rec)).
Proof using R.
  apply mcount_list.
  - unfold retry_of. eapply sublist_NoDup; [apply run_retry_NoDup|apply sublist_filter].
  - intros id. unfold retry_of. rewrite list_elem_of_filter, run_retry_elem.
    unfold in_queue. setoid_rewrite andb_true_iff. setoid_rewrite bool_decide_eq_true.
    destruct (rec_store rec !! id) as [j|]; rewrite ?bool_decide_eq_true; naive_solver.
Qed.
End run_queues.

(** C18: the recovered queues are exactly the live jobs: for a log that submits no
    identifier twice, a job is in the recovered ready list of a queue exactly
    when the recovered store has it [Queued] in that queue, and each ready list is
    in submission order without duplicates; the retry list, which comes in the
    order of a hash map, holds each [RetryWaiting] job exactly once. *)
Theorem recovered_queues_exact `{W : Wire} `{HashIter} now file config rec file' rs n t q :
  file ≠ [] → recover now false (Some file) config = Ok (rec, file') →
  scan_wal file = Ok (scan_result rs n t) → NoDup (submitted_ids rs) →
  (∀ id, id ∈ default [] (rec_queued_jobs rec !! q) ↔
     ∃ job, rec_store rec !! id = Some job ∧ in_queue q Queued job = true)
  ∧ default [] (rec_queued_jobs rec !! q) `sublist_of` submitted_ids rs
  ∧ NoDup (default [] (rec_queued_jobs rec !! q))
  ∧ (∀ id, id ∈ (rec_retry_jobs rec).*1 ↔
       ∃ job, rec_store rec !! id = Some job ∧ job_state job = RetryWaiting)
  ∧ NoDup (rec_retry_jobs rec).*1.
Proof.
  intros Hne Hrec Hscan Hnd.
  destruct (recover_run _ _ _ _ _ Hne Hrec) as [(rs' & recs & content & b & R) Hv].
  destruct (run_scan _ _ _ _ _ _ _ _ R) as (n' & t' & Hs).
  assert (rs' = rs) as -> by (unfold scan_result in *; congruence).
  split_and!; [intros; by apply (run_queued_elem R)|by apply (run_queued_sublist R)
    |by eapply sublist_NoDup, (run_queued_sublist R)|apply (run_retry_elem R)|apply (run_retry_NoDup R)].
Qed.

(** A successful recovery respects the configuration: the queue of every
    live recovered job is configured, and the number of live jobs of a queue
    does not exceed its capacity. *)
Lemma recovery_respects_capacity `{W : Wire} `{HashIter} now file config rec file' rs n t :
  file ≠ [] → recover now false (Some file) config = Ok (rec, file') →
  scan_wal file = Ok (scan_result rs n t) → NoDup (submitted_ids rs) →
  Forall (λ qc, 0 ≤ qc_capacity qc) (cfg_queues config) →
  (∀ id job, rec_store rec !! id = Some job → is_terminal (job_state job) = false →
     is_Some (config_queues config !! as_str (job_queue job)))
  ∧ ∀ q cap, config_queues config !! q = Some cap →
      count_jobs (in_queue q Queued) (rec_store rec)
      + count_jobs (in_queue q RetryWaiting) (rec_store rec) ≤ cap.
Proof.
  intros Hne Hrec Hscan Hnd Hcfg.
  destruct (recover_run _ _ _ _ _ Hne Hrec) as [(rs' & recs & content & b & R) Hv].
  destruct (run_scan _ _ _ _ _ _ _ _ R) as (n' & t' & Hs).
  assert (rs' = rs) as -> by (unfold scan_result in *; congruence).
  split.
  - intros id job Hj Hlive. destruct (validate_queues_known _ _ _ _ Hv) as [Hq Hr].
    destruct (job_state job) eqn:Hst; try done.
    + assert (id ∈ default [] (rec_queued_jobs rec !! as_str (job_queue job))) as Hin.
      { apply (run_queued_elem R); [done|]. exists job. split; [done|].
        unfold in_queue. rewrite Hst. by rewrite !bool_decide_true. }
      destruct (rec_queued_jobs rec !! _) as [ids|] eqn:Hids; [by eapply Hq|by apply elem_of_nil in Hin].
    + by destruct (run_no_running R _ _ Hj).
    + eapply Hr; [|done]. apply (run_retry_elem R). by eauto.
  - intros q cap Hcap. rewrite (run_retry_count R).
    rewrite (mcount_list _ _ (default [] (rec_queued_jobs rec !! q))).
    + destruct (validate_ok _ _ _ _ _ _ Hv Hcap) as [|Hneg]; [done|].
      exfalso. assert (0 ≤ cap); [|lia]. by eapply config_queues_nonneg.
    + eapply sublist_NoDup; [|by apply (run_queued_sublist R)]. done.
    + intros id. by apply (run_queued_elem R).
Qed.

(** ** Witnesses *)

Section witnesses.
#[local] Existing Instance canonical_iter.

Definition ex_config : RuntimeConfig :=
  RuntimeConfig_new [mkQueueConfig (mkQueueName "q") 2] 16.

(** A submitted and leased job, then a torn frame. *)
Definition ex_crashed : list byte :=
  header_encode WalHeader_new ++ ex_log ++ take 20 ex_next_bytes.

Definition ex_recovered : WalResult (RecoveredState * list byte) :=
  recover (from_millis 50) false (Some ex_crashed) ex_config.

Definition ex_rec : RecoveredState :=
  match ex_recovered with Ok (r, _) => r | Err _ => empty_recovered end.
Definition ex_rec_file : list byte :=
  match ex_recovered with Ok (_, f) => f | Err _ => [] end.

(** The crash-lost job is waiting for its retry, one attempt used. *)
Example ex_rec_job :
  job_state <$> rec_store ex_rec !! from_uuid 7 = Some RetryWaiting
  ∧ job_attempts <$> rec_store ex_rec !! from_uuid 7 = Some 1
  ∧ rec_next_sequence ex_rec = 4 ∧ rec_next_lease_epoch ex_rec = 5.
Proof. vm_compute. done. Qed.

Lemma recovery_reconciles_witness :
  ∃ rs n t, scan_wal ex_crashed = Ok (scan_result rs n t)
    ∧ rec_store ex_rec !! from_uuid 7 = reconciled <$> replay ∅ rs !! from_uuid 7
    ∧ (∀ job, rec_store ex_rec !! from_uuid 7 = Some job →
         job_state job ≠ Running ∧ job_id job = from_uuid 7).
Proof.
  apply (recovery_reconciles (from_millis 50) ex_crashed ex_config ex_rec ex_rec_file);
    [vm_compute; discriminate|vm_compute; reflexivity].
Defined.

(** Another order of the entries of a hash map. *)
Definition reversed_iter : HashIter := {|
  hash_iter K V _ _ m := reverse (map_to_list m);
  hash_iter_perm K V _ _ m := reverse_Permutation (map_to_list m);
|}.

(** Two jobs that run and two that are queued when the process dies. *)
Definition ex_busy_records : list WalRecord :=
  let submit id := JobSubmitted (from_uuid id) (mkQueueName "q") (JobSpec_new [Byte.x2a]) (from_millis 5) in
  [submit 1; submit 2; submit 3; submit 4]%N ++
  [JobLeased (from_uuid 1) (LeaseId_new 1) 1 (from_millis 6); JobLeased (from_uuid 2) (LeaseId_new 2) 1 (from_millis 7)].
Definition ex_busy_log : list byte :=
  header_encode WalHeader_new ++ match encode_log 1 ex_busy_records with Ok b => b | Err _ => [] end.
Definition ex_busy_config : RuntimeConfig := RuntimeConfig_new [mkQueueConfig (mkQueueName "q") 8] 16.
Definition ex_busy : WalResult (RecoveredState * list byte) :=
  recover (from_millis 50) false (Some ex_busy_log) ex_busy_config.
Definition ex_busy_rec : RecoveredState := match ex_busy with Ok (r, _) => r | Err _ => empty_recovered end.
Definition ex_busy_file : list byte := match ex_busy with Ok (_, f) => f | Err _ => [] end.

(** The retry list of the second recovery is in another order indeed. *)
Lemma recovery_idempotent_witness :
  (∃ rec', recover (H := reversed_iter) (from_millis 99) false (Some ex_busy_file) ex_busy_config = Ok (rec', ex_busy_file)
     ∧ same_recovery ex_busy_rec rec')
  ∧ match recover (H := reversed_iter) (from_millis 99) false (Some ex_busy_file) ex_busy_config with
    | Ok (rec', _) => rec_retry_jobs rec' = reverse (rec_retry_jobs ex_busy_rec) ∧ length (rec_retry_jobs rec') = 2%nat
    | Err _ => False
    end.
Proof.
  split; [|vm_compute; split; reflexivity].
  apply (recovery_idempotent canonical_iter reversed_iter (from_millis 50) (from_millis 99) ex_busy_log ex_busy_config
    ex_busy_rec ex_busy_file); [vm_compute; discriminate|vm_compute; reflexivity|vm_compute; discriminate].
Defined.

Lemma recovery_fences_leases_witness : 4 < rec_next_lease_epoch ex_rec.
Proof.
  apply (recovery_fences_leases (from_millis 50) ex_crashed ex_config ex_rec ex_rec_file
           ex_records (length ex_log) true (from_uuid 7) (LeaseId_new 4) 1 (from_millis 6));
    [vm_compute; discriminate|vm_compute; reflexivity|vm_compute; reflexivity|].
  right. left.
Defined.

Lemma ex_busy_submits : NoDup (submitted_ids ex_busy_records).
Proof. apply (bool_decide_unpack _). vm_compute. exact Logic.I. Qed.

Definition ex_busy_length : nat := length ex_busy_log - HEADER_SIZE.

(** The jobs that were queued are in the ready list, in their order. *)
Lemma recovered_queues_exact_witness :
  default [] (rec_queued_jobs ex_busy_rec !! "q"%string) = [from_uuid 3; from_uuid 4]
  ∧ ∃ job, rec_store ex_busy_rec !! from_uuid 3 = Some job ∧ in_queue "q" Queued job = true.
Proof.
  split; [vm_compute; reflexivity|].
  refine (proj1 (proj1 (recovered_queues_exact (from_millis 50) ex_busy_log ex_busy_config ex_busy_rec ex_busy_file
    ex_busy_records ex_busy_length false "q" _ _ _ ex_busy_submits) (from_uuid 3)) _).
  - vm_compute. discriminate.
  - vm_compute. reflexivity.
  - vm_compute. reflexivity.
  - vm_compute. left.
Defined.

End witnesses.
