(* ===== verification/RecoveryTotal.v ===== *)
(** * Recovery succeeds

    A log that a scan accepts is recovered, whatever crash left it, as long as
    the counters have room, the reconciliation records can be serialized, and
    the configuration still has room for the unfinished jobs. *)

From S2P Require Import Prelude Types Config Store Codec ConcreteWire Scanner Writer.
From S2P Require Import Recovery RecoveryProofs.

(** The capacity of a queue, zero if it is not configured. *)
Definition capacity_of (config : RuntimeConfig) (q : string) : Z :=
  default 0 (config_queues config !! q).

(** ** Validation *)

Lemma check_queued_total cq l live :
  (∀ q, q ∈ l.*1 → is_Some (cq !! q)) → ∃ live', check_queued cq l live = Ok live'.
Proof.
  revert live; induction l as [|[k ids] l IH]; intros live Hl; cbn [check_queued]; [by eexists|].
  rewrite bool_decide_false by (apply not_eq_None_Some, Hl; left). apply IH. intros q Hq. apply Hl. by right.
Qed.

Lemma check_retry_total st cq l live :
  (∀ id job, id ∈ l.*1 → st !! id = Some job → is_Some (cq !! as_str (job_queue job))) →
  ∃ live', check_retry st cq l live = Ok live'.
Proof.
  revert live; induction l as [|[i a] l IH]; intros live Hl; cbn [check_retry]; [by eexists|].
  assert (∀ live, ∃ live', check_retry st cq l live = Ok live') as IH'.
  { intros live'. apply IH. intros id job Hid. apply Hl. by right. }
  unfold store_get. destruct (st !! i) as [job|] eqn:Hi; [|apply IH'].
  rewrite bool_decide_false; [apply IH'|]. apply not_eq_None_Some. eapply Hl; [left|done].
Qed.

Lemma check_capacity_total cq l :
  (∀ q n cap, (q, n) ∈ l → cq !! q = Some cap → n ≤ cap) → check_capacity cq l = Ok ().
Proof.
  induction l as [|[k c] l IH]; intros Hl; cbn [check_capacity]; [done|].
  assert (check_capacity cq l = Ok ()) as IH'.
  { apply IH. intros q n cap Hin. apply Hl. by right. }
  destruct (cq !! k) as [cap|] eqn:Hk; [|done].
  destruct (Z.ltb_spec cap c); [|done]. specialize (Hl k c cap ltac:(left) Hk). lia.
Qed.

(** [build_queued_jobs] has no empty lists. *)
Lemma build_queued_nonempty `{HashIter} st order q ids :
  build_queued_jobs st order !! q = Some ids → ids ≠ [].
Proof.
  unfold build_queued_jobs. generalize (hash_iter order). intros l.
  assert (∀ m : gmap string (list JobId), (∀ q ids, m !! q = Some ids → ids ≠ []) →
    ∀ q ids, foldl (λ queued_jobs '(queue_name, job_ids),
        let valid_queued := filter (λ id, in_state st Queued id = true) job_ids in
        if bool_decide (valid_queued = []) then queued_jobs
        else <[queue_name := valid_queued]> queued_jobs) m l !! q = Some ids → ids ≠ []) as Hgen.
  { induction l as [|[k js] l IH]; intros m Hm; [done|]. cbn [foldl]. apply IH.
    cbn zeta. case_bool_decide as Hb; [done|]. intros q' ids'.
    destruct (decide (k = q')) as [<-|Hne]; [rewrite lookup_insert_eq; by intros [= <-]|].
    rewrite lookup_insert_ne by done. apply Hm. }
  apply Hgen. intros q' ids'. by rewrite lookup_empty.
Qed.

(** The unfinished jobs of a queue after a recovery. *)
Lemma live_count (st : MemoryStore) q :
  (∀ id job, st !! id = Some job → job_state job ≠ Running) →
  count_jobs (live_in q) st = count_jobs (in_queue q Queued) st + count_jobs (in_queue q RetryWaiting) st.
Proof.
  intros Hnr. apply mcount_split. intros id job Hj. specialize (Hnr _ _ Hj).
  unfold live_in, in_queue. destruct (bool_decide (as_str (job_queue job) = q)); [|done].
  by destruct (job_state job).
Qed.

Section total.
Context `{W : Wire} `{HashIter}.
Context {now : UnixMillis} {file file' : list byte} {rec : RecoveredState}.
Context {rs recs : list WalRecord} {content b : list byte}.
Context (R : recovery_run now file rec file' rs recs content b).

Lemma run_validates config :
  NoDup (submitted_ids rs) →
  (∀ q, count_jobs (live_in q) (rec_store rec) ≤ capacity_of config q) →
  validate_recovered_state (rec_store rec) (rec_queued_jobs rec) (rec_retry_jobs rec) config = Ok ().
Proof using R.
  intros Hnd Hcap.
  assert (∀ id job, rec_store rec !! id = Some job → is_terminal (job_state job) = false →
    is_Some (config_queues config !! as_str (job_queue job))) as Hknown.
  { intros id job Hj Hl. specialize (Hcap (as_str (job_queue job))). unfold capacity_of in Hcap.
    pose proof (mcount_pos (live_in (as_str (job_queue job))) _ _ _ Hj ltac:(by apply live_in_spec)).
    destruct (config_queues config !! _); [done|]. cbn in Hcap. lia. }
  unfold validate_recovered_state.
  destruct (check_queued_total (config_queues config) (hash_iter (rec_queued_jobs rec)) ∅) as [l1 H1].
  { intros q ([q' ids] & -> & Hin%elem_of_hash_iter)%list_elem_of_fmap. cbn [fst].
    assert (ids ≠ []) as Hne.
    { eapply build_queued_nonempty. rewrite (run_state _ _ _ _ _ _ _ _ R) in Hin. exact Hin. }
    destruct ids as [|id ids]; [done|].
    destruct (proj1 (run_queued_elem R q' id Hnd)) as (job & Hj & [<- Hs]%in_queue_spec).
    { rewrite Hin. left. }
    eapply Hknown; [done|]. by rewrite Hs. }
  destruct (check_retry_total (rec_store rec) (config_queues config) (rec_retry_jobs rec) l1) as [l2 H2].
  { intros id job Hid Hj. apply (run_retry_elem R) in Hid as (job' & Hj' & Hs).
    eapply Hknown; [done|]. simplify_eq. by rewrite Hs. }
  rewrite H1. cbn [rbind]. rewrite H2. cbn [rbind]. apply check_capacity_total.
  intros q n cap Hin%elem_of_hash_iter Hq.
  apply check_queued_ok in H1 as [_ H1]; [|apply hash_iter_NoDup_fst].
  rewrite (list_to_map_proper (hash_iter (rec_queued_jobs rec)) (map_to_list (rec_queued_jobs rec))),
    list_to_map_to_list in H1 by (apply hash_iter_NoDup_fst || apply hash_iter_perm).
  apply check_retry_ok in H2 as [_ H2]. specialize (H1 q). specialize (H2 q). specialize (Hcap q).
  rewrite Hin, H1, lookup_empty, <-(run_retry_count R) in H2. cbn in H2.
  rewrite (live_count _ _ (run_no_running R)) in Hcap. unfold capacity_of in Hcap. rewrite Hq in Hcap. cbn in Hcap.
  rewrite (mcount_list (in_queue q Queued) _ (default [] (rec_queued_jobs rec !! q))) in Hcap; [lia| |].
  - eapply sublist_NoDup; [exact Hnd|by apply (run_queued_sublist R)].
  - intros id. by apply (run_queued_elem R).
Qed.
End total.

(** ** Counters *)

(** The tracker has at most one running job per record. *)
Lemma running_jobs_bound rs : (size (running_jobs (track RecoveryTracker_new rs)) ≤ length rs)%nat.
Proof.
  assert (∀ t, size (running_jobs (track t rs)) ≤ size (running_jobs t) + length rs)%nat as Hgen.
  { induction rs as [|r rs IH]; intros t; cbn [length]; [cbn; lia|].
    change (track t (r :: rs)) with (track (track_record t r) rs). specialize (IH (track_record t r)).
    assert (size (running_jobs (track_record t r)) ≤ S (size (running_jobs t)))%nat; [|lia].
    destruct r; cbn [track_record running_jobs]; try lia;
      rewrite ?map_size_insert, ?map_size_delete; case_match; cbn; lia. }
  specialize (Hgen RecoveryTracker_new). cbn [RecoveryTracker_new running_jobs] in Hgen.
  by rewrite map_size_empty in Hgen.
Qed.

Lemma reconcile_bound `{HashIter} now rs recs :
  reconcile_running_jobs now (replay ∅ rs) (track RecoveryTracker_new rs) = Ok recs →
  (length recs ≤ length rs)%nat.
Proof.
  intros [= <-]. etrans; [|apply (running_jobs_bound rs)].
  assert (∀ l, length (omap (reconcile_job now (replay ∅ rs)) l) ≤ length l)%nat as Hl.
  { induction l as [|e l IH]; cbn; [done|]. destruct (reconcile_job now _ e); cbn; lia. }
  etrans; [apply Hl|]. rewrite hash_iter_perm, length_map_to_list. done.
Qed.

(** The records of a file that fits into [u64::MAX] bytes leave room for as many
    more. *)
Lemma records_bound `{W : Wire} file rs n t :
  zlen file ≤ u64_max → scan_wal file = Ok (scan_result rs n t) → 18 * zlen rs ≤ u64_max.
Proof.
  intros Hlen Hscan. destruct (decide (file = [])) as [->|Hne].
  { cbn in Hscan. injection Hscan as <- _ _. cbn. unfold u64_max. lia. }
  destruct (repaired_file _ _ Hne Hscan) as (rs' & n' & t' & content & Heq & _ & Hp & _ & Hpre).
  assert (rs' = rs) as -> by (unfold scan_result in *; congruence).
  apply frames_prefix_len in Hp. apply prefix_length in Hpre. rewrite length_app in Hpre.
  unfold FRAME_OVERHEAD in Hp. lia.
Qed.

(** ** The whole recovery *)

(** The serializer accepts a record and the codec its size. *)
Definition serializes `{W : Wire} (r : WalRecord) : Prop :=
  ∃ bs, to_allocvec r = Ok bs ∧ zlen bs ≤ MAX_RECORD_SIZE.

(** The records that a recovery of [file] will write. *)
Definition reconciliation `{W : Wire} `{HashIter} (now : UnixMillis) (file : list byte) : list WalRecord :=
  match scan_wal file with
  | Ok scan =>
      match reconcile_running_jobs now (replay ∅ (scan_records scan))
              (track RecoveryTracker_new (scan_records scan)) with
      | Ok recs => recs
      | Err _ => []
      end
  | Err _ => []
  end.

Lemma write_reconciliation_total `{W : Wire} file seq recs :
  Forall serializes recs → seq + zlen recs ≤ u64_max →
  ∃ r, write_reconciliation file seq recs = Ok r.
Proof.
  intros Hr. revert file seq; induction Hr as [|r recs (bs & Hbs & Hlen) _ IH]; intros file seq Hseq;
    cbn [write_reconciliation length] in *; [by eexists|].
  unfold frame_encode. cbn [frame_record]. rewrite Hbs. cbn [map_err rbind].
  destruct (Z.ltb_spec MAX_RECORD_SIZE (zlen bs)); [lia|]. cbn [rbind].
  rewrite u64_checked_incr_lt by lia. cbn [ok_or rbind]. apply IH. lia.
Qed.

(** [recover] does its work and then validates. *)
Lemma recover_total `{W : Wire} `{HashIter} now file rs n t :
  file ≠ [] → scan_wal file = Ok (scan_result rs n t) → zlen file ≤ u64_max →
  max_lease_epoch (track RecoveryTracker_new rs) < u64_max →
  Forall serializes (reconciliation now file) →
  ∃ rec file' recs content b, recovery_run now file rec file' rs recs content b
    ∧ ∀ config, recover now false (Some file) config =
        (try _ := validate_recovered_state (rec_store rec) (rec_queued_jobs rec) (rec_retry_jobs rec) config in
         Ok (rec, file')).
Proof.
  intros Hne Hscan Hlen Hep Hser. pose proof (records_bound _ _ _ _ Hlen Hscan) as Hrs.
  unfold reconciliation in Hser. rewrite Hscan in Hser. cbn [scan_result scan_records] in Hser.
  destruct (reconcile_running_jobs now (replay ∅ rs) (track RecoveryTracker_new rs)) as [recs|] eqn:Hrecs; [|done].
  pose proof (reconcile_bound _ _ _ Hrecs) as Hb.
  destruct (repaired_file _ _ Hne Hscan) as (rs' & n' & t' & content & Heq & Hn & Hp & Hf & Hpre).
  assert (rs' = rs ∧ n' = n ∧ t' = t) as (-> & -> & ->)
    by (unfold scan_result in Heq; assert (Z.of_nat n' = Z.of_nat n) by congruence; split_and!; [congruence|lia|congruence]).
  destruct (write_reconciliation_total (header_encode WalHeader_new ++ content) (zlen rs + 1) recs Hser)
    as [[file1 seq1] Hw]; [unfold u64_max in *; lia|].
  pose proof (write_reconciliation_ok _ _ _ _ _ Hw) as (b & Hbb & -> & -> & Hle).
  eexists _, _, recs, content, b. split.
  - split; try done; [by eauto|unfold u64_max in *; lia|lia].
  - intros config. unfold recover. change (default [] (Some file)) with file.
    destruct (Nat.eqb_spec (length file) 0) as [H0|_]; [by apply nil_length_inv in H0|].
    rewrite Hscan. cbn [rbind scan_result had_truncated_tail last_valid_offset scan_records last_sequence].
    rewrite Hf, replay_loop_eq. cbn [rbind].
    rewrite u64_checked_incr_lt by (unfold u64_max in *; lia). cbn [ok_or rbind].
    rewrite u64_checked_incr_lt by lia. cbn [ok_or rbind]. rewrite Hrecs. cbn [rbind]. rewrite Hw. cbn [rbind].
    rewrite replay_loop_eq. cbn [rbind]. rewrite <-replay_app, <-track_app, <-foldl_app.
    cbn [rec_store rec_queued_jobs rec_retry_jobs].
    replace (zlen rs + zlen recs + 1) with (zlen rs + 1 + zlen recs) by lia. by rewrite app_assoc.
Qed.
