(* ===== verification/LogCounts.v ===== *)
(** * Counting the records of a log

    In a log that was written by a coordinator every submission makes a job and
    every terminal record ends one: counting records is counting jobs.  The
    counters that recovery starts the statistics from are therefore exact. *)

From S2P Require Import Prelude Types Config Store Codec ConcreteWire Scanner Writer.
From S2P Require Import Recovery RecoveryProofs.

(** The number of records that move a job to the state [s]. *)
Definition records_to (s : JobState) (rs : list WalRecord) : Z :=
  zlen (filter (λ r, record_target r = s) rs).

Lemma records_to_app s rs rs' : records_to s (rs ++ rs') = records_to s rs + records_to s rs'.
Proof. unfold records_to. rewrite filter_app, length_app. lia. Qed.

Lemma records_to_snoc s rs r :
  records_to s (rs ++ [r]) = records_to s rs + b2z (bool_decide (record_target r = s)).
Proof.
  rewrite records_to_app. f_equal. unfold records_to. rewrite filter_cons, filter_nil.
  case_decide as Hs; [by rewrite bool_decide_true|by rewrite bool_decide_false].
Qed.

Lemma records_to_le s rs : 0 ≤ records_to s rs ≤ zlen rs.
Proof. unfold records_to. pose proof (length_filter (λ r, record_target r = s) rs). lia. Qed.

(** The log has one submission per job of [st] and one terminal record per job
    that is over. *)
Definition logged_counts (st : MemoryStore) (rs : list WalRecord) : Prop :=
  records_to Queued rs = Z.of_nat (size st)
  ∧ ∀ s, is_terminal s = true → records_to s rs = count_jobs (has_state s) st.

(** The record is the submission of a new job, or is about one that is not over. *)
Definition applicable (st : MemoryStore) (r : WalRecord) : Prop :=
  if is_submit r then st !! record_job_id r = None
  else ∃ job, st !! record_job_id r = Some job ∧ is_terminal (job_state job) = false.

Lemma logged_counts_nil : logged_counts ∅ [].
Proof. split; [done|]. intros s _. by rewrite mcount_empty. Qed.

(** [st'] is [st] after the record. *)
Lemma logged_counts_step st st' rs r :
  logged_counts st rs → applicable st r →
  (∀ id, st' !! id = if decide (id = record_job_id r) then record_effect r (st !! id) else st !! id) →
  logged_counts st' (rs ++ [r]).
Proof.
  intros [Hsub Hter] Happ Hst'. unfold applicable in Happ.
  assert (∃ job', record_effect r (st !! record_job_id r) = Some job' ∧ job_state job' = record_target r
                  ∧ st' = <[record_job_id r := job']> st) as (job' & Heff & Hs' & ->).
  { destruct (record_effect r (st !! record_job_id r)) as [job'|] eqn:Heff.
    - exists job'. split; [done|]. split; [by eapply record_effect_state|]. apply map_eq. intros id.
      rewrite Hst', lookup_insert. repeat case_decide; subst; congruence.
    - exfalso. destruct r; cbn in *; try done; destruct Happ as (job & Hj & _); by rewrite Hj in Heff. }
  destruct (is_submit r) eqn:Hr.
  - assert (record_target r = Queued) as Ht by by destruct r.
    split; [|intros s Hs]; rewrite records_to_snoc, Ht.
    + rewrite map_size_insert_None, Hsub by done. rewrite bool_decide_true by done. cbn [b2z]. lia.
    + rewrite mcount_new by done. change (has_state s job') with (bool_decide (job_state job' = s)).
      rewrite Hs', Ht. by rewrite Hter.
  - destruct Happ as (job & Hj & Hlive).
    assert (record_target r ≠ Queued) as Ht by by destruct r.
    split; [|intros s Hs]; rewrite records_to_snoc.
    + rewrite map_size_insert_Some, Hsub by (by eexists). rewrite bool_decide_false by done. cbn [b2z]. lia.
    + rewrite (mcount_update _ _ _ _ _ Hj), Hter by done. change (has_state s job') with (bool_decide (job_state job' = s)).
      change (has_state s job) with (bool_decide (job_state job = s)). rewrite Hs'.
      rewrite (bool_decide_false (job_state job = s)) by congruence. cbn [b2z]. lia.
Qed.

Lemma logged_counts_replay st rs r :
  logged_counts st rs → applicable st r → logged_counts (replay_record st r) (rs ++ [r]).
Proof. intros Hc Ha. eapply logged_counts_step; [done..|]. intros id. apply replay_record_eq. Qed.

(** Only the size and the jobs that are over matter. *)
Lemma logged_counts_proper st st' rs :
  (∀ id, option_Forall2 (λ job job', job_state job = job_state job'
           ∨ is_terminal (job_state job) = false ∧ is_terminal (job_state job') = false)
         (st !! id) (st' !! id)) →
  logged_counts st rs → logged_counts st' rs.
Proof.
  intros Hrel [Hsub Hter].
  assert (dom st' = dom st) as Hdom.
  { apply set_eq. intros id. rewrite !elem_of_dom. specialize (Hrel id). inversion Hrel; split; by intros []. }
  split; [by rewrite Hsub, <-!(size_dom (D := gset JobId)), Hdom|].
  intros s Hs. rewrite Hter by done.
  assert (∀ (m m' : MemoryStore) id v, option_Forall2 (λ job job', job_state job = job_state job'
           ∨ is_terminal (job_state job) = false ∧ is_terminal (job_state job') = false) (m !! id) (m' !! id) →
          m !! id = Some v → has_state s v = true → ∃ v', m' !! id = Some v' ∧ has_state s v' = true) as Hone.
  { intros m m' id v Hr Hv Hsv. rewrite Hv in Hr. apply bool_decide_eq_true in Hsv.
    inversion Hr as [x y Hxy|]; subst. exists y. split; [done|]. apply bool_decide_true.
    destruct Hxy as [Hxy|[Hxy _]]; congruence. }
  apply Z.le_antisymm; apply mcount_le; intros id v; apply Hone; [done|].
  specialize (Hrel id). inversion Hrel as [x y Hxy|]; constructor. naive_solver.
Qed.

(** ** Reconciliation *)

Lemma reconcile_job_id now st0 e r : reconcile_job now st0 e = Some r → record_job_id r = e.1.
Proof. destruct e as [i [l n]]. cbn. intros ?. repeat case_match; by simplify_eq. Qed.

Lemma reconcile_applicable now st0 st e r :
  reconcile_job now st0 e = Some r → st !! e.1 = st0 !! e.1 → applicable st r.
Proof.
  destruct e as [i [l n]]. cbn. intros Hr Heq. unfold store_get in Hr. rewrite <-Heq in Hr.
  unfold applicable. destruct (st !! i) as [job|] eqn:Hi; [|done].
  destruct (job_state job) eqn:Hs; try done. case_match; simplify_eq; cbn; exists job; by rewrite Hs.
Qed.

Lemma logged_counts_reconcile_list now st0 st rs es :
  NoDup es.*1 → (∀ i, i ∈ es.*1 → st !! i = st0 !! i) → logged_counts st rs →
  logged_counts (replay st (omap (reconcile_job now st0) es)) (rs ++ omap (reconcile_job now st0) es).
Proof.
  revert st rs; induction es as [|e es IH]; intros st rs Hnd Heq Hc; [by rewrite app_nil_r|].
  cbn [fmap list_fmap] in *. apply NoDup_cons in Hnd as [Hni Hnd]. cbn [omap list_omap].
  destruct (reconcile_job now st0 e) as [r|] eqn:Hr; [|apply IH; [done| |done]; intros i Hi; apply Heq; by right].
  rewrite (cons_middle r rs), app_assoc. apply IH; [done| |].
  - intros i Hi. rewrite replay_record_eq, (reconcile_job_id _ _ _ _ Hr).
    rewrite decide_False by (intros ->; done). apply Heq. by right.
  - apply logged_counts_replay; [done|]. eapply reconcile_applicable; [done|]. apply Heq. by left.
Qed.

Lemma logged_counts_reconcile `{HashIter} now rs recs :
  logged_counts (replay ∅ rs) rs →
  reconcile_running_jobs now (replay ∅ rs) (track RecoveryTracker_new rs) = Ok recs →
  logged_counts (replay ∅ (rs ++ recs)) (rs ++ recs).
Proof.
  intros Hc [= <-]. rewrite replay_app. apply logged_counts_reconcile_list; [apply hash_iter_NoDup_fst|done|done].
Qed.

(** ** The counters of [recover] *)

Lemma counts_of_records rs :
  zlen rs ≤ u64_max →
  foldl count_record (mkRecoveryCounts 0 0 0 0 0) rs =
    mkRecoveryCounts (records_to Queued rs) (records_to Completed rs) (records_to Dead rs)
      (records_to Cancelled rs) (records_to RetryWaiting rs).
Proof.
  induction rs as [|r rs IH] using rev_ind; intros Hlen; [done|].
  rewrite length_app in Hlen. cbn [length] in Hlen. rewrite foldl_snoc, IH by lia. rewrite !records_to_snoc.
  pose proof (λ s, records_to_le s rs) as Hle.
  pose proof (Hle Queued). pose proof (Hle Completed). pose proof (Hle Dead).
  pose proof (Hle Cancelled). pose proof (Hle RetryWaiting).
  destruct r; cbn; rewrite ?u64_incr_small by lia; rewrite ?Z.add_0_r; done.
Qed.
