(* ===== verification/Cli.v ===== *)
(** * The command line tool ([bin/rdq.rs])

    [demo] starts a runtime with two queues, submits a fixed mix of jobs, waits
    for them and prints what became of them; [inspect] and [verify] scan the log
    of a directory that nobody else uses.  The runtime is seen through the
    operations that the tool calls ([RtOps]); a directory is the bytes of
    [wal.log], the lock, and the answers of the operating system. *)

From S2P Require Import Prelude Text Types Config Codec Scanner.

(** The subcommand; the directories of [inspect] and [verify] are [DataDir]s. *)
Inductive Commands :=
| Demo (jobs workers capacity : Z) (data_dir : option string)
| Inspect
| Verify.

(** ** Demo payloads *)

Inductive DemoPayload :=
| Demo_Success (id : Z)
| Demo_RetryOnce (id : Z)
| Demo_Fatal (id : Z).

Definition demo_encode (p : DemoPayload) : list byte :=
  match p with
  | Demo_Success id => bytes_of "success:" ++ display id
  | Demo_RetryOnce id => bytes_of "retry-once:" ++ display id
  | Demo_Fatal id => bytes_of "fatal:" ++ display id
  end.

Definition demo_decode (payload : list byte) : option DemoPayload :=
  s ← from_utf8 payload;
  match strip_prefix (bytes_of "success:") s with
  | Some id => Demo_Success <$> parse_u32 id
  | None =>
      match strip_prefix (bytes_of "retry-once:") s with
      | Some id => Demo_RetryOnce <$> parse_u32 id
      | None =>
          match strip_prefix (bytes_of "fatal:") s with
          | Some id => Demo_Fatal <$> parse_u32 id
          | None => None
          end
      end
  end.

(** The handler of the demo: the set of identifiers that failed once is behind a
    mutex, so one call is one step. *)
Definition demo_handler (seen : gset Z) (payload : list byte) : result unit JobError * gset Z :=
  match default (Demo_Success 0) (demo_decode payload) with
  | Demo_Success _ => (Ok (), seen)
  | Demo_RetryOnce id =>
      if decide (id ∈ seen) then (Ok (), seen)
      else (Err (Retryable_error "simulated transient failure"), {[id]} ∪ seen)
  | Demo_Fatal _ => (Err (Fatal_error "simulated fatal error"), seen)
  end.

(** ** The environment of the tool *)

(** The errors that [main] returns. *)
Inductive CliError :=
| Cli_queue (e : Error)
| Cli_wal (e : WalError)
| Cli_io (msg : string)
| Cli_text (msg : string).

(** How a command ends: [main] returns, with success or with an error, or the
    process exits with a code after a message on the error stream. *)
Inductive CliExit :=
| Done
| Exited (code : Z) (message : string) (cause : option WalError)
| Failed (e : CliError).

(** The lines printed on the standard output and the end. *)
Definition CliOutcome : Type := list string * CliExit.

(** A runtime, as its client sees it; the state is everything outside. *)
Record RtOps (S : Type) := mkRtOps {
  rt_start : RuntimeConfig → (gset Z → list byte → result unit JobError * gset Z) → Result S;
  rt_submit : QueueName → JobSpec → S → Result JobRecord * S;
  rt_status : JobId → S → Result JobRecord * S;
  rt_stats : S → Result StatsSnapshot * S;
  rt_shutdown : S → S;
  (** [Instant::now] and [sleep] *)
  rt_now : S → Z * S;
  rt_sleep : Z → S → S;
}.
Arguments rt_start {S}.
Arguments rt_submit {S}.
Arguments rt_status {S}.
Arguments rt_stats {S}.
Arguments rt_shutdown {S}.
Arguments rt_now {S}.
Arguments rt_sleep {S}.

(** [format!("{n}")] and [format!("..{n}..")] *)
Definition show (n : Z) : string := String.string_of_list_byte (display n).

Definition line (label : string) (n : Z) : string := String.append label (show n).

(** ** [demo] *)

Definition demo_storage (data_dir : option string) : StorageConfig :=
  match data_dir with
  | Some path => WalStorage path
  | None => MemoryStorage
  end.

Definition demo_config (workers capacity : Z) (data_dir : option string)
    (default_q priority_q : QueueName) : RuntimeConfig :=
  let queues := [mkQueueConfig default_q capacity; mkQueueConfig priority_q (capacity / 2)] in
  with_shutdown_timeout
    (with_visibility_timeout
       (with_retry
          (with_worker_concurrency (with_storage (RuntimeConfig_new queues 64) (demo_storage data_dir)) workers)
          (RetryConfig_new (duration_from_millis 100) (duration_from_millis 500)))
       (from_secs 30))
    (from_secs 5).

(** The job with number [i], and whether it adds to [expected_dead]. *)
Definition demo_job (i : Z) (default_queue priority_queue : QueueName) : DemoPayload * QueueName * Z :=
  match i mod 10 with
  | 0 => (Demo_Fatal i, default_queue, 1)
  | 1 | 2 => (Demo_RetryOnce i, priority_queue, 0)
  | _ => (Demo_Success i, default_queue, 0)
  end.

Section demo.
Context {S : Type} (rt : RtOps S).

(** [for i in 0..job_count]: the identifiers and [expected_dead]. *)
Fixpoint demo_submit (idxs : list Z) (default_queue priority_queue : QueueName)
    (job_ids : list JobId) (expected_dead : Z) (s : S) : Result (list JobId * Z * S) :=
  match idxs with
  | [] => Ok (job_ids, expected_dead, s)
  | i :: idxs =>
      let '(payload, queue, dead) := demo_job i default_queue priority_queue in
      let spec := JobSpec_new (demo_encode payload) in
      match rt_submit rt queue spec s with
      | (Ok record, s) =>
          demo_submit idxs default_queue priority_queue (job_ids ++ [job_id record])
            (u32_wrap (expected_dead + dead)) s
      | (Err e, _) => Err e
      end
  end.

(** One round of status requests: completed, dead, cancelled and [all_done]. *)
Fixpoint demo_round (job_ids : list JobId) (counts : Z * Z * Z) (all_done : bool) (s : S)
    : Z * Z * Z * bool * S :=
  match job_ids with
  | [] => (counts, all_done, s)
  | id :: job_ids =>
      let '(c, d, x) := counts in
      match rt_status rt id s with
      | (Ok record, s) =>
          match job_state record with
          | Completed => demo_round job_ids (u32_wrap (c + 1), d, x) all_done s
          | Dead => demo_round job_ids (c, u32_wrap (d + 1), x) all_done s
          | Cancelled => demo_round job_ids (c, d, u32_wrap (x + 1)) all_done s
          | _ => demo_round job_ids (c, d, x) false s
          end
      | (Err _, s) => demo_round job_ids (c, d, x) all_done s
      end
  end.

(** The loop that waits for the jobs; the flag says that it gave up.  [None] is a
    loop that is not over after [fuel] rounds. *)
Fixpoint demo_wait (fuel : nat) (job_ids : list JobId) (timeout : Z) (s : S)
    : option (Z * Z * Z * bool * S) :=
  match fuel with
  | O => None
  | Datatypes.S fuel =>
      let '(counts, all_done, s) := demo_round job_ids (0, 0, 0) true s in
      if (all_done : bool) then Some (counts, false, s)
      else
        let '(now, s) := rt_now rt s in
        if timeout <? now then Some (counts, true, s)
        else demo_wait fuel job_ids timeout (rt_sleep rt (duration_from_millis 50) s)
  end.

(** A round every fifty milliseconds for thirty seconds, and the last one. *)
Definition DEMO_ROUNDS : nat := 602.

(** The lines printed before the runtime starts, and after it was asked for the
    statistics. *)
Definition storage_desc (data_dir : option string) : string :=
  match data_dir with
  | Some path => String.append path "/wal.log"
  | None => "memory"
  end.

Definition demo_banner (job_count workers capacity : Z) (data_dir : option string) : list string :=
  ["Starting demo..."; line "  Jobs: " job_count; line "  Workers: " workers;
   line "  Capacity: " capacity; String.append "  Storage: " (storage_desc data_dir); EmptyString].

Definition demo_results (counts : Z * Z * Z) (retried expected_dead : Z) : list string :=
  let '(completed, dead, cancelled) := counts in
  [EmptyString; "Results:"; line "  Completed: " completed; line "  Dead: " dead;
   line "  Cancelled: " cancelled; line "  Retries: " retried; EmptyString]
  ++ (if negb (dead =? expected_dead) then
        [String.append (line "Note: Expected " expected_dead)
           (String.append (line " dead jobs, got " dead) " (may vary with recovery state)")]
      else []).

(** What [run_demo] does once the runtime runs; [out] is printed already. *)
Definition demo_body (job_count : Z) (default_queue priority_queue : QueueName) (out : list string) (s : S)
    : option CliOutcome :=
  match demo_submit (seqZ 0 job_count) default_queue priority_queue [] 0 s with
  | Err e => Some (out, Failed (Cli_queue e))
  | Ok (job_ids, expected_dead, s) =>
      let out := out ++ [String.append (line "Submitted " job_count) " jobs"] in
      let '(now, s) := rt_now rt s in
      let timeout := now + from_secs 30 in
      match demo_wait DEMO_ROUNDS job_ids timeout s with
      | None => None
      | Some (counts, timed_out, s) =>
          let out := if (timed_out : bool)
                     then out ++ ["Warning: timeout waiting for jobs to complete"] else out in
          match rt_stats rt s with
          | (Err e, _) => Some (out, Failed (Cli_queue e))
          | (Ok stats, s) =>
              let out := out ++ demo_results counts (snap_retried stats) expected_dead in
              let s := rt_shutdown rt s in
              Some (out ++ ["Demo complete."], Done)
          end
      end
  end.

(** [run_demo]; [mkdir] is the error of [create_dir_all], if there is one. *)
Definition run_demo (job_count workers capacity : Z) (data_dir : option string) (mkdir : option string)
    : option CliOutcome :=
  match data_dir, mkdir with
  | Some _, Some msg => Some ([], Failed (Cli_io msg))
  | _, _ =>
      let out := demo_banner job_count workers capacity data_dir in
      match QueueName_new "default", QueueName_new "priority" with
      | Some default_q, Some priority_q =>
          match rt_start rt (demo_config workers capacity data_dir default_q priority_q) demo_handler with
          | Err e => Some (out, Failed (Cli_queue e))
          | Ok s => demo_body job_count default_q priority_q out s
          end
      | _, _ => Some (out, Failed (Cli_text "invalid queue name"))
      end
  end.
End demo.

(** ** [inspect] and [verify] *)

(** A data directory as the tool finds it. *)
Record DataDir := mkDataDir {
  (** how the path of [wal.log] is printed *)
  dir_wal_path : string;
  (** [wal.log] *)
  dir_wal : option (list byte);
  (** whether the file [LOCK] exists, and whether another process holds it *)
  dir_lock_file : bool;
  dir_locked : bool;
  (** the answer of the operating system to opening [LOCK] *)
  dir_lock_open : option string;
}.

(** Opening [LOCK] with [create(true)]: the file exists afterwards. *)
Definition touch_lock (d : DataDir) : DataDir :=
  mkDataDir (dir_wal_path d) (dir_wal d) true (dir_locked d) (dir_lock_open d).

(** The guards that both commands start with: the log exists, [LOCK] opens and
    nobody holds it. *)
Definition with_locked_wal (d : DataDir) (body : list byte → CliOutcome) : CliOutcome * DataDir :=
  match dir_wal d with
  | None => (([], Exited 1 (String.append "Error: WAL file not found at " (dir_wal_path d)) None), d)
  | Some file =>
      match dir_lock_open d with
      | Some msg => (([], Failed (Cli_io msg)), d)
      | None =>
          let d := touch_lock d in
          if dir_locked d
          then (([], Exited 1 "Error: WAL is currently in use by another process" None), d)
          else (body file, d)
      end
  end.

(** The six counters of [run_inspect]. *)
Record TypeCounts := mkTypeCounts {
  n_submitted : Z;
  n_leased : Z;
  n_completed : Z;
  n_dead : Z;
  n_cancelled : Z;
  n_retry_scheduled : Z;
}.

Definition inspect_count (c : TypeCounts) (record : WalRecord) : TypeCounts :=
  let 'mkTypeCounts s l c d x r := c in
  match record with
  | JobSubmitted _ _ _ _ => mkTypeCounts (u64_wrap (s + 1)) l c d x r
  | JobLeased _ _ _ _ => mkTypeCounts s (u64_wrap (l + 1)) c d x r
  | JobCompleted _ _ _ => mkTypeCounts s l (u64_wrap (c + 1)) d x r
  | JobDead _ _ _ => mkTypeCounts s l c (u64_wrap (d + 1)) x r
  | JobCancelled _ _ => mkTypeCounts s l c d (u64_wrap (x + 1)) r
  | JobRetryScheduled _ _ _ _ => mkTypeCounts s l c d x (u64_wrap (r + 1))
  end.

Definition count_by_type (records : list WalRecord) : TypeCounts :=
  foldl inspect_count (mkTypeCounts 0 0 0 0 0 0) records.

Definition inspect_lines (path : string) (file_size : Z) (r : ScanResult) : list string :=
  let c := count_by_type (scan_records r) in
  [String.append "WAL Inspection: " path; EmptyString;
   "Format:"; line "  Version: " WAL_VERSION;
   String.append (line "  File size: " file_size) " bytes"; EmptyString;
   "Records:"; line "  Total: " (zlen (scan_records r));
   line "  Last sequence: " (last_sequence r); EmptyString;
   "By type:"; line "  JobSubmitted: " (n_submitted c); line "  JobLeased: " (n_leased c);
   line "  JobCompleted: " (n_completed c); line "  JobDead: " (n_dead c);
   line "  JobCancelled: " (n_cancelled c); line "  JobRetryScheduled: " (n_retry_scheduled c); EmptyString;
   String.append "Tail: "
     (if had_truncated_tail r then "truncated (crash tail detected)" else "clean")].

Section tools.
Context `{W : Wire}.

Definition run_inspect (d : DataDir) : CliOutcome * DataDir :=
  with_locked_wal d (λ file,
    let file_size := zlen file in
    match scan_wal file with
    | Err e => ([], Failed (Cli_wal e))
    | Ok scan_result => (inspect_lines (dir_wal_path d) file_size scan_result, Done)
    end).

Definition run_verify (d : DataDir) : CliOutcome * DataDir :=
  with_locked_wal d (λ file,
    match scan_wal file with
    | Ok r =>
        (["WAL valid"; line "Records: " (zlen (scan_records r)); line "Last sequence: " (last_sequence r)]
         ++ (if had_truncated_tail r
             then ["Warning: truncated tail detected (recoverable on startup)"] else []), Done)
    | Err e => ([], Exited 1 "WAL verification failed: " (Some e))
    end).

(** [main]; [d] is the directory given to [inspect] and [verify]; [demo] changes its own
    through the runtime. *)
Definition cli_main {S} (rt : RtOps S) (mkdir : option string) (d : DataDir) (command : Commands)
    : option (CliOutcome * DataDir) :=
  match command with
  | Demo jobs workers capacity data_dir =>
      match run_demo rt jobs workers capacity data_dir mkdir with
      | Some out => Some (out, d)
      | None => None
      end
  | Inspect => Some (run_inspect d)
  | Verify => Some (run_verify d)
  end.
End tools.

(** ** Payloads *)

Definition demo_id (p : DemoPayload) : Z :=
  match p with Demo_Success id | Demo_RetryOnce id | Demo_Fatal id => id end.

Lemma demo_encode_utf8 p : 0 ≤ demo_id p → utf8_valid (demo_encode p) = true.
Proof.
  intros Hp. apply ascii_utf8. destruct p; cbn [demo_encode demo_id] in *;
    (apply Forall_app; split; [|by apply display_ascii]);
    repeat constructor; vm_compute; reflexivity.
Qed.

(** A demo payload is read back as it was written, and the handler decides by
    it: the identifiers are [u32]s. *)
Lemma demo_payload_roundtrip (p : DemoPayload) :
  u32_range (demo_id p) → demo_decode (demo_encode p) = Some p.
Proof.
  intros Hp. unfold demo_decode, from_utf8. rewrite demo_encode_utf8 by (unfold u32_range in Hp; lia).
  cbn [mbind option_bind].
  destruct p as [id|id|id]; cbn [demo_encode demo_id] in *;
    rewrite ?strip_prefix_app, ?parse_display by done; done.
Qed.

(** ** The wait of [demo] ends *)

(** What the loop relies on of the runtime and of the clock: time does not run
    backwards, and a sleep takes at least as long as it was asked to. *)
Class ClockLaws {S : Type} (rt : RtOps S) (clock : S → Z) : Prop := {
  now_reads s : (rt_now rt s).1 = clock s;
  now_mono s : clock s ≤ clock (rt_now rt s).2;
  status_mono id s : clock s ≤ clock (rt_status rt id s).2;
  sleep_advances d s : 0 ≤ d → clock s + d ≤ clock (rt_sleep rt d s);
}.

Section clock.
Context {S : Type} (rt : RtOps S) (clock : S → Z) `{!ClockLaws rt clock}.

Lemma demo_round_mono ids counts all_done s : clock s ≤ clock (demo_round rt ids counts all_done s).2.
Proof.
  revert counts all_done s; induction ids as [|id ids IH]; intros [[c d] x] all_done s; cbn [demo_round]; [done|].
  pose proof (status_mono id s) as Hm. destruct (rt_status rt id s) as [[record|e] s']; cbn in Hm;
    [destruct (job_state record)|]; etrans; [apply Hm|apply IH|..]; (apply Hm || apply IH).
Qed.

(** A round that does not end the loop brings the clock fifty milliseconds
    closer to the timeout. *)
Lemma demo_wait_ends fuel ids timeout s :
  timeout < clock s + duration_from_millis 50 * Z.of_nat fuel →
  is_Some (demo_wait rt (Datatypes.S fuel) ids timeout s).
Proof.
  revert s; induction fuel as [|fuel IH]; intros s Ht; cbn [demo_wait];
    pose proof (demo_round_mono ids (0, 0, 0) true s) as Hr;
    destruct (demo_round rt ids (0, 0, 0) true s) as [[counts []] s1]; cbn in Hr; [by eauto| |by eauto|];
    pose proof (now_reads s1) as Hn; pose proof (now_mono s1) as Hm;
    destruct (rt_now rt s1) as [now s2]; cbn in Hn, Hm; subst now;
    (destruct (Z.ltb_spec timeout (clock s1)); [by eauto|]); [lia|].
  apply IH. pose proof (sleep_advances (duration_from_millis 50) s2 ltac:(done)).
  rewrite Nat2Z.inj_succ, Z.mul_succ_r in Ht. lia.
Qed.

(** The end of a demo whose runtime started. *)
Definition demo_ended (o : option CliOutcome) : Prop :=
  ∃ out, o = Some (out ++ ["Demo complete."], Done) ∨ ∃ e, o = Some (out, Failed e).

Lemma demo_body_ends job_count dq pq out s : demo_ended (demo_body rt job_count dq pq out s).
Proof.
  unfold demo_body. destruct (demo_submit _ _ _ _ _ _ _) as [[[ids dead] s1]|e]; [|by exists out; eauto].
  pose proof (now_reads s1) as Hn. pose proof (now_mono s1) as Hm.
  destruct (rt_now rt s1) as [now s2]; cbn in Hn, Hm; subst now.
  destruct (demo_wait_ends 601 ids (clock s1 + from_secs 30) s2) as [[[counts to] s3] Hw].
  { unfold from_secs, duration_from_millis, NANOS_PER_SEC, NANOS_PER_MILLI. lia. }
  change DEMO_ROUNDS with (Datatypes.S 601). rewrite Hw.
  destruct (rt_stats rt s3) as [[stats|e] s4]; [|by eexists; eauto].
  eexists. left. done.
Qed.
End clock.

(** [demo] always comes to its end: the wait for the jobs is over after 602
    rounds at most, whatever the runtime answers, and the command then prints its
    last line unless the runtime or the operating system refused a call. *)
Lemma run_demo_returns {S} (rt : RtOps S) (clock : S → Z) (Hc : ClockLaws rt clock)
    (job_count workers capacity : Z) (data_dir mkdir : option string) :
  demo_ended (run_demo rt job_count workers capacity data_dir mkdir).
Proof.
  unfold run_demo.
  repeat (case_match; try (by eexists; eauto)); eapply demo_body_ends; done.
Qed.

(** A runtime whose jobs stay queued, with a clock that only moves in a sleep. *)
Definition stuck_rt : RtOps Z := {|
  rt_start _ _ := Ok 0;
  rt_submit q spec s := (Ok (JobRecord_new (from_uuid 0) q spec (from_millis 0)), s);
  rt_status id s := (Ok (JobRecord_new id (mkQueueName "default") (JobSpec_new []) (from_millis 0)), s);
  rt_stats s := (Ok (mkStatsSnapshot 0 0 0 0 0 0 0 0 0 ∅), s);
  rt_shutdown s := s;
  rt_now s := (s, s);
  rt_sleep d s := s + d;
|}.

#[global] Instance stuck_rt_laws : ClockLaws stuck_rt id.
Proof. split; cbn; intros; lia. Qed.

(** On this runtime the loop gives up after thirty seconds and says so. *)
Example stuck_demo_warns :
  match run_demo stuck_rt 3 4 32 None None with
  | Some (out, Done) => bool_decide ("Warning: timeout waiting for jobs to complete" ∈ out) = true
  | _ => False
  end.
Proof. vm_compute. reflexivity. Qed.

(** The runtime accepts the configuration of [demo] exactly for a positive number
    of workers and a capacity of two or more: the second queue gets half of it. *)
Lemma demo_config_valid workers capacity data_dir :
  0 ≤ capacity →
  RuntimeConfig_validate
    (demo_config workers capacity data_dir (mkQueueName "default") (mkQueueName "priority")) = Ok ()
  ↔ workers ≠ 0 ∧ 2 ≤ capacity.
Proof.
  intros Hc. rewrite RuntimeConfig_validate_ok. cbn -[Z.div]. rewrite !Forall_cons, Forall_nil; cbn [qc_capacity].
  assert (capacity / 2 ≠ 0 ↔ 2 ≤ capacity) as ->.
  { pose proof (Z.div_mod capacity 2 ltac:(lia)). pose proof (Z.mod_pos_bound capacity 2 ltac:(lia)). lia. }
  split; [naive_solver|]. intros [??]. split_and!; try done; try lia.
  apply (bool_decide_unpack _). vm_compute. exact I.
Qed.
