(* ===== verification/RetryHeap.v ===== *)
(** * The retry queue ([BinaryHeap<RetryEntry>] of [coordinator.rs])

    [RetryEntry] is ordered by its monotonic deadline, reversed, so that the
    standard library's max-heap pops the earliest entry first.  The heap is an
    interface: which of several entries with the same deadline comes first is
    unspecified, and everything about the coordinator is proved from the laws
    alone.  A sorted list is an instance of it. *)

From S2P Require Import Prelude Types.

Record RetryEntry := mkRetryEntry {
  available_at : Z;
  wall_clock_available_at : UnixMillis;
  entry_job_id : JobId;
}.

#[global] Instance RetryEntry_eq_dec : EqDecision RetryEntry.
Proof. solve_decision. Defined.

(** [Ord::cmp]: the comparison of the deadlines, the other way round. *)
Definition retry_cmp (self other : RetryEntry) : comparison :=
  Z.compare (available_at other) (available_at self).

(** [BinaryHeap]: the operations the coordinator uses. *)
Class RetryHeap := {
  heap : Type;
  heap_new : heap;
  heap_push : RetryEntry → heap → heap;
  heap_peek : heap → option RetryEntry;
  heap_pop : heap → option (RetryEntry * heap);
  heap_elems : heap → list RetryEntry;
}.

(** What the standard library documents: a max-heap for [Ord]. *)
Class RetryHeapLaws (H : RetryHeap) : Prop := {
  heap_new_elems : heap_elems heap_new = [];
  heap_push_elems : ∀ e h, heap_elems (heap_push e h) ≡ₚ e :: heap_elems h;
  heap_peek_none : ∀ h, heap_peek h = None → heap_elems h = [];
  heap_peek_some : ∀ h e, heap_peek h = Some e →
    e ∈ heap_elems h ∧ ∀ e', e' ∈ heap_elems h → retry_cmp e e' ≠ Lt;
  heap_pop_peek : ∀ h e, heap_peek h = Some e → ∃ h', heap_pop h = Some (e, h');
  heap_pop_elems : ∀ h e h', heap_pop h = Some (e, h') → heap_elems h ≡ₚ e :: heap_elems h';
}.

(** The entry on top of the heap has the earliest deadline. *)
Lemma heap_peek_earliest `{H : RetryHeap} `{!RetryHeapLaws H} h e e' :
  heap_peek h = Some e → e' ∈ heap_elems h → available_at e ≤ available_at e'.
Proof.
  intros Hp He. destruct (heap_peek_some _ _ Hp) as [_ Hmax].
  specialize (Hmax _ He). unfold retry_cmp in Hmax.
  destruct (Z.compare_spec (available_at e') (available_at e)); [lia|done|lia].
Qed.

Lemma heap_pop_length `{H : RetryHeap} `{!RetryHeapLaws H} h e h' :
  heap_pop h = Some (e, h') → length (heap_elems h) = S (length (heap_elems h')).
Proof. intros Hp. by rewrite (heap_pop_elems _ _ _ Hp). Qed.

(** ** An instance: a list sorted by deadline *)

Fixpoint sorted_push (e : RetryEntry) (l : list RetryEntry) : list RetryEntry :=
  match l with
  | [] => [e]
  | e' :: l' =>
      match retry_cmp e e' with
      | Lt => e' :: sorted_push e l'
      | _ => e :: l
      end
  end.

(** A heap is a sorted list, packed with the proof that it is sorted. *)
Definition entry_le (e e' : RetryEntry) : bool := available_at e <=? available_at e'.
Definition is_sorted (l : list RetryEntry) : bool :=
  bool_decide (StronglySorted (λ e e', entry_le e e' = true) l).
Definition sorted_list : Type := { l : list RetryEntry | Is_true (is_sorted l) }.

Lemma is_sorted_spec l :
  Is_true (is_sorted l) ↔ StronglySorted (λ e e', entry_le e e' = true) l.
Proof. unfold is_sorted. apply bool_decide_spec. Qed.

Lemma sorted_push_perm e l : sorted_push e l ≡ₚ e :: l.
Proof.
  induction l as [|e' l IH]; cbn; [done|]. destruct (retry_cmp e e'); [done| |done].
  rewrite IH. apply Permutation_swap.
Qed.

Lemma sorted_push_sorted e l : Is_true (is_sorted l) → Is_true (is_sorted (sorted_push e l)).
Proof.
  rewrite !is_sorted_spec. induction 1 as [|e' l Hs IH Hall]; cbn; [repeat constructor|].
  unfold retry_cmp, entry_le in *. destruct (Z.compare_spec (available_at e') (available_at e)).
  - constructor; [by constructor|]. constructor; [lia|].
    eapply Forall_impl; [exact Hall|]. cbn. lia.
  - constructor; [done|]. rewrite sorted_push_perm. constructor; [lia|done].
  - constructor; [by constructor|]. constructor; [lia|].
    eapply Forall_impl; [exact Hall|]. cbn. lia.
Qed.

Lemma sorted_tail e l : Is_true (is_sorted (e :: l)) → Is_true (is_sorted l).
Proof. rewrite !is_sorted_spec. by inversion 1. Qed.

Definition sorted_pop (h : sorted_list) : option (RetryEntry * sorted_list) :=
  match h with
  | exist _ [] _ => None
  | exist _ (e :: l) Hs => Some (e, exist _ l (sorted_tail e l Hs))
  end.

Definition sorted_heap : RetryHeap := {|
  heap := sorted_list;
  heap_new := exist _ [] I;
  heap_push e h := exist _ (sorted_push e (proj1_sig h)) (sorted_push_sorted e _ (proj2_sig h));
  heap_peek h := head (proj1_sig h);
  heap_pop := sorted_pop;
  heap_elems h := proj1_sig h;
|}.

#[global] Instance sorted_heap_laws : RetryHeapLaws sorted_heap.
Proof.
  split; cbn.
  - done.
  - intros e h. apply sorted_push_perm.
  - by intros [[|e l] Hs].
  - intros [[|e l] Hs] e0; cbn; [done|]. intros [= <-]. split; [left|].
    intros e' He'. apply is_sorted_spec in Hs. inversion Hs as [|?? _ Hall]; subst.
    unfold retry_cmp, entry_le in *. apply elem_of_cons in He' as [->|He'].
    + by rewrite Z.compare_refl.
    + rewrite Forall_forall in Hall. specialize (Hall _ He').
      destruct (Z.compare_spec (available_at e') (available_at e)); lia || done.
  - intros [[|e l] Hs] e0; cbn; [done|]. intros [= <-]. by eexists.
  - intros [[|e l] Hs] e0 h'; cbn; [done|]. by intros [= <- <-].
Qed.
