(* ===== verification/Environment.v ===== *)
(** * The environment of the coordinator

    What the coordinator calls but does not own: the tokio semaphores behind the
    capacity of a queue, the two clocks, the UUID generator, the random source,
    the answers of the operating system to the writer, and the receivers of
    one-shot channels.  All of it is a parameter.

    An action of the coordinator is a state transformer that may panic.  Every
    question to the environment takes the next tick, so that two questions may
    have unrelated answers. *)

From S2P Require Import Prelude Types Config Codec Scanner Writer.

(** ** Semaphores ([tokio::sync::Semaphore]) *)

Inductive TryAcquireError := NoPermits | Closed.

Class Semaphores := {
  Semaphore : Type;
  sem_new : Z → Semaphore;
  (** [try_acquire_owned] *)
  sem_try_acquire : Semaphore → result unit TryAcquireError * Semaphore;
  (** dropping an [OwnedSemaphorePermit] *)
  sem_release : Semaphore → Semaphore;
  sem_close : Semaphore → Semaphore;
  (** [available_permits] *)
  sem_available : Semaphore → Z;
  sem_is_closed : Semaphore → bool;
}.

(** [Semaphore::MAX_PERMITS], [usize::MAX >> 3] on a 64-bit platform; a semaphore or
    a channel with more places panics when it is made. *)
Definition MAX_PERMITS : Z := Z.shiftr u64_max 3.

(** What tokio documents. *)
Class SemaphoresLaws (S : Semaphores) : Prop := {
  sem_new_spec : ∀ n, 0 ≤ n ≤ MAX_PERMITS → sem_available (sem_new n) = n ∧ sem_is_closed (sem_new n) = false;
  sem_try_acquire_spec : ∀ s,
    (sem_try_acquire s).1 =
      (if sem_is_closed s then Err Closed
       else if sem_available s <=? 0 then Err NoPermits else Ok ())
    ∧ sem_available (sem_try_acquire s).2 =
        sem_available s - (if is_ok (sem_try_acquire s).1 then 1 else 0)
    ∧ sem_is_closed (sem_try_acquire s).2 = sem_is_closed s;
  sem_release_spec : ∀ s,
    sem_available (sem_release s) = sem_available s + 1
    ∧ sem_is_closed (sem_release s) = sem_is_closed s;
  sem_close_spec : ∀ s,
    sem_available (sem_close s) = sem_available s ∧ sem_is_closed (sem_close s) = true;
}.

(** An instance: the number of free permits and whether it is closed. *)
Definition counting_semaphores : Semaphores := {|
  Semaphore := Z * bool;
  sem_new n := (n, false);
  sem_try_acquire '(n, c) :=
    if (c : bool) then (Err Closed, (n, c))
    else if n <=? 0 then (Err NoPermits, (n, c)) else (Ok (), (n - 1, c));
  sem_release '(n, c) := (n + 1, c);
  sem_close '(n, c) := (n, true);
  sem_available := fst;
  sem_is_closed := snd;
|}.

#[global] Instance counting_semaphores_laws : SemaphoresLaws counting_semaphores.
Proof.
  split; cbn.
  - done.
  - intros [n []]; cbn; [split_and!; lia || done|].
    destruct (n <=? 0); cbn; split_and!; lia || done.
  - by intros [n c].
  - by intros [n c].
Qed.

(** A permit is known by the semaphore it came from. *)
Abbreviation Permit := string (only parsing).
(** A one-shot sender and a cancellation token are known by a number. *)
Abbreviation Sender := N (only parsing).
Abbreviation CancellationToken := N (only parsing).

(** ** Clocks, identifiers, randomness, the disk *)

Class Env := {
  (** [Instant::now()], in nanoseconds *)
  env_instant : nat → Z;
  (** the largest [Instant]; adding past it panics *)
  instant_max : Z;
  (** [UnixMillis::now()] *)
  env_wall : nat → UnixMillis;
  (** [JobId::new()] *)
  env_uuid : nat → JobId;
  (** [CancellationToken::new()] *)
  env_token : nat → CancellationToken;
  (** [rng.random_range(0..=hi)] *)
  env_rand : nat → Z → Z;
  (** the answers to one append *)
  env_io : nat → WriteIo;
  (** whether the receiver of a one-shot channel is still there *)
  env_alive : nat → bool;
}.

(** What the program relies on: random (version 4) identifiers do not repeat,
    and the random source respects its range. *)
Class EnvLaws (E : Env) : Prop := {
  env_uuid_inj : ∀ t t', env_uuid t = env_uuid t' → t = t';
  env_rand_range : ∀ t hi, 0 ≤ hi ≤ u64_max → 0 ≤ env_rand t hi ≤ hi;
}.

(** [instant + duration] *)
Definition instant_add `{Env} (now d : Z) : option Z :=
  if now + d <=? instant_max then Some (now + d) else None.

(** An environment whose clocks advance by one millisecond per tick (the
    monotonic one for some thirty years), whose receivers are all alive and whose
    disk never fails. *)
Definition steady_env : Env := {|
  env_instant t := Z.min (Z.of_nat t * NANOS_PER_MILLI) (2 ^ 60);
  instant_max := 2 ^ 63 * NANOS_PER_SEC;
  env_wall t := from_millis (1000 + Z.of_nat t);
  env_uuid t := from_uuid (N.of_nat t);
  env_token t := N.of_nat t;
  env_rand t hi := 0;
  env_io t := io_ok;
  env_alive t := true;
|}.

#[global] Instance steady_env_laws : EnvLaws steady_env.
Proof.
  split; cbn; [|lia]. intros t t' [= H%Nat2N.inj]. done.
Qed.

(** ** Actions *)

(** [S → option (A * S)]: [None] is a panic. *)
Definition action (S A : Type) : Type := S → option (A * S).

#[global] Instance action_ret S : MRet (action S) := λ A a s, Some (a, s).
#[global] Instance action_bind S : MBind (action S) := λ A B k m s,
  match m s with
  | Some (a, s) => k a s
  | None => None
  end.

Definition panic {S A} : action S A := λ _, None.

(** [o.unwrap()] *)
Definition unwrap {S A} (o : option A) : action S A :=
  match o with Some a => mret a | None => panic end.

(** [m?] in a function that returns a [Result]. *)
Definition atry {S A B E} (m : action S (result A E)) (k : A → action S (result B E))
    : action S (result B E) :=
  r ← m; match r with Ok a => k a | Err e => mret (Err e) end.

(** What an action guarantees: it does not panic, and its result and final
    state satisfy [Q]. *)
Definition wp {S A} (m : action S A) (Q : A → S → Prop) (s : S) : Prop :=
  match m s with
  | Some (a, s') => Q a s'
  | None => False
  end.

Section wp.
Context {S : Type}.

Lemma wp_ret {A} (a : A) (Q : A → S → Prop) s : Q a s → wp (mret a) Q s.
Proof. done. Qed.

Lemma wp_bind {A B} (m : action S A) (k : A → action S B) Q s :
  wp m (λ a, wp (k a) Q) s → wp (m ≫= k) Q s.
Proof.
  unfold wp, mbind, action_bind. by destruct (m s) as [[a s']|].
Qed.

Lemma wp_try {A B E} (m : action S (result A E)) (k : A → action S (result B E)) Q s :
  wp m (λ r, match r with Ok a => wp (k a) Q | Err e => Q (Err e) end) s →
  wp (atry m k) Q s.
Proof.
  unfold wp, atry, mbind, action_bind.
  destruct (m s) as [[[a|e] s']|]; done.
Qed.

Lemma wp_unwrap {A} (o : option A) a (Q : A → S → Prop) s :
  o = Some a → Q a s → wp (unwrap o) Q s.
Proof. by intros ->. Qed.

Lemma wp_mono {A} (m : action S A) (P Q : A → S → Prop) s :
  wp m P s → (∀ a s', P a s' → Q a s') → wp m Q s.
Proof. unfold wp. destruct (m s) as [[a s']|]; [|done]. intros HP HPQ. by apply HPQ. Qed.

Lemma wp_and {A} (m : action S A) (P Q : A → S → Prop) s :
  wp m P s → wp m Q s → wp m (λ a s', P a s' ∧ Q a s') s.
Proof. unfold wp. by destruct (m s) as [[a s']|]. Qed.

Lemma wp_eq {A} (m : action S A) (Q : A → S → Prop) s a s' : m s = Some (a, s') → Q a s' → wp m Q s.
Proof. unfold wp. by intros ->. Qed.

Lemma wp_result {A} (m : action S A) (Q : A → S → Prop) s a s' :
  wp m Q s → m s = Some (a, s') → Q a s'.
Proof. unfold wp. intros H Heq. by rewrite Heq in H. Qed.

Lemma wp_total {A} (m : action S A) (Q : A → S → Prop) s :
  wp m Q s → ∃ a s', m s = Some (a, s') ∧ Q a s'.
Proof. unfold wp. destruct (m s) as [[a s']|]; [by eexists _, _|done]. Qed.
End wp.
