(* ===== verification/Coordinator.v ===== *)
(** * The coordinator ([coordinator.rs])

    The single task that owns all mutable queue state: the job store, the ready
    queues, the leases, the retry heap, the parked workers and the capacity
    permits.  It handles one command at a time; every state change is first
    persisted, then applied to the store, then exposed.

    [Coordinator] is the state, [State] adds what the outside sees of it: the
    number of questions asked to the environment and the effects (replies sent,
    tokens cancelled, errors logged) so far.  The command channel and the random
    generator, fields of the Rust struct, are the argument of [handle] and
    [env_rand]. *)

From S2P Require Import Prelude Types Config Store Codec Scanner Writer Recovery.
From S2P Require Import RetryHeap Environment.

(** ** Messages *)

Inductive WorkerOutcome :=
| Outcome_Success
| Outcome_Retryable
| Outcome_Fatal
| Outcome_Panic.

(** [JobContext] of [handler.rs]. *)
Record JobContext := mkJobContext {
  ctx_id : JobId;
  ctx_queue : QueueName;
  ctx_payload : list byte;
  ctx_attempt : Z;
  ctx_max_attempts : Z;
  ctx_cancellation : CancellationToken;
}.

Record LeasedJob := mkLeasedJob {
  lj_context : JobContext;
  lj_lease_id : LeaseId;
}.

Inductive Command :=
| Cmd_Submit (queue : QueueName) (spec : JobSpec) (permit : Permit) (reply : Sender)
| Cmd_Status (id : JobId) (reply : Sender)
| Cmd_Cancel (id : JobId) (reply : Sender)
| Cmd_Stats (reply : Sender)
| Cmd_FetchWork (reply : Sender)
| Cmd_WorkerOutcome (id : JobId) (lease_id : LeaseId) (outcome : WorkerOutcome)
| Cmd_Shutdown (reply : Sender).

(** What is sent on a one-shot channel. *)
Inductive Reply :=
| Reply_job (r : Result JobRecord)
| Reply_stats (s : StatsSnapshot)
| Reply_work (w : option LeasedJob)
| Reply_done.

Inductive Effect :=
| Sent (to : Sender) (reply : Reply) (delivered : bool)
| TokenCancelled (token : CancellationToken)
| PersistFailed (operation : string) (e : WalError).

(** ** State *)

Record ActiveLease := mkActiveLease {
  al_lease_id : LeaseId;
  al_deadline : Z;
  al_cancellation : CancellationToken;
}.

Record QueueState := mkQueueState {
  qs_ready : list JobId;
  qs_stats : QueueStats;
}.

Definition QueueState_new : QueueState := mkQueueState [] QueueStats_default.

Record GlobalStats := mkGlobalStats {
  gs_submitted : Z;
  gs_completed : Z;
  gs_dead : Z;
  gs_cancelled : Z;
  gs_retried : Z;
  gs_stale_outcomes : Z;
}.

Definition GlobalStats_default : GlobalStats := mkGlobalStats 0 0 0 0 0 0.

(** Updates of one field, as in [qs.stats.queued = f(qs.stats.queued)]. *)
Definition on_stats (f : QueueStats → QueueStats) (qs : QueueState) : QueueState :=
  mkQueueState (qs_ready qs) (f (qs_stats qs)).
Definition on_ready (f : list JobId → list JobId) (qs : QueueState) : QueueState :=
  mkQueueState (f (qs_ready qs)) (qs_stats qs).

Definition on_submitted (f : Z → Z) '(mkQueueStats s q r t c d x) := mkQueueStats (f s) q r t c d x.
Definition on_queued (f : Z → Z) '(mkQueueStats s q r t c d x) := mkQueueStats s (f q) r t c d x.
Definition on_running (f : Z → Z) '(mkQueueStats s q r t c d x) := mkQueueStats s q (f r) t c d x.
Definition on_retrying (f : Z → Z) '(mkQueueStats s q r t c d x) := mkQueueStats s q r (f t) c d x.
Definition on_completed (f : Z → Z) '(mkQueueStats s q r t c d x) := mkQueueStats s q r t (f c) d x.
Definition on_dead (f : Z → Z) '(mkQueueStats s q r t c d x) := mkQueueStats s q r t c (f d) x.
Definition on_cancelled (f : Z → Z) '(mkQueueStats s q r t c d x) := mkQueueStats s q r t c d (f x).

Definition incr_submitted '(mkGlobalStats s c d x r o) := mkGlobalStats (u64_incr s) c d x r o.
Definition incr_completed '(mkGlobalStats s c d x r o) := mkGlobalStats s (u64_incr c) d x r o.
Definition incr_dead '(mkGlobalStats s c d x r o) := mkGlobalStats s c (u64_incr d) x r o.
Definition incr_cancelled '(mkGlobalStats s c d x r o) := mkGlobalStats s c d (u64_incr x) r o.
Definition incr_retried '(mkGlobalStats s c d x r o) := mkGlobalStats s c d x (u64_incr r) o.
Definition incr_stale_outcomes '(mkGlobalStats s c d x r o) := mkGlobalStats s c d x r (u64_incr o).

Section coordinator.
Context `{W : Wire} `{HI : HashIter} `{RH : RetryHeap} `{SM : Semaphores} `{EN : Env}.

Record Coordinator := mkCoordinator {
  co_store : MemoryStore;
  co_storage : Storage;
  co_queues : gmap string QueueState;
  co_queue_order : list string;
  co_next_queue_idx : nat;
  co_permits : gmap JobId Permit;
  co_leases : gmap JobId ActiveLease;
  co_retry_queue : heap;
  co_parked_workers : list Sender;
  co_semaphores : gmap string Semaphore;
  co_config : RuntimeConfig;
  co_next_lease_epoch : Z;
  co_global_stats : GlobalStats;
  co_shutting_down : bool;
  co_shutdown_deadline : option Z;
  co_shutdown_reply : option Sender;
  co_shutdown_token : CancellationToken;
}.

(** Assignments [self.field = v]. *)
Definition set_store (v : MemoryStore) (c : Coordinator) : Coordinator :=
  mkCoordinator v (co_storage c) (co_queues c) (co_queue_order c) (co_next_queue_idx c)
    (co_permits c) (co_leases c) (co_retry_queue c) (co_parked_workers c) (co_semaphores c)
    (co_config c) (co_next_lease_epoch c) (co_global_stats c) (co_shutting_down c)
    (co_shutdown_deadline c) (co_shutdown_reply c) (co_shutdown_token c).
Definition set_storage (v : Storage) (c : Coordinator) : Coordinator :=
  mkCoordinator (co_store c) v (co_queues c) (co_queue_order c) (co_next_queue_idx c)
    (co_permits c) (co_leases c) (co_retry_queue c) (co_parked_workers c) (co_semaphores c)
    (co_config c) (co_next_lease_epoch c) (co_global_stats c) (co_shutting_down c)
    (co_shutdown_deadline c) (co_shutdown_reply c) (co_shutdown_token c).
Definition set_queues (v : gmap string QueueState) (c : Coordinator) : Coordinator :=
  mkCoordinator (co_store c) (co_storage c) v (co_queue_order c) (co_next_queue_idx c)
    (co_permits c) (co_leases c) (co_retry_queue c) (co_parked_workers c) (co_semaphores c)
    (co_config c) (co_next_lease_epoch c) (co_global_stats c) (co_shutting_down c)
    (co_shutdown_deadline c) (co_shutdown_reply c) (co_shutdown_token c).
Definition set_next_queue_idx (v : nat) (c : Coordinator) : Coordinator :=
  mkCoordinator (co_store c) (co_storage c) (co_queues c) (co_queue_order c) v (co_permits c)
    (co_leases c) (co_retry_queue c) (co_parked_workers c) (co_semaphores c) (co_config c)
    (co_next_lease_epoch c) (co_global_stats c) (co_shutting_down c) (co_shutdown_deadline c)
    (co_shutdown_reply c) (co_shutdown_token c).
Definition set_permits (v : gmap JobId Permit) (c : Coordinator) : Coordinator :=
  mkCoordinator (co_store c) (co_storage c) (co_queues c) (co_queue_order c)
    (co_next_queue_idx c) v (co_leases c) (co_retry_queue c) (co_parked_workers c)
    (co_semaphores c) (co_config c) (co_next_lease_epoch c) (co_global_stats c)
    (co_shutting_down c) (co_shutdown_deadline c) (co_shutdown_reply c) (co_shutdown_token c).
Definition set_leases (v : gmap JobId ActiveLease) (c : Coordinator) : Coordinator :=
  mkCoordinator (co_store c) (co_storage c) (co_queues c) (co_queue_order c)
    (co_next_queue_idx c) (co_permits c) v (co_retry_queue c) (co_parked_workers c)
    (co_semaphores c) (co_config c) (co_next_lease_epoch c) (co_global_stats c)
    (co_shutting_down c) (co_shutdown_deadline c) (co_shutdown_reply c) (co_shutdown_token c).
Definition set_retry_queue (v : heap) (c : Coordinator) : Coordinator :=
  mkCoordinator (co_store c) (co_storage c) (co_queues c) (co_queue_order c)
    (co_next_queue_idx c) (co_permits c) (co_leases c) v (co_parked_workers c) (co_semaphores c)
    (co_config c) (co_next_lease_epoch c) (co_global_stats c) (co_shutting_down c)
    (co_shutdown_deadline c) (co_shutdown_reply c) (co_shutdown_token c).
Definition set_parked_workers (v : list Sender) (c : Coordinator) : Coordinator :=
  mkCoordinator (co_store c) (co_storage c) (co_queues c) (co_queue_order c)
    (co_next_queue_idx c) (co_permits c) (co_leases c) (co_retry_queue c) v (co_semaphores c)
    (co_config c) (co_next_lease_epoch c) (co_global_stats c) (co_shutting_down c)
    (co_shutdown_deadline c) (co_shutdown_reply c) (co_shutdown_token c).
Definition set_semaphores (v : gmap string Semaphore) (c : Coordinator) : Coordinator :=
  mkCoordinator (co_store c) (co_storage c) (co_queues c) (co_queue_order c)
    (co_next_queue_idx c) (co_permits c) (co_leases c) (co_retry_queue c) (co_parked_workers c) v
    (co_config c) (co_next_lease_epoch c) (co_global_stats c) (co_shutting_down c)
    (co_shutdown_deadline c) (co_shutdown_reply c) (co_shutdown_token c).
Definition set_next_lease_epoch (v : Z) (c : Coordinator) : Coordinator :=
  mkCoordinator (co_store c) (co_storage c) (co_queues c) (co_queue_order c)
    (co_next_queue_idx c) (co_permits c) (co_leases c) (co_retry_queue c) (co_parked_workers c)
    (co_semaphores c) (co_config c) v (co_global_stats c) (co_shutting_down c)
    (co_shutdown_deadline c) (co_shutdown_reply c) (co_shutdown_token c).
Definition set_global_stats (v : GlobalStats) (c : Coordinator) : Coordinator :=
  mkCoordinator (co_store c) (co_storage c) (co_queues c) (co_queue_order c)
    (co_next_queue_idx c) (co_permits c) (co_leases c) (co_retry_queue c) (co_parked_workers c)
    (co_semaphores c) (co_config c) (co_next_lease_epoch c) v (co_shutting_down c)
    (co_shutdown_deadline c) (co_shutdown_reply c) (co_shutdown_token c).
Definition set_shutting_down (v : bool) (c : Coordinator) : Coordinator :=
  mkCoordinator (co_store c) (co_storage c) (co_queues c) (co_queue_order c)
    (co_next_queue_idx c) (co_permits c) (co_leases c) (co_retry_queue c) (co_parked_workers c)
    (co_semaphores c) (co_config c) (co_next_lease_epoch c) (co_global_stats c) v
    (co_shutdown_deadline c) (co_shutdown_reply c) (co_shutdown_token c).
Definition set_shutdown_deadline (v : option Z) (c : Coordinator) : Coordinator :=
  mkCoordinator (co_store c) (co_storage c) (co_queues c) (co_queue_order c)
    (co_next_queue_idx c) (co_permits c) (co_leases c) (co_retry_queue c) (co_parked_workers c)
    (co_semaphores c) (co_config c) (co_next_lease_epoch c) (co_global_stats c)
    (co_shutting_down c) v (co_shutdown_reply c) (co_shutdown_token c).
Definition set_shutdown_reply (v : option Sender) (c : Coordinator) : Coordinator :=
  mkCoordinator (co_store c) (co_storage c) (co_queues c) (co_queue_order c)
    (co_next_queue_idx c) (co_permits c) (co_leases c) (co_retry_queue c) (co_parked_workers c)
    (co_semaphores c) (co_config c) (co_next_lease_epoch c) (co_global_stats c)
    (co_shutting_down c) (co_shutdown_deadline c) v (co_shutdown_token c).

Record State := mkState {
  coord : Coordinator;
  tick : nat;
  trace : list Effect;
}.

Abbreviation act := (action State).

(** ** Primitive actions *)

Definition get : act Coordinator := λ s, Some (coord s, s).

Definition modify (f : Coordinator → Coordinator) : act unit := λ s,
  Some ((), mkState (f (coord s)) (tick s) (trace s)).

Definition ask {A} (oracle : nat → A) : act A := λ s,
  Some (oracle (tick s), mkState (coord s) (S (tick s)) (trace s)).

Definition emit (e : Effect) : act unit := λ s,
  Some ((), mkState (coord s) (tick s) (trace s ++ [e])).

(** [sender.send(reply).is_ok()] *)
Definition send (to : Sender) (reply : Reply) : act bool :=
  alive ← ask env_alive; emit (Sent to reply alive);; mret alive.

Definition cancel_token (token : CancellationToken) : act unit := emit (TokenCancelled token).

Definition log_persist_error (operation : string) (e : WalError) : act unit :=
  emit (PersistFailed operation e).

(** [self.queues.get_mut(name)], when it exists, updated by [f]. *)
Definition update_queue (name : string) (f : QueueState → QueueState) : act unit :=
  modify (λ c, set_queues (alter f name (co_queues c)) c).

Definition update_global (f : GlobalStats → GlobalStats) : act unit :=
  modify (λ c, set_global_stats (f (co_global_stats c)) c).

(** Dropping a permit returns it to its semaphore. *)
Definition drop_permit (permit : Permit) : act unit :=
  modify (λ c, set_semaphores (alter sem_release permit (co_semaphores c)) c).

(** [self.permits.insert(id, permit)]; a permit held before is dropped. *)
Definition hold_permit (id : JobId) (permit : Permit) : act unit :=
  c ← get;
  modify (set_permits (<[id := permit]> (co_permits c)));;
  match co_permits c !! id with
  | Some old => drop_permit old
  | None => mret ()
  end.

(** [self.permits.remove(&id)], dropping the permit. *)
Definition release_permit (id : JobId) : act unit :=
  c ← get;
  match co_permits c !! id with
  | Some permit => modify (set_permits (delete id (co_permits c)));; drop_permit permit
  | None => mret ()
  end.

(** [self.leases.remove(&id)] *)
Definition remove_lease (id : JobId) : act (option ActiveLease) :=
  c ← get;
  modify (set_leases (delete id (co_leases c)));;
  mret (co_leases c !! id).

(** [for sem in self.semaphores.values() { sem.close() }] *)
Definition close_semaphores : act unit :=
  modify (λ c, set_semaphores (sem_close <$> co_semaphores c) c).

(** [self.storage.persist(record).await] *)
Definition storage_persist (record : WalRecord) : act (WalResult (option Z)) :=
  io ← ask env_io;
  c ← get;
  let '(reply, storage) := persist io (co_storage c) record in
  modify (set_storage storage);;
  mret reply.

(** [self.store.apply_record(&record)] *)
Definition store_apply (record : WalRecord) : act (Result unit) :=
  c ← get;
  match apply_record (co_store c) record with
  | Ok st => modify (set_store st);; mret (Ok ())
  | Err e => mret (Err e)
  end.

(** [for x in xs { body(x) }] *)
Fixpoint for_each {A} (xs : list A) (body : A → act unit) : act unit :=
  match xs with
  | [] => mret ()
  | x :: xs => body x;; for_each xs body
  end.

(** ** Leasing *)

(** The loop of [try_lease_job]; [continue] is the next iteration. *)
Fixpoint lease_loop (k n : nat) : act (option LeasedJob) :=
  match k with
  | O => mret None
  | S k =>
      c ← get;
      queue_name ← unwrap (co_queue_order c !! co_next_queue_idx c);
      modify (set_next_queue_idx ((co_next_queue_idx c + 1) mod n)%nat);;
      match co_queues c !! queue_name with
      | None => lease_loop k n
      | Some qs =>
          match head (qs_ready qs) with
          | None => lease_loop k n
          | Some job_id =>
              match store_get (co_store c) job_id with
              | None => lease_loop k n
              | Some job =>
                  if negb (bool_decide (job_state job = Queued)) then lease_loop k n
                  else
                    let attempt := u32_wrap (job_attempts job + 1) in
                    let lease_id := LeaseId_new (co_next_lease_epoch c) in
                    leased_at ← ask env_wall;
                    let wal_record := JobLeased job_id lease_id attempt leased_at in
                    persisted ← storage_persist wal_record;
                    match persisted with
                    | Err e => log_persist_error "lease" e;; lease_loop k n
                    | Ok _ =>
                        update_queue queue_name (on_ready tail);;
                        applied ← store_apply wal_record;
                        match applied with
                        | Err _ => lease_loop k n
                        | Ok _ =>
                            modify (λ c, set_next_lease_epoch (u64_incr (co_next_lease_epoch c)) c);;
                            cancellation ← ask env_token;
                            now ← ask env_instant;
                            deadline ← unwrap (instant_add now (visibility_timeout (co_config c)));
                            modify (λ c, set_leases
                              (<[job_id := mkActiveLease lease_id deadline cancellation]> (co_leases c)) c);;
                            update_queue queue_name
                              (on_stats (λ s, on_running u64_incr (on_queued sat_decr s)));;
                            c ← get;
                            match store_get (co_store c) job_id with
                            | None => mret None
                            | Some job =>
                                mret (Some (mkLeasedJob
                                  (mkJobContext (Types.job_id job) (job_queue job)
                                     (payload (job_spec job)) (job_attempts job)
                                     (max_attempts (job_spec job)) cancellation)
                                  lease_id))
                            end
                        end
                    end
              end
          end
      end
  end.

Definition try_lease_job : act (option LeasedJob) :=
  c ← get;
  let n := length (co_queue_order c) in
  if (n =? 0)%nat then mret None else lease_loop n n.

(** The [while] loop; a turn that leases a job removes one parked worker, so
    that their number bounds the turns. *)
Fixpoint dispatch_loop (fuel : nat) : act unit :=
  match fuel with
  | O => mret ()
  | S fuel =>
      c ← get;
      if bool_decide (co_parked_workers c = []) then mret ()
      else
        leased ← try_lease_job;
        match leased with
        | None => mret ()
        | Some job =>
            c ← get;
            match co_parked_workers c with
            | [] => mret ()
            | worker :: parked =>
                modify (set_parked_workers parked);;
                send worker (Reply_work (Some job));;
                mret ()
            end;;
            dispatch_loop fuel
        end
  end.

Definition try_dispatch_parked_workers : act unit :=
  c ← get;
  if co_shutting_down c then mret ()
  else dispatch_loop (length (co_parked_workers c)).

(** ** Submission, status, cancellation, statistics *)

Definition do_submit (queue : QueueName) (spec : JobSpec) (permit : Permit)
    : act (Result JobRecord) :=
  c ← get;
  match co_queues c !! as_str queue with
  | None => drop_permit permit;; mret (Err (QueueNotFound (as_str queue)))
  | Some _ =>
      if MAX_PAYLOAD_SIZE <? zlen (payload spec) then
        drop_permit permit;;
        mret (Err (PayloadTooLarge (zlen (payload spec)) MAX_PAYLOAD_SIZE))
      else
        id ← ask env_uuid;
        created_at ← ask env_wall;
        let wal_record := JobSubmitted id queue spec created_at in
        persisted ← storage_persist wal_record;
        match persisted with
        | Err e => drop_permit permit;; mret (Err (Storage_error e))
        | Ok _ =>
            applied ← store_apply wal_record;
            match applied with
            | Err e => drop_permit permit;; mret (Err e)
            | Ok _ =>
                c ← get;
                record ← unwrap (store_get (co_store c) id);
                hold_permit id permit;;
                update_queue (as_str queue) (on_ready (λ ready, ready ++ [id]));;
                update_queue (as_str queue)
                  (on_stats (λ s, on_queued u64_incr (on_submitted u64_incr s)));;
                update_global incr_submitted;;
                try_dispatch_parked_workers;;
                mret (Ok record)
            end
        end
  end.

Definition do_status (id : JobId) : act (Result JobRecord) :=
  c ← get;
  mret (ok_or (store_get (co_store c) id) (JobNotFound id)).

Definition do_cancel (id : JobId) : act (Result JobRecord) :=
  c ← get;
  atry (mret (ok_or (store_get (co_store c) id) (JobNotFound id))) (λ job,
  let from_state := job_state job in
  let queue_name := as_str (job_queue job) in
  if is_terminal from_state then mret (Err (InvalidTransition from_state Cancelled))
  else
    cancelled_at ← ask env_wall;
    let wal_record := JobCancelled id cancelled_at in
    persisted ← storage_persist wal_record;
    match persisted with
    | Err e => mret (Err (Storage_error e))
    | Ok _ =>
        atry (store_apply wal_record) (λ _,
        c ← get;
        record ← unwrap (store_get (co_store c) id);
        match co_queues c !! queue_name with
        | None => mret ()
        | Some _ =>
            match from_state with
            | Queued =>
                update_queue queue_name (on_ready (retain_ne id));;
                update_queue queue_name (on_stats (on_queued sat_decr))
            | Running =>
                lease ← remove_lease id;
                match lease with
                | Some lease => cancel_token (al_cancellation lease)
                | None => mret ()
                end;;
                update_queue queue_name (on_stats (on_running sat_decr))
            | RetryWaiting => update_queue queue_name (on_stats (on_retrying sat_decr))
            | _ => mret ()
            end;;
            update_queue queue_name (on_stats (on_cancelled u64_incr))
        end;;
        release_permit id;;
        update_global incr_cancelled;;
        mret (Ok record))
    end).

(** [queued += qs.stats.queued] over all queues. *)
Definition sum_stat (f : QueueStats → Z) (entries : list (string * QueueState)) : Z :=
  foldl (λ acc e, u64_wrap (acc + f (qs_stats e.2))) 0 entries.

Definition do_stats (c : Coordinator) : StatsSnapshot :=
  let entries := hash_iter (co_queues c) in
  mkStatsSnapshot
    (gs_submitted (co_global_stats c))
    (sum_stat qstat_queued entries)
    (sum_stat qstat_running entries)
    (sum_stat qstat_retrying entries)
    (sum_stat qstat_completed entries)
    (sum_stat qstat_dead entries)
    (sum_stat qstat_cancelled entries)
    (gs_retried (co_global_stats c))
    (gs_stale_outcomes (co_global_stats c))
    (foldl (λ m e, <[e.1 := qs_stats e.2]> m) ∅ entries).

Definition do_fetch_work (reply : Sender) : act unit :=
  c ← get;
  if co_shutting_down c then send reply (Reply_work None);; mret ()
  else
    leased ← try_lease_job;
    match leased with
    | Some job => send reply (Reply_work (Some job));; mret ()
    | None => modify (λ c, set_parked_workers (co_parked_workers c ++ [reply]) c)
    end.

(** ** Outcomes *)

Definition complete_job (id : JobId) (lease_id : LeaseId) (queue_name : QueueName) : act unit :=
  completed_at ← ask env_wall;
  let wal_record := JobCompleted id lease_id completed_at in
  persisted ← storage_persist wal_record;
  match persisted with
  | Err e => log_persist_error "complete" e
  | Ok _ =>
      applied ← store_apply wal_record;
      match applied with
      | Err _ => mret ()
      | Ok _ =>
          update_queue (as_str queue_name)
            (on_stats (λ s, on_completed u64_incr (on_running sat_decr s)));;
          release_permit id;;
          update_global incr_completed
      end
  end.

Definition dead_job (id : JobId) (lease_id : LeaseId) (queue_name : QueueName) : act unit :=
  dead_at ← ask env_wall;
  let wal_record := JobDead id lease_id dead_at in
  persisted ← storage_persist wal_record;
  match persisted with
  | Err e => log_persist_error "dead" e
  | Ok _ =>
      applied ← store_apply wal_record;
      match applied with
      | Err _ => mret ()
      | Ok _ =>
          update_queue (as_str queue_name)
            (on_stats (λ s, on_dead u64_incr (on_running sat_decr s)));;
          release_permit id;;
          update_global incr_dead
      end
  end.

(** [UnixMillis::now() + delay], an [i64] addition of the truncated
    milliseconds. *)
Definition wall_deadline (now : UnixMillis) (delay : Z) : UnixMillis :=
  from_millis (i64_wrap (as_millis now + i64_wrap (duration_as_millis delay))).

Definition schedule_retry (id : JobId) (lease_id : LeaseId) (queue_name : QueueName)
    (attempt : Z) : act unit :=
  c ← get;
  rand ← ask env_rand;
  let delay := delay_with_rng (cfg_retry (co_config c)) attempt rand in
  wall_now ← ask env_wall;
  let wall_clock_available_at := wall_deadline wall_now delay in
  let wal_record := JobRetryScheduled id lease_id attempt wall_clock_available_at in
  persisted ← storage_persist wal_record;
  match persisted with
  | Err e => log_persist_error "retry" e
  | Ok _ =>
      applied ← store_apply wal_record;
      match applied with
      | Err _ => mret ()
      | Ok _ =>
          update_queue (as_str queue_name)
            (on_stats (λ s, on_retrying u64_incr (on_running sat_decr s)));;
          now ← ask env_instant;
          available_at ← unwrap (instant_add now delay);
          modify (λ c, set_retry_queue
            (heap_push (mkRetryEntry available_at wall_clock_available_at id) (co_retry_queue c)) c);;
          update_global incr_retried
      end
  end.

Definition do_worker_outcome (id : JobId) (lease_id : LeaseId) (outcome : WorkerOutcome) : act unit :=
  c ← get;
  match co_leases c !! id with
  | None => update_global incr_stale_outcomes
  | Some lease =>
      if negb (bool_decide (al_lease_id lease = lease_id)) then update_global incr_stale_outcomes
      else
        remove_lease id;;
        match store_get (co_store c) id with
        | None => mret ()
        | Some job =>
            let queue_name := job_queue job in
            let attempts := job_attempts job in
            let max_attempts := max_attempts (job_spec job) in
            match outcome with
            | Outcome_Success => complete_job id lease_id queue_name
            | Outcome_Fatal => dead_job id lease_id queue_name
            | Outcome_Retryable | Outcome_Panic =>
                if max_attempts <=? attempts then dead_job id lease_id queue_name
                else schedule_retry id lease_id queue_name attempts
            end
        end
  end.

(** ** Timers *)

(** The [while let] loop; every turn pops an entry, so that the size of the heap
    bounds the turns. *)
Fixpoint due_loop (fuel : nat) (now : Z) : act unit :=
  match fuel with
  | O => mret ()
  | S fuel =>
      c ← get;
      match heap_peek (co_retry_queue c) with
      | None => mret ()
      | Some entry =>
          if now <? available_at entry then mret ()
          else
            popped ← unwrap (heap_pop (co_retry_queue c));
            let '(entry, h) := popped in
            modify (set_retry_queue h);;
            let job_id := entry_job_id entry in
            match store_get (co_store c) job_id with
            | None => mret ()
            | Some job =>
                if negb (bool_decide (job_state job = RetryWaiting)) then mret ()
                else
                  let queue_name := as_str (job_queue job) in
                  match transition_to_queued (co_store c) job_id with
                  | Err _ => mret ()
                  | Ok (_, st) =>
                      modify (set_store st);;
                      update_queue queue_name (λ qs,
                        on_ready (λ ready, ready ++ [job_id])
                          (on_stats (λ s, on_queued u64_incr (on_retrying sat_decr s)) qs))
                  end
            end;;
            due_loop fuel now
      end
  end.

Definition process_due_retries : act unit :=
  now ← ask env_instant;
  c ← get;
  due_loop (length (heap_elems (co_retry_queue c))) now.

(** The second loop of [check_lease_timeouts], for one entry. *)
Definition time_out_lease (job_id : JobId) (lease_id : LeaseId) : act unit :=
  removed ← remove_lease job_id;
  match removed with
  | None => mret ()
  | Some lease =>
      cancel_token (al_cancellation lease);;
      c ← get;
      match store_get (co_store c) job_id with
      | None => mret ()
      | Some job =>
          let queue_name := job_queue job in
          let attempts := job_attempts job in
          let max_attempts := max_attempts (job_spec job) in
          if max_attempts <=? attempts then dead_job job_id lease_id queue_name
          else schedule_retry job_id lease_id queue_name attempts
      end
  end.

Definition check_lease_timeouts : act unit :=
  now ← ask env_instant;
  c ← get;
  let timed_out := filter (λ e, (al_deadline e.2 <=? now) = true) (hash_iter (co_leases c)) in
  for_each timed_out (λ e, time_out_lease e.1 (al_lease_id e.2)).

(** ** Shutdown *)

Definition complete_shutdown : act unit :=
  c ← get;
  match co_shutdown_reply c with
  | Some reply => modify (set_shutdown_reply None);; send reply Reply_done;; mret ()
  | None => mret ()
  end.

Definition force_shutdown : act unit :=
  c ← get;
  for_each (hash_iter (co_leases c)).*1 (λ job_id,
    removed ← remove_lease job_id;
    match removed with
    | Some lease => cancel_token (al_cancellation lease)
    | None => mret ()
    end);;
  complete_shutdown.

(** [while let Some(worker) = self.parked_workers.pop_front()] *)
Definition dismiss_parked : act unit :=
  c ← get;
  modify (set_parked_workers []);;
  for_each (co_parked_workers c) (λ worker, send worker (Reply_work None);; mret ()).

Definition start_shutdown (reply : Sender) : act unit :=
  c ← get;
  if co_shutting_down c then send reply Reply_done;; mret ()
  else
    modify (set_shutting_down true);;
    cancel_token (co_shutdown_token c);;
    close_semaphores;;
    dismiss_parked;;
    if bool_decide (co_leases c = ∅) then send reply Reply_done;; mret ()
    else
      now ← ask env_instant;
      deadline ← unwrap (instant_add now (shutdown_timeout (co_config c)));
      modify (set_shutdown_deadline (Some deadline));;
      modify (set_shutdown_reply (Some reply)).

(** ** The command loop *)

Definition handle (cmd : Command) : act unit :=
  match cmd with
  | Cmd_Submit queue spec permit reply =>
      c ← get;
      if co_shutting_down c then
        send reply (Reply_job (Err ShuttingDown));; drop_permit permit
      else
        result ← do_submit queue spec permit;
        send reply (Reply_job result);; mret ()
  | Cmd_Status id reply =>
      result ← do_status id;
      send reply (Reply_job result);; mret ()
  | Cmd_Cancel id reply =>
      result ← do_cancel id;
      send reply (Reply_job result);; mret ()
  | Cmd_Stats reply =>
      c ← get;
      send reply (Reply_stats (do_stats c));; mret ()
  | Cmd_FetchWork reply => do_fetch_work reply
  | Cmd_WorkerOutcome id lease_id outcome => do_worker_outcome id lease_id outcome
  | Cmd_Shutdown reply => start_shutdown reply
  end.

Definition option_min (a b : option Z) : option Z :=
  match a, b with
  | Some a, Some b => Some (Z.min a b)
  | Some a, None => Some a
  | None, b => b
  end.

Definition next_deadline (c : Coordinator) : option Z :=
  let retry_deadline := available_at <$> heap_peek (co_retry_queue c) in
  let lease_deadline :=
    foldl (λ acc e, option_min acc (Some (al_deadline e.2))) None (hash_iter (co_leases c)) in
  option_min (option_min retry_deadline lease_deadline) (co_shutdown_deadline c).

(** One turn of [run] up to the [select!]: [None] when the loop ends, else the
    time at which the timer fires. *)
Definition turn : act (option (option Z)) :=
  process_due_retries;;
  check_lease_timeouts;;
  try_dispatch_parked_workers;;
  c ← get;
  if co_shutting_down c && bool_decide (co_leases c = ∅) then
    complete_shutdown;; close_semaphores;; mret None
  else
    expired ← match co_shutdown_deadline c with
              | Some deadline => now ← ask env_instant; mret (deadline <=? now)
              | None => mret false
              end;
    if (expired : bool) then force_shutdown;; close_semaphores;; mret None
    else mret (Some (next_deadline c)).

(** What ends the [select!]: a command, a closed channel, or the timer. *)
Inductive Wakeup :=
| Wake_command (cmd : Command)
| Wake_closed
| Wake_timer.

(** The rest of the turn: [true] when the loop goes on. *)
Definition wake (w : Wakeup) : act bool :=
  match w with
  | Wake_command cmd => handle cmd;; mret true
  | Wake_closed => close_semaphores;; mret false
  | Wake_timer => mret true
  end.

(** [run]: one wake-up per turn, as long as there are any; [false] when the
    coordinator stopped.  A timer without a deadline never fires; allowing it
    here only adds turns in which nothing happens. *)
Fixpoint run (wakeups : list Wakeup) : act bool :=
  next ← turn;
  match next with
  | None => mret false
  | Some _ =>
      match wakeups with
      | [] => mret true
      | w :: wakeups =>
          continue ← wake w;
          if (continue : bool) then run wakeups else mret false
      end
  end.

(** ** Construction *)

(** The ready queues from the recovered ones. *)
Definition load_queued (st : MemoryStore) (queues : gmap string QueueState)
    (entries : list (string * list JobId)) : gmap string QueueState :=
  foldl (λ queues '(queue_name, job_ids),
    alter (λ qs, foldl (λ qs id,
        match store_get st id with
        | Some job =>
            if bool_decide (job_state job = Queued) then
              on_stats (on_queued u64_incr) (on_ready (λ ready, ready ++ [id]) qs)
            else qs
        | None => qs
        end) qs job_ids) queue_name queues) queues entries.

(** The retry heap from the recovered waiting jobs; [None] when the deadline is
    beyond the last instant. *)
Fixpoint load_retries (now : Z) (wall_now : UnixMillis) (st : MemoryStore)
    (entries : list (JobId * UnixMillis)) (h : heap) (queues : gmap string QueueState)
    : option (heap * gmap string QueueState) :=
  match entries with
  | [] => Some (h, queues)
  | (id, at_) :: entries =>
      match store_get st id with
      | Some job =>
          if bool_decide (job_state job = RetryWaiting) then
            let remaining_ms := Z.max (i64_wrap (as_millis at_ - as_millis wall_now)) 0 in
            let delay := duration_from_millis remaining_ms in
            match instant_add now delay with
            | None => None
            | Some deadline =>
                load_retries now wall_now st entries
                  (heap_push (mkRetryEntry deadline at_ id) h)
                  (alter (on_stats (on_retrying u64_incr)) (as_str (job_queue job)) queues)
            end
          else load_retries now wall_now st entries h queues
      | None => load_retries now wall_now st entries h queues
      end
  end.

(** The counters of the jobs that are over. *)
Definition load_terminal (queues : gmap string QueueState) (jobs : list JobRecord)
    : gmap string QueueState :=
  foldl (λ queues job,
    alter (on_stats
      match job_state job with
      | Completed => on_completed u64_incr
      | Dead => on_dead u64_incr
      | Cancelled => on_cancelled u64_incr
      | _ => λ s, s
      end) (as_str (job_queue job)) queues) queues jobs.

Definition initial_queues (cfg : RuntimeConfig) : gmap string QueueState :=
  foldl (λ m qc, <[as_str (qc_name qc) := QueueState_new]> m) ∅ (cfg_queues cfg).

(** [with_rng_and_recovery], with the clocks read at its start. *)
Definition with_rng_and_recovery (now : Z) (wall_now : UnixMillis) (cfg : RuntimeConfig)
    (storage : Storage) (semaphores : gmap string Semaphore) (shutdown_token : CancellationToken)
    (recovered : option RecoveredState) : option Coordinator :=
  let queues := initial_queues cfg in
  let queue_order := (λ qc, as_str (qc_name qc)) <$> cfg_queues cfg in
  let build := λ st epoch stats h queues,
    mkCoordinator st storage queues queue_order 0 ∅ ∅ h [] semaphores cfg epoch stats
      false None None shutdown_token in
  match recovered with
  | None => Some (build store_new 1 GlobalStats_default heap_new queues)
  | Some rec =>
      let st := rec_store rec in
      let queues := load_queued st queues (hash_iter (rec_queued_jobs rec)) in
      match load_retries now wall_now st (rec_retry_jobs rec) heap_new queues with
      | None => None
      | Some (h, queues) =>
          let queues := load_terminal queues (hash_iter st).*2 in
          Some (build st (rec_next_lease_epoch rec)
            (mkGlobalStats (rec_submitted rec) (rec_completed rec) (rec_dead rec)
               (rec_cancelled rec) (rec_retried rec) 0) h queues)
      end
  end.

(** [Coordinator::new] *)
Definition Coordinator_new (cfg : RuntimeConfig) (storage : Storage)
    (semaphores : gmap string Semaphore) (shutdown_token : CancellationToken) : option Coordinator :=
  with_rng_and_recovery 0 (from_millis 0) cfg storage semaphores shutdown_token None.
End coordinator.

Arguments Coordinator {_ _}.
Arguments State {_ _}.

(** An action of the coordinator. *)
Abbreviation act := (action State).
