(* ===== verification/Quiet.v ===== *)
(** * Quiet actions

    What an action of the coordinator leaves alone: the effects it may have and
    the fields it does not change, by the structure of its code. *)

From S2P Require Import Prelude Types Config Store Codec Scanner Writer Recovery.
From S2P Require Import RetryHeap Environment Coordinator.

Section quiet.
Context `{W : Wire} `{HI : HashIter} `{RH : RetryHeap} `{SM : Semaphores} `{EN : Env}.
Context {X : Type} (E : Effect → Prop) (g : Coordinator → X).

(** Between [s] and [s'] only effects in [E] happened, and [g] has not changed. *)
Definition quietly (s s' : State) : Prop :=
  (∃ effs, trace s' = trace s ++ effs ∧ Forall E effs) ∧ g (coord s') = g (coord s).

#[global] Instance quietly_preorder : PreOrder quietly.
Proof.
  split.
  - intros s. split; [|done]. exists []. by rewrite app_nil_r.
  - intros s1 s2 s3 [(e1 & H1 & F1) G1] [(e2 & H2 & F2) G2]. split; [|congruence].
    exists (e1 ++ e2). rewrite H2, H1, app_assoc. split; [done|]. by apply Forall_app.
Qed.

(** An action all of whose results are quiet. *)
Definition quiet {A} (m : act A) : Prop := ∀ s a s', m s = Some (a, s') → quietly s s'.

Lemma quiet_ret {A} (a : A) : quiet (mret a).
Proof. intros s b s' [= <- <-]. reflexivity. Qed.
Lemma quiet_bind {A B} (m : act A) (k : A → act B) : quiet m → (∀ a, quiet (k a)) → quiet (m ≫= k).
Proof.
  intros Hm Hk s b s' H. unfold mbind, action_bind in H. destruct (m s) as [[a s1]|] eqn:H1; [|done].
  etrans; [by eapply Hm|by eapply Hk].
Qed.
Lemma quiet_get : quiet get.
Proof. intros s b s' [= <- <-]. reflexivity. Qed.
Lemma quiet_modify f : (∀ c, g (f c) = g c) → quiet (modify f).
Proof.
  intros Hf s b s' [= <- <-]. split; [|apply Hf]. exists []. by rewrite app_nil_r.
Qed.
Lemma quiet_ask {A} (o : nat → A) : quiet (ask o).
Proof. intros s b s' [= <- <-]. split; [|done]. exists []. by rewrite app_nil_r. Qed.
Lemma quiet_emit e : E e → quiet (emit e).
Proof. intros He s b s' [= <- <-]. split; [|done]. exists [e]. split; [done|]. by constructor. Qed.
Lemma quiet_unwrap {A} (o : option A) : quiet (unwrap o).
Proof. destruct o; [apply quiet_ret|done]. Qed.
Lemma quiet_for_each {A} (xs : list A) (body : A → act unit) : (∀ x, quiet (body x)) → quiet (for_each xs body).
Proof. intros Hb. induction xs; cbn [for_each]; [apply quiet_ret|]. by apply quiet_bind. Qed.
Lemma quiet_store_apply r :
  (∀ c st, apply_record (co_store c) r = Ok st → g (set_store st c) = g c) → quiet (store_apply r).
Proof.
  intros Hg s a s' H. unfold store_apply, mbind, action_bind, get in H. cbn beta iota in H.
  destruct (apply_record (co_store (coord s)) r) as [st|e] eqn:Hr; injection H as <- <-; [|reflexivity].
  split; [exists []; by rewrite app_nil_r|]. by apply Hg.
Qed.
End quiet.

Ltac quiet_step :=
  lazymatch goal with
  | |- quiet _ _ (mbind _ _) => apply quiet_bind; [|intros ?]
  | |- quiet _ _ (mret _) => apply quiet_ret
  | |- quiet _ _ get => apply quiet_get
  | |- quiet _ _ (modify _) => apply quiet_modify; intros ?; reflexivity
  | |- quiet _ _ (update_queue _ _) => apply quiet_modify; intros ?; reflexivity
  | |- quiet _ _ (update_global _) => apply quiet_modify; intros ?; reflexivity
  | |- quiet _ _ (drop_permit _) => apply quiet_modify; intros ?; reflexivity
  | |- quiet _ _ (ask _) => apply quiet_ask
  | |- quiet _ _ (emit _) => apply quiet_emit; first [assumption | exact I | auto]
  | |- quiet _ _ (unwrap _) => apply quiet_unwrap
  | |- quiet _ _ (for_each _ _) => apply quiet_for_each; intros ?
  | |- quiet _ _ (atry _ _) => unfold atry
  | |- quiet _ _ (let _ := _ in _) => cbn zeta
  | |- quiet _ _ (match ?x with _ => _ end) => destruct x
  | |- quiet _ _ (send _ _) => unfold send
  | |- quiet _ _ (cancel_token _) => unfold cancel_token
  | |- quiet _ _ (log_persist_error _ _) => unfold log_persist_error
  | |- quiet _ _ (storage_persist _) => unfold storage_persist
  | |- quiet _ _ (store_apply _) => unfold store_apply
  | |- quiet _ _ (hold_permit _ _) => unfold hold_permit
  | |- quiet _ _ (release_permit _) => unfold release_permit
  | |- quiet _ _ (remove_lease _) => unfold remove_lease
  | |- quiet _ _ close_semaphores => unfold close_semaphores
  end; cbn beta.
Ltac quiet_tac := repeat quiet_step.

