(* ===== verification/QueueInv.v ===== *)
(** * Invariants of the coordinator's tables

    The store, the ready queues with their counters, the leases, the retry heap
    and the permits, each related to the store, and how a change of one job
    moves them together.  Nothing here depends on the order of the actions. *)

From S2P Require Import Prelude Types Config Store Codec Scanner Writer Recovery.
From S2P Require Import RetryHeap Environment Coordinator.

(** ** Jobs *)

(** The number of times a job may be leased. *)
Definition attempt_limit (job : JobRecord) : Z := Z.max 1 (max_attempts (job_spec job)).

(** A job has not used more attempts than it may, and one that can be leased
    again has an attempt left. *)
Definition job_ok (job : JobRecord) : Prop :=
  u32_range (max_attempts (job_spec job))
  ∧ 0 ≤ job_attempts job ≤ attempt_limit job
  ∧ match job_state job with
    | Queued => job_attempts job < attempt_limit job
    | RetryWaiting => job_attempts job < max_attempts (job_spec job)
    | _ => True
    end.

Definition jobs_ok (st : MemoryStore) : Prop :=
  store_wf st ∧ map_Forall (λ _ job, job_ok job) st.

(** [job'] replaces [job]: what identifies a job never changes. *)
Definition same_job (job job' : JobRecord) : Prop :=
  job_id job' = job_id job ∧ job_queue job' = job_queue job
  ∧ job_spec job' = job_spec job ∧ job_created_at job' = job_created_at job.

#[global] Instance same_job_equiv : Equivalence same_job.
Proof. split; unfold same_job; [intros ?|intros ??|intros ???]; intuition congruence. Qed.

Lemma same_job_set_state s job : same_job job (set_state s job).
Proof. done. Qed.
Lemma same_job_set_attempts n job : same_job job (set_attempts n job).
Proof. done. Qed.

#[export] Hint Resolve same_job_set_state same_job_set_attempts : rdq.

Lemma jobs_ok_insert st id job :
  jobs_ok st → job_id job = id → job_ok job → jobs_ok (<[id := job]> st).
Proof. intros [Hwf Hok] ??. split; by apply map_Forall_insert_2. Qed.

(** How the store may change: no job disappears, its identity stays, its
    attempts only grow, and a job that is over does not change at all. *)
Definition evolves (st st' : MemoryStore) : Prop :=
  ∀ id job, st !! id = Some job →
    ∃ job', st' !! id = Some job' ∧ same_job job job'
      ∧ job_attempts job ≤ job_attempts job'
      ∧ (is_terminal (job_state job) = true → job' = job).

#[global] Instance evolves_preorder : PreOrder evolves.
Proof.
  split.
  - intros st id job Hj. exists job. split_and!; [done|reflexivity|lia|done].
  - intros st1 st2 st3 H12 H23 id job Hj.
    destruct (H12 _ _ Hj) as (j2 & Hj2 & Hs2 & Ha2 & Ht2).
    destruct (H23 _ _ Hj2) as (j3 & Hj3 & Hs3 & Ha3 & Ht3).
    exists j3. split_and!; [done|by transitivity j2|lia|].
    intros Ht. rewrite <-(Ht2 Ht). apply Ht3. by rewrite (Ht2 Ht).
Qed.

Lemma evolves_update st id job job' :
  st !! id = Some job → is_terminal (job_state job) = false →
  same_job job job' → job_attempts job ≤ job_attempts job' →
  evolves st (<[id := job']> st).
Proof.
  intros Hj Hlive Hs Ha i j Hi. destruct (decide (i = id)) as [->|Hne].
  - simplify_eq. exists job'. rewrite lookup_insert_eq.
    split_and!; [done|done|done|congruence].
  - exists j. rewrite lookup_insert_ne by done. split_and!; [done|reflexivity|lia|done].
Qed.

Lemma evolves_new st id job : st !! id = None → evolves st (<[id := job]> st).
Proof.
  intros Hn i j Hi. exists j. rewrite lookup_insert_ne by congruence.
  split_and!; [done|reflexivity|lia|done].
Qed.

(** ** Ready queues and counters *)

(** The counter of a state. *)
Definition stat_of (s : JobState) (q : QueueStats) : Z :=
  match s with
  | Queued => qstat_queued q
  | Running => qstat_running q
  | RetryWaiting => qstat_retrying q
  | Completed => qstat_completed q
  | Dead => qstat_dead q
  | Cancelled => qstat_cancelled q
  end.

(** The ready list of queue [q] holds exactly its [Queued] jobs, and as long as
    the jobs can be counted in 64 bits every counter is the number of the jobs
    of the queue in that state. *)
Record queue_ok (st : MemoryStore) (q : string) (qs : QueueState) : Prop := {
  ready_NoDup : NoDup (qs_ready qs);
  ready_exact : ∀ id, id ∈ qs_ready qs ↔ ∃ job, st !! id = Some job ∧ in_queue q Queued job = true;
  stats_exact : Z.of_nat (size st) ≤ u64_max →
    ∀ s, stat_of s (qs_stats qs) = count_jobs (in_queue q s) st;
}.

Record queues_ok (st : MemoryStore) (queues : gmap string QueueState) : Prop := {
  queue_of_live : ∀ id job, st !! id = Some job → is_terminal (job_state job) = false →
    is_Some (queues !! as_str (job_queue job));
  each_queue_ok : map_Forall (queue_ok st) queues;
}.

Definition in_old (q : string) (s : JobState) (old : option JobRecord) : Z :=
  match old with Some job => b2z (in_queue q s job) | None => 0 end.

Lemma count_jobs_set st id job' q s :
  count_jobs (in_queue q s) (<[id := job']> st) =
    count_jobs (in_queue q s) st - in_old q s (st !! id) + b2z (in_queue q s job').
Proof.
  destruct (st !! id) as [job|] eqn:Hj; cbn.
  - by apply mcount_update.
  - rewrite mcount_new by done. lia.
Qed.

Lemma size_insert_le (st : MemoryStore) id job : (size st ≤ size (<[id := job]> st))%nat.
Proof.
  destruct (st !! id) as [old|] eqn:Hj.
  - by rewrite map_size_insert_Some.
  - rewrite map_size_insert_None by done. lia.
Qed.

(** What the update of a counter record must do when a job of its queue goes
    from [old] (absent for a new job) to [new]. *)
Definition stats_move (old : option JobState) (new : JobState) (fs : QueueStats → QueueStats) : Prop :=
  ∀ qs, (∀ s, 0 ≤ stat_of s qs) → stat_of new qs < u64_max →
    (∀ s, old = Some s → 1 ≤ stat_of s qs) →
    ∀ s, stat_of s (fs qs) =
      stat_of s qs - b2z (bool_decide (old = Some s)) + b2z (bool_decide (s = new)).

(** ... and the update of a ready list. *)
Definition ready_move (id : JobId) (old : option JobState) (new : JobState)
    (fr : list JobId → list JobId) : Prop :=
  ∀ r, NoDup r → (id ∈ r ↔ old = Some Queued) →
    NoDup (fr r) ∧ ∀ i, i ∈ fr r ↔ (i ≠ id ∧ i ∈ r) ∨ (i = id ∧ new = Queued).

Lemma queue_ok_other st id job' q qs :
  queue_ok st q qs → as_str (job_queue job') ≠ q →
  (∀ job, st !! id = Some job → as_str (job_queue job) ≠ q) →
  queue_ok (<[id := job']> st) q qs.
Proof.
  intros [Hnd Hin Hst] Hne Hold. split; [done| |].
  - intros i. rewrite Hin. destruct (decide (i = id)) as [->|Hi].
    + rewrite lookup_insert_eq. setoid_rewrite in_queue_spec. naive_solver.
    + by rewrite lookup_insert_ne.
  - intros Hsz s. pose proof (size_insert_le st id job'). rewrite count_jobs_set, Hst by lia.
    assert (in_queue q s job' = false) as -> by (apply in_queue_false; naive_solver).
    assert (in_old q s (st !! id) = 0) as ->; [|cbn; lia].
    destruct (st !! id) as [job|] eqn:Hj; [|done]. cbn.
    assert (in_queue q s job = false) as -> by (apply in_queue_false; naive_solver). done.
Qed.

Lemma queue_ok_move st id job' q qs fr fs :
  queue_ok st q qs → as_str (job_queue job') = q →
  (∀ job, st !! id = Some job → job_queue job = job_queue job') →
  job_state <$> st !! id ≠ Some (job_state job') →
  ready_move id (job_state <$> st !! id) (job_state job') fr →
  stats_move (job_state <$> st !! id) (job_state job') fs →
  queue_ok (<[id := job']> st) q (mkQueueState (fr (qs_ready qs)) (fs (qs_stats qs))).
Proof.
  intros [Hnd Hin Hst] Hq Hold Hdiff Hfr Hfs.
  assert (∀ s, in_old q s (st !! id) = b2z (bool_decide (job_state <$> st !! id = Some s))) as Hio.
  { intros s. destruct (st !! id) as [job|] eqn:Hj; [|by rewrite bool_decide_false].
    cbn. f_equal. unfold in_queue. rewrite (Hold _ eq_refl), Hq, bool_decide_true by done. cbn.
    apply bool_decide_ext. naive_solver. }
  assert (∀ s, in_queue q s job' = bool_decide (s = job_state job')) as Hin'.
  { intros s. unfold in_queue. rewrite Hq, bool_decide_true by done. cbn.
    apply bool_decide_ext. naive_solver. }
  destruct (Hfr _ Hnd) as [Hnd' Hin'r].
  { rewrite Hin. destruct (st !! id) as [job|] eqn:Hj; [|naive_solver]. cbn.
    setoid_rewrite in_queue_spec. specialize (Hold _ eq_refl). naive_solver congruence. }
  split; cbn [qs_ready qs_stats]; [done| |].
  - intros i. rewrite Hin'r, Hin. destruct (decide (i = id)) as [->|Hi].
    + rewrite lookup_insert_eq. setoid_rewrite in_queue_spec. naive_solver.
    + rewrite lookup_insert_ne by done. naive_solver.
  - intros Hsz s. pose proof (size_insert_le st id job') as Hle.
    specialize (Hst ltac:(lia)).
    rewrite count_jobs_set, Hio, Hin', <-Hst. apply Hfs.
    + intros s'. rewrite Hst. apply mcount_nonneg.
    + pose proof (mcount_size (in_queue q (job_state job')) (<[id := job']> st)) as Hc.
      rewrite count_jobs_set, Hio, Hin', <-Hst in Hc.
      rewrite (bool_decide_false _ Hdiff), bool_decide_true in Hc by done. cbn in Hc. lia.
    + intros s' Hs'. rewrite Hst. destruct (st !! id) as [job|] eqn:Hj; [|done].
      eapply mcount_pos; [exact Hj|]. apply in_queue_spec.
      rewrite (Hold _ eq_refl). cbn in Hs'. naive_solver.
Qed.

(** One job changes state (or is new), and its queue is updated accordingly. *)
Lemma queues_ok_move st queues id job' fr fs :
  queues_ok st queues →
  is_Some (queues !! as_str (job_queue job')) →
  (∀ job, st !! id = Some job → job_queue job = job_queue job') →
  job_state <$> st !! id ≠ Some (job_state job') →
  ready_move id (job_state <$> st !! id) (job_state job') fr →
  stats_move (job_state <$> st !! id) (job_state job') fs →
  queues_ok (<[id := job']> st)
    (alter (λ qs, mkQueueState (fr (qs_ready qs)) (fs (qs_stats qs))) (as_str (job_queue job')) queues).
Proof.
  intros [Hlive Hall] Hsome Hold Hdiff Hfr Hfs. split.
  - intros i job Hi Hl. rewrite lookup_alter_is_Some.
    destruct (decide (i = id)) as [->|Hne].
    + rewrite lookup_insert_eq in Hi. by simplify_eq.
    + rewrite lookup_insert_ne in Hi by done. by apply Hlive in Hi.
  - intros q qs Hq. destruct (decide (q = as_str (job_queue job'))) as [->|Hne].
    + rewrite lookup_alter_eq in Hq. apply fmap_Some in Hq as (qs0 & Hq0 & ->).
      apply queue_ok_move; auto.
    + rewrite lookup_alter_ne in Hq by done. apply queue_ok_other; [by apply Hall|done|].
      intros job Hj. by rewrite (Hold _ Hj).
Qed.

(** ** Leases, retries, permits *)

(** A lease belongs to a running job. *)
Definition leases_ok (st : MemoryStore) (leases : gmap JobId ActiveLease) : Prop :=
  ∀ id l, leases !! id = Some l → ∃ job, st !! id = Some job ∧ job_state job = Running.

(** A job that waits for its retry has a timer. *)
Definition retries_ok (st : MemoryStore) (entries : list RetryEntry) : Prop :=
  ∀ id job, st !! id = Some job → job_state job = RetryWaiting →
    ∃ e, e ∈ entries ∧ entry_job_id e = id.

(** A permit is held for a job that is not over, and comes from its queue. *)
Definition permits_ok (st : MemoryStore) (permits : gmap JobId string) : Prop :=
  ∀ id p, permits !! id = Some p →
    ∃ job, st !! id = Some job ∧ is_terminal (job_state job) = false ∧ as_str (job_queue job) = p.

Lemma leases_ok_move st leases id job' :
  leases_ok st leases → leases !! id = None ∨ job_state job' = Running →
  leases_ok (<[id := job']> st) leases.
Proof.
  intros Hok Hid i l Hl. destruct (decide (i = id)) as [->|Hne].
  - exists job'. rewrite lookup_insert_eq. naive_solver congruence.
  - rewrite lookup_insert_ne by done. by apply Hok in Hl.
Qed.

Lemma leases_ok_delete st leases id : leases_ok st leases → leases_ok st (delete id leases).
Proof. intros Hok i l [_ Hl]%lookup_delete_Some. by apply Hok in Hl. Qed.

Lemma retries_ok_move st entries entries' id job' :
  retries_ok st entries →
  (∀ e, e ∈ entries → entry_job_id e ≠ id → e ∈ entries') →
  (job_state job' = RetryWaiting → ∃ e, e ∈ entries' ∧ entry_job_id e = id) →
  retries_ok (<[id := job']> st) entries'.
Proof.
  intros Hok Hsub Hid i job Hj Hs. destruct (decide (i = id)) as [->|Hne].
  - rewrite lookup_insert_eq in Hj. naive_solver.
  - rewrite lookup_insert_ne in Hj by done.
    destruct (Hok _ _ Hj Hs) as (e & He & <-). eauto.
Qed.

Lemma permits_ok_move st permits id job' :
  permits_ok st permits →
  (∀ p, permits !! id = Some p →
     is_terminal (job_state job') = false ∧ as_str (job_queue job') = p) →
  permits_ok (<[id := job']> st) permits.
Proof.
  intros Hok Hid i p Hp. destruct (decide (i = id)) as [->|Hne].
  - exists job'. rewrite lookup_insert_eq. naive_solver.
  - rewrite lookup_insert_ne by done. by apply Hok in Hp.
Qed.

Lemma permits_ok_delete st permits id : permits_ok st permits → permits_ok st (delete id permits).
Proof. intros Hok i p [_ Hp]%lookup_delete_Some. by apply Hok in Hp. Qed.
