(* ===== verification/CoordinatorInv.v ===== *)
(** * The invariant of the coordinator

    [inv] relates all tables of the coordinator; [frame] says how a state may
    differ from an earlier one.  Every action preserves the first, stays within
    the second and does not panic.  The storage enters only through the
    interface [LogInv]: a predicate on the tick, the storage and the store that
    survives refused appends, accepted records and expired retry delays. *)

From S2P Require Import Prelude Types Config Store Codec Scanner Writer Recovery.
From S2P Require Import RetryHeap Environment Coordinator QueueInv.

(** ** The moves of the handlers *)

Ltac stats_move_tac :=
  intros [] Hnn Hlt Hpos [];
    pose proof (Hnn Queued); pose proof (Hnn Running); pose proof (Hnn RetryWaiting);
    pose proof (Hnn Completed); pose proof (Hnn Dead); pose proof (Hnn Cancelled);
    try (pose proof (Hpos _ eq_refl)); repeat case_bool_decide; simplify_eq; cbn in *;
    rewrite ?u64_incr_small, ?sat_decr_pos by lia; lia.

Lemma move_submit : stats_move None Queued (λ s, on_queued u64_incr (on_submitted u64_incr s)).
Proof. stats_move_tac. Qed.
Lemma move_lease :
  stats_move (Some Queued) Running (λ s, on_running u64_incr (on_queued sat_decr s)).
Proof. stats_move_tac. Qed.
Lemma move_complete :
  stats_move (Some Running) Completed (λ s, on_completed u64_incr (on_running sat_decr s)).
Proof. stats_move_tac. Qed.
Lemma move_dead :
  stats_move (Some Running) Dead (λ s, on_dead u64_incr (on_running sat_decr s)).
Proof. stats_move_tac. Qed.
Lemma move_retry :
  stats_move (Some Running) RetryWaiting (λ s, on_retrying u64_incr (on_running sat_decr s)).
Proof. stats_move_tac. Qed.
Lemma move_requeue :
  stats_move (Some RetryWaiting) Queued (λ s, on_queued u64_incr (on_retrying sat_decr s)).
Proof. stats_move_tac. Qed.
Lemma move_cancel_queued :
  stats_move (Some Queued) Cancelled (λ s, on_cancelled u64_incr (on_queued sat_decr s)).
Proof. stats_move_tac. Qed.
Lemma move_cancel_running :
  stats_move (Some Running) Cancelled (λ s, on_cancelled u64_incr (on_running sat_decr s)).
Proof. stats_move_tac. Qed.
Lemma move_cancel_retrying :
  stats_move (Some RetryWaiting) Cancelled (λ s, on_cancelled u64_incr (on_retrying sat_decr s)).
Proof. stats_move_tac. Qed.

Lemma ready_push id old :
  old ≠ Some Queued → ready_move id old Queued (λ r, r ++ [id]).
Proof.
  intros Hold r Hnd Hin. split.
  - apply NoDup_snoc. naive_solver.
  - intros i. rewrite elem_of_app, list_elem_of_singleton. destruct (decide (i = id)); naive_solver.
Qed.

Lemma ready_keep id old new :
  old ≠ Some Queued → new ≠ Queued → ready_move id old new (λ r, r).
Proof.
  intros Hold Hnew r Hnd Hin. split; [done|]. intros i.
  destruct (decide (i = id)); naive_solver.
Qed.

Lemma ready_retain id old new : new ≠ Queued → ready_move id old new (retain_ne id).
Proof.
  intros Hnew r Hnd Hin. split; [by apply NoDup_filter|]. intros i.
  unfold retain_ne. rewrite list_elem_of_filter. naive_solver.
Qed.

Lemma retain_ne_notin id r : id ∉ r → retain_ne id r = r.
Proof.
  unfold retain_ne. induction r as [|i r IH]; intros Hni; [done|].
  rewrite filter_cons_True, IH by set_solver. done.
Qed.

(** Popping the front removes the job at the front. *)
Lemma pop_is_retain st q qs id :
  queue_ok st q qs → head (qs_ready qs) = Some id → tail (qs_ready qs) = retain_ne id (qs_ready qs).
Proof.
  intros Hok Hh. pose proof (ready_NoDup _ _ _ Hok) as Hnd.
  destruct (qs_ready qs) as [|i r]; [done|]. cbn [head tail] in *. simplify_eq.
  apply NoDup_cons in Hnd as [Hni _]. unfold retain_ne. rewrite filter_cons_False by auto.
  symmetry. by apply retain_ne_notin.
Qed.

Lemma front_is_queued st q qs id :
  queue_ok st q qs → head (qs_ready qs) = Some id →
  ∃ job, st !! id = Some job ∧ as_str (job_queue job) = q ∧ job_state job = Queued.
Proof.
  intros Hok Hh. destruct (ready_exact _ _ _ Hok id) as [Hin _].
  destruct Hin as (job & Hj & Hq%in_queue_spec).
  - destruct (qs_ready qs); [done|]. cbn in Hh. simplify_eq. left.
  - exists job. naive_solver.
Qed.

(** ** The storage interface *)

(** Enough for the lease epochs not to wrap around. *)
Definition small (t : nat) : Prop := Z.of_nat t < 2 ^ 63.

(** The epoch of the lease that a record grants. *)
Definition lease_epoch (r : WalRecord) : option Z :=
  match r with JobLeased _ lease_id _ _ => Some (epoch lease_id) | _ => None end.

(** The epochs that may be in use at tick [t]. *)
Definition epoch_ok (t : nat) (r : WalRecord) : Prop :=
  ∀ e, lease_epoch r = Some e → small t → 0 ≤ e < 2 ^ 63 + Z.of_nat t.

Lemma epoch_ok_later t t' r : epoch_ok t r → (t ≤ t')%nat → epoch_ok t' r.
Proof.
  intros Hr Ht e He Hs. assert (small t) as Hst by (unfold small in *; lia). specialize (Hr e He Hst). lia.
Qed.

Section invariant.
Context `{W : Wire} `{HI : HashIter} `{RH : RetryHeap} `{!RetryHeapLaws RH}.
Context `{SM : Semaphores} `{!SemaphoresLaws SM} `{EN : Env} `{!EnvLaws EN}.

Class LogInv (P : nat → Storage → MemoryStore → Prop) : Prop := {
  log_later : ∀ t t' sto st, P t sto st → (t ≤ t')%nat → P t' sto st;
  log_refused : ∀ t u t' sto st r e sto',
    P t sto st → (t ≤ u < t')%nat → persist (env_io u) sto r = (Err e, sto') → P t' sto' st;
  log_accepted : ∀ t u t' sto st r n sto' st',
    P t sto st → (t ≤ u < t')%nat → persist (env_io u) sto r = (Ok n, sto') →
    apply_record st r = Ok st' →
    (is_submit r = true → st !! record_job_id r = None) → epoch_ok t' r → P t' sto' st';
  log_requeued : ∀ t sto st id job,
    P t sto st → st !! id = Some job → job_state job = RetryWaiting → job_ok job →
    P t sto (<[id := set_state Queued job]> st);
}.

(** Any storage, nothing said about its content. *)
#[global] Instance any_log : LogInv (λ _ _ _, True).
Proof. done. Qed.

(** ** The invariant *)

(** No deadline the coordinator computes is beyond the last instant. *)
Definition config_fits (cfg : RuntimeConfig) : Prop :=
  duration_range (base_delay (cfg_retry cfg))
  ∧ duration_range (max_delay (cfg_retry cfg))
  ∧ ∀ t, env_instant t + visibility_timeout cfg ≤ instant_max
       ∧ env_instant t + shutdown_timeout cfg ≤ instant_max
       ∧ env_instant t + max_delay (cfg_retry cfg) ≤ instant_max.

Context (P : nat → Storage → MemoryStore → Prop) `{!LogInv P}.

Record inv (s : State) : Prop := {
  i_jobs : jobs_ok (co_store (coord s));
  i_queues : queues_ok (co_store (coord s)) (co_queues (coord s));
  i_leases : leases_ok (co_store (coord s)) (co_leases (coord s));
  i_retries : retries_ok (co_store (coord s)) (heap_elems (co_retry_queue (coord s)));
  i_permits : permits_ok (co_store (coord s)) (co_permits (coord s));
  i_sems : ∀ q, is_Some (co_semaphores (coord s) !! q) ↔ is_Some (co_queues (coord s) !! q);
  i_order : ∀ q, q ∈ co_queue_order (coord s) ↔ is_Some (co_queues (coord s) !! q);
  i_idx : co_queue_order (coord s) = []
          ∨ (co_next_queue_idx (coord s) < length (co_queue_order (coord s)))%nat;
  i_epoch : small (tick s) →
    0 ≤ co_next_lease_epoch (coord s) ≤ 2 ^ 63 + Z.of_nat (tick s)
    ∧ ∀ id l, co_leases (coord s) !! id = Some l →
        epoch (al_lease_id l) < co_next_lease_epoch (coord s);
  i_fresh : ∀ t, (tick s ≤ t)%nat → co_store (coord s) !! env_uuid t = None;
  i_config : config_fits (co_config (coord s));
  i_shutdown : if co_shutting_down (coord s) then co_parked_workers (coord s) = []
               else co_shutdown_deadline (coord s) = None;
  i_log : P (tick s) (co_storage (coord s)) (co_store (coord s));
}.

(** The free and the held permits of a queue. *)
Definition held (q : string) (permits : gmap JobId string) : Z :=
  mcount (λ p, bool_decide (p = q)) permits.
Definition free (q : string) (sems : gmap string Semaphore) : Z :=
  default 0 (sem_available <$> sems !! q).
Definition permit_total (c : Coordinator) (q : string) : Z :=
  free q (co_semaphores c) + held q (co_permits c).

(** How [s'] may differ from an earlier [s]; [k] permits of each queue came in
    with a command. *)
Record frame (k : string → Z) (s s' : State) : Prop := {
  fr_tick : (tick s ≤ tick s')%nat;
  fr_trace : trace s `prefix_of` trace s';
  fr_config : co_config (coord s') = co_config (coord s);
  fr_order : co_queue_order (coord s') = co_queue_order (coord s);
  fr_shutting : co_shutting_down (coord s) = true → co_shutting_down (coord s') = true;
  fr_store : evolves (co_store (coord s)) (co_store (coord s'));
  fr_epoch : small (tick s') → co_next_lease_epoch (coord s) ≤ co_next_lease_epoch (coord s');
  fr_leases : ∀ id l, co_leases (coord s') !! id = Some l →
    co_leases (coord s) !! id = Some l
    ∨ (small (tick s') → co_next_lease_epoch (coord s) ≤ epoch (al_lease_id l));
  (** while shutting down no job is leased *)
  fr_drain : co_shutting_down (coord s) = true → ∀ id l,
    co_leases (coord s') !! id = Some l → co_leases (coord s) !! id = Some l;
  fr_permits : ∀ q, is_Some (co_queues (coord s) !! q) →
    is_Some (co_queues (coord s') !! q)
    ∧ permit_total (coord s') q = permit_total (coord s) q + k q;
  (** the coordinator only returns permits *)
  fr_free : ∀ q, is_Some (co_queues (coord s) !! q) →
    free q (co_semaphores (coord s)) ≤ free q (co_semaphores (coord s'));
  (** no job that is not over loses its permit *)
  fr_held : ∀ id job', co_store (coord s') !! id = Some job' → is_terminal (job_state job') = false →
    co_permits (coord s') !! id = None →
    ∃ job, co_store (coord s) !! id = Some job ∧ is_terminal (job_state job) = false
           ∧ co_permits (coord s) !! id = None;
}.

Abbreviation none := (λ _ : string, 0).

Lemma frame_refl s : frame none s s.
Proof. split; try done; [naive_solver| |by eauto]. intros q Hq. split; [done|lia]. Qed.

Lemma frame_trans k1 k2 s1 s2 s3 :
  frame k1 s1 s2 → frame k2 s2 s3 → frame (λ q, k1 q + k2 q) s1 s3.
Proof.
  intros F G. pose proof (fr_tick _ _ _ F). pose proof (fr_tick _ _ _ G).
  assert (small (tick s3) → small (tick s2)) as Hsm by (unfold small; lia).
  split.
  - lia.
  - etrans; [apply F|apply G].
  - rewrite (fr_config _ _ _ G). apply F.
  - rewrite (fr_order _ _ _ G). apply F.
  - intros Hs. by apply (fr_shutting _ _ _ G), (fr_shutting _ _ _ F).
  - etrans; [apply F|apply G].
  - intros Ht. etrans; [apply F|apply G]; auto.
  - intros id l Hl. destruct (fr_leases _ _ _ G _ _ Hl) as [Hl2|Hl2].
    + destruct (fr_leases _ _ _ F _ _ Hl2); auto.
    + right. intros Ht. etrans; [apply (fr_epoch _ _ _ F)|]; auto.
  - intros Hs id l Hl. apply (fr_drain _ _ _ F Hs), (fr_drain _ _ _ G); [by apply F|done].
  - intros q Hq. destruct (fr_permits _ _ _ F q Hq) as [Hq2 Hp2].
    destruct (fr_permits _ _ _ G q Hq2) as [Hq3 Hp3]. split; [done|lia].
  - intros q Hq. etrans; [by apply (fr_free _ _ _ F)|]. apply (fr_free _ _ _ G). by apply F.
  - intros id j3 Hj3 Hl3 Hp3. destruct (fr_held _ _ _ G _ _ Hj3 Hl3 Hp3) as (j2 & Hj2 & Hl2 & Hp2).
    by apply (fr_held _ _ _ F _ _ Hj2).
Qed.

Lemma frame_mono k k' s s' : (∀ q, k q = k' q) → frame k s s' → frame k' s s'.
Proof. intros Hk []. split; try done. intros q. rewrite <-Hk. auto. Qed.

Lemma frame_trans0 s1 s2 s3 : frame none s1 s2 → frame none s2 s3 → frame none s1 s3.
Proof. intros F G. by apply (frame_mono (λ q, 0 + 0)), (frame_trans none none _ _ _ F G). Qed.

(** ** Safe actions *)

(** From [s] the action does not panic, keeps the invariant and the frame, and
    ends with [Q]. *)
Definition safe {A} (m : act A) (k : string → Z) (Q : A → State → Prop) (s : State) : Prop :=
  wp m (λ a s', inv s' ∧ frame k s s' ∧ Q a s') s.

Lemma safe_ret {A} (a : A) (Q : A → State → Prop) s : inv s → Q a s → safe (mret a) none Q s.
Proof. intros. apply wp_ret. split_and!; auto using frame_refl. Qed.

Lemma safe_bind {A B} (m : act A) (f : A → act B) k k' P' Q s :
  safe m k P' s →
  (∀ a s', inv s' → frame k s s' → P' a s' → safe (f a) k' Q s') →
  safe (m ≫= f) (λ q, k q + k' q) Q s.
Proof.
  intros Hm Hf. apply wp_bind. eapply wp_mono; [exact Hm|].
  intros a s' (Hi & Hfr & HP). eapply wp_mono; [by apply Hf|].
  intros b s'' (Hi' & Hfr' & HQ). split_and!; [done|by eapply frame_trans|done].
Qed.

Lemma safe_mono {A} (m : act A) k k' (Q Q' : A → State → Prop) s :
  safe m k Q s → (∀ q, k q = k' q) → (∀ a s', inv s' → frame k s s' → Q a s' → Q' a s') →
  safe m k' Q' s.
Proof.
  intros Hm Hk HQ. eapply wp_mono; [exact Hm|]. intros a s' (Hi & Hfr & Hq).
  split_and!; [done|by eapply frame_mono|by apply HQ].
Qed.

Lemma safe_bind0 {A B} (m : act A) (f : A → act B) P' Q s :
  safe m none P' s →
  (∀ a s', inv s' → frame none s s' → P' a s' → safe (f a) none Q s') →
  safe (m ≫= f) none Q s.
Proof. intros. eapply safe_mono; [eapply safe_bind; eauto|done|done]. Qed.

(** After steps to [s1] that are accounted for, go on from there. *)
Lemma safe_from {A} (m : act A) k k' Q s s1 :
  frame k s s1 → safe m k' Q s1 →
  wp m (λ a s', inv s' ∧ frame (λ q, k q + k' q) s s' ∧ Q a s') s1.
Proof.
  intros Hf Hm. eapply wp_mono; [exact Hm|]. intros a s' (Hi & Hf' & HQ).
  split_and!; [done|by eapply frame_trans|done].
Qed.
End invariant.
