(* ===== verification/JobMachine.v ===== *)
(** * The life of a job, as an abstract machine

    What the coordinator promises about jobs, without its tables: jobs are
    submitted, leased to workers one attempt at a time, and end or wait for the
    next attempt.  [View] is what the outside can know: the store, the current
    leases, the next lease number, the counters and the effects; [move] lists the
    only things that ever happen to it.  [Refinement] shows that the coordinator
    does nothing else; here is what follows from the machine alone. *)

From S2P Require Import Prelude Types Config Store Codec Scanner Writer Recovery.
From S2P Require Import RetryHeap Environment Coordinator QueueInv CoordinatorInv.

Record View := mkView {
  v_store : MemoryStore;
  v_leases : gmap JobId ActiveLease;
  v_epoch : Z;
  v_stats : GlobalStats;
  v_tick : nat;
  v_trace : list Effect;
}.

(** The job in the next attempt, and what its worker is told. *)
Definition attempted (job : JobRecord) : JobRecord :=
  set_attempts (job_attempts job + 1) (set_state Running job).

Definition leased_job (job : JobRecord) (lease : ActiveLease) : LeasedJob :=
  mkLeasedJob
    (mkJobContext (job_id job) (job_queue job) (payload (job_spec job)) (job_attempts job)
       (max_attempts (job_spec job)) (al_cancellation lease))
    (al_lease_id lease).

(** The job that an effect hands to a worker. *)
Definition grant_of (e : Effect) : option LeasedJob :=
  match e with Sent _ (Reply_work w) _ => w | _ => None end.

(** The counter of the way an attempt or a job ended. *)
Definition incr_ended (new : JobState) : GlobalStats → GlobalStats :=
  match new with
  | Completed => incr_completed
  | Dead => incr_dead
  | Cancelled => incr_cancelled
  | RetryWaiting => incr_retried
  | _ => λ gs, gs
  end.

(** A lease ends because its worker reports, or its token is cancelled. *)
Definition ended_by (R : JobId → LeaseId → Prop) (id : JobId) (lease : ActiveLease) (tr tr' : list Effect) : Prop :=
  R id (al_lease_id lease) ∧ tr' = tr ∨ tr' = tr ++ [TokenCancelled (al_cancellation lease)].

(** What can happen; [R] says on which leases workers have reported, [F] whether
    the coordinator may give up its leases because a shutdown takes too long. *)
Inductive move (R : JobId → LeaseId → Prop) (F : Prop) : View → View → Prop :=
| mv_time st ls ep gs t t' tr :
    (t ≤ t')%nat → move R F (mkView st ls ep gs t tr) (mkView st ls ep gs t' tr)
| mv_effect st ls ep gs t tr e :
    grant_of e = None → move R F (mkView st ls ep gs t tr) (mkView st ls ep gs t (tr ++ [e]))
| mv_stale st ls ep gs t tr :
    move R F (mkView st ls ep gs t tr) (mkView st ls ep (incr_stale_outcomes gs) t tr)
| mv_submit st ls ep gs t tr id job :
    st !! id = None → job_id job = id → job_state job = Queued → job_attempts job = 0 →
    move R F (mkView st ls ep gs t tr) (mkView (<[id := job]> st) ls ep (incr_submitted gs) t tr)
(** an attempt begins: the lease has a new number *)
| mv_grant st ls ep gs t t' tr id job lease to alive :
    st !! id = Some job → job_id job = id → job_state job = Queued → ls !! id = None →
    job_attempts job < attempt_limit job → al_lease_id lease = LeaseId_new ep → (t < t')%nat →
    move R F (mkView st ls ep gs t tr)
      (mkView (<[id := attempted job]> st) (<[id := lease]> ls) (u64_incr ep) gs t'
         (tr ++ [Sent to (Reply_work (Some (leased_job (attempted job) lease))) alive]))
(** an attempt ends with its lease *)
| mv_conclude st ls ep gs t tr tr' id job lease new :
    ls !! id = Some lease → st !! id = Some job → job_state job = Running → ended_by R id lease tr tr' →
    is_valid_transition Running new = true →
    (new = RetryWaiting → job_attempts job < max_attempts (job_spec job)) →
    move R F (mkView st ls ep gs t tr)
      (mkView (<[id := set_state new job]> st) (delete id ls) ep (incr_ended new gs) t tr')
(** ... or the lease ends but the job cannot be moved, as the log cannot be written *)
| mv_strand st ls ep gs t tr tr' id lease op e :
    ls !! id = Some lease → ended_by R id lease tr tr' →
    move R F (mkView st ls ep gs t tr) (mkView st (delete id ls) ep gs t (tr' ++ [PersistFailed op e]))
(** ... or a shutdown does not wait any longer *)
| mv_force st ls ep gs t tr id lease :
    F → ls !! id = Some lease →
    move R F (mkView st ls ep gs t tr)
      (mkView st (delete id ls) ep gs t (tr ++ [TokenCancelled (al_cancellation lease)]))
(** a job without a lease is cancelled, or is queued again *)
| mv_cancel st ls ep gs t tr id job :
    st !! id = Some job → ls !! id = None → is_terminal (job_state job) = false →
    move R F (mkView st ls ep gs t tr) (mkView (<[id := set_state Cancelled job]> st) ls ep (incr_cancelled gs) t tr)
| mv_requeue st ls ep gs t tr id job :
    st !! id = Some job → job_state job = RetryWaiting →
    move R F (mkView st ls ep gs t tr) (mkView (<[id := set_state Queued job]> st) ls ep gs t tr).

Definition path (R : JobId → LeaseId → Prop) (F : Prop) : View → View → Prop := rtc (move R F).

Lemma ended_by_mono (R R' : JobId → LeaseId → Prop) id lease tr tr' :
  (∀ id lid, R id lid → R' id lid) → ended_by R id lease tr tr' → ended_by R' id lease tr tr'.
Proof. intros HR [[H1 H2]|H]; [left; auto|by right]. Qed.

Lemma move_mono (R R' : JobId → LeaseId → Prop) (F F' : Prop) v v' :
  (∀ id lid, R id lid → R' id lid) → (F → F') → move R F v v' → move R' F' v v'.
Proof.
  intros HR HF []; [by apply mv_time|by apply mv_effect|by apply mv_stale|by apply mv_submit|by eapply mv_grant
    |by eapply mv_conclude; [..|by eapply ended_by_mono| |]
    |by eapply mv_strand; [|by eapply ended_by_mono]|by apply mv_force; [apply HF|]|by apply mv_cancel|by apply mv_requeue].
Qed.

Lemma path_mono (R R' : JobId → LeaseId → Prop) (F F' : Prop) v v' :
  (∀ id lid, R id lid → R' id lid) → (F → F') → path R F v v' → path R' F' v v'.
Proof.
  intros HR HF. induction 1 as [|v1 v2 v3 Hm _ IH]; [constructor|].
  eapply rtc_l; [|exact IH]. by eapply move_mono.
Qed.

(** ** Jobs only go forward *)

Lemma ended_by_trace R id lease tr tr' :
  ended_by R id lease tr tr' → ∃ effs, tr' = tr ++ effs ∧ omap grant_of effs = [].
Proof.
  intros [[_ ->]| ->]; [exists []; by rewrite app_nil_r|].
  by exists [TokenCancelled (al_cancellation lease)].
Qed.

Lemma move_evolves R F v v' : move R F v v' → evolves (v_store v) (v_store v').
Proof.
  intros [| | |st ls ep gs t tr id job Hn|st ls ep gs t t' tr id job lease to alive Hj Hid Hs
    |st ls ep gs t tr tr' id job lease new Hl Hj Hs| | |st ls ep gs t tr id job Hj Hl Hs|st ls ep gs t tr id job Hj Hs];
    cbn [v_store]; try reflexivity.
  - by apply evolves_new.
  - eapply evolves_update; [done|by rewrite Hs|done|cbn; lia].
  - eapply evolves_update; [done|by rewrite Hs|done|cbn; lia].
  - eapply evolves_update; [done|done|done|cbn; lia].
  - eapply evolves_update; [done|by rewrite Hs|done|cbn; lia].
Qed.

Lemma path_evolves R F v v' : path R F v v' → evolves (v_store v) (v_store v').
Proof. induction 1 as [|v1 v2 v3 Hm _ IH]; [reflexivity|]. etrans; [by eapply move_evolves|done]. Qed.

Lemma move_trace R F v v' : move R F v v' → v_trace v `prefix_of` v_trace v'.
Proof.
  intros [| | | | |st ls ep gs t tr tr' id job lease new Hl Hj Hs He|st ls ep gs t tr tr' id lease op e Hl He| | |];
    cbn [v_trace]; try solve [done | by apply prefix_app_r];
    destruct (ended_by_trace _ _ _ _ _ He) as (effs & -> & _); rewrite <-?app_assoc; by apply prefix_app_r.
Qed.

Lemma path_trace R F v v' : path R F v v' → v_trace v `prefix_of` v_trace v'.
Proof. induction 1 as [|v1 v2 v3 Hm _ IH]; [done|]. etrans; [by eapply move_trace|done]. Qed.

Lemma move_tick R F v v' : move R F v v' → (v_tick v ≤ v_tick v')%nat.
Proof. intros []; cbn [v_tick]; lia. Qed.

Lemma path_tick R F v v' : path R F v v' → (v_tick v ≤ v_tick v')%nat.
Proof. induction 1 as [|v1 v2 v3 Hm _ IH]; [done|]. apply move_tick in Hm. lia. Qed.

(** ** Attempts

    The attempts of a job, as workers were told them. *)

Definition grants (tr : list Effect) : list LeasedJob := omap grant_of tr.

Definition attempts_handed (id : JobId) (tr : list Effect) : list Z :=
  omap (λ lj, if decide (ctx_id (lj_context lj) = id) then Some (ctx_attempt (lj_context lj)) else None) (grants tr).

(** The attempts of a job so far, none before it is submitted. *)
Definition tries (id : JobId) (st : MemoryStore) : Z := default 0 (job_attempts <$> st !! id).

Lemma grants_snoc tr e : grants (tr ++ [e]) = grants tr ++ option_list (grant_of e).
Proof. unfold grants. rewrite omap_app. f_equal. Qed.

Lemma grants_ended R id lease tr tr' : ended_by R id lease tr tr' → grants tr' = grants tr.
Proof.
  intros (effs & -> & He)%ended_by_trace. unfold grants. by rewrite omap_app, He, app_nil_r.
Qed.

Lemma attempts_handed_snoc id tr e :
  attempts_handed id (tr ++ [e]) = attempts_handed id tr ++
    match grant_of e with
    | Some lj => if decide (ctx_id (lj_context lj) = id) then [ctx_attempt (lj_context lj)] else []
    | None => []
    end.
Proof.
  unfold attempts_handed. rewrite grants_snoc, omap_app. f_equal.
  destruct (grant_of e) as [lj|]; [|done]. cbn. case_decide; done.
Qed.

Lemma tries_insert_same id id' job job' st :
  st !! id = Some job → job_attempts job' = job_attempts job → tries id' (<[id := job']> st) = tries id' st.
Proof.
  intros Hj Ha. unfold tries. destruct (decide (id' = id)) as [->|Hne].
  - rewrite lookup_insert_eq, Hj. exact Ha.
  - by rewrite lookup_insert_ne.
Qed.

(** A job is handed out with attempt number [a] exactly when its attempts go
    from [a - 1] to [a]. *)
Lemma move_attempts R F v v' id :
  move R F v v' → tries id (v_store v) ≤ tries id (v_store v')
  ∧ attempts_handed id (v_trace v') = attempts_handed id (v_trace v)
      ++ seqZ (tries id (v_store v) + 1) (tries id (v_store v') - tries id (v_store v)).
Proof.
  intros Hm. assert (∀ l x, x ≤ x ∧ l = l ++ seqZ (x + 1) (x - x)) as Hsame.
  { intros l x. split; [lia|]. by rewrite Z.sub_diag, app_nil_r. }
  destruct Hm as [|st ls ep gs t tr e He| | st ls ep gs t tr i job Hn Hid Hs Ha
    |st ls ep gs t t' tr i job lease to alive Hj Hid Hs Hl Hlim Hep Ht
    |st ls ep gs t tr tr' i job lease new Hl Hj Hs He|st ls ep gs t tr tr' i lease op e Hl He|st ls ep gs t tr i lease _ Hl
    |st ls ep gs t tr i job Hj|st ls ep gs t tr i job Hj];
    cbn [v_store v_trace]; try apply Hsame.
  - rewrite attempts_handed_snoc, He, app_nil_r. apply Hsame.
  - replace (tries id (<[i := job]> st)) with (tries id st); [apply Hsame|]. unfold tries.
    destruct (decide (id = i)) as [->|Hne]; [by rewrite lookup_insert_eq, Hn; cbn; rewrite Ha|by rewrite lookup_insert_ne].
  - rewrite attempts_handed_snoc. cbn [grant_of leased_job lj_context ctx_id ctx_attempt attempted].
    change (job_id (attempted job)) with (job_id job). rewrite Hid.
    change (job_attempts (attempted job)) with (job_attempts job + 1).
    unfold tries. destruct (decide (i = id)) as [->|Hne].
    + rewrite lookup_insert_eq, Hj. cbn. split; [lia|]. f_equal.
      replace (job_attempts job + 1 - job_attempts job) with 1 by lia. done.
    + rewrite lookup_insert_ne, app_nil_r by done. apply Hsame.
  - rewrite (tries_insert_same i id job); [|done|done]. unfold attempts_handed. rewrite (grants_ended _ _ _ _ _ He). apply Hsame.
  - rewrite attempts_handed_snoc, app_nil_r. unfold attempts_handed. rewrite (grants_ended _ _ _ _ _ He). apply Hsame.
  - rewrite attempts_handed_snoc, app_nil_r. apply Hsame.
  - rewrite (tries_insert_same i id job); [apply Hsame|done|done].
  - rewrite (tries_insert_same i id job); [apply Hsame|done|done].
Qed.

Lemma path_attempts R F v v' id :
  path R F v v' → tries id (v_store v) ≤ tries id (v_store v')
  ∧ attempts_handed id (v_trace v') = attempts_handed id (v_trace v)
      ++ seqZ (tries id (v_store v) + 1) (tries id (v_store v') - tries id (v_store v)).
Proof.
  induction 1 as [v|v1 v2 v3 Hm _ [Hle IH]]; [split; [lia|by rewrite Z.sub_diag, app_nil_r]|].
  destruct (move_attempts R F _ _ id Hm) as [Hle1 H1]. split; [lia|].
  rewrite IH, H1, <-app_assoc. f_equal.
  replace (tries id (v_store v3) - tries id (v_store v1)) with
    ((tries id (v_store v2) - tries id (v_store v1)) + (tries id (v_store v3) - tries id (v_store v2))) by lia.
  rewrite seqZ_app by lia. do 2 f_equal. lia.
Qed.

(** ** Leases *)

(** The numbers of the leases that were given to workers. *)
Definition lease_numbers (tr : list Effect) : list Z := (epoch ∘ lj_lease_id) <$> grants tr.

(** The lease numbers cannot have wrapped around. *)
Definition epochs_fit (v : View) : Prop := 0 ≤ v_epoch v ≤ 2 ^ 63 + Z.of_nat (v_tick v).

Lemma lease_numbers_snoc tr e :
  lease_numbers (tr ++ [e]) = lease_numbers tr ++ ((epoch ∘ lj_lease_id) <$> option_list (grant_of e)).
Proof. unfold lease_numbers. by rewrite grants_snoc, fmap_app. Qed.

Lemma move_numbers R F v v' :
  move R F v v' → small (v_tick v') → epochs_fit v →
  epochs_fit v' ∧ v_epoch v ≤ v_epoch v'
  ∧ lease_numbers (v_trace v') = lease_numbers (v_trace v) ++ seqZ (v_epoch v) (v_epoch v' - v_epoch v).
Proof.
  unfold epochs_fit. intros [|st ls ep gs t tr e He| | |st ls ep gs t t' tr i job lease to alive Hj Hid Hs Hl Hlim Hep Ht
    |st ls ep gs t tr tr' i job lease new Hl Hj Hs He|st ls ep gs t tr tr' i lease op e Hl He| | |] Hsm Hf;
    cbn [v_epoch v_tick v_trace] in *;
    try (rewrite Z.sub_diag, app_nil_r; split_and!; [lia..|done]);
    try (rewrite lease_numbers_snoc, ?He, Z.sub_diag; split_and!; [lia..|done]).
  - rewrite u64_incr_small by (unfold small, u64_max in *; lia). split_and!; [lia..|].
    rewrite lease_numbers_snoc. f_equal. cbn. rewrite Hep. by replace (ep + 1 - ep) with 1 by lia.
  - unfold lease_numbers. rewrite (grants_ended _ _ _ _ _ He), Z.sub_diag, app_nil_r. split_and!; [lia..|done].
  - rewrite lease_numbers_snoc, app_nil_r. unfold lease_numbers.
    rewrite (grants_ended _ _ _ _ _ He), Z.sub_diag, app_nil_r. split_and!; [lia..|done].
Qed.

Lemma path_numbers R F v v' :
  path R F v v' → small (v_tick v') → epochs_fit v →
  epochs_fit v' ∧ v_epoch v ≤ v_epoch v'
  ∧ lease_numbers (v_trace v') = lease_numbers (v_trace v) ++ seqZ (v_epoch v) (v_epoch v' - v_epoch v).
Proof.
  induction 1 as [v|v1 v2 v3 Hm Hp IH]; intros Hsm Hf; [split_and!; [done|lia|by rewrite Z.sub_diag, app_nil_r]|].
  destruct (move_numbers R F _ _ Hm) as (Hf2 & Hle1 & H1); [apply path_tick in Hp; unfold small in *; lia|done|].
  destruct (IH Hsm Hf2) as (Hf3 & Hle2 & H2). split_and!; [done|lia|].
  rewrite H2, H1, <-app_assoc. f_equal.
  replace (v_epoch v3 - v_epoch v1) with ((v_epoch v2 - v_epoch v1) + (v_epoch v3 - v_epoch v2)) by lia.
  rewrite seqZ_app by lia. do 2 f_equal. lia.
Qed.

(** What a worker is told is what was submitted. *)
Definition grant_ok (st : MemoryStore) (lj : LeasedJob) : Prop :=
  ∃ job, st !! ctx_id (lj_context lj) = Some job ∧ ctx_queue (lj_context lj) = job_queue job
    ∧ ctx_payload (lj_context lj) = payload (job_spec job)
    ∧ ctx_max_attempts (lj_context lj) = max_attempts (job_spec job).

Lemma grant_ok_evolves st st' lj : evolves st st' → grant_ok st lj → grant_ok st' lj.
Proof.
  intros He (job & Hj & Hq & Hp & Hm). destruct (He _ _ Hj) as (job' & Hj' & (_ & Hq' & Hs' & _) & _).
  exists job'. by rewrite Hq', Hs'.
Qed.

Lemma path_grants R F v v' :
  path R F v v' → Forall (grant_ok (v_store v)) (grants (v_trace v)) →
  Forall (grant_ok (v_store v')) (grants (v_trace v')).
Proof.
  induction 1 as [|v1 v2 v3 Hm _ IH]; [done|]. intros HF. apply IH.
  assert (Forall (grant_ok (v_store v2)) (grants (v_trace v1))) as HF2.
  { eapply Forall_impl; [exact HF|]. intros lj. apply grant_ok_evolves. by eapply move_evolves. }
  clear IH HF. destruct Hm as [|st ls ep gs t tr e He| | |st ls ep gs t t' tr i job lease to alive Hj Hid Hs Hl Hlim Hep Ht
    |st ls ep gs t tr tr' i job lease new Hl Hj Hs He|st ls ep gs t tr tr' i lease op e Hl He| | |];
    cbn [v_trace v_store] in *; rewrite ?grants_snoc, ?app_nil_r; try done.
  - by rewrite He, app_nil_r.
  - apply Forall_app. split; [done|]. constructor; [|constructor]. exists (attempted job). cbn. by rewrite Hid, lookup_insert_eq.
  - by rewrite (grants_ended _ _ _ _ _ He).
  - by rewrite (grants_ended _ _ _ _ _ He).
Qed.

(** ** Counters *)

(** The global counters are the numbers of jobs, modulo the width of a [u64]. *)
Definition counts_jobs (st : MemoryStore) (gs : GlobalStats) : Prop :=
  gs_submitted gs = u64_wrap (Z.of_nat (size st))
  ∧ gs_completed gs = u64_wrap (count_jobs (has_state Completed) st)
  ∧ gs_dead gs = u64_wrap (count_jobs (has_state Dead) st)
  ∧ gs_cancelled gs = u64_wrap (count_jobs (has_state Cancelled) st).

Lemma u64_incr_wrap z : u64_incr (u64_wrap z) = u64_wrap (z + 1).
Proof. unfold u64_incr, u64_wrap. by rewrite Zplus_mod_idemp_l. Qed.

(** A job that is not over goes to the state [new]. *)
Lemma count_state_set st id job new s :
  st !! id = Some job → is_terminal s = true → is_terminal (job_state job) = false →
  count_jobs (has_state s) (<[id := set_state new job]> st)
    = count_jobs (has_state s) st + b2z (bool_decide (new = s)).
Proof.
  intros Hj Hs Hlive. rewrite (mcount_update _ _ _ _ _ Hj). unfold has_state at 2. cbn.
  rewrite (bool_decide_false (job_state job = s)) by congruence. cbn. unfold has_state. cbn. lia.
Qed.

Lemma counts_jobs_set st id job new gs :
  counts_jobs st gs → st !! id = Some job → is_terminal (job_state job) = false →
  counts_jobs (<[id := set_state new job]> st) (incr_ended new gs).
Proof.
  intros (H1 & H2 & H3 & H4) Hj Hlive. unfold counts_jobs.
  rewrite !(count_state_set _ _ _ _ _ Hj), map_size_insert_Some by (done || by rewrite Hj).
  destruct gs, new; cbn in *; rewrite ?Z.add_0_r; subst; rewrite ?u64_incr_wrap; done.
Qed.

Lemma move_counts R F v v' :
  move R F v v' → counts_jobs (v_store v) (v_stats v) → counts_jobs (v_store v') (v_stats v').
Proof.
  intros [| | st ls ep gs t tr|st ls ep gs t tr i job Hn Hid Hs Ha|st ls ep gs t t' tr i job lease to alive Hj Hid Hs Hl Hlim Hep Ht
    |st ls ep gs t tr tr' i job lease new Hl Hj Hs He Hv| | |st ls ep gs t tr i job Hj Hl Hs|st ls ep gs t tr i job Hj Hs]
    Hc; cbn [v_store v_stats] in *; try done.
  - destruct gs. exact Hc.
  - destruct Hc as (H1 & H2 & H3 & H4). unfold counts_jobs.
    rewrite !mcount_new, map_size_insert_None by done. unfold has_state. rewrite Hs. cbn. rewrite !Z.add_0_r.
    destruct gs. cbn in *. split_and!; [|done..]. rewrite H1, u64_incr_wrap. f_equal. lia.
  - apply (counts_jobs_set st i job Running) in Hc; [|done|by rewrite Hs].
    unfold counts_jobs in *. rewrite !(mcount_update _ _ _ _ _ Hj) in *.
    rewrite !map_size_insert_Some in * by by rewrite Hj. done.
  - apply counts_jobs_set; [done|done|by rewrite Hs].
  - by apply (counts_jobs_set st i job Cancelled) in Hc.
  - apply (counts_jobs_set st i job Queued) in Hc; [done|done|by rewrite Hs].
Qed.

Lemma path_counts R F v v' :
  path R F v v' → counts_jobs (v_store v) (v_stats v) → counts_jobs (v_store v') (v_stats v').
Proof. induction 1 as [|v1 v2 v3 Hm _ IH]; [done|]. intros Hc. by apply IH, (move_counts R F v1). Qed.

(** ** Work left

    A bound on what can still happen to the jobs: every change of a job that is
    there uses some of it up. *)

Definition job_work (job : JobRecord) : Z :=
  let left := Z.max 0 (attempt_limit job - job_attempts job) in
  match job_state job with
  | Queued => 3 * left + 1
  | RetryWaiting => 3 * left + 2
  | Running => 3 * left + 3
  | _ => 0
  end.

Definition work (st : MemoryStore) : Z := map_fold (λ _ job acc, job_work job + acc) 0 st.

Lemma job_work_nonneg job : 0 ≤ job_work job.
Proof. unfold job_work. destruct (job_state job); lia. Qed.

Lemma work_new st id job : st !! id = None → work (<[id := job]> st) = job_work job + work st.
Proof.
  intros Hn. unfold work. apply (map_fold_insert_L (λ _ job acc, job_work job + acc)); [|done]. intros. lia.
Qed.

Lemma work_update st id job job' :
  st !! id = Some job → work (<[id := job']> st) = work st - job_work job + job_work job'.
Proof.
  intros Hj. rewrite <-(insert_delete_id st id job Hj) at 2. rewrite <-insert_delete_eq.
  rewrite !work_new by apply lookup_delete_eq. lia.
Qed.

Lemma work_nonneg st : 0 ≤ work st.
Proof.
  induction st as [|id job st Hn IH] using map_ind; [done|]. rewrite work_new by done.
  pose proof (job_work_nonneg job). lia.
Qed.

Lemma work_set_state st id job new :
  st !! id = Some job → is_valid_transition (job_state job) new = true → new ≠ Running →
  work (<[id := set_state new job]> st) < work st.
Proof.
  intros Hj Ht Hne. rewrite (work_update _ _ _ _ Hj). unfold job_work. cbn [job_state job_attempts set_state].
  change (attempt_limit (set_state new job)) with (attempt_limit job). destruct (job_state job), new; try done; lia.
Qed.

Lemma work_attempted st id job :
  st !! id = Some job → job_state job = Queued → job_attempts job < attempt_limit job →
  work (<[id := attempted job]> st) < work st.
Proof.
  intros Hj Hs Hlim. rewrite (work_update _ _ _ _ Hj). unfold job_work.
  change (attempt_limit (attempted job)) with (attempt_limit job). rewrite Hs. cbn. lia.
Qed.

(** Whatever happens to the jobs that are there uses up work, and so does every
    attempt. *)
Lemma move_work R F v v' :
  move R F v v' →
  v_store v' = v_store v ∧ grants (v_trace v') = grants (v_trace v)
  ∨ (size (v_store v) < size (v_store v'))%nat
  ∨ size (v_store v') = size (v_store v) ∧ work (v_store v') < work (v_store v)
    ∧ (length (grants (v_trace v')) ≤ S (length (grants (v_trace v))))%nat.
Proof.
  intros [|st ls ep gs t tr e He| |st ls ep gs t tr i job Hn|st ls ep gs t t' tr i job lease to alive Hj Hid Hs Hl Hlim
    |st ls ep gs t tr tr' i job lease new Hl Hj Hs He Hv|st ls ep gs t tr tr' i lease op e Hl He|
    |st ls ep gs t tr i job Hj Hl Hs|st ls ep gs t tr i job Hj Hs];
    cbn [v_store v_trace]; rewrite ?grants_snoc, ?app_nil_r; try (by left).
  - left. by rewrite He, app_nil_r.
  - right. left. rewrite map_size_insert_None by done. lia.
  - right. right. rewrite map_size_insert_Some, length_app by by rewrite Hj.
    split_and!; [done|by apply work_attempted|cbn; lia].
  - right. right. rewrite map_size_insert_Some, (grants_ended _ _ _ _ _ He) by by rewrite Hj. split_and!; [done| |lia].
    apply work_set_state; [done|by rewrite Hs|by destruct new].
  - left. by rewrite (grants_ended _ _ _ _ _ He).
  - right. right. rewrite map_size_insert_Some by by rewrite Hj. split_and!; [done| |lia].
    apply work_set_state; [done|by destruct (job_state job)|done].
  - right. right. rewrite map_size_insert_Some by by rewrite Hj. split_and!; [done| |lia].
    apply work_set_state; [done|by rewrite Hs|done].
Qed.

Lemma evolves_size st st' : evolves st st' → (size st ≤ size st')%nat.
Proof.
  intros He. rewrite <-!(size_dom (D := gset JobId)). apply subseteq_size. intros id.
  rewrite !elem_of_dom. intros [job Hj]. destruct (He _ _ Hj) as (job' & Hj' & _). by exists job'.
Qed.

(** Without new jobs, attempts are bounded by the work that was left. *)
Lemma path_work R F v v' :
  path R F v v' → size (v_store v') = size (v_store v) →
  work (v_store v') + zlen (grants (v_trace v')) ≤ work (v_store v) + zlen (grants (v_trace v)).
Proof.
  induction 1 as [|v1 v2 v3 Hm Hp IH]; [done|]. intros Hsz.
  pose proof (evolves_size _ _ (move_evolves _ _ _ _ Hm)). pose proof (evolves_size _ _ (path_evolves _ _ _ _ Hp)).
  specialize (IH ltac:(lia)). destruct (move_work _ _ _ _ Hm) as [[H1 H2]|[H1|(_ & H1 & H2)]]; [|lia|lia].
  rewrite <-H1, <-H2. done.
Qed.

(** ** Who may work on a job *)

(** The lease of [lj] is the current one of its job, or its worker was told to
    stop. *)
Definition current (v : View) (lj : LeasedJob) : Prop :=
  ∃ l, v_leases v !! ctx_id (lj_context lj) = Some l ∧ al_lease_id l = lj_lease_id lj
       ∧ al_cancellation l = ctx_cancellation (lj_context lj).

Definition revoked (v : View) (lj : LeasedJob) : Prop :=
  TokenCancelled (ctx_cancellation (lj_context lj)) ∈ v_trace v.

Lemma current_grant st ls ep gs t tr id job lease :
  job_id job = id → current (mkView st (<[id := lease]> ls) ep gs t tr) (leased_job job lease).
Proof. intros <-. exists lease. cbn. by rewrite lookup_insert_eq. Qed.

(** The lease of the job [id] is ended. *)
Lemma current_ended R st st' ls ep gs gs' t tr tr' tr'' id lease lj :
  ls !! id = Some lease → ended_by R id lease tr tr' → tr' `prefix_of` tr'' →
  current (mkView st ls ep gs t tr) lj ∨ revoked (mkView st ls ep gs t tr) lj →
  let v' := mkView st' (delete id ls) ep gs' t tr'' in
  current v' lj ∨ revoked v' lj ∨ R (ctx_id (lj_context lj)) (lj_lease_id lj).
Proof.
  intros Hl He Hpre Hc. cbn. assert (tr `prefix_of` tr'') as Hpre'.
  { destruct (ended_by_trace _ _ _ _ _ He) as (effs & -> & _). etrans; [by apply prefix_app_r|done]. }
  destruct Hc as [(l & Hl' & Hid & Htok)|Hr]; [|right; left; by eapply elem_of_prefix].
  cbn in Hl'. destruct (decide (ctx_id (lj_context lj) = id)) as [<-|Hne].
  - simplify_eq. destruct He as [[HR _]| ->]; [right; right; by rewrite <-Hid|]. right. left.
    unfold revoked. cbn. rewrite <-Htok. eapply elem_of_prefix; [|exact Hpre]. apply elem_of_app. right. left.
  - left. exists l. cbn. by rewrite lookup_delete_ne.
Qed.

(** Whoever was handed a job holds its current lease, or was told to stop, or has
    reported. *)
Lemma move_current R F (Ex : LeasedJob → Prop) v v' :
  (∀ lj, R (ctx_id (lj_context lj)) (lj_lease_id lj) → Ex lj) → move R F v v' →
  (∀ lj, lj ∈ grants (v_trace v) → current v lj ∨ revoked v lj ∨ Ex lj) →
  ∀ lj, lj ∈ grants (v_trace v') → current v' lj ∨ revoked v' lj ∨ Ex lj.
Proof.
  intros HR Hm Hall lj Hin.
  assert (∀ st st' ls ep ep' gs gs' t t' tr tr', tr `prefix_of` tr' →
    current (mkView st ls ep gs t tr) lj ∨ revoked (mkView st ls ep gs t tr) lj ∨ Ex lj →
    current (mkView st' ls ep' gs' t' tr') lj ∨ revoked (mkView st' ls ep' gs' t' tr') lj ∨ Ex lj) as Hsame.
  { intros st st' ls ep ep' gs gs' t t' tr tr' Hpre [H|[H|H]]; [by left|right; left; by eapply elem_of_prefix|by right; right]. }
  assert (∀ st st' ls ep gs gs' t tr tr' tr'' id lease, ls !! id = Some lease → ended_by R id lease tr tr' →
    tr' `prefix_of` tr'' → current (mkView st ls ep gs t tr) lj ∨ revoked (mkView st ls ep gs t tr) lj ∨ Ex lj →
    let v' := mkView st' (delete id ls) ep gs' t tr'' in current v' lj ∨ revoked v' lj ∨ Ex lj) as Hend.
  { intros st st' ls ep gs gs' t tr tr' tr'' id lease Hl He Hpre [H|[H|H]]; [..|by right; right].
    - destruct (current_ended R st st' ls ep gs gs' t tr tr' tr'' id lease lj Hl He Hpre (or_introl H)) as [?|[?|?]]; auto.
    - destruct (current_ended R st st' ls ep gs gs' t tr tr' tr'' id lease lj Hl He Hpre (or_intror H)) as [?|[?|?]]; auto. }
  destruct Hm as [|st ls ep gs t tr e He| |st ls ep gs t tr i job Hn|st ls ep gs t t' tr i job lease to alive Hj Hid Hs Hl
    |st ls ep gs t tr tr' i job lease new Hl Hj Hs He|st ls ep gs t tr tr' i lease op e Hl He
    |st ls ep gs t tr i lease _ Hl|st ls ep gs t tr i job|st ls ep gs t tr i job];
    cbn [v_trace] in Hin, Hall; try (by eapply Hsame; [|by apply Hall]; done).
  - rewrite grants_snoc, He, app_nil_r in Hin. eapply Hsame; [|by apply Hall]. by apply prefix_app_r.
  - rewrite grants_snoc in Hin. apply elem_of_app in Hin as [Hin| ->%list_elem_of_singleton].
    + destruct (Hall lj Hin) as [(l & Hl' & Hc)|[Hx|Hx]]; [|right; left; eapply elem_of_prefix; [exact Hx|by apply prefix_app_r]
        |by right; right].
      left. exists l. split; [|exact Hc]. cbn in *. rewrite lookup_insert_ne; congruence.
    + left. by apply current_grant.
  - rewrite (grants_ended _ _ _ _ _ He) in Hin. eapply Hend; [done|exact He|done|by apply Hall].
  - rewrite grants_snoc, (grants_ended _ _ _ _ _ He), app_nil_r in Hin.
    eapply Hend; [done|exact He|by apply prefix_app_r|by apply Hall].
  - rewrite grants_snoc, app_nil_r in Hin. eapply (Hend _ _ _ _ _ _ _ tr); [done|right; reflexivity|done|by apply Hall].
Qed.

Lemma path_current R F (Ex : LeasedJob → Prop) v v' :
  (∀ lj, R (ctx_id (lj_context lj)) (lj_lease_id lj) → Ex lj) → path R F v v' →
  (∀ lj, lj ∈ grants (v_trace v) → current v lj ∨ revoked v lj ∨ Ex lj) →
  ∀ lj, lj ∈ grants (v_trace v') → current v' lj ∨ revoked v' lj ∨ Ex lj.
Proof.
  intros HR. induction 1 as [|v1 v2 v3 Hm _ IH]; [done|]. intros Hall. apply IH. by eapply move_current.
Qed.

(** ** Nobody is forgotten *)

Definition append_failed (tr : list Effect) : Prop := ∃ op e, PersistFailed op e ∈ tr.

(** Every running job has a lease, unless an append to the log has failed. *)
Definition attended (v : View) : Prop :=
  append_failed (v_trace v)
  ∨ ∀ id job, v_store v !! id = Some job → job_state job = Running → is_Some (v_leases v !! id).

Lemma append_failed_prefix tr tr' : tr `prefix_of` tr' → append_failed tr → append_failed tr'.
Proof. intros Hp (op & e & Hin). exists op, e. by eapply elem_of_prefix. Qed.

Lemma move_attended R (F : Prop) v v' : ¬ F → move R F v v' → attended v → attended v'.
Proof.
  intros HF Hm [Hf|Hall]; [left; eapply append_failed_prefix; [by eapply move_trace|done]|].
  destruct Hm as [| | |st ls ep gs t tr i job Hn Hid Hs|st ls ep gs t t' tr i job lease to alive Hj Hid Hs Hl
    |st ls ep gs t tr tr' i job lease new Hl Hj Hs He Hv|st ls ep gs t tr tr' i lease op e Hl He
    | |st ls ep gs t tr i job|st ls ep gs t tr i job]; cbn [v_store v_leases v_trace] in Hall; try done; try (by right).
  - right. intros k job' Hk Hr. cbn in *. destruct (decide (k = i)) as [->|Hne].
    + rewrite lookup_insert_eq in Hk. naive_solver congruence.
    + rewrite lookup_insert_ne in Hk by done. by eapply Hall.
  - right. intros k job' Hk Hr. cbn in *. destruct (decide (k = i)) as [->|Hne]; [by rewrite lookup_insert_eq|].
    rewrite lookup_insert_ne in Hk by done. rewrite lookup_insert_ne by done. by eapply Hall.
  - right. intros k job' Hk Hr. cbn in *. destruct (decide (k = i)) as [->|Hne].
    + rewrite lookup_insert_eq in Hk. simplify_eq. by destruct new.
    + rewrite lookup_insert_ne in Hk by done. rewrite lookup_delete_ne by done. by eapply Hall.
  - left. exists op, e. apply elem_of_app. right. left.
  - right. intros k job' Hk Hr. cbn in *. destruct (decide (k = i)) as [->|Hne].
    + rewrite lookup_insert_eq in Hk. by simplify_eq.
    + rewrite lookup_insert_ne in Hk by done. by eapply Hall.
  - right. intros k job' Hk Hr. cbn in *. destruct (decide (k = i)) as [->|Hne].
    + rewrite lookup_insert_eq in Hk. by simplify_eq.
    + rewrite lookup_insert_ne in Hk by done. by eapply Hall.
Qed.

Lemma path_attended R (F : Prop) v v' : ¬ F → path R F v v' → attended v → attended v'.
Proof.
  intros HF. induction 1 as [|v1 v2 v3 Hm _ IH]; [done|]. intros H. apply IH. by eapply move_attended.
Qed.
