(* ===== verification/CoordinatorSafe.v ===== *)
(** * The coordinator's actions are safe

    Every action of the coordinator, from a state that satisfies the invariant,
    finishes without a panic in a state that satisfies it and that differs from
    the first one only as [frame] allows. *)

From S2P Require Import Prelude Types Config Store Codec Scanner Writer Recovery.
From S2P Require Import RetryHeap Environment Coordinator QueueInv CoordinatorInv.

Ltac st_simpl :=
  cbn [coord tick trace co_store co_storage co_queues co_queue_order co_next_queue_idx co_permits
       co_leases co_retry_queue co_parked_workers co_semaphores co_config co_next_lease_epoch
       co_global_stats co_shutting_down co_shutdown_deadline co_shutdown_reply co_shutdown_token
       set_store set_storage set_queues set_next_queue_idx set_permits set_leases set_retry_queue
       set_parked_workers set_semaphores set_next_lease_epoch set_global_stats set_shutting_down
       set_shutdown_deadline set_shutdown_reply] in *.

Section primitives.
Context `{RH : RetryHeap} `{SM : Semaphores} `{EN : Env}.

(** ** Rules for the primitive actions *)

Lemma wp_get (Q : Coordinator → State → Prop) s : Q (coord s) s → wp get Q s.
Proof. done. Qed.
Lemma wp_modify f (Q : unit → State → Prop) s :
  Q () (mkState (f (coord s)) (tick s) (trace s)) → wp (modify f) Q s.
Proof. done. Qed.
Lemma wp_ask {A} (o : nat → A) (Q : A → State → Prop) s :
  Q (o (tick s)) (mkState (coord s) (S (tick s)) (trace s)) → wp (ask o) Q s.
Proof. done. Qed.
Lemma wp_emit e (Q : unit → State → Prop) s :
  Q () (mkState (coord s) (tick s) (trace s ++ [e])) → wp (emit e) Q s.
Proof. done. Qed.

(** [self.permits.remove(&id)], as a function. *)
Definition released (id : JobId) (c : Coordinator) : Coordinator :=
  set_semaphores
    match co_permits c !! id with
    | Some p => alter sem_release p (co_semaphores c)
    | None => co_semaphores c
    end
    (set_permits (delete id (co_permits c)) c).

Lemma wp_release id (Q : unit → State → Prop) s :
  Q () (mkState (released id (coord s)) (tick s) (trace s)) → wp (release_permit id) Q s.
Proof.
  intros HQ. unfold release_permit. apply wp_bind, wp_get. cbn beta. unfold released in HQ.
  destruct (co_permits (coord s) !! id) eqn:Hid; [done|].
  rewrite delete_id in HQ by done. by destruct s as [[] ? ?].
Qed.

End primitives.

(** Symbolic execution of the primitive actions. *)
Ltac wp_step :=
  lazymatch goal with
  | |- wp (mbind _ _) _ _ => apply wp_bind
  | |- wp (mret _) _ _ => apply wp_ret
  | |- wp get _ _ => apply wp_get
  | |- wp (modify _) _ _ => apply wp_modify
  | |- wp (update_queue _ _) _ _ => apply wp_modify
  | |- wp (update_global _) _ _ => apply wp_modify
  | |- wp (drop_permit _) _ _ => apply wp_modify
  | |- wp (ask _) _ _ => apply wp_ask
  | |- wp (emit _) _ _ => apply wp_emit
  | |- wp (log_persist_error _ _) _ _ => apply wp_emit
  | |- wp (cancel_token _) _ _ => apply wp_emit
  | |- wp (release_permit _) _ _ => apply wp_release
  end; cbn beta; st_simpl.
Ltac wp_run := repeat wp_step.

Section safe.
Context `{W : Wire} `{HI : HashIter} `{RH : RetryHeap} `{!RetryHeapLaws RH}.
Context `{SM : Semaphores} `{!SemaphoresLaws SM} `{EN : Env} `{!EnvLaws EN}.
Context (P : nat → Storage → MemoryStore → Prop) `{!LogInv P}.

Abbreviation inv := (inv P).
Abbreviation safe := (safe P).
Abbreviation none := (λ _ : string, 0).

Lemma wp_persist r (Q : WalResult (option Z) → State → Prop) s :
  (∀ reply sto, persist (env_io (tick s)) (co_storage (coord s)) r = (reply, sto) →
     Q reply (mkState (set_storage sto (coord s)) (S (tick s)) (trace s))) →
  wp (storage_persist r) Q s.
Proof.
  intros H. unfold storage_persist. apply wp_bind, wp_ask, wp_bind, wp_get. cbn beta.
  st_simpl. destruct (persist _ _ _) as [reply sto] eqn:Hp. by apply H.
Qed.

Lemma wp_apply_ok r st (Q : Result unit → State → Prop) s :
  apply_record (co_store (coord s)) r = Ok st →
  Q (Ok ()) (mkState (set_store st (coord s)) (tick s) (trace s)) →
  wp (store_apply r) Q s.
Proof.
  intros Hst HQ. unfold store_apply. apply wp_bind, wp_get. by rewrite Hst.
Qed.

(** ** Generic preservation *)

(** All fields but the storage, the global counters and the shutdown reply. *)
Definition core (c : Coordinator) :=
  (co_store c, co_queues c, co_queue_order c, co_next_queue_idx c, co_permits c, co_leases c,
   (co_retry_queue c, co_semaphores c, co_config c, co_next_lease_epoch c, co_shutting_down c,
    co_parked_workers c, co_shutdown_deadline c)).

Lemma inv_core s c' t' tr' :
  inv s → (tick s ≤ t')%nat → core c' = core (coord s) →
  P t' (co_storage c') (co_store c') → inv (mkState c' t' tr').
Proof.
  intros I Ht Hc HP. unfold core in Hc. injection Hc as H1 H2 H3 H4 H5 H6 H7 H8 H9 H10 H11 H12 H13.
  split; st_simpl; rewrite ?H1, ?H2, ?H3, ?H4, ?H5, ?H6, ?H7, ?H8, ?H9, ?H10, ?H11, ?H12, ?H13;
    try apply I.
  - intros Hs. destruct (i_epoch _ _ I) as [? ?]; [unfold small in *; lia|]. split; [lia|done].
  - intros t Hle. apply (i_fresh _ _ I). lia.
  - by rewrite <-H1.
Qed.

Lemma frame_core s c' t' tr' :
  (tick s ≤ t')%nat → trace s `prefix_of` tr' → core c' = core (coord s) →
  frame none s (mkState c' t' tr').
Proof.
  intros Ht Htr Hc. unfold core in Hc. injection Hc as H1 H2 H3 H4 H5 H6 H7 H8 H9 H10 H11 H12 H13.
  split; st_simpl; unfold permit_total;
    rewrite ?H1, ?H2, ?H3, ?H4, ?H5, ?H6, ?H7, ?H8, ?H9, ?H10, ?H11; try done; eauto with lia.
Qed.

(** One job moves to another state together with its queue. *)
Lemma inv_move s c' t' tr' id job' fr fs :
  inv s → (tick s ≤ t')%nat →
  co_store c' = <[id := job']> (co_store (coord s)) →
  co_queues c' = alter (λ qs, mkQueueState (fr (qs_ready qs)) (fs (qs_stats qs)))
                   (as_str (job_queue job')) (co_queues (coord s)) →
  (co_queue_order c', co_next_queue_idx c', co_config c', co_shutting_down c',
   co_parked_workers c', co_shutdown_deadline c') =
  (co_queue_order (coord s), co_next_queue_idx (coord s), co_config (coord s),
   co_shutting_down (coord s), co_parked_workers (coord s), co_shutdown_deadline (coord s)) →
  job_id job' = id → job_ok job' →
  is_Some (co_queues (coord s) !! as_str (job_queue job')) →
  (∀ job, co_store (coord s) !! id = Some job → job_queue job = job_queue job') →
  job_state <$> co_store (coord s) !! id ≠ Some (job_state job') →
  ready_move id (job_state <$> co_store (coord s) !! id) (job_state job') fr →
  stats_move (job_state <$> co_store (coord s) !! id) (job_state job') fs →
  (∀ t, (t' ≤ t)%nat → env_uuid t ≠ id) →
  leases_ok (co_store c') (co_leases c') →
  retries_ok (co_store c') (heap_elems (co_retry_queue c')) →
  permits_ok (co_store c') (co_permits c') →
  (∀ q, is_Some (co_semaphores c' !! q) ↔ is_Some (co_semaphores (coord s) !! q)) →
  (small t' → 0 ≤ co_next_lease_epoch c' ≤ 2 ^ 63 + Z.of_nat t'
     ∧ ∀ id l, co_leases c' !! id = Some l → epoch (al_lease_id l) < co_next_lease_epoch c') →
  P t' (co_storage c') (co_store c') →
  inv (mkState c' t' tr').
Proof.
  intros I Ht Hst Hqs Heq Hid Hok Hsome Hold Hdiff Hfr Hfs Hfresh Hl Hr Hp Hsem Hep HP.
  injection Heq as H1 H2 H3 H4 H5 H6.
  split; st_simpl; rewrite ?H1, ?H2, ?H3, ?H4, ?H5, ?H6; try done; try apply I.
  - rewrite Hst. apply jobs_ok_insert; [apply I|done|done].
  - rewrite Hst, Hqs. apply queues_ok_move; try done. apply I.
  - intros q. rewrite Hsem, Hqs, lookup_alter_is_Some. apply I.
  - intros q. rewrite Hqs, lookup_alter_is_Some. apply I.
  - intros t Hle. rewrite Hst, lookup_insert_ne by (symmetry; auto). apply (i_fresh _ _ I). lia.
Qed.

Lemma known_not_fresh s id job t' t :
  inv s → co_store (coord s) !! id = Some job → (tick s ≤ t')%nat → (t' ≤ t)%nat → env_uuid t ≠ id.
Proof. intros I Hj H1 H2 Heq. pose proof (i_fresh _ _ I t ltac:(lia)). congruence. Qed.

Lemma epoch_core s c' t' :
  inv s → (tick s ≤ t')%nat → co_next_lease_epoch c' = co_next_lease_epoch (coord s) →
  (∀ id l, co_leases c' !! id = Some l → co_leases (coord s) !! id = Some l) →
  small t' → 0 ≤ co_next_lease_epoch c' ≤ 2 ^ 63 + Z.of_nat t'
    ∧ ∀ id l, co_leases c' !! id = Some l → epoch (al_lease_id l) < co_next_lease_epoch c'.
Proof.
  intros I Ht He Hsub Hs. destruct (i_epoch _ _ I) as [? Hl]; [unfold small in *; lia|].
  rewrite He. split; [lia|]. intros id l Hid. eapply Hl. by apply Hsub.
Qed.

(** ** Permits *)

Lemma free_release q p sems :
  is_Some (sems !! q) →
  free q (alter sem_release p sems) = free q sems + b2z (bool_decide (p = q)).
Proof.
  intros [sem Hs]. unfold free. case_bool_decide as Hpq; cbn [b2z].
  - subst p. rewrite lookup_alter_eq, Hs. cbn. by destruct (sem_release_spec sem) as [-> _].
  - rewrite lookup_alter_ne by done. lia.
Qed.

Lemma free_close q sems : free q (sem_close <$> sems) = free q sems.
Proof.
  unfold free. rewrite lookup_fmap. destruct (sems !! q) as [sem|]; [|done]. cbn.
  by destruct (sem_close_spec sem) as [-> _].
Qed.

Lemma released_sems id c q :
  is_Some (co_semaphores (released id c) !! q) ↔ is_Some (co_semaphores c !! q).
Proof.
  unfold released. st_simpl. destruct (co_permits c !! id) as [p|]; [|done].
  apply lookup_alter_is_Some.
Qed.

Lemma released_total id c q :
  is_Some (co_semaphores c !! q) → permit_total (released id c) q = permit_total c q.
Proof.
  intros Hq. unfold permit_total, released. st_simpl.
  destruct (co_permits c !! id) as [p|] eqn:Hp; [|by rewrite delete_id].
  rewrite free_release by done. unfold held.
  rewrite (mcount_delete _ (co_permits c) id p Hp). lia.
Qed.
Lemma released_free id c q :
  is_Some (co_semaphores c !! q) →
  free q (co_semaphores c) ≤ free q (co_semaphores (released id c)).
Proof.
  intros Hq. unfold released. st_simpl. destruct (co_permits c !! id) as [p|]; [|lia].
  rewrite free_release by done. unfold b2z. case_match; lia.
Qed.

(** ** Ending a job *)

Lemma frame_move s c' t' tr' id job job' :
  (tick s ≤ t')%nat → trace s `prefix_of` tr' →
  co_store (coord s) !! id = Some job → is_terminal (job_state job) = false →
  same_job job job' → job_attempts job ≤ job_attempts job' →
  co_store c' = <[id := job']> (co_store (coord s)) →
  (co_queue_order c', co_config c', co_shutting_down c', co_next_lease_epoch c') =
  (co_queue_order (coord s), co_config (coord s), co_shutting_down (coord s),
   co_next_lease_epoch (coord s)) →
  (∀ i l, co_leases c' !! i = Some l → co_leases (coord s) !! i = Some l) →
  (∀ q, is_Some (co_queues (coord s) !! q) →
     is_Some (co_queues c' !! q) ∧ permit_total c' q = permit_total (coord s) q
     ∧ free q (co_semaphores (coord s)) ≤ free q (co_semaphores c')) →
  co_permits c' = (if is_terminal (job_state job') then delete id (co_permits (coord s))
                   else co_permits (coord s)) →
  frame none s (mkState c' t' tr').
Proof.
  intros Ht Htr Hj Hlive Hsame Hatt Hst Heq Hl Hq Hpm. injection Heq as H1 H2 H3 H4.
  split; st_simpl; rewrite ?H1, ?H2, ?H3, ?H4; try done.
  - rewrite Hst. by eapply evolves_update.
  - naive_solver.
  - intros q Hs. destruct (Hq q Hs) as (? & ? & _). split; [done|lia].
  - intros q Hs. by apply Hq.
  - intros i j. rewrite Hst, Hpm. destruct (decide (i = id)) as [->|Hne].
    + rewrite lookup_insert_eq. intros [= <-] ->. by eauto.
    + rewrite lookup_insert_ne by done. intros Hi Hli Hpi. exists j. split_and!; [done|done|].
      destruct (is_terminal (job_state job')); [|done]. by rewrite lookup_delete_ne in Hpi.
Qed.

(** The state after a job without a lease went to a terminal state. *)
Definition finished (id : JobId) (job : JobRecord) (new : JobState)
    (fr : list JobId → list JobId) (fs : QueueStats → QueueStats) (sto : Storage) (gs : GlobalStats) (c : Coordinator) : Coordinator :=
  set_global_stats gs
    (released id
       (set_queues (alter (λ qs, mkQueueState (fr (qs_ready qs)) (fs (qs_stats qs)))
                      (as_str (job_queue job)) (co_queues c))
          (set_store (<[id := set_state new job]> (co_store c)) (set_storage sto c)))).

Lemma finished_ok s id job new fr fs sto gs t' tr' :
  inv s → co_store (coord s) !! id = Some job → is_terminal (job_state job) = false →
  ready_move id (Some (job_state job)) new fr → co_leases (coord s) !! id = None → is_terminal new = true →
  stats_move (Some (job_state job)) new fs →
  P t' sto (<[id := set_state new job]> (co_store (coord s))) →
  (tick s ≤ t')%nat → trace s `prefix_of` tr' →
  inv (mkState (finished id job new fr fs sto gs (coord s)) t' tr')
  ∧ frame none s (mkState (finished id job new fr fs sto gs (coord s)) t' tr').
Proof.
  intros I Hj Hlive Hfr Hl Hnew Hfs HP Ht Htr.
  pose proof (queue_of_live _ _ (i_queues _ _ I) _ _ Hj Hlive) as Hq.
  pose proof (i_jobs _ _ I) as [Hwf Hjobs].
  pose proof (Hjobs _ _ Hj) as (Hmax & Hatt & _).
  split.
  - eapply (inv_move s _ _ _ id (set_state new job) fr fs I);
      rewrite ?Hj; cbn [finished]; try done.
    + exact (Hwf _ _ Hj).
    + unfold job_ok, attempt_limit in *. cbn. by destruct new.
    + by intros ? [= ->].
    + cbn. by destruct (job_state job), new.
    + intros t. by eapply known_not_fresh.
    + apply leases_ok_move; [apply I|by left].
    + apply (retries_ok_move _ (heap_elems (co_retry_queue (coord s)))); [apply I|done|by destruct new].
    + unfold finished, released. st_simpl. apply permits_ok_move; [apply permits_ok_delete, I|].
      intros p. by rewrite lookup_delete_eq.
    + intros q. unfold finished. st_simpl. by rewrite released_sems.
    + by apply (epoch_core s).
  - eapply (frame_move _ _ _ _ id job (set_state new job)); try done.
    + intros q Hs. apply (i_sems _ _ I) in Hs as Hsem. split_and!.
      * unfold finished, released. st_simpl. by rewrite lookup_alter_is_Some.
      * unfold finished. by rewrite <-(released_total id (coord s)).
      * exact (released_free id (coord s) q Hsem).
    + cbn [job_state set_state]. by rewrite Hnew.
Qed.
(** A refused append changes nothing but the storage. *)
Lemma refused_ok s t r e sto t' tr' :
  inv s → persist (env_io t) (co_storage (coord s)) r = (Err e, sto) →
  (tick s ≤ t < t')%nat → trace s `prefix_of` tr' →
  inv (mkState (set_storage sto (coord s)) t' tr')
  ∧ frame none s (mkState (set_storage sto (coord s)) t' tr').
Proof.
  intros I Hp Ht Htr. split.
  - apply (inv_core s); [done|lia|done|]. st_simpl. eapply log_refused; [apply I|done|done].
  - apply frame_core; [lia|done|done].
Qed.

Lemma accepted_ok s t t' r n sto st' :
  inv s → persist (env_io t) (co_storage (coord s)) r = (Ok n, sto) → (tick s ≤ t < t')%nat →
  apply_record (co_store (coord s)) r = Ok st' → is_submit r = false ∧ lease_epoch r = None → P t' sto st'.
Proof. intros I Hp Ht Ha [Hs He]. eapply log_accepted; [apply I|done|done|done|congruence|]. intros e. by rewrite He. Qed.

(** The record that ends or retries a running job applies. *)
Lemma apply_running st id job r :
  st !! id = Some job → job_state job = Running → record_job_id r = id →
  is_valid_transition Running (record_target r) = true →
  apply_record st r = Ok (<[id := set_state (record_target r) job]> st).
Proof.
  intros Hj Hs Hid Ht.
  destruct r; cbn in *; subst; try done;
    (apply transition_ok; exists job; split_and!; [done|by rewrite Hs|done]).
Qed.

Lemma prefix_snoc_refl {A} (l : list A) x : l `prefix_of` l ++ [x].
Proof. by apply prefix_app_r. Qed.
Hint Resolve prefix_snoc_refl : core.

(** The proof for the two actions that end a running job. *)
Ltac finish_tac I Hj Hs id job new move :=
  wp_step; wp_step; wp_step; apply wp_persist; intros [n|e] sto Hp; st_simpl; cbn beta iota;
  [ wp_step; eapply wp_apply_ok; [st_simpl; by apply (apply_running _ id job)|];
    cbn beta iota; wp_run;
    refine ((λ H, conj (proj1 H) (conj (proj2 H) Logic.I)) _);
    apply (finished_ok _ id job new (λ r, r)); rewrite ?Hs; try done;
      [by apply ready_keep|apply move| |lia];
    eapply accepted_ok; [done|done|lia| |done]; by apply (apply_running _ id job)
  | wp_run; refine ((λ H, conj (proj1 H) (conj (proj2 H) Logic.I)) _);
    apply (refused_ok _ _ _ _ _ _ _ I Hp); [lia|done] ].

Lemma complete_job_safe s id lid job :
  inv s → co_store (coord s) !! id = Some job → job_state job = Running →
  co_leases (coord s) !! id = None →
  safe (complete_job id lid (job_queue job)) none (λ _ _, True) s.
Proof.
  intros I Hj Hs Hl. unfold CoordinatorInv.safe, complete_job.
  finish_tac I Hj Hs id job Completed move_complete.
Qed.

Lemma dead_job_safe s id lid job :
  inv s → co_store (coord s) !! id = Some job → job_state job = Running →
  co_leases (coord s) !! id = None →
  safe (dead_job id lid (job_queue job)) none (λ _ _, True) s.
Proof.
  intros I Hj Hs Hl. unfold CoordinatorInv.safe, dead_job.
  finish_tac I Hj Hs id job Dead move_dead.
Qed.

(** ** Scheduling a retry *)

Definition retried (id : JobId) (job : JobRecord) (entry : RetryEntry)
    (sto : Storage) (c : Coordinator) : Coordinator :=
  set_global_stats (incr_retried (co_global_stats c))
    (set_retry_queue (heap_push entry (co_retry_queue c))
       (set_queues (alter (on_stats (λ s, on_retrying u64_incr (on_running sat_decr s)))
                      (as_str (job_queue job)) (co_queues c))
          (set_store (<[id := set_state RetryWaiting job]> (co_store c)) (set_storage sto c)))).

Lemma retried_ok s id job entry sto t' tr' :
  inv s → co_store (coord s) !! id = Some job → job_state job = Running →
  co_leases (coord s) !! id = None → entry_job_id entry = id →
  job_attempts job < max_attempts (job_spec job) →
  P t' sto (<[id := set_state RetryWaiting job]> (co_store (coord s))) →
  (tick s ≤ t')%nat → trace s `prefix_of` tr' →
  inv (mkState (retried id job entry sto (coord s)) t' tr')
  ∧ frame none s (mkState (retried id job entry sto (coord s)) t' tr').
Proof.
  intros I Hj Hs Hl Hent Hlim HP Ht Htr.
  pose proof (queue_of_live _ _ (i_queues _ _ I) _ _ Hj ltac:(by rewrite Hs)) as Hq.
  pose proof (i_jobs _ _ I) as [Hwf Hjobs].
  pose proof (Hjobs _ _ Hj) as (Hmax & Hatt & _).
  split.
  - eapply (inv_move s _ _ _ id (set_state RetryWaiting job) (λ r, r) _ I);
      rewrite ?Hj; cbn [fmap option_fmap option_map]; rewrite ?Hs; try done.
    + exact (Hwf _ _ Hj).
    + by intros ? [= ->].
    + by apply ready_keep.
    + apply move_retry.
    + intros t. by eapply known_not_fresh.
    + apply leases_ok_move; [apply I|by left].
    + apply (retries_ok_move _ (heap_elems (co_retry_queue (coord s)))); [apply I| |].
      * intros e He _. unfold retried. st_simpl. rewrite heap_push_elems. by right.
      * intros _. exists entry. unfold retried. st_simpl. rewrite heap_push_elems.
        split; [left|done].
    + apply permits_ok_move; [apply I|]. intros p Hp.
      destruct (i_permits _ _ I _ _ Hp) as (? & ? & _ & ?). simplify_eq. done.
    + by apply (epoch_core s).
  - eapply (frame_move _ _ _ _ id job (set_state RetryWaiting job)); try done; [by rewrite Hs|].
    intros q Hs'. unfold retried. st_simpl. by rewrite lookup_alter_is_Some.
Qed.

Lemma retry_delay_fits s attempt t t' :
  inv s →
  instant_add (env_instant t)
    (delay_with_rng (cfg_retry (co_config (coord s))) attempt (env_rand t')) =
  Some (env_instant t + delay_with_rng (cfg_retry (co_config (coord s))) attempt (env_rand t')).
Proof.
  intros I. destruct (i_config _ _ I) as (Hb & Hm & Hfit). specialize (Hfit t) as (_ & _ & Hfit).
  pose proof (delay_with_rng_range _ Hb Hm attempt (env_rand t') (env_rand_range t')).
  pose proof (cap_for_attempt_range _ Hb Hm attempt).
  unfold instant_add. destruct (Z.leb_spec (env_instant t +
    delay_with_rng (cfg_retry (co_config (coord s))) attempt (env_rand t')) instant_max); [done|lia].
Qed.

Lemma schedule_retry_safe s id lid job :
  inv s → co_store (coord s) !! id = Some job → job_state job = Running →
  co_leases (coord s) !! id = None → job_attempts job < max_attempts (job_spec job) →
  safe (schedule_retry id lid (job_queue job) (job_attempts job)) none (λ _ _, True) s.
Proof.
  intros I Hj Hs Hl Hlim. unfold CoordinatorInv.safe, schedule_retry. do 7 wp_step.
  apply wp_persist. intros [n|e] sto Hp; st_simpl; cbn beta iota.
  - wp_step. eapply wp_apply_ok; [st_simpl; by apply (apply_running _ id job)|].
    cbn beta iota. do 5 wp_step.
    eapply wp_unwrap; [by apply retry_delay_fits|]. wp_run.
    refine ((λ H, conj (proj1 H) (conj (proj2 H) Logic.I)) _).
    apply (retried_ok s id job); try done; [|lia].
    eapply accepted_ok; [done|done|lia| |done]. by apply (apply_running _ id job).
  - wp_run. refine ((λ H, conj (proj1 H) (conj (proj2 H) Logic.I)) _).
    apply (refused_ok _ _ _ _ _ _ _ I Hp); [lia|done].
Qed.
(** ** Outcomes and timeouts *)

(** The state without the lease of a job. *)
Definition unleased (id : JobId) (s : State) : State :=
  mkState (set_leases (delete id (co_leases (coord s))) (coord s)) (tick s) (trace s).

Lemma unleased_ok s id tr' :
  inv s → trace s `prefix_of` tr' →
  let s' := mkState (coord (unleased id s)) (tick s) tr' in inv s' ∧ frame none s s'.
Proof.
  intros I Htr s'. split.
  - split; subst s'; unfold unleased; st_simpl; try apply I.
    + apply leases_ok_delete, I.
    + refine (epoch_core s (set_leases (delete id (co_leases (coord s))) (coord s)) (tick s) I _ _ _);
        try done. intros i l [_ Hi]%lookup_delete_Some. done.
  - split; subst s'; unfold unleased; st_simpl; try done.
    + intros i l [_ Hi]%lookup_delete_Some. by left.
    + by intros _ i l [_ Hi]%lookup_delete_Some.
    + intros q Hq. split; [done|]. unfold permit_total. st_simpl. lia.
    + by eauto.
Qed.

Lemma retry_or_dead_safe s id lid job :
  inv s → co_store (coord s) !! id = Some job → job_state job = Running →
  co_leases (coord s) !! id = None →
  safe (if max_attempts (job_spec job) <=? job_attempts job
        then dead_job id lid (job_queue job)
        else schedule_retry id lid (job_queue job) (job_attempts job)) none (λ _ _, True) s.
Proof.
  intros I Hj Hs Hl. destruct (Z.leb_spec (max_attempts (job_spec job)) (job_attempts job)).
  - by apply dead_job_safe.
  - by apply schedule_retry_safe.
Qed.

(** Going on from a state reached within the frame. *)
Lemma safe_after {A} (m : act A) Q s s1 :
  frame none s s1 → safe m none Q s1 →
  wp m (λ a s', inv s' ∧ frame none s s' ∧ Q a s') s1.
Proof.
  intros Hf Hm. eapply wp_mono; [exact (safe_from P m none none Q s s1 Hf Hm)|].
  intros a s' (? & ? & ?). split_and!; [done| |done]. by eapply frame_mono.
Qed.

Lemma stale_safe s : inv s → safe (update_global incr_stale_outcomes) none (λ _ _, True) s.
Proof.
  intros I. unfold CoordinatorInv.safe. wp_run. split_and!; [|by apply frame_core|done].
  apply (inv_core s); [done|done|done|apply I].
Qed.

Lemma do_worker_outcome_safe s id lid o :
  inv s → safe (do_worker_outcome id lid o) none (λ _ _, True) s.
Proof.
  intros I. unfold do_worker_outcome, CoordinatorInv.safe. do 2 wp_step.
  destruct (co_leases (coord s) !! id) as [lease|] eqn:Hl; [|by apply stale_safe].
  case_bool_decide as Hlid; [|by apply stale_safe]. cbn [negb].
  destruct (i_leases _ _ I _ _ Hl) as (job & Hj & Hs).
  wp_step. unfold remove_lease. wp_run. unfold store_get. rewrite Hj.
  destruct (unleased_ok s id (trace s) I ltac:(done)) as [I' F'].
  apply (safe_after _ _ s (unleased id s) F').
  assert (co_leases (coord (unleased id s)) !! id = None) as Hl' by apply lookup_delete_eq.
  destruct o; [by apply complete_job_safe| |by apply dead_job_safe|]; by apply retry_or_dead_safe.
Qed.

Lemma time_out_lease_safe s id lid : inv s → safe (time_out_lease id lid) none (λ _ _, True) s.
Proof.
  intros I. unfold time_out_lease, CoordinatorInv.safe. wp_step. unfold remove_lease. wp_run.
  destruct (co_leases (coord s) !! id) as [lease|] eqn:Hl.
  - destruct (i_leases _ _ I _ _ Hl) as (job & Hj & Hs). do 4 wp_step. unfold store_get. rewrite Hj.
    destruct (unleased_ok s id (trace s ++ [TokenCancelled (al_cancellation lease)]) I) as [I' F']; [done|].
    eapply (safe_after _ _ s); [exact F'|]. apply retry_or_dead_safe; try done.
    apply lookup_delete_eq.
  - wp_run. destruct (unleased_ok s id (trace s) I ltac:(done)) as [I' F']. done.
Qed.

Lemma for_each_safe {A} (xs : list A) (body : A → act unit) s :
  inv s → (∀ x s', inv s' → safe (body x) none (λ _ _, True) s') →
  safe (for_each xs body) none (λ _ _, True) s.
Proof.
  intros I Hb. revert s I; induction xs as [|x xs IH]; intros s I; cbn [for_each].
  - by apply safe_ret.
  - eapply safe_bind0; [by apply Hb|]. intros _ s' I' _ _. by apply IH.
Qed.

Lemma ask_safe {A} (o : nat → A) s :
  inv s → safe (ask o) none (λ a s', a = o (tick s) ∧ coord s' = coord s) s.
Proof.
  intros I. unfold CoordinatorInv.safe. wp_run. split_and!; [|apply frame_core; [lia|done..]|done..].
  apply (inv_core s); [done|lia|done|]. eapply log_later; [apply I|cbn; lia].
Qed.

Lemma get_safe s : inv s → safe get none (λ c s', s' = s ∧ c = coord s) s.
Proof. intros I. unfold CoordinatorInv.safe. wp_run. split_and!; auto using frame_refl. Qed.

Lemma check_lease_timeouts_safe s : inv s → safe check_lease_timeouts none (λ _ _, True) s.
Proof.
  intros I. unfold check_lease_timeouts.
  eapply safe_bind0; [by apply ask_safe|]. intros now s1 I1 _ _.
  eapply safe_bind0; [by apply get_safe|]. intros c s2 I2 _ _.
  apply for_each_safe; [done|]. intros e s3 I3. by apply time_out_lease_safe.
Qed.
(** ** Due retries *)

Lemma transition_to_queued_ok st id job :
  st !! id = Some job → job_state job = RetryWaiting →
  transition_to_queued st id = Ok (set_state Queued job, <[id := set_state Queued job]> st).
Proof.
  intros Hj Hs. unfold transition_to_queued, transition. rewrite Hj. cbn. rewrite Hs. cbn.
  by rewrite lookup_insert_eq.
Qed.

Definition requeued (id : JobId) (job : JobRecord) (h : heap) (c : Coordinator) : Coordinator :=
  set_queues
    (alter (λ qs, on_ready (λ ready, ready ++ [id])
                    (on_stats (λ s, on_queued u64_incr (on_retrying sat_decr s)) qs))
       (as_str (job_queue job)) (co_queues c))
    (set_store (<[id := set_state Queued job]> (co_store c)) (set_retry_queue h c)).

Lemma requeued_ok s id job e h :
  inv s → co_store (coord s) !! id = Some job → job_state job = RetryWaiting →
  heap_pop (co_retry_queue (coord s)) = Some (e, h) → entry_job_id e = id →
  let s' := mkState (requeued id job h (coord s)) (tick s) (trace s) in inv s' ∧ frame none s s'.
Proof.
  intros I Hj Hs Hpop He. pose proof (heap_pop_elems _ _ _ Hpop) as Hel.
  pose proof (queue_of_live _ _ (i_queues _ _ I) _ _ Hj ltac:(by rewrite Hs)) as Hq.
  pose proof (i_jobs _ _ I) as [Hwf Hjobs].
  pose proof (Hjobs _ _ Hj) as (Hmax & Hatt & Hlim). rewrite Hs in Hlim.
  split.
  - eapply (inv_move s _ _ _ id (set_state Queued job) (λ r, r ++ [id])
      (λ s, on_queued u64_incr (on_retrying sat_decr s)) I);
      rewrite ?Hj; cbn [fmap option_fmap option_map]; rewrite ?Hs; try done.
    + exact (Hwf _ _ Hj).
    + unfold job_ok, attempt_limit in *. cbn. split_and!; try apply Hatt; [apply Hmax..|lia].
    + by intros ? [= ->].
    + by apply ready_push.
    + apply move_requeue.
    + intros t. by eapply known_not_fresh.
    + apply leases_ok_move; [apply I|]. left. destruct (co_leases _ !! id) as [l|] eqn:Hl; [|done].
      destruct (i_leases _ _ I _ _ Hl) as (? & ? & ?). congruence.
    + apply (retries_ok_move _ (heap_elems (co_retry_queue (coord s)))); [apply I| |done].
      intros e' He' Hne. rewrite Hel in He'. apply elem_of_cons in He' as [->|He']; [done|done].
    + apply permits_ok_move; [apply I|]. intros p Hp.
      destruct (i_permits _ _ I _ _ Hp) as (? & ? & _ & ?). simplify_eq. done.
    + by apply (epoch_core s).
    + eapply log_requeued; [apply I|done|done|by apply Hjobs in Hj].
  - eapply (frame_move _ _ _ _ id job (set_state Queued job)); try done; [by rewrite Hs|].
    intros q Hs'. unfold requeued. st_simpl. by rewrite lookup_alter_is_Some.
Qed.

(** Popping the entry of a job that no longer waits. *)
Lemma popped_ok s e h :
  inv s → heap_pop (co_retry_queue (coord s)) = Some (e, h) →
  (∀ job, co_store (coord s) !! entry_job_id e = Some job → job_state job ≠ RetryWaiting) →
  let s' := mkState (set_retry_queue h (coord s)) (tick s) (trace s) in inv s' ∧ frame none s s'.
Proof.
  intros I Hpop Hnot s'. pose proof (heap_pop_elems _ _ _ Hpop) as Hel. split.
  - split; subst s'; st_simpl; try apply I.
    intros id job Hj Hs. destruct (i_retries _ _ I _ _ Hj Hs) as (e' & He' & Hid).
    rewrite Hel in He'. apply elem_of_cons in He' as [->|He']; [|by exists e'].
    subst id. by destruct (Hnot job Hj).
  - split; subst s'; st_simpl; try done; [by left| |by eauto].
    intros q Hq. split; [done|]. unfold permit_total. st_simpl. lia.
Qed.

(** The loop ends with its fuel, and leaves no entry that is due. *)
Lemma due_loop_safe fuel now s :
  inv s → (length (heap_elems (co_retry_queue (coord s))) ≤ fuel)%nat →
  safe (due_loop fuel now) none
    (λ _ s', ∀ e, e ∈ heap_elems (co_retry_queue (coord s')) → now < available_at e) s.
Proof.
  revert s; induction fuel as [|fuel IH]; intros s I Hlen; cbn [due_loop].
  { apply safe_ret; [done|]. intros e He. destruct (heap_elems _); [by apply elem_of_nil in He|cbn in *; lia]. }
  unfold CoordinatorInv.safe. do 2 wp_step.
  destruct (heap_peek (co_retry_queue (coord s))) as [e|] eqn:Hpeek.
  2:{ apply safe_ret; [done|]. intros e He. rewrite heap_peek_none in He by done. by apply elem_of_nil in He. }
  destruct (Z.ltb_spec now (available_at e)) as [Hlt|Hge].
  { apply safe_ret; [done|]. intros e' He'. pose proof (heap_peek_earliest _ _ _ Hpeek He'). lia. }
  destruct (heap_pop_peek _ _ Hpeek) as [h Hpop]. pose proof (heap_pop_length _ _ _ Hpop) as Hn.
  wp_step. eapply wp_unwrap; [exact Hpop|]. cbn beta iota. do 3 wp_step.
  assert (∀ c', co_retry_queue c' = h →
    let s1 := mkState c' (tick s) (trace s) in inv s1 ∧ frame none s s1 →
    wp (due_loop fuel now) (λ a s', inv s' ∧ frame none s s' ∧
      ∀ e, e ∈ heap_elems (co_retry_queue (coord s')) → now < available_at e) s1) as Hgo.
  { intros c' Hc' s1 [I1 F1]. apply (safe_after _ _ s s1 F1), IH; [done|].
    subst s1. st_simpl. rewrite Hc'. lia. }
  unfold store_get. destruct (co_store (coord s) !! entry_job_id e) as [job|] eqn:Hj.
  2:{ wp_step. apply Hgo; [done|]. eapply popped_ok; [done|done|congruence]. }
  case_bool_decide as Hs; cbn [negb].
  - rewrite (transition_to_queued_ok _ _ _ Hj Hs). wp_run. apply Hgo; [done|].
    by apply (requeued_ok s _ job e h).
  - wp_step. apply Hgo; [done|]. eapply popped_ok; [done|done|congruence].
Qed.

Lemma process_due_retries_safe s :
  inv s →
  safe process_due_retries none
    (λ _ s', ∀ e, e ∈ heap_elems (co_retry_queue (coord s')) → env_instant (tick s) < available_at e) s.
Proof.
  intros I. unfold process_due_retries.
  eapply safe_bind0; [by apply ask_safe|]. intros now s1 I1 _ [-> Hc].
  eapply safe_bind0; [by apply get_safe|]. intros c s2 I2 _ [-> ->]. by apply due_loop_safe.
Qed.
End safe.
