(* ===== verification/CoordinatorLoop.v ===== *)
(** * Leasing, commands and the loop of the coordinator

    The actions that lease jobs, the handlers of the commands, shutdown, and the
    turns of the loop preserve the invariant. *)

From S2P Require Import Prelude Types Config Store Codec Scanner Writer Recovery.
From S2P Require Import RetryHeap Environment Coordinator QueueInv CoordinatorInv CoordinatorSafe.

Section loop.
Context `{W : Wire} `{HI : HashIter} `{RH : RetryHeap} `{!RetryHeapLaws RH}.
Context `{SM : Semaphores} `{!SemaphoresLaws SM} `{EN : Env} `{!EnvLaws EN}.
Context (P : nat → Storage → MemoryStore → Prop) `{!LogInv P}.

Abbreviation inv := (inv P).
Abbreviation safe := (safe P).
Abbreviation none := (λ _ : string, 0).

(** ** Leasing *)

Definition advanced (n : nat) (s : State) : State :=
  mkState (set_next_queue_idx ((co_next_queue_idx (coord s) + 1) mod n)%nat (coord s))
    (tick s) (trace s).

Lemma advanced_ok s n :
  inv s → n = length (co_queue_order (coord s)) → n ≠ 0%nat →
  inv (advanced n s) ∧ frame none s (advanced n s).
Proof.
  intros I -> Hn. split.
  - split; unfold advanced; st_simpl; try apply I. right. by apply Nat.mod_upper_bound.
  - split; unfold advanced; st_simpl; try done; [by left| |by eauto].
    intros q Hq. split; [done|]. unfold permit_total. st_simpl. lia.
Qed.

(** The job as it is leased. *)
Definition lease_job (job : JobRecord) : JobRecord :=
  set_attempts (u32_wrap (job_attempts job + 1)) (set_state Running job).

Lemma lease_job_attempts job :
  job_ok job → job_state job = Queued → job_attempts (lease_job job) = job_attempts job + 1.
Proof.
  intros (Hmax & Hatt & Hlim) Hs. rewrite Hs in Hlim. cbn. unfold u32_wrap, u32_range, attempt_limit in *.
  rewrite Z.mod_small; lia.
Qed.

Definition leased (id : JobId) (job : JobRecord) (lease : ActiveLease) (sto : Storage)
    (c : Coordinator) : Coordinator :=
  set_queues
    (alter (on_stats (λ s, on_running u64_incr (on_queued sat_decr s))) (as_str (job_queue job))
       (alter (on_ready tail) (as_str (job_queue job)) (co_queues c)))
    (set_leases (<[id := lease]> (co_leases c))
       (set_next_lease_epoch (u64_incr (co_next_lease_epoch c))
          (set_store (<[id := lease_job job]> (co_store c)) (set_storage sto c)))).

Lemma leased_queues s id job qs :
  inv s → co_queues (coord s) !! as_str (job_queue job) = Some qs → head (qs_ready qs) = Some id →
  ∀ lease sto, co_queues (leased id job lease sto (coord s)) =
    alter (λ qs, mkQueueState (retain_ne id (qs_ready qs))
                   (on_running u64_incr (on_queued sat_decr (qs_stats qs))))
      (as_str (job_queue job)) (co_queues (coord s)).
Proof.
  intros I Hqs Hh lease sto. unfold leased. st_simpl. rewrite alter_alter_eq.
  apply alter_ext. intros qs' Hqs'. simplify_eq. cbn. unfold on_stats, on_ready. cbn.
  f_equal. eapply pop_is_retain; [|done]. by apply (each_queue_ok _ _ (i_queues _ _ I)).
Qed.

Lemma leased_ok s id job qs lease sto t' tr' :
  inv s → co_store (coord s) !! id = Some job → job_state job = Queued →
  co_queues (coord s) !! as_str (job_queue job) = Some qs → head (qs_ready qs) = Some id →
  al_lease_id lease = LeaseId_new (co_next_lease_epoch (coord s)) →
  P t' sto (<[id := lease_job job]> (co_store (coord s))) →
  co_shutting_down (coord s) = false → (tick s < t')%nat → trace s `prefix_of` tr' →
  let s' := mkState (leased id job lease sto (coord s)) t' tr' in inv s' ∧ frame none s s'.
Proof.
  intros I Hj Hs Hqs Hh Hlid HP Hsd Ht Htr.
  pose proof (i_jobs _ _ I) as [Hwf Hjobs]. pose proof (Hjobs _ _ Hj) as Hok.
  pose proof (lease_job_attempts _ Hok Hs) as Hatt'. destruct Hok as (Hmax & Hatt & Hlim).
  rewrite Hs in Hlim.
  assert (small t' → 0 ≤ co_next_lease_epoch (coord s) ≤ 2 ^ 63 + Z.of_nat (tick s)
    ∧ (∀ i l, co_leases (coord s) !! i = Some l → epoch (al_lease_id l) < co_next_lease_epoch (coord s))
    ∧ u64_incr (co_next_lease_epoch (coord s)) = co_next_lease_epoch (coord s) + 1) as Hep.
  { intros Hsm. destruct (i_epoch _ _ I) as [He Hle]; [unfold small in *; lia|].
    split_and!; [lia..|done|]. apply u64_incr_small. unfold small, u64_max in *. lia. }
  split.
  - eapply (inv_move P s _ _ _ id (lease_job job) (retain_ne id)
      (λ s, on_running u64_incr (on_queued sat_decr s)) I);
      rewrite ?Hj; cbn [fmap option_fmap option_map]; rewrite ?Hs; try done; [lia|..].
    + by eapply (leased_queues s id job qs).
    + exact (Hwf _ _ Hj).
    + unfold job_ok. rewrite Hatt'. unfold attempt_limit in *. cbn. split_and!; try apply Hmax; lia || done.
    + by intros ? [= ->].
    + by apply ready_retain.
    + apply move_lease.
    + intros t Hle. eapply (known_not_fresh P s); [done|done|done|lia].
    + unfold leased. st_simpl. intros i l Hl. destruct (decide (i = id)) as [->|Hne].
      * exists (lease_job job). by rewrite lookup_insert_eq.
      * rewrite !lookup_insert_ne in * by done. by apply (i_leases _ _ I) in Hl.
    + apply (retries_ok_move _ (heap_elems (co_retry_queue (coord s)))); [apply I|done|done].
    + apply permits_ok_move; [apply I|]. intros p Hp.
      destruct (i_permits _ _ I _ _ Hp) as (? & ? & _ & ?). simplify_eq. done.
    + intros Hsm. destruct (Hep Hsm) as (He & Hle & Hinc). unfold leased. st_simpl. rewrite Hinc.
      split; [lia|]. intros i l Hl. destruct (decide (i = id)) as [->|Hne].
      * rewrite lookup_insert_eq in Hl. simplify_eq. rewrite Hlid. cbn. lia.
      * rewrite lookup_insert_ne in Hl by done. apply Hle in Hl. lia.
  - split; unfold leased; st_simpl; try done.
    + lia.
    + eapply evolves_update; [done|by rewrite Hs|done|lia].
    + intros Hsm. destruct (Hep Hsm) as (? & ? & ->). lia.
    + intros i l Hl. destruct (decide (i = id)) as [->|Hne].
      * rewrite lookup_insert_eq in Hl. simplify_eq. right. intros _. rewrite Hlid. cbn. lia.
      * rewrite lookup_insert_ne in Hl by done. by left.
    + congruence.
    + intros q Hq. rewrite !lookup_alter_is_Some. split; [done|]. unfold permit_total. st_simpl. lia.
    + intros i j. destruct (decide (i = id)) as [->|Hne].
      * rewrite lookup_insert_eq. intros _ _ Hp. exists job. by rewrite Hs.
      * rewrite lookup_insert_ne by done. by eauto.
Qed.
(** What leasing leaves alone. *)
Definition lease_frame (s s' : State) : Prop :=
  co_parked_workers (coord s') = co_parked_workers (coord s)
  ∧ co_shutting_down (coord s') = co_shutting_down (coord s)
  ∧ trace s `prefix_of` trace s'
  ∧ co_retry_queue (coord s') = co_retry_queue (coord s).

(** What a worker is told about the job it gets. *)
Definition lease_granted (lj : LeasedJob) (s : State) : Prop :=
  ∃ job lease, co_store (coord s) !! ctx_id (lj_context lj) = Some job
    ∧ job_state job = Running
    ∧ lj_context lj = mkJobContext (job_id job) (job_queue job) (payload (job_spec job))
        (job_attempts job) (max_attempts (job_spec job)) (al_cancellation lease)
    ∧ co_leases (coord s) !! ctx_id (lj_context lj) = Some lease
    ∧ al_lease_id lease = lj_lease_id lj.

Definition lease_post (s0 : State) (r : option LeasedJob) (s : State) : Prop :=
  lease_frame s0 s ∧ match r with Some lj => lease_granted lj s | None => True end.

Lemma visibility_fits s t :
  inv s → instant_add (env_instant t) (visibility_timeout (co_config (coord s))) =
    Some (env_instant t + visibility_timeout (co_config (coord s))).
Proof.
  intros I. destruct (i_config _ _ I) as (_ & _ & Hfit). specialize (Hfit t) as (Hfit & _).
  unfold instant_add. by rewrite (proj2 (Z.leb_le _ _) Hfit).
Qed.

Lemma apply_leased st id lid job ts :
  st !! id = Some job → job_state job = Queued →
  apply_record st (JobLeased id lid (u32_wrap (job_attempts job + 1)) ts) =
    Ok (<[id := lease_job job]> st).
Proof. intros Hj Hs. apply transition_ok. exists job. by rewrite Hs. Qed.

Lemma lease_loop_safe k n s0 s :
  inv s → n = length (co_queue_order (coord s)) → n ≠ 0%nat →
  co_shutting_down (coord s0) = false → lease_frame s0 s →
  safe (lease_loop k n) none (lease_post s0) s.
Proof.
  revert s; induction k as [|k IH]; intros s I Hn Hn0 Hsd F0; cbn [lease_loop].
  { by apply safe_ret. }
  unfold CoordinatorInv.safe. do 3 wp_step.
  destruct (lookup_lt_is_Some_2 (co_queue_order (coord s)) (co_next_queue_idx (coord s))) as [q Hq].
  { destruct (i_idx _ _ I) as [Hnil|]; [|done]. by rewrite Hnil in Hn. }
  eapply wp_unwrap; [exact Hq|]. do 2 wp_step.
  destruct (advanced_ok s n I Hn Hn0) as [I1 F1]. pose proof I1 as I1'.
  assert (∀ s1, inv s1 → frame none s s1 → lease_frame s0 s1 →
    wp (lease_loop k n) (λ a s', inv s' ∧ frame none s s' ∧ lease_post s0 a s') s1) as Hgo.
  { intros s1 Is Fs Ls. apply (safe_after P _ _ s s1 Fs), IH; [done| |done..].
    rewrite (fr_order _ _ _ Fs). done. }
  assert (lease_frame s0 (advanced n s)) as L1 by exact F0.
  destruct (co_queues (coord s) !! q) as [qs|] eqn:Hqs; [|by apply Hgo].
  destruct (head (qs_ready qs)) as [id|] eqn:Hh; [|by apply Hgo].
  destruct (front_is_queued (co_store (coord s)) q qs id) as (job & Hj & <- & Hs); [|done|].
  { by apply (each_queue_ok _ _ (i_queues _ _ I)). }
  unfold store_get. rewrite Hj. rewrite bool_decide_true by done. cbn [negb].
  do 3 wp_step. apply wp_persist. intros [m|e] sto Hp; st_simpl; cbn beta iota.
  2:{ do 2 wp_step. destruct (refused_ok P (advanced n s) _ _ _ _ (S (S (tick s)))
        (trace s ++ [PersistFailed "lease" e]) I1 Hp) as [I2 F2]; [cbn; lia|by apply prefix_app_r|].
      apply Hgo; [done|eapply frame_mono; [|eapply frame_trans; [exact F1|exact F2]]; done|].
      destruct F0 as (? & ? & ? & ?). split_and!; st_simpl; try done. by apply prefix_app_r. }
  do 3 wp_step. eapply wp_apply_ok; [st_simpl; by apply apply_leased|]. cbn beta iota.
  do 7 wp_step. eapply wp_unwrap; [by apply visibility_fits|]. do 6 wp_step.
  unfold store_get. rewrite lookup_insert_eq. wp_step.
  set (lease := mkActiveLease _ _ _).
  assert (P (S (S (S (S (tick s))))) sto (<[id := lease_job job]> (co_store (coord s)))) as HP.
  { eapply (log_accepted _ _ _ (co_storage (coord s)) (co_store (coord s))); [apply I| |exact Hp| |done|];
      [lia|by apply apply_leased|].
    intros e [= <-] Hsm. destruct (i_epoch _ _ I) as [Hep _]; [unfold small in *; lia|]. cbn. lia. }
  destruct (leased_ok (advanced n s) id job qs lease sto (S (S (S (S (tick s))))) (trace s) I1)
    as [I2 F2]; try done; [exact (eq_trans (proj1 (proj2 F0)) Hsd)|cbn; lia|].
  split; [exact I2|]. split; [eapply frame_mono; [|eapply frame_trans; [exact F1|exact F2]]; done|].
  split; [exact F0|].
  exists (lease_job job), lease. cbn [ctx_id lj_context lj_lease_id].
  pose proof (i_jobs _ _ I) as [Hwf _]. rewrite (Hwf _ _ Hj : job_id (lease_job job) = id). st_simpl.
  rewrite !lookup_insert_eq. split_and!; try done.
Qed.

Lemma lease_frame_refl s : lease_frame s s.
Proof. done. Qed.
Hint Resolve lease_frame_refl : core.

Lemma try_lease_job_safe s :
  inv s → co_shutting_down (coord s) = false → safe try_lease_job none (lease_post s) s.
Proof.
  intros I Hsd. unfold try_lease_job. eapply safe_bind0; [by apply get_safe|].
  intros c s' I' _ [-> ->]. destruct (Nat.eqb_spec (length (co_queue_order (coord s))) 0).
  - by apply safe_ret.
  - by apply lease_loop_safe.
Qed.
(** ** Dispatching to parked workers *)

Lemma send_safe to r s : inv s → safe (send to r) none (λ _ s', coord s' = coord s) s.
Proof.
  intros I. unfold CoordinatorInv.safe, send. wp_run. split_and!; [| |done].
  - apply (inv_core P s); [done|lia|done|]. eapply log_later; [apply I|cbn; lia].
  - apply frame_core; [lia|by apply prefix_app_r|done].
Qed.

(** A change of the parked workers or of the shutdown fields. *)
Definition with_shutdown (parked : list N) (shutting : bool) (deadline : option Z)
    (reply : option N) (c : Coordinator) : Coordinator :=
  set_shutdown_reply reply (set_shutdown_deadline deadline
    (set_shutting_down shutting (set_parked_workers parked c))).

Lemma with_shutdown_ok s parked shutting deadline reply t' tr' :
  inv s → (tick s ≤ t')%nat → trace s `prefix_of` tr' →
  (co_shutting_down (coord s) = true → shutting = true) →
  (if shutting then parked = [] else deadline = None) →
  let s' := mkState (with_shutdown parked shutting deadline reply (coord s)) t' tr' in
  inv s' ∧ frame none s s'.
Proof.
  intros I Ht Htr Hmono Hok s'. split.
  - split; subst s'; unfold with_shutdown; st_simpl; try apply I; [| |done|by eapply log_later; [apply I|]].
    + intros Hs. destruct (i_epoch _ _ I) as [? ?]; [unfold small in *; lia|]. split; [lia|done].
    + intros t Hle. apply (i_fresh _ _ I). lia.
  - split; subst s'; unfold with_shutdown; st_simpl; try done; [by left| |by eauto].
    intros q Hq. split; [done|]. unfold permit_total. st_simpl. lia.
Qed.

Lemma set_parked_safe f s :
  inv s → co_shutting_down (coord s) = false →
  safe (modify (λ c, set_parked_workers (f c) c)) none
    (λ _ s', coord s' = set_parked_workers (f (coord s)) (coord s)) s.
Proof.
  intros I Hsh. unfold CoordinatorInv.safe. wp_step. pose proof (i_shutdown _ _ I) as Hd.
  rewrite Hsh in Hd.
  destruct (with_shutdown_ok s (f (coord s)) false None (co_shutdown_reply (coord s)) (tick s) (trace s) I)
    as [I' F']; try done; [congruence|].
  assert (with_shutdown (f (coord s)) false None (co_shutdown_reply (coord s)) (coord s) =
          set_parked_workers (f (coord s)) (coord s)) as Heq.
  { unfold with_shutdown. destruct (coord s). cbn in *. by subst. }
  rewrite Heq in *. split_and!; done.
Qed.

(** The loop ends with its fuel: it stops when no worker is parked or no job can
    be leased. *)
Lemma dispatch_loop_safe fuel s :
  inv s → co_shutting_down (coord s) = false →
  (length (co_parked_workers (coord s)) ≤ fuel)%nat →
  safe (dispatch_loop fuel) none (λ _ s',
    co_shutting_down (coord s') = false
    ∧ co_retry_queue (coord s') = co_retry_queue (coord s)
    ∧ co_parked_workers (coord s') `suffix_of` co_parked_workers (coord s)) s.
Proof.
  revert s; induction fuel as [|fuel IH]; intros s I Hsh Hlen; cbn [dispatch_loop].
  { by apply safe_ret. }
  eapply safe_bind0; [by apply get_safe|]. intros c s1 I1 _ [-> ->].
  case_bool_decide; [by apply safe_ret|].
  eapply safe_bind0; [by apply try_lease_job_safe|]. intros r s2 I2 _ [(Hpk & Hsh2 & _ & Hrq) _].
  destruct r as [lj|]; [|apply safe_ret; [done|]; by rewrite Hpk, Hsh2].
  eapply safe_bind0; [by apply get_safe|]. intros c s3 I3 _ [-> ->]. rewrite Hpk.
  destruct (co_parked_workers (coord s)) as [|w parked] eqn:Hw; [done|].
  eapply (safe_bind0 P _ _ (λ _ s4, coord s4 = set_parked_workers parked (coord s2))).
  { eapply safe_bind0; [apply (set_parked_safe (λ _, parked)); [done|congruence]|].
    intros [] s4 I4 _ H4. cbn beta in H4. eapply safe_bind0; [by apply send_safe|].
    intros b s5 I5 _ H5. apply safe_ret; [done|]. congruence. }
  intros _ s4 I4 _ H4. eapply safe_mono; [apply IH; [done| |]|done|].
  - rewrite H4. st_simpl. congruence.
  - rewrite H4. st_simpl. cbn in Hlen. lia.
  - intros _ s5 _ _ (Ha & Hb & Hc). rewrite H4 in *. st_simpl.
    split_and!; [done|congruence|]. by apply suffix_cons_r.
Qed.

Lemma try_dispatch_safe s :
  inv s → safe try_dispatch_parked_workers none (λ _ s',
    co_shutting_down (coord s') = co_shutting_down (coord s)
    ∧ co_retry_queue (coord s') = co_retry_queue (coord s)) s.
Proof.
  intros I. unfold try_dispatch_parked_workers. eapply safe_bind0; [by apply get_safe|].
  intros c s1 I1 _ [-> ->]. destruct (co_shutting_down (coord s)) eqn:Hsh.
  - by apply safe_ret.
  - eapply safe_mono; [by apply dispatch_loop_safe|done|]. naive_solver.
Qed.

Lemma do_fetch_work_safe s reply : inv s → safe (do_fetch_work reply) none (λ _ _, True) s.
Proof.
  intros I. unfold do_fetch_work. eapply safe_bind0; [by apply get_safe|].
  intros c s1 I1 _ [-> ->]. destruct (co_shutting_down (coord s)) eqn:Hsh.
  - eapply safe_bind0; [by apply send_safe|]. intros ?????. by apply safe_ret.
  - eapply safe_bind0; [by apply try_lease_job_safe|]. intros r s2 I2 _ [(Hpk & Hsh2 & _) _].
    destruct r as [lj|].
    + eapply safe_bind0; [by apply send_safe|]. intros ?????. by apply safe_ret.
    + eapply safe_mono; [apply (set_parked_safe (λ c, co_parked_workers c ++ [reply]));
        [done|congruence]|done|done].
Qed.
(** ** Submission *)

(** One permit of the semaphore [p]. *)
Definition one_permit (p : string) : string → Z := λ q, b2z (bool_decide (p = q)).

Lemma dropped_ok s s1 p :
  inv s1 → frame none s s1 → is_Some (co_semaphores (coord s1) !! p) →
  let s' := mkState (set_semaphores (alter sem_release p (co_semaphores (coord s1))) (coord s1))
              (tick s1) (trace s1) in
  inv s' ∧ frame (one_permit p) s s'.
Proof.
  intros I F Hp s'. split.
  - split; subst s'; st_simpl; try apply I. intros q. rewrite lookup_alter_is_Some. apply I.
  - split; subst s'; st_simpl; try apply F; intros q Hq.
    2:{ rewrite free_release by (by apply (i_sems _ _ I), (fr_permits _ _ _ F)).
        pose proof (fr_free _ _ _ F q Hq). unfold b2z. case_match; lia. }
    destruct (fr_permits _ _ _ F q Hq) as [Hq1 Ht]. split; [done|].
    unfold permit_total in *. st_simpl. rewrite free_release by (by apply (i_sems _ _ I)).
    unfold one_permit. lia.
Qed.

Definition submitted (id : JobId) (job : JobRecord) (permit : string) (sto : Storage)
    (c : Coordinator) : Coordinator :=
  set_global_stats (incr_submitted (co_global_stats c))
    (set_queues
       (alter (on_stats (λ s, on_queued u64_incr (on_submitted u64_incr s))) (as_str (job_queue job))
          (alter (on_ready (λ ready, ready ++ [id])) (as_str (job_queue job)) (co_queues c)))
       (set_permits (<[id := permit]> (co_permits c))
          (set_store (<[id := job]> (co_store c)) (set_storage sto c)))).

Lemma no_permit s id : inv s → co_store (coord s) !! id = None → co_permits (coord s) !! id = None.
Proof.
  intros I Hn. destruct (co_permits (coord s) !! id) as [p|] eqn:Hp; [|done].
  destruct (i_permits _ _ I _ _ Hp) as (? & ? & _). congruence.
Qed.

Lemma no_lease s id : inv s → co_store (coord s) !! id = None → co_leases (coord s) !! id = None.
Proof.
  intros I Hn. destruct (co_leases (coord s) !! id) as [l|] eqn:Hl; [|done].
  destruct (i_leases _ _ I _ _ Hl) as (? & ? & _). congruence.
Qed.

Lemma submitted_ok s queue spec created sto t' tr' :
  let id := env_uuid (tick s) in
  let job := JobRecord_new id queue spec created in
  inv s → is_Some (co_queues (coord s) !! as_str queue) → u32_range (max_attempts spec) →
  P t' sto (<[id := job]> (co_store (coord s))) → (tick s < t')%nat → trace s `prefix_of` tr' →
  let s' := mkState (submitted id job (as_str queue) sto (coord s)) t' tr' in
  inv s' ∧ frame (one_permit (as_str queue)) s s'.
Proof.
  intros id job I Hq Hmax HP Ht Htr.
  assert (co_store (coord s) !! id = None) as Hnew by (apply (i_fresh _ _ I); done).
  split.
  - eapply (inv_move P s _ _ _ id job (λ r, r ++ [id])
      (λ s, on_queued u64_incr (on_submitted u64_incr s)) I);
      rewrite ?Hnew; try done; [lia|..].
    + unfold submitted. st_simpl. by rewrite alter_alter_eq.
    + unfold job_ok, attempt_limit. cbn. split; [done|]. unfold u32_range in Hmax. lia.
    + by apply ready_push.
    + apply move_submit.
    + intros t Hle Heq. apply env_uuid_inj in Heq. lia.
    + apply leases_ok_move; [apply I|]. left. by apply no_lease.
    + apply (retries_ok_move _ (heap_elems (co_retry_queue (coord s)))); [apply I|done|done].
    + unfold submitted. st_simpl. intros i p Hp. destruct (decide (i = id)) as [->|Hne].
      * exists job. rewrite lookup_insert_eq in Hp. rewrite lookup_insert_eq. simplify_eq. done.
      * rewrite lookup_insert_ne in Hp by done. rewrite lookup_insert_ne by done. exact (i_permits _ _ I _ _ Hp).
    + apply (epoch_core P s); [done|lia|done|done].
  - split; unfold submitted; st_simpl; try done; [lia|by apply evolves_new|by left| |].
    2:{ intros i j. destruct (decide (i = id)) as [->|Hne]; [by rewrite !lookup_insert_eq|].
        rewrite !lookup_insert_ne by done. by eauto. }
    intros q Hs. rewrite !lookup_alter_is_Some. split; [done|]. unfold permit_total, one_permit, held. st_simpl.
    rewrite mcount_new by (by apply no_permit). lia.
Qed.

(** What the reply to a submission means. *)
Definition submit_post (s : State) (queue : QueueName) (spec : JobSpec)
    (r : Result JobRecord) (s' : State) : Prop :=
  match r with
  | Ok record =>
      co_store (coord s) !! job_id record = None
      ∧ (∃ created, record = JobRecord_new (job_id record) queue spec created)
      ∧ ∃ job, co_store (coord s') !! job_id record = Some job ∧ same_job record job
  | Err _ => co_store (coord s') = co_store (coord s) ∧ co_queues (coord s') = co_queues (coord s)
  end.

Lemma do_submit_safe s queue spec :
  inv s → is_Some (co_semaphores (coord s) !! as_str queue) → u32_range (max_attempts spec) →
  safe (do_submit queue spec (as_str queue)) (one_permit (as_str queue)) (submit_post s queue spec) s.
Proof.
  intros I Hsem Hmax. pose proof (proj1 (i_sems _ _ I _) Hsem) as Hq.
  unfold CoordinatorInv.safe, do_submit. do 2 wp_step. destruct Hq as [qs Hqs]. rewrite Hqs.
  destruct (Z.ltb_spec MAX_PAYLOAD_SIZE (zlen (payload spec))).
  { wp_run. by destruct (dropped_ok s s (as_str queue) I (frame_refl s) Hsem). }
  do 5 wp_step. apply wp_persist. intros [n|e] sto Hp; st_simpl; cbn beta iota.
  2:{ wp_run. destruct (refused_ok P s _ _ _ _ (S (S (S (tick s)))) (trace s) I Hp) as [I1 F1]; [lia|done|].
      by destruct (dropped_ok s _ (as_str queue) I1 F1 Hsem). }
  wp_step. eapply wp_apply_ok; [done|]. cbn beta iota. do 3 wp_step. cbn [record_job_id].
  assert (co_store (coord s) !! env_uuid (tick s) = None) as Hnew by (apply (i_fresh _ _ I); done).
  eapply wp_unwrap; [apply lookup_insert_eq|]. cbn beta. wp_step. unfold hold_permit. do 4 wp_step.
  rewrite (no_permit _ _ I Hnew). wp_run.
  set (job := JobRecord_new _ _ _ _) in *.
  destruct (submitted_ok s queue spec (env_wall (S (tick s))) sto (S (S (S (tick s)))) (trace s) I)
    as [I1 F1]; try done; [|lia|].
  { eapply log_accepted; [apply I| |exact Hp|done|done|done]. lia. }
  eapply wp_mono; [exact (try_dispatch_safe _ I1)|]. intros [] s' (I' & F' & _). wp_step.
  split; [done|]. split.
  { apply (frame_mono (λ q, one_permit (as_str queue) q + 0)); [intros q; lia|].
    eapply frame_trans; [exact F1|exact F']. }
  split; [done|]. split; [by eexists|].
  destruct (fr_store _ _ _ F' (env_uuid (tick s)) job) as (job' & ? & ? & _); [apply lookup_insert_eq|].
  by exists job'.
Qed.
(** ** Cancellation *)

Lemma apply_cancelled st id job ts :
  st !! id = Some job → is_terminal (job_state job) = false →
  apply_record st (JobCancelled id ts) = Ok (<[id := set_state Cancelled job]> st).
Proof.
  intros Hj Hlive. apply transition_ok. exists job. split_and!; [done| |done].
  by destruct (job_state job).
Qed.

Lemma not_running_no_lease s id job :
  inv s → co_store (coord s) !! id = Some job → job_state job ≠ Running →
  co_leases (coord s) !! id = None.
Proof.
  intros I Hj Hs. destruct (co_leases (coord s) !! id) as [l|] eqn:Hl; [|done].
  destruct (i_leases _ _ I _ _ Hl) as (? & ? & ?). congruence.
Qed.

(** What the reply to a cancellation means. *)
Definition cancel_post (s : State) (id : JobId) (r : Result JobRecord) (s' : State) : Prop :=
  match r with
  | Ok record =>
      co_store (coord s') = <[id := record]> (co_store (coord s))
      ∧ co_leases (coord s') !! id = None ∧ co_permits (coord s') !! id = None
      ∧ ∃ job, co_store (coord s) !! id = Some job ∧ is_terminal (job_state job) = false
               ∧ record = set_state Cancelled job
  | Err _ => co_store (coord s') = co_store (coord s) ∧ co_queues (coord s') = co_queues (coord s)
  end.

Lemma cancel_finish s s1 id job fr fs sto gs t' tr' :
  co_store (coord s) !! id = Some job → is_terminal (job_state job) = false →
  inv s1 → frame none s s1 → co_store (coord s1) = co_store (coord s) →
  ready_move id (Some (job_state job)) Cancelled fr → co_leases (coord s1) !! id = None →
  stats_move (Some (job_state job)) Cancelled fs →
  P t' sto (<[id := set_state Cancelled job]> (co_store (coord s))) →
  (tick s1 ≤ t')%nat → trace s1 `prefix_of` tr' →
  let s' := mkState (finished id job Cancelled fr fs sto gs (coord s1)) t' tr' in
  inv s' ∧ frame none s s' ∧ cancel_post s id (Ok (set_state Cancelled job)) s'.
Proof.
  intros Hj Hlive I1 F1 Hst Hfr Hl Hfs HP Ht Htr s'.
  destruct (finished_ok P s1 id job Cancelled fr fs sto gs t' tr') as [I2 F2]; rewrite ?Hst; try done.
  split; [done|]. split; [apply (frame_mono (λ q, 0 + 0)); [done|]; eapply frame_trans; [exact F1|exact F2]|].
  split; [subst s'; unfold finished, released; st_simpl; by rewrite Hst|].
  split; [done|]. split; [apply lookup_delete_eq|]. by exists job.
Qed.

Lemma do_cancel_safe s id : inv s → safe (do_cancel id) none (cancel_post s id) s.
Proof.
  intros I. unfold CoordinatorInv.safe, do_cancel. do 2 wp_step.
  apply wp_try, wp_ret. unfold store_get.
  destruct (co_store (coord s) !! id) as [job|] eqn:Hj; cbn [ok_or].
  2:{ split_and!; auto using frame_refl. done. }
  destruct (is_terminal (job_state job)) eqn:Hlive.
  { wp_step. split_and!; auto using frame_refl. done. }
  do 3 wp_step. apply wp_persist. intros [n|e] sto Hp; st_simpl; cbn beta iota.
  2:{ wp_step. destruct (refused_ok P s _ _ _ _ (S (S (tick s))) (trace s) I Hp); [lia|done|].
      split_and!; done. }
  apply wp_try. eapply wp_apply_ok; [st_simpl; by apply apply_cancelled|]. cbn beta iota.
  do 3 wp_step. eapply wp_unwrap; [apply lookup_insert_eq|]. cbn beta.
  assert (P (S (S (tick s))) sto (<[id := set_state Cancelled job]> (co_store (coord s)))) as HP.
  { eapply accepted_ok; [done|done|exact Hp|lia| |done]. by apply apply_cancelled. }
  destruct (queue_of_live _ _ (i_queues _ _ I) _ _ Hj Hlive) as [qs Hqs]. rewrite Hqs.
  destruct (job_state job) eqn:Hs; try done.
  - wp_run. rewrite !alter_alter_eq.
    refine (cancel_finish s s id job (retain_ne id)
      (λ s, on_cancelled u64_incr (on_queued sat_decr s)) sto _ _ _ Hj _ I (frame_refl s) eq_refl _ _ _ HP _ _);
      rewrite ?Hs; try done; [by apply ready_retain| |apply move_cancel_queued|lia].
    by eapply not_running_no_lease; [..|rewrite Hs].
  - wp_run. unfold remove_lease. wp_run.
    destruct (co_leases (coord s) !! id) as [l|] eqn:Hl; wp_run; rewrite !alter_alter_eq.
    + destruct (unleased_ok P s id (trace s ++ [TokenCancelled (al_cancellation l)]) I) as [I1 F1];
        [by apply prefix_app_r|].
      refine (cancel_finish s _ id job (λ r, r)
        (λ s, on_cancelled u64_incr (on_running sat_decr s)) sto _ _ _ Hj _ I1 F1 eq_refl _ _ _ HP _ _);
        rewrite ?Hs; try done; [by apply ready_keep|apply lookup_delete_eq|apply move_cancel_running|st_simpl; lia].
    + destruct (unleased_ok P s id (trace s) I) as [I1 F1]; [done|].
      refine (cancel_finish s _ id job (λ r, r)
        (λ s, on_cancelled u64_incr (on_running sat_decr s)) sto _ _ _ Hj _ I1 F1 eq_refl _ _ _ HP _ _);
        rewrite ?Hs; try done; [by apply ready_keep|apply lookup_delete_eq|apply move_cancel_running|st_simpl; lia].
  - wp_run. rewrite !alter_alter_eq.
    refine (cancel_finish s s id job (λ r, r)
      (λ s, on_cancelled u64_incr (on_retrying sat_decr s)) sto _ _ _ Hj _ I (frame_refl s) eq_refl _ _ _ HP _ _);
      rewrite ?Hs; try done; [by apply ready_keep| |apply move_cancel_retrying|lia].
    by eapply not_running_no_lease; [..|rewrite Hs].
Qed.
(** ** Shutdown *)

Definition closed (s : State) : State :=
  mkState (set_semaphores (sem_close <$> co_semaphores (coord s)) (coord s)) (tick s) (trace s).

Lemma closed_ok s : inv s → inv (closed s) ∧ frame none s (closed s).
Proof.
  intros I. split.
  - split; unfold closed; st_simpl; try apply I. intros q. rewrite lookup_fmap, fmap_is_Some. apply I.
  - split; unfold closed; st_simpl; try done; [by left| | |by eauto]; intros q Hq; unfold permit_total; st_simpl;
      rewrite free_close; [split; [done|]; lia|lia].
Qed.

Lemma close_semaphores_safe s :
  inv s → safe close_semaphores none (λ _ s', s' = closed s) s.
Proof. intros I. destruct (closed_ok s I). unfold CoordinatorInv.safe. by wp_run. Qed.

Lemma complete_shutdown_safe s :
  inv s → safe complete_shutdown none (λ _ s',
    co_shutting_down (coord s') = co_shutting_down (coord s)
    ∧ co_leases (coord s') = co_leases (coord s)) s.
Proof.
  intros I. unfold complete_shutdown. eapply safe_bind0; [by apply get_safe|].
  intros c s1 I1 _ [-> ->]. destruct (co_shutdown_reply (coord s)); [|by apply safe_ret].
  eapply (safe_bind0 P _ _ (λ _ s2, coord s2 = set_shutdown_reply None (coord s))).
  { unfold CoordinatorInv.safe. wp_step. split_and!; [|by apply frame_core|done].
    apply (inv_core P s); [done|done|done|apply I]. }
  intros [] s2 I2 _ H2. eapply safe_bind0; [by apply send_safe|].
  intros b s3 I3 _ H3. apply safe_ret; [done|]. by rewrite H3, H2.
Qed.

Lemma remove_lease_safe s id :
  inv s → safe (remove_lease id) none (λ r s',
    r = co_leases (coord s) !! id ∧ coord s' = coord (unleased id s)) s.
Proof.
  intros I. destruct (unleased_ok P s id (trace s) I ltac:(done)).
  unfold CoordinatorInv.safe, remove_lease. by wp_run.
Qed.

Lemma emit_safe e s : inv s → safe (emit e) none (λ _ s', coord s' = coord s) s.
Proof.
  intros I. unfold CoordinatorInv.safe. wp_step.
  split_and!; [|apply frame_core; [done|by apply prefix_app_r|done]|done].
  apply (inv_core P s); [done|done|done|apply I].
Qed.

(** A forced shutdown removes every lease. *)
Lemma drop_leases_safe ids s :
  inv s → (∀ id, is_Some (co_leases (coord s) !! id) → id ∈ ids) →
  safe (for_each ids (λ job_id,
          removed ← remove_lease job_id;
          match removed with
          | Some lease => cancel_token (al_cancellation lease)
          | None => mret ()
          end)) none
    (λ _ s', co_leases (coord s') = ∅ ∧ co_shutting_down (coord s') = co_shutting_down (coord s)) s.
Proof.
  revert s; induction ids as [|id ids IH]; intros s I Hall; cbn [for_each].
  { apply safe_ret; [done|]. split; [|done]. apply map_empty. intros id.
    destruct (co_leases (coord s) !! id) eqn:Hl; [|done].
    destruct (not_elem_of_nil id). apply Hall. by rewrite Hl. }
  eapply (safe_bind0 P _ _ (λ _ s', coord s' = coord (unleased id s))).
  { eapply safe_bind0; [by apply remove_lease_safe|]. intros r s1 I1 _ [_ H1].
    destruct r; [|by apply safe_ret].
    eapply safe_mono; [by apply emit_safe|done|]. intros ????. cbn beta. congruence. }
  intros [] s1 I1 _ H1. eapply safe_mono; [apply IH; [done|]|done|].
  - rewrite H1. unfold unleased. st_simpl. intros i [l [Hne Hl]%lookup_delete_Some].
    specialize (Hall i (mk_is_Some _ _ Hl)). set_solver.
  - rewrite H1. done.
Qed.

Lemma force_shutdown_safe s :
  inv s → safe force_shutdown none (λ _ s',
    co_leases (coord s') = ∅ ∧ co_shutting_down (coord s') = co_shutting_down (coord s)) s.
Proof.
  intros I. unfold force_shutdown. eapply safe_bind0; [by apply get_safe|].
  intros c s1 I1 _ [-> ->]. eapply safe_bind0; [apply drop_leases_safe; [done|]|].
  { intros id [l Hl]. apply list_elem_of_fmap. exists (id, l). by rewrite elem_of_hash_iter. }
  intros [] s2 I2 _ [H1 H2]. eapply safe_mono; [by apply complete_shutdown_safe|done|].
  intros ?? _ _ [-> ->]. done.
Qed.

Lemma for_each_coord {A} (xs : list A) (body : A → act unit) s :
  inv s → (∀ x s', inv s' → safe (body x) none (λ _ s'', coord s'' = coord s') s') →
  safe (for_each xs body) none (λ _ s', coord s' = coord s) s.
Proof.
  intros I Hb. revert s I; induction xs as [|x xs IH]; intros s I; cbn [for_each].
  - by apply safe_ret.
  - eapply safe_bind0; [by apply Hb|]. intros [] s' I' _ H. cbn beta in H. rewrite <-H. by apply IH.
Qed.

Lemma shutdown_fits s t :
  inv s → instant_add (env_instant t) (shutdown_timeout (co_config (coord s))) =
    Some (env_instant t + shutdown_timeout (co_config (coord s))).
Proof.
  intros I. destruct (i_config _ _ I) as (_ & _ & Hfit). specialize (Hfit t) as (_ & Hfit & _).
  unfold instant_add. by rewrite (proj2 (Z.leb_le _ _) Hfit).
Qed.

(** What has happened when [start_shutdown] returns: the leases and the store
    are as before, and the token of the workers is cancelled. *)
Definition shutdown_begun (s s' : State) : Prop :=
  co_shutting_down (coord s') = true
  ∧ co_leases (coord s') = co_leases (coord s) ∧ co_store (coord s') = co_store (coord s)
  ∧ (co_shutting_down (coord s) = false →
     trace s ++ [TokenCancelled (co_shutdown_token (coord s))] `prefix_of` trace s').

Lemma start_shutdown_safe s reply :
  inv s → safe (start_shutdown reply) none (λ _ s', shutdown_begun s s') s.
Proof.
  intros I. unfold CoordinatorInv.safe, start_shutdown. do 2 wp_step.
  destruct (co_shutting_down (coord s)) eqn:Hsh.
  { eapply (safe_bind0 P); [by apply send_safe|]. intros b s1 I1 _ H1. apply safe_ret; [done|].
    unfold shutdown_begun. by rewrite H1, Hsh. }
  do 4 wp_step. unfold close_semaphores, dismiss_parked. do 7 wp_step.
  destruct (closed_ok s I) as [I1 F1].
  destruct (with_shutdown_ok (closed s) [] true (co_shutdown_deadline (coord s)) (co_shutdown_reply (coord s))
    (tick s) (trace s ++ [TokenCancelled (co_shutdown_token (coord s))]) I1) as [I2 F2];
    [done|by apply prefix_app_r|done|done|].
  assert (with_shutdown [] true (co_shutdown_deadline (coord s)) (co_shutdown_reply (coord s)) (coord (closed s))
    = set_parked_workers [] (set_semaphores (sem_close <$> co_semaphores (coord s))
        (set_shutting_down true (coord s)))) as Heq.
  { unfold with_shutdown, closed. by destruct (coord s). }
  rewrite Heq in I2, F2. set (s2 := mkState _ _ _) in I2, F2.
  eapply wp_mono; [apply (for_each_coord (co_parked_workers (coord s)) _ s2 I2)|].
  { intros w s3 I3. eapply safe_bind0; [by apply send_safe|]. intros b s4 I4 _ H4. by apply safe_ret. }
  intros [] s3 (I3 & F3 & H3). assert (frame none s s3) as F03.
  { eapply frame_trans0; [exact F1|]. eapply frame_trans0; [exact F2|exact F3]. }
  apply (safe_after P _ _ s s3 F03).
  assert (shutdown_begun s s3) as Hb3.
  { unfold shutdown_begun. rewrite H3. split_and!; [done..|]. intros _. exact (fr_trace _ _ _ F3). }
  assert (co_shutting_down (coord s3) = true) as Hsh3 by apply Hb3.
  case_bool_decide.
  { eapply safe_bind0; [by apply send_safe|]. intros b s4 I4 F4 H4. apply safe_ret; [done|].
    destruct Hb3 as (? & ? & ? & Htr). unfold shutdown_begun. rewrite H4. split_and!; [done..|].
    intros Hf. etrans; [by apply Htr|exact (fr_trace _ _ _ F4)]. }
  unfold CoordinatorInv.safe. do 3 wp_step.
  assert (co_config (coord s) = co_config (coord s3)) as -> by by rewrite (fr_config _ _ _ F03).
  eapply wp_unwrap; [by apply shutdown_fits|]. wp_run.
  pose proof (i_shutdown _ _ I3) as Hpk. rewrite Hsh3 in Hpk.
  destruct (with_shutdown_ok s3 [] true (Some (env_instant (tick s3) + shutdown_timeout (co_config (coord s3))))
    (Some reply) (S (tick s3)) (trace s3) I3) as [I4 F4]; [lia|done|done|done|].
  assert (∀ d, with_shutdown [] true d (Some reply) (coord s3)
    = set_shutdown_reply (Some reply) (set_shutdown_deadline d (coord s3))) as Heq'.
  { intros d. unfold with_shutdown. destruct (coord s3). cbn in *. by subst. }
  rewrite Heq' in I4, F4. done.
Qed.
(** ** Commands *)

(** A submission comes with a permit of the semaphore of its queue, and its
    [max_attempts] is a [u32]. *)
Definition cmd_ok (order : list string) (cmd : Command) : Prop :=
  match cmd with
  | Cmd_Submit queue spec permit _ =>
      permit = as_str queue ∧ as_str queue ∈ order ∧ u32_range (max_attempts spec)
  | _ => True
  end.

(** The permits that come in with a command. *)
Definition cmd_permits (cmd : Command) : string → Z :=
  match cmd with
  | Cmd_Submit _ _ permit _ => one_permit permit
  | _ => none
  end.

Lemma reply_safe to r s : inv s → safe (send to r;; mret ()) none (λ _ _, True) s.
Proof.
  intros I. eapply safe_bind0; [by apply send_safe|]. intros ?????. by apply safe_ret.
Qed.

(** Followed by an action that brings in no permit. *)
Lemma safe_then {A B} (m : act A) (f : A → act B) k P' Q s :
  safe m k P' s → (∀ a s', inv s' → safe (f a) none Q s') → safe (m ≫= f) k Q s.
Proof.
  intros Hm Hf. apply (safe_mono P _ (λ q, k q + 0) k Q); [|intros q; lia|done].
  eapply safe_bind; [exact Hm|]. auto.
Qed.

Lemma handle_safe s cmd :
  inv s → cmd_ok (co_queue_order (coord s)) cmd →
  safe (handle cmd) (cmd_permits cmd) (λ _ _, True) s.
Proof.
  intros I Hcmd. destruct cmd as [queue spec permit reply|id reply|id reply|reply|reply|id lid o|reply];
    cbn [handle cmd_permits].
  - destruct Hcmd as (-> & Hq & Hmax). apply (i_order _ _ I), (i_sems _ _ I) in Hq.
    unfold CoordinatorInv.safe. do 2 wp_step. destruct (co_shutting_down (coord s)).
    + wp_step. eapply wp_mono; [by apply send_safe|]. intros b s1 (I1 & F1 & H1). wp_step.
      assert (is_Some (co_semaphores (coord s1) !! as_str queue)) as Hs1 by by rewrite H1.
      by destruct (dropped_ok s s1 (as_str queue) I1 F1 Hs1).
    + eapply safe_then; [by apply do_submit_safe|]. intros r s1 I1. by apply reply_safe.
  - eapply safe_bind0; [unfold do_status; eapply safe_bind0; [by apply get_safe|];
      intros ???? [-> ->]; by apply (safe_ret P _ (λ _ _, True))|].
    intros r s1 I1 _ _. by apply reply_safe.
  - eapply safe_bind0; [by apply do_cancel_safe|].
    intros r s1 I1 _ _. by apply reply_safe.
  - eapply safe_bind0; [by apply get_safe|].
    intros r s1 I1 _ _. by apply reply_safe.
  - by apply do_fetch_work_safe.
  - by apply do_worker_outcome_safe.
  - eapply safe_mono; [by apply start_shutdown_safe|done|done].
Qed.

(** ** Turns *)

(** After the timers of a turn and the dispatch, no entry of the heap is due. *)
Definition turn_post (s0 : State) (r : option (option Z)) (s : State) : Prop :=
  match r with
  | None => co_shutting_down (coord s) = true ∧ co_leases (coord s) = ∅
            ∧ map_Forall (λ _ sem, sem_is_closed sem = true) (co_semaphores (coord s))
  | Some nd => nd = next_deadline (coord s)
               ∧ (co_shutting_down (coord s) = true → co_leases (coord s) ≠ ∅)
  end.

Lemma closed_all s : map_Forall (λ _ sem, sem_is_closed sem = true) (co_semaphores (coord (closed s))).
Proof.
  intros q sem Hq. unfold closed in Hq. st_simpl. rewrite lookup_fmap in Hq.
  apply fmap_Some in Hq as (sem0 & _ & ->). apply sem_close_spec.
Qed.

Lemma turn_safe s : inv s → safe turn none (turn_post s) s.
Proof.
  intros I. unfold turn. eapply safe_bind0; [by apply process_due_retries_safe|].
  intros _ s1 I1 _ _. eapply safe_bind0; [by apply check_lease_timeouts_safe|].
  intros _ s2 I2 _ _. eapply safe_bind0; [by apply try_dispatch_safe|].
  intros _ s3 I3 _ _. eapply safe_bind0; [by apply get_safe|]. intros c s4 I4 _ [-> ->].
  destruct (co_shutting_down (coord s3) && bool_decide (co_leases (coord s3) = ∅)) eqn:Hend.
  { apply andb_true_iff in Hend as [Hsh Hl%bool_decide_eq_true].
    eapply safe_bind0; [by apply complete_shutdown_safe|]. intros _ s5 I5 _ [H5 H5'].
    eapply safe_bind0; [by apply close_semaphores_safe|]. intros _ s6 I6 _ ->.
    apply safe_ret; [done|]. split_and!; [..|apply closed_all]; unfold closed; st_simpl; congruence. }
  eapply (safe_bind0 P _ _ (λ expired s5, coord s5 = coord s3
    ∧ (expired = true → is_Some (co_shutdown_deadline (coord s3))))).
  { destruct (co_shutdown_deadline (coord s3)) as [d|]; [|by apply safe_ret].
    eapply safe_bind0; [by apply ask_safe|]. intros now s5 I5 _ [-> H5]. by apply safe_ret. }
  intros expired s5 I5 _ [H5 Hexp]. destruct expired.
  - eapply safe_bind0; [by apply force_shutdown_safe|]. intros _ s6 I6 _ [H6 H6'].
    eapply safe_bind0; [by apply close_semaphores_safe|]. intros _ s7 I7 _ ->.
    apply safe_ret; [done|]. split_and!; [|done|apply closed_all].
    unfold closed. st_simpl. rewrite H6', H5. pose proof (i_shutdown _ _ I3) as Hd.
    destruct (co_shutting_down (coord s3)); [done|]. rewrite Hd in Hexp. by destruct (Hexp eq_refl).
  - apply safe_ret; [done|]. unfold turn_post. rewrite H5. split; [done|]. intros Hsh Hl.
    rewrite Hsh, bool_decide_true in Hend by done. done.
Qed.

Definition wakeup_ok (order : list string) (w : Wakeup) : Prop :=
  match w with Wake_command cmd => cmd_ok order cmd | _ => True end.

Definition wakeup_permits (w : Wakeup) : string → Z :=
  match w with Wake_command cmd => cmd_permits cmd | _ => none end.

Lemma wake_safe s w :
  inv s → wakeup_ok (co_queue_order (coord s)) w →
  safe (wake w) (wakeup_permits w) (λ _ _, True) s.
Proof.
  intros I Hw. destruct w as [cmd| |]; cbn [wake wakeup_permits].
  - eapply safe_then; [by apply handle_safe|]. intros ???. by apply safe_ret.
  - eapply safe_bind0; [by apply close_semaphores_safe|]. intros ?????. by apply safe_ret.
  - by apply safe_ret.
Qed.

Definition total_permits (ws : list Wakeup) : string → Z :=
  λ q, foldr (λ w acc, wakeup_permits w q + acc) 0 ws.

(** The loop runs without a panic, whatever wakes it up; the permits of the
    commands it has handled are all accounted for. *)
Lemma run_safe ws s :
  inv s → Forall (wakeup_ok (co_queue_order (coord s))) ws →
  wp (run ws) (λ _ s', inv s' ∧ ∃ handled, handled `prefix_of` ws
                                          ∧ frame (total_permits handled) s s') s.
Proof.
  revert s; induction ws as [|w ws IH]; intros s I Hws; cbn [run]; apply wp_bind;
    (eapply wp_mono; [by apply turn_safe|]); intros [nd|] s1 (I1 & F1 & _).
  - apply wp_ret. split; [done|]. exists []. by split.
  - apply wp_ret. split; [done|]. exists []. by split.
  - apply Forall_cons in Hws as [Hw Hws]. rewrite <-(fr_order _ _ _ F1) in Hw, Hws.
    apply wp_bind. eapply wp_mono; [by apply wake_safe|]. intros b s2 (I2 & F2 & _).
    pose proof (frame_trans _ _ _ _ _ F1 F2) as F12. destruct b.
    + rewrite <-(fr_order _ _ _ F2) in Hws. eapply wp_mono; [by apply IH|].
      intros b' s3 (I3 & handled & Hpre & F3). split; [done|]. exists (w :: handled).
      split; [by apply prefix_cons|]. refine (frame_mono _ _ _ _ _ (frame_trans _ _ _ _ _ F12 F3)).
      intros q. unfold total_permits. cbn [foldr]. lia.
    + apply wp_ret. split; [done|]. exists [w]. split; [apply prefix_cons, prefix_nil|].
      refine (frame_mono _ _ _ _ _ F12). intros q. unfold total_permits. cbn [foldr]. lia.
  - apply wp_ret. split; [done|]. exists []. split; [apply prefix_nil|done].
Qed.
End loop.
