(* ===== verification/CoordinatorInit.v ===== *)
(** * The first state of the coordinator

    A coordinator built from nothing, or from a recovered state, satisfies the
    invariant: the ready queues, the retry heap and all counters agree with the
    recovered store. *)

From S2P Require Import Prelude Types Config Store Codec Scanner Writer Recovery RecoveryProofs.
From S2P Require Import RetryHeap Environment Coordinator QueueInv CoordinatorInv CoordinatorSafe.

(** ** Queues that a loop fills *)

(** [qs'] is [qs] with the jobs [l] appended to the ready list and [n s] more jobs
    counted in state [s], if that fits a counter. *)
Definition qs_loaded (l : list JobId) (n : JobState → Z) (qs qs' : QueueState) : Prop :=
  qs_ready qs' = qs_ready qs ++ l
  ∧ ((∀ s, 0 ≤ stat_of s (qs_stats qs) ∧ stat_of s (qs_stats qs) + n s ≤ u64_max) →
     ∀ s, stat_of s (qs_stats qs') = stat_of s (qs_stats qs) + n s).

Definition loaded (l : string → list JobId) (n : string → JobState → Z)
    (queues queues' : gmap string QueueState) : Prop :=
  ∀ q, option_Forall2 (qs_loaded (l q) (n q)) (queues !! q) (queues' !! q).

Lemma qs_loaded_refl qs : qs_loaded [] (λ _, 0) qs qs.
Proof. split; [by rewrite app_nil_r|]. intros _ s. lia. Qed.

Lemma qs_loaded_trans l1 l2 n1 n2 qs1 qs2 qs3 :
  (∀ s, 0 ≤ n1 s) → (∀ s, 0 ≤ n2 s) →
  qs_loaded l1 n1 qs1 qs2 → qs_loaded l2 n2 qs2 qs3 →
  qs_loaded (l1 ++ l2) (λ s, n1 s + n2 s) qs1 qs3.
Proof.
  intros Hn1 Hn2 [Hr1 Hs1] [Hr2 Hs2]. split; [by rewrite Hr2, Hr1, app_assoc|].
  intros Hb. assert (∀ s, stat_of s (qs_stats qs2) = stat_of s (qs_stats qs1) + n1 s) as H12.
  { apply Hs1. intros s. specialize (Hb s). specialize (Hn2 s). lia. }
  intros s. rewrite Hs2, H12; [lia|]. intros s'. rewrite H12. specialize (Hb s'). specialize (Hn1 s'). lia.
Qed.

Lemma qs_loaded_ext l l' n n' qs qs' :
  l = l' → (∀ s, n s = n' s) → qs_loaded l n qs qs' → qs_loaded l' n' qs qs'.
Proof.
  intros <- Hn [Hr Hs]. split; [done|]. intros Hb s. rewrite <-Hn. apply Hs.
  intros s'. rewrite Hn. apply Hb.
Qed.

Lemma loaded_refl queues : loaded (λ _, []) (λ _ _, 0) queues queues.
Proof. intros q. destruct (queues !! q); constructor. apply qs_loaded_refl. Qed.

Lemma loaded_trans l1 l2 n1 n2 m1 m2 m3 :
  (∀ q s, 0 ≤ n1 q s) → (∀ q s, 0 ≤ n2 q s) →
  loaded l1 n1 m1 m2 → loaded l2 n2 m2 m3 →
  loaded (λ q, l1 q ++ l2 q) (λ q s, n1 q s + n2 q s) m1 m3.
Proof.
  intros Hn1 Hn2 H12 H23 q. specialize (H12 q). specialize (H23 q).
  inversion H12 as [a b Hab Ha Hb|Ha Hb]; rewrite <-Hb in H23; inversion H23; constructor.
  by eapply qs_loaded_trans.
Qed.

Lemma loaded_ext l l' n n' m m' :
  (∀ q, l q = l' q) → (∀ q s, n q s = n' q s) → loaded l n m m' → loaded l' n' m m'.
Proof.
  intros Hl Hn H q. specialize (H q). inversion H; constructor. eapply qs_loaded_ext; [apply Hl|apply Hn|done].
Qed.

(** One queue is filled. *)
Lemma loaded_alter q0 l n f queues :
  (∀ qs, qs_loaded l n qs (f qs)) →
  loaded (λ q, if bool_decide (q = q0) then l else [])
         (λ q s, if bool_decide (q = q0) then n s else 0) queues (alter f q0 queues).
Proof.
  intros Hf q. case_bool_decide as Hq.
  - subst q. rewrite lookup_alter_eq. destruct (queues !! q0); constructor. apply Hf.
  - rewrite lookup_alter_ne by done. destruct (queues !! q); constructor. apply qs_loaded_refl.
Qed.

(** ** The counter of one state *)

Definition on_state (s : JobState) (f : Z → Z) : QueueStats → QueueStats :=
  match s with
  | Queued => on_queued f
  | Running => on_running f
  | RetryWaiting => on_retrying f
  | Completed => on_completed f
  | Dead => on_dead f
  | Cancelled => on_cancelled f
  end.

Definition one (s0 : JobState) : JobState → Z := λ s, b2z (bool_decide (s = s0)).

Lemma qs_loaded_incr s0 l qs :
  qs_loaded l (one s0) qs (mkQueueState (qs_ready qs ++ l) (on_state s0 u64_incr (qs_stats qs))).
Proof.
  split; [done|]. intros Hb s. cbn [qs_stats]. unfold one in *.
  assert (stat_of s (on_state s0 u64_incr (qs_stats qs))
    = if bool_decide (s = s0) then u64_incr (stat_of s (qs_stats qs)) else stat_of s (qs_stats qs)) as ->
    by (destruct s, s0, (qs_stats qs); done).
  specialize (Hb s). case_bool_decide; cbn in *; [|lia]. apply u64_incr_small. lia.
Qed.

(** ** The loops of the constructor *)

Section loads.
Context (st : MemoryStore).

Definition add_ready (ids : list JobId) (qs : QueueState) : QueueState :=
  foldl (λ qs id,
      match store_get st id with
      | Some job =>
          if bool_decide (job_state job = Queued) then
            on_stats (on_queued u64_incr) (on_ready (λ ready, ready ++ [id]) qs)
          else qs
      | None => qs
      end) qs ids.

Lemma add_ready_loaded ids qs :
  qs_loaded (queued_of st ids) (λ s, zlen (queued_of st ids) * one Queued s) qs (add_ready ids qs).
Proof.
  revert qs; induction ids as [|id ids IH]; intros qs.
  { eapply qs_loaded_ext; [| |apply qs_loaded_refl]; [done|]. intros s. cbn. lia. }
  unfold queued_of. rewrite filter_cons. fold (queued_of st ids).
  destruct (decide (in_state st Queued id = true)) as [Hin|Hin].
  2:{ assert (add_ready (id :: ids) qs = add_ready ids qs) as ->; [|apply IH].
      unfold add_ready. cbn [foldl]. unfold in_state in Hin.
      destruct (store_get st id); [|done]. by case_bool_decide. }
  apply in_state_spec in Hin as (job & Hj & Hs).
  assert (add_ready (id :: ids) qs = add_ready ids
    (mkQueueState (qs_ready qs ++ [id]) (on_state Queued u64_incr (qs_stats qs)))) as ->.
  { unfold add_ready. cbn [foldl]. unfold store_get at 2. by rewrite Hj, bool_decide_true. }
  eapply qs_loaded_ext; [| |eapply qs_loaded_trans; [..|apply (qs_loaded_incr Queued [id])|apply IH]].
  - done.
  - intros s. cbn [length]. rewrite Nat2Z.inj_succ. lia.
  - intros s. unfold one, b2z. by case_match.
  - intros s. unfold one, b2z. case_match; lia.
Qed.

Definition queued_count (l : string → list JobId) : string → JobState → Z :=
  λ q s, zlen (l q) * one Queued s.

Lemma load_queued_loaded entries queues :
  NoDup entries.*1 →
  let l q := queued_of st (default [] ((list_to_map entries : gmap string (list JobId)) !! q)) in
  loaded l (queued_count l) queues (load_queued st queues entries).
Proof.
  revert queues; induction entries as [|[k ids] entries IH]; intros queues Hnd l.
  { assert (∀ q, l q = []) as Hl by (intros q; subst l; cbn; by rewrite lookup_empty).
    eapply loaded_ext; [| |apply loaded_refl]; [done|]. intros q s. unfold queued_count. rewrite Hl. cbn. lia. }
  cbn in Hnd. apply NoDup_cons in Hnd as [Hk Hnd].
  assert ((list_to_map entries : gmap string (list JobId)) !! k = None) as Hnone
    by (by apply not_elem_of_list_to_map_1).
  assert (∀ (n : nat) s, 0 ≤ Z.of_nat n * one Queued s) as Hpos.
  { intros n s. unfold one, b2z. case_match; lia. }
  change (load_queued st queues ((k, ids) :: entries))
    with (load_queued st (alter (add_ready ids) k queues) entries).
  pose proof (loaded_alter k _ _ (add_ready ids) queues (add_ready_loaded ids)) as H1.
  refine (loaded_ext _ _ _ _ _ _ _ _ (loaded_trans _ _ _ _ _ _ _ _ _ H1 (IH _ Hnd))).
  - intros q. subst l. cbn. case_bool_decide as Hq.
    + subst q. rewrite Hnone, lookup_insert_eq. cbn. by rewrite app_nil_r.
    + by rewrite lookup_insert_ne.
  - intros q s. unfold queued_count. subst l. cbn. case_bool_decide as Hq.
    + subst q. rewrite Hnone, lookup_insert_eq. change (default [] (Some ids)) with ids. change (queued_of st (default [] None)) with (@nil JobId). cbn [length]. lia.
    + by rewrite lookup_insert_ne.
  - intros q s. case_bool_decide; [apply Hpos|lia].
  - intros q s. apply Hpos.
Qed.

(** The waiting jobs of a queue. *)
Definition is_waiting (q : string) (id : JobId) : bool :=
  match st !! id with Some job => in_queue q RetryWaiting job | None => false end.

Lemma terminal_loaded job qs :
  qs_loaded [] (λ s, if is_terminal s then one (job_state job) s else 0) qs
    (on_stats
      match job_state job with
      | Completed => on_completed u64_incr
      | Dead => on_dead u64_incr
      | Cancelled => on_cancelled u64_incr
      | _ => λ s, s
      end qs).
Proof.
  destruct (is_terminal (job_state job)) eqn:Ht.
  - apply (qs_loaded_ext [] [] (one (job_state job))); [done| |].
    2:{ pose proof (qs_loaded_incr (job_state job) [] qs) as H. rewrite app_nil_r in H.
        destruct (job_state job); done || apply H. }
    intros s. unfold one. case_bool_decide; [subst; by rewrite Ht|]. by case_match.
  - apply (qs_loaded_ext [] [] (λ _, 0)); [done| |].
    2:{ pose proof (qs_loaded_refl qs) as H. destruct qs, (job_state job); done || apply H. }
    intros s. destruct (is_terminal s) eqn:Hs; [|done]. unfold one. rewrite bool_decide_false; [done|congruence].
Qed.

Lemma load_terminal_loaded jobs queues :
  loaded (λ _, [])
    (λ q s, if is_terminal s then zlen (filter (λ job, in_queue q s job = true) jobs) else 0)
    queues (load_terminal queues jobs).
Proof.
  revert queues; induction jobs as [|job jobs IH]; intros queues.
  { eapply loaded_ext; [| |apply loaded_refl]; [done|]. intros q s. cbn. by case_match. }
  change (load_terminal queues (job :: jobs)) with (load_terminal (load_terminal queues [job]) jobs).
  pose proof (loaded_alter (as_str (job_queue job)) _ _ _ queues (terminal_loaded job)) as H1.
  refine (loaded_ext _ _ _ _ _ _ _ _ (loaded_trans _ _ _ _ _ _ _ _ _ H1 (IH _))).
  - intros q. by case_bool_decide.
  - intros q s. destruct (is_terminal s) eqn:Hs; [|by case_bool_decide].
    rewrite filter_cons. unfold one.
    destruct (decide (in_queue q s job = true)) as [Hin|Hin]; rewrite in_queue_spec in Hin.
    + destruct Hin as [Hq Hs']. rewrite !bool_decide_true by done. cbn [length b2z]. lia.
    + case_bool_decide; [|lia]. rewrite bool_decide_false by (intros ->; by apply Hin). cbn [b2z]. lia.
  - intros q s. unfold one, b2z. repeat case_match; lia.
  - intros q s. destruct (is_terminal s); lia.
Qed.
End loads.

(** ** Counting the values of a map *)

Lemma length_filter_snd {K V} (p : V → bool) (l : list (K * V)) :
  length (filter (λ v, p v = true) l.*2) = length (filter (λ e, p e.2 = true) l).
Proof.
  induction l as [|[k v] l IH]; [done|]. rewrite fmap_cons, !filter_cons. cbn [snd].
  destruct (decide (p v = true)); cbn [length]; by rewrite IH.
Qed.

Lemma mcount_hash_iter `{HashIter} {K V} `{Countable K} (p : V → bool) (m : gmap K V) :
  mcount p m = zlen (filter (λ v, p v = true) (hash_iter m).*2).
Proof.
  rewrite length_filter_snd, <-(length_fmap fst). apply mcount_list.
  - eapply sublist_NoDup; [apply (hash_iter_NoDup_fst m)|]. apply fmap_sublist, sublist_filter.
  - intros k. rewrite list_elem_of_fmap. split.
    + intros ([k' v] & -> & [Hp Hin]%list_elem_of_filter). exists v. by rewrite <-elem_of_hash_iter.
    + intros (v & Hv & Hp). exists (k, v). split; [done|]. apply list_elem_of_filter.
      by rewrite elem_of_hash_iter.
Qed.

(** ** The state after recovery *)

Section init.
Context `{W : Wire} `{HI : HashIter} `{RH : RetryHeap} `{!RetryHeapLaws RH}.
Context `{SM : Semaphores} `{!SemaphoresLaws SM} `{EN : Env} `{!EnvLaws EN}.

Definition retry_count (st : MemoryStore) (entries : list (JobId * UnixMillis)) (q : string) : Z :=
  zlen (filter (λ id, is_waiting st q id = true) entries.*1).

Lemma load_retries_loaded now wall st entries h queues h' queues' :
  load_retries now wall st entries h queues = Some (h', queues') →
  loaded (λ _, []) (λ q s, retry_count st entries q * one RetryWaiting s) queues queues'
  ∧ (∀ e, e ∈ heap_elems h → e ∈ heap_elems h')
  ∧ ∀ id job, id ∈ entries.*1 → st !! id = Some job → job_state job = RetryWaiting →
      ∃ e, e ∈ heap_elems h' ∧ entry_job_id e = id.
Proof.
  revert h queues; induction entries as [|[i a] entries IH]; intros h queues Hl; cbn [load_retries] in Hl.
  { simplify_eq. split_and!; [|done|by intros ?? ?%elem_of_nil].
    eapply loaded_ext; [| |apply loaded_refl]; [done|]. intros q s. unfold retry_count. cbn. lia. }
  assert (∀ q, retry_count st ((i, a) :: entries) q =
    b2z (is_waiting st q i) + retry_count st entries q) as Hcount.
  { intros q. unfold retry_count. rewrite fmap_cons, filter_cons. cbn [fst].
    destruct (is_waiting st q i); [rewrite decide_True by done|rewrite decide_False by done]; cbn [length b2z]; lia. }
  unfold store_get in Hl.
  assert (is_waiting st = λ q i, match st !! i with Some job => in_queue q RetryWaiting job | None => false end)
    as Hw by done.
  destruct (st !! i) as [job|] eqn:Hi.
  2:{ destruct (IH _ _ Hl) as (H1 & H2 & H3). split_and!; [|done|].
      - eapply loaded_ext; [done| |exact H1]. intros q s. rewrite Hcount, Hw, Hi. cbn. lia.
      - intros id j [->|Hin]%elem_of_cons Hj; [cbn in Hj; congruence|by eapply H3]. }
  case_bool_decide as Hs.
  2:{ destruct (IH _ _ Hl) as (H1 & H2 & H3). split_and!; [|done|].
      - eapply loaded_ext; [done| |exact H1]. intros q s. rewrite Hcount, Hw, Hi.
        assert (in_queue q RetryWaiting job = false) as -> by (apply in_queue_false; naive_solver). cbn. lia.
      - intros id j [->|Hin]%elem_of_cons Hj; [cbn in Hj; congruence|by eapply H3]. }
  destruct (instant_add _ _) as [d|]; [|done]. destruct (IH _ _ Hl) as (H1 & H2 & H3). split_and!.
  - pose proof (loaded_alter (as_str (job_queue job)) [] (one RetryWaiting)
      (on_stats (on_retrying u64_incr)) queues) as H0. ospecialize (H0 _).
    { intros qs. pose proof (qs_loaded_incr RetryWaiting [] qs) as Hq. by rewrite app_nil_r in Hq. }
    refine (loaded_ext _ _ _ _ _ _ _ _ (loaded_trans _ _ _ _ _ _ _ _ _ H0 H1)).
    + intros q. by case_bool_decide.
    + intros q s. rewrite Hcount, Hw, Hi. case_bool_decide as Hq.
      * assert (in_queue q RetryWaiting job = true) as -> by (by apply in_queue_spec). cbn [b2z]. lia.
      * assert (in_queue q RetryWaiting job = false) as -> by (apply in_queue_false; naive_solver). cbn [b2z]. lia.
    + intros q s. unfold one, b2z. repeat case_bool_decide; lia.
    + intros q s. unfold retry_count, one, b2z. case_bool_decide; lia.
  - intros e He. apply H2. rewrite heap_push_elems. by right.
  - intros id j [->|Hin]%elem_of_cons Hj Hsj; [|by eapply H3].
    eexists. split; [apply H2; rewrite heap_push_elems; left|done].
Qed.
(** The queues of the configuration. *)
Lemma initial_queues_lookup cfg q :
  initial_queues cfg !! q = if bool_decide (q ∈ queue_names (cfg_queues cfg)) then Some QueueState_new else None.
Proof.
  unfold initial_queues, queue_names.
  assert (∀ qcs (m : gmap string QueueState),
    foldl (λ m qc, <[as_str (qc_name qc) := QueueState_new]> m) m qcs !! q
    = if bool_decide (q ∈ (λ qc, as_str (qc_name qc)) <$> qcs) then Some QueueState_new else m !! q) as Hgen.
  { induction qcs as [|qc qcs IH]; intros m; [done|]. cbn [foldl]. rewrite IH, fmap_cons.
    destruct (decide (q ∈ (λ qc, as_str (qc_name qc)) <$> qcs)) as [Hin|Hin].
    - rewrite !bool_decide_true; [done|by right|done].
    - rewrite (bool_decide_false _ Hin). destruct (decide (q = as_str (qc_name qc))) as [->|Hne].
      + rewrite lookup_insert_eq, bool_decide_true; [done|left].
      + rewrite lookup_insert_ne by done. rewrite bool_decide_false; [done|]. by intros [|]%elem_of_cons. }
  rewrite Hgen, lookup_empty. done.
Qed.

(** What the constructor needs of a recovered state. *)
Record recovered_ok (cfg : RuntimeConfig) (t : nat) (rec : RecoveredState) : Prop := {
  ro_jobs : jobs_ok (rec_store rec);
  ro_not_running : ∀ id job, rec_store rec !! id = Some job → job_state job ≠ Running;
  ro_queue : ∀ id job, rec_store rec !! id = Some job → is_terminal (job_state job) = false →
    as_str (job_queue job) ∈ queue_names (cfg_queues cfg);
  ro_queued : ∀ q, NoDup (default [] (rec_queued_jobs rec !! q))
    ∧ ∀ id, id ∈ default [] (rec_queued_jobs rec !! q) ↔
        ∃ job, rec_store rec !! id = Some job ∧ in_queue q Queued job = true;
  ro_retry_NoDup : NoDup (rec_retry_jobs rec).*1;
  ro_retry : ∀ id, id ∈ (rec_retry_jobs rec).*1 ↔
    ∃ job, rec_store rec !! id = Some job ∧ job_state job = RetryWaiting;
  ro_epoch : small t → 0 ≤ rec_next_lease_epoch rec ≤ 2 ^ 63 + Z.of_nat t;
  ro_fresh : ∀ t', (t ≤ t')%nat → rec_store rec !! env_uuid t' = None;
}.

(** The number of jobs that the loops count. *)
Definition load_count (rec : RecoveredState) (q : string) (s : JobState) : Z :=
  let st := rec_store rec in
  zlen (queued_of st (default [] (rec_queued_jobs rec !! q))) * one Queued s
  + retry_count st (rec_retry_jobs rec) q * one RetryWaiting s
  + (if is_terminal s then zlen (filter (λ job, in_queue q s job = true) (hash_iter st).*2) else 0).

Lemma queued_of_all cfg t rec q :
  recovered_ok cfg t rec →
  queued_of (rec_store rec) (default [] (rec_queued_jobs rec !! q)) = default [] (rec_queued_jobs rec !! q).
Proof.
  intros R. destruct (ro_queued _ _ _ R q) as [_ Hin].
  assert (∀ id, id ∈ default [] (rec_queued_jobs rec !! q) → in_state (rec_store rec) Queued id = true) as Hall.
  { intros id (job & Hj & Hq%in_queue_spec)%Hin. apply in_state_spec. naive_solver. }
  revert Hall. generalize (default [] (rec_queued_jobs rec !! q)). unfold queued_of.
  induction l as [|id l IH]; intros Hall; [done|]. rewrite filter_cons_True by set_solver.
  f_equal. apply IH. set_solver.
Qed.

Lemma load_count_exact cfg t rec q s :
  recovered_ok cfg t rec → load_count rec q s = count_jobs (in_queue q s) (rec_store rec).
Proof.
  intros R. unfold load_count. rewrite (queued_of_all cfg t) by done.
  assert (count_jobs (in_queue q Queued) (rec_store rec) = zlen (default [] (rec_queued_jobs rec !! q))) as Hq.
  { destruct (ro_queued _ _ _ R q). by apply mcount_list. }
  assert (count_jobs (in_queue q RetryWaiting) (rec_store rec) = retry_count (rec_store rec) (rec_retry_jobs rec) q) as Hr.
  { apply mcount_list.
    - eapply sublist_NoDup; [apply (ro_retry_NoDup _ _ _ R)|apply sublist_filter].
    - intros id. rewrite list_elem_of_filter, (ro_retry _ _ _ R). unfold is_waiting.
      destruct (rec_store rec !! id) as [job|]; setoid_rewrite in_queue_spec; naive_solver. }
  assert (count_jobs (in_queue q Running) (rec_store rec) = 0) as Hrun.
  { apply (mcount_list _ _ []); [constructor|]. intros id. rewrite elem_of_nil.
    setoid_rewrite in_queue_spec. pose proof (ro_not_running _ _ _ R id). naive_solver. }
  destruct s; cbn [is_terminal]; unfold one; repeat case_bool_decide; try done; cbn [b2z];
    rewrite <-?mcount_hash_iter; lia.
Qed.
(** The semaphores of the configuration, one per queue. *)
Definition sems_for (cfg : RuntimeConfig) (sems : gmap string Semaphore) : Prop :=
  ∀ q, is_Some (sems !! q) ↔ q ∈ queue_names (cfg_queues cfg).

Lemma recovered_queues_ok cfg t rec q1 q2 h :
  recovered_ok cfg t rec →
  q1 = load_queued (rec_store rec) (initial_queues cfg) (hash_iter (rec_queued_jobs rec)) →
  (∃ now wall, load_retries now wall (rec_store rec) (rec_retry_jobs rec) heap_new q1 = Some (h, q2)) →
  let queues := load_terminal q2 (hash_iter (rec_store rec)).*2 in
  queues_ok (rec_store rec) queues
  ∧ (∀ q, is_Some (queues !! q) ↔ q ∈ queue_names (cfg_queues cfg))
  ∧ retries_ok (rec_store rec) (heap_elems h).
Proof.
  intros R -> (now & wall & Hl) queues.
  pose proof (load_queued_loaded (rec_store rec) (hash_iter (rec_queued_jobs rec)) (initial_queues cfg)
    (hash_iter_NoDup_fst _)) as L1. cbn zeta in L1.
  rewrite (list_to_map_proper (hash_iter (rec_queued_jobs rec)) (map_to_list (rec_queued_jobs rec))),
    list_to_map_to_list in L1 by (apply hash_iter_NoDup_fst || apply hash_iter_perm).
  destruct (load_retries_loaded _ _ _ _ _ _ _ _ Hl) as (L2 & _ & Hheap).
  pose proof (load_terminal_loaded (hash_iter (rec_store rec)).*2 q2) as L3.
  assert (∀ (n : nat) s0 s, 0 ≤ Z.of_nat n * one s0 s) as Hpos
    by (intros n s0 s; unfold one, b2z; case_bool_decide; lia).
  assert (loaded (λ q, default [] (rec_queued_jobs rec !! q)) (load_count rec) (initial_queues cfg) queues) as L.
  { refine (loaded_ext _ _ _ _ _ _ _ _
      (loaded_trans _ _ _ _ _ _ _ _ _ (loaded_trans _ _ _ _ _ _ _ _ _ L1 L2) L3)).
    - intros q. rewrite !app_nil_r. by apply (queued_of_all cfg t).
    - intros q s. done.
    - intros q s. unfold queued_count, retry_count. pose proof (Hpos (length (queued_of (rec_store rec) (default [] (rec_queued_jobs rec !! q)))) Queued s).
      pose proof (Hpos (length (filter (λ id, is_waiting (rec_store rec) q id = true) (rec_retry_jobs rec).*1)) RetryWaiting s). lia.
    - intros q s. destruct (is_terminal s); lia.
    - intros q s. apply Hpos.
    - intros q s. apply Hpos. }
  assert (∀ q, is_Some (queues !! q) ↔ q ∈ queue_names (cfg_queues cfg)) as Hdom.
  { intros q. specialize (L q). rewrite initial_queues_lookup in L. destruct (queues !! q);
      case_bool_decide; inversion L; split; try done; by intros []. }
  split; [|split; [done|]].
  - split.
    + intros id job Hj Hlive. apply Hdom. by eapply (ro_queue _ _ _ R).
    + intros q qs Hqs. specialize (L q). rewrite Hqs, initial_queues_lookup in L.
      case_bool_decide; inversion L as [x y [Hr Hs]|]; subst.
      destruct (ro_queued _ _ _ R q) as [Hnd Hin]. split.
      * by rewrite Hr.
      * intros id. by rewrite Hr.
      * intros Hsz s. rewrite Hs; [rewrite (load_count_exact cfg t) by done; by destruct s|].
        intros s'. rewrite (load_count_exact cfg t) by done.
        pose proof (mcount_size (in_queue q s') (rec_store rec)).
        assert (stat_of s' (qs_stats QueueState_new) = 0) as -> by (by destruct s'). lia.
  - intros id job Hj Hs. eapply Hheap; [|done|done]. apply (ro_retry _ _ _ R). by exists job.
Qed.

Context (P : nat → Storage → MemoryStore → Prop) `{!LogInv P}.

(** The coordinator starts from a recovered state in a state that satisfies the
    invariant. *)
Lemma init_recovered now wall cfg sto sems tok rec c t tr :
  recovered_ok cfg t rec → config_fits cfg → sems_for cfg sems → P t sto (rec_store rec) →
  with_rng_and_recovery now wall cfg sto sems tok (Some rec) = Some c →
  inv P (mkState c t tr).
Proof.
  intros R Hfit Hsems HP Hc. unfold with_rng_and_recovery in Hc.
  destruct (load_retries _ _ _ _ _ _) as [[h q2]|] eqn:Hl; [|done]. injection Hc as <-.
  destruct (recovered_queues_ok cfg t rec _ q2 h R eq_refl) as (Hq & Hdom & Hr); [by eauto|].
  split; st_simpl; try done.
  - apply R.
  - intros q. rewrite Hdom. apply Hsems.
  - destruct (cfg_queues cfg); [by left|right; cbn; lia].
  - intros Hs. split; [by apply (ro_epoch _ _ _ R)|done].
  - apply R.
Qed.

(** ... and so it does from nothing. *)
Lemma init_new cfg sto sems tok c t tr :
  config_fits cfg → sems_for cfg sems → P t sto ∅ →
  Coordinator_new cfg sto sems tok = Some c → inv P (mkState c t tr).
Proof.
  intros Hfit Hsems HP [= <-].
  assert (∀ q, is_Some (initial_queues cfg !! q) ↔ q ∈ queue_names (cfg_queues cfg)) as Hdom.
  { intros q. rewrite initial_queues_lookup. case_bool_decide; split; try done; by intros []. }
  unfold store_new. split; st_simpl; try done.
  - split.
    + intros id job Hj. by rewrite lookup_empty in Hj.
    + intros q qs Hqs. rewrite initial_queues_lookup in Hqs. case_bool_decide; simplify_eq.
      split; cbn; [constructor| |].
      * intros id. rewrite elem_of_nil. setoid_rewrite lookup_empty. naive_solver.
      * intros _ s. rewrite mcount_empty. by destruct s.
  - intros q. rewrite Hdom. apply Hsems.
  - destruct (cfg_queues cfg); [by left|right; cbn; lia].
  - intros _. split; [lia|done].
Qed.
End init.
