(* ===== verification/CoordinatorProps.v ===== *)
(** * What the coordinator guarantees

    The theorems about the running coordinator: its tables stay consistent
    whatever commands arrive, stale workers are fenced off, submissions and
    cancellations happen completely or not at all, outcomes move a job as they
    should, capacity permits are neither lost nor duplicated, retries come back
    when they are due, and a shutdown drains. *)

From S2P Require Import Prelude Types Config Store Codec ConcreteWire Scanner Writer Recovery.
From S2P Require Import RecoveryProofs RetryHeap Environment Coordinator Quiet QueueInv CoordinatorInv.
From S2P Require Import CoordinatorSafe CoordinatorLoop CoordinatorInit.

Section props.
Context `{W : Wire} `{HI : HashIter} `{RH : RetryHeap} `{!RetryHeapLaws RH}.
Context `{SM : Semaphores} `{!SemaphoresLaws SM} `{EN : Env} `{!EnvLaws EN}.

(** ** Consistency *)

(** What holds of the tables of a coordinator that started from nothing. *)
Record consistent (c : Coordinator) : Prop := {
  con_ready : ∀ q qs, co_queues c !! q = Some qs → NoDup (qs_ready qs)
    ∧ ∀ id, id ∈ qs_ready qs ↔ ∃ job, co_store c !! id = Some job ∧ in_queue q Queued job = true;
  con_lease : ∀ id l, co_leases c !! id = Some l →
    ∃ job, co_store c !! id = Some job ∧ job_state job = Running;
  con_retry : ∀ id job, co_store c !! id = Some job → job_state job = RetryWaiting →
    ∃ e, e ∈ heap_elems (co_retry_queue c) ∧ entry_job_id e = id;
  con_attempts : ∀ id job, co_store c !! id = Some job →
    0 ≤ job_attempts job ≤ Z.max 1 (max_attempts (job_spec job));
  con_permits : ∀ id p, co_permits c !! id = Some p ↔
    ∃ job, co_store c !! id = Some job ∧ is_terminal (job_state job) = false
           ∧ as_str (job_queue job) = p;
}.

(** C2: whatever sequence of commands, timer events and I/O failures a freshly
    started coordinator goes through, it never panics, and in the state it
    reaches the tables agree: a ready list holds exactly the [Queued] jobs of its
    queue, each once; a lease belongs to a [Running] job; a job that waits for
    its retry has a timer; no job has been leased more often than [max_attempts]
    (at least once) allows; and a capacity permit is held exactly for the jobs
    that are not over. *)
Theorem coordinator_consistent cfg sto sems tok ws :
  config_fits cfg → sems_for cfg sems → Forall (wakeup_ok (queue_names (cfg_queues cfg))) ws →
  ∃ c b s, Coordinator_new cfg sto sems tok = Some c ∧ run ws (mkState c 0 []) = Some (b, s)
           ∧ consistent (coord s).
Proof.
  intros Hfit Hsems Hws.
  assert (∃ c, Coordinator_new cfg sto sems tok = Some c) as [c Hc] by (by eexists).
  pose proof (init_new (λ _ _ _, True) cfg sto sems tok c 0 [] Hfit Hsems Logic.I Hc) as I0.
  assert (co_queue_order c = queue_names (cfg_queues cfg) ∧ co_store c = ∅) as [Hord Hst]
    by (by injection Hc as <-).
  destruct (wp_total _ _ _ (run_safe _ ws (mkState c 0 []) I0 ltac:(cbn; by rewrite Hord)))
    as (b & s & Hrun & I & handled & _ & F).
  exists c, b, s. split_and!; [done|done|]. split.
  - intros q qs Hq. destruct (each_queue_ok _ _ (i_queues _ _ I) _ _ Hq). done.
  - apply I.
  - apply I.
  - intros id job Hj. by apply (proj2 (i_jobs _ _ I)) in Hj as (_ & ? & _).
  - intros id p. split; [apply (i_permits _ _ I)|]. intros (job & Hj & Hl & Hq).
    destruct (co_permits (coord s) !! id) as [p'|] eqn:Hp.
    + destruct (i_permits _ _ I _ _ Hp) as (job' & ? & _ & ?). congruence.
    + destruct (fr_held _ _ _ F _ _ Hj Hl Hp) as (job' & Hj' & _). cbn in Hj'.
      by rewrite Hst, lookup_empty in Hj'.
Qed.

(** The invariant behind it is inductive for every way of persisting: from
    any state that satisfies it, every run ends without a panic in a state that
    satisfies it; on the way no job disappears, changes its identity or loses an
    attempt, a job that is over is never touched again, and the effects already
    seen by the outside stay. *)
Lemma invariant_preserved P `{!LogInv P} s ws :
  inv P s → Forall (wakeup_ok (co_queue_order (coord s))) ws →
  ∃ b s', run ws s = Some (b, s') ∧ inv P s' ∧ evolves (co_store (coord s)) (co_store (coord s'))
          ∧ trace s `prefix_of` trace s'.
Proof.
  intros I Hws. destruct (wp_total _ _ _ (run_safe P ws s I Hws)) as (b & s' & Hrun & I' & h & _ & F).
  exists b, s'. split_and!; [done|done|apply F|apply F].
Qed.

(** ** Fencing *)

(** C11: a worker whose lease is gone can do no harm: once the lease it holds is
    not (or no longer) the current one of the job, then after any further run of
    the coordinator, however the job has been leased again since, its outcome
    only increments the counter of stale outcomes. *)
Theorem stale_outcome_fenced P `{!LogInv P} s ws b s' id lid o :
  inv P s → Forall (wakeup_ok (co_queue_order (coord s))) ws →
  epoch lid < co_next_lease_epoch (coord s) →
  (∀ l, co_leases (coord s) !! id = Some l → al_lease_id l ≠ lid) →
  run ws s = Some (b, s') → small (tick s') →
  do_worker_outcome id lid o s' =
    Some ((), mkState (set_global_stats (incr_stale_outcomes (co_global_stats (coord s'))) (coord s'))
                (tick s') (trace s')).
Proof.
  intros I Hws Hep Hnot Hrun Hsm.
  destruct (wp_result _ _ _ _ _ (run_safe P ws s I Hws) Hrun) as (_ & h & _ & F).
  unfold do_worker_outcome, mbind, action_bind, get. cbn beta iota.
  destruct (co_leases (coord s') !! id) as [l|] eqn:Hl; [|done].
  rewrite bool_decide_false; [done|]. intros Heq.
  destruct (fr_leases _ _ _ F _ _ Hl) as [Hl'|Hl']; [by apply (Hnot l)|].
  specialize (Hl' Hsm). rewrite Heq in Hl'. lia.
Qed.

(** The storage does not matter where nothing is said about the log. *)
Lemma inv_storage sto s :
  inv (λ _ _ _, True) s → inv (λ _ _ _, True) (mkState (set_storage sto (coord s)) (tick s) (trace s)).
Proof. intros I. by apply (inv_core _ s). Qed.

(** ** Submission and cancellation *)

(** What [do_submit] answers: the guards in their order, then what becomes of the
    append of the one record it makes. *)
Definition submit_result (s : State) (queue : QueueName) (spec : JobSpec) : Result JobRecord :=
  let id := env_uuid (tick s) in
  let created := env_wall (S (tick s)) in
  match co_queues (coord s) !! as_str queue with
  | None => Err (QueueNotFound (as_str queue))
  | Some _ =>
      if MAX_PAYLOAD_SIZE <? zlen (payload spec) then Err (PayloadTooLarge (zlen (payload spec)) MAX_PAYLOAD_SIZE)
      else match (persist (env_io (S (S (tick s)))) (co_storage (coord s)) (JobSubmitted id queue spec created)).1 with
           | Err e => Err (Storage_error e)
           | Ok _ => Ok (JobRecord_new id queue spec created)
           end
  end.

Definition capacity_kept (c : Coordinator) := (co_permits c, co_semaphores c).

Lemma lease_loop_capacity k n : quiet (λ _, True) capacity_kept (lease_loop k n).
Proof. induction k as [|k IH]; cbn [lease_loop]; quiet_tac; apply IH. Qed.

Lemma try_lease_job_capacity : quiet (λ _, True) capacity_kept try_lease_job.
Proof. unfold try_lease_job. quiet_tac. apply lease_loop_capacity. Qed.

Lemma dispatch_loop_capacity fuel : quiet (λ _, True) capacity_kept (dispatch_loop fuel).
Proof. induction fuel as [|fuel IH]; cbn [dispatch_loop]; quiet_tac; [apply try_lease_job_capacity|apply IH..]. Qed.

Lemma try_dispatch_capacity : quiet (λ _, True) capacity_kept try_dispatch_parked_workers.
Proof. unfold try_dispatch_parked_workers. quiet_tac. apply dispatch_loop_capacity. Qed.

(** [do_submit] up to the dispatch of the new job, or the error. *)
Lemma do_submit_result P `{!LogInv P} s queue spec :
  inv P s → u32_range (max_attempts spec) →
  wp (do_submit queue spec (as_str queue)) (λ r s', r = submit_result s queue spec ∧
    match r with
    | Ok record => ∃ sto, try_dispatch_parked_workers
        (mkState (submitted (job_id record) record (as_str queue) sto (coord s)) (S (S (S (tick s)))) (trace s))
        = Some ((), s')
    | Err _ =>
        co_store (coord s') = co_store (coord s) ∧ co_permits (coord s') = co_permits (coord s)
        ∧ co_semaphores (coord s') = alter sem_release (as_str queue) (co_semaphores (coord s))
    end) s.
Proof.
  intros I Hmax. unfold do_submit, submit_result. do 2 wp_step.
  destruct (co_queues (coord s) !! as_str queue) as [qs|] eqn:Hqs; [|by wp_run].
  destruct (Z.ltb_spec MAX_PAYLOAD_SIZE (zlen (payload spec))); [by wp_run|].
  do 5 wp_step. apply wp_persist. intros [n|e] sto Hp; st_simpl; cbn beta iota; rewrite Hp; cbn [fst]; [|by wp_run].
  wp_step. eapply wp_apply_ok; [done|]. cbn beta iota. do 3 wp_step. cbn [record_job_id].
  assert (co_store (coord s) !! env_uuid (tick s) = None) as Hnew by (apply (i_fresh _ _ I); done).
  eapply wp_unwrap; [apply lookup_insert_eq|]. cbn beta. wp_step. unfold hold_permit. do 4 wp_step.
  rewrite (no_permit _ _ _ I Hnew). wp_run.
  destruct (submitted_ok P s queue spec (env_wall (S (tick s))) sto (S (S (S (tick s)))) (trace s) I)
    as [I1 _]; try done; [|lia|].
  { eapply log_accepted; [apply I| |exact Hp|done|done|done]. lia. }
  destruct (wp_total _ _ _ (try_dispatch_safe P _ I1)) as ([] & s' & Hd & _).
  eapply wp_eq; [exact Hd|]. wp_step. split; [done|]. by exists sto.
Qed.

(** C20: a submission happens completely or not at all.  It succeeds exactly when
    the queue exists, the payload is not too large and the append of its record
    succeeds; then the job is in the store under an identifier that was not there
    before, with the queue, the specification and the time that were submitted,
    and the permit is held for it and not in the semaphore.  On an error, which is
    the one of the first condition that fails, the store, the queues and the held
    permits are as before and the permit is back in its semaphore. *)
Theorem submit_all_or_nothing P `{!LogInv P} s queue spec :
  inv P s → u32_range (max_attempts spec) →
  ∃ s', do_submit queue spec (as_str queue) s = Some (submit_result s queue spec, s') ∧ inv P s'
    ∧ match submit_result s queue spec with
      | Ok record =>
          co_store (coord s) !! job_id record = None
          ∧ (∃ created, record = JobRecord_new (job_id record) queue spec created)
          ∧ (∃ job, co_store (coord s') !! job_id record = Some job ∧ same_job record job)
          ∧ co_permits (coord s') = <[job_id record := as_str queue]> (co_permits (coord s))
          ∧ co_semaphores (coord s') = co_semaphores (coord s)
      | Err _ =>
          co_store (coord s') = co_store (coord s) ∧ co_queues (coord s') = co_queues (coord s)
          ∧ co_permits (coord s') = co_permits (coord s)
          ∧ co_semaphores (coord s') = alter sem_release (as_str queue) (co_semaphores (coord s))
      end.
Proof.
  intros I Hmax. pose proof (do_submit_result P s queue spec I Hmax) as Hres.
  destruct (co_semaphores (coord s) !! as_str queue) as [sem|] eqn:Hsem.
  - destruct (wp_total _ _ _ (wp_and _ _ _ _ (do_submit_safe P s queue spec I (mk_is_Some _ _ Hsem) Hmax) Hres))
      as (r & s' & Hr & (I' & _ & HQ) & -> & HP).
    exists s'. split; [done|]. split; [done|]. unfold submit_post in HQ.
    destruct (submit_result s queue spec) as [record|e]; [|naive_solver]. destruct HP as (sto & Hd).
    destruct (try_dispatch_capacity _ _ _ Hd) as [_ Hk]. unfold capacity_kept, submitted in Hk. st_simpl.
    injection Hk as Hk1 Hk2. destruct HQ as (? & ? & ?). split_and!; done.
  - assert (co_queues (coord s) !! as_str queue = None) as Hq.
    { apply eq_None_not_Some. rewrite <-(i_sems _ _ I), Hsem. by intros []. }
    unfold do_submit, submit_result in *. rewrite Hq in *. unfold mbind, action_bind, get, drop_permit, modify. st_simpl.
    rewrite Hq. eexists. split; [reflexivity|]. st_simpl. split; [|done].
    apply (inv_core P s); [done|done| |apply I]. unfold core. st_simpl. by rewrite alter_id by (intros ? ?; congruence).
Qed.

(** What [do_cancel] answers. *)
Definition cancel_result (s : State) (id : JobId) : Result JobRecord :=
  match co_store (coord s) !! id with
  | None => Err (JobNotFound id)
  | Some job =>
      if is_terminal (job_state job) then Err (InvalidTransition (job_state job) Cancelled)
      else match (persist (env_io (S (tick s))) (co_storage (coord s)) (JobCancelled id (env_wall (tick s)))).1 with
           | Err e => Err (Storage_error e)
           | Ok _ => Ok (set_state Cancelled job)
           end
  end.

Lemma do_cancel_result P `{!LogInv P} s id :
  inv P s → wp (do_cancel id) (λ r s', r = cancel_result s id
    ∧ match r with
      | Ok _ =>
          co_leases (coord s') = delete id (co_leases (coord s))
          ∧ co_permits (coord s') = delete id (co_permits (coord s))
          ∧ ∀ l, co_leases (coord s) !! id = Some l → TokenCancelled (al_cancellation l) ∈ trace s'
      | Err _ =>
          co_leases (coord s') = co_leases (coord s) ∧ co_permits (coord s') = co_permits (coord s)
          ∧ trace s' = trace s
      end) s.
Proof.
  intros I. unfold do_cancel, cancel_result. do 2 wp_step. apply wp_try, wp_ret. unfold store_get.
  destruct (co_store (coord s) !! id) as [job|] eqn:Hj; cbn [ok_or]; [|done].
  destruct (is_terminal (job_state job)) eqn:Hlive; [by wp_step|].
  do 3 wp_step. apply wp_persist. intros [n|e] sto Hp; st_simpl; cbn beta iota; rewrite Hp; cbn [fst]; [|by wp_step].
  apply wp_try. eapply wp_apply_ok; [st_simpl; by apply apply_cancelled|]. cbn beta iota.
  do 3 wp_step. eapply wp_unwrap; [apply lookup_insert_eq|]. cbn beta.
  destruct (queue_of_live _ _ (i_queues _ _ I) _ _ Hj Hlive) as [qs Hqs]. rewrite Hqs.
  destruct (decide (job_state job = Running)) as [Hs|Hs].
  - rewrite Hs. wp_run. unfold remove_lease. wp_run.
    destruct (co_leases (coord s) !! id) as [l|] eqn:Hl; wp_run; unfold released; st_simpl; split_and!; try done.
    intros l' [= ->]. apply elem_of_app. right. left.
  - pose proof (not_running_no_lease P s id job I Hj Hs) as Hl.
    destruct (job_state job); try done; wp_run; unfold released; st_simpl;
      rewrite (delete_id (co_leases (coord s))) by done; split_and!; try done; congruence.
Qed.


(** ** Capacity *)

(** Capacity permits are conserved: over any run, the free and the held
    permits of a queue change exactly by the permits that came in with the
    submissions handled; so a finished, cancelled or rejected job gives its
    permit back exactly once. *)
Lemma permits_conserved P `{!LogInv P} s ws :
  inv P s → Forall (wakeup_ok (co_queue_order (coord s))) ws →
  ∃ b s' handled, run ws s = Some (b, s') ∧ handled `prefix_of` ws
    ∧ ∀ q, q ∈ co_queue_order (coord s) →
        permit_total (coord s') q = permit_total (coord s) q + total_permits handled q.
Proof.
  intros I Hws. destruct (wp_total _ _ _ (run_safe P ws s I Hws)) as (b & s' & Hrun & _ & h & Hh & F).
  exists b, s', h. split_and!; [done|done|]. intros q Hq.
  by apply (fr_permits _ _ _ F), (i_order _ _ I).
Qed.

(** ** Retries *)

(** [process_due_retries] terminates and leaves nothing overdue: a job still
    waiting afterwards has a timer, and every timer left is later than the time
    at which the function started. *)
Lemma due_retries_processed P `{!LogInv P} s :
  inv P s →
  ∃ s', process_due_retries s = Some ((), s') ∧ inv P s'
    ∧ (∀ e, e ∈ heap_elems (co_retry_queue (coord s')) → env_instant (tick s) < available_at e)
    ∧ ∀ id job, co_store (coord s') !! id = Some job → job_state job = RetryWaiting →
        ∃ e, e ∈ heap_elems (co_retry_queue (coord s')) ∧ entry_job_id e = id.
Proof.
  intros I. destruct (wp_total _ _ _ (process_due_retries_safe P s I)) as ([] & s' & Hr & I' & _ & HQ).
  exists s'. split_and!; [done|done|done|apply I'].
Qed.

(** ** Shutdown *)

(** A shutdown drains: once it has begun, over any further run no job is
    leased any more (the leases only become fewer), the shutdown is not undone,
    a submission is answered with [ShuttingDown] without touching the store, and
    a worker that asks for work is told to stop. *)
Lemma shutdown_drains P `{!LogInv P} s ws b s' queue spec reply :
  inv P s → Forall (wakeup_ok (co_queue_order (coord s))) ws →
  co_shutting_down (coord s) = true → run ws s = Some (b, s') →
  co_shutting_down (coord s') = true
  ∧ (∀ id l, co_leases (coord s') !! id = Some l → co_leases (coord s) !! id = Some l)
  ∧ (∃ s1, handle (Cmd_Submit queue spec (as_str queue) reply) s' = Some ((), s1)
       ∧ trace s1 = trace s' ++ [Sent reply (Reply_job (Err ShuttingDown)) (env_alive (tick s'))]
       ∧ co_store (coord s1) = co_store (coord s'))
  ∧ ∃ s2, handle (Cmd_FetchWork reply) s' = Some ((), s2)
       ∧ trace s2 = trace s' ++ [Sent reply (Reply_work None) (env_alive (tick s'))]
       ∧ coord s2 = coord s'.
Proof.
  intros I Hws Hsd Hrun.
  destruct (wp_result _ _ _ _ _ (run_safe P ws s I Hws) Hrun) as (I' & h & _ & F).
  pose proof (fr_shutting _ _ _ F Hsd) as Hsd'.
  split_and!; [done|by apply (fr_drain _ _ _ F)| |].
  - cbn [handle]. unfold mbind, action_bind, get. cbn beta iota. rewrite Hsd'. by eexists.
  - cbn [handle]. unfold do_fetch_work, mbind, action_bind, get. cbn beta iota. rewrite Hsd'. by eexists.
Qed.
(** ** Outcomes *)

(** The state that an outcome of a job's current lease calls for. *)
Definition outcome_state (job : JobRecord) (o : WorkerOutcome) : JobState :=
  match o with
  | Outcome_Success => Completed
  | Outcome_Fatal => Dead
  | Outcome_Retryable | Outcome_Panic =>
      if max_attempts (job_spec job) <=? job_attempts job then Dead else RetryWaiting
  end.

(** The backoff of a retry that is scheduled now. *)
Definition outcome_delay (s : State) (job : JobRecord) : Z :=
  delay_with_rng (cfg_retry (co_config (coord s))) (job_attempts job) (env_rand (tick s)).

(** The record of an outcome, and the tick of its append. *)
Definition outcome_record (s : State) (id : JobId) (lid : LeaseId) (job : JobRecord) (o : WorkerOutcome)
    : nat * WalRecord :=
  match outcome_state job o with
  | Completed => (S (tick s), JobCompleted id lid (env_wall (tick s)))
  | RetryWaiting =>
      (S (S (tick s)), JobRetryScheduled id lid (job_attempts job)
        (wall_deadline (env_wall (S (tick s))) (outcome_delay s job)))
  | _ => (S (tick s), JobDead id lid (env_wall (tick s)))
  end.

(** The retry heap when the record of the outcome is in the log. *)
Definition outcome_retries (s : State) (id : JobId) (job : JobRecord) (o : WorkerOutcome) : heap :=
  match outcome_state job o with
  | RetryWaiting =>
      heap_push (mkRetryEntry (env_instant (S (S (S (tick s)))) + outcome_delay s job)
                   (wall_deadline (env_wall (S (tick s))) (outcome_delay s job)) id)
        (co_retry_queue (coord s))
  | _ => co_retry_queue (coord s)
  end.

(** What [do_worker_outcome] does to the tables: [id]'s lease ends; when its
    record gets into the log, the job takes its new state, with a timer if it is to
    be retried, and its permit is released if it is not; when exactly this append
    fails, nothing else changes and the error is logged. *)
Definition outcome_done (s : State) (id : JobId) (lid : LeaseId) (job : JobRecord) (o : WorkerOutcome)
    (s' : State) : Prop :=
  let '(t, r) := outcome_record s id lid job o in
  let '(reply, sto) := persist (env_io t) (co_storage (coord s)) r in
  co_leases (coord s') = delete id (co_leases (coord s))
  ∧ co_storage (coord s') = sto
  ∧ match reply with
    | Ok _ =>
        co_store (coord s') = <[id := set_state (outcome_state job o) job]> (co_store (coord s))
        ∧ co_permits (coord s') =
            (if is_terminal (outcome_state job o) then delete id (co_permits (coord s))
             else co_permits (coord s))
        ∧ co_retry_queue (coord s') = outcome_retries s id job o
        ∧ trace s' = trace s
    | Err e =>
        co_store (coord s') = co_store (coord s) ∧ co_permits (coord s') = co_permits (coord s)
        ∧ co_retry_queue (coord s') = co_retry_queue (coord s)
        ∧ ∃ operation, trace s' = trace s ++ [PersistFailed operation e]
    end.

Lemma do_worker_outcome_done P `{!LogInv P} s id lease job o :
  inv P s → co_leases (coord s) !! id = Some lease → co_store (coord s) !! id = Some job →
  wp (do_worker_outcome id (al_lease_id lease) o) (λ _ s', outcome_done s id (al_lease_id lease) job o s') s.
Proof.
  intros I Hl Hj. destruct (i_leases _ _ I _ _ Hl) as (job' & Hj' & Hs). simplify_eq.
  unfold do_worker_outcome. do 2 wp_step. rewrite Hl, bool_decide_true by done. cbn [negb].
  wp_step. unfold remove_lease. wp_run. unfold store_get. rewrite Hj.
  unfold outcome_done, outcome_record, outcome_retries, outcome_state.
  destruct o; try (destruct (max_attempts (job_spec job) <=? job_attempts job));
    unfold complete_job, dead_job, schedule_retry; wp_run; apply wp_persist;
    intros [n|e] sto Hp; st_simpl; unfold outcome_delay; rewrite Hp; cbn beta iota; wp_run.
  all: try (split_and!; try done; by eexists).
  all: eapply wp_apply_ok; [st_simpl; by apply (apply_running _ id job)|].
  all: cbn beta iota; wp_run.
  all: try (eapply wp_unwrap; [by apply (retry_delay_fits P)|]; wp_run).
  all: unfold released; st_simpl; cbn [record_target]; done.
Qed.


(** ** Failed appends *)

(** C24: an outcome whose record cannot be persisted strands its job: the lease is
    removed before the append, so when the append fails the job stays [Running]
    in the store with neither a lease nor a retry, and since an outcome without a
    lease is stale, only a cancellation or a restart moves it again. *)
Theorem failed_outcome_strands_job s id lease job o :
  co_leases (coord s) !! id = Some lease → co_store (coord s) !! id = Some job →
  (∀ t r, ∃ e sto, persist (env_io t) (co_storage (coord s)) r = (Err e, sto)) →
  ∃ s', do_worker_outcome id (al_lease_id lease) o s = Some ((), s')
    ∧ co_store (coord s') = co_store (coord s)
    ∧ co_leases (coord s') = delete id (co_leases (coord s))
    ∧ co_retry_queue (coord s') = co_retry_queue (coord s).
Proof.
  intros Hl Hj Hfail.
  assert (wp (do_worker_outcome id (al_lease_id lease) o)
    (λ _ s', co_store (coord s') = co_store (coord s)
      ∧ co_leases (coord s') = delete id (co_leases (coord s))
      ∧ co_retry_queue (coord s') = co_retry_queue (coord s)) s) as Hwp.
  { unfold do_worker_outcome. do 2 wp_step. rewrite Hl, bool_decide_true by done. cbn [negb].
    wp_step. unfold remove_lease. wp_run. unfold store_get. rewrite Hj.
    destruct o; try (destruct (max_attempts (job_spec job) <=? job_attempts job));
      unfold complete_job, dead_job, schedule_retry; wp_run; apply wp_persist;
      intros reply sto Hp; st_simpl;
      match type of Hp with persist (env_io ?t) _ ?r = _ => destruct (Hfail t r) as (e & sto' & Hf) end;
      rewrite Hf in Hp; simplify_eq; by wp_run. }
  destruct (wp_total _ _ _ Hwp) as ([] & s' & Hs' & H). by exists s'.
Qed.
End props.

(** ** The example coordinator of the witnesses *)

Section example.
#[local] Existing Instance canonical_iter.
#[local] Existing Instance sorted_heap.
#[local] Existing Instance counting_semaphores.
#[local] Existing Instance steady_env.

Definition ex_sems : gmap string Semaphore := {[ "q"%string := sem_new 2 ]}.

Definition ex_coord : Coordinator :=
  mkCoordinator ∅ Storage_Memory {[ "q"%string := QueueState_new ]} ["q"%string] 0 ∅ ∅ heap_new []
    ex_sems ex_config 1 GlobalStats_default false None None 0%N.

Definition ex_start : State := mkState ex_coord 0 [].

Definition ex_queue_q : QueueName := mkQueueName "q".
Definition ex_spec : JobSpec := JobSpec_new [Byte.x2a].

(** A submission, a worker that fetches the job, and a second submission. *)
Definition ex_wakeups : list Wakeup :=
  [Wake_command (Cmd_Submit ex_queue_q ex_spec "q" 1%N);
   Wake_command (Cmd_FetchWork 2%N);
   Wake_command (Cmd_Submit ex_queue_q ex_spec "q" 3%N)].

Definition ex_after_run (ws : list Wakeup) : State :=
  match run ws ex_start with Some (_, s) => s | None => ex_start end.

Lemma ex_fits : config_fits ex_config.
Proof.
  split; [vm_compute; split; discriminate|]. split; [vm_compute; split; discriminate|].
  intros t. change (env_instant t) with (Z.min (Z.of_nat t * NANOS_PER_MILLI) (2 ^ 60)).
  assert (2 ^ 60 + visibility_timeout ex_config ≤ instant_max) by (vm_compute; discriminate).
  assert (2 ^ 60 + shutdown_timeout ex_config ≤ instant_max) by (vm_compute; discriminate).
  assert (2 ^ 60 + max_delay (cfg_retry ex_config) ≤ instant_max) by (vm_compute; discriminate).
  lia.
Qed.

Lemma ex_sems_for : sems_for ex_config ex_sems.
Proof.
  intros q. unfold ex_sems. rewrite lookup_singleton_is_Some. cbn. set_solver.
Qed.

Lemma ex_inv : inv (λ _ _ _, True) ex_start.
Proof. by apply (init_new _ ex_config Storage_Memory ex_sems 0%N ex_coord 0 [] ex_fits ex_sems_for). Qed.

Lemma ex_wakeups_ok : Forall (wakeup_ok ["q"%string]) ex_wakeups.
Proof. repeat constructor; vm_compute; intuition discriminate. Qed.

Example ex_run_states :
  job_state <$> (map_to_list (co_store (coord (ex_after_run ex_wakeups)))).*2 = [Running; Queued].
Proof. vm_compute. reflexivity. Qed.

Lemma coordinator_consistent_witness :
  ∃ c b s, Coordinator_new ex_config Storage_Memory ex_sems 0%N = Some c
    ∧ run ex_wakeups (mkState c 0 []) = Some (b, s) ∧ consistent (coord s).
Proof.
  apply (coordinator_consistent ex_config Storage_Memory ex_sems 0%N ex_wakeups
           ex_fits ex_sems_for ex_wakeups_ok).
Defined.

(** The state after the run, with the second job queued and the first leased. *)
Definition ex_mid : State := ex_after_run ex_wakeups.

Lemma ex_mid_run : run ex_wakeups ex_start = Some (true, ex_mid).
Proof. vm_compute. reflexivity. Qed.

Lemma ex_mid_inv : inv (λ _ _ _, True) ex_mid.
Proof.
  exact (proj1 (wp_result _ _ _ _ _ (run_safe (λ _ _ _, True) ex_wakeups ex_start ex_inv ex_wakeups_ok) ex_mid_run)).
Qed.

(** An outcome for a lease that was never granted. *)
Lemma stale_outcome_fenced_witness :
  do_worker_outcome (from_uuid 2) (LeaseId_new 0) Outcome_Success ex_mid =
    Some ((), mkState (set_global_stats (incr_stale_outcomes (co_global_stats (coord ex_mid))) (coord ex_mid))
                (tick ex_mid) (trace ex_mid)).
Proof.
  apply (stale_outcome_fenced (λ _ _ _, True) ex_start ex_wakeups true ex_mid (from_uuid 2)
           (LeaseId_new 0) Outcome_Success ex_inv ex_wakeups_ok).
  - reflexivity.
  - intros l Hl. discriminate Hl.
  - apply ex_mid_run.
  - vm_compute. reflexivity.
Defined.

(** The same state with its records in a log. *)
Definition ex_logged : State :=
  mkState (set_storage (Storage_Wal (mkWalWriter true (WriterThread_new (header_encode WalHeader_new) 1))) (coord ex_mid))
    (tick ex_mid) (trace ex_mid).

Lemma ex_logged_inv : inv (λ _ _ _, True) ex_logged.
Proof. exact (inv_storage _ ex_mid ex_mid_inv). Qed.

Definition ex_record : JobRecord :=
  match submit_result ex_logged ex_queue_q ex_spec with Ok r => r | Err _ => ex_job end.

Lemma ex_logged_submits : submit_result ex_logged ex_queue_q ex_spec = Ok ex_record.
Proof. vm_compute. reflexivity. Qed.

Lemma submit_all_or_nothing_witness :
  ∃ s', do_submit ex_queue_q ex_spec "q" ex_logged = Some (Ok ex_record, s')
    ∧ co_permits (coord s') = <[job_id ex_record := "q"%string]> (co_permits (coord ex_logged))
    ∧ co_semaphores (coord s') = co_semaphores (coord ex_logged).
Proof.
  destruct (submit_all_or_nothing (λ _ _ _, True) ex_logged ex_queue_q ex_spec ex_logged_inv)
    as (s' & H1 & _ & H2); [vm_compute; intuition discriminate|].
  rewrite ex_logged_submits in H1, H2. destruct H2 as (_ & _ & _ & H2 & H3).
  exact (ex_intro _ s' (conj H1 (conj H2 H3))).
Defined.

(** The job that runs. *)
Definition ex_running_job : JobRecord := default ex_job (co_store (coord ex_logged) !! from_uuid 2).
Definition ex_running_lease : ActiveLease :=
  default (mkActiveLease (LeaseId_new 0) 0 0%N) (co_leases (coord ex_logged) !! from_uuid 2).

Lemma ex_logged_cancels : cancel_result ex_logged (from_uuid 2) = Ok (set_state Cancelled ex_running_job).
Proof. vm_compute. reflexivity. Qed.


(** A shutdown while a job runs. *)
Definition ex_draining : State := ex_after_run (ex_wakeups ++ [Wake_command (Cmd_Shutdown 4%N)]).

Lemma ex_draining_inv : inv (λ _ _ _, True) ex_draining.
Proof.
  refine (proj1 (wp_result _ _ _ _ _ (run_safe (λ _ _ _, True)
    (ex_wakeups ++ [Wake_command (Cmd_Shutdown 4%N)]) ex_start ex_inv _) _)).
  - apply Forall_app. split; [apply ex_wakeups_ok|by repeat constructor].
  - vm_compute. reflexivity.
Qed.

(** One more turn of the loop. *)
Definition ex_drained : State :=
  match run [] ex_draining with Some (_, s) => s | None => ex_draining end.


(** The same coordinator, on a disk that fails from now on. *)
Definition broken_env : Env := {|
  env_instant := env_instant; instant_max := instant_max; env_wall := env_wall;
  env_uuid := env_uuid; env_token := env_token; env_rand := env_rand; env_alive := env_alive;
  env_io t := mkWriteIo (Some (0%nat, "disk full"%string)) None;
|}.

Definition ex_broken : State :=
  mkState (set_storage (Storage_Wal (mkWalWriter true (WriterThread_new [] 1))) (coord ex_mid))
    (tick ex_mid) (trace ex_mid).

Lemma failed_outcome_strands_job_witness :
  ∃ s', do_worker_outcome (EN := broken_env) (from_uuid 2) (LeaseId_new 1) Outcome_Success ex_broken = Some ((), s')
    ∧ co_leases (coord s') = delete (from_uuid 2) (co_leases (coord ex_broken)).
Proof.
  destruct (failed_outcome_strands_job (EN := broken_env) ex_broken (from_uuid 2)
    (match co_leases (coord ex_broken) !! from_uuid 2 with Some l => l | None => mkActiveLease (LeaseId_new 1) 0 0%N end)
    (match co_store (coord ex_broken) !! from_uuid 2 with Some j => j | None => ex_job end)
    Outcome_Success) as (s' & H1 & _ & H2 & _).
  - vm_compute. reflexivity.
  - vm_compute. reflexivity.
  - intros t r. change (co_storage (coord ex_broken)) with
      (Storage_Wal (mkWalWriter true (WriterThread_new [] 1))).
    unfold persist, writer_append, process_write.
    destruct (frame_encode _) as [encoded|e]; by eexists _, _.
  - exact (ex_intro _ s' (conj H1 H2)).
Defined.
End example.
