(* ===== verification/CoordinatorStats.v ===== *)
(** * Statistics and scheduling

    The snapshot that [do_stats] returns counts exactly the jobs of the store,
    and [try_lease_job] serves the queues in turn, each in the order of its ready
    list. *)

From S2P Require Import Prelude Types Config Store Codec ConcreteWire Scanner Writer Recovery.
From S2P Require Import RecoveryProofs RetryHeap Environment Coordinator QueueInv CoordinatorInv.
From S2P Require Import CoordinatorSafe CoordinatorLoop CoordinatorInit CoordinatorProps.

(** ** Sums of counts *)

(** The jobs in state [s] of the queues [ks]. *)
Definition in_queues (ks : list string) (s : JobState) (job : JobRecord) : bool :=
  bool_decide (as_str (job_queue job) ∈ ks) && bool_decide (job_state job = s).

Lemma count_queues_nil st s : count_jobs (in_queues [] s) st = 0.
Proof.
  apply (mcount_list _ _ []); [constructor|]. intros id. rewrite elem_of_nil. unfold in_queues.
  split; [done|]. intros (job & _ & [Hq%bool_decide_eq_true _]%andb_true_iff). by apply elem_of_nil in Hq.
Qed.

Lemma count_queues_cons st k ks s :
  k ∉ ks → count_jobs (in_queues (k :: ks) s) st =
    count_jobs (in_queue k s) st + count_jobs (in_queues ks s) st.
Proof.
  intros Hk. apply mcount_split. intros id job _. unfold in_queues, in_queue.
  destruct (bool_decide (job_state job = s)); rewrite ?andb_true_r, ?andb_false_r; [|done].
  repeat case_bool_decide; try done; set_solver.
Qed.

Section stats.
Context `{W : Wire} `{HI : HashIter} `{RH : RetryHeap} `{!RetryHeapLaws RH}.
Context `{SM : Semaphores} `{!SemaphoresLaws SM} `{EN : Env} `{!EnvLaws EN}.

Lemma sum_stat_count st s (l : list (string * QueueState)) acc :
  NoDup l.*1 → (∀ q qs, (q, qs) ∈ l → stat_of s (qs_stats qs) = count_jobs (in_queue q s) st) →
  0 ≤ acc → acc + count_jobs (in_queues l.*1 s) st ≤ u64_max →
  foldl (λ acc e, u64_wrap (acc + stat_of s (qs_stats e.2))) acc l
    = acc + count_jobs (in_queues l.*1 s) st.
Proof.
  revert acc; induction l as [|[q qs] l IH]; intros acc Hnd Hst Hacc Hmax.
  { cbn [foldl fmap list_fmap]. rewrite count_queues_nil. lia. }
  cbn in Hnd. apply NoDup_cons in Hnd as [Hq Hnd]. rewrite fmap_cons in *. cbn [fst snd foldl] in *.
  rewrite count_queues_cons in * by done. rewrite (Hst q qs) by left.
  pose proof (mcount_nonneg (in_queue q s) st). pose proof (mcount_nonneg (in_queues l.*1 s) st).
  rewrite u64_wrap_small by (unfold u64_range, u64_max in *; lia).
  rewrite IH; [lia|done| |lia|lia]. intros q' qs' Hin. apply Hst. by right.
Qed.

(** A sum of the snapshot counts the jobs of the configured queues. *)
Lemma do_stats_queues st queues s names :
  queues_ok st queues → Z.of_nat (size st) ≤ u64_max → (∀ q, q ∈ names ↔ is_Some (queues !! q)) →
  sum_stat (stat_of s) (hash_iter queues) = count_jobs (in_queues names s) st.
Proof.
  intros Hok Hsz Hnames. unfold sum_stat. rewrite (sum_stat_count st s).
  - rewrite Z.add_0_l. apply mcount_ext. intros id job Hj. unfold in_queues. f_equal. apply bool_decide_ext.
    rewrite Hnames, list_elem_of_fmap. split.
    + intros ([q qs] & -> & Hin%elem_of_hash_iter). by eexists.
    + intros [qs Hq]. exists (as_str (job_queue job), qs). by rewrite elem_of_hash_iter.
  - apply hash_iter_NoDup_fst.
  - intros q qs Hin%elem_of_hash_iter. by apply (stats_exact _ _ _ (each_queue_ok _ _ Hok _ _ Hin)).
  - lia.
  - pose proof (mcount_size (in_queues (hash_iter queues).*1 s) st). lia.
Qed.

Lemma do_stats_sum st queues s :
  queues_ok st queues → Z.of_nat (size st) ≤ u64_max →
  (∀ id job, st !! id = Some job → job_state job = s → is_Some (queues !! as_str (job_queue job))) →
  sum_stat (stat_of s) (hash_iter queues) = count_jobs (has_state s) st.
Proof.
  intros Hok Hsz Hall. rewrite (do_stats_queues st queues s (map_to_list queues).*1); [|done|done|].
  - apply mcount_ext. intros id job Hj. unfold in_queues, has_state.
    destruct (decide (job_state job = s)) as [Hs|Hs]; [|by rewrite (bool_decide_false _ Hs), andb_false_r].
    rewrite (bool_decide_true _ Hs), andb_true_r. apply bool_decide_true.
    destruct (Hall _ _ Hj Hs) as [qs Hq]. apply list_elem_of_fmap. exists (as_str (job_queue job), qs).
    by rewrite elem_of_map_to_list.
  - intros q. rewrite list_elem_of_fmap. split.
    + intros ([q' qs] & -> & Hin%elem_of_map_to_list). by eexists.
    + intros [qs Hq]. exists (q, qs). by rewrite elem_of_map_to_list.
Qed.

Lemma per_queue_lookup (l : list (string * QueueState)) (m : gmap string QueueStats) q :
  NoDup l.*1 →
  foldl (λ m e, <[e.1 := qs_stats e.2]> m) m l !! q =
    match (list_to_map l : gmap string QueueState) !! q with
    | Some qs => Some (qs_stats qs)
    | None => m !! q
    end.
Proof.
  revert m; induction l as [|[k qs] l IH]; intros m Hnd; [done|]. cbn in Hnd.
  apply NoDup_cons in Hnd as [Hk Hnd]. cbn [foldl fst snd]. rewrite IH by done. cbn.
  assert ((list_to_map l : gmap string QueueState) !! k = None) as Hn by (by apply not_elem_of_list_to_map_1).
  destruct (decide (k = q)) as [<-|Hne].
  - by rewrite Hn, !lookup_insert_eq.
  - by rewrite !lookup_insert_ne.
Qed.

(** In every state that satisfies the invariant, the numbers of queued, running
    and retrying jobs of the snapshot are the numbers of jobs of the store in those
    states, and the entry of a queue counts, state by state, the jobs of that
    queue. *)
Lemma stats_snapshot_exact P s :
  inv P s → Z.of_nat (size (co_store (coord s))) ≤ u64_max →
  let snap := do_stats (coord s) in
  snap_queued snap = count_jobs (has_state Queued) (co_store (coord s))
  ∧ snap_running snap = count_jobs (has_state Running) (co_store (coord s))
  ∧ snap_retrying snap = count_jobs (has_state RetryWaiting) (co_store (coord s))
  ∧ ∀ q, q ∈ co_queue_order (coord s) →
      ∃ qs, snap_per_queue snap !! q = Some qs
            ∧ ∀ js, stat_of js qs = count_jobs (in_queue q js) (co_store (coord s)).
Proof.
  intros I Hsz snap. pose proof (i_queues _ _ I) as Hq.
  split_and!; cbn [snap do_stats snap_queued snap_running snap_retrying].
  - apply (do_stats_sum _ _ Queued Hq Hsz). intros id job Hj Hs.
    eapply (queue_of_live _ _ Hq); [done|by rewrite Hs].
  - apply (do_stats_sum _ _ Running Hq Hsz). intros id job Hj Hs.
    eapply (queue_of_live _ _ Hq); [done|by rewrite Hs].
  - apply (do_stats_sum _ _ RetryWaiting Hq Hsz). intros id job Hj Hs.
    eapply (queue_of_live _ _ Hq); [done|by rewrite Hs].
  - intros q [qs Hqs]%(i_order _ _ I). exists (qs_stats qs). subst snap. cbn [do_stats snap_per_queue].
    rewrite per_queue_lookup by apply hash_iter_NoDup_fst.
    rewrite (list_to_map_proper (hash_iter _) (map_to_list (co_queues (coord s)))), list_to_map_to_list, Hqs
      by (apply hash_iter_NoDup_fst || apply hash_iter_perm).
    split; [done|]. by apply (stats_exact _ _ _ (each_queue_ok _ _ Hq _ _ Hqs)).
Qed.
(** ** Round robin *)

(** The queue [j] places after the next one, in cyclic order. *)
Definition queue_at (c : Coordinator) (j : nat) : option string :=
  co_queue_order c !! ((co_next_queue_idx c + j) mod length (co_queue_order c))%nat.

Definition ready_of (c : Coordinator) (q : string) : list JobId :=
  default [] (qs_ready <$> co_queues c !! q).

(** The record that a lease of [job] needs in the log, and the answer to its
    append. *)
Definition lease_record (s : State) (job : JobRecord) : WalRecord :=
  JobLeased (job_id job) (LeaseId_new (co_next_lease_epoch (coord s))) (u32_wrap (job_attempts job + 1))
    (env_wall (tick s)).

Definition lease_append (s : State) (job : JobRecord) : WalResult (option Z) * Storage :=
  persist (env_io (S (tick s))) (co_storage (coord s)) (lease_record s job).

(** The state in which the loop goes on behind the [j]th queue when the append was
    refused: the queue keeps its job. *)
Definition passed_over (n j : nat) (s : State) (sto : Storage) (e : WalError) : State :=
  mkState (set_storage sto (set_next_queue_idx ((co_next_queue_idx (coord s) + j + 1) mod n)%nat (coord s)))
    (S (S (tick s))) (trace s ++ [PersistFailed "lease" e]).

(** What a worker is given of [job]. *)
Definition leases_out (s : State) (n j : nat) (q : string) (job : JobRecord) (lj : LeasedJob) (s' : State) : Prop :=
  let ctx := lj_context lj in
  (ctx_id ctx, ctx_queue ctx, ctx_payload ctx, ctx_attempt ctx, ctx_max_attempts ctx) =
    (job_id job, job_queue job, payload (job_spec job), u32_wrap (job_attempts job + 1), max_attempts (job_spec job))
  ∧ lj_lease_id lj = LeaseId_new (co_next_lease_epoch (coord s))
  ∧ (∃ lease, co_leases (coord s') = <[job_id job := lease]> (co_leases (coord s))
       ∧ al_lease_id lease = lj_lease_id lj ∧ al_cancellation lease = ctx_cancellation ctx)
  ∧ co_next_queue_idx (coord s') = ((co_next_queue_idx (coord s) + j + 1) mod n)%nat
  ∧ ready_of (coord s') q = tail (ready_of (coord s) q).

Lemma queue_at_advanced s n j :
  n = length (co_queue_order (coord s)) → n ≠ 0%nat →
  queue_at (coord (advanced n s)) j = queue_at (coord s) (S j).
Proof.
  intros -> Hn. unfold queue_at, advanced. st_simpl. f_equal.
  rewrite Nat.Div0.add_mod_idemp_l. f_equal. lia.
Qed.

Lemma lease_front P k n s q id :
  inv P s → n = length (co_queue_order (coord s)) → n ≠ 0%nat →
  queue_at (coord s) 0 = Some q → head (ready_of (coord s) q) = Some id →
  ∃ job, co_store (coord s) !! id = Some job ∧ job_id job = id ∧ job_state job = Queued
    ∧ match lease_append s job with
      | (Ok _, _) => wp (lease_loop (S k) n) (λ r s', ∃ lj, r = Some lj ∧ leases_out s n 0 q job lj s') s
      | (Err e, sto) => lease_loop (S k) n s = lease_loop k n (passed_over n 0 s sto e)
      end.
Proof.
  intros I Hn Hn0 Hq Hh. unfold queue_at in Hq.
  destruct (i_idx _ _ I) as [Hnil|Hidx]; [by rewrite Hnil in Hn|].
  rewrite Nat.add_0_r, Nat.mod_small in Hq by done.
  unfold ready_of in Hh. destruct (co_queues (coord s) !! q) as [qs|] eqn:Hqs; [|done]. cbn in Hh.
  destruct (front_is_queued (co_store (coord s)) q qs id) as (job & Hj & Hjq & Hs); [|done|].
  { by apply (each_queue_ok _ _ (i_queues _ _ I)). }
  pose proof (proj1 (i_jobs _ _ I) _ _ Hj) as Hid. exists job. split_and!; [done..|].
  unfold lease_append, lease_record. rewrite Hid.
  destruct (persist _ _ _) as [[m|e] sto] eqn:Hp.
  - cbn [lease_loop]. do 3 wp_step. eapply wp_unwrap; [exact Hq|]. do 2 wp_step.
    rewrite Hqs, Hh. unfold store_get. rewrite Hj, bool_decide_true by done. cbn [negb].
    do 3 wp_step. apply wp_persist. intros reply sto' Hp'. st_simpl. rewrite Hp in Hp'. injection Hp' as <- <-. cbn beta iota.
    subst q. do 3 wp_step. eapply wp_apply_ok; [st_simpl; by apply apply_leased|]. cbn beta iota.
    do 7 wp_step. eapply wp_unwrap; [by eapply visibility_fits|]. do 6 wp_step.
    unfold store_get. rewrite lookup_insert_eq. wp_step.
    eexists. split; [done|]. unfold leases_out. cbn [lj_context lj_lease_id ctx_id ctx_queue ctx_payload ctx_attempt
      ctx_max_attempts ctx_cancellation]. cbn. rewrite !Hid. split_and!; [done|done|by eexists|by rewrite Nat.add_0_r|].
    unfold ready_of. st_simpl. by rewrite !lookup_alter_eq, Hqs.
  - cbn [lease_loop]. unfold mbind, action_bind, get, unwrap, modify, ask, storage_persist, log_persist_error, emit.
    unfold mbind, action_bind, get, modify, ask. rewrite Hq. cbn. rewrite Hqs, Hh. unfold store_get.
    rewrite Hj, bool_decide_true by done. cbn. rewrite Hp. unfold passed_over. by rewrite Nat.add_0_r.
Qed.

Lemma lease_skip k n s q :
  n = length (co_queue_order (coord s)) → queue_at (coord s) 0 = Some q →
  (co_next_queue_idx (coord s) < n)%nat → ready_of (coord s) q = [] →
  lease_loop (S k) n s = lease_loop k n (advanced n s).
Proof.
  intros Hn Hq Hidx Hr. unfold queue_at in Hq. rewrite Nat.add_0_r, Nat.mod_small in Hq by lia.
  cbn [lease_loop]. unfold mbind, action_bind, get, unwrap, modify. rewrite Hq. cbn.
  unfold ready_of in Hr. destruct (co_queues (coord s) !! q) as [qs|]; [|done]. cbn in Hr. by rewrite Hr.
Qed.

Lemma leases_out_advanced s n j q job lj s' :
  n ≠ 0%nat → leases_out (advanced n s) n j q job lj s' → leases_out s n (S j) q job lj s'.
Proof.
  intros Hn (H1 & H2 & H3 & H4 & H5). split_and!; try done. rewrite H4. unfold advanced. st_simpl.
  rewrite <-Nat.add_assoc, Nat.Div0.add_mod_idemp_l. f_equal. lia.
Qed.

Lemma lease_loop_nth P k n j s q id :
  inv P s → n = length (co_queue_order (coord s)) → n ≠ 0%nat → (j < k)%nat →
  queue_at (coord s) j = Some q → head (ready_of (coord s) q) = Some id →
  (∀ i q', (i < j)%nat → queue_at (coord s) i = Some q' → ready_of (coord s) q' = []) →
  ∃ job, co_store (coord s) !! id = Some job ∧ job_id job = id ∧ job_state job = Queued
    ∧ match lease_append s job with
      | (Ok _, _) => wp (lease_loop k n) (λ r s', ∃ lj, r = Some lj ∧ leases_out s n j q job lj s') s
      | (Err e, sto) => lease_loop k n s = lease_loop (k - j - 1) n (passed_over n j s sto e)
      end.
Proof.
  revert k s; induction j as [|j IH]; intros k s I Hn Hn0 Hk Hq Hh Hempty; (destruct k as [|k]; [lia|]).
  { replace (S k - 0 - 1)%nat with k by lia. by eapply lease_front. }
  destruct (i_idx _ _ I) as [Hnil|Hidx]; [by rewrite Hnil in Hn|].
  destruct (lookup_lt_is_Some_2 (co_queue_order (coord s)) (co_next_queue_idx (coord s)) Hidx) as [q0 Hq0].
  assert (queue_at (coord s) 0 = Some q0) as Hq0'.
  { unfold queue_at. by rewrite Nat.add_0_r, Nat.mod_small. }
  unfold wp. rewrite (lease_skip k n s q0) by (done || lia || (apply (Hempty 0%nat); [lia|done])).
  destruct (advanced_ok P s n I Hn Hn0) as [I1 _].
  destruct (IH k (advanced n s) I1 Hn Hn0) as (job & Hj & Hid & Hs & Hcase); [lia|by rewrite queue_at_advanced|done| |].
  { intros i q' Hi. rewrite queue_at_advanced by done. intros Hqi. apply (Hempty (S i)); [lia|done]. }
  exists job. split_and!; [done..|]. change (lease_append s job) with (lease_append (advanced n s) job).
  destruct (lease_append (advanced n s) job) as [[m|e] sto].
  - refine (wp_mono _ _ _ _ Hcase _). intros r s' (lj & -> & Hl). exists lj. split; [done|]. by apply leases_out_advanced.
  - rewrite Hcase. assert (passed_over n j (advanced n s) sto e = passed_over n (S j) s sto e) as ->; [|done].
    unfold passed_over, advanced. st_simpl. rewrite <-Nat.add_assoc, Nat.Div0.add_mod_idemp_l.
    by replace (co_next_queue_idx (coord s) + 1 + (j + 1))%nat with (co_next_queue_idx (coord s) + S j + 1)%nat by lia.
Qed.

(** C23: workers are served fairly: [try_lease_job] skips the empty queues and turns
    to the job at the front of the first queue that has one, counted cyclically
    from where it stopped the last time.  When the append of its lease record
    succeeds, this job is leased under the next lease number and told to the
    worker as it was submitted, with its next attempt; it is removed from that
    ready list, and the next call continues after that queue; so queues take
    turns and each is served first in, first out.  When this append fails, the
    error is logged, the job stays where it is and the search goes on behind the
    queue. *)
Theorem lease_round_robin P s j q id :
  inv P s → (j < length (co_queue_order (coord s)))%nat →
  queue_at (coord s) j = Some q → head (ready_of (coord s) q) = Some id →
  (∀ i q', (i < j)%nat → queue_at (coord s) i = Some q' → ready_of (coord s) q' = []) →
  let n := length (co_queue_order (coord s)) in
  ∃ job, co_store (coord s) !! id = Some job ∧ job_id job = id ∧ job_state job = Queued
    ∧ match lease_append s job with
      | (Ok _, _) => ∃ lj s', try_lease_job s = Some (Some lj, s') ∧ leases_out s n j q job lj s'
      | (Err e, sto) => try_lease_job s = lease_loop (n - j - 1) n (passed_over n j s sto e)
      end.
Proof.
  intros I Hj Hq Hh Hempty n. assert (n ≠ 0%nat) as Hn by (subst n; lia).
  assert (try_lease_job s = lease_loop n n s) as ->.
  { unfold try_lease_job, mbind, action_bind, get. fold n. by destruct (Nat.eqb_spec n 0). }
  destruct (lease_loop_nth P n n j s q id I eq_refl Hn Hj Hq Hh Hempty) as (job & Hjob & Hid & Hs & Hcase).
  exists job. split_and!; [done..|]. destruct (lease_append s job) as [[m|e] sto]; [|done].
  destruct (wp_total _ _ _ Hcase) as (r & s' & Hr & lj & -> & H). by exists lj, s'.
Qed.
End stats.

(** ** Witnesses *)

Section witnesses.
#[local] Existing Instance canonical_iter.
#[local] Existing Instance sorted_heap.
#[local] Existing Instance counting_semaphores.
#[local] Existing Instance steady_env.

(** The second job of the example is in the ready list, and the log can be
    written. *)
Definition ex_ready_job : JobRecord := default ex_job (co_store (coord ex_logged) !! from_uuid 15).

Lemma ex_logged_append : is_ok (lease_append ex_logged ex_ready_job).1 = true.
Proof. vm_compute. reflexivity. Qed.

Lemma lease_round_robin_witness :
  ∃ lj s', try_lease_job ex_logged = Some (Some lj, s') ∧ leases_out ex_logged 1 0 "q" ex_ready_job lj s'.
Proof.
  destruct (lease_round_robin (λ _ _ _, True) ex_logged 0 "q" (from_uuid 15) ex_logged_inv) as (job & Hj & _ & _ & H).
  - vm_compute. constructor.
  - vm_compute. reflexivity.
  - vm_compute. reflexivity.
  - intros i q' Hi. destruct (Nat.nlt_0_r i Hi).
  - assert (ex_ready_job = job) as <- by exact (f_equal (default ex_job) Hj).
    pose proof ex_logged_append as Ha. destruct (lease_append ex_logged ex_ready_job) as [[m|e] sto]; [exact H|discriminate Ha].
Defined.
End witnesses.
