(* ===== verification/CoordinatorReplies.v ===== *)
(** * Replies and effects of the coordinator

    Which messages an action may send and which fields it leaves alone; from this,
    that every request is answered exactly once with a message of the type that
    its receiver waits for, and that the shutdown comes to its end. *)

From S2P Require Import Prelude Types Config Store Codec ConcreteWire Scanner Writer Recovery.
From S2P Require Import RetryHeap Environment Coordinator Quiet QueueInv CoordinatorInv.
From S2P Require Import CoordinatorSafe CoordinatorLoop CoordinatorInit CoordinatorProps.

(** Messages to workers that get a job, revoked tokens and failed appends: what
    happens beside the reply to a request. *)
Definition background (e : Effect) : Prop :=
  match e with
  | Sent _ (Reply_work (Some _)) _ => True
  | Sent _ _ _ => False
  | _ => True
  end.

(** Nothing is sent. *)
Definition unsent (e : Effect) : Prop := match e with Sent _ _ _ => False | _ => True end.

Lemma unsent_background e : unsent e → background e.
Proof. by destruct e. Qed.

(** The workers that were sent a job, in order. *)
Definition work_sent (effs : list Effect) : list Sender :=
  omap (λ e, match e with Sent w (Reply_work (Some _)) _ => Some w | _ => None end) effs.

Lemma unsent_no_work effs : Forall unsent effs → work_sent effs = [].
Proof. induction 1 as [|[] effs He _ IH]; by cbn. Qed.

Lemma work_sent_app effs1 effs2 : work_sent (effs1 ++ effs2) = work_sent effs1 ++ work_sent effs2.
Proof. apply omap_app. Qed.

Section replies.
Context `{W : Wire} `{HI : HashIter} `{RH : RetryHeap} `{SM : Semaphores} `{EN : Env}.

(** What leasing does not touch. *)
Definition lease_kept (c : Coordinator) :=
  (co_parked_workers c, co_shutting_down c, co_shutdown_deadline c, co_shutdown_reply c).

(** What the handling of requests and timers does not touch. *)
Definition drain_kept (c : Coordinator) := (co_shutting_down c, co_shutdown_deadline c, co_shutdown_reply c).

Lemma lease_loop_quiet k n : quiet unsent lease_kept (lease_loop k n).
Proof. induction k as [|k IH]; cbn [lease_loop]; quiet_tac; try apply IH. Qed.

Lemma try_lease_job_quiet : quiet unsent lease_kept try_lease_job.
Proof. unfold try_lease_job. quiet_tac. apply lease_loop_quiet. Qed.

Lemma quietly_weaken {X Y} (E E' : Effect → Prop) (g : Coordinator → X) (f : X → Y) {A} (m : act A) :
  quiet E g m → (∀ e, E e → E' e) → quiet E' (λ c, f (g c)) m.
Proof.
  intros Hm HE s a s' H. destruct (Hm _ _ _ H) as [(effs & Ht & HF) Hg]. split; [|by rewrite Hg].
  exists effs. split; [done|]. eapply Forall_impl; [exact HF|exact HE].
Qed.

Lemma quiet_drain {A} E (m : act A) : quiet E lease_kept m → quiet E drain_kept m.
Proof. intros H. exact (quietly_weaken E E lease_kept (λ '(_, a, b, c), (a, b, c)) m H (λ e He, He)). Qed.

Lemma try_dispatch_quiet : quiet background drain_kept try_dispatch_parked_workers.
Proof.
  assert (quiet background drain_kept try_lease_job) as Hlease.
  { exact (quietly_weaken unsent background lease_kept (λ '(_, a, b, c), (a, b, c))
      try_lease_job try_lease_job_quiet unsent_background). }
  assert (∀ fuel, quiet background drain_kept (dispatch_loop fuel)) as Hloop.
  { induction fuel as [|fuel IH]; cbn [dispatch_loop]; quiet_tac; apply IH || apply Hlease. }
  unfold try_dispatch_parked_workers. quiet_tac. apply Hloop.
Qed.

Lemma do_submit_quiet queue spec permit : quiet background drain_kept (do_submit queue spec permit).
Proof. unfold do_submit. quiet_tac. apply try_dispatch_quiet. Qed.

Lemma do_cancel_quiet id : quiet unsent lease_kept (do_cancel id).
Proof. unfold do_cancel. quiet_tac. Qed.

Lemma do_worker_outcome_quiet id lid o : quiet unsent lease_kept (do_worker_outcome id lid o).
Proof. unfold do_worker_outcome, complete_job, dead_job, schedule_retry. quiet_tac. Qed.

Lemma process_due_retries_quiet : quiet unsent lease_kept process_due_retries.
Proof.
  assert (∀ fuel now, quiet unsent lease_kept (due_loop fuel now)) as Hloop.
  { induction fuel as [|fuel IH]; intros now; cbn [due_loop]; quiet_tac; apply IH. }
  unfold process_due_retries. quiet_tac. apply Hloop.
Qed.

Lemma check_lease_timeouts_quiet : quiet unsent lease_kept check_lease_timeouts.
Proof. unfold check_lease_timeouts, time_out_lease, dead_job, schedule_retry. quiet_tac. Qed.
(** While the coordinator shuts down, no command changes how. *)
Lemma handle_drain_kept cmd s s' :
  co_shutting_down (coord s) = true → handle cmd s = Some ((), s') →
  drain_kept (coord s') = drain_kept (coord s).
Proof.
  intros Hsh Hh.
  assert (∀ {A} (m : act A) E, quiet E drain_kept m → quiet (λ _, True) drain_kept m) as Hany.
  { intros A m E Hm. exact (quietly_weaken E (λ _, True) drain_kept (λ x, x) m Hm ltac:(done)). }
  destruct cmd as [queue spec permit reply| | | |reply| |reply]; cbn [handle] in Hh.
  7:{ unfold start_shutdown, mbind, action_bind, get in Hh. rewrite Hsh in Hh. by injection Hh as <-. }
  all: match type of Hh with ?m _ = _ =>
         assert (quiet (λ _, True) drain_kept m) as Hq; [|by apply Hq in Hh as [_ Hk]] end.
  - quiet_tac. by eapply Hany, do_submit_quiet.
  - unfold do_status. quiet_tac.
  - quiet_tac. by eapply Hany, quiet_drain, do_cancel_quiet.
  - quiet_tac.
  - unfold do_fetch_work. quiet_tac. by eapply Hany, quiet_drain, try_lease_job_quiet.
  - by eapply Hany, quiet_drain, do_worker_outcome_quiet.
Qed.

(** ** Every request is answered *)

(** The effects between two states. *)
Definition happened (s : State) (effs : list Effect) (s' : State) : Prop := trace s' = trace s ++ effs.

(** In the background jobs were given to the workers that had been parked longest,
    one to each, who are no longer parked, and nothing else was sent. *)
Definition dispatched (s : State) (effs : list Effect) (s' : State) : Prop :=
  Forall background effs ∧ co_parked_workers (coord s) = work_sent effs ++ co_parked_workers (coord s').

(** [effs] ends with the answer [r] to [to], and what happened before it is in the
    background. *)
Definition answered (s : State) (to : Sender) (r : Reply) (effs : list Effect) (s' : State) : Prop :=
  ∃ before alive, effs = before ++ [Sent to r alive] ∧ dispatched s before s'.

Lemma unsent_dispatched s effs s' :
  Forall unsent effs → co_parked_workers (coord s') = co_parked_workers (coord s) → dispatched s effs s'.
Proof.
  intros HF Hp. split; [eapply Forall_impl; [exact HF|exact unsent_background]|]. by rewrite unsent_no_work.
Qed.

Lemma bind_result {A B} (m : act A) (k : A → act B) s b s' :
  (m ≫= k) s = Some (b, s') → ∃ a s1, m s = Some (a, s1) ∧ k a s1 = Some (b, s').
Proof. unfold mbind, action_bind. destruct (m s) as [[a s1]|]; [by eauto|done]. Qed.

(** An action that only gives work to parked workers. *)
Definition dispatches {A} (m : act A) : Prop :=
  ∀ s a s', m s = Some (a, s') → ∃ effs, happened s effs s' ∧ dispatched s effs s'.

Lemma dispatches_bind {A B} (m : act A) (k : A → act B) :
  dispatches m → (∀ a, dispatches (k a)) → dispatches (m ≫= k).
Proof.
  intros Hm Hk s b s' (a & s1 & H1 & H2)%bind_result.
  destruct (Hm _ _ _ H1) as (e1 & T1 & F1 & P1), (Hk _ _ _ _ H2) as (e2 & T2 & F2 & P2). exists (e1 ++ e2).
  split; [unfold happened in *; by rewrite T2, T1, app_assoc|]. split; [by apply Forall_app|].
  by rewrite work_sent_app, P1, P2, app_assoc.
Qed.

Lemma dispatches_quiet {A} (m : act A) : quiet unsent co_parked_workers m → dispatches m.
Proof.
  intros Hm s a s' H. destruct (Hm _ _ _ H) as [(effs & Ht & HF) Hp]. exists effs. split; [done|].
  by apply unsent_dispatched.
Qed.

Lemma quiet_parked {A} E (m : act A) : quiet E lease_kept m → quiet E co_parked_workers m.
Proof. intros H. exact (quietly_weaken E E lease_kept (λ '(p, _, _, _), p) m H (λ e He, He)). Qed.

Lemma dispatch_loop_dispatches fuel : dispatches (dispatch_loop fuel).
Proof.
  induction fuel as [|fuel IH]; cbn [dispatch_loop]; [apply dispatches_quiet, quiet_ret|].
  apply dispatches_bind; [apply dispatches_quiet, quiet_get|]. intros c.
  case_bool_decide as Hnil; [apply dispatches_quiet, quiet_ret|].
  apply dispatches_bind; [apply dispatches_quiet, quiet_parked, try_lease_job_quiet|].
  intros [job|]; [|apply dispatches_quiet, quiet_ret].
  intros s b s' (c' & s1 & [= <- <-] & H)%bind_result.
  apply bind_result in H as ([] & s2 & Hp & H). apply IH in H as (effs & Ht & HF & HP).
  destruct (co_parked_workers (coord s)) as [|w parked] eqn:Hw; injection Hp as <-.
  - exists effs. split; [done|]. split; [done|exact HP].
  - exists (Sent w (Reply_work (Some job)) (env_alive (tick s)) :: effs). unfold happened in *. cbn [trace coord] in Ht.
    split; [by rewrite Ht, <-app_assoc|]. split; [by constructor|]. cbn. rewrite Hw. by f_equal.
Qed.

Lemma do_submit_dispatches queue spec permit : dispatches (do_submit queue spec permit).
Proof.
  assert (dispatches try_dispatch_parked_workers) as Hd.
  { unfold try_dispatch_parked_workers. apply dispatches_bind; [apply dispatches_quiet, quiet_get|]. intros c.
    destruct (co_shutting_down c); [apply dispatches_quiet, quiet_ret|apply dispatch_loop_dispatches]. }
  unfold do_submit.
  repeat first
    [ exact Hd
    | (apply dispatches_quiet; solve [quiet_tac])
    | match goal with |- dispatches (mbind _ _) => apply dispatches_bind; [|intros ?] end
    | match goal with |- dispatches (let _ := _ in _) => cbn zeta end
    | match goal with |- dispatches (match ?x with _ => _ end) => destruct x end ].
Qed.

(** What a command does to the channels. *)
Definition reply_spec (cmd : Command) (s : State) (effs : list Effect) (s' : State) : Prop :=
  match cmd with
  | Cmd_Submit _ _ _ reply | Cmd_Cancel _ reply => ∃ r : Result JobRecord, answered s reply (Reply_job r) effs s'
  | Cmd_Status id reply =>
      answered s reply (Reply_job (ok_or (store_get (co_store (coord s)) id) (JobNotFound id))) effs s'
  | Cmd_Stats reply => answered s reply (Reply_stats (do_stats (coord s))) effs s'
  | Cmd_FetchWork reply =>
      (∃ w : option LeasedJob, answered s reply (Reply_work w) effs s')
      ∨ Forall unsent effs ∧ co_parked_workers (coord s') = co_parked_workers (coord s) ++ [reply]
  | Cmd_WorkerOutcome _ _ _ => Forall unsent effs ∧ co_parked_workers (coord s') = co_parked_workers (coord s)
  | Cmd_Shutdown reply =>
      (∃ before alive, effs = before ++ [Sent reply Reply_done alive]
         ∧ Forall (λ e, unsent e ∨ ∃ w a, w ∈ co_parked_workers (coord s) ∧ e = Sent w (Reply_work None) a) before)
      ∨ co_shutdown_reply (coord s') = Some reply
        ∧ Forall (λ e, unsent e ∨ ∃ w a, w ∈ co_parked_workers (coord s) ∧ e = Sent w (Reply_work None) a) effs
  end.

(** An action that only gives out work, and whose result is sent. *)
Lemma dispatches_then_send {A} (m : act A) to (r : A → Reply) s s' :
  dispatches m → (a ← m; send to (r a);; mret ()) s = Some ((), s') →
  ∃ a effs, happened s effs s' ∧ answered s to (r a) effs s'.
Proof.
  intros Hm (a & s1 & H1 & H2)%bind_result. destruct (Hm _ _ _ H1) as (effs & Ht & Hd).
  injection H2 as <-. exists a, (effs ++ [Sent to (r a) (env_alive (tick s1))]). unfold happened in *. cbn [trace].
  split; [by rewrite Ht, app_assoc|]. by exists effs, (env_alive (tick s1)).
Qed.

(** A reply at once. *)
Lemma answered_at_once s to r alive s' :
  co_parked_workers (coord s') = co_parked_workers (coord s) → answered s to r [Sent to r alive] s'.
Proof. intros Hp. exists [], alive. split; [done|]. by apply unsent_dispatched. Qed.

Lemma do_fetch_work_replies s reply s' :
  do_fetch_work reply s = Some ((), s') →
  ∃ effs, happened s effs s' ∧ reply_spec (Cmd_FetchWork reply) s effs s'.
Proof.
  unfold do_fetch_work. intros (c & s1 & [= <- <-] & H)%bind_result.
  destruct (co_shutting_down (coord s)).
  { injection H as <-. eexists. split; [reflexivity|]. left. exists None. by apply answered_at_once. }
  apply bind_result in H as (leased & s2 & Hl & H).
  destruct (try_lease_job_quiet _ _ _ Hl) as [(effs & Ht & HF) Hg]. destruct leased as [job|].
  - injection H as <-. exists (effs ++ [Sent reply (Reply_work (Some job)) (env_alive (tick s2))]).
    split; [unfold happened; cbn [trace]; by rewrite Ht, app_assoc|]. left. exists (Some job), effs, (env_alive (tick s2)).
    split; [done|]. apply unsent_dispatched; [done|]. cbn [coord]. unfold lease_kept in Hg. congruence.
  - injection H as <-. exists effs. split; [exact Ht|]. right. split; [done|].
    cbn [coord set_parked_workers co_parked_workers]. unfold lease_kept in Hg. f_equal. congruence.
Qed.

(** Dismissing the parked workers only sends them [None]. *)
Lemma dismiss_replies ws s s' :
  for_each ws (λ worker, send worker (Reply_work None);; mret ()) s = Some ((), s') →
  coord s' = coord s ∧ ∃ effs, happened s effs s'
    ∧ Forall (λ e, ∃ w a, w ∈ ws ∧ e = Sent w (Reply_work None) a) effs
    ∧ ∀ w, w ∈ ws → ∃ a, Sent w (Reply_work None) a ∈ effs.
Proof.
  revert s; induction ws as [|w ws IH]; intros s H; cbn [for_each] in H.
  { injection H as <-. split; [done|]. exists [].
    split_and!; [unfold happened; by rewrite app_nil_r|constructor|]. by intros w ?%elem_of_nil. }
  apply bind_result in H as ([] & s1 & [= <-] & H). apply IH in H as [Hc (effs & Ht & HF & Hall)]. split; [exact Hc|].
  exists (Sent w (Reply_work None) (env_alive (tick s)) :: effs). split_and!.
  - unfold happened in *. cbn [trace] in Ht. by rewrite Ht, <-app_assoc.
  - constructor; [do 2 eexists; split; [left|done]|]. eapply Forall_impl; [exact HF|].
    intros e (w' & a & Hin & ->). exists w', a. split; [by right|done].
  - intros w' [->|Hin]%elem_of_cons; [eexists; left|]. destruct (Hall w' Hin) as [a Ha]. exists a. by right.
Qed.
Lemma start_shutdown_replies s reply s' :
  start_shutdown reply s = Some ((), s') →
  ∃ effs, happened s effs s' ∧ reply_spec (Cmd_Shutdown reply) s effs s'.
Proof.
  unfold start_shutdown. intros (c & s1 & [= <- <-] & H)%bind_result.
  destruct (co_shutting_down (coord s)).
  { injection H as <-. eexists. split; [reflexivity|]. left. exists [], (env_alive (tick s)).
    split; [done|constructor]. }
  apply bind_result in H as ([] & s1 & [= <-] & H). apply bind_result in H as ([] & s2 & [= <-] & H).
  apply bind_result in H as ([] & s3 & [= <-] & H). apply bind_result in H as ([] & s4 & Hd & H).
  unfold dismiss_parked in Hd. apply bind_result in Hd as (c & s5 & [= <- <-] & Hd).
  apply bind_result in Hd as ([] & s6 & [= <-] & Hd). apply dismiss_replies in Hd as [Hc (effs & Ht & HF & _)].
  unfold happened in Ht. cbn [trace coord] in Ht, Hc.
  set (first := TokenCancelled (co_shutdown_token (coord s))) in *.
  assert (Forall (λ e, unsent e ∨ ∃ w a, w ∈ co_parked_workers (coord s) ∧ e = Sent w (Reply_work None) a)
    (first :: effs)) as HF'.
  { constructor; [by left|]. eapply Forall_impl; [exact HF|]. intros e He. right. exact He. }
  case_bool_decide.
  - injection H as <-. exists ((first :: effs) ++ [Sent reply Reply_done (env_alive (tick s4))]).
    split; [unfold happened; cbn [trace]; by rewrite Ht, <-!app_assoc|]. left.
    by exists (first :: effs), (env_alive (tick s4)).
  - apply bind_result in H as (now & s7 & [= <- <-] & H). apply bind_result in H as (d & s8 & Hu & H).
    unfold unwrap in Hu. destruct (instant_add _ _); [|done]. injection Hu as <- <-. injection H as <-.
    exists (first :: effs). split; [unfold happened; cbn [trace]; by rewrite Ht, <-app_assoc|]. right. done.
Qed.

Lemma handle_replies s cmd s' :
  handle cmd s = Some ((), s') → ∃ effs, happened s effs s' ∧ reply_spec cmd s effs s'.
Proof.
  destruct cmd as [queue spec permit reply|id reply|id reply|reply|reply|id lid o|reply]; cbn [handle reply_spec].
  - intros (c & s1 & [= <- <-] & H)%bind_result. destruct (co_shutting_down (coord s)).
    + injection H as <-. eexists. split; [reflexivity|]. exists (Err ShuttingDown). by apply answered_at_once.
    + destruct (dispatches_then_send _ _ _ _ _ (do_submit_dispatches queue spec permit) H) as (r & effs & Ht & Ha).
      by exists effs; eauto.
  - intros [= <-]. eexists. split; [reflexivity|]. by apply answered_at_once.
  - intros H. destruct (dispatches_then_send _ _ _ _ _ (dispatches_quiet _ (quiet_parked _ _ (do_cancel_quiet id))) H)
      as (r & effs & Ht & Ha). by exists effs; eauto.
  - intros [= <-]. eexists. split; [reflexivity|]. by apply answered_at_once.
  - apply do_fetch_work_replies.
  - intros H. destruct (quiet_parked _ _ (do_worker_outcome_quiet id lid o) _ _ _ H) as [(effs & Ht & HF) Hp]. by exists effs.
  - apply start_shutdown_replies.
Qed.

End replies.

(** ** Witness *)

Section witnesses.
#[local] Existing Instance canonical_iter.
#[local] Existing Instance sorted_heap.
#[local] Existing Instance counting_semaphores.
#[local] Existing Instance steady_env.

(** A worker is parked when a job is submitted: the job goes to this worker, and
    the reply to the client. *)
Definition ex_parked : State := ex_after_run [Wake_command (Cmd_FetchWork 7%N)].
Definition ex_submission : Command := Cmd_Submit ex_queue_q ex_spec "q" 9%N.

Lemma ex_parked_inv : inv (λ _ _ _, True) ex_parked.
Proof.
  refine (proj1 (wp_result _ _ _ _ _ (run_safe (λ _ _ _, True) [Wake_command (Cmd_FetchWork 7%N)] ex_start ex_inv _) _)).
  - repeat constructor.
  - vm_compute. reflexivity.
Qed.

End witnesses.
