(* ===== verification/CoordinatorLive.v ===== *)
(** * Liveness of the coordinator

    No turn leaves work undone: a worker is parked only while there is nothing to
    lease, and a shutdown waits no longer than its deadline. *)

From S2P Require Import Prelude Types Config Store Codec ConcreteWire Scanner Writer Recovery.
From S2P Require Import RetryHeap Environment Coordinator Quiet QueueInv CoordinatorInv CoordinatorSafe.
From S2P Require Import CoordinatorLoop CoordinatorInit CoordinatorProps CoordinatorStats CoordinatorReplies.

Section live.
Context `{W : Wire} `{HI : HashIter} `{RH : RetryHeap} `{!RetryHeapLaws RH}.
Context `{SM : Semaphores} `{!SemaphoresLaws SM} `{EN : Env} `{!EnvLaws EN}.
Context (P : nat → Storage → MemoryStore → Prop) `{!LogInv P}.

Abbreviation inv := (inv P).
Abbreviation safe := (safe P).
Abbreviation none := (λ _ : string, 0).

(** ** Leasing until nothing is left *)

(** An append failed between [s] and [s']. *)
Definition failed_since (s s' : State) : Prop :=
  ∃ effs op e, trace s' = trace s ++ effs ∧ PersistFailed op e ∈ effs.

Lemma failed_later s s1 s2 : failed_since s s1 → trace s1 `prefix_of` trace s2 → failed_since s s2.
Proof.
  intros (effs & op & e & H1 & Hin) [more H2]. exists (effs ++ more), op, e.
  rewrite H2, H1, <-app_assoc. split; [done|]. apply elem_of_app. by left.
Qed.

Lemma failed_earlier s s1 s2 : trace s `prefix_of` trace s1 → failed_since s1 s2 → failed_since s s2.
Proof.
  intros [more H1] (effs & op & e & H2 & Hin). exists (more ++ effs), op, e.
  rewrite H2, H1, <-app_assoc. split; [done|]. apply elem_of_app. by right.
Qed.

(** Without a lease, the queues that the loop visited are empty, or the log could
    not be written. *)
Lemma lease_loop_exhausts k n s :
  inv s → n = length (co_queue_order (coord s)) → n ≠ 0%nat → co_shutting_down (coord s) = false →
  wp (lease_loop k n) (λ r s', r = None →
    failed_since s s' ∨ co_queues (coord s') = co_queues (coord s)
      ∧ ∀ i q, (i < k)%nat → queue_at (coord s) i = Some q → ready_of (coord s) q = []) s.
Proof.
  revert s; induction k as [|k IH]; intros s I Hn Hn0 Hsd.
  { apply wp_ret. intros _. right. split; [done|lia]. }
  destruct (i_idx _ _ I) as [Hnil|Hidx]; [by rewrite Hnil in Hn|].
  destruct (lookup_lt_is_Some_2 (co_queue_order (coord s)) (co_next_queue_idx (coord s)) Hidx) as [q Hq].
  assert (queue_at (coord s) 0 = Some q) as Hq0.
  { unfold queue_at. by rewrite Nat.add_0_r, Nat.mod_small. }
  destruct (advanced_ok P s n I Hn Hn0) as [I1 F1].
  destruct (ready_of (coord s) q) as [|id rest] eqn:Hready.
  { unfold wp. rewrite (lease_skip k n s q) by (done || lia).
    eapply wp_mono; [by apply (IH (advanced n s))|]. intros r s' H Hr. destruct (H Hr) as [Hf|[Hqs He]]; [by left|].
    right. split; [done|]. intros [|i] q' Hi Hqi; [congruence|]. apply (He i q'); [lia|].
    by rewrite queue_at_advanced. }
  unfold ready_of in Hready. destruct (co_queues (coord s) !! q) as [qs|] eqn:Hqs; [|done]. cbn in Hready.
  assert (head (qs_ready qs) = Some id) as Hh by by rewrite Hready.
  destruct (front_is_queued (co_store (coord s)) q qs id) as (job & Hj & <- & Hs); [|done|].
  { by apply (each_queue_ok _ _ (i_queues _ _ I)). }
  cbn [lease_loop]. do 3 wp_step. eapply wp_unwrap; [exact Hq|]. do 2 wp_step.
  rewrite Hqs, Hh. unfold store_get. rewrite Hj, bool_decide_true by done. cbn [negb].
  do 3 wp_step. apply wp_persist. intros [m|e] sto Hp; st_simpl; cbn beta iota.
  - do 3 wp_step. eapply wp_apply_ok; [st_simpl; by apply apply_leased|]. cbn beta iota.
    do 7 wp_step. eapply wp_unwrap; [by eapply visibility_fits|]. do 6 wp_step.
    unfold store_get. rewrite lookup_insert_eq. wp_step. done.
  - do 2 wp_step. destruct (refused_ok P (advanced n s) _ _ _ _ (S (S (tick s)))
      (trace s ++ [PersistFailed "lease" e]) I1 Hp) as [I2 F2]; [cbn; lia|by apply prefix_app_r|].
    match goal with |- wp _ _ ?s2 => set (s2' := s2) end.
    eapply wp_mono; [apply (lease_loop_safe P k n s2' s2'); [exact I2|done|done|done|apply lease_frame_refl]|].
    intros r s' (_ & F3 & _) _. left. eapply failed_later; [|exact (fr_trace _ _ _ F3)].
    exists [PersistFailed "lease" e], "lease"%string, e. split; [done|left].
Qed.

(** Counting cyclically reaches every queue. *)
Lemma queue_at_all c q :
  (co_next_queue_idx c < length (co_queue_order c))%nat → q ∈ co_queue_order c →
  ∃ i, (i < length (co_queue_order c))%nat ∧ queue_at c i = Some q.
Proof.
  intros Hidx [m Hm]%list_elem_of_lookup. pose proof (lookup_lt_Some _ _ _ Hm) as Hlt.
  set (n := length (co_queue_order c)) in *. set (x := co_next_queue_idx c) in *.
  exists ((m + (n - x)) mod n)%nat. split; [apply Nat.mod_upper_bound; lia|].
  unfold queue_at. fold n x. rewrite Nat.Div0.add_mod_idemp_r.
  replace (x + (m + (n - x)))%nat with (m + 1 * n)%nat by lia. by rewrite Nat.Div0.mod_add, Nat.mod_small.
Qed.

(** All ready lists are empty. *)
Definition nothing_ready (c : Coordinator) : Prop := ∀ q, q ∈ co_queue_order c → ready_of c q = [].

Lemma try_lease_job_exhausts s :
  inv s → co_shutting_down (coord s) = false →
  safe try_lease_job none (λ r s', lease_post s r s'
    ∧ (r = None → failed_since s s' ∨ nothing_ready (coord s'))) s.
Proof.
  intros I Hsd. eapply wp_mono; [apply wp_and; [exact (try_lease_job_safe P s I Hsd)|]|].
  2:{ intros r s' [(I' & F & Hpost) H]. split_and!; [exact I'|exact F|exact Hpost|exact H]. }
  eapply wp_mono; [apply wp_and; [exact (try_lease_job_safe P s I Hsd)|]|].
  2:{ intros r s' [(I' & F & _) H]. revert H. instantiate (1 := λ r s', r = None → failed_since s s' ∨
        co_queues (coord s') = co_queues (coord s) ∧ nothing_ready (coord s)). cbn beta.
      intros H Hr. destruct (H Hr) as [Hf|[Hqs Hn]]; [by left|right]. intros q Hq.
      rewrite (fr_order _ _ _ F) in Hq. unfold ready_of. rewrite Hqs. by apply Hn. }
  unfold try_lease_job. do 2 wp_step. destruct (Nat.eqb_spec (length (co_queue_order (coord s))) 0) as [H0|H0].
  - wp_step. intros _. right. split; [done|]. intros q Hq.
    apply nil_length_inv in H0. rewrite H0 in Hq. by apply elem_of_nil in Hq.
  - eapply wp_mono; [by apply lease_loop_exhausts|]. intros r s' H Hr. destruct (H Hr) as [Hf|[Hqs He]]; [by left|].
    right. split; [done|]. intros q Hq. destruct (i_idx _ _ I) as [Hnil|Hidx]; [by rewrite Hnil in H0|].
    destruct (queue_at_all _ _ Hidx Hq) as (i & Hi & Hqi). by apply (He i).
Qed.

(** Nobody waits although there is work, unless the log could not be written. *)
Definition no_idle (s s' : State) : Prop :=
  co_parked_workers (coord s') = [] ∨ failed_since s s' ∨ nothing_ready (coord s').

Lemma no_idle_later s s1 s2 : trace s `prefix_of` trace s1 → no_idle s1 s2 → no_idle s s2.
Proof. intros Hp [?|[?|?]]; [by left|right; left; by eapply failed_earlier|right; by right]. Qed.

Lemma dispatch_loop_no_idle fuel s :
  inv s → co_shutting_down (coord s) = false → (length (co_parked_workers (coord s)) ≤ fuel)%nat →
  safe (dispatch_loop fuel) none (λ _ s', no_idle s s') s.
Proof.
  revert s; induction fuel as [|fuel IH]; intros s I Hsh Hlen; cbn [dispatch_loop].
  { apply safe_ret; [done|]. left. apply nil_length_inv. lia. }
  eapply safe_bind0; [by apply get_safe|]. intros c s1 I1 _ [-> ->].
  case_bool_decide as Hpk0; [apply safe_ret; [done|by left]|].
  eapply safe_bind0; [by apply try_lease_job_exhausts|]. intros r s2 I2 F2 [[(Hpk & Hsh2 & _) _] Hnone].
  destruct r as [lj|]; [|apply safe_ret; [done|]; right; by apply Hnone].
  eapply safe_bind0; [by apply get_safe|]. intros c s3 I3 _ [-> ->]. rewrite Hpk.
  destruct (co_parked_workers (coord s)) as [|w parked] eqn:Hw; [done|].
  eapply (safe_bind0 P _ _ (λ _ s4, coord s4 = set_parked_workers parked (coord s2))).
  { eapply safe_bind0; [apply (set_parked_safe P (λ _, parked)); [done|congruence]|].
    intros [] s4 I4 _ H4. cbn beta in H4. eapply safe_bind0; [by apply send_safe|].
    intros b s5 I5 _ H5. apply safe_ret; [done|]. congruence. }
  intros [] s4 I4 F4 H4. eapply safe_mono; [apply IH; [done| |]|done|].
  - rewrite H4. st_simpl. congruence.
  - rewrite H4. st_simpl. cbn in Hlen. lia.
  - intros ? s5 ? ? Hni. eapply no_idle_later; [|exact Hni].
    etrans; [exact (fr_trace _ _ _ F2)|exact (fr_trace _ _ _ F4)].
Qed.

Lemma try_dispatch_no_idle s : inv s → safe try_dispatch_parked_workers none (λ _ s', no_idle s s') s.
Proof.
  intros I. unfold try_dispatch_parked_workers. eapply safe_bind0; [by apply get_safe|].
  intros c s1 I1 _ [-> ->]. destruct (co_shutting_down (coord s)) eqn:Hsh.
  - apply safe_ret; [done|]. left. pose proof (i_shutdown _ _ I) as Hp. by rewrite Hsh in Hp.
  - by apply dispatch_loop_no_idle.
Qed.
(** ** Turns *)

(** [turn] after the timers and the dispatch. *)
Definition turn_rest : act (option (option Z)) :=
  c ← get;
  if co_shutting_down c && bool_decide (co_leases c = ∅) then
    complete_shutdown;; close_semaphores;; mret None
  else
    expired ← match co_shutdown_deadline c with
              | Some deadline => now ← ask env_instant; mret (deadline <=? now)
              | None => mret false
              end;
    if (expired : bool) then force_shutdown;; close_semaphores;; mret None
    else mret (Some (next_deadline c)).

Lemma turn_prefix s :
  inv s → ∃ s3, inv s3 ∧ frame none s s3 ∧ drain_kept (coord s3) = drain_kept (coord s)
    ∧ no_idle s s3 ∧ turn s = turn_rest s3.
Proof.
  intros I. destruct (wp_total _ _ _ (process_due_retries_safe P s I)) as ([] & s1 & H1 & I1 & F1 & _).
  destruct (wp_total _ _ _ (check_lease_timeouts_safe P s1 I1)) as ([] & s2 & H2 & I2 & F2 & _).
  destruct (wp_total _ _ _ (try_dispatch_no_idle s2 I2)) as ([] & s3 & H3 & I3 & F3 & Hni).
  destruct (quiet_drain _ _ process_due_retries_quiet _ _ _ H1) as [_ D1].
  destruct (quiet_drain _ _ check_lease_timeouts_quiet _ _ _ H2) as [_ D2].
  destruct (try_dispatch_quiet _ _ _ H3) as [_ D3]. pose proof (frame_trans0 _ _ _ F1 F2) as F12.
  exists s3. split_and!; [done|by eapply frame_trans0|congruence| |].
  - eapply no_idle_later; [exact (fr_trace _ _ _ F12)|exact Hni].
  - unfold turn, mbind, action_bind. by rewrite H1, H2, H3.
Qed.

(** A turn after which the loop goes on has changed nothing since the dispatch. *)
Lemma turn_rest_continues s nd s' :
  turn_rest s = Some (Some nd, s') →
  coord s' = coord s ∧ trace s' = trace s ∧ nd = next_deadline (coord s)
  ∧ (co_shutting_down (coord s) = true → co_leases (coord s) ≠ ∅)
  ∧ ∀ d, co_shutdown_deadline (coord s) = Some d → env_instant (tick s) < d.
Proof.
  unfold turn_rest. intros (c & s1 & [= <- <-] & H)%bind_result.
  destruct (co_shutting_down (coord s) && bool_decide (co_leases (coord s) = ∅)) eqn:Hend.
  { apply bind_result in H as (? & ? & _ & H). by apply bind_result in H as (? & ? & _ & [=]). }
  assert (co_shutting_down (coord s) = true → co_leases (coord s) ≠ ∅) as Hl.
  { intros Hs Hl. by rewrite Hs, bool_decide_true in Hend. }
  apply bind_result in H as (expired & s1 & He & H). destruct expired.
  { apply bind_result in H as (? & ? & _ & H). by apply bind_result in H as (? & ? & _ & [=]). }
  injection H as <- <-. destruct (co_shutdown_deadline (coord s)) as [d|].
  - injection He as He <-. split_and!; try done. intros d' [= <-]. by apply Z.leb_gt.
  - injection He as <-. split_and!; done.
Qed.

Lemma nothing_ready_queued s :
  inv s → nothing_ready (coord s) →
  ∀ id job, co_store (coord s) !! id = Some job → job_state job ≠ Queued.
Proof.
  intros I Hn id job Hj Hs. pose proof (i_queues _ _ I) as Hq.
  destruct (queue_of_live _ _ Hq _ _ Hj ltac:(by rewrite Hs)) as [qs Hqs].
  specialize (Hn (as_str (job_queue job))). unfold ready_of in Hn. rewrite Hqs in Hn. cbn in Hn.
  apply (elem_of_nil id). rewrite <-Hn by (apply (i_order _ _ I); by eexists).
  apply (ready_exact _ _ _ (each_queue_ok _ _ Hq _ _ Hqs)). exists job. by rewrite in_queue_spec.
Qed.

(** A turn that goes on with a worker parked leaves nothing queued. *)
Lemma no_idle_after_turn s nd s' :
  inv s → turn s = Some (Some nd, s') → co_parked_workers (coord s') ≠ [] →
  failed_since s s' ∨ ∀ id job, co_store (coord s') !! id = Some job → job_state job ≠ Queued.
Proof.
  intros I Ht Hpk. destruct (turn_prefix s I) as (s3 & I3 & _ & _ & Hni & Heq). rewrite Heq in Ht.
  destruct (turn_rest_continues _ _ _ Ht) as (Hc & Htr & _). rewrite Hc in Hpk |- *.
  destruct Hni as [?|[(effs & op & e & He & Hin)|Hn]]; [done|left|right; by apply nothing_ready_queued].
  exists effs, op, e. by rewrite Htr.
Qed.

(** C13: no worker idles while there is work: every turn of the coordinator comes
    to its end, and when the loop then waits for the next event with a worker
    parked, no job of the store is queued, unless an append to the log failed in
    this very turn. *)
Theorem no_worker_idles s :
  inv s → ∃ r s', turn s = Some (r, s') ∧ (is_Some r → co_parked_workers (coord s') ≠ [] →
    failed_since s s' ∨ ∀ id job, co_store (coord s') !! id = Some job → job_state job ≠ Queued).
Proof.
  intros I. destruct (wp_total _ _ _ (turn_safe P s I)) as (r & s' & Ht & _). exists r, s'. split; [done|].
  intros [nd ->] Hpk. by eapply no_idle_after_turn.
Qed.

(** ** Shutdown *)

Lemma option_min_right a d : ∃ n, option_min a (Some d) = Some n ∧ n ≤ d.
Proof. destruct a as [a|]; cbn; eexists; (split; [done|lia]). Qed.

(** The requester of the shutdown is told that it is over. *)
Lemma complete_shutdown_replies s reply :
  co_shutdown_reply (coord s) = Some reply →
  ∃ s', complete_shutdown s = Some ((), s')
    ∧ coord s' = set_shutdown_reply None (coord s)
    ∧ trace s' = trace s ++ [Sent reply Reply_done (env_alive (tick s))].
Proof.
  intros Hr. unfold complete_shutdown, mbind, action_bind, get, modify, send, ask, emit. cbn. rewrite Hr. by eexists.
Qed.

(** Removing the leases leaves the requester in place. *)
Lemma drop_leases_quiet ids :
  quiet unsent drain_kept (for_each ids (λ job_id,
    removed ← remove_lease job_id;
    match removed with
    | Some lease => cancel_token (al_cancellation lease)
    | None => mret ()
    end)).
Proof. quiet_tac. Qed.

Lemma force_shutdown_replies s reply :
  inv s → co_shutdown_reply (coord s) = Some reply →
  ∃ s' effs alive, force_shutdown s = Some ((), s') ∧ co_shutdown_reply (coord s') = None
    ∧ trace s' = trace s ++ effs ++ [Sent reply Reply_done alive].
Proof.
  intros I Hr. unfold force_shutdown.
  assert (∀ id, is_Some (co_leases (coord s) !! id) → id ∈ (hash_iter (co_leases (coord s))).*1) as Hall.
  { intros id [l Hl]. apply list_elem_of_fmap. exists (id, l). by rewrite elem_of_hash_iter. }
  destruct (wp_total _ _ _ (drop_leases_safe P _ s I Hall)) as ([] & s1 & H1 & _ & _ & _).
  destruct (drop_leases_quiet _ _ _ _ H1) as [(effs & Ht & _) Hk]. unfold drain_kept in Hk.
  destruct (complete_shutdown_replies s1 reply) as (s' & Hc & Hco & Htr); [congruence|].
  exists s', effs, (env_alive (tick s1)). unfold mbind, action_bind, get. cbn beta iota.
  unfold mbind, action_bind in H1. rewrite H1. split_and!; [done|by rewrite Hco|]. by rewrite Htr, Ht, <-app_assoc.
Qed.

(** The last turn of a shutdown. *)
Definition shut_down (s : State) (reply : Sender) (s' : State) : Prop :=
  co_leases (coord s') = ∅ ∧ co_shutdown_reply (coord s') = None
  ∧ map_Forall (λ _ sem, sem_is_closed sem = true) (co_semaphores (coord s'))
  ∧ ∃ effs alive, trace s' = trace s ++ effs ++ [Sent reply Reply_done alive].

Lemma turn_rest_ends s reply :
  inv s → co_shutting_down (coord s) = true → co_shutdown_reply (coord s) = Some reply →
  co_leases (coord s) = ∅ ∨ (∃ d, co_shutdown_deadline (coord s) = Some d ∧ d ≤ env_instant (tick s)) →
  ∃ s' effs alive, turn_rest s = Some (None, s') ∧ co_shutdown_reply (coord s') = None
    ∧ trace s' = trace s ++ effs ++ [Sent reply Reply_done alive].
Proof.
  intros I Hsh Hr Hend. unfold turn_rest, mbind, action_bind, get. rewrite Hsh.
  destruct (bool_decide (co_leases (coord s) = ∅)) eqn:Hl; cbn [andb].
  - destruct (complete_shutdown_replies s reply Hr) as (s' & Hc & Hco & Ht). rewrite Hc. cbn.
    eexists _, [], _. split; [done|]. st_simpl. by rewrite Hco, Ht.
  - destruct Hend as [Hl'|(d & Hd & Hle)]; [by rewrite bool_decide_true in Hl|]. rewrite Hd. cbn -[force_shutdown].
    rewrite (proj2 (Z.leb_le _ _) Hle).
    destruct (ask_safe P env_instant s I) as (I1 & _ & _).
    destruct (force_shutdown_replies (mkState (coord s) (S (tick s)) (trace s)) reply) as (s' & effs & alive & Hf & Hn & Ht);
      [exact I1|done|]. rewrite Hf. cbn. by eexists _, effs, alive.
Qed.

(** C14: a shutdown ends.  While the coordinator waits for leases with a deadline
    [d], every turn sets the timer to [d] at the latest and nothing that the turn
    or a command does postpones [d] or forgets who asked; and as soon as no lease
    is left or the clock has reached [d], the next turn is the last: all leases
    are gone, the semaphores are closed and the requester is told. *)
Theorem shutdown_completes s d reply :
  inv s → co_shutting_down (coord s) = true →
  co_shutdown_deadline (coord s) = Some d → co_shutdown_reply (coord s) = Some reply →
  (∀ nd s', turn s = Some (Some nd, s') →
     (∃ n, nd = Some n ∧ n ≤ d) ∧ drain_kept (coord s') = drain_kept (coord s))
  ∧ (∀ cmd s', handle cmd s = Some ((), s') → drain_kept (coord s') = drain_kept (coord s))
  ∧ (co_leases (coord s) = ∅ ∨ (∀ t, (tick s ≤ t)%nat → d ≤ env_instant t) →
     ∃ s', turn s = Some (None, s') ∧ shut_down s reply s').
Proof.
  intros I Hsh Hd Hr. destruct (turn_prefix s I) as (s3 & I3 & F3 & Hk & _ & Heq).
  assert (co_shutting_down (coord s3) = true ∧ co_shutdown_deadline (coord s3) = Some d
    ∧ co_shutdown_reply (coord s3) = Some reply) as (Hsh3 & Hd3 & Hr3)
    by (unfold drain_kept in Hk; split_and!; congruence).
  split_and!.
  - intros nd s' Ht. rewrite Heq in Ht. destruct (turn_rest_continues _ _ _ Ht) as (Hc & _ & -> & _).
    rewrite Hc. split; [|done]. unfold next_deadline. rewrite Hd3. apply option_min_right.
  - intros cmd s' Hh. by apply (handle_drain_kept cmd s).
  - intros Hend. destruct (turn_rest_ends s3 reply I3 Hsh3 Hr3) as (s' & effs & alive & Ht & Hn & Htr).
    { destruct Hend as [Hl|Hclock]; [left|right].
      - apply map_empty. intros id. destruct (co_leases (coord s3) !! id) as [l|] eqn:Hi; [|done].
        apply (fr_drain _ _ _ F3 Hsh) in Hi. by rewrite Hl, lookup_empty in Hi.
      - exists d. split; [done|]. apply Hclock, F3. }
    exists s'. rewrite Heq. split; [done|]. rewrite <-Heq in Ht.
    destruct (wp_result _ _ _ _ _ (turn_safe P s I) Ht) as (_ & _ & _ & Hl & Hsem).
    destruct (fr_trace _ _ _ F3) as [pre Hpre]. split_and!; [done..|].
    exists (pre ++ effs), alive. by rewrite Htr, Hpre, <-!app_assoc.
Qed.
End live.

(** ** Witnesses *)

Section witnesses.
#[local] Existing Instance canonical_iter.
#[local] Existing Instance sorted_heap.
#[local] Existing Instance counting_semaphores.
#[local] Existing Instance steady_env.

Lemma no_worker_idles_witness : ∃ r s', turn ex_mid = Some (r, s').
Proof.
  destruct (no_worker_idles (λ _ _ _, True) ex_mid ex_mid_inv) as (r & s' & Ht & _).
  exact (ex_intro _ r (ex_intro _ s' Ht)).
Defined.

(** Two workers ask for work, one job comes: one worker is left. *)
Example ex_one_left :
  match run [Wake_command (Cmd_FetchWork 1%N); Wake_command (Cmd_FetchWork 2%N);
             Wake_command (Cmd_Submit ex_queue_q ex_spec "q" 3%N)] ex_start with
  | Some (_, s) => co_parked_workers (coord s) = [2%N]
  | None => False
  end.
Proof. vm_compute. reflexivity. Qed.

(** The running job completes during the shutdown. *)
Definition ex_last : State :=
  match handle (Cmd_WorkerOutcome (from_uuid 2) (LeaseId_new 1) Outcome_Success) ex_draining with
  | Some (_, s) => s
  | None => ex_draining
  end.

Lemma ex_last_inv : inv (λ _ _ _, True) ex_last.
Proof.
  refine (proj1 (wp_result _ _ _ () _ (handle_safe (λ _ _ _, True) ex_draining
    (Cmd_WorkerOutcome (from_uuid 2) (LeaseId_new 1) Outcome_Success) ex_draining_inv Logic.I) _)).
  vm_compute. reflexivity.
Qed.

Definition ex_last_deadline : Z := default 0 (co_shutdown_deadline (coord ex_last)).

Lemma shutdown_completes_witness : ∃ s', turn ex_last = Some (None, s') ∧ shut_down ex_last 4%N s'.
Proof.
  refine (proj2 (proj2 (shutdown_completes (λ _ _ _, True) ex_last ex_last_deadline 4%N ex_last_inv _ _ _)) (or_introl _)).
  - vm_compute. reflexivity.
  - vm_compute. reflexivity.
  - vm_compute. reflexivity.
  - vm_compute. reflexivity.
Defined.
End witnesses.
