(* ===== verification/Refinement.v ===== *)
(** * The coordinator implements the life of a job

    Every action of the coordinator is a sequence of moves of [JobMachine]: what
    its tables, loops and error paths do to jobs, leases, counters and workers is
    what the abstract machine allows.  The theorems about attempts, leases and
    counters are those of the machine. *)

From S2P Require Import Prelude Types Config Store Codec ConcreteWire Scanner Writer Recovery.
From S2P Require Import RetryHeap Environment Coordinator QueueInv CoordinatorInv CoordinatorSafe.
From S2P Require Import CoordinatorLoop CoordinatorInit CoordinatorProps JobMachine.

Section refinement.
Context `{W : Wire} `{HI : HashIter} `{RH : RetryHeap} `{!RetryHeapLaws RH}.
Context `{SM : Semaphores} `{!SemaphoresLaws SM} `{EN : Env} `{!EnvLaws EN}.
Context (P : nat → Storage → MemoryStore → Prop) `{!LogInv P}.

Abbreviation inv := (inv P).
Abbreviation safe := (safe P).
Abbreviation none := (λ _ : string, 0).

Definition view (s : State) : View :=
  mkView (co_store (coord s)) (co_leases (coord s)) (co_next_lease_epoch (coord s))
    (co_global_stats (coord s)) (tick s) (trace s).

(** From [s] the action does not panic, keeps the invariant, makes only moves of
    the machine, and ends with [Q]. *)
Definition follows {A} (R : JobId → LeaseId → Prop) (F : Prop) (m : act A) (Q : A → State → Prop) (s : State) : Prop :=
  wp m (λ a s', inv s' ∧ path R F (view s) (view s') ∧ Q a s') s.

Lemma follows_safe {A} R F (m : act A) k Q s :
  safe m k Q s → wp m (λ _ s', path R F (view s) (view s')) s → follows R F m Q s.
Proof.
  intros Hs Hp. eapply wp_mono; [by apply wp_and; [exact Hs|exact Hp]|].
  intros a s' [(I & _ & HQ) Hv]. done.
Qed.

Lemma follows_ret {A} R F (a : A) (Q : A → State → Prop) s : inv s → Q a s → follows R F (mret a) Q s.
Proof. intros I HQ. apply wp_ret. split_and!; [done|constructor|done]. Qed.

Lemma follows_bind {A B} R F (m : act A) (f : A → act B) P' Q s :
  follows R F m P' s → (∀ a s', inv s' → P' a s' → follows R F (f a) Q s') → follows R F (m ≫= f) Q s.
Proof.
  intros Hm Hf. apply wp_bind. eapply wp_mono; [exact Hm|]. intros a s' (I & Hp & HP).
  eapply wp_mono; [by apply Hf|]. intros b s'' (I' & Hp' & HQ). split_and!; [done|by etrans|done].
Qed.

Lemma follows_mono {A} R F (m : act A) (Q Q' : A → State → Prop) s :
  follows R F m Q s → (∀ a s', inv s' → Q a s' → Q' a s') → follows R F m Q' s.
Proof. intros Hm HQ. eapply wp_mono; [exact Hm|]. intros a s' (I & Hp & H). split_and!; auto. Qed.

(** ** Single moves *)

Lemma path_step R F v v1 v' : move R F v v1 → path R F v1 v' → path R F v v'.
Proof. apply rtc_l. Qed.

Lemma path_time R F st ls ep gs t t' tr v' :
  (t ≤ t')%nat → path R F (mkView st ls ep gs t' tr) v' → path R F (mkView st ls ep gs t tr) v'.
Proof. intros Ht. apply path_step. by apply mv_time. Qed.

Lemma path_effect R F st ls ep gs t tr e v' :
  grant_of e = None → path R F (mkView st ls ep gs t (tr ++ [e])) v' → path R F (mkView st ls ep gs t tr) v'.
Proof. intros He. apply path_step. by apply mv_effect. Qed.

Lemma path_waited R F st ls ep gs t t' tr : (t ≤ t')%nat → path R F (mkView st ls ep gs t tr) (mkView st ls ep gs t' tr).
Proof. intros Ht. eapply path_time; [exact Ht|]. constructor. Qed.

Lemma get_follows R F s : inv s → follows R F get (λ c s', s' = s ∧ c = coord s) s.
Proof. intros I. eapply follows_safe; [by apply get_safe|]. apply wp_get. constructor. Qed.

Lemma ask_follows {A} R F (o : nat → A) s : inv s → follows R F (ask o) (λ a s', a = o (tick s) ∧ coord s' = coord s) s.
Proof. intros I. eapply follows_safe; [by apply ask_safe|]. wp_step. apply path_waited. cbn. lia. Qed.

Lemma send_follows R F to r s :
  inv s → grant_of (Sent to r true) = None → follows R F (send to r) (λ _ s', coord s' = coord s) s.
Proof.
  intros I Hr. eapply follows_safe; [by apply send_safe|]. unfold send. wp_run.
  unfold view. st_simpl. eapply (path_effect R F _ _ _ _ _ _ (Sent to r (env_alive (tick s)))); [exact Hr|].
  apply path_waited. lia.
Qed.

Lemma reply_follows R F to r s :
  inv s → grant_of (Sent to r true) = None → follows R F (send to r;; mret ()) (λ _ _, True) s.
Proof. intros I Hr. eapply follows_bind; [by apply send_follows|]. intros ????. by apply follows_ret. Qed.

Lemma for_each_follows {A} R F (xs : list A) (body : A → act unit) s :
  inv s → (∀ x s', inv s' → follows R F (body x) (λ _ _, True) s') →
  follows R F (for_each xs body) (λ _ _, True) s.
Proof.
  intros I Hb. revert s I; induction xs as [|x xs IH]; intros s I; cbn [for_each].
  - by apply follows_ret.
  - eapply follows_bind; [by apply Hb|]. intros _ s' I' _. by apply IH.
Qed.

(** ** Ending and retrying *)

(** What follows the end of a lease: the job moves on, or the log cannot be
    written. *)
Definition concluded (id : JobId) (job : JobRecord) (v v' : View) : Prop :=
  (∃ new t', is_valid_transition Running new = true ∧ (new = RetryWaiting → job_attempts job < max_attempts (job_spec job))
     ∧ (v_tick v ≤ t')%nat
     ∧ v' = mkView (<[id := set_state new job]> (v_store v)) (v_leases v) (v_epoch v) (incr_ended new (v_stats v)) t' (v_trace v))
  ∨ ∃ op e t', (v_tick v ≤ t')%nat
     ∧ v' = mkView (v_store v) (v_leases v) (v_epoch v) (v_stats v) t' (v_trace v ++ [PersistFailed op e]).

Ltac end_tac Hj Hs new :=
  wp_step; wp_step; wp_step; apply wp_persist; intros [n|e] sto Hp; st_simpl; cbn beta iota;
  [ wp_step; eapply wp_apply_ok; [st_simpl; by eapply apply_running|]; cbn beta iota; wp_run;
    left; eexists new, _; split_and!; [done|done| |reflexivity]; cbn; lia
  | wp_run; right; eexists _, e, _; split; [|reflexivity]; cbn; lia ].

Lemma complete_job_concludes s id lid job :
  inv s → co_store (coord s) !! id = Some job → job_state job = Running →
  wp (complete_job id lid (job_queue job)) (λ _ s', concluded id job (view s) (view s')) s.
Proof. intros I Hj Hs. unfold complete_job. end_tac Hj Hs Completed. Qed.

Lemma dead_job_concludes s id lid job :
  inv s → co_store (coord s) !! id = Some job → job_state job = Running →
  wp (dead_job id lid (job_queue job)) (λ _ s', concluded id job (view s) (view s')) s.
Proof. intros I Hj Hs. unfold dead_job. end_tac Hj Hs Dead. Qed.

Lemma schedule_retry_concludes s id lid job :
  inv s → co_store (coord s) !! id = Some job → job_state job = Running →
  job_attempts job < max_attempts (job_spec job) →
  wp (schedule_retry id lid (job_queue job) (job_attempts job)) (λ _ s', concluded id job (view s) (view s')) s.
Proof.
  intros I Hj Hs Hlim. unfold schedule_retry. do 7 wp_step.
  apply wp_persist. intros [n|e] sto Hp; st_simpl; cbn beta iota.
  - wp_step. eapply wp_apply_ok; [st_simpl; by apply (apply_running _ id job)|].
    cbn beta iota. do 5 wp_step. eapply wp_unwrap; [by eapply retry_delay_fits|]. wp_run.
    left. eexists RetryWaiting, _. split_and!; [done|done| |reflexivity]. cbn. lia.
  - wp_run. right. eexists _, e, _. split; [|reflexivity]. cbn. lia.
Qed.

Lemma retry_or_dead_concludes s id lid job :
  inv s → co_store (coord s) !! id = Some job → job_state job = Running →
  wp (if max_attempts (job_spec job) <=? job_attempts job
      then dead_job id lid (job_queue job)
      else schedule_retry id lid (job_queue job) (job_attempts job)) (λ _ s', concluded id job (view s) (view s')) s.
Proof.
  intros I Hj Hs. destruct (Z.leb_spec (max_attempts (job_spec job)) (job_attempts job)).
  - by apply dead_job_concludes.
  - by apply schedule_retry_concludes.
Qed.

(** The end of a lease with what follows it. *)
Lemma path_conclude R F st ls ep gs t tr tr' id job lease v' :
  ls !! id = Some lease → st !! id = Some job → job_state job = Running → ended_by R id lease tr tr' →
  concluded id job (mkView st (delete id ls) ep gs t tr') v' → path R F (mkView st ls ep gs t tr) v'.
Proof.
  intros Hl Hj Hs He [(new & t' & Hv & Hlim & Ht & ->)|(op & e & t' & Ht & ->)]; cbn in *.
  - eapply path_step; [by eapply (mv_conclude R F st ls ep gs t tr tr')|]. by apply path_waited.
  - eapply path_step; [by eapply (mv_strand R F st ls ep gs t tr tr')|]. by apply path_waited.
Qed.

Lemma stale_path R F s : wp (update_global incr_stale_outcomes) (λ _ s', path R F (view s) (view s')) s.
Proof. wp_step. eapply path_step; [apply mv_stale|]. constructor. Qed.

Lemma do_worker_outcome_follows (R : JobId → LeaseId → Prop) F s id lid o :
  inv s → R id lid → follows R F (do_worker_outcome id lid o) (λ _ _, True) s.
Proof.
  intros I HR. eapply follows_safe; [by apply do_worker_outcome_safe|]. unfold do_worker_outcome. do 2 wp_step.
  destruct (co_leases (coord s) !! id) as [lease|] eqn:Hl; [|apply stale_path].
  case_bool_decide as Hlid; [|apply stale_path]. cbn [negb].
  destruct (i_leases _ _ I _ _ Hl) as (job & Hj & Hs).
  wp_step. unfold remove_lease. wp_run. unfold store_get. rewrite Hj.
  destruct (unleased_ok P s id (trace s) I ltac:(done)) as [I' _].
  change (mkState _ _ _) with (unleased id s).
  assert (∀ v', concluded id job (view (unleased id s)) v' → path R F (view s) v') as Hend.
  { intros v'. apply (path_conclude R F _ _ _ _ _ _ _ id job lease); [done..|]. left. by rewrite Hlid. }
  destruct o; (eapply wp_mono; [|intros ? s'; apply Hend]);
    [by apply complete_job_concludes|by apply retry_or_dead_concludes|by apply dead_job_concludes
    |by apply retry_or_dead_concludes].
Qed.

Lemma time_out_lease_follows R F s id lid : inv s → follows R F (time_out_lease id lid) (λ _ _, True) s.
Proof.
  intros I. eapply follows_safe; [by apply time_out_lease_safe|]. unfold time_out_lease. wp_step. unfold remove_lease. wp_run.
  destruct (co_leases (coord s) !! id) as [lease|] eqn:Hl.
  - destruct (i_leases _ _ I _ _ Hl) as (job & Hj & Hs). do 4 wp_step. unfold store_get. rewrite Hj.
    destruct (unleased_ok P s id (trace s ++ [TokenCancelled (al_cancellation lease)]) I) as [I' _];
      [by apply prefix_app_r|].
    eapply wp_mono; [by apply retry_or_dead_concludes|]. intros ? s' Hc.
    eapply (path_conclude R F _ _ _ _ _ _ _ id job lease); [done..|right; reflexivity|exact Hc].
  - wp_run. unfold view. st_simpl. rewrite delete_id by done. constructor.
Qed.

Lemma check_lease_timeouts_follows R F s : inv s → follows R F check_lease_timeouts (λ _ _, True) s.
Proof.
  intros I. unfold check_lease_timeouts.
  eapply follows_bind; [by apply ask_follows|]. intros now s1 I1 _.
  eapply follows_bind; [by apply get_follows|]. intros c s2 I2 _.
  apply for_each_follows; [done|]. intros e s3 I3. by apply time_out_lease_follows.
Qed.

(** ** Due retries *)

Lemma due_loop_follows R F fuel now s : inv s → wp (due_loop fuel now) (λ _ s', path R F (view s) (view s')) s.
Proof.
  revert s; induction fuel as [|fuel IH]; intros s I; cbn [due_loop]; [constructor|].
  do 2 wp_step. destruct (heap_peek (co_retry_queue (coord s))) as [e|] eqn:Hpeek; [|constructor].
  destruct (Z.ltb_spec now (available_at e)); [constructor|].
  destruct (heap_pop_peek _ _ Hpeek) as [h Hpop]. wp_step. eapply wp_unwrap; [exact Hpop|]. cbn beta iota. do 3 wp_step.
  assert (∀ s1, inv s1 → path R F (view s) (view s1) →
    wp (due_loop fuel now) (λ _ s', path R F (view s) (view s')) s1) as Hgo.
  { intros s1 I1 H1. eapply wp_mono; [by apply IH|]. intros ? s' H'. by etrans. }
  unfold store_get. destruct (co_store (coord s) !! entry_job_id e) as [job|] eqn:Hj.
  2:{ wp_step. apply Hgo; [|constructor]. eapply popped_ok; [done|done|congruence]. }
  case_bool_decide as Hs; cbn [negb].
  - rewrite (transition_to_queued_ok _ _ _ Hj Hs). wp_run.
    apply Hgo; [by apply (requeued_ok P s _ job e h)|]. eapply path_step; [|constructor]. by apply mv_requeue.
  - wp_step. apply Hgo; [|constructor]. eapply popped_ok; [done|done|congruence].
Qed.

Lemma process_due_retries_follows R F s : inv s → follows R F process_due_retries (λ _ _, True) s.
Proof.
  intros I. eapply follows_mono; [eapply follows_safe; [by apply process_due_retries_safe|]|done].
  unfold process_due_retries. do 4 wp_step. eapply wp_mono; [eapply due_loop_follows|].
  - apply (inv_core P s); [done|lia|done|]. eapply log_later; [apply I|cbn; lia].
  - intros ? s' H. unfold view in *. st_simpl. eapply path_time; [|exact H]. lia.
Qed.

(** ** Leasing *)

(** The job [lj] was leased, and remains to be sent to a worker. *)
Definition to_be_sent (R : JobId → LeaseId → Prop) (F : Prop) (s : State) (lj : LeasedJob) (s' : State) : Prop :=
  ∃ v, path R F (view s) v ∧ ∀ to alive t', (tick s' ≤ t')%nat →
    move R F v (mkView (v_store (view s')) (v_leases (view s')) (v_epoch (view s')) (v_stats (view s')) t'
      (trace s' ++ [Sent to (Reply_work (Some lj)) alive])).

Lemma lease_job_attempted job : job_ok job → job_state job = Queued → lease_job job = attempted job.
Proof.
  intros Hok Hs. unfold lease_job, attempted. f_equal. exact (lease_job_attempts job Hok Hs).
Qed.

Lemma lease_loop_follows R F k n s :
  inv s → n = length (co_queue_order (coord s)) → n ≠ 0%nat →
  wp (lease_loop k n) (λ r s', match r with
    | Some lj => to_be_sent R F s lj s'
    | None => path R F (view s) (view s')
    end) s.
Proof.
  revert s; induction k as [|k IH]; intros s I Hn Hn0; cbn [lease_loop]; [constructor|].
  do 3 wp_step.
  destruct (lookup_lt_is_Some_2 (co_queue_order (coord s)) (co_next_queue_idx (coord s))) as [q Hq].
  { destruct (i_idx _ _ I) as [Hnil|]; [|done]. by rewrite Hnil in Hn. }
  eapply wp_unwrap; [exact Hq|]. do 2 wp_step. destruct (advanced_ok P s n I Hn Hn0) as [I1 _].
  destruct (co_queues (coord s) !! q) as [qs|] eqn:Hqs; [|exact (IH (advanced n s) I1 Hn Hn0)].
  destruct (head (qs_ready qs)) as [id|] eqn:Hh; [|exact (IH (advanced n s) I1 Hn Hn0)].
  destruct (front_is_queued (co_store (coord s)) q qs id) as (job & Hj & <- & Hs); [|done|].
  { by apply (each_queue_ok _ _ (i_queues _ _ I)). }
  unfold store_get. rewrite Hj. rewrite bool_decide_true by done. cbn [negb].
  do 3 wp_step. apply wp_persist. intros [m|e] sto Hp; st_simpl; cbn beta iota.
  2:{ do 2 wp_step. destruct (refused_ok P (advanced n s) _ _ _ _ (S (S (tick s)))
        (trace s ++ [PersistFailed "lease" e]) I1 Hp) as [I2 _]; [cbn; lia|by apply prefix_app_r|].
      eapply wp_mono; [by apply IH|]. intros r s' Hpost. unfold view in *. st_simpl.
      assert (∀ v, path R F (view (mkState (set_storage sto (coord (advanced n s))) (S (S (tick s)))
        (trace s ++ [PersistFailed "lease" e]))) v → path R F (view s) v) as Hpre.
      { intros v Hv. unfold view. st_simpl. eapply path_effect; [|eapply path_time; [|exact Hv]]; [done|cbn; lia]. }
      destruct r as [lj|]; [|by apply Hpre]. destruct Hpost as (v & Hv & Hsend). exists v. split; [by apply Hpre|done]. }
  do 3 wp_step. eapply wp_apply_ok; [st_simpl; by apply apply_leased|]. cbn beta iota.
  do 7 wp_step. eapply wp_unwrap; [by eapply visibility_fits|]. do 6 wp_step.
  unfold store_get. rewrite lookup_insert_eq. wp_step.
  pose proof (i_jobs _ _ I) as [Hwf Hjobs]. pose proof (Hjobs _ _ Hj) as Hok.
  rewrite (lease_job_attempted job Hok Hs). exists (view s). split; [constructor|].
  intros to alive t' Ht. unfold view. st_simpl.
  eapply (mv_grant R F _ _ _ _ _ _ _ id job); [done|exact (Hwf _ _ Hj)|done| | |done|lia].
  - by eapply not_running_no_lease; [..|rewrite Hs].
  - destruct Hok as (_ & _ & Hlim). by rewrite Hs in Hlim.
Qed.

Lemma try_lease_job_follows R F s :
  inv s → wp try_lease_job (λ r s', match r with
    | Some lj => to_be_sent R F s lj s'
    | None => path R F (view s) (view s')
    end) s.
Proof.
  intros I. unfold try_lease_job. do 2 wp_step.
  destruct (Nat.eqb_spec (length (co_queue_order (coord s))) 0); [constructor|]. by apply lease_loop_follows.
Qed.

(** The message that completes a lease. *)
Lemma grant_follows R F s lj s' c' to alive :
  to_be_sent R F s lj s' → view (mkState c' (tick s') (trace s')) = view s' →
  path R F (view s) (view (mkState c' (S (tick s')) (trace s' ++ [Sent to (Reply_work (Some lj)) alive]))).
Proof.
  intros (v & Hv & Hsend) Heq. etrans; [exact Hv|]. eapply path_step; [|constructor].
  specialize (Hsend to alive (S (tick s')) ltac:(lia)). unfold view in *. st_simpl. by injection Heq as -> -> -> ->.
Qed.

Lemma dispatch_loop_follows R F fuel s :
  inv s → co_shutting_down (coord s) = false →
  wp (dispatch_loop fuel) (λ _ s', path R F (view s) (view s')) s.
Proof.
  revert s; induction fuel as [|fuel IH]; intros s I Hsh; cbn [dispatch_loop]; [constructor|].
  do 2 wp_step. case_bool_decide; [constructor|]. wp_step.
  eapply wp_mono; [apply wp_and; [exact (try_lease_job_safe P s I Hsh)|exact (try_lease_job_follows R F s I)]|].
  intros r s1 [(I1 & _ & ((Hpk & Hsh1 & _) & _)) Hr]. destruct r as [lj|]; [|done].
  do 2 wp_step. destruct (co_parked_workers (coord s1)) as [|w parked] eqn:Hw; [congruence|].
  do 3 wp_step. unfold send. do 7 wp_step.
  rewrite Hsh in Hsh1. pose proof (i_shutdown _ _ I1) as Hd. rewrite Hsh1 in Hd.
  assert (with_shutdown parked false None (co_shutdown_reply (coord s1)) (coord s1) =
          set_parked_workers parked (coord s1)) as Heq.
  { unfold with_shutdown. clear -Hsh1 Hd. destruct (coord s1). cbn in *. by subst. }
  match goal with |- wp _ _ ?s2 => set (s2' := s2) end.
  assert (inv s2') as I2.
  { destruct (with_shutdown_ok P s1 parked false None (co_shutdown_reply (coord s1)) (tick s2') (trace s2') I1)
      as [I2 _]; [subst s2'; cbn; lia|by apply prefix_app_r|congruence|done|].
    rewrite Heq in I2. exact I2. }
  eapply wp_mono; [apply IH; [exact I2|subst s2'; st_simpl; congruence]|].
  intros ? s' H'. etrans; [|exact H']. by apply (grant_follows R F s lj s1 _ w).
Qed.

Lemma try_dispatch_follows R F s : inv s → follows R F try_dispatch_parked_workers (λ _ _, True) s.
Proof.
  intros I. eapply follows_mono; [eapply follows_safe; [by apply try_dispatch_safe|]|done].
  unfold try_dispatch_parked_workers. do 2 wp_step. destruct (co_shutting_down (coord s)) eqn:Hsh; [constructor|].
  by apply dispatch_loop_follows.
Qed.

Lemma do_fetch_work_follows R F s reply : inv s → follows R F (do_fetch_work reply) (λ _ _, True) s.
Proof.
  intros I. eapply follows_safe; [by apply do_fetch_work_safe|]. unfold do_fetch_work. do 2 wp_step.
  destruct (co_shutting_down (coord s)) eqn:Hsh.
  { unfold send. wp_run. unfold view. st_simpl.
    eapply path_effect; [|apply path_waited; lia]. done. }
  wp_step. eapply wp_mono; [exact (try_lease_job_follows R F s I)|]. intros [lj|] s1 Hr; unfold send; wp_run.
  - by apply (grant_follows R F s lj s1).
  - exact Hr.
Qed.

(** ** Requests *)

Lemma do_submit_follows R F s queue spec :
  inv s → is_Some (co_semaphores (coord s) !! as_str queue) → u32_range (max_attempts spec) →
  follows R F (do_submit queue spec (as_str queue)) (λ _ _, True) s.
Proof.
  intros I Hsem Hmax. eapply follows_mono; [eapply follows_safe; [by apply do_submit_safe|]|done].
  pose proof (proj1 (i_sems _ _ I _) Hsem) as [qs Hqs]. unfold do_submit. do 2 wp_step. rewrite Hqs.
  destruct (Z.ltb_spec MAX_PAYLOAD_SIZE (zlen (payload spec))); [wp_run; constructor|].
  do 5 wp_step. apply wp_persist. intros [n|e] sto Hp; st_simpl; cbn beta iota.
  2:{ wp_run. unfold view. st_simpl. apply path_waited. lia. }
  wp_step. eapply wp_apply_ok; [done|]. cbn beta iota. do 3 wp_step. cbn [record_job_id].
  assert (co_store (coord s) !! env_uuid (tick s) = None) as Hnew by (apply (i_fresh _ _ I); done).
  eapply wp_unwrap; [apply lookup_insert_eq|]. cbn beta. wp_step. unfold hold_permit. do 4 wp_step.
  rewrite (no_permit P _ _ I Hnew). wp_run.
  destruct (submitted_ok P s queue spec (env_wall (S (tick s))) sto (S (S (S (tick s)))) (trace s) I)
    as [I1 _]; try done; [|lia|].
  { eapply log_accepted; [apply I| |exact Hp|done|done|done]. lia. }
  eapply wp_mono; [exact (try_dispatch_follows R F _ I1)|]. intros [] s' (_ & Hv & _). wp_step.
  eapply path_step; [by apply (mv_submit R F _ _ _ _ _ _ (env_uuid (tick s))
    (JobRecord_new (env_uuid (tick s)) queue spec (env_wall (S (tick s)))))|].
  eapply path_time; [|exact Hv]. cbn. lia.
Qed.

Lemma do_cancel_follows R F s id : inv s → follows R F (do_cancel id) (λ _ _, True) s.
Proof.
  intros I. eapply follows_mono; [eapply follows_safe; [by apply do_cancel_safe|]|done].
  unfold do_cancel. do 2 wp_step. apply wp_try, wp_ret. unfold store_get.
  destruct (co_store (coord s) !! id) as [job|] eqn:Hj; cbn [ok_or]; [|constructor].
  destruct (is_terminal (job_state job)) eqn:Hlive; [constructor|].
  do 3 wp_step. apply wp_persist. intros [n|e] sto Hp; st_simpl; cbn beta iota.
  2:{ wp_step. unfold view. st_simpl. apply path_waited. lia. }
  apply wp_try. eapply wp_apply_ok; [st_simpl; by apply apply_cancelled|]. cbn beta iota.
  do 3 wp_step. eapply wp_unwrap; [apply lookup_insert_eq|]. cbn beta.
  destruct (queue_of_live _ _ (i_queues _ _ I) _ _ Hj Hlive) as [qs Hqs]. rewrite Hqs.
  assert (∀ t', (tick s ≤ t')%nat → co_leases (coord s) !! id = None →
    path R F (view s) (mkView (<[id := set_state Cancelled job]> (co_store (coord s))) (co_leases (coord s))
      (co_next_lease_epoch (coord s)) (incr_cancelled (co_global_stats (coord s))) t' (trace s))) as Hend.
  { intros t' Ht Hl. eapply path_step; [by apply (mv_cancel R F _ _ _ _ _ _ id job)|]. by apply path_waited. }
  assert (job_state job ≠ Running → co_leases (coord s) !! id = None) as Hnl by by eapply not_running_no_lease.
  destruct (job_state job) eqn:Hs; try done.
  - wp_run. unfold released. st_simpl. apply Hend; [cbn; lia|by apply Hnl].
  - wp_run. unfold remove_lease. wp_run. destruct (co_leases (coord s) !! id) as [l|] eqn:Hl; wp_run;
      unfold view, released; st_simpl.
    + eapply path_step; [by eapply (mv_conclude R F _ _ _ _ _ _ _ id job l Cancelled); [..|right; reflexivity| |]|].
      apply path_waited. lia.
    + rewrite delete_id by done. apply Hend; [cbn; lia|done].
  - wp_run. unfold released. st_simpl. apply Hend; [cbn; lia|by apply Hnl].
Qed.

(** ** Shutdown *)

Lemma complete_shutdown_follows R F s : inv s → follows R F complete_shutdown (λ _ _, True) s.
Proof.
  intros I. eapply follows_mono; [eapply follows_safe; [by apply complete_shutdown_safe|]|done].
  unfold complete_shutdown. do 2 wp_step. destruct (co_shutdown_reply (coord s)); [|constructor].
  unfold send. wp_run. unfold view. st_simpl. eapply path_effect; [|apply path_waited; lia]. done.
Qed.

Lemma drop_lease_follows R (F : Prop) s id :
  inv s → F → follows R F (removed ← remove_lease id;
    match removed with
    | Some lease => cancel_token (al_cancellation lease)
    | None => mret ()
    end) (λ _ _, True) s.
Proof.
  intros I HF. apply (follows_safe R F _ none (λ _ _, True)).
  { eapply safe_bind0; [by apply remove_lease_safe|]. intros r s1 I1 _ _. destruct r as [l|]; [|by apply safe_ret].
    eapply safe_mono; [by apply emit_safe|done|done]. }
  wp_step. unfold remove_lease. wp_run. destruct (co_leases (coord s) !! id) as [l|] eqn:Hl; wp_run.
  - unfold view. st_simpl. eapply path_step; [by eapply mv_force|]. constructor.
  - unfold view. st_simpl. rewrite delete_id by done. constructor.
Qed.

Lemma force_shutdown_follows R (F : Prop) s : inv s → F → follows R F force_shutdown (λ _ _, True) s.
Proof.
  intros I HF. unfold force_shutdown. eapply follows_bind; [by apply get_follows|]. intros c s1 I1 [-> ->].
  eapply follows_bind; [apply for_each_follows; [done|]|].
  - intros id s2 I2. by apply drop_lease_follows.
  - intros _ s2 I2 _. by apply complete_shutdown_follows.
Qed.

Lemma close_semaphores_follows R F s : inv s → follows R F close_semaphores (λ _ _, True) s.
Proof.
  intros I. eapply follows_mono; [eapply follows_safe; [by apply close_semaphores_safe|]|done].
  unfold close_semaphores. wp_step. constructor.
Qed.

Lemma dismiss_path R F ws s :
  wp (for_each ws (λ worker, send worker (Reply_work None);; mret ())) (λ _ s', path R F (view s) (view s')
    ∧ coord s' = coord s) s.
Proof.
  revert s; induction ws as [|w ws IH]; intros s; cbn [for_each]; [split; [constructor|done]|].
  unfold send. wp_run. eapply wp_mono; [apply IH|]. intros ? s' [Hv Hc]. split; [|done].
  etrans; [|exact Hv]. unfold view. st_simpl. eapply path_effect; [|apply path_waited; lia]. done.
Qed.

Lemma start_shutdown_follows R F s reply : inv s → follows R F (start_shutdown reply) (λ _ _, True) s.
Proof.
  intros I. eapply follows_mono; [eapply follows_safe; [by apply start_shutdown_safe|]|done].
  unfold start_shutdown. do 2 wp_step. destruct (co_shutting_down (coord s)) eqn:Hsh.
  { unfold send. wp_run. unfold view. st_simpl. eapply path_effect; [|apply path_waited; lia]. done. }
  do 4 wp_step. unfold close_semaphores, dismiss_parked. do 7 wp_step.
  eapply wp_mono; [apply dismiss_path|]. intros [] s3 [Hv Hc].
  assert (path R F (view s) (view s3)) as H3.
  { etrans; [|exact Hv]. unfold view. st_simpl. eapply path_effect; [|constructor]. done. }
  case_bool_decide.
  - unfold send. wp_run. etrans; [exact H3|]. unfold view. st_simpl.
    eapply path_effect; [|apply path_waited; lia]. done.
  - do 3 wp_step. eapply wp_unwrap; [by eapply shutdown_fits|]. wp_run. etrans; [exact H3|].
    unfold view. st_simpl. apply path_waited. lia.
Qed.

(** ** Commands and turns *)

(** The report that a command makes. *)
Definition reports (cmd : Command) (id : JobId) (lid : LeaseId) : Prop :=
  match cmd with Cmd_WorkerOutcome id' lid' _ => id' = id ∧ lid' = lid | _ => False end.

Definition no_report (id : JobId) (lid : LeaseId) : Prop := False.

Lemma handle_follows s cmd :
  inv s → cmd_ok (co_queue_order (coord s)) cmd → follows (reports cmd) False (handle cmd) (λ _ _, True) s.
Proof.
  intros I Hcmd. destruct cmd as [queue spec permit reply|id reply|id reply|reply|reply|id lid o|reply];
    cbn [handle].
  - eapply follows_safe; [exact (handle_safe P s (Cmd_Submit queue spec permit reply) I Hcmd)|].
    set (R := reports _). destruct Hcmd as (-> & Hq & Hmax). apply (i_order _ _ I), (i_sems _ _ I) in Hq.
    do 2 wp_step. destruct (co_shutting_down (coord s)).
    + unfold send. wp_run. unfold view. st_simpl. eapply path_effect; [|apply path_waited; lia]. done.
    + wp_step. eapply wp_mono; [exact (do_submit_follows R False s queue spec I Hq Hmax)|]. intros r s1 (I1 & Hv & _).
      refine (wp_mono _ _ _ _ (reply_follows R False reply (Reply_job r) s1 I1 eq_refl) _). intros ? s2 (_ & Hv2 & _). by etrans.
  - eapply follows_bind; [unfold do_status; eapply follows_bind; [by apply get_follows|];
      intros ??? [-> ->]; by apply (follows_ret _ _ _ (λ _ _, True))|].
    intros r s1 I1 _. by apply reply_follows.
  - eapply follows_bind; [by apply do_cancel_follows|]. intros r s1 I1 _. by apply reply_follows.
  - eapply follows_bind; [by apply get_follows|]. intros r s1 I1 _. by apply reply_follows.
  - by apply do_fetch_work_follows.
  - by apply do_worker_outcome_follows.
  - by apply start_shutdown_follows.
Qed.

Lemma turn_follows s : inv s → follows no_report True turn (λ _ _, True) s.
Proof.
  intros I. unfold turn. eapply follows_bind; [by apply process_due_retries_follows|].
  intros _ s1 I1 _. eapply follows_bind; [by apply check_lease_timeouts_follows|].
  intros _ s2 I2 _. eapply follows_bind; [by apply try_dispatch_follows|].
  intros _ s3 I3 _. eapply follows_bind; [by apply get_follows|]. intros c s4 I4 [-> ->].
  destruct (co_shutting_down (coord s3) && bool_decide (co_leases (coord s3) = ∅)).
  { eapply follows_bind; [by apply complete_shutdown_follows|]. intros _ s5 I5 _.
    eapply follows_bind; [by apply close_semaphores_follows|]. intros _ s6 I6 _. by apply follows_ret. }
  eapply (follows_bind _ _ _ _ (λ _ _, True)).
  { destruct (co_shutdown_deadline (coord s3)); [|by apply follows_ret].
    eapply follows_bind; [by apply ask_follows|]. intros now s5 I5 _. by apply follows_ret. }
  intros expired s5 I5 _. destruct expired; [|by apply follows_ret].
  eapply follows_bind; [by apply force_shutdown_follows|]. intros _ s6 I6 _.
  eapply follows_bind; [by apply close_semaphores_follows|]. intros _ s7 I7 _. by apply follows_ret.
Qed.

(** A turn after which the loop goes on gives up no lease. *)
Lemma turn_continues s :
  inv s → wp turn (λ r s', is_Some r → path no_report False (view s) (view s')) s.
Proof.
  intros I. unfold turn.
  apply wp_bind. eapply wp_mono; [by apply (process_due_retries_follows no_report False)|]. intros ? s1 (I1 & H1 & _).
  apply wp_bind. eapply wp_mono; [by apply (check_lease_timeouts_follows no_report False)|]. intros ? s2 (I2 & H2 & _).
  apply wp_bind. eapply wp_mono; [by apply (try_dispatch_follows no_report False)|]. intros ? s3 (I3 & H3 & _).
  assert (path no_report False (view s) (view s3)) as H03 by (etrans; [exact H1|]; by etrans).
  do 2 wp_step. destruct (co_shutting_down (coord s3) && bool_decide (co_leases (coord s3) = ∅)).
  { apply wp_bind. eapply wp_mono; [by apply complete_shutdown_safe|]. intros ? s4 (I4 & _).
    apply wp_bind. eapply wp_mono; [by apply close_semaphores_safe|]. intros ? s5 _. apply wp_ret. by intros []. }
  apply wp_bind. apply (wp_mono _ (λ expired s4, inv s4 ∧ path no_report False (view s) (view s4))).
  { destruct (co_shutdown_deadline (coord s3)); [|by apply wp_ret]. apply wp_bind.
    eapply wp_mono; [by apply (ask_follows no_report False)|]. intros ? s4 (I4 & H4 & _). apply wp_ret.
    split; [done|by etrans]. }
  intros expired s4 [I4 H4]. destruct expired; [|by apply wp_ret].
  apply wp_bind. eapply wp_mono; [by apply force_shutdown_safe|]. intros ? s5 (I5 & _).
  apply wp_bind. eapply wp_mono; [by apply close_semaphores_safe|]. intros ? s6 _. apply wp_ret. by intros [].
Qed.

(** The reports that a list of wake-ups makes. *)
Definition reported_by (ws : list Wakeup) (id : JobId) (lid : LeaseId) : Prop :=
  ∃ cmd, Wake_command cmd ∈ ws ∧ reports cmd id lid.

Lemma wake_follows (R : JobId → LeaseId → Prop) s w :
  inv s → wakeup_ok (co_queue_order (coord s)) w → (∀ id lid, reported_by [w] id lid → R id lid) →
  follows R True (wake w) (λ _ _, True) s.
Proof.
  intros I Hw HR. destruct w as [cmd| |]; cbn [wake].
  - eapply (follows_bind _ _ _ _ (λ _ _, True)); [|intros ????; by apply follows_ret].
    eapply wp_mono; [by apply handle_follows|]. intros ? s' (I' & Hv & _). split_and!; [done| |done].
    eapply path_mono, Hv; [|done]. intros id lid Hr. apply HR. exists cmd. split; [left|done].
  - eapply follows_bind; [by apply close_semaphores_follows|]. intros ????. by apply follows_ret.
  - by apply follows_ret.
Qed.

Lemma run_follows (R : JobId → LeaseId → Prop) ws s :
  inv s → Forall (wakeup_ok (co_queue_order (coord s))) ws → (∀ id lid, reported_by ws id lid → R id lid) →
  follows R True (run ws) (λ _ _, True) s.
Proof.
  revert s; induction ws as [|w ws IH]; intros s I Hws HR; cbn [run]; apply wp_bind;
    (eapply wp_mono; [apply wp_and; [exact (turn_safe P s I)|exact (turn_follows s I)]|]);
    intros [nd|] s1 [(I1 & F1 & _) (_ & Hv & _)]; apply (path_mono _ R _ True) in Hv; try done.
  apply Forall_cons in Hws as [Hw Hws]. rewrite <-(fr_order _ _ _ F1) in Hw, Hws.
  apply wp_bind. eapply wp_mono; [apply wp_and; [exact (wake_safe P s1 w I1 Hw)|apply (wake_follows R s1 w I1 Hw)]|].
  { intros id lid (cmd & <-%list_elem_of_singleton & Hr). apply HR. exists cmd. split; [left|done]. }
  intros b s2 [(I2 & F2 & _) (_ & Hv2 & _)]. destruct b.
  - rewrite <-(fr_order _ _ _ F2) in Hws. eapply wp_mono; [apply (IH s2 I2 Hws)|].
    + intros id lid (cmd & Hin & Hr). apply HR. exists cmd. split; [by right|done].
    + intros ? s3 (I3 & Hv3 & _). split_and!; [done| |done]. etrans; [exact Hv|]. by etrans.
  - apply wp_ret. split_and!; [done|by etrans|done].
Qed.

(** C3: the coordinator implements the life of a job: from any state that
    satisfies the invariant, its loop, woken up by any sequence of commands,
    timers and I/O failures, comes to its end and does to the jobs, the leases,
    the counters and the workers only what the abstract machine of [JobMachine]
    allows; in particular a lease is ended only by an outcome that was really
    reported for that very lease, or by cancelling its token. *)
Theorem coordinator_implements_job_machine s ws :
  inv s → Forall (wakeup_ok (co_queue_order (coord s))) ws →
  ∃ b s', run ws s = Some (b, s') ∧ path (reported_by ws) True (view s) (view s').
Proof.
  intros I Hws. destruct (wp_total _ _ _ (run_follows (reported_by ws) ws s I Hws ltac:(done)))
    as (b & s' & Hr & _ & Hv & _). by exists b, s'.
Qed.
End refinement.

(** ** Witness *)

Section witnesses.
#[local] Existing Instance canonical_iter.
#[local] Existing Instance sorted_heap.
#[local] Existing Instance counting_semaphores.
#[local] Existing Instance steady_env.

Lemma coordinator_implements_job_machine_witness :
  ∃ b s', run ex_wakeups ex_start = Some (b, s') ∧ path (reported_by ex_wakeups) True (view ex_start) (view s').
Proof.
  exact (coordinator_implements_job_machine (λ _ _ _, True) ex_start ex_wakeups ex_inv ex_wakeups_ok).
Defined.
End witnesses.
