(* ===== verification/Durability.v ===== *)
(** * Durability

    The write-ahead log and the store of the running coordinator agree: replaying
    the records in the file gives the store, up to the retries whose delay has
    expired, which the coordinator re-queues without a record.  A crash and a
    recovery therefore lose nothing that was acknowledged. *)

From S2P Require Import Prelude Types Config Store Codec ConcreteWire Scanner Writer.
From S2P Require Import Recovery RecoveryProofs RecoveryTotal LogCounts RetryHeap Environment Coordinator.
From S2P Require Import QueueInv CoordinatorInv CoordinatorSafe CoordinatorLoop CoordinatorInit.
From S2P Require Import CoordinatorProps.

(** ** A store and the log it comes from *)

(** The job [live] of the coordinator is described by the log as [logged]. *)
Definition job_logged (live logged : JobRecord) : Prop :=
  live = logged
  ∨ (job_state logged = RetryWaiting ∧ job_ok logged ∧ live = set_state Queued logged).

Definition store_logged (st : MemoryStore) (rs : list WalRecord) : Prop :=
  NoDup (submitted_ids rs) ∧ (∀ id, option_Forall2 job_logged (st !! id) (replay ∅ rs !! id))
  ∧ logged_counts st rs.

Lemma store_logged_nil : store_logged ∅ [].
Proof.
  split_and!; [constructor| |apply logged_counts_nil]. intros id. cbn. rewrite !lookup_empty. constructor.
Qed.

(** The jobs that are over are the same in the store and in the log. *)
Lemma store_logged_counts st rs : store_logged st rs → logged_counts (replay ∅ rs) rs.
Proof.
  intros (_ & Hlog & Hc). refine (logged_counts_proper _ _ _ _ Hc). intros id.
  destruct (Hlog id) as [live logged [->|(Hs & _ & ->)]|]; constructor; [by left|]. right. cbn. by rewrite Hs.
Qed.

Lemma submitted_known rs id : id ∈ submitted_ids rs → is_Some (replay ∅ rs !! id).
Proof.
  induction rs as [|r rs IH] using rev_ind; [by intros ?%elem_of_nil|].
  rewrite submitted_ids_snoc, elem_of_app, replay_app. cbn. rewrite replay_record_eq.
  intros [Hin|Hin].
  - destruct (IH Hin) as [job Hj]. rewrite Hj. case_decide; [|by eexists].
    destruct r; cbn; by eexists.
  - destruct r; cbn in Hin; apply list_elem_of_singleton in Hin || by apply elem_of_nil in Hin.
    subst. cbn. rewrite decide_True by done. by eexists.
Qed.

(** A record does to the logged job exactly what it does to the live one. *)
Lemma record_effect_logged r live logged :
  job_logged live logged → record_effect r (Some live) = record_effect r (Some logged).
Proof. intros [->|(Hs & _ & ->)]; [done|]. by destruct r. Qed.

Lemma store_logged_accept st rs r st' :
  store_logged st rs → apply_record st r = Ok st' →
  (is_submit r = true → st !! record_job_id r = None) →
  store_logged st' (rs ++ [r]).
Proof.
  intros (Hnd & Hlog & Hcnt) Happ Hnew. destruct (apply_record_ok _ _ _ Happ) as (Heff & Hsome & Hne & Hold).
  split_and!.
  - rewrite submitted_ids_snoc. destruct r as [id queue spec ts| | | | |]; cbn; rewrite ?app_nil_r; try done.
    apply NoDup_snoc. split; [done|]. intros Hin%submitted_known.
    specialize (Hlog id). rewrite (Hnew eq_refl : st !! id = None) in Hlog.
    inversion Hlog as [|Hx Hy]. rewrite <-Hy in Hin. by destruct Hin.
  - intros id. rewrite replay_app. cbn. rewrite replay_record_eq.
    case_decide as Hid; [|by rewrite Hne]. subst id. rewrite Heff. specialize (Hlog (record_job_id r)).
    inversion Hlog as [live logged Hj Hl Hr|Hl Hr]; rewrite <-Hl in *.
    + rewrite (record_effect_logged _ _ _ Hj).
      destruct (record_effect r (Some logged)); constructor; by left.
    + rewrite Heff in Hsome. destruct r; cbn in *; try by destruct Hsome. constructor; by left.
  - eapply logged_counts_step; [done| |].
    + unfold applicable. destruct (is_submit r) eqn:Hr; [by apply Hnew|].
      destruct (Hold eq_refl) as (job & Hj & Hv). exists job. split; [done|]. by eapply valid_from_live.
    + intros id. case_decide as Hid; [by subst id|by apply Hne].
Qed.

Lemma store_logged_requeue st rs id job :
  store_logged st rs → st !! id = Some job → job_state job = RetryWaiting → job_ok job →
  store_logged (<[id := set_state Queued job]> st) rs.
Proof.
  intros (Hnd & Hlog & Hcnt) Hj Hs Hok. split_and!; [done| |].
  2:{ refine (logged_counts_proper _ _ _ _ Hcnt). intros i. rewrite lookup_insert.
      case_decide as Hi; [subst i; rewrite Hj; constructor; right; by rewrite Hs|].
      destruct (st !! i); constructor. by left. }
  intros i. destruct (decide (i = id)) as [->|Hne].
  - rewrite lookup_insert_eq. specialize (Hlog id). rewrite Hj in Hlog.
    inversion Hlog as [live logged Hjl Hl Hr|]; subst. constructor.
    destruct Hjl as [->|(_ & _ & ->)]; [by right|done].
  - by rewrite lookup_insert_ne.
Qed.

(** ** The storage follows the store *)

(** The log holds the store at tick [t].  The bounds keep the sequence numbers
    and the lease epochs from wrapping around. *)
Definition durable `{W : Wire} (t : nat) (sto : Storage) (st : MemoryStore) : Prop :=
  match sto with
  | Storage_Memory => True
  | Storage_Wal w =>
      ww_tx w = true ∧ wt_fail_next_sync (ww_thread w) = false
      ∧ ∃ rs, store_logged st rs ∧ zlen rs ≤ 2 ^ 62 + Z.of_nat t
              ∧ (small t → wal_ok (ww_thread w) rs) ∧ Forall (epoch_ok t) rs
  end.

Lemma process_write_no_sync_fault `{W : Wire} io t r :
  wt_fail_next_sync t = false → wt_fail_next_sync (process_write io t r).2 = false.
Proof. intros H. unfold process_write. rewrite H. repeat case_match; done. Qed.

Lemma durable_later `{W : Wire} t t' sto st : durable t sto st → (t ≤ t')%nat → durable t' sto st.
Proof.
  destruct sto as [|w]; [done|]. intros (Htx & Hfs & rs & Hlog & Hlen & Hok & Hep) Ht. split_and!; [done..|].
  exists rs. split_and!; [done|lia| |].
  - intros Hs. apply Hok. unfold small in *. lia.
  - eapply Forall_impl; [exact Hep|]. intros r Hr. by eapply epoch_ok_later.
Qed.

Lemma persist_durable `{W : Wire} `{!WireLaws W} io t t' sto st r reply sto' :
  clean_io io → durable t sto st → (t < t')%nat → persist io sto r = (reply, sto') →
  match reply with
  | Err _ => durable t' sto' st
  | Ok _ => ∀ st', apply_record st r = Ok st' →
      (is_submit r = true → st !! record_job_id r = None) → epoch_ok t' r → durable t' sto' st'
  end.
Proof.
  intros Hio Hd Ht Hp. destruct sto as [|w]; cbn in Hp; [by simplify_eq|].
  destruct Hd as (Htx & Hfs & rs & Hlog & Hlen & Hok & Hep). unfold writer_append in Hp. rewrite Htx in Hp. cbn [negb] in Hp.
  pose proof (process_write_no_sync_fault io (ww_thread w) r Hfs) as Hfs'.
  assert (small t' → small t ∧ zlen rs + 1 < u64_max) as Hsm by (unfold small, u64_max in *; lia).
  pose proof (λ H, process_write_clean io (ww_thread w) rs r (Hok (proj1 (Hsm H))) Hfs Hio
    (proj2 (Hsm H))) as Hclean. clear Hsm.
  assert (Forall (epoch_ok t') rs) as Hep'.
  { eapply Forall_impl; [exact Hep|]. intros r' Hr'. eapply epoch_ok_later; [done|lia]. }
  destruct (process_write io (ww_thread w) r) as [[seq|e] th]; cbn in Hp; simplify_eq.
  - intros st' Happ Hnew Hr. split_and!; [done..|]. exists (rs ++ [r]).
    rewrite length_app. cbn [length]. split_and!; [by eapply store_logged_accept|lia| |].
    + intros Hs. by apply Hclean.
    + apply Forall_app. split; [done|]. by constructor.
  - split_and!; [done..|]. exists rs. split_and!; [done|lia| |done]. intros Hs. by apply Hclean.
Qed.

(** The interface of the coordinator is discharged by a writer whose appends
    succeed or fail as a whole. *)
Lemma durable_log `{W : Wire} `{!WireLaws W} `{EN : Env} :
  (∀ t, clean_io (env_io t)) → LogInv durable.
Proof.
  intros Hio. split.
  - intros t t' sto st. apply durable_later.
  - intros t u t' sto st r e sto' Hd Ht Hp.
    exact (persist_durable _ t t' _ _ _ _ _ (Hio u) Hd ltac:(lia) Hp).
  - intros t u t' sto st r n sto' st' Hd Ht Hp.
    exact (persist_durable _ t t' _ _ _ _ _ (Hio u) Hd ltac:(lia) Hp st').
  - intros t [|w] st id job Hd Hj Hs Hok; [done|]. destruct Hd as (Htx & Hfs & rs & Hlog & Hlen & Hwal & Hep).
    split_and!; [done..|]. exists rs. split_and!; [by apply store_logged_requeue|done|done|done].
Qed.

(** ** Crash and recovery *)

(** What becomes of a job of the coordinator in a crash and the recovery after
    it. *)
Definition survives (job job' : JobRecord) : Prop :=
  same_job job job' ∧ job_attempts job' = job_attempts job
  ∧ match job_state job with
    | Queued => job_state job' = Queued ∨ job_state job' = RetryWaiting
    | Running => job_state job' =
        if job_attempts job <? max_attempts (job_spec job) then RetryWaiting else Dead
    | s => job_state job' = s
    end.

Lemma logged_survives live logged : job_logged live logged → survives live (reconciled logged).
Proof.
  intros [->|(Hs & _ & ->)]; unfold survives, reconciled.
  - destruct (job_state logged) eqn:Hs; (split; [done|]); (split; [done|]); cbn; rewrite ?Hs; auto.
  - rewrite Hs. split; [done|]. split; [done|]. cbn. rewrite Hs. auto.
Qed.

Lemma reconciled_ok job : job_ok job → job_ok (reconciled job).
Proof.
  intros Hok. unfold reconciled. destruct (job_state job) eqn:Hs; try done.
  destruct Hok as (Hmax & Hatt & _).
  destruct (Z.ltb_spec (job_attempts job) (max_attempts (job_spec job))); split_and!; apply Hatt || done.
Qed.

(** Every job of a store that the log describes survives the recovery of the log. *)
Lemma run_survives `{W : Wire} `{HashIter} now file rec file' rs recs content b st id :
  recovery_run now file rec file' rs recs content b → store_logged st rs →
  option_Forall2 (λ job job', survives job job' ∧ (job_ok job → job_ok job')) (st !! id) (rec_store rec !! id).
Proof.
  intros R (_ & Hlog & _). rewrite (run_lookup R). specialize (Hlog id).
  inversion Hlog as [live logged Hj Hl Hr|Hl Hr]; constructor. split; [by apply logged_survives|].
  intros Hlive. apply reconciled_ok. by destruct Hj as [->|(_ & ? & _)].
Qed.

(** No job comes to life in a recovery. *)
Lemma survives_live (st st' : MemoryStore) q :
  (∀ id, option_Forall2 (λ job job', survives job job' ∧ (job_ok job → job_ok job')) (st !! id) (st' !! id)) →
  count_jobs (live_in q) st' ≤ count_jobs (live_in q) st.
Proof.
  intros Hs. apply mcount_le. intros id job' Hj' [Hq Hl]%live_in_spec. specialize (Hs id). rewrite Hj' in Hs.
  destruct (st !! id) as [job|]; inversion Hs as [x y [((_ & Hqq & _) & _ & Hst) _]|]; subst.
  exists job. split; [done|]. apply live_in_spec. split; [by rewrite <-Hqq|].
  destruct (job_state job); try done; by rewrite Hst in Hl.
Qed.

(** The lease epochs in the log. *)
Lemma logged_epochs t rs :
  Forall (epoch_ok t) rs → small t → 0 ≤ max_lease_epoch (track RecoveryTracker_new rs) < 2 ^ 63 + Z.of_nat t.
Proof.
  intros Hep Hs. induction rs as [|r rs IH] using rev_ind; [cbn; lia|].
  apply Forall_app in Hep as [Hep [Hr _]%Forall_cons]. specialize (IH Hep). rewrite track_app.
  change (track ?u [r]) with (track_record u r).
  destruct r as [|id l| | | |]; cbn [track_record max_lease_epoch]; try lia.
  specialize (Hr (epoch l) eq_refl Hs). lia.
Qed.

Lemma wal_ok_nonempty `{W : Wire} t rs : wal_ok t rs → wt_file t ≠ [].
Proof.
  intros (_ & content & _ & ->) Hnil%(f_equal length).
  rewrite length_app, length_header_encode in Hnil. unfold HEADER_SIZE in Hnil. cbn in Hnil. lia.
Qed.

Lemma config_queues_names config q :
  is_Some (config_queues config !! q) → q ∈ queue_names (cfg_queues config).
Proof.
  intros [cap [Hm|(qc & Hin & <- & _)]%config_queues_elem]; [by rewrite lookup_empty in Hm|].
  apply list_elem_of_fmap. by exists qc.
Qed.

Section crash.
Context `{W : Wire} `{!WireLaws W} `{HI : HashIter} `{RH : RetryHeap} `{!RetryHeapLaws RH}.
Context `{SM : Semaphores} `{!SemaphoresLaws SM} `{EN : Env} `{!EnvLaws EN}.

(** The storage that the coordinator gets after a recovery. *)
Definition recovered_storage (rec : RecoveredState) (file : list byte) : Storage :=
  Storage_Wal (mkWalWriter true (WriterThread_new file (rec_next_sequence rec))).

(** What the log of a coordinator holds. *)
Lemma durable_wal s w :
  inv durable s → small (tick s) → co_storage (coord s) = Storage_Wal w →
  ∃ rs, wal_ok (ww_thread w) rs ∧ store_logged (co_store (coord s)) rs ∧ Forall (epoch_ok (tick s)) rs.
Proof.
  intros I Hsm Hsto. pose proof (i_log _ _ I) as Hd. rewrite Hsto in Hd.
  destruct Hd as (_ & _ & rs & Hlog & _ & Hok & Hep). exists rs. by split_and!; [apply Hok| |].
Qed.

(** A recovery of that log. *)
Lemma durable_recovered s w now config rec file' :
  inv durable s → small (tick s) →
  co_storage (coord s) = Storage_Wal w → zlen (wt_file (ww_thread w)) ≤ u64_max →
  recover now false (Some (wt_file (ww_thread w))) config = Ok (rec, file') →
  ∃ rs recs content b, recovery_run now (wt_file (ww_thread w)) rec file' rs recs content b
    ∧ store_logged (co_store (coord s)) rs ∧ Forall (epoch_ok (tick s)) rs
    ∧ validate_recovered_state (rec_store rec) (rec_queued_jobs rec) (rec_retry_jobs rec) config = Ok ().
Proof.
  intros I Hsm Hsto Hlen Hrec. destruct (durable_wal s w I Hsm Hsto) as (rs & Hok & Hlog & Hep).
  destruct (recover_run _ _ _ _ _ (wal_ok_nonempty _ _ Hok) Hrec) as [(rs' & recs & content & b & R) Hv].
  destruct (run_scan _ _ _ _ _ _ _ _ R) as (n' & t' & Hs).
  destruct (wal_ok_scan _ _ Hok Hlen) as (n & Hscan & _).
  assert (rs' = rs) as -> by (unfold scan_result in *; congruence). by exists rs, recs, content, b.
Qed.

(** No acknowledged work is lost in a crash: kill the coordinator in any state,
    and recover the log it left, with a configuration that has room for the
    unfinished jobs and a serializer that accepts the records that recovery
    writes.  Then the recovery succeeds and finds every job, and no other; the
    identity, the specification and the number of attempts are the same; jobs that
    were over are recovered exactly as they were, waiting jobs still wait, queued
    jobs are queued or wait for the retry they were queued for, and a job that was
    running is retried if it has attempts left and dead if not. *)
Lemma crash_loses_nothing s w now config :
  inv durable s → small (tick s) →
  co_storage (coord s) = Storage_Wal w → zlen (wt_file (ww_thread w)) ≤ u64_max →
  (∀ q, count_jobs (live_in q) (co_store (coord s)) ≤ capacity_of config q) →
  Forall serializes (reconciliation now (wt_file (ww_thread w))) →
  ∃ rec file', recover now false (Some (wt_file (ww_thread w))) config = Ok (rec, file')
    ∧ (∀ id, option_Forall2 survives (co_store (coord s) !! id) (rec_store rec !! id))
    ∧ ∀ q, count_jobs (live_in q) (rec_store rec) ≤ capacity_of config q.
Proof.
  intros I Hsm Hsto Hlen Hcap Hser. destruct (durable_wal s w I Hsm Hsto) as (rs & Hok & Hlog & Hep).
  destruct (wal_ok_scan _ _ Hok Hlen) as (n & Hscan & _). pose proof (logged_epochs _ _ Hep Hsm) as Hmax.
  destruct (recover_total now _ rs n false (wal_ok_nonempty _ _ Hok) Hscan Hlen) as
    (rec & file' & recs & content & bs & R & Hrec); [unfold small, u64_max in *; lia|done|].
  pose proof (λ id, run_survives _ _ _ _ _ _ _ _ _ id R Hlog) as Hs.
  assert (∀ q, count_jobs (live_in q) (rec_store rec) ≤ capacity_of config q) as Hroom.
  { intros q. etrans; [by apply (survives_live (co_store (coord s)))|apply Hcap]. }
  exists rec, file'. split_and!; [|intros id; destruct (Hs id); constructor; naive_solver|done].
  rewrite Hrec, (run_validates R config); [done|apply Hlog|done].
Qed.

Lemma recovery_durable now file rec file' rs recs content b t :
  recovery_run now file rec file' rs recs content b → NoDup (submitted_ids rs) →
  logged_counts (replay ∅ rs) rs → zlen file ≤ u64_max → Forall (epoch_ok t) rs →
  durable t (recovered_storage rec file') (rec_store rec).
Proof.
  intros R Hnd Hcnt Hlen Hep. split_and!; [done..|]. exists (rs ++ recs).
  pose proof (reconcile_bound _ _ _ (run_recs _ _ _ _ _ _ _ _ R)) as Hb.
  destruct (run_scan _ _ _ _ _ _ _ _ R) as (n & t' & Hscan). apply records_bound in Hscan; [|done]. split_and!.
  - split_and!; [by rewrite (run_submitted_ids R)| |].
    + intros id. rewrite <-(run_store_eq R). destruct (rec_store rec !! id); constructor. by left.
    + rewrite (run_store_eq R). eapply logged_counts_reconcile; [done|by apply (run_recs _ _ _ _ _ _ _ _ R)].
  - rewrite length_app. unfold u64_max in *. lia.
  - intros _. by eapply run_wal_ok.
  - apply Forall_app. split; [done|]. apply Forall_forall. intros r Hr e He.
    by destruct (reconcile_records _ _ _ _ _ (run_recs _ _ _ _ _ _ _ _ R) Hr) as [(?&?&?&?&->)|(?&?&?&->)].
Qed.

Lemma recovery_recovered_ok now config file rec file' rs recs content b t (st : MemoryStore) :
  recovery_run now file rec file' rs recs content b → store_logged st rs → Forall (epoch_ok t) rs →
  validate_recovered_state (rec_store rec) (rec_queued_jobs rec) (rec_retry_jobs rec) config = Ok () →
  jobs_ok st → (∀ t', (t ≤ t')%nat → st !! env_uuid t' = None) →
  recovered_ok config t rec.
Proof.
  intros R Hlog Hep Hv [_ Hjobs] Hfresh.
  pose proof (λ id, run_survives _ _ _ _ _ _ _ _ _ id R Hlog) as Hok. destruct Hlog as (Hnd & _ & _).
  pose proof (validate_queues_known _ _ _ _ Hv) as [Hvq Hvr].
  split.
  - split; [apply (run_tracks R)|]. intros id job' Hj'. specialize (Hok id). rewrite Hj' in Hok.
    destruct (st !! id) as [job|] eqn:Hj; inversion Hok as [x y [_ Himp]|]; subst. apply Himp. by apply Hjobs in Hj.
  - intros id job. apply (run_no_running R).
  - intros id job Hj Hlive. apply config_queues_names. destruct (job_state job) eqn:Hs; try done.
    + assert (id ∈ default [] (rec_queued_jobs rec !! as_str (job_queue job))) as Hin.
      { apply (run_queued_elem R); [done|]. exists job. by rewrite in_queue_spec. }
      destruct (rec_queued_jobs rec !! _) as [ids|] eqn:Hq; [by eapply Hvq|by apply elem_of_nil in Hin].
    + by destruct (run_no_running R _ _ Hj).
    + eapply Hvr; [|done]. apply (run_retry_elem R). by exists job.
  - intros q. split; [|intros id; by apply (run_queued_elem R)].
    eapply sublist_NoDup; [exact Hnd|]. by apply (run_queued_sublist R).
  - apply (run_retry_NoDup R).
  - apply (run_retry_elem R).
  - intros Hs. rewrite (run_state _ _ _ _ _ _ _ _ R). cbn [rec_next_lease_epoch].
    pose proof (logged_epochs _ _ Hep Hs). lia.
  - intros t' Ht. specialize (Hok (env_uuid t')). rewrite Hfresh in Hok by done. by inversion Hok.
Qed.

Lemma crash_recovered_ok s w now config rec file' :
  inv durable s → small (tick s) →
  co_storage (coord s) = Storage_Wal w → zlen (wt_file (ww_thread w)) ≤ u64_max →
  recover now false (Some (wt_file (ww_thread w))) config = Ok (rec, file') →
  recovered_ok config (tick s) rec ∧ durable (tick s) (recovered_storage rec file') (rec_store rec).
Proof.
  intros I Hsm Hsto Hlen Hrec.
  destruct (durable_recovered s w now config rec file' I Hsm Hsto Hlen Hrec)
    as (rs & recs & content & b & R & Hlog & Hep & Hv). split.
  - eapply (recovery_recovered_ok _ _ _ _ _ _ _ _ _ _ (co_store (coord s)) R); try done; apply I.
  - eapply recovery_durable; [done|apply Hlog|by eapply store_logged_counts|done|done].
Qed.

(** C9: crash and restart can go on forever: the coordinator that is rebuilt from
    the recovered log, with the writer that recovery hands over, satisfies the
    same invariant again, durability included, also under a changed
    configuration. *)
Theorem restart_reestablishes_invariant s w now wall now' config rec file' sems tok c :
  inv durable s → small (tick s) → config_fits config →
  co_storage (coord s) = Storage_Wal w → zlen (wt_file (ww_thread w)) ≤ u64_max →
  recover now false (Some (wt_file (ww_thread w))) config = Ok (rec, file') →
  sems_for config sems →
  with_rng_and_recovery now' wall config (recovered_storage rec file') sems tok (Some rec)
    = Some c →
  inv durable (mkState c (tick s) []).
Proof.
  intros I Hsm Hfit Hsto Hlen Hrec Hsems Hc.
  destruct (crash_recovered_ok s w now config rec file' I Hsm Hsto Hlen Hrec) as [Hok Hdur].
  by eapply init_recovered.
Qed.
End crash.

(** ** Witnesses *)

Section witnesses.
#[local] Existing Instance canonical_iter.
#[local] Existing Instance sorted_heap.
#[local] Existing Instance counting_semaphores.
#[local] Existing Instance steady_env.

(** The example coordinator on a new log. *)
Definition ex_wal_config : RuntimeConfig := with_storage ex_config (WalStorage "data").
Definition ex_wal : Storage :=
  Storage_Wal (mkWalWriter true (WriterThread_new (header_encode WalHeader_new) 1)).
Definition ex_wal_coord : Coordinator :=
  default ex_coord (Coordinator_new ex_wal_config ex_wal ex_sems 0%N).
Definition ex_wal_start : State := mkState ex_wal_coord 0 [].

Lemma steady_clean t : clean_io (env_io t).
Proof. done. Qed.

Lemma ex_wal_inv : inv durable ex_wal_start.
Proof.
  apply (init_new durable ex_wal_config ex_wal ex_sems 0%N ex_wal_coord 0 []
    ex_fits ex_sems_for); [|done].
  split_and!; [done..|]. exists [].
  split_and!; [apply store_logged_nil|cbn; lia|intros _; apply wal_ok_new|constructor].
Qed.

(** A job is submitted and leased, another one submitted; then the process
    dies. *)
Definition ex_crash : State :=
  match run ex_wakeups ex_wal_start with Some (_, s) => s | None => ex_wal_start end.
Definition ex_crash_writer : WalWriter :=
  match co_storage (coord ex_crash) with Storage_Wal w => w | Storage_Memory => mkWalWriter false (WriterThread_new [] 1) end.
Definition ex_crash_recovered : WalResult (RecoveredState * list byte) :=
  recover (from_millis 5000) false (Some (wt_file (ww_thread ex_crash_writer))) ex_wal_config.
Definition ex_crash_rec : RecoveredState :=
  match ex_crash_recovered with Ok (r, _) => r | Err _ => empty_recovered end.
Definition ex_crash_file : list byte :=
  match ex_crash_recovered with Ok (_, f) => f | Err _ => [] end.

Lemma ex_crash_run : run ex_wakeups ex_wal_start = Some (true, ex_crash).
Proof. vm_compute. reflexivity. Qed.
Lemma ex_crash_recover :
  recover (from_millis 5000) false (Some (wt_file (ww_thread ex_crash_writer))) ex_wal_config
  = Ok (ex_crash_rec, ex_crash_file).
Proof. vm_compute. reflexivity. Qed.

Definition serializes_b (r : WalRecord) : bool :=
  match to_allocvec r with Ok bs => zlen bs <=? MAX_RECORD_SIZE | Err _ => false end.

Lemma serializes_forallb l : forallb serializes_b l = true → Forall serializes l.
Proof.
  induction l as [|r l IH]; [constructor|]. cbn [forallb]. intros [Hr Hl]%andb_true_iff. constructor; [|by apply IH].
  unfold serializes_b in Hr. unfold serializes. destruct (to_allocvec r) as [bs|e]; [|done].
  exists bs. split; [done|by apply Z.leb_le].
Qed.

Example ex_crash_states :
  job_state <$> co_store (coord ex_crash) !! from_uuid 2 = Some Running
  ∧ job_state <$> rec_store ex_crash_rec !! from_uuid 2 = Some RetryWaiting.
Proof. vm_compute. split; reflexivity. Qed.

Definition ex_restarted : option Coordinator :=
  with_rng_and_recovery 0 (from_millis 5000) ex_wal_config (recovered_storage ex_crash_rec ex_crash_file)
    ex_sems 0%N (Some ex_crash_rec).

Lemma ex_crash_inv : inv durable ex_crash.
Proof.
  exact (proj1 (wp_result _ _ _ _ _ (run_safe durable (LogInv0 := durable_log steady_clean)
    ex_wakeups ex_wal_start ex_wal_inv ex_wakeups_ok) ex_crash_run)).
Qed.

Lemma restart_reestablishes_invariant_witness :
  ∃ c, ex_restarted = Some c ∧ inv durable (mkState c (tick ex_crash) []).
Proof.
  destruct ex_restarted as [c|] eqn:Hc.
  - exists c. split; [reflexivity|].
    refine (restart_reestablishes_invariant ex_crash ex_crash_writer (from_millis 5000) (from_millis 5000) 0
      ex_wal_config ex_crash_rec ex_crash_file ex_sems 0%N c _ _ _ _ _ _ _ _).
    + exact ex_crash_inv.
    + vm_compute. reflexivity.
    + exact ex_fits.
    + vm_compute. reflexivity.
    + vm_compute. discriminate.
    + exact ex_crash_recover.
    + exact ex_sems_for.
    + exact Hc.
  - vm_compute in Hc. discriminate Hc.
Defined.
End witnesses.
