(* ===== verification/CliProofs.v ===== *)
(** * What the log tools report

    [inspect] and [verify] agree with recovery, and on the log of a coordinator
    the numbers of records that [inspect] prints are numbers of jobs.  The same
    counting makes the counters exact that recovery restarts the statistics
    from. *)

From S2P Require Import Prelude Text Types Config Store Codec ConcreteWire Scanner Writer.
From S2P Require Import Recovery RecoveryProofs RecoveryTotal LogCounts Cli RetryHeap Environment Coordinator.
From S2P Require Import QueueInv CoordinatorInv CoordinatorSafe CoordinatorLoop CoordinatorInit.
From S2P Require Import CoordinatorProps Durability.

(** ** The two commands *)

(** The directory has a readable log that nobody uses. *)
Definition readable `{W : Wire} (d : DataDir) (file : list byte) (r : ScanResult) : Prop :=
  dir_wal d = Some file ∧ dir_lock_open d = None ∧ dir_locked d = false ∧ scan_wal file = Ok r.

Lemma with_locked_wal_done d body :
  (with_locked_wal d body).1.2 = Done ↔
    ∃ file, dir_wal d = Some file ∧ dir_lock_open d = None ∧ dir_locked d = false ∧ (body file).2 = Done.
Proof.
  unfold with_locked_wal. destruct d as [p [file|] lf [] [msg|]]; cbn; naive_solver.
Qed.

Lemma with_locked_wal_dir d body :
  dir_wal (with_locked_wal d body).2 = dir_wal d
  ∧ (dir_lock_file (with_locked_wal d body).2 = true ↔
       dir_lock_file d = true ∨ is_Some (dir_wal d) ∧ dir_lock_open d = None).
Proof.
  unfold with_locked_wal, is_Some. destruct d as [p [file|] lf [] [msg|]]; cbn; naive_solver.
Qed.

Lemma verify_done `{W : Wire} d : (run_verify d).1.2 = Done ↔ ∃ file r, readable d file r.
Proof.
  unfold run_verify. rewrite with_locked_wal_done. unfold readable. split.
  - intros (file & ? & ? & ? & Hb). destruct (scan_wal file) as [r|] eqn:?; [|done]. by exists file, r.
  - intros (file & r & ? & ? & ? & Hs). exists file. by rewrite Hs.
Qed.

Lemma inspect_done `{W : Wire} d : (run_inspect d).1.2 = Done ↔ ∃ file r, readable d file r.
Proof.
  unfold run_inspect. rewrite with_locked_wal_done. unfold readable. split.
  - intros (file & ? & ? & ? & Hb). destruct (scan_wal file) as [r|] eqn:?; [|done]. by exists file, r.
  - intros (file & r & ? & ? & ? & Hs). exists file. by rewrite Hs.
Qed.

Lemma recover_scans `{W : Wire} `{HashIter} now file config rec file' :
  recover now false (Some file) config = Ok (rec, file') → ∃ r, scan_wal file = Ok r.
Proof.
  intros Hrec. destruct (decide (file = [])) as [->|Hne]; [by eexists|].
  destruct (recover_run _ _ _ _ _ Hne Hrec) as [(rs & recs & content & b & R) _].
  destruct (run_scan _ _ _ _ _ _ _ _ R) as (n & t & Hs). by eexists.
Qed.

(** C28: [verify] and [inspect] succeed exactly on a directory whose log exists,
    is not in use and scans, they never touch the log, and [LOCK] exists
    afterwards as soon as the log was there to be read.  What recovery accepts,
    they accept. *)
Theorem tools_agree_with_recovery `{W : Wire} `{HashIter} (d : DataDir) :
  ((run_verify d).1.2 = Done ↔ ∃ file r, readable d file r)
  ∧ ((run_inspect d).1.2 = Done ↔ (run_verify d).1.2 = Done)
  ∧ dir_wal (run_verify d).2 = dir_wal d ∧ dir_wal (run_inspect d).2 = dir_wal d
  ∧ (dir_lock_file (run_verify d).2 = true ↔
       dir_lock_file d = true ∨ is_Some (dir_wal d) ∧ dir_lock_open d = None)
  ∧ ∀ now file config rec file',
      dir_wal d = Some file → dir_lock_open d = None →
      recover now (dir_locked d) (Some file) config = Ok (rec, file') → (run_verify d).1.2 = Done.
Proof.
  split_and!.
  - apply verify_done.
  - by rewrite inspect_done, verify_done.
  - apply with_locked_wal_dir.
  - apply with_locked_wal_dir.
  - apply with_locked_wal_dir.
  - intros now file config rec file' Hf Ho Hrec. apply verify_done.
    destruct (dir_locked d) eqn:Hl; [done|]. destruct (recover_scans _ _ _ _ _ Hrec) as [r Hr].
    by exists file, r.
Qed.

(** ** Counting by type *)

Lemma count_by_type_records rs :
  zlen rs ≤ u64_max →
  count_by_type rs =
    mkTypeCounts (records_to Queued rs) (records_to Running rs) (records_to Completed rs)
      (records_to Dead rs) (records_to Cancelled rs) (records_to RetryWaiting rs).
Proof.
  unfold count_by_type.
  induction rs as [|r rs IH] using rev_ind; intros Hlen; [done|].
  rewrite length_app in Hlen. cbn [length] in Hlen. rewrite foldl_snoc, IH by lia. rewrite !records_to_snoc.
  assert (∀ s, u64_wrap (records_to s rs + 1) = records_to s rs + 1) as Hw.
  { intros s. pose proof (records_to_le s rs). by apply u64_incr_small; lia. }
  destruct r; cbn; rewrite ?Hw, ?Z.add_0_r; done.
Qed.

Section reports.
Context `{W : Wire} `{!WireLaws W} `{HI : HashIter} `{RH : RetryHeap} `{!RetryHeapLaws RH}.
Context `{SM : Semaphores} `{!SemaphoresLaws SM} `{EN : Env} `{!EnvLaws EN}.

(** [inspect] tells the truth about the queue: on the log that a coordinator
    left, whenever it was killed, it reports a clean tail, as many submissions as
    the coordinator knew jobs, and as many completions, deaths and cancellations
    as there are jobs that ended so; [verify] calls the log valid. *)
Lemma inspect_counts_jobs s w d :
  inv durable s → small (tick s) → co_storage (coord s) = Storage_Wal w →
  zlen (wt_file (ww_thread w)) ≤ u64_max →
  dir_wal d = Some (wt_file (ww_thread w)) → dir_lock_open d = None → dir_locked d = false →
  ∃ r, run_inspect d
         = ((inspect_lines (dir_wal_path d) (zlen (wt_file (ww_thread w))) r, Done), touch_lock d)
    ∧ (run_verify d).1.2 = Done ∧ had_truncated_tail r = false
    ∧ let c := count_by_type (scan_records r) in
      let count st := count_jobs (has_state st) (co_store (coord s)) in
      n_submitted c = Z.of_nat (size (co_store (coord s)))
      ∧ n_completed c = count Completed ∧ n_dead c = count Dead ∧ n_cancelled c = count Cancelled.
Proof.
  intros I Hsm Hsto Hlen Hwal Hopen Hfree.
  destruct (durable_wal s w I Hsm Hsto) as (rs & Hok & (_ & _ & Hsub & Hter) & _).
  destruct (wal_ok_scan _ _ Hok Hlen) as (n & Hscan & _).
  pose proof (records_bound _ _ _ _ Hlen Hscan) as Hb. exists (scan_result rs n false). split_and!.
  - unfold run_inspect, with_locked_wal. rewrite Hwal, Hopen. cbn [touch_lock dir_locked]. rewrite Hfree.
    by rewrite Hscan.
  - apply verify_done. by exists (wt_file (ww_thread w)), (scan_result rs n false).
  - done.
  - cbn [scan_records scan_result]. rewrite count_by_type_records by lia.
    cbn [n_submitted n_completed n_dead n_cancelled]. rewrite Hsub. split_and!; [done|by apply Hter..].
Qed.

(** The counters that recovery hands to the coordinator are the numbers of jobs of
    the recovered store, in total and by the way they ended. *)
Lemma recovered_counters_exact s w now config rec file' :
  inv durable s → small (tick s) → co_storage (coord s) = Storage_Wal w →
  zlen (wt_file (ww_thread w)) ≤ u64_max →
  recover now false (Some (wt_file (ww_thread w))) config = Ok (rec, file') →
  rec_submitted rec = Z.of_nat (size (rec_store rec))
  ∧ rec_completed rec = count_jobs (has_state Completed) (rec_store rec)
  ∧ rec_dead rec = count_jobs (has_state Dead) (rec_store rec)
  ∧ rec_cancelled rec = count_jobs (has_state Cancelled) (rec_store rec)
  ∧ Z.of_nat (size (rec_store rec)) ≤ u64_max.
Proof.
  intros I Hsm Hsto Hlen Hrec.
  destruct (durable_recovered s w now config rec file' I Hsm Hsto Hlen Hrec)
    as (rs & recs & content & b & R & Hlog & _ & _).
  destruct (logged_counts_reconcile now rs recs) as [Hsub Hter];
    [by eapply store_logged_counts|by apply (run_recs _ _ _ _ _ _ _ _ R)|].
  pose proof (run_bound _ _ _ _ _ _ _ _ R).
  rewrite (run_state _ _ _ _ _ _ _ _ R), counts_of_records by (rewrite length_app; lia).
  cbn [rec_submitted rec_completed rec_dead rec_cancelled rec_store submitted_count completed_count
       dead_count cancelled_count]. split_and!; [done|by apply Hter..|].
  rewrite <-Hsub. pose proof (records_to_le Queued (rs ++ recs)). rewrite length_app in *. lia.
Qed.
End reports.

(** ** Witnesses *)

Section witnesses.
#[local] Existing Instance canonical_iter.
#[local] Existing Instance sorted_heap.
#[local] Existing Instance counting_semaphores.
#[local] Existing Instance steady_env.

(** The directory that the example coordinator left. *)
Definition ex_dir : DataDir :=
  mkDataDir "data/wal.log" (Some (wt_file (ww_thread ex_crash_writer))) true false None.

Lemma tools_agree_with_recovery_witness : (run_verify ex_dir).1.2 = Done.
Proof.
  destruct (tools_agree_with_recovery ex_dir) as (_ & _ & _ & _ & _ & Hrec).
  exact (Hrec (from_millis 5000) (wt_file (ww_thread ex_crash_writer)) ex_wal_config ex_crash_rec ex_crash_file
           eq_refl eq_refl ex_crash_recover).
Defined.

(** Two jobs were submitted and one of them was leased. *)
Example ex_dir_counts :
  match scan_wal (wt_file (ww_thread ex_crash_writer)) with
  | Ok r => count_by_type (scan_records r) = mkTypeCounts 2 1 0 0 0 0
  | Err _ => False
  end.
Proof. vm_compute. reflexivity. Qed.

(** A log that is cut in its header is refused by both tools and by recovery. *)
Example ex_cut_dir :
  (run_verify (mkDataDir "data/wal.log" (Some (take 5 (wt_file (ww_thread ex_crash_writer)))) false false None)).1.2
  = Exited 1 "WAL verification failed: " (Some InvalidWalHeader).
Proof. vm_compute. reflexivity. Qed.
End witnesses.
