(* ===== verification/Runtime.v ===== *)
(** * Starting the queue and submitting to it ([runtime.rs], [lib.rs], [handle.rs])

    The storage is opened with recovery, every queue gets a semaphore with its
    capacity, permits are reserved for the recovered jobs, and the coordinator is
    built; clients then take a permit before they send a submission through the
    bounded command channel.  [System] puts the coordinator, the channel and the
    clients together; its steps are the interleavings of client operations with
    turns of the coordinator. *)

From S2P Require Import Prelude Types Config Store Codec ConcreteWire Scanner Writer Recovery.
From S2P Require Import RetryHeap Environment Coordinator.

(** [Storage::open_with_recovery]; the directory is as in [recover]. *)
Definition open_with_recovery `{W : Wire} `{HashIter} (now : UnixMillis) (locked : bool)
    (file : option (list byte)) (config : RuntimeConfig)
    : WalResult (Storage * option RecoveredState) :=
  match cfg_storage config with
  | MemoryStorage => Ok (Storage_Memory, None)
  | WalStorage _ =>
      try '(recovered, wal_file) := recover now locked file config in
      try writer := from_recovered wal_file (rec_next_sequence recovered) in
      Ok (Storage_Wal writer, Some recovered)
  end.

Section runtime.
Context `{W : Wire} `{HI : HashIter} `{RH : RetryHeap} `{SM : Semaphores} `{EN : Env}.

(** ** Start *)

Definition new_semaphores (config : RuntimeConfig) : gmap string Semaphore :=
  foldl (λ m qc, <[as_str (qc_name qc) := sem_new (qc_capacity qc)]> m) ∅ (cfg_queues config).

(** Whether [Semaphore::new] accepts the capacities. *)
Definition capacities_fit (config : RuntimeConfig) : bool :=
  forallb (λ qc, qc_capacity qc <=? MAX_PERMITS) (cfg_queues config).

(** The permits that the recovered jobs of each queue need. *)
Definition permits_needed (recovered : RecoveredState) : gmap string Z :=
  let needed := foldl (λ m '(queue, jobs), bump queue (zlen jobs) m) ∅
                  (hash_iter (rec_queued_jobs recovered)) in
  foldl (λ m '(job_id, _),
           match store_get (rec_store recovered) job_id with
           | Some job =>
               if bool_decide (job_state job = RetryWaiting) then bump (as_str (job_queue job)) 1 m
               else m
           | None => m
           end) needed (rec_retry_jobs recovered).

(** [for _ in 0..count { sem.try_acquire_owned()?; forget }] *)
Fixpoint reserve_n (queue : string) (count : Z) (n : nat) (sem : Semaphore) : Result Semaphore :=
  match n with
  | O => Ok sem
  | S n =>
      match sem_try_acquire sem with
      | (Ok _, sem) => reserve_n queue count n sem
      | (Err _, sem) =>
          Err (Storage_error (RecoveryCapacityExceeded queue count (sem_available sem + count)))
      end
  end.

Fixpoint reserve_all (entries : list (string * Z)) (sems : gmap string Semaphore)
    : Result (gmap string Semaphore) :=
  match entries with
  | [] => Ok sems
  | (queue, count) :: entries =>
      match sems !! queue with
      | Some sem =>
          try sem := reserve_n queue count (Z.to_nat count) sem in
          reserve_all entries (<[queue := sem]> sems)
      | None => reserve_all entries sems
      end
  end.

Definition reserve_permits_for_recovered (sems : gmap string Semaphore) (recovered : RecoveredState)
    : Result (gmap string Semaphore) :=
  reserve_all (hash_iter (permits_needed recovered)) sems.

(** [start] and [Runtime::start], up to the tasks that they spawn.  The clocks are
    read once by recovery and once by the coordinator; [None] inside is a panic. *)
Definition start (t : nat) (locked : bool) (file : option (list byte)) (config : RuntimeConfig)
    : Result (option Coordinator) :=
  try _ := RuntimeConfig_validate config in
  try '(storage, recovered) := map_err Storage_error (open_with_recovery (env_wall t) locked file config) in
  if negb (capacities_fit config) then Ok None
  else
    let sems := new_semaphores config in
    try sems := match recovered with
                | Some rec => reserve_permits_for_recovered sems rec
                | None => Ok sems
                end in
    Ok (if MAX_PERMITS <? channel_capacity config then None
        else with_rng_and_recovery (env_instant (S t)) (env_wall (S t)) config storage sems (env_token (S t))
               recovered).

(** ** Clients *)

(** [try_submit] up to the message: the lookup and the non-blocking permit. *)
Definition try_submit (queue : QueueName) (spec : JobSpec) (reply : Sender) : act (Result Command) :=
  c ← get;
  match co_semaphores c !! as_str queue with
  | None => mret (Err (QueueNotFound (as_str queue)))
  | Some sem =>
      let '(acquired, sem) := sem_try_acquire sem in
      modify (λ c, set_semaphores (<[as_str queue := sem]> (co_semaphores c)) c);;
      match acquired with
      | Ok _ => mret (Ok (Cmd_Submit queue spec (as_str queue) reply))
      | Err _ => mret (Err (QueueFull (as_str queue)))
      end
  end.

(** [submit]: the same with a permit that is waited for; [None] while there is
    none. *)
Definition submit (queue : QueueName) (spec : JobSpec) (reply : Sender)
    : act (option (Result Command)) :=
  c ← get;
  match co_semaphores c !! as_str queue with
  | None => mret (Some (Err (QueueNotFound (as_str queue))))
  | Some sem =>
      let '(acquired, sem) := sem_try_acquire sem in
      match acquired with
      | Ok _ =>
          modify (λ c, set_semaphores (<[as_str queue := sem]> (co_semaphores c)) c);;
          mret (Some (Ok (Cmd_Submit queue spec (as_str queue) reply)))
      | Err Closed => mret (Some (Err ShuttingDown))
      | Err NoPermits => mret None
      end
  end.

(** [QueueHandle::shutdown] *)
Definition handle_shutdown : act unit := close_semaphores.

(** ** The system *)

Record System := mkSystem {
  sys_state : State;
  (** the commands whose senders wait for a place in the channel, a submission
      with its permit *)
  sys_waiting : list Command;
  (** the commands in the channel, oldest first *)
  sys_channel : list Command;
  sys_running : bool;
}.

(** The permits of the submissions that are dropped with the channel. *)
Definition drop_command (cmd : Command) (s : State) : State :=
  match cmd with
  | Cmd_Submit _ _ permit _ =>
      mkState (set_semaphores (alter sem_release permit (co_semaphores (coord s))) (coord s))
        (tick s) (trace s)
  | _ => s
  end.

Definition is_submit_command (cmd : Command) : bool :=
  match cmd with Cmd_Submit _ _ _ _ => true | _ => false end.

Inductive sys_step : System → System → Prop :=
(** a client got a permit; its message has no place in the channel yet *)
| step_try_submit queue spec reply s s' cmd wt ch b :
    try_submit queue spec reply s = Some (Ok cmd, s') → u32_range (max_attempts spec) →
    sys_step (mkSystem s wt ch b) (mkSystem s' (wt ++ [cmd]) ch b)
| step_submit queue spec reply s s' cmd wt ch b :
    submit queue spec reply s = Some (Some (Ok cmd), s') → u32_range (max_attempts spec) →
    sys_step (mkSystem s wt ch b) (mkSystem s' (wt ++ [cmd]) ch b)
(** a status, cancel or statistics request, a worker, or a shutdown *)
| step_request cmd s wt ch b :
    is_submit_command cmd = false → sys_step (mkSystem s wt ch b) (mkSystem s (wt ++ [cmd]) ch b)
(** a sender gets a place *)
| step_send i cmd s wt ch :
    wt !! i = Some cmd → zlen ch < channel_capacity (co_config (coord s)) →
    sys_step (mkSystem s wt ch true) (mkSystem s (delete i wt) (ch ++ [cmd]) true)
(** a sender gives up, or learns that the coordinator is gone *)
| step_abandon i cmd s wt ch b :
    wt !! i = Some cmd →
    sys_step (mkSystem s wt ch b) (mkSystem (drop_command cmd s) (delete i wt) ch b)
| step_close s s' wt ch b :
    handle_shutdown s = Some ((), s') → sys_step (mkSystem s wt ch b) (mkSystem s' wt ch b)
(** a turn of the coordinator that handles the oldest command *)
| step_command s s1 s2 nd cmd wt ch :
    turn s = Some (Some nd, s1) → handle cmd s1 = Some ((), s2) →
    sys_step (mkSystem s wt (cmd :: ch) true) (mkSystem s2 wt ch true)
(** a turn that ends with the timer: no command, and a deadline that is past *)
| step_timer s s1 d wt :
    turn s = Some (Some (Some d), s1) → d ≤ env_instant (tick s1) →
    sys_step (mkSystem s wt [] true) (mkSystem s1 wt [] true)
(** the last turn; what is left in the channel is dropped *)
| step_stop s s1 wt ch :
    turn s = Some (None, s1) →
    sys_step (mkSystem s wt ch true) (mkSystem (foldr drop_command s1 ch) wt [] false).
End runtime.

Arguments System {_ _}.

Ltac sys_simpl := cbn [sys_state sys_waiting sys_channel sys_running] in *.
