(* ===== verification/RuntimeProofs.v ===== *)
(** * Capacity

    The semaphores of the runtime bound the number of unfinished jobs of every
    queue, through recovery, concurrent clients, failures and shutdown; and what
    happens to the permits that are reserved for recovered jobs. *)

From S2P Require Import Prelude Types Config Store Codec ConcreteWire Scanner Writer Recovery.
From S2P Require Import RecoveryProofs RetryHeap Environment Coordinator QueueInv CoordinatorInv.
From S2P Require Import CoordinatorSafe CoordinatorLoop CoordinatorInit CoordinatorProps Durability.
From S2P Require Import RecoveryTotal Runtime.

(** ** Unfinished jobs and their permits *)

Definition live_ids (q : string) (st : MemoryStore) : gset JobId :=
  dom (filter (λ e, live_in q e.2 = true) st).
Definition held_ids (q : string) (permits : gmap JobId string) : gset JobId :=
  dom (filter (λ e, bool_decide (e.2 = q) = true) permits).

(** The unfinished jobs of a queue for which the coordinator holds no permit. *)
Definition unheld (q : string) (st : MemoryStore) (permits : gmap JobId string) : gset JobId :=
  live_ids q st ∖ held_ids q permits.

Lemma elem_of_live_ids q st id :
  id ∈ live_ids q st ↔ ∃ job, st !! id = Some job ∧ live_in q job = true.
Proof.
  unfold live_ids. rewrite elem_of_dom. unfold is_Some. by setoid_rewrite map_lookup_filter_Some.
Qed.

Lemma elem_of_held_ids q permits id : id ∈ held_ids q permits ↔ permits !! id = Some q.
Proof.
  unfold held_ids. rewrite elem_of_dom. unfold is_Some. setoid_rewrite map_lookup_filter_Some. cbn.
  setoid_rewrite bool_decide_eq_true. naive_solver.
Qed.

Lemma elem_of_unheld q st permits id :
  id ∈ unheld q st permits ↔
    (∃ job, st !! id = Some job ∧ live_in q job = true) ∧ permits !! id ≠ Some q.
Proof. unfold unheld. by rewrite elem_of_difference, elem_of_held_ids, elem_of_live_ids. Qed.

Lemma live_split q st permits :
  permits_ok st permits →
  count_jobs (live_in q) st = held q permits + Z.of_nat (size (unheld q st permits)).
Proof.
  intros Hok. assert (held_ids q permits ⊆ live_ids q st) as Hsub.
  { intros id. rewrite elem_of_held_ids, elem_of_live_ids. intros Hp.
    destruct (Hok _ _ Hp) as (job & Hj & Hl & Hq). exists job. by rewrite live_in_spec. }
  unfold count_jobs, held, mcount, unheld.
  change (size (filter (λ p, live_in q p.2 = true) st)) with (size (filter (λ e, live_in q e.2 = true) st)).
  rewrite <-!(size_dom (D := gset JobId)), size_difference by done.
  pose proof (subseteq_size _ _ Hsub). unfold live_ids, held_ids in *. lia.
Qed.

Section capacity.
Context `{W : Wire} `{HI : HashIter} `{RH : RetryHeap} `{!RetryHeapLaws RH}.
Context `{SM : Semaphores} `{!SemaphoresLaws SM} `{EN : Env} `{!EnvLaws EN}.
Context (P : nat → Storage → MemoryStore → Prop) `{!LogInv P}.

Abbreviation unheld_of s q := (unheld q (co_store (coord s)) (co_permits (coord s))).

Lemma unheld_mono k s s' q : inv P s' → frame k s s' → unheld_of s' q ⊆ unheld_of s q.
Proof.
  intros I' F id. rewrite !elem_of_unheld. intros ((job' & Hj' & [Hq Hl]%live_in_spec) & Hno).
  assert (co_permits (coord s') !! id = None) as Hp.
  { destruct (co_permits (coord s') !! id) as [p|] eqn:Hp; [|done].
    destruct (i_permits _ _ I' _ _ Hp) as (j & Hj & _ & Hjp). congruence. }
  destruct (fr_held _ _ _ F _ _ Hj' Hl Hp) as (job & Hj & Hlj & Hpj).
  destruct (fr_store _ _ _ F _ _ Hj) as (j2 & Hj2 & (_ & Hqq & _) & _). simplify_eq.
  split; [|congruence]. exists job. rewrite live_in_spec. split_and!; [done|congruence|done].
Qed.

(** ** The invariant of the system *)

(** The permits in the channel. *)
Definition in_flight (ch : list Command) (q : string) : Z :=
  foldr (λ cmd acc, cmd_permits cmd q + acc) 0 ch.

Lemma in_flight_app ch ch' q : in_flight (ch ++ ch') q = in_flight ch q + in_flight ch' q.
Proof. unfold in_flight. induction ch as [|cmd ch IH]; cbn; [done|]. rewrite IH. lia. Qed.

Lemma in_flight_delete wt i cmd q :
  wt !! i = Some cmd → in_flight (delete i wt) q = in_flight wt q - cmd_permits cmd q.
Proof.
  intros Hi. rewrite delete_take_drop. rewrite <-(take_drop_middle wt i cmd Hi) at 3.
  rewrite !in_flight_app. unfold in_flight. cbn [foldr]. lia.
Qed.

Lemma cmd_permits_nonneg cmd q : 0 ≤ cmd_permits cmd q.
Proof. destruct cmd; cbn; try lia. unfold one_permit, b2z. case_match; lia. Qed.

Lemma in_flight_nonneg ch q : 0 ≤ in_flight ch q.
Proof. unfold in_flight. induction ch as [|cmd ch IH]; cbn; [lia|]. pose proof (cmd_permits_nonneg cmd q). lia. Qed.

(** [cap q] permits exist for queue [q], [lost q] of which were reserved at the
    start and are held by nobody. *)
Record sys_inv (order : list string) (cap lost : string → Z) (sys : System) : Prop := {
  s_inv : inv P (sys_state sys);
  s_order : co_queue_order (coord (sys_state sys)) = order;
  s_cmds : Forall (cmd_ok (co_queue_order (coord (sys_state sys)))) (sys_channel sys);
  s_waiting : Forall (cmd_ok (co_queue_order (coord (sys_state sys)))) (sys_waiting sys);
  s_balance : ∀ q, q ∈ co_queue_order (coord (sys_state sys)) →
    permit_total (coord (sys_state sys)) q + in_flight (sys_channel sys) q
    + in_flight (sys_waiting sys) q + lost q = cap q;
  s_free : ∀ q, q ∈ co_queue_order (coord (sys_state sys)) →
    0 ≤ free q (co_semaphores (coord (sys_state sys)));
  s_lost : ∀ q, Z.of_nat (size (unheld_of (sys_state sys) q)) ≤ lost q;
}.

(** The coordinator's part of a step. *)
Lemma sys_inv_frame order cap lost s s' wt wt' ch ch' b b' k :
  sys_inv order cap lost (mkSystem s wt ch b) → inv P s' → frame k s s' →
  Forall (cmd_ok (co_queue_order (coord s))) ch' → Forall (cmd_ok (co_queue_order (coord s))) wt' →
  (∀ q, in_flight ch' q + in_flight wt' q = in_flight ch q + in_flight wt q - k q) →
  sys_inv order cap lost (mkSystem s' wt' ch' b').
Proof.
  intros [I Hor Hc Hw Hb Hf Hl] I' F Hc' Hw' Hk. sys_simpl. pose proof (fr_order _ _ _ F) as Ho.
  split; sys_simpl; rewrite ?Ho; try done.
  - intros q Hq. destruct (fr_permits _ _ _ F q) as [_ Ht]; [by apply (i_order _ _ I)|].
    rewrite Ht. specialize (Hb q Hq). specialize (Hk q). lia.
  - intros q Hq. etrans; [by apply Hf|]. apply (fr_free _ _ _ F). by apply (i_order _ _ I).
  - intros q. etrans; [|apply (Hl q)]. apply inj_le, subseteq_size. by eapply unheld_mono.
Qed.

(** Taking a permit. *)
Definition acquired (q : string) (sem : Semaphore) (s : State) : State :=
  mkState (set_semaphores (<[q := sem]> (co_semaphores (coord s))) (coord s)) (tick s) (trace s).

Lemma free_insert q q' sem sems :
  free q' (<[q := sem]> sems) = if bool_decide (q = q') then sem_available sem else free q' sems.
Proof.
  unfold free. case_bool_decide as Hq; [subst; by rewrite lookup_insert_eq|by rewrite lookup_insert_ne].
Qed.

Lemma sys_inv_acquire order cap lost s wt ch b q sem sem' cmd :
  sys_inv order cap lost (mkSystem s wt ch b) → co_semaphores (coord s) !! q = Some sem →
  sem_try_acquire sem = (Ok (), sem') → cmd_ok (co_queue_order (coord s)) cmd →
  cmd_permits cmd = one_permit q →
  sys_inv order cap lost (mkSystem (acquired q sem' s) (wt ++ [cmd]) ch b).
Proof.
  intros [I Hor Hc Hw Hb Hf Hl] Hsem Hacq Hcmd Hpm. sys_simpl.
  destruct (sem_try_acquire_spec sem) as (Hres & Hav & _). rewrite Hacq in Hres, Hav. cbn in Hres, Hav.
  assert (0 < sem_available sem) as Hpos.
  { destruct (sem_is_closed sem); [done|]. by destruct (Z.leb_spec (sem_available sem) 0). }
  assert (free q (co_semaphores (coord s)) = sem_available sem) as Hfree by (unfold free; by rewrite Hsem).
  assert (∀ q', free q' (<[q := sem']> (co_semaphores (coord s)))
    = free q' (co_semaphores (coord s)) - one_permit q q') as Hfree'.
  { intros q'. rewrite free_insert. unfold one_permit. case_bool_decide; cbn [b2z]; [subst; lia|lia]. }
  split; sys_simpl; unfold acquired; st_simpl; try done.
  - split; st_simpl; try apply I. intros q'. destruct (decide (q = q')) as [<-|Hne].
    + rewrite lookup_insert_eq, <-(i_sems _ _ I), Hsem. by split.
    + rewrite lookup_insert_ne by done. apply I.
  - apply Forall_app. split; [done|]. by constructor.
  - intros q' Hq'. specialize (Hb q' Hq'). rewrite in_flight_app. unfold permit_total in *. st_simpl.
    rewrite Hfree'. cbn [in_flight foldr]. rewrite Hpm. lia.
  - intros q' Hq'. specialize (Hf q' Hq'). rewrite free_insert. case_bool_decide; [|done]. lia.
Qed.

Lemma drop_command_ok s cmd :
  inv P s → cmd_ok (co_queue_order (coord s)) cmd →
  inv P (drop_command cmd s) ∧ frame (cmd_permits cmd) s (drop_command cmd s).
Proof.
  intros I Hcmd. destruct cmd; cbn [drop_command cmd_permits]; try (split; [done|apply frame_refl]).
  destruct Hcmd as (-> & Hq & _). apply (dropped_ok P s s _ I (frame_refl s)).
  by apply (i_sems _ _ I), (i_order _ _ I).
Qed.

Lemma drop_commands_ok s ch :
  inv P s → Forall (cmd_ok (co_queue_order (coord s))) ch →
  inv P (foldr drop_command s ch) ∧ frame (in_flight ch) s (foldr drop_command s ch).
Proof.
  intros I. induction ch as [|cmd ch IH]; intros Hch; cbn [foldr].
  { split; [done|apply frame_refl]. }
  apply Forall_cons in Hch as [Hcmd Hch]. destruct (IH Hch) as [I1 F1].
  destruct (drop_command_ok _ cmd I1) as [I2 F2]; [by rewrite (fr_order _ _ _ F1)|].
  split; [done|]. refine (frame_mono _ _ _ _ _ (frame_trans _ _ _ _ _ F1 F2)).
  intros q. unfold in_flight. cbn [foldr]. lia.
Qed.

(** Every step of the system keeps the balance. *)
Lemma sys_step_inv order cap lost sys sys' :
  sys_inv order cap lost sys → sys_step sys sys' → sys_inv order cap lost sys'.
Proof.
  intros SI Hstep. pose proof (s_inv _ _ _ _ SI) as I. pose proof (s_cmds _ _ _ _ SI) as Hcmds.
  pose proof (s_waiting _ _ _ _ SI) as Hwait.
  destruct Hstep as [queue spec reply s s' cmd wt ch b Hsub Hmax|queue spec reply s s' cmd wt ch b Hsub Hmax
    |cmd s wt ch b Hcmd|i cmd s wt ch Hi _|i cmd s wt ch b Hi|s s' wt ch b Hclose|s s1 s2 nd cmd wt ch Hturn Hh
    |s s1 d wt Hturn _|s s1 wt ch Hturn]; sys_simpl.
  - unfold try_submit, mbind, action_bind, mret, action_ret, get, modify in Hsub. cbn in Hsub.
    destruct (co_semaphores (coord s) !! as_str queue) as [sem|] eqn:Hsem; [|done].
    destruct (sem_try_acquire sem) as [[[]|e] sem'] eqn:Hacq; cbn in Hsub; simplify_eq.
    eapply (sys_inv_acquire order cap lost s wt ch b (as_str queue)); try done. cbn. split_and!; [done| |done].
    by apply (i_order _ _ I), (i_sems _ _ I).
  - unfold submit, mbind, action_bind, mret, action_ret, get, modify in Hsub. cbn in Hsub.
    destruct (co_semaphores (coord s) !! as_str queue) as [sem|] eqn:Hsem; [|done].
    destruct (sem_try_acquire sem) as [[[]|[]] sem'] eqn:Hacq; cbn in Hsub; simplify_eq.
    eapply (sys_inv_acquire order cap lost s wt ch b (as_str queue)); try done. cbn. split_and!; [done| |done].
    by apply (i_order _ _ I), (i_sems _ _ I).
  - eapply (sys_inv_frame order cap lost s s wt _ ch _ _ _ (λ _, 0)); [done|done|apply frame_refl|done| |].
    + apply Forall_app. split; [done|]. constructor; [by destruct cmd|done].
    + intros q. rewrite in_flight_app. destruct cmd; done || (cbn; lia).
  - eapply (sys_inv_frame order cap lost s s wt _ ch _ _ _ (λ _, 0)); [done|done|apply frame_refl| | |].
    + apply Forall_app. split; [done|]. constructor; [by eapply Forall_lookup_1|done].
    + by apply Forall_delete.
    + intros q. rewrite in_flight_app, (in_flight_delete _ _ _ _ Hi). cbn [in_flight foldr]. lia.
  - destruct (drop_command_ok s cmd I) as [I' F]; [by eapply Forall_lookup_1|].
    eapply (sys_inv_frame order cap lost s _ wt _ ch); [done|done|exact F|done|by apply Forall_delete|].
    intros q. rewrite (in_flight_delete _ _ _ _ Hi). lia.
  - destruct (wp_result _ _ _ _ _ (close_semaphores_safe P s I) Hclose) as (I' & F & _).
    eapply (sys_inv_frame order cap lost s s' wt _ ch _ _ _ (λ _, 0)); try done. intros q. lia.
  - apply Forall_cons in Hcmds as [Hcmd Hch].
    destruct (wp_result _ _ _ _ _ (turn_safe P s I) Hturn) as (I1 & F1 & _).
    rewrite <-(fr_order _ _ _ F1) in Hcmd.
    destruct (wp_result _ _ _ _ _ (handle_safe P s1 cmd I1 Hcmd) Hh) as (I2 & F2 & _).
    eapply (sys_inv_frame order cap lost s s2 wt _ (cmd :: ch));
      [done|done|eapply frame_trans; [exact F1|exact F2]|done|done|].
    intros q. unfold in_flight. cbn [foldr]. lia.
  - destruct (wp_result _ _ _ _ _ (turn_safe P s I) Hturn) as (I1 & F1 & _).
    eapply (sys_inv_frame order cap lost s s1 wt _ [] _ _ _ (λ _, 0)); try done. intros q. lia.
  - destruct (wp_result _ _ _ _ _ (turn_safe P s I) Hturn) as (I1 & F1 & _).
    destruct (drop_commands_ok s1 ch I1) as [I2 F2]; [by rewrite (fr_order _ _ _ F1)|].
    eapply (sys_inv_frame order cap lost s _ wt _ ch);
      [done|done|eapply frame_trans; [exact F1|exact F2]|constructor|done|].
    intros q. cbn [in_flight foldr]. lia.
Qed.

Lemma sys_reachable_inv order cap lost sys sys' :
  sys_inv order cap lost sys → rtc sys_step sys sys' → sys_inv order cap lost sys'.
Proof. intros SI Hr. induction Hr as [|x y z Hxy _ IH]; [done|]. by eapply IH, sys_step_inv. Qed.

(** The unfinished jobs of a queue never exceed its permits. *)
Lemma sys_inv_capacity order cap lost sys q :
  sys_inv order cap lost sys → q ∈ order →
  count_jobs (live_in q) (co_store (coord (sys_state sys))) ≤ cap q.
Proof.
  intros [I Hor Hc Hw Hb Hf Hl] Hq. subst order. rewrite (live_split q _ (co_permits (coord (sys_state sys)))) by apply I.
  specialize (Hb q Hq). specialize (Hf q Hq). specialize (Hl q).
  pose proof (in_flight_nonneg (sys_channel sys) q). pose proof (in_flight_nonneg (sys_waiting sys) q).
  unfold permit_total in Hb. lia.
Qed.
End capacity.


(** ** The permits at the start *)

Section start.
Context `{W : Wire} `{!WireLaws W} `{HI : HashIter} `{RH : RetryHeap} `{!RetryHeapLaws RH}.
Context `{SM : Semaphores} `{!SemaphoresLaws SM} `{EN : Env} `{!EnvLaws EN}.

Lemma new_semaphores_eq config : new_semaphores config = sem_new <$> config_queues config.
Proof.
  unfold new_semaphores, config_queues. rewrite <-(fmap_empty sem_new). generalize (∅ : gmap string Z).
  induction (cfg_queues config) as [|qc qcs IH]; intros m; cbn [foldl]; [done|].
  by rewrite <-IH, fmap_insert.
Qed.

Lemma config_queues_is_Some config q :
  is_Some (config_queues config !! q) ↔ q ∈ queue_names (cfg_queues config).
Proof.
  split; [apply config_queues_names|]. unfold config_queues, queue_names.
  generalize (∅ : gmap string Z). induction (cfg_queues config) as [|qc qcs IH]; intros m.
  { by intros ?%elem_of_nil. }
  rewrite fmap_cons. intros [->|Hin]%elem_of_cons; [|by apply IH]. cbn [foldl].
  generalize (qc_capacity qc). clear. intros z. assert (is_Some ((<[as_str (qc_name qc) := z]> m) !! as_str (qc_name qc))) as Hm
    by (rewrite lookup_insert_eq; by eexists).
  revert Hm. generalize (<[as_str (qc_name qc) := z]> m). clear m z.
  induction qcs as [|qc' qcs IH]; intros m Hm; [done|]. cbn [foldl]. apply IH.
  destruct (decide (as_str (qc_name qc') = as_str (qc_name qc))) as [->|Hne];
    [rewrite lookup_insert_eq; by eexists|by rewrite lookup_insert_ne].
Qed.

Lemma new_semaphores_for config : sems_for config (new_semaphores config).
Proof. intros q. by rewrite new_semaphores_eq, lookup_fmap, fmap_is_Some, config_queues_is_Some. Qed.

(** What a successful start has checked and built. *)
Lemma start_ok t locked file config c :
  start t locked file config = Ok (Some c) →
  ∃ sto recd sems, RuntimeConfig_validate config = Ok ()
    ∧ open_with_recovery (env_wall t) locked file config = Ok (sto, recd)
    ∧ capacities_fit config = true ∧ channel_capacity config ≤ MAX_PERMITS
    ∧ match recd with
      | Some rec => reserve_permits_for_recovered (new_semaphores config) rec
      | None => Ok (new_semaphores config)
      end = Ok sems
    ∧ with_rng_and_recovery (env_instant (S t)) (env_wall (S t)) config sto sems (env_token (S t)) recd = Some c.
Proof.
  unfold start. intros H. apply rbind_ok in H as ([] & Hv & H). apply rbind_ok in H as ([sto recd] & Hopen & H).
  destruct (capacities_fit config); [|done]. cbn [negb] in H. apply rbind_ok in H as (sems & Hs & [= Hc]).
  destruct (Z.ltb_spec MAX_PERMITS (channel_capacity config)); [done|]. exists sto, recd, sems.
  split_and!; try done. by destruct (open_with_recovery _ _ _ _); cbn in Hopen; simplify_eq.
Qed.

Lemma capacities_fit_le config q cap :
  capacities_fit config = true → config_queues config !! q = Some cap → cap ≤ MAX_PERMITS.
Proof.
  unfold capacities_fit. rewrite forallb_forall. intros Hall [Hm|(qc & Hin & _ & <-)]%config_queues_elem.
  - by rewrite lookup_empty in Hm.
  - apply Z.leb_le, Hall. by apply list_elem_of_In.
Qed.

Lemma free_new_semaphores config q :
  capacities_fit config = true → 0 ≤ capacity_of config q → free q (new_semaphores config) = capacity_of config q.
Proof.
  intros Hfit Hcap. unfold free, capacity_of in *. rewrite new_semaphores_eq, lookup_fmap.
  destruct (config_queues config !! q) as [n|] eqn:Hn; cbn in *; [|done]. apply sem_new_spec.
  split; [done|]. by eapply capacities_fit_le.
Qed.

(** Reserving succeeds only while there are permits. *)
Lemma reserve_n_ok queue count n sem sem' :
  reserve_n queue count n sem = Ok sem' →
  sem_available sem' = sem_available sem - Z.of_nat n
  ∧ (0 ≤ sem_available sem → 0 ≤ sem_available sem').
Proof.
  revert sem; induction n as [|n IH]; intros sem H; cbn [reserve_n] in H.
  { simplify_eq. split; lia. }
  destruct (sem_try_acquire_spec sem) as (Hr & Ha & _).
  destruct (sem_try_acquire sem) as [[[]|e] s1]; [|done]. cbn in Hr, Ha.
  assert (0 < sem_available sem).
  { destruct (sem_is_closed sem); [done|]. by destruct (Z.leb_spec (sem_available sem) 0). }
  apply IH in H as [H1 H2]. lia.
Qed.

Lemma reserve_all_ok entries sems sems' :
  NoDup entries.*1 → (∀ q n, (q, n) ∈ entries → 0 ≤ n) → reserve_all entries sems = Ok sems' →
  ∀ q, (is_Some (sems' !! q) ↔ is_Some (sems !! q))
    ∧ (is_Some (sems !! q) →
       free q sems' = free q sems - default 0 ((list_to_map entries : gmap string Z) !! q)
       ∧ (0 ≤ free q sems → 0 ≤ free q sems')).
Proof.
  revert sems; induction entries as [|[k n] entries IH]; intros sems Hnd Hpos H q; cbn [reserve_all] in H.
  { simplify_eq. split; [done|]. intros _. cbn. rewrite lookup_empty. cbn. lia. }
  cbn in Hnd. apply NoDup_cons in Hnd as [Hni Hnd]. cbn [list_to_map foldr]. cbn.
  assert (0 ≤ n) as Hn by (eapply Hpos; left).
  assert (∀ q n, (q, n) ∈ entries → 0 ≤ n) as Hpos' by (intros ???; eapply Hpos; by right).
  destruct (sems !! k) as [sem|] eqn:Hk.
  - apply rbind_ok in H as (sem' & Hr & H). apply reserve_n_ok in Hr as [Ha Hge].
    rewrite Z2Nat.id in Ha by done. destruct (IH _ Hnd Hpos' H q) as [Hdom Hfree].
    destruct (decide (k = q)) as [<-|Hne].
    + rewrite lookup_insert_eq. rewrite !lookup_insert_eq in Hdom. rewrite !lookup_insert_eq in Hfree. rewrite Hdom. split; [by rewrite Hk|]. intros _.
      destruct Hfree as [Hf Hf0]; [by eexists|]. rewrite (not_elem_of_list_to_map_1 _ _ Hni) in Hf.
      rewrite free_insert, bool_decide_true in Hf, Hf0 by done. cbn in *.
      assert (free k sems = sem_available sem) as -> by (unfold free; by rewrite Hk). lia.
    + rewrite lookup_insert_ne by done. rewrite lookup_insert_ne in Hdom by done.
      rewrite lookup_insert_ne in Hfree by done. split; [done|].
      rewrite free_insert, bool_decide_false in Hfree by done. done.
  - destruct (IH _ Hnd Hpos' H q) as [Hdom Hfree]. split; [done|]. intros Hq.
    destruct (decide (k = q)) as [<-|Hne]; [rewrite Hk in Hq; by destruct Hq|].
    rewrite lookup_insert_ne by done. by apply Hfree.
Qed.
(** The loops count the unfinished jobs. *)
Lemma needed_queued l (m : gmap string Z) q :
  NoDup l.*1 →
  default 0 (foldl (λ m '(queue, jobs), bump queue (zlen jobs) m) m l !! q) =
    default 0 (m !! q) + zlen (default [] ((list_to_map l : gmap string (list JobId)) !! q)).
Proof.
  revert m; induction l as [|[k ids] l IH]; intros m Hnd; cbn [foldl].
  { cbn. rewrite lookup_empty. cbn. lia. }
  cbn in Hnd. apply NoDup_cons in Hnd as [Hni Hnd]. rewrite IH, bump_lookup by done. cbn.
  destruct (decide (k = q)) as [<-|Hne]; [|rewrite lookup_insert_ne by done; lia].
  rewrite lookup_insert_eq, (not_elem_of_list_to_map_1 _ _ Hni). cbn. lia.
Qed.

Lemma needed_retry st l (m : gmap string Z) q :
  default 0 (foldl (λ m '(job_id, _),
       match store_get st job_id with
       | Some job =>
           if bool_decide (job_state job = RetryWaiting) then bump (as_str (job_queue job)) 1 m else m
       | None => m
       end) m l !! q) = default 0 (m !! q) + retry_count st l q.
Proof.
  revert m; induction l as [|[i a] l IH]; intros m; cbn [foldl]; [unfold retry_count; cbn; lia|].
  rewrite IH. unfold retry_count. rewrite fmap_cons, filter_cons. cbn [fst]. unfold store_get, is_waiting.
  destruct (st !! i) as [job|]; [|by rewrite decide_False]. unfold in_queue.
  destruct (bool_decide (job_state job = RetryWaiting)); [|rewrite andb_false_r, decide_False by done; lia].
  rewrite bump_lookup, andb_true_r. repeat case_decide; rewrite ?bool_decide_eq_true in *; try done; cbn [length]; lia.
Qed.

Lemma permits_needed_lookup rec q :
  default 0 (permits_needed rec !! q) =
    zlen (default [] (rec_queued_jobs rec !! q)) + retry_count (rec_store rec) (rec_retry_jobs rec) q.
Proof.
  unfold permits_needed. rewrite needed_retry, needed_queued by apply hash_iter_NoDup_fst.
  rewrite (list_to_map_proper (hash_iter (rec_queued_jobs rec)) (map_to_list (rec_queued_jobs rec))),
    list_to_map_to_list by (apply hash_iter_NoDup_fst || apply hash_iter_perm).
  rewrite lookup_empty. cbn. lia.
Qed.

Lemma permits_needed_live config t rec q :
  recovered_ok config t rec →
  default 0 (permits_needed rec !! q) = count_jobs (live_in q) (rec_store rec).
Proof.
  intros R. rewrite permits_needed_lookup. destruct (ro_queued _ _ _ R q) as [Hnd Hin].
  assert (∀ id, id ∈ filter (λ id, is_waiting (rec_store rec) q id = true) (rec_retry_jobs rec).*1 ↔
    ∃ job, rec_store rec !! id = Some job ∧ in_queue q RetryWaiting job = true) as Hret.
  { intros id. rewrite list_elem_of_filter, (ro_retry _ _ _ R). unfold is_waiting.
    destruct (rec_store rec !! id) as [job|]; setoid_rewrite in_queue_spec; naive_solver. }
  unfold retry_count. rewrite <-Nat2Z.inj_add, <-length_app. symmetry. apply mcount_list.
  - apply NoDup_app. split_and!; [done| |].
    + intros id (j1 & H1 & Hq1%in_queue_spec)%Hin (j2 & H2 & Hq2%in_queue_spec)%Hret. simplify_eq. naive_solver congruence.
    + eapply sublist_NoDup; [apply (ro_retry_NoDup _ _ _ R)|apply sublist_filter].
  - intros id. rewrite elem_of_app, Hin, Hret. pose proof (ro_not_running _ _ _ R id) as Hnr.
    setoid_rewrite in_queue_spec. setoid_rewrite live_in_spec. split.
    + intros [(job & Hj & Hq & Hs)|(job & Hj & Hq & Hs)]; exists job; by rewrite Hs.
    + intros (job & Hj & Hq & Hl). specialize (Hnr _ Hj).
      destruct (job_state job) eqn:Hs; try done; [left|right]; by exists job.
Qed.

(** After a reservation, the permits that are not free are as many as the
    recovered unfinished jobs. *)
Lemma reserved_ok config t rec sems :
  recovered_ok config t rec → capacities_fit config = true → (∀ q, 0 ≤ capacity_of config q) →
  reserve_permits_for_recovered (new_semaphores config) rec = Ok sems →
  sems_for config sems
  ∧ ∀ q, q ∈ queue_names (cfg_queues config) →
      free q sems + count_jobs (live_in q) (rec_store rec) = capacity_of config q ∧ 0 ≤ free q sems.
Proof.
  intros R Hcf Hcap Hres. assert (∀ q n, permits_needed rec !! q = Some n → 0 ≤ n) as Hpos.
  { intros q n Hn. pose proof (permits_needed_lookup rec q) as Hl. rewrite Hn in Hl. cbn in Hl.
    unfold retry_count in Hl. lia. }
  pose proof (reserve_all_ok _ _ _ (hash_iter_NoDup_fst _)
    (λ q n Hin, Hpos q n (proj1 (elem_of_hash_iter _ _ _) Hin)) Hres) as H.
  rewrite (list_to_map_proper (hash_iter (permits_needed rec)) (map_to_list (permits_needed rec))),
    list_to_map_to_list in H by (apply hash_iter_NoDup_fst || apply hash_iter_perm).
  split.
  - intros q. destruct (H q) as [-> _]. apply new_semaphores_for.
  - intros q Hq. destruct (H q) as [_ Hf]. destruct Hf as [Hf Hge]; [by apply new_semaphores_for|].
    rewrite free_new_semaphores, (permits_needed_live config t) in * by done. specialize (Hcap q). lia.
Qed.
(** There is no log yet, or the one that a coordinator left when it was killed
    before tick [t]. *)
Definition log_left (t : nat) (file : option (list byte)) : Prop :=
  file = None
  ∨ ∃ s w, inv durable s ∧ small (tick s) ∧ (tick s ≤ t)%nat
      ∧ co_storage (coord s) = Storage_Wal w ∧ file = Some (wt_file (ww_thread w))
      ∧ zlen (wt_file (ww_thread w)) ≤ u64_max.

Lemma recovered_ok_later config t t' rec :
  recovered_ok config t rec → (t ≤ t')%nat → recovered_ok config t' rec.
Proof.
  intros R Ht. split; try apply R.
  - intros Hs. assert (small t) as Hst by (unfold small in *; lia). pose proof (ro_epoch _ _ _ R Hst). lia.
  - intros t'' Ht'. apply (ro_fresh _ _ _ R). lia.
Qed.

Lemma empty_recovered_ok config t : recovered_ok config t empty_recovered.
Proof.
  split; cbn [empty_recovered rec_store rec_queued_jobs rec_retry_jobs rec_next_lease_epoch]; try done.
  - intros q. rewrite lookup_empty. cbn [default]. split; [constructor|]. intros id.
    setoid_rewrite lookup_empty. rewrite elem_of_nil. naive_solver.
  - constructor.
  - intros id. setoid_rewrite lookup_empty. rewrite elem_of_nil. naive_solver.
  - lia.
Qed.

Lemma log_left_recovered config t locked file rec file' :
  log_left t file → recover (env_wall t) locked file config = Ok (rec, file') →
  recovered_ok config t rec.
Proof.
  intros Hleft Hrec. destruct locked; [done|]. destruct Hleft as [->|(s & w & I & Hs & Ht & Hsto & -> & Hlen)].
  - cbn in Hrec. simplify_eq. apply empty_recovered_ok.
  - eapply recovered_ok_later; [|exact Ht].
    by apply (crash_recovered_ok s w (env_wall t) config rec file' I Hs Hsto Hlen Hrec).
Qed.

(** The first state of the system. *)
Definition started (c : Coordinator) (t : nat) : System := mkSystem (mkState c (S (S t)) []) [] [] true.

(** The store that [open_with_recovery] found in the log. *)
Definition recovered_store (recovered : option RecoveredState) : MemoryStore :=
  from_option rec_store ∅ recovered.

Lemma start_sys_inv P `{!LogInv P} t locked file config c :
  log_left t file → config_fits config → (∀ q, 0 ≤ capacity_of config q) →
  (∀ sto recd, open_with_recovery (env_wall t) locked file config = Ok (sto, recd) →
     P (S (S t)) sto (recovered_store recd)) →
  start t locked file config = Ok (Some c) →
  sys_inv P (queue_names (cfg_queues config)) (capacity_of config)
    (λ q, count_jobs (live_in q) (co_store c)) (started c t).
Proof.
  intros Hleft Hfit Hcap HP (sto & recd & sems & _ & Hopen & Hcf & _ & Hres & Hc)%start_ok.
  pose proof (HP _ _ Hopen) as HPs.
  assert (inv P (mkState c (S (S t)) []) ∧ co_semaphores c = sems ∧ co_permits c = ∅
    ∧ co_queue_order c = queue_names (cfg_queues config)
    ∧ ∀ q, q ∈ queue_names (cfg_queues config) →
        free q sems + count_jobs (live_in q) (co_store c) = capacity_of config q ∧ 0 ≤ free q sems)
    as (I & Hsems & Hpm & Hord & Hfree).
  { destruct recd as [rec|].
    - assert (recovered_ok config t rec) as R.
      { unfold open_with_recovery in Hopen. destruct (cfg_storage config); [done|].
        destruct (recover _ _ _ _) as [[rec' wal]|e] eqn:Hrec; cbn in Hopen; [|done]. simplify_eq.
        by eapply log_left_recovered. }
      destruct (reserved_ok config t rec sems R Hcf Hcap Hres) as [Hsf Hfree].
      split; [eapply (init_recovered _ _ _ config); [eapply recovered_ok_later; [exact R|lia]|done..]|].
      unfold with_rng_and_recovery in Hc. destruct (load_retries _ _ _ _ _ _) as [[h qs]|]; [|done].
      by injection Hc as <-.
    - injection Hres as <-. pose proof (new_semaphores_for config) as Hsf.
      split; [by eapply (init_new _ config)|]. injection Hc as <-. split_and!; try done.
      intros q _. cbn [co_store]. unfold store_new. rewrite free_new_semaphores by done.
      change (count_jobs (live_in q) ∅) with 0.
      specialize (Hcap q). lia. }
  split; cbn [started sys_state sys_waiting sys_channel sys_running coord]; rewrite ?Hord; try done.
  - intros q Hq. destruct (Hfree q Hq) as [Hf _]. unfold permit_total, held, in_flight.
    rewrite Hpm, mcount_empty, Hsems. cbn [foldr]. lia.
  - intros q Hq. rewrite Hsems. by apply Hfree.
  - intros q. rewrite Hpm, (live_split q (co_store c) ∅) by done. unfold held. rewrite mcount_empty. lia.
Qed.

(** C10: the capacity of a queue is a bound on its unfinished jobs, always: in
    every state that the system reaches after [start], on a new log or on one
    that was recovered after a crash, with any interleaving of clients,
    workers, timers, cancellations, failing appends and shutdown. *)
Theorem capacity_respected t locked file config c sys q :
  log_left t file → config_fits config → (∀ q, 0 ≤ capacity_of config q) →
  start t locked file config = Ok (Some c) → rtc sys_step (started c t) sys →
  q ∈ queue_names (cfg_queues config) →
  count_jobs (live_in q) (co_store (coord (sys_state sys))) ≤ capacity_of config q.
Proof.
  intros Hleft Hfit Hcap Hst Hr Hq.
  pose proof (start_sys_inv (λ _ _ _, True) _ _ _ _ _ Hleft Hfit Hcap ltac:(done) Hst) as SI.
  apply (sys_reachable_inv _ _ _ _ _ _ SI) in Hr. by eapply sys_inv_capacity.
Qed.

(** C25: the permits that are reserved for recovered jobs never come back: when
    the system has worked off everything, so that no command is waiting and no
    job of the queue is unfinished, the free permits are the capacity less the
    number of unfinished jobs there were at the start.  The restart of a full
    queue leaves a queue that accepts nothing any more. *)
Theorem recovered_permits_leak t locked file config c sys q :
  log_left t file → config_fits config → (∀ q, 0 ≤ capacity_of config q) →
  start t locked file config = Ok (Some c) → rtc sys_step (started c t) sys →
  q ∈ queue_names (cfg_queues config) → sys_channel sys = [] → sys_waiting sys = [] →
  count_jobs (live_in q) (co_store (coord (sys_state sys))) = 0 →
  free q (co_semaphores (coord (sys_state sys))) =
    capacity_of config q - count_jobs (live_in q) (co_store c).
Proof.
  intros Hleft Hfit Hcap Hst Hr Hq Hch Hwt Hidle.
  pose proof (start_sys_inv (λ _ _ _, True) _ _ _ _ _ Hleft Hfit Hcap ltac:(done) Hst) as SI.
  apply (sys_reachable_inv _ _ _ _ _ _ SI) in Hr as [I Hor _ _ Hb _ _]. rewrite Hor in Hb. specialize (Hb q Hq).
  rewrite Hch, Hwt in Hb. cbn [in_flight foldr] in Hb. unfold permit_total in Hb.
  rewrite (live_split q _ (co_permits (coord (sys_state sys)))) in Hidle by apply I.
  assert (0 ≤ held q (co_permits (coord (sys_state sys)))) by (unfold held, mcount; lia). lia.
Qed.
End start.

(** ** Witnesses *)

Section witnesses.
#[local] Existing Instance canonical_iter.
#[local] Existing Instance sorted_heap.
#[local] Existing Instance counting_semaphores.
#[local] Existing Instance steady_env.

(** The restart after the crash of the example, with one job that waits for its
    retry and one that is queued. *)
Definition ex_left : option (list byte) := Some (wt_file (ww_thread ex_crash_writer)).
Definition ex_restart : Coordinator :=
  match start (tick ex_crash) false ex_left ex_wal_config with Ok (Some c) => c | _ => ex_coord end.

Lemma ex_restart_start : start (tick ex_crash) false ex_left ex_wal_config = Ok (Some ex_restart).
Proof. vm_compute. reflexivity. Qed.

Lemma ex_capacity q : 0 ≤ capacity_of ex_wal_config q.
Proof.
  unfold capacity_of. destruct (config_queues ex_wal_config !! q) as [n|] eqn:Hn; cbn; [|lia].
  apply config_queues_elem in Hn as [Hn|(qc & Hin & _ & <-)]; [by rewrite lookup_empty in Hn|].
  apply list_elem_of_singleton in Hin as ->. vm_compute. discriminate.
Qed.

Lemma ex_log_left : log_left (tick ex_crash) ex_left.
Proof.
  right. exists ex_crash, ex_crash_writer.
  split; [exact ex_crash_inv|]. split; [vm_compute; reflexivity|]. split; [apply Nat.le_refl|].
  split; [vm_compute; reflexivity|]. split; [reflexivity|]. vm_compute. discriminate.
Qed.

(** A client sends a command, and the coordinator handles it in its next turn. *)
Definition ex_served (cmd : Command) (s : State) : option State :=
  match turn s with
  | Some (Some _, s1) => match handle cmd s1 with Some ((), s2) => Some s2 | None => None end
  | _ => None
  end.
Definition ex_serve (cmd : Command) (s : State) : State := default s (ex_served cmd s).

Lemma ex_serve_reached cmd s :
  is_submit_command cmd = false → (0 <? channel_capacity (co_config (coord s))) = true →
  match ex_served cmd s with Some _ => true | None => false end = true →
  rtc sys_step (mkSystem s [] [] true) (mkSystem (ex_serve cmd s) [] [] true).
Proof.
  intros Hc Hcap%Z.ltb_lt Hs. unfold ex_serve, ex_served in *.
  destruct (turn s) as [[[nd|] s1]|] eqn:Ht; [|done..].
  destruct (handle cmd s1) as [[[] s2]|] eqn:Hh; [|done]. cbn [default].
  eapply rtc_l; [by apply (step_request cmd)|]. eapply rtc_l; [by apply (step_send 0 cmd)|].
  eapply rtc_l; [by eapply (step_command s s1 s2)|]. apply rtc_refl.
Qed.

Definition ex_cancel1 : State :=
  ex_serve (Cmd_Cancel (from_uuid 2) 7%N) (mkState ex_restart (S (S (tick ex_crash))) []).
Definition ex_cancelled : State := ex_serve (Cmd_Cancel (from_uuid 15) 8%N) ex_cancel1.

Lemma ex_cancelled_reached :
  rtc sys_step (started ex_restart (tick ex_crash)) (mkSystem ex_cancelled [] [] true).
Proof.
  refine (rtc_trans _ (mkSystem ex_cancel1 [] [] true) _ (ex_serve_reached _ _ _ _ _)
    (ex_serve_reached _ _ _ _ _)); vm_compute; reflexivity.
Qed.

Lemma capacity_respected_witness :
  count_jobs (live_in "q") (co_store (coord (sys_state (mkSystem ex_cancelled [] [] true))))
    ≤ capacity_of ex_wal_config "q".
Proof.
  exact (capacity_respected (tick ex_crash) false ex_left ex_wal_config ex_restart _ "q"
    ex_log_left ex_fits ex_capacity ex_restart_start ex_cancelled_reached (list_elem_of_here _ _)).
Defined.

(** Both recovered jobs are over, and the queue of capacity two is full. *)
Lemma recovered_permits_leak_witness :
  free "q" (co_semaphores (coord (sys_state (mkSystem ex_cancelled [] [] true)))) = 0.
Proof.
  rewrite (recovered_permits_leak (tick ex_crash) false ex_left ex_wal_config ex_restart _ "q"
    ex_log_left ex_fits ex_capacity ex_restart_start ex_cancelled_reached (list_elem_of_here _ _)).
  - vm_compute. reflexivity.
  - reflexivity.
  - reflexivity.
  - vm_compute. reflexivity.
Defined.
End witnesses.
