(* ===== verification/History.v ===== *)
(** * Where the jobs come from

    Jobs get into the store by submissions only: no other handler, and no timer,
    adds one.  Over a run of the system, whose submissions are recorded, every job
    is one that was recovered at the start or one that a client submitted, with the
    queue and the specification of this submission, and the client was told its
    identifier. *)

From S2P Require Import Prelude Types Config Store Codec Scanner Writer Recovery.
From S2P Require Import RecoveryProofs RetryHeap Environment Coordinator Quiet QueueInv CoordinatorInv.
From S2P Require Import CoordinatorSafe CoordinatorLoop CoordinatorInit CoordinatorProps CoordinatorReplies.
From S2P Require Import Durability CliProofs Runtime RuntimeProofs JobMachine Refinement.

(** ** Only submissions add jobs *)

Section jobs.
Context `{W : Wire} `{HI : HashIter} `{RH : RetryHeap} `{SM : Semaphores} `{EN : Env}.

Definition known_jobs (c : Coordinator) : gset JobId := dom (co_store c).

Abbreviation adds_none := (quiet (λ _, True) known_jobs).

Lemma apply_record_dom st r st' : is_submit r = false → apply_record st r = Ok st' → dom st' = dom st.
Proof. intros Hr <-%replay_record_strict. destruct r; [done|..]; apply dom_alter_L. Qed.

Lemma store_apply_none r : is_submit r = false → adds_none (store_apply r).
Proof. intros Hr. apply quiet_store_apply. intros c st. by apply apply_record_dom. Qed.

Ltac none_tac := repeat first [apply store_apply_none; reflexivity | quiet_step].

Lemma lease_loop_none k n : adds_none (lease_loop k n).
Proof. induction k as [|k IH]; cbn [lease_loop]; none_tac; apply IH. Qed.

Lemma try_lease_job_none : adds_none try_lease_job.
Proof. unfold try_lease_job. none_tac. apply lease_loop_none. Qed.

Lemma try_dispatch_none : adds_none try_dispatch_parked_workers.
Proof.
  assert (∀ fuel, adds_none (dispatch_loop fuel)) as Hloop.
  { induction fuel as [|fuel IH]; cbn [dispatch_loop]; none_tac; [apply try_lease_job_none|apply IH..]. }
  unfold try_dispatch_parked_workers. none_tac. apply Hloop.
Qed.

Lemma do_cancel_none id : adds_none (do_cancel id).
Proof. unfold do_cancel. none_tac. Qed.

Lemma do_worker_outcome_none id lid o : adds_none (do_worker_outcome id lid o).
Proof. unfold do_worker_outcome, complete_job, dead_job, schedule_retry. none_tac. Qed.

Lemma check_lease_timeouts_none : adds_none check_lease_timeouts.
Proof. unfold check_lease_timeouts, time_out_lease, dead_job, schedule_retry. none_tac. Qed.

(** The retry that is due is read, changed and written back. *)
Lemma due_loop_jobs fuel now s s' : due_loop fuel now s = Some ((), s') → known_jobs (coord s') = known_jobs (coord s).
Proof.
  revert s; induction fuel as [|fuel IH]; intros s H; cbn [due_loop] in H; [by injection H as <-|].
  apply bind_result in H as (c & s1 & [= <- <-] & H).
  destruct (heap_peek (co_retry_queue (coord s))) as [entry|]; [|by injection H as <-].
  destruct (now <? available_at entry); [by injection H as <-|].
  apply bind_result in H as ([e h] & s1 & Hu & H). unfold unwrap in Hu.
  destruct (heap_pop _) as [[e' h']|]; [|done]. injection Hu as <- <- <-.
  apply bind_result in H as ([] & s1 & [= <-] & H). apply bind_result in H as ([] & s2 & Hm & H).
  rewrite (IH _ H). clear H IH.
  destruct (store_get (co_store (coord s)) (entry_job_id e')) as [job|]; [|by injection Hm as <-].
  destruct (negb _); [by injection Hm as <-|].
  destruct (transition_to_queued _ _) as [[job' st]|] eqn:Ht; [|by injection Hm as <-].
  injection Hm as <-. unfold transition_to_queued in Ht. apply rbind_ok in Ht as (st1 & Ht & Hj).
  apply rbind_ok in Hj as (j & _ & [= _ <-]). apply transition_ok in Ht as (job1 & Hj1 & _ & ->).
  unfold known_jobs. st_simpl. rewrite dom_insert_L. apply elem_of_dom_2 in Hj1. set_solver.
Qed.

Lemma turn_jobs s r s' : turn s = Some (r, s') → known_jobs (coord s') = known_jobs (coord s).
Proof.
  unfold turn. intros ([] & s1 & H1 & H)%bind_result.
  assert (known_jobs (coord s1) = known_jobs (coord s)) as <-.
  { unfold process_due_retries in H1. apply bind_result in H1 as (now & s0 & [= <- <-] & H1).
    apply bind_result in H1 as (c & s0 & [= <- <-] & H1). by apply due_loop_jobs in H1. }
  match type of H with ?m _ = _ => assert (adds_none m) as Hm; [|by apply Hm in H as [_ ?]] end.
  unfold force_shutdown, complete_shutdown. none_tac; apply check_lease_timeouts_none || apply try_dispatch_none.
Qed.

(** A submission that is handled. *)
Definition Submission : Type := QueueName * JobSpec * Sender.

Definition submission_of (cmd : Command) : option Submission :=
  match cmd with Cmd_Submit queue spec _ reply => Some (queue, spec, reply) | _ => None end.

Lemma handle_other_jobs cmd s s' :
  submission_of cmd = None → handle cmd s = Some ((), s') → known_jobs (coord s') = known_jobs (coord s).
Proof.
  intros Hn H. destruct cmd; [done|..]; cbn [handle] in H;
    match type of H with ?m _ = _ => assert (adds_none m) as Hm; [|by apply Hm in H as [_ ?]] end.
  - unfold do_status. none_tac.
  - none_tac. apply do_cancel_none.
  - none_tac.
  - unfold do_fetch_work. none_tac. apply try_lease_job_none.
  - apply do_worker_outcome_none.
  - unfold start_shutdown, dismiss_parked. none_tac.
Qed.
End jobs.

(** ** The steps of the system are moves *)

Section steps.
Context `{W : Wire} `{!WireLaws W} `{HI : HashIter} `{RH : RetryHeap} `{!RetryHeapLaws RH}.
Context `{SM : Semaphores} `{!SemaphoresLaws SM} `{EN : Env} `{!EnvLaws EN}.

(** Any report. *)
Abbreviation anything := (λ (_ : JobId) (_ : LeaseId), True).

Definition sys_view (sys : System) : View := view (sys_state sys).

Lemma drop_command_view cmd s : view (drop_command cmd s) = view s.
Proof. by destruct cmd. Qed.

Lemma drop_commands_view ch s : view (foldr drop_command s ch) = view s.
Proof. induction ch as [|cmd ch IH]; [done|]. cbn [foldr]. by rewrite drop_command_view. Qed.

Lemma try_submit_view queue spec reply s r s' : try_submit queue spec reply s = Some (r, s') → view s' = view s.
Proof.
  unfold try_submit, mbind, action_bind, mret, action_ret, get, modify. cbn. intros H.
  destruct (co_semaphores (coord s) !! as_str queue) as [sem|]; [|by simplify_eq].
  destruct (sem_try_acquire sem) as [[[]|e] sem']; cbn in H; by simplify_eq.
Qed.

Lemma try_submit_config queue spec reply s r s' :
  try_submit queue spec reply s = Some (r, s') → co_config (coord s') = co_config (coord s).
Proof.
  unfold try_submit, mbind, action_bind, mret, action_ret, get, modify. cbn. intros H.
  destruct (co_semaphores (coord s) !! as_str queue) as [sem|]; [|by simplify_eq].
  destruct (sem_try_acquire sem) as [[[]|e] sem']; cbn in H; by simplify_eq.
Qed.

Lemma submit_view queue spec reply s r s' : submit queue spec reply s = Some (r, s') → view s' = view s.
Proof.
  unfold submit, mbind, action_bind, mret, action_ret, get, modify. cbn. intros H.
  destruct (co_semaphores (coord s) !! as_str queue) as [sem|]; [|by simplify_eq].
  destruct (sem_try_acquire sem) as [[[]|[]] sem']; cbn in H; by simplify_eq.
Qed.

(** The report that a step takes from the channel. *)
Definition takes_report (sys sys' : System) (id : JobId) (lid : LeaseId) : Prop :=
  ∃ cmd, sys_channel sys = cmd :: sys_channel sys' ∧ reports cmd id lid.

(** A step makes moves that are licensed by the report that it takes, and gives
    up no lease unless it stops the coordinator. *)
Lemma sys_step_path P `{!LogInv P} order cap lost sys sys' :
  sys_inv P order cap lost sys → sys_step sys sys' →
  path (takes_report sys sys') (sys_running sys' = false) (sys_view sys) (sys_view sys').
Proof.
  intros SI Hstep. pose proof (s_inv _ _ _ _ _ SI) as I. pose proof (s_cmds _ _ _ _ _ SI) as Hcmds.
  destruct Hstep as [queue spec reply s s' cmd wt ch b Hsub Hmax|queue spec reply s s' cmd wt ch b Hsub Hmax
    |cmd s wt ch b Hcmd|i cmd s wt ch Hi _|i cmd s wt ch b Hi|s s' wt ch b Hclose|s s1 s2 nd cmd wt ch Hturn Hh
    |s s1 d wt Hturn _|s s1 wt ch Hturn]; unfold sys_view; sys_simpl; try constructor.
  - rewrite (try_submit_view _ _ _ _ _ _ Hsub). constructor.
  - rewrite (submit_view _ _ _ _ _ _ Hsub). constructor.
  - rewrite drop_command_view. constructor.
  - injection Hclose as <-. constructor.
  - apply Forall_cons in Hcmds as [Hcmd _].
    destruct (wp_result _ _ _ _ _ (turn_safe P s I) Hturn) as (I1 & F1 & _). rewrite <-(fr_order _ _ _ F1) in Hcmd.
    pose proof (wp_result _ _ _ _ _ (turn_continues P s I) Hturn (mk_is_Some _ _ eq_refl)) as Hv1.
    destruct (wp_result _ _ _ _ _ (handle_follows P s1 cmd I1 Hcmd) Hh) as (_ & Hv2 & _).
    etrans; [by eapply path_mono, Hv1|]. eapply path_mono, Hv2; [|done].
    intros id lid Hr. by exists cmd.
  - pose proof (wp_result _ _ _ _ _ (turn_continues P s I) Hturn (mk_is_Some _ _ eq_refl)) as Hv.
    by eapply path_mono, Hv.
  - destruct (wp_result _ _ _ _ _ (turn_follows P s I) Hturn) as (_ & Hv & _).
    rewrite drop_commands_view. by eapply path_mono, Hv.
Qed.

Lemma reachable_path P `{!LogInv P} order cap lost sys sys' :
  sys_inv P order cap lost sys → rtc sys_step sys sys' → path anything True (sys_view sys) (sys_view sys').
Proof.
  intros SI Hr. induction Hr as [|x y z Hxy _ IH]; [constructor|].
  etrans; [by eapply path_mono, (sys_step_path P); [..|exact SI|exact Hxy]|]. by eapply IH, sys_step_inv.
Qed.

(** ** Submissions *)

(** The submissions that are on their way. *)
Definition offered (sys : System) : list Submission := omap submission_of (sys_waiting sys ++ sys_channel sys).

(** A run of the system from [sys0], with all submissions that were on their way in
    one of its states. *)
Inductive history (sys0 : System) : list Submission → System → Prop :=
| history_start : history sys0 (offered sys0) sys0
| history_step h sys sys' : history sys0 h sys → sys_step sys sys' → history sys0 (h ++ offered sys') sys'.

Lemma history_reaches sys0 h sys : history sys0 h sys → rtc sys_step sys0 sys.
Proof. induction 1 as [|h sys sys' _ IH Hs]; [constructor|]. by eapply rtc_r. Qed.

Lemma reaches_history sys0 sys : rtc sys_step sys0 sys → ∃ h, history sys0 h sys.
Proof.
  revert sys. refine (rtc_ind_r _ _ _ _); [by eexists; constructor|]. intros y z _ Hs [h Hh]. eexists. by econstructor.
Qed.

Lemma history_offered sys0 h sys : history sys0 h sys → offered sys ⊆ h.
Proof. intros []; [done|]. set_solver. Qed.

(** [job] was submitted under the identifier [id] by a client who was told so. *)
Definition submitted_as (h : list Submission) (tr : list Effect) (id : JobId) (job : JobRecord) : Prop :=
  ∃ queue spec reply created alive, (queue, spec, reply) ∈ h
    ∧ Sent reply (Reply_job (Ok (JobRecord_new id queue spec created))) alive ∈ tr
    ∧ same_job (JobRecord_new id queue spec created) job.

Definition from_before (st : MemoryStore) (id : JobId) (job : JobRecord) : Prop :=
  ∃ job0, st !! id = Some job0 ∧ same_job job0 job.

Lemma same_job_refl job : same_job job job.
Proof. by split_and!. Qed.

Lemma same_job_trans j1 j2 j3 : same_job j1 j2 → same_job j2 j3 → same_job j1 j3.
Proof. intros (? & ? & ? & ?) (? & ? & ? & ?). split_and!; congruence. Qed.

(** A job whose identifier was known. *)
Lemma evolves_from st st' id job :
  evolves st st' → id ∈ dom st → st' !! id = Some job → from_before st id job.
Proof.
  intros He [job0 Hj0]%elem_of_dom Hj. destruct (He _ _ Hj0) as (job1 & Hj1 & Hsame & _).
  exists job0. split; [done|]. congruence.
Qed.

Section origin.
Context (P : nat → Storage → MemoryStore → Prop) `{!LogInv P}.

Lemma handle_origin cmd s s' id job :
  inv P s → cmd_ok (co_queue_order (coord s)) cmd → handle cmd s = Some ((), s') →
  co_store (coord s') !! id = Some job →
  from_before (co_store (coord s)) id job ∨ submitted_as (option_list (submission_of cmd)) (trace s') id job.
Proof.
  intros I Hcmd Hh Hj. destruct (wp_result _ _ _ _ _ (handle_safe P s cmd I Hcmd) Hh) as (_ & F & _).
  pose proof (fr_store _ _ _ F) as He.
  assert (id ∈ dom (co_store (coord s)) → from_before (co_store (coord s)) id job) as Hold.
  { intros Hin. by eapply evolves_from. }
  destruct (submission_of cmd) as [[[queue spec] reply]|] eqn:Hsub; cycle 1.
  { left. apply Hold. pose proof (handle_other_jobs _ _ _ Hsub Hh) as Hd. unfold known_jobs in Hd. rewrite <-Hd.
    by apply elem_of_dom_2 in Hj. }
  destruct cmd as [queue' spec' permit reply'| | | | | |]; try done. injection Hsub as -> -> ->.
  destruct Hcmd as (-> & Hq & Hmax). apply (i_order _ _ I), (i_sems _ _ I) in Hq. cbn [handle] in Hh. apply bind_result in Hh as (c & s1 & [= <- <-] & Hh).
  destruct (co_shutting_down (coord s)).
  { injection Hh as <-. left. by exists job; split; [|apply same_job_refl]. }
  apply bind_result in Hh as (r & s1 & Hr & Hh). injection Hh as <-. st_simpl.
  destruct (wp_result _ _ _ _ _ (do_submit_result P s queue spec I Hmax) Hr) as (-> & HQ).
  destruct (submit_result s queue spec) as [record|e] eqn:Hres.
  2: { destruct HQ as (Hst & _). left. apply Hold. rewrite <-Hst. by apply elem_of_dom_2 in Hj. }
  destruct HQ as (sto & Hd). destruct (try_dispatch_none _ _ _ Hd) as [_ Hk]. unfold known_jobs, submitted in Hk. st_simpl.
  assert (∃ created, record = JobRecord_new (job_id record) queue spec created) as [created Hrec].
  { unfold submit_result in Hres. repeat case_match; simplify_eq. by eexists. }
  apply elem_of_dom_2 in Hj as Hin. rewrite Hk, dom_insert_L in Hin. apply elem_of_union in Hin as [Hid|Hin]; [|by left; auto].
  apply elem_of_singleton in Hid as ->. right. exists queue, spec, reply, created, (env_alive (tick s1)).
  rewrite <-Hrec. split; [by left|]. split; [apply elem_of_app; right; left|].
  destruct (wp_result _ _ _ _ _ (do_submit_safe P s queue spec I Hq Hmax) Hr) as (_ & _ & _ & _ & job' & Hj' & Hs). congruence.
Qed.

(** Nothing is added by a step that handles no submission. *)
Lemma step_origin order cap lost sys sys' id job :
  sys_inv P order cap lost sys → sys_step sys sys' → co_store (coord (sys_state sys')) !! id = Some job →
  from_before (co_store (coord (sys_state sys))) id job ∨ submitted_as (offered sys) (trace (sys_state sys')) id job.
Proof.
  intros SI Hstep Hj. pose proof (s_inv _ _ _ _ _ SI) as I. pose proof (s_cmds _ _ _ _ _ SI) as Hcmds.
  pose proof (path_evolves _ _ _ _ (sys_step_path P _ _ _ _ _ SI Hstep)) as He.
  unfold sys_view, view in He. cbn [v_store] in He.
  assert (id ∈ dom (co_store (coord (sys_state sys))) → from_before (co_store (coord (sys_state sys))) id job) as Hold.
  { intros Hin. by eapply evolves_from. }
  destruct Hstep as [queue spec reply s s' cmd wt ch b Hsub _|queue spec reply s s' cmd wt ch b Hsub _
    |cmd s wt ch b _|i cmd s wt ch _ _|i cmd s wt ch b _|s s' wt ch b Hclose|s s1 s2 nd cmd wt ch Hturn Hh
    |s s1 d wt Hturn _|s s1 wt ch Hturn]; sys_simpl; try (left; apply Hold; by apply elem_of_dom_2 in Hj).
  - apply try_submit_view in Hsub. left. apply Hold. injection Hsub as <-. by apply elem_of_dom_2 in Hj.
  - apply submit_view in Hsub. left. apply Hold. injection Hsub as <-. by apply elem_of_dom_2 in Hj.
  - pose proof (drop_command_view cmd s) as Hv. injection Hv as Hv. rewrite Hv in Hj. left. apply Hold. by apply elem_of_dom_2 in Hj.
  - injection Hclose as <-. left. apply Hold. by apply elem_of_dom_2 in Hj.
  - apply Forall_cons in Hcmds as [Hcmd _].
    destruct (wp_result _ _ _ _ _ (turn_safe P s I) Hturn) as (I1 & F1 & _). rewrite <-(fr_order _ _ _ F1) in Hcmd.
    destruct (handle_origin _ _ _ _ _ I1 Hcmd Hh Hj) as [(job0 & Hj0 & _)|(q & sp & rp & cr & al & Hin & Hrest)].
    + left. apply Hold. pose proof (turn_jobs _ _ _ Hturn) as Hd. unfold known_jobs in Hd. rewrite <-Hd.
      by apply elem_of_dom_2 in Hj0.
    + right. exists q, sp, rp, cr, al. split; [|done]. unfold offered. sys_simpl. rewrite omap_app. apply elem_of_app. right.
      destruct cmd; cbn in *; set_solver.
  - left. apply Hold. pose proof (turn_jobs _ _ _ Hturn) as Hd. unfold known_jobs in Hd. rewrite <-Hd. by apply elem_of_dom_2 in Hj.
  - pose proof (drop_commands_view ch s1) as Hv. injection Hv as Hv. rewrite Hv in Hj. left. apply Hold.
    pose proof (turn_jobs _ _ _ Hturn) as Hd. unfold known_jobs in Hd. rewrite <-Hd. by apply elem_of_dom_2 in Hj.
Qed.

(** Every job was there at the start, or was submitted. *)
Lemma history_origin order cap lost sys0 h sys id job :
  sys_inv P order cap lost sys0 → history sys0 h sys → co_store (coord (sys_state sys)) !! id = Some job →
  from_before (co_store (coord (sys_state sys0))) id job ∨ submitted_as h (trace (sys_state sys)) id job.
Proof.
  intros SI Hh. revert id job. induction Hh as [|h sys sys' Hh IH Hs]; intros id job Hj.
  { left. by exists job; split; [|apply same_job_refl]. }
  pose proof (sys_reachable_inv _ _ _ _ _ _ SI (history_reaches _ _ _ Hh)) as SI'.
  pose proof (path_trace _ _ _ _ (sys_step_path P _ _ _ _ _ SI' Hs)) as Hpre. cbn in Hpre.
  destruct (step_origin _ _ _ _ _ _ _ SI' Hs Hj) as [(job1 & Hj1 & Hsame)|(q & sp & rp & cr & al & Hin & Hrest)].
  - destruct (IH _ _ Hj1) as [(job0 & Hj0 & Hs0)|(q & sp & rp & cr & al & Hin & Hsent & Hs0)].
    + left. exists job0. split; [done|]. by eapply same_job_trans.
    + right. exists q, sp, rp, cr, al. split_and!; [apply elem_of_app; by left|by eapply elem_of_prefix|by eapply same_job_trans].
  - right. exists q, sp, rp, cr, al. split; [|done]. apply elem_of_app. left. by apply (history_offered _ _ _ Hh).
Qed.
End origin.
End steps.
