(* ===== verification/Lifecycle.v ===== *)
(** * Guarantees over the whole life of the system

    The steps of the system, whoever makes them, change the jobs only by moves of
    [JobMachine].  So the attempts that workers see, the numbers of their leases
    and the statistics are right in every state that the system reaches after
    [start], on a new log or on one that was left by a crash. *)

From S2P Require Import Prelude Types Config Store Codec ConcreteWire Scanner Writer Recovery.
From S2P Require Import RecoveryProofs RecoveryTotal LogCounts RetryHeap Environment Coordinator QueueInv.
From S2P Require Import CoordinatorInv CoordinatorSafe CoordinatorLoop CoordinatorInit CoordinatorProps.
From S2P Require Import CoordinatorStats CoordinatorReplies CoordinatorLive Durability CliProofs Runtime RuntimeProofs JobMachine Refinement History.

Section lifecycle.
Context `{W : Wire} `{!WireLaws W} `{HI : HashIter} `{RH : RetryHeap} `{!RetryHeapLaws RH}.
Context `{SM : Semaphores} `{!SemaphoresLaws SM} `{EN : Env} `{!EnvLaws EN}.

(** ** Attempts *)

(** What a worker is told is the queue, the payload and the limit of [spec]. *)
Definition told (ctx : JobContext) (queue : QueueName) (spec : JobSpec) : Prop :=
  ctx_queue ctx = queue ∧ ctx_payload ctx = payload spec ∧ ctx_max_attempts ctx = max_attempts spec.

(** ... that the job had when it was recovered, or that a client submitted, who was
    told the identifier of the job. *)
Definition told_as_submitted (st0 : MemoryStore) (h : list Submission) (tr : list Effect) (lj : LeasedJob) : Prop :=
  let ctx := lj_context lj in
  (∃ job, st0 !! ctx_id ctx = Some job ∧ told ctx (job_queue job) (job_spec job))
  ∨ ∃ queue spec reply created alive, (queue, spec, reply) ∈ h
      ∧ Sent reply (Reply_job (Ok (JobRecord_new (ctx_id ctx) queue spec created))) alive ∈ tr
      ∧ told ctx queue spec.

Lemma grant_told st0 st h tr lj :
  (∀ id job, st !! id = Some job → from_before st0 id job ∨ submitted_as h tr id job) →
  grant_ok st lj → told_as_submitted st0 h tr lj.
Proof.
  intros Horigin (job & Hj & Hq & Hp & Hm).
  destruct (Horigin _ _ Hj) as [(job0 & Hj0 & _ & Hq0 & Hs0 & _)|(q & sp & rp & cr & al & Hin & Hsent & _ & Hq0 & Hs0 & _)].
  - left. exists job0. split; [done|]. unfold told. by rewrite Hq, Hp, Hm, Hq0, Hs0.
  - right. exists q, sp, rp, cr, al. split_and!; [done..|]. unfold told. by rewrite Hq, Hp, Hm, Hq0, Hs0.
Qed.

(** C6: every job is tried in order and not too often: whatever happens after
    [start], the attempts of a job that workers are told are, one after the
    other, the numbers that follow those it had used up at the start, without a
    gap or a repetition, and do not exceed [max_attempts], or one when this is
    zero; with each attempt a worker is told the queue, the payload and the limit
    that the job was recovered with or that a client submitted under this
    identifier, as the reply to this client shows; and no two leases ever have the
    same number. *)
Theorem attempts_in_order t locked file config c h sys id :
  log_left t file → config_fits config → (∀ q, 0 ≤ capacity_of config q) →
  start t locked file config = Ok (Some c) → history (started c t) h sys →
  let st := co_store (coord (sys_state sys)) in
  let tr := trace (sys_state sys) in
  attempts_handed id tr = seqZ (tries id (co_store c) + 1) (tries id st - tries id (co_store c))
  ∧ (∀ job, st !! id = Some job → tries id st ≤ Z.max 1 (max_attempts (job_spec job)))
  ∧ Forall (told_as_submitted (co_store c) h tr) (grants tr)
  ∧ (small (tick (sys_state sys)) → lease_numbers tr =
       seqZ (co_next_lease_epoch c) (co_next_lease_epoch (coord (sys_state sys)) - co_next_lease_epoch c)).
Proof.
  intros Hleft Hfit Hcap Hst Hh st tr. pose proof (history_reaches _ _ _ Hh) as Hr.
  pose proof (start_sys_inv (λ _ _ _, True) _ _ _ _ _ Hleft Hfit Hcap ltac:(done) Hst) as SI.
  pose proof (reachable_path (λ _ _ _, True) _ _ _ _ _ SI Hr) as Hp.
  apply (sys_reachable_inv _ _ _ _ _ _ SI) in Hr as [I _ _ _ _ _ _]. split_and!.
  - exact (proj2 (path_attempts _ _ _ _ id Hp)).
  - intros job Hj. unfold tries. fold st. rewrite Hj. apply (i_jobs _ _ I) in Hj as (_ & [_ Hle] & _). done.
  - eapply Forall_impl; [exact (path_grants _ _ _ _ Hp (Forall_nil_2 _))|]. intros lj. apply grant_told.
    intros i job. exact (history_origin (λ _ _ _, True) _ _ _ _ _ _ _ _ SI Hh).
  - intros Hsm. refine (proj2 (proj2 (path_numbers _ _ _ _ Hp Hsm _))).
    pose proof (s_inv _ _ _ _ _ SI) as I0. apply (i_epoch _ _ I0).
    apply path_tick in Hp. unfold small in *. cbn in *. lia.
Qed.

(** ** Statistics *)

Lemma counts_jobs_small st sub comp dead canc ret stale :
  Z.of_nat (size st) ≤ u64_max →
  sub = Z.of_nat (size st) → comp = count_jobs (has_state Completed) st →
  dead = count_jobs (has_state Dead) st → canc = count_jobs (has_state Cancelled) st →
  counts_jobs st (mkGlobalStats sub comp dead canc ret stale).
Proof.
  intros Hsz -> -> -> ->. unfold counts_jobs. cbn [gs_submitted gs_completed gs_dead gs_cancelled].
  assert (∀ s, u64_range (count_jobs (has_state s) st)) as Hs.
  { intros s. pose proof (mcount_nonneg (has_state s) st). pose proof (mcount_size (has_state s) st).
    unfold u64_range, u64_max in *. lia. }
  rewrite !u64_wrap_small by (apply Hs || (unfold u64_range, u64_max in *; lia)). done.
Qed.

Lemma start_counts t locked file config c :
  log_left t file → start t locked file config = Ok (Some c) → counts_jobs (co_store c) (co_global_stats c).
Proof.
  intros Hleft (sto & recd & sems & _ & Hopen & _ & _ & _ & Hc)%start_ok.
  destruct recd as [rec|]; [|by injection Hc as <-].
  unfold with_rng_and_recovery in Hc. destruct (load_retries _ _ _ _ _ _) as [[h qs]|]; [|done].
  injection Hc as <-. cbn [co_store co_global_stats].
  unfold open_with_recovery in Hopen. destruct (cfg_storage config); [done|].
  destruct (recover _ _ _ _) as [[rec' wal]|e] eqn:Hrec; cbn in Hopen; [|done]. simplify_eq.
  destruct locked; [done|]. destruct Hleft as [->|(s & w & I & Hs & Ht & Hsto & -> & Hlen)].
  { cbn in Hrec. by simplify_eq. }
  destruct (recovered_counters_exact s w (env_wall t) config rec wal I Hs Hsto Hlen Hrec)
    as (H1 & H2 & H3 & H4 & H5).
  by apply counts_jobs_small.
Qed.

Lemma u64_wrap_le z : 0 ≤ z ≤ u64_max → u64_wrap z = z.
Proof. intros. apply u64_wrap_small. unfold u64_range, u64_max in *. lia. Qed.

(** Every job is in one state. *)
Lemma count_by_state (st : MemoryStore) :
  Z.of_nat (size st) = count_jobs (has_state Queued) st + count_jobs (has_state Running) st
    + count_jobs (has_state RetryWaiting) st + count_jobs (has_state Completed) st
    + count_jobs (has_state Dead) st + count_jobs (has_state Cancelled) st.
Proof.
  induction st as [|id job st Hn IH] using map_ind; [by rewrite !mcount_empty, map_size_empty|].
  rewrite !mcount_new, map_size_insert_None by done.
  assert (b2z (has_state Queued job) + b2z (has_state Running job) + b2z (has_state RetryWaiting job)
    + b2z (has_state Completed job) + b2z (has_state Dead job) + b2z (has_state Cancelled job) = 1).
  { unfold has_state. by destruct (job_state job). }
  lia.
Qed.

(** C8: the statistics are the truth, in every state that the system reaches
    after [start], on a new log or on a recovered one, as long as there are at most
    [u64::MAX] jobs: the number of submitted jobs is the number of jobs that are
    known; the numbers of queued, running and retrying jobs are the numbers of jobs
    in those states; the numbers of completed, dead and cancelled jobs are those of
    the queues of the configuration; the entry of each of these queues counts its
    jobs, state by state; and when the configuration has the queues of all known
    jobs, the six states add up to the submissions.  (Finished jobs of a queue that
    was removed from the configuration before a restart are only in the number of
    submissions.) *)
Theorem statistics_exact t locked file config c sys :
  log_left t file → config_fits config → (∀ q, 0 ≤ capacity_of config q) →
  start t locked file config = Ok (Some c) → rtc sys_step (started c t) sys →
  let st := co_store (coord (sys_state sys)) in
  let snap := do_stats (coord (sys_state sys)) in
  let names := queue_names (cfg_queues config) in
  Z.of_nat (size st) ≤ u64_max →
  snap_submitted snap = Z.of_nat (size st)
  ∧ snap_queued snap = count_jobs (has_state Queued) st
  ∧ snap_running snap = count_jobs (has_state Running) st
  ∧ snap_retrying snap = count_jobs (has_state RetryWaiting) st
  ∧ snap_completed snap = count_jobs (in_queues names Completed) st
  ∧ snap_dead snap = count_jobs (in_queues names Dead) st
  ∧ snap_cancelled snap = count_jobs (in_queues names Cancelled) st
  ∧ (∀ q, q ∈ names →
      ∃ qs, snap_per_queue snap !! q = Some qs ∧ ∀ js, stat_of js qs = count_jobs (in_queue q js) st)
  ∧ ((∀ id job, st !! id = Some job → as_str (job_queue job) ∈ names) →
      snap_submitted snap = snap_queued snap + snap_running snap + snap_retrying snap
        + snap_completed snap + snap_dead snap + snap_cancelled snap).
Proof.
  intros Hleft Hfit Hcap Hst Hr st snap names Hsz.
  pose proof (start_sys_inv (λ _ _ _, True) _ _ _ _ _ Hleft Hfit Hcap ltac:(done) Hst) as SI.
  pose proof (reachable_path (λ _ _ _, True) _ _ _ _ _ SI Hr) as Hp.
  apply (sys_reachable_inv _ _ _ _ _ _ SI) in Hr as [I Hor _ _ _ _ _].
  destruct (path_counts _ _ _ _ Hp (start_counts _ _ _ _ _ Hleft Hst)) as (Hsub & _).
  unfold sys_view, view in Hsub. cbn [v_store v_stats] in Hsub. rewrite u64_wrap_le in Hsub by (fold st; lia).
  destruct (stats_snapshot_exact _ _ I Hsz) as (Hq & Hrun & Hret & Hper). rewrite Hor in Hper.
  pose proof (λ s, do_stats_queues st _ s names (i_queues _ _ I) Hsz) as Hsum.
  assert (∀ q, q ∈ names ↔ is_Some (co_queues (coord (sys_state sys)) !! q)) as Hnames.
  { intros q. rewrite <-(i_order _ _ I), Hor. done. }
  specialize (λ s, Hsum s Hnames).
  pose proof (Hsum Completed : snap_completed snap = _) as Hc. pose proof (Hsum Dead : snap_dead snap = _) as Hd.
  pose proof (Hsum Cancelled : snap_cancelled snap = _) as Hx.
  split_and!; [exact Hsub|done..|]. intros Hall.
  change (snap_submitted snap) with (gs_submitted (co_global_stats (coord (sys_state sys)))).
  rewrite Hsub, count_by_state. fold snap in Hq, Hrun, Hret. rewrite Hq, Hrun, Hret, Hc, Hd, Hx.
  assert (∀ s, count_jobs (in_queues names s) st = count_jobs (has_state s) st) as Hin; [|by rewrite !Hin].
  intros s. apply mcount_ext. intros id job Hj. unfold in_queues, has_state. by rewrite bool_decide_true by (by eapply Hall).
Qed.

(** The submissions that a queue counts. *)
Definition none_submitted (queues : gmap string QueueState) : Prop :=
  map_Forall (λ _ qs, qstat_submitted (qs_stats qs) = 0) queues.

Lemma none_submitted_alter (f : QueueState → QueueState) q queues :
  (∀ qs, qstat_submitted (qs_stats (f qs)) = qstat_submitted (qs_stats qs)) →
  none_submitted queues → none_submitted (alter f q queues).
Proof.
  intros Hf Hq k qs Hk. destruct (decide (k = q)) as [->|Hne].
  - rewrite lookup_alter_eq in Hk. apply fmap_Some in Hk as (qs0 & Hk & ->). rewrite Hf. by apply (Hq q).
  - rewrite lookup_alter_ne in Hk by done. by apply (Hq k).
Qed.

Lemma load_retries_submitted now wall st entries h queues h' queues' :
  none_submitted queues → load_retries now wall st entries h queues = Some (h', queues') → none_submitted queues'.
Proof.
  revert h queues; induction entries as [|[id a] entries IH]; intros h queues Hn H; cbn [load_retries] in H.
  { by simplify_eq. }
  destruct (store_get st id) as [job|]; [|by eapply IH]. case_bool_decide; [|by eapply IH].
  destruct (instant_add _ _); [|done]. eapply IH; [|exact H]. apply none_submitted_alter; [|done].
  by intros [? []].
Qed.

(** C26: a restart forgets the submissions of each queue: the coordinator that is
    built from a recovered log counts the queued, retrying and finished jobs of a
    queue, and all submissions in total, but for every queue it starts with zero
    submissions. *)
Theorem restart_forgets_submissions now wall config sto sems tok rec c q qs :
  with_rng_and_recovery now wall config sto sems tok (Some rec) = Some c →
  co_queues c !! q = Some qs →
  qstat_submitted (qs_stats qs) = 0 ∧ gs_submitted (co_global_stats c) = rec_submitted rec.
Proof.
  unfold with_rng_and_recovery. destruct (load_retries _ _ _ _ _ _) as [[h queues]|] eqn:Hl; [|done].
  intros [= <-] Hq. cbn [co_queues co_global_stats gs_submitted] in *. split; [|done]. revert q qs Hq.
  change (none_submitted (load_terminal queues (hash_iter (rec_store rec)).*2)).
  assert (none_submitted queues) as Hn.
  { eapply load_retries_submitted; [|exact Hl]. clear Hl. unfold load_queued.
    assert (none_submitted (initial_queues config)) as Hi.
    { intros q qs. rewrite initial_queues_lookup. case_bool_decide; [by intros [= <-]|done]. }
    revert Hi. generalize (initial_queues config). induction (hash_iter (rec_queued_jobs rec)) as [|[k ids] l IH];
      intros m Hm; cbn [foldl]; [done|]. apply IH, none_submitted_alter; [|done].
    intros qs. revert qs. induction ids as [|id ids IH']; intros qs; cbn [foldl]; [done|]. rewrite IH'.
    destruct (store_get _ id); [|done]. destruct (bool_decide _); [|done]. by destruct qs as [? []]. }
  clear Hl. revert Hn. unfold load_terminal. generalize queues.
  induction (hash_iter (rec_store rec)).*2 as [|job jobs IH]; intros m Hm; cbn [foldl]; [done|].
  apply IH, none_submitted_alter; [|done]. intros [? []]. by destruct (job_state job).
Qed.

(** ** The queue drains *)

Lemma start_not_running t locked file config c :
  log_left t file → start t locked file config = Ok (Some c) →
  ∀ id job, co_store c !! id = Some job → job_state job ≠ Running.
Proof.
  intros Hleft (sto & recd & sems & _ & Hopen & _ & _ & _ & Hc)%start_ok.
  destruct recd as [rec|]; [|by injection Hc as <-].
  unfold with_rng_and_recovery in Hc. destruct (load_retries _ _ _ _ _ _) as [[h qs]|]; [|done].
  injection Hc as <-. cbn [co_store]. unfold open_with_recovery in Hopen. destruct (cfg_storage config); [done|].
  destruct (recover _ _ _ _) as [[rec' wal]|e] eqn:Hrec; cbn in Hopen; [|done]. simplify_eq.
  exact (ro_not_running _ _ _ (log_left_recovered config t locked file rec wal Hleft Hrec)).
Qed.

Lemma reachable_attended P `{!LogInv P} order cap lost sys sys' :
  sys_inv P order cap lost sys → attended (sys_view sys) → rtc sys_step sys sys' → sys_running sys' = true →
  attended (sys_view sys').
Proof.
  intros SI Ha Hr. induction Hr as [|x y z Hxy Hyz IH]; [done|]. intros Hrun.
  assert (sys_running y = true) as Hy.
  { clear -Hyz Hrun. induction Hyz as [|a b c Hab _ IH]; [done|]. specialize (IH Hrun). by destruct Hab. }
  apply IH; [by eapply sys_step_inv| |done].
  refine (path_attended _ _ _ _ _ (sys_step_path P _ _ _ _ _ SI Hxy) Ha). by rewrite Hy.
Qed.

(** Nothing is left to wait for. *)
Lemma no_deadline c :
  next_deadline c = None → heap_elems (co_retry_queue c) = [] ∧ co_leases c = ∅.
Proof.
  unfold next_deadline. intros H.
  assert (∀ a b, option_min a b = None → a = None ∧ b = None) as Hmin by (by intros [] []).
  apply Hmin in H as [H _]. apply Hmin in H as [Hh Hl]. split.
  - destruct (heap_peek (co_retry_queue c)) eqn:Hp; [done|]. by apply heap_peek_none.
  - apply map_empty. intros id. destruct (co_leases c !! id) as [l|] eqn:Hid; [|done]. exfalso.
    apply elem_of_hash_iter in Hid. revert Hl.
    assert (∀ (es : list (JobId * ActiveLease)) acc, (is_Some acc ∨ (id, l) ∈ es) →
      foldl (λ acc e, option_min acc (Some (al_deadline e.2))) acc es ≠ None) as Hgo.
    { induction es as [|e es IH]; intros acc [Hs|Hin]; cbn [foldl].
      - by intros ->; destruct Hs.
      - by apply elem_of_nil in Hin.
      - apply IH. left. by destruct Hs as [? ->].
      - apply elem_of_cons in Hin as [<-|Hin]; apply IH; [left; by destruct acc|by right]. }
    apply Hgo. by right.
Qed.

(** C7: the queue drains: from any reachable state on, as long as nothing new is
    submitted, jobs are handed to workers at most as often as the attempts and
    states of the known jobs allow, whatever the workers report; and whenever the
    coordinator, with a worker parked, goes to sleep without a timer, every job it
    knows is over, unless an append to the log failed. *)
Theorem queue_drains t locked file config c sys :
  log_left t file → config_fits config → (∀ q, 0 ≤ capacity_of config q) →
  start t locked file config = Ok (Some c) → rtc sys_step (started c t) sys →
  let st := co_store (coord (sys_state sys)) in
  (∀ sys', rtc sys_step sys sys' → size (co_store (coord (sys_state sys'))) = size st →
     0 ≤ work (co_store (coord (sys_state sys')))
     ∧ zlen (grants (trace (sys_state sys'))) + work (co_store (coord (sys_state sys')))
       ≤ zlen (grants (trace (sys_state sys))) + work st)
  ∧ ∀ s', sys_running sys = true → turn (sys_state sys) = Some (Some None, s') →
      co_parked_workers (coord s') ≠ [] →
      append_failed (trace s')
      ∨ ∀ id job, co_store (coord s') !! id = Some job → is_terminal (job_state job) = true.
Proof.
  intros Hleft Hfit Hcap Hst Hr st.
  pose proof (start_sys_inv (λ _ _ _, True) _ _ _ _ _ Hleft Hfit Hcap ltac:(done) Hst) as SI.
  apply (sys_reachable_inv _ _ _ _ _ _ SI) in Hr as SI'. split.
  - intros sys' Hr' Hsz. pose proof (reachable_path (λ _ _ _, True) _ _ _ _ _ SI' Hr') as Hp.
    pose proof (path_work _ _ _ _ Hp Hsz) as Hw. cbn [sys_view view v_store v_trace] in Hw. fold st in Hw. split; [apply work_nonneg|lia].
  - intros s' Hrun Hturn Hpk. pose proof (s_inv _ _ _ _ _ SI') as I.
    assert (attended (sys_view sys)) as Ha.
    { apply (reachable_attended (λ _ _ _, True) _ _ _ _ _ SI); [|done|done].
      right. intros id job Hj Hs. by destruct (start_not_running _ _ _ _ _ Hleft Hst _ _ Hj). }
    pose proof (wp_result _ _ _ _ _ (turn_continues _ _ I) Hturn (mk_is_Some _ _ eq_refl)) as Hv.
    apply (path_attended _ _ _ _ (λ x, x) Hv) in Ha.
    destruct (wp_result _ _ _ _ _ (turn_safe _ _ I) Hturn) as (I' & _ & Hnd & _). symmetry in Hnd.
    apply no_deadline in Hnd as [Hheap Hleases].
    destruct (no_idle_after_turn _ _ _ _ I Hturn Hpk) as [Hf|Hnq].
    { left. destruct Hf as (effs & op & e & -> & Hin). exists op, e. apply elem_of_app. by right. }
    destruct Ha as [Hf|Hrl]; [by left|]. right. intros id job Hj. specialize (Hnq _ _ Hj).
    destruct (job_state job) eqn:Hs; try done.
    + destruct (Hrl _ _ Hj Hs) as [l Hl]. cbn in Hl. by rewrite Hleases, lookup_empty in Hl.
    + destruct (i_retries _ _ I' _ _ Hj Hs) as (e & He & _). rewrite Hheap in He. by apply elem_of_nil in He.
Qed.
End lifecycle.

(** ** Witnesses *)

Section witnesses.
#[local] Existing Instance canonical_iter.
#[local] Existing Instance sorted_heap.
#[local] Existing Instance counting_semaphores.
#[local] Existing Instance steady_env.

(** After the restart of the example a worker asks for work, and gets the first
    attempt of the job that was queued. *)
Definition ex_granted : State :=
  ex_serve (Cmd_FetchWork 7%N) (mkState ex_restart (S (S (tick ex_crash))) []).

Lemma ex_granted_reached :
  rtc sys_step (started ex_restart (tick ex_crash)) (mkSystem ex_granted [] [] true).
Proof. refine (ex_serve_reached _ _ _ _ _); vm_compute; reflexivity. Qed.

Lemma statistics_exact_witness :
  snap_submitted (do_stats (coord ex_granted)) = Z.of_nat (size (co_store (coord ex_granted))).
Proof.
  refine (proj1 (statistics_exact (tick ex_crash) false ex_left ex_wal_config ex_restart _
    ex_log_left ex_fits ex_capacity ex_restart_start ex_granted_reached _)).
  vm_compute. discriminate.
Defined.

(** Two jobs were submitted to the queue of the example before the crash. *)
Definition ex_rebuilt : Coordinator := default ex_coord ex_restarted.

Lemma restart_forgets_submissions_witness :
  (qstat_submitted ∘ qs_stats) <$> co_queues ex_rebuilt !! "q"%string = Some 0
  ∧ gs_submitted (co_global_stats ex_rebuilt) = 2.
Proof.
  destruct (co_queues ex_rebuilt !! "q"%string) as [qs|] eqn:Hq; [|vm_compute in Hq; discriminate Hq].
  destruct (restart_forgets_submissions 0 (from_millis 5000) ex_wal_config
    (recovered_storage ex_crash_rec ex_crash_file) ex_sems 0%N ex_crash_rec ex_rebuilt "q" qs) as [H1 H2].
  - vm_compute. reflexivity.
  - exact Hq.
  - split; [exact (f_equal Some H1)|]. rewrite H2. vm_compute. reflexivity.
Defined.

(** A new queue in memory: a job is submitted, done by a worker, and the worker
    asks again. *)
Definition ex_fresh : Coordinator :=
  match start 0 false None ex_config with Ok (Some c) => c | _ => ex_coord end.

Definition ex_submit (s : State) : State :=
  match try_submit ex_queue_q ex_spec 1%N s with
  | Some (Ok cmd, s') => ex_serve cmd s'
  | _ => s
  end.

Lemma ex_submit_reached s :
  (0 <? channel_capacity (co_config (coord s))) = true →
  match try_submit ex_queue_q ex_spec 1%N s with
  | Some (Ok cmd, s') => match ex_served cmd s' with Some _ => true | None => false end
  | _ => false
  end = true →
  rtc sys_step (mkSystem s [] [] true) (mkSystem (ex_submit s) [] [] true).
Proof.
  intros Hcap%Z.ltb_lt Hs. unfold ex_submit, ex_serve, ex_served in *.
  destruct (try_submit ex_queue_q ex_spec 1%N s) as [[[cmd|e] s']|] eqn:Hsub; [|done..].
  destruct (turn s') as [[[nd|] s1]|] eqn:Ht; [|done..].
  destruct (handle cmd s1) as [[[] s2]|] eqn:Hh; [|done]. cbn [default].
  eapply rtc_l; [eapply (step_try_submit ex_queue_q ex_spec 1%N); [exact Hsub|vm_compute; intuition discriminate]|].
  eapply rtc_l; [apply (step_send 0 cmd); [done|]|].
  { by rewrite (try_submit_config _ _ _ _ _ _ Hsub). }
  eapply rtc_l; [by eapply (step_command s' s1 s2)|]. apply rtc_refl.
Qed.

Definition ex_submitted : State := ex_submit (mkState ex_fresh 2 []).
Definition ex_working : State := ex_serve (Cmd_FetchWork 2%N) ex_submitted.
Definition ex_worked : State :=
  ex_serve (Cmd_WorkerOutcome (from_uuid 4) (LeaseId_new 1) Outcome_Success) ex_working.
Definition ex_drained : State := ex_serve (Cmd_FetchWork 3%N) ex_worked.
Definition ex_asleep : State := default ex_drained (snd <$> turn ex_drained).

Lemma ex_working_reached : rtc sys_step (started ex_fresh 0) (mkSystem ex_working [] [] true).
Proof.
  refine (rtc_trans _ (mkSystem ex_submitted [] [] true) _ (ex_submit_reached _ _ _) (ex_serve_reached _ _ _ _ _));
    vm_compute; reflexivity.
Qed.

Lemma ex_fresh_start : start 0 false None ex_config = Ok (Some ex_fresh).
Proof. vm_compute. reflexivity. Qed.

(** The worker got the first attempt, with what was submitted. *)
Lemma attempts_in_order_witness :
  attempts_handed (from_uuid 4) (trace ex_working) = [1]
  ∧ ∃ h, Forall (told_as_submitted (co_store ex_fresh) h (trace ex_working)) (grants (trace ex_working)).
Proof.
  destruct (reaches_history _ _ ex_working_reached) as [h Hh].
  destruct (attempts_in_order 0 false None ex_config ex_fresh h (mkSystem ex_working [] [] true) (from_uuid 4)
    (or_introl eq_refl) ex_fits ex_capacity ex_fresh_start Hh) as (H1 & _ & H3 & _).
  split; [refine (eq_trans H1 _); vm_compute; reflexivity|]. exact (ex_intro _ h H3).
Defined.

Lemma ex_drained_reached : rtc sys_step (started ex_fresh 0) (mkSystem ex_drained [] [] true).
Proof.
  refine (rtc_trans _ (mkSystem ex_working [] [] true) _ ex_working_reached
    (rtc_trans _ (mkSystem ex_worked [] [] true) _ (ex_serve_reached _ _ _ _ _) (ex_serve_reached _ _ _ _ _)));
    vm_compute; reflexivity.
Qed.

(** The coordinator falls asleep for good, and one attempt was given of the
    job. *)
Lemma queue_drains_witness :
  zlen (grants (trace ex_drained)) = 1
  ∧ (append_failed (trace ex_asleep)
    ∨ ∀ id job, co_store (coord ex_asleep) !! id = Some job → is_terminal (job_state job) = true).
Proof.
  split; [vm_compute; reflexivity|].
  refine (proj2 (queue_drains 0 false None ex_config ex_fresh (mkSystem ex_drained [] [] true)
    (or_introl eq_refl) ex_fits _ _ ex_drained_reached) ex_asleep eq_refl _ _).
  - intros q. exact (ex_capacity q).
  - vm_compute. reflexivity.
  - vm_compute. reflexivity.
  - vm_compute. discriminate.
Defined.
End witnesses.
