(* ===== verification/Restart.v ===== *)
(** * Crash and restart, end to end

    The pieces put together: a system that was started, on a new log or on one
    that a crash left, runs for any time under any interleaving and is killed;
    starting it again with the same configuration succeeds and finds every job. *)

From S2P Require Import Prelude Types Config Store Codec ConcreteWire Scanner Writer Recovery.
From S2P Require Import RecoveryProofs RecoveryTotal LogCounts RetryHeap Environment Coordinator QueueInv.
From S2P Require Import CoordinatorInv CoordinatorSafe CoordinatorLoop CoordinatorInit CoordinatorProps.
From S2P Require Import Durability Runtime RuntimeProofs.

Section restart.
Context `{W : Wire} `{!WireLaws W} `{HI : HashIter} `{RH : RetryHeap} `{!RetryHeapLaws RH}.
Context `{SM : Semaphores} `{!SemaphoresLaws SM} `{EN : Env} `{!EnvLaws EN}.

(** ** Starting is durable *)

Lemma new_log_durable t : durable t (recovered_storage empty_recovered (header_encode WalHeader_new)) ∅.
Proof.
  split_and!; [done..|]. exists [].
  split_and!; [apply store_logged_nil|cbn; lia|intros _; apply wal_ok_new|constructor].
Qed.

Lemma open_durable t locked file config sto recd :
  log_left t file → open_with_recovery (env_wall t) locked file config = Ok (sto, recd) →
  durable (S (S t)) sto (recovered_store recd).
Proof.
  intros Hleft Hopen. unfold open_with_recovery in Hopen.
  destruct (cfg_storage config) as [|path]; [by simplify_eq|].
  apply rbind_ok in Hopen as ([rec wal] & Hrec & [= <- <-]). destruct locked; [done|].
  destruct Hleft as [->|(s & w & I & Hs & Ht & Hsto & -> & Hlen)].
  - cbn in Hrec. injection Hrec as <- <-. apply new_log_durable.
  - eapply durable_later; [|by apply Nat.le_trans with t; [exact Ht|lia]].
    by apply (crash_recovered_ok s w (env_wall t) config rec wal I Hs Hsto Hlen Hrec).
Qed.

(** Everything that holds of a system after [start]. *)
Lemma reachable_durable t locked file config c sys :
  (∀ t, clean_io (env_io t)) → log_left t file → config_fits config →
  (∀ q, 0 ≤ capacity_of config q) →
  start t locked file config = Ok (Some c) → rtc sys_step (started c t) sys →
  inv durable (sys_state sys)
  ∧ ∀ q, count_jobs (live_in q) (co_store (coord (sys_state sys))) ≤ capacity_of config q.
Proof.
  intros Hio Hleft Hfit Hcap Hst Hr. pose proof (durable_log Hio) as HL.
  pose proof (start_sys_inv durable _ _ _ _ _ Hleft Hfit Hcap
    (λ sto recd, open_durable _ _ _ _ _ _ Hleft) Hst) as SI.
  apply (sys_reachable_inv _ _ _ _ _ _ SI) in Hr as SI'. split; [apply SI'|]. intros q.
  destruct (decide (q ∈ queue_names (cfg_queues config))) as [Hq|Hq]; [by eapply sys_inv_capacity|].
  enough (count_jobs (live_in q) (co_store (coord (sys_state sys))) = 0) as -> by apply Hcap.
  apply (mcount_list _ _ []); [constructor|]. intros id. rewrite elem_of_nil. split; [done|].
  intros (job & Hj & [<- Hl]%live_in_spec). apply Hq.
  pose proof (s_inv _ _ _ _ _ SI') as I. rewrite <-(s_order _ _ _ _ _ SI').
  apply (i_order _ _ I). by eapply (queue_of_live _ _ (i_queues _ _ I)).
Qed.

(** ** Reserving permits succeeds *)

Lemma reserve_n_total queue count n sem :
  sem_is_closed sem = false → Z.of_nat n ≤ sem_available sem →
  ∃ sem', reserve_n queue count n sem = Ok sem'.
Proof.
  revert sem; induction n as [|n IH]; intros sem Hc Hn; cbn [reserve_n]; [by eexists|].
  destruct (sem_try_acquire_spec sem) as (Hr & Ha & Hcl).
  destruct (sem_try_acquire sem) as [r sem1]. cbn [fst snd] in *. rewrite Hc in Hr.
  destruct (Z.leb_spec (sem_available sem) 0); [lia|]. subst r. cbn [is_ok] in Ha. apply IH; [congruence|lia].
Qed.

Lemma reserve_all_total entries sems :
  NoDup entries.*1 →
  (∀ q n sem, (q, n) ∈ entries → sems !! q = Some sem →
     sem_is_closed sem = false ∧ 0 ≤ n ≤ sem_available sem) →
  ∃ sems', reserve_all entries sems = Ok sems'.
Proof.
  revert sems; induction entries as [|[k n] entries IH]; intros sems Hnd Hok; cbn [reserve_all]; [by eexists|].
  cbn in Hnd. apply NoDup_cons in Hnd as [Hni Hnd].
  destruct (sems !! k) as [sem|] eqn:Hk.
  - destruct (Hok k n sem ltac:(left) Hk) as [Hc Hn].
    destruct (reserve_n_total k n (Z.to_nat n) sem Hc ltac:(lia)) as [sem' Hr]. rewrite Hr. cbn [rbind].
    apply IH; [done|]. intros q m sem1 Hin Hq. rewrite lookup_insert_ne in Hq.
    + eapply Hok; [by right|done].
    + intros <-. apply Hni. apply list_elem_of_fmap. by exists (k, m).
  - apply IH; [done|]. intros q m sem1 Hin. apply Hok. by right.
Qed.

Lemma reserve_total config t rec :
  recovered_ok config t rec → capacities_fit config = true →
  (∀ q, count_jobs (live_in q) (rec_store rec) ≤ capacity_of config q) →
  ∃ sems, reserve_permits_for_recovered (new_semaphores config) rec = Ok sems.
Proof.
  intros R Hcf Hcap. apply reserve_all_total; [apply hash_iter_NoDup_fst|].
  intros q n sem Hin%elem_of_hash_iter Hsem.
  pose proof (permits_needed_live config t rec q R) as Hlive. rewrite Hin in Hlive.
  change (n = count_jobs (live_in q) (rec_store rec)) in Hlive.
  assert (0 ≤ capacity_of config q) as Hnn.
  { specialize (Hcap q). pose proof (mcount_nonneg (live_in q) (rec_store rec)). lia. }
  pose proof (free_new_semaphores config q Hcf Hnn) as Hfree. unfold free in Hfree. rewrite Hsem in Hfree.
  cbn [fmap option_fmap option_map default from_option id] in Hfree.
  rewrite new_semaphores_eq, lookup_fmap in Hsem. apply fmap_Some_1 in Hsem as (cap & Hq & ->).
  split; [apply sem_new_spec; unfold capacity_of in Hnn; rewrite Hq in Hnn; split; [done|by eapply capacities_fit_le]|]. specialize (Hcap q). pose proof (mcount_nonneg (live_in q) (rec_store rec)). lia.
Qed.

(** ** The retry timers *)

(** A deadline from the log is at most [i64::MAX] milliseconds away. *)
Lemma load_retries_total now wall st entries h queues :
  now + duration_from_millis (2 ^ 63 - 1) ≤ instant_max →
  ∃ r, load_retries now wall st entries h queues = Some r.
Proof.
  intros Hnow. revert h queues; induction entries as [|[id at_] entries IH]; intros h queues;
    cbn [load_retries]; [by eexists|].
  destruct (store_get st id) as [job|]; [|apply IH]. case_bool_decide; [|apply IH].
  unfold instant_add. cbn zeta.
  assert (duration_from_millis (Z.max (i64_wrap (as_millis at_ - as_millis wall)) 0)
          ≤ duration_from_millis (2 ^ 63 - 1)) as Hle.
  { unfold duration_from_millis. apply Z.mul_le_mono_nonneg_r; [done|].
    pose proof (i64_wrap_range (as_millis at_ - as_millis wall)) as Hr. unfold i64_range in *. lia. }
  rewrite (proj2 (Z.leb_le _ _)) by lia. apply IH.
Qed.
(** ** The restart *)

Lemma start_rebuilds t file config path rec file' :
  RuntimeConfig_validate config = Ok () → capacities_fit config = true → channel_capacity config ≤ MAX_PERMITS →
  cfg_storage config = WalStorage path → recover (env_wall t) false (Some file) config = Ok (rec, file') →
  recovered_ok config t rec → (∀ q, count_jobs (live_in q) (rec_store rec) ≤ capacity_of config q) →
  env_instant (S t) + duration_from_millis (2 ^ 63 - 1) ≤ instant_max →
  ∃ c, start t false (Some file) config = Ok (Some c) ∧ co_store c = rec_store rec.
Proof.
  intros Hv Hcf Hch Hsto Hrec R Hcap Hnow. unfold start. rewrite Hv. cbn [rbind].
  unfold open_with_recovery. rewrite Hsto, Hrec. cbn [rbind from_recovered map_err].
  rewrite Hcf. cbn [negb].
  destruct (reserve_total config t rec R Hcf Hcap) as [sems Hres]. rewrite Hres. cbn [rbind].
  rewrite (proj2 (Z.ltb_ge _ _)) by done.
  unfold with_rng_and_recovery.
  edestruct (load_retries_total (env_instant (S t)) (env_wall (S t)) (rec_store rec) (rec_retry_jobs rec)
    heap_new) as [[h queues] Hl]; [done|]. rewrite Hl. by eexists.
Qed.

(** C1: a crash costs nothing but time.  Start the queue on a log that a crash
    left, or on none, with a disk whose appends succeed or fail as a whole; let
    clients, workers, timers and failures interleave in any way and kill the
    process in any state.  Then [start] with the same configuration succeeds: it
    does not find the log corrupt, the capacity of the queues suffices for the
    unfinished jobs, and the coordinator it builds knows exactly the jobs that
    were known, as [survives] says.  The log is again one that [start] can be
    called on, so that this can go on forever. *)
Theorem restart_always_succeeds t0 locked file0 config path c sys w t :
  (∀ t, clean_io (env_io t)) → log_left t0 file0 → config_fits config →
  (∀ q, 0 ≤ capacity_of config q) → cfg_storage config = WalStorage path →
  start t0 locked file0 config = Ok (Some c) → rtc sys_step (started c t0) sys →
  co_storage (coord (sys_state sys)) = Storage_Wal w →
  let file := wt_file (ww_thread w) in
  zlen file ≤ u64_max → small (tick (sys_state sys)) → (tick (sys_state sys) ≤ t)%nat →
  Forall serializes (reconciliation (env_wall t) file) →
  env_instant (S t) + duration_from_millis (2 ^ 63 - 1) ≤ instant_max →
  log_left t (Some file)
  ∧ ∃ c', start t false (Some file) config = Ok (Some c')
      ∧ ∀ id, option_Forall2 survives (co_store (coord (sys_state sys)) !! id) (co_store c' !! id).
Proof.
  intros Hio Hleft Hfit Hcap Hwal Hst Hr Hsto file Hlen Hsm Ht Hser Hnow.
  destruct (reachable_durable _ _ _ _ _ _ Hio Hleft Hfit Hcap Hst Hr) as [I Hlive].
  assert (log_left t (Some file)) as Hleft' by (right; by exists (sys_state sys), w). split; [done|].
  destruct (crash_loses_nothing _ w (env_wall t) config I Hsm Hsto Hlen Hlive Hser) as (rec & file' & Hrec & Hs & Hcap').
  apply start_ok in Hst as (? & ? & ? & Hv & _ & Hcf & Hch & _).
  destruct (start_rebuilds t file config path rec file') as (c' & Hc' & Hst'); try done.
  - by eapply log_left_recovered.
  - exists c'. split; [done|]. intros id. by rewrite Hst'.
Qed.
End restart.

(** ** Witness *)

Section witnesses.
#[local] Existing Instance canonical_iter.
#[local] Existing Instance sorted_heap.
#[local] Existing Instance counting_semaphores.
#[local] Existing Instance steady_env.

(** The restarted example is killed again after the cancellations. *)
Definition ex_again_writer : WalWriter :=
  match co_storage (coord ex_cancelled) with
  | Storage_Wal w => w
  | Storage_Memory => mkWalWriter false (WriterThread_new [] 1)
  end.

Lemma restart_always_succeeds_witness :
  ∃ c', start 100 false (Some (wt_file (ww_thread ex_again_writer))) ex_wal_config = Ok (Some c')
    ∧ option_Forall2 survives (co_store (coord ex_cancelled) !! from_uuid 2) (co_store c' !! from_uuid 2).
Proof.
  destruct (restart_always_succeeds (tick ex_crash) false ex_left ex_wal_config "data" ex_restart
    (mkSystem ex_cancelled [] [] true) ex_again_writer 100 steady_clean ex_log_left ex_fits ex_capacity
    eq_refl ex_restart_start ex_cancelled_reached) as (_ & c' & Hc' & Hs).
  - vm_compute. reflexivity.
  - vm_compute. discriminate.
  - vm_compute. reflexivity.
  - apply Nat.leb_le. vm_compute. reflexivity.
  - apply serializes_forallb. vm_compute. reflexivity.
  - vm_compute. discriminate.
  - exact (ex_intro _ c' (conj Hc' (Hs (from_uuid 2)))).
Defined.
End witnesses.
