(* ===== verification/Client.v ===== *)
(** * Calls of the clients ([handle.rs], [runtime.rs])

    A call of [QueueHandle] or [Runtime] sends one command and waits for the
    reply; a call that finds the coordinator gone returns [ShuttingDown].  Every
    command that is in the channel is answered, or its caller learns that the
    queue is shutting down: no request is forgotten. *)

From S2P Require Import Prelude Types Config Store Codec ConcreteWire Scanner Writer Recovery.
From S2P Require Import RecoveryProofs RecoveryTotal RetryHeap Environment Coordinator Quiet QueueInv CoordinatorInv.
From S2P Require Import CoordinatorSafe CoordinatorLoop CoordinatorInit CoordinatorProps CoordinatorReplies.
From S2P Require Import Durability Runtime RuntimeProofs.

Section client.
Context `{W : Wire} `{HI : HashIter} `{RH : RetryHeap} `{SM : Semaphores} `{EN : Env}.

(** ** Channels *)

(** Where the reply to a command goes. *)
Definition command_reply (cmd : Command) : option Sender :=
  match cmd with
  | Cmd_Submit _ _ _ reply | Cmd_Status _ reply | Cmd_Cancel _ reply | Cmd_Stats reply
  | Cmd_FetchWork reply | Cmd_Shutdown reply => Some reply
  | Cmd_WorkerOutcome _ _ _ => None
  end.

(** [cmd_tx.send(cmd).await.map_err(|_| Error::ShuttingDown)], for the sender that
    waits with the command whose reply goes to [reply]: [None] while the channel
    is full; when the coordinator is gone the command is dropped. *)
Definition cmd_send (reply : Sender) (sys : System) : option (Result unit * System) :=
  match list_find (λ cmd, command_reply cmd = Some reply) (sys_waiting sys) with
  | None => None
  | Some (i, cmd) =>
      let s := sys_state sys in
      if negb (sys_running sys) then
        Some (Err ShuttingDown, mkSystem (drop_command cmd s) (delete i (sys_waiting sys)) (sys_channel sys) false)
      else if channel_capacity (co_config (coord s)) <=? zlen (sys_channel sys) then None
      else Some (Ok (), mkSystem s (delete i (sys_waiting sys)) (sys_channel sys ++ [cmd]) true)
  end.

(** The message that was sent to a one-shot receiver. *)
Fixpoint reply_to (to : Sender) (effs : list Effect) : option Reply :=
  match effs with
  | [] => None
  | Sent to' r _ :: effs => if bool_decide (to' = to) then Some r else reply_to to effs
  | _ :: effs => reply_to to effs
  end.

(** [reply_rx.await.map_err(|_| Error::ShuttingDown)]: the sender is dropped with
    the coordinator; [None] while there is nothing to receive. *)
Definition recv (reply : Sender) (sys : System) : option (Result Reply) :=
  match reply_to reply (trace (sys_state sys)) with
  | Some r => Some (Ok r)
  | None => if sys_running sys then None else Some (Err ShuttingDown)
  end.

(** The one-shot channels are typed; the other constructors are not sent on them
    ([requests_answered_once]). *)
Definition expect_job (r : Result Reply) : Result JobRecord :=
  match r with
  | Ok (Reply_job r) => r
  | Ok _ => Err ShuttingDown
  | Err e => Err e
  end.
Definition expect_stats (r : Result Reply) : Result StatsSnapshot :=
  match r with
  | Ok (Reply_stats s) => Ok s
  | Ok _ => Err ShuttingDown
  | Err e => Err e
  end.

(** ** Calls *)

(** A call: what it does until its command waits for a place in the channel, or an
    error; then [cmd_send] with the receiver of the reply; then the reply. *)
Record Call (A : Type) := mkCall {
  call_begin : System → option (Result unit * System);
  call_reply : Sender;
  call_end : System → option (Result A);
}.
Arguments mkCall {A}.
Arguments call_begin {A}.
Arguments call_end {A}.

(** The sender starts to wait with its command. *)
Definition enqueue (cmd : Command) (sys : System) : option (Result unit * System) :=
  Some (Ok (), mkSystem (sys_state sys) (sys_waiting sys ++ [cmd]) (sys_channel sys) (sys_running sys)).

(** A submission that got its permit waits with it; the error of the semaphore is
    returned. *)
Definition with_permit (r : option (Result Command * State)) (sys : System) : option (Result unit * System) :=
  match r with
  | None => None
  | Some (Err e, s) => Some (Err e, mkSystem s (sys_waiting sys) (sys_channel sys) (sys_running sys))
  | Some (Ok cmd, s) => enqueue cmd (mkSystem s (sys_waiting sys) (sys_channel sys) (sys_running sys))
  end.

Definition call_submit (queue : QueueName) (spec : JobSpec) (reply : Sender) : Call JobRecord :=
  mkCall (λ sys, with_permit
            match submit queue spec reply (sys_state sys) with
            | Some (Some r, s) => Some (r, s)
            | _ => None
            end sys)
    reply (λ sys, expect_job <$> recv reply sys).

Definition call_try_submit (queue : QueueName) (spec : JobSpec) (reply : Sender) : Call JobRecord :=
  mkCall (λ sys, with_permit (try_submit queue spec reply (sys_state sys)) sys)
    reply (λ sys, expect_job <$> recv reply sys).

Definition call_status (id : JobId) (reply : Sender) : Call JobRecord :=
  mkCall (enqueue (Cmd_Status id reply)) reply (λ sys, expect_job <$> recv reply sys).

Definition call_cancel (id : JobId) (reply : Sender) : Call JobRecord :=
  mkCall (enqueue (Cmd_Cancel id reply)) reply (λ sys, expect_job <$> recv reply sys).

Definition call_stats (reply : Sender) : Call StatsSnapshot :=
  mkCall (enqueue (Cmd_Stats reply)) reply (λ sys, expect_stats <$> recv reply sys).

(** The same calls of [QueueHandle]; its [submit] and [try_submit] are those of
    the runtime. *)
Definition handle_status (id : JobId) (reply : Sender) : Call JobRecord :=
  mkCall (enqueue (Cmd_Status id reply)) reply (λ sys, expect_job <$> recv reply sys).
Definition handle_cancel (id : JobId) (reply : Sender) : Call JobRecord :=
  mkCall (enqueue (Cmd_Cancel id reply)) reply (λ sys, expect_job <$> recv reply sys).
Definition handle_stats (reply : Sender) : Call StatsSnapshot :=
  mkCall (enqueue (Cmd_Stats reply)) reply (λ sys, expect_stats <$> recv reply sys).

(** [Runtime::start]: [start], with the coordinator at the top of its loop, an
    empty channel and [worker_concurrency] workers that are about to fetch work. *)
Definition Runtime_start (t : nat) (locked : bool) (file : option (list byte)) (config : RuntimeConfig)
    : Result (option (System * Z)) :=
  try c := start t locked file config in
  Ok ((λ c, (mkSystem (mkState c (S (S t)) []) [] [] true, worker_concurrency config)) <$> c).

(** [Runtime::is_shutting_down] *)
Definition is_shutting_down (sys : System) : bool :=
  existsb (λ e, match e with
                | TokenCancelled token => (token =? co_shutdown_token (coord (sys_state sys)))%N
                | _ => false
                end) (trace (sys_state sys)).

(** [Runtime::shutdown]: where it waits. *)
Inductive ShutdownPhase :=
| Sd_begin
| Sd_sending
| Sd_replying
| Sd_joining_workers
| Sd_joining_coordinator
| Sd_returned.

(** One step of it; [None] while it waits.  [workers_done] is whether the task of
    the workers has ended. *)
Definition runtime_shutdown (reply : Sender) (workers_done : bool) (phase : ShutdownPhase) (sys : System)
    : option (ShutdownPhase * System) :=
  match phase with
  | Sd_begin =>
      match enqueue (Cmd_Shutdown reply) sys with
      | Some (_, sys) => Some (Sd_sending, sys)
      | None => None
      end
  | Sd_sending =>
      match cmd_send reply sys with
      | Some (_, sys) => Some (Sd_replying, sys)
      | None => None
      end
  | Sd_replying =>
      match recv reply sys with
      | Some _ => Some (Sd_joining_workers, sys)
      | None => None
      end
  | Sd_joining_workers => if workers_done then Some (Sd_joining_coordinator, sys) else None
  | Sd_joining_coordinator => if negb (sys_running sys) then Some (Sd_returned, sys) else None
  | Sd_returned => None
  end.

(** ** Calls are steps of the system *)

Lemma enqueue_step cmd sys sys' :
  is_submit_command cmd = false → enqueue cmd sys = Some (Ok (), sys') → sys_step sys sys'.
Proof. intros Hc. destruct sys as [s wt ch b]. intros [= <-]. by apply step_request. Qed.

(** Sending is a step; a command that was sent is in the channel. *)
Lemma cmd_send_step reply sys r sys' :
  cmd_send reply sys = Some (r, sys') →
  sys_step sys sys'
  ∧ (r = Ok () → ∃ cmd, command_reply cmd = Some reply ∧ cmd ∈ sys_waiting sys ∧ cmd ∈ sys_channel sys').
Proof.
  destruct sys as [s wt ch b]. unfold cmd_send. sys_simpl.
  destruct (list_find _ wt) as [[i cmd]|] eqn:Hf; [|done]. apply list_find_Some in Hf as (Hi & Hr & _).
  destruct b; cbn [negb]; [|intros [= <- <-]; split; [by apply step_abandon|done]].
  destruct (Z.leb_spec (channel_capacity (co_config (coord s))) (zlen ch)); [done|]. intros [= <- <-].
  split; [by apply step_send|]. intros _. exists cmd. split_and!; [done|by eapply list_elem_of_lookup_2|].
  apply elem_of_app. right. left.
Qed.

(** The command that a submission sends. *)
Lemma try_submit_command queue spec reply s cmd s' :
  try_submit queue spec reply s = Some (Ok cmd, s') →
  cmd = Cmd_Submit queue spec (as_str queue) reply.
Proof.
  unfold try_submit, mbind, action_bind, mret, action_ret, get, modify. cbn.
  destruct (co_semaphores (coord s) !! as_str queue) as [sem|]; [|done].
  destruct (sem_try_acquire sem) as [[[]|e] sem']; cbn; by intros [= <- <-].
Qed.

Lemma submit_command queue spec reply s cmd s' :
  submit queue spec reply s = Some (Some (Ok cmd), s') →
  cmd = Cmd_Submit queue spec (as_str queue) reply.
Proof.
  unfold submit, mbind, action_bind, mret, action_ret, get, modify. cbn.
  destruct (co_semaphores (coord s) !! as_str queue) as [sem|]; [|done].
  destruct (sem_try_acquire sem) as [[[]|[]] sem']; cbn; by intros [= <- <-].
Qed.

(** Both kinds of submission. *)
Lemma submission_step queue spec reply sys sys' :
  u32_range (max_attempts spec) →
  call_begin (call_submit queue spec reply) sys = Some (Ok (), sys')
  ∨ call_begin (call_try_submit queue spec reply) sys = Some (Ok (), sys') →
  sys_step sys sys' ∧ Cmd_Submit queue spec (as_str queue) reply ∈ sys_waiting sys'.
Proof.
  intros Hmax [H|H]; destruct sys as [s wt ch b]; cbn [call_begin call_submit call_try_submit sys_state] in H.
  - destruct (submit queue spec reply s) as [[[[cmd|e]|] s']|] eqn:Hs; [|done..].
    cbn [with_permit enqueue] in H. injection H as <-. pose proof (submit_command _ _ _ _ _ _ Hs) as ->.
    split; [by eapply step_submit|]. sys_simpl. apply elem_of_app. right. left.
  - destruct (try_submit queue spec reply s) as [[[cmd|e] s']|] eqn:Hs; [|done..].
    cbn [with_permit enqueue] in H. injection H as <-. pose proof (try_submit_command _ _ _ _ _ _ Hs) as ->.
    split; [by eapply step_try_submit|]. sys_simpl. apply elem_of_app. right. left.
Qed.
End client.

Arguments call_begin {_ _ _}.
Arguments call_end {_ _ _}.

(** ** What the coordinator owes *)

Section promises.
Context `{W : Wire} `{HI : HashIter} `{RH : RetryHeap} `{SM : Semaphores} `{EN : Env}.

(** Nobody waits for a shutdown that was not asked for. *)
Definition no_early_reply (c : Coordinator) : Prop :=
  co_shutting_down c = false → co_shutdown_reply c = None.

(** Between [s] and [s'] the coordinator forgot nobody: a parked worker is still
    parked or was told, and so with the requester of the shutdown. *)
Definition promised (s s' : State) : Prop :=
  no_early_reply (coord s) →
  no_early_reply (coord s') ∧ trace s `prefix_of` trace s'
  ∧ (∀ w, w ∈ co_parked_workers (coord s) →
       w ∈ co_parked_workers (coord s') ∨ ∃ r a, Sent w (Reply_work r) a ∈ trace s')
  ∧ ∀ r, co_shutdown_reply (coord s) = Some r →
       co_shutdown_reply (coord s') = Some r ∨ ∃ a, Sent r Reply_done a ∈ trace s'.

Lemma elem_of_prefix {A} (x : A) l l' : x ∈ l → l `prefix_of` l' → x ∈ l'.
Proof. intros Hx [k ->]. apply elem_of_app. by left. Qed.

#[global] Instance promised_preorder : PreOrder promised.
Proof.
  split.
  - intros s Hq. split_and!; auto.
  - intros s1 s2 s3 H12 H23 H1. destruct (H12 H1) as (H2 & P12 & W12 & R12).
    destruct (H23 H2) as (H3 & P23 & W23 & R23). split_and!; [done|by etrans| |].
    + intros w [Hw|(r & a & Hs)]%W12; [by apply W23|]. right. exists r, a. by eapply elem_of_prefix.
    + intros r [Hr|(a & Hs)]%R12; [by apply R23|]. right. exists a. by eapply elem_of_prefix.
Qed.

Definition promising {A} (m : act A) : Prop := ∀ s a s', m s = Some (a, s') → promised s s'.

Lemma promising_bind {A B} (m : act A) (k : A → act B) :
  promising m → (∀ a, promising (k a)) → promising (m ≫= k).
Proof. intros Hm Hk s b s' (a & s1 & H1 & H2)%bind_result. etrans; [by eapply Hm|by eapply Hk]. Qed.

Lemma promising_quiet {A} E (m : act A) : quiet E lease_kept m → promising m.
Proof.
  intros Hm s a s' H. destruct (Hm _ _ _ H) as [(effs & Ht & _) Hk]. unfold lease_kept in Hk.
  assert (co_parked_workers (coord s') = co_parked_workers (coord s)
    ∧ co_shutting_down (coord s') = co_shutting_down (coord s)
    ∧ co_shutdown_reply (coord s') = co_shutdown_reply (coord s)) as (Hpk & Hsh & Hr) by (split_and!; congruence).
  intros Hq. unfold no_early_reply in *. rewrite Hpk, Hsh, Hr. split_and!; [done| |auto|auto].
  rewrite Ht. by apply prefix_app_r.
Qed.

Lemma dispatch_loop_promising fuel : promising (dispatch_loop fuel).
Proof.
  induction fuel as [|fuel IH]; cbn [dispatch_loop]; [by eapply (promising_quiet unsent), quiet_ret|].
  apply promising_bind; [by eapply (promising_quiet unsent), quiet_get|]. intros c.
  case_bool_decide as Hnil; [by eapply (promising_quiet unsent), quiet_ret|].
  apply promising_bind; [by eapply promising_quiet, try_lease_job_quiet|]. intros [job|];
    [|by eapply (promising_quiet unsent), quiet_ret].
  intros s b s' (c' & s1 & [= <- <-] & H)%bind_result.
  apply bind_result in H as ([] & s2 & Hp & H). apply IH in H. etrans; [|exact H]. clear H.
  destruct (co_parked_workers (coord s)) as [|w parked] eqn:Hw.
  - injection Hp as <-. reflexivity.
  - injection Hp as <-. intros Hq. split_and!; st_simpl; [done|by apply prefix_app_r| |auto].
    rewrite Hw. intros w' [->|Hin]%elem_of_cons; [|by left]. right. do 2 eexists. apply elem_of_app. right. left.
Qed.
End promises.

Ltac promising_tac :=
  repeat first
    [ match goal with |- promising (mbind _ _) => apply promising_bind; [|intros ?] end
    | (eapply (promising_quiet (λ _, True)); solve [quiet_tac])
    | match goal with |- promising (match ?x with _ => _ end) => destruct x end ].

Section promises2.
Context `{W : Wire} `{HI : HashIter} `{RH : RetryHeap} `{SM : Semaphores} `{EN : Env}.

Lemma try_dispatch_promising : promising try_dispatch_parked_workers.
Proof. unfold try_dispatch_parked_workers. promising_tac. apply dispatch_loop_promising. Qed.

Lemma do_submit_promising queue spec permit : promising (do_submit queue spec permit).
Proof. unfold do_submit. promising_tac. apply try_dispatch_promising. Qed.

Lemma send_promising to r : promising (send to r;; mret ()).
Proof. promising_tac. Qed.

Lemma do_fetch_work_promising reply : promising (do_fetch_work reply).
Proof.
  unfold do_fetch_work. promising_tac; [by eapply promising_quiet, try_lease_job_quiet|].
  intros s [] s' [= <-] Hq. split_and!; st_simpl; [done|done| |auto].
  intros w Hw. left. apply elem_of_app. by left.
Qed.

Lemma complete_shutdown_promising : promising complete_shutdown.
Proof.
  intros s [] s' (c & s1 & [= <- <-] & H)%bind_result.
  destruct (co_shutdown_reply (coord s)) as [r|] eqn:Hr; injection H as <-; [|reflexivity].
  intros Hq. split_and!; st_simpl; [done|by apply prefix_app_r|auto|].
  intros r' [= <-]%(eq_trans (eq_sym Hr)). right. eexists. apply elem_of_app. right. left.
Qed.

Lemma start_shutdown_promising reply : promising (start_shutdown reply).
Proof.
  intros s [] s' (c & s1 & [= <- <-] & H)%bind_result.
  destruct (co_shutting_down (coord s)) eqn:Hsh; [by apply send_promising in H|].
  apply bind_result in H as ([] & s1 & [= <-] & H). apply bind_result in H as ([] & s2 & [= <-] & H).
  apply bind_result in H as ([] & s3 & [= <-] & H). apply bind_result in H as ([] & s4 & Hd & H).
  unfold dismiss_parked in Hd. apply bind_result in Hd as (c & s5 & [= <- <-] & Hd).
  apply bind_result in Hd as ([] & s6 & [= <-] & Hd). apply dismiss_replies in Hd as [Hc (effs & Ht & _ & Hall)].
  unfold happened in Ht. st_simpl. intros Hq. specialize (Hq Hsh).
  assert (co_shutting_down (coord s') = true ∧ trace s4 `prefix_of` trace s') as [Hsh' Hpre].
  { case_bool_decide; [injection H as <-; rewrite Hc; by split; [|apply prefix_app_r]|].
    apply bind_result in H as (now & s7 & [= <- <-] & H). apply bind_result in H as (d & s8 & Hu & H).
    unfold unwrap in Hu. destruct (instant_add _ _); [|done]. injection Hu as <- <-. injection H as <-.
    st_simpl. by rewrite Hc. }
  split_and!.
  - unfold no_early_reply. congruence.
  - etrans; [|exact Hpre]. rewrite Ht, <-app_assoc. by apply prefix_app_r.
  - intros w Hw. right. destruct (Hall w Hw) as [a Ha]. exists None, a. eapply elem_of_prefix; [|exact Hpre].
    rewrite Ht. apply elem_of_app. by right.
  - intros r Hr. congruence.
Qed.

Lemma handle_promising cmd : promising (handle cmd).
Proof.
  destruct cmd as [queue spec permit reply|id reply|id reply|reply|reply|id lid o|reply]; cbn [handle].
  - promising_tac. apply do_submit_promising.
  - unfold do_status. promising_tac.
  - promising_tac. by eapply promising_quiet, do_cancel_quiet.
  - promising_tac.
  - apply do_fetch_work_promising.
  - by eapply promising_quiet, do_worker_outcome_quiet.
  - apply start_shutdown_promising.
Qed.

Lemma turn_promising : promising turn.
Proof.
  unfold turn. apply promising_bind; [by eapply promising_quiet, process_due_retries_quiet|intros _].
  apply promising_bind; [by eapply promising_quiet, check_lease_timeouts_quiet|intros _].
  apply promising_bind; [apply try_dispatch_promising|intros _].
  unfold force_shutdown. promising_tac; apply complete_shutdown_promising.
Qed.
End promises2.

(** ** No request is forgotten *)

Section forgotten.
Context `{W : Wire} `{HI : HashIter} `{RH : RetryHeap} `{SM : Semaphores} `{EN : Env}.

(** The command was handled: its reply is sent, with the type its receiver waits
    for, or the coordinator remembers that it owes one. *)
Definition resolved (cmd : Command) (s : State) : Prop :=
  match cmd with
  | Cmd_Submit _ _ _ reply | Cmd_Status _ reply | Cmd_Cancel _ reply =>
      ∃ r a, Sent reply (Reply_job r) a ∈ trace s
  | Cmd_Stats reply => ∃ r a, Sent reply (Reply_stats r) a ∈ trace s
  | Cmd_FetchWork reply => reply ∈ co_parked_workers (coord s) ∨ ∃ r a, Sent reply (Reply_work r) a ∈ trace s
  | Cmd_WorkerOutcome _ _ _ => True
  | Cmd_Shutdown reply => co_shutdown_reply (coord s) = Some reply ∨ ∃ a, Sent reply Reply_done a ∈ trace s
  end.

Lemma resolved_promised cmd s s' :
  promised s s' → no_early_reply (coord s) → resolved cmd s → resolved cmd s'.
Proof.
  intros HP Hq. destruct (HP Hq) as (_ & Hpre & Hw & Hr).
  assert (∀ e, e ∈ trace s → e ∈ trace s') as Htr by (intros e He; by eapply elem_of_prefix).
  destruct cmd; cbn [resolved]; try naive_solver.
Qed.

Lemma answered_sent s to r effs s' : answered s to r effs s' → ∃ a, Sent to r a ∈ effs.
Proof. intros (before & a & -> & _). exists a. apply elem_of_app. right. left. Qed.

Lemma handled_resolved cmd s s' : handle cmd s = Some ((), s') → resolved cmd s'.
Proof.
  intros Hh. destruct (handle_replies s cmd s' Hh) as (effs & Ht & Hr). unfold happened in Ht.
  assert (∀ e, e ∈ effs → e ∈ trace s') as Hin by (intros e He; rewrite Ht; apply elem_of_app; by right).
  destruct cmd as [queue spec permit reply|id reply|id reply|reply|reply|id lid o|reply]; cbn [reply_spec resolved] in *.
  1,3: destruct Hr as (r & [a Ha]%answered_sent); by eauto.
  - apply answered_sent in Hr as [a Ha]. by eauto.
  - apply answered_sent in Hr as [a Ha]. by eauto.
  - destruct Hr as [(w & [a Ha]%answered_sent)|[_ ->]]; [by eauto|]. left. apply elem_of_app. right. left.
  - done.
  - destruct Hr as [(before & a & -> & _)|[Hr _]]; [|by left]. right. exists a. apply Hin, elem_of_app. right. left.
Qed.

(** A command is waiting, or resolved, or the coordinator has stopped. *)
Definition accounted (cmd : Command) (sys : System) : Prop :=
  cmd ∈ sys_channel sys ∨ resolved cmd (sys_state sys) ∨ sys_running sys = false.

Lemma sems_promised sems (s : State) :
  promised s (mkState (set_semaphores sems (coord s)) (tick s) (trace s)).
Proof. intros Hq. split_and!; st_simpl; auto. Qed.

Lemma sys_step_promised sys sys' :
  sys_step sys sys' → sys_running sys' = true → promised (sys_state sys) (sys_state sys').
Proof.
  intros Hstep Hrun.
  destruct Hstep as [queue spec reply s s' cmd wt ch b Hsub _|queue spec reply s s' cmd wt ch b Hsub _
    |cmd s wt ch b _|i cmd s wt ch _ _|i cmd s wt ch b _|s s' wt ch b Hclose|s s1 s2 nd cmd wt ch Hturn Hh
    |s s1 d wt Hturn _|s s1 wt ch Hturn]; sys_simpl.
  - unfold try_submit, mbind, action_bind, mret, action_ret, get, modify in Hsub. cbn in Hsub.
    destruct (co_semaphores (coord s) !! as_str queue) as [sem|]; [|done].
    destruct (sem_try_acquire sem) as [[[]|e] sem']; cbn in Hsub; simplify_eq. apply sems_promised.
  - unfold submit, mbind, action_bind, mret, action_ret, get, modify in Hsub. cbn in Hsub.
    destruct (co_semaphores (coord s) !! as_str queue) as [sem|]; [|done].
    destruct (sem_try_acquire sem) as [[[]|[]] sem']; cbn in Hsub; simplify_eq. apply sems_promised.
  - reflexivity.
  - reflexivity.
  - destruct cmd; cbn [drop_command]; [apply sems_promised|reflexivity..].
  - injection Hclose as <-. apply sems_promised.
  - etrans; [by eapply turn_promising|by eapply handle_promising].
  - by eapply turn_promising.
  - done.
Qed.

Lemma sys_step_accounted cmd sys sys' :
  sys_step sys sys' → no_early_reply (coord (sys_state sys)) → accounted cmd sys →
  accounted cmd sys' ∧ (sys_running sys' = true → no_early_reply (coord (sys_state sys'))).
Proof.
  intros Hstep Hq Hacc. pose proof (sys_step_promised _ _ Hstep) as HP.
  split; [|intros Hr; by apply HP]. destruct (sys_running sys') eqn:Hr; [|by right; right].
  specialize (HP eq_refl). destruct Hacc as [Hin|[Hres|Hstop]].
  - destruct Hstep as [ | | | | | |s s1 s2 nd cmd' wt ch Hturn Hh| | ]; sys_simpl;
      try (left; sys_simpl; apply elem_of_app; by left); try by left; [].
    apply elem_of_cons in Hin as [->|Hin]; [|by left]. right. left. by eapply handled_resolved.
  - right. left. by eapply resolved_promised.
  - by destruct Hstep; sys_simpl; subst.
Qed.

Lemma stopped_stays sys sys' : rtc sys_step sys sys' → sys_running sys = false → sys_running sys' = false.
Proof. induction 1 as [|x y z Hxy _ IH]; intros Hs; [done|]. apply IH. by destruct Hxy; sys_simpl; subst. Qed.

Lemma rtc_accounted cmd sys sys' :
  rtc sys_step sys sys' → no_early_reply (coord (sys_state sys)) → accounted cmd sys →
  accounted cmd sys' ∧ (sys_running sys' = true → no_early_reply (coord (sys_state sys'))).
Proof.
  induction 1 as [|x y z Hxy Hyz IH]; intros Hq Hacc; [done|].
  destruct (sys_step_accounted cmd x y Hxy Hq Hacc) as [Hacc' Hq']. destruct (sys_running y) eqn:Hy; [by apply IH; auto|].
  pose proof (stopped_stays _ _ Hyz Hy) as Hz. split; [by right; right|]. congruence.
Qed.

(** A reply that was sent can be received. *)
Lemma recv_sent reply r a sys : Sent reply r a ∈ trace (sys_state sys) → is_Some (recv reply sys).
Proof.
  intros Hin. unfold recv. destruct (reply_to reply (trace (sys_state sys))) eqn:Hr; [by eexists|].
  exfalso. induction (trace (sys_state sys)) as [|e effs IH]; [by apply elem_of_nil in Hin|].
  apply elem_of_cons in Hin as [<-|Hin]; cbn in Hr; [by rewrite bool_decide_true in Hr|].
  destruct e; [case_bool_decide; [done|]|..]; by apply IH.
Qed.

(** The receiver of a request of a client. *)
Definition client_reply (cmd : Command) : option Sender :=
  match cmd with
  | Cmd_Submit _ _ _ reply | Cmd_Status _ reply | Cmd_Cancel _ reply | Cmd_Stats reply => Some reply
  | _ => None
  end.

(** C12: no request is forgotten, whatever clients, workers, timers, failures and
    shutdowns do: as long as the coordinator runs, a command that got into the
    channel is still waiting there in its turn, or was handled and its reply was
    sent with the right type, or its sender is among the parked workers or is the
    one who waits for the shutdown.  The call of a client whose request left the
    channel has its result, at the latest when the coordinator stops. *)
Theorem no_request_forgotten t locked file config c sys cmd sys' :
  start t locked file config = Ok (Some c) → rtc sys_step (started c t) sys →
  cmd ∈ sys_channel sys → rtc sys_step sys sys' →
  accounted cmd sys'
  ∧ ∀ reply, client_reply cmd = Some reply → cmd ∈ sys_channel sys' ∨ is_Some (recv reply sys').
Proof.
  intros Hst Hr Hin Hr'.
  assert (no_early_reply (coord (sys_state (started c t)))) as H0.
  { apply start_ok in Hst as (sto & recd & sems & _ & _ & _ & _ & _ & Hc). unfold with_rng_and_recovery in Hc.
    destruct recd as [rec|]; [|injection Hc as <-; done].
    destruct (load_retries _ _ _ _ _ _) as [[h qs]|]; [|done]. injection Hc as <-. done. }
  assert (accounted cmd sys') as Hacc.
  { destruct (sys_running sys) eqn:Hrun.
    - destruct (rtc_accounted (Cmd_WorkerOutcome (from_uuid 0) (LeaseId_new 0) Outcome_Success) _ _ Hr H0)
        as [_ Hq]; [by right; left|]. apply (rtc_accounted cmd _ _ Hr' (Hq Hrun)). by left.
    - right. right. by apply (stopped_stays _ _ Hr'). }
  split; [done|]. intros reply Hc. destruct Hacc as [?|[Hres|Hstop]]; [by left|right..].
  - destruct cmd; cbn in Hc, Hres; simplify_eq; destruct Hres as (r & a & Hin'); by eapply recv_sent.
  - unfold recv. rewrite Hstop. destruct (reply_to _ _); by eexists.
Qed.
End forgotten.

(** A queue whose semaphore is closed refuses both kinds of submission, [submit]
    with [ShuttingDown], but [try_submit] with [QueueFull]. *)
Lemma closed_queue_calls `{W : Wire} `{HI : HashIter} `{RH : RetryHeap} `{SM : Semaphores} `{!SemaphoresLaws SM}
    `{EN : Env} queue spec reply sys sem :
  co_semaphores (coord (sys_state sys)) !! as_str queue = Some sem → sem_is_closed sem = true →
  fst <$> call_begin (call_submit queue spec reply) sys = Some (Err ShuttingDown)
  ∧ fst <$> call_begin (call_try_submit queue spec reply) sys = Some (Err (QueueFull (as_str queue))).
Proof.
  intros Hsem Hc. pose proof (sem_try_acquire_spec sem) as (Hr & _). rewrite Hc in Hr.
  cbn [call_begin call_submit call_try_submit].
  unfold submit, try_submit, mbind, action_bind, mret, action_ret, get, modify. rewrite Hsem.
  destruct (sem_try_acquire sem) as [r sem']. cbn in Hr. subst r. split; done.
Qed.

(** ** Witness *)

Section witnesses.
#[local] Existing Instance canonical_iter.
#[local] Existing Instance sorted_heap.
#[local] Existing Instance counting_semaphores.
#[local] Existing Instance steady_env.

(** The first request to the restarted example. *)
Definition ex_ask : Command := Cmd_Status (from_uuid 2) 7%N.
Definition ex_before : State := mkState ex_restart (S (S (tick ex_crash))) [].

Lemma ex_ask_sent : rtc sys_step (started ex_restart (tick ex_crash)) (mkSystem ex_before [] [ex_ask] true).
Proof.
  refine (rtc_l _ _ (mkSystem ex_before [ex_ask] [] true) _ (step_request ex_ask ex_before [] [] true _)
    (rtc_once _ _ (step_send 0 ex_ask ex_before [ex_ask] [] _ _))); vm_compute; reflexivity.
Qed.

Definition ex_turned : State := match turn ex_before with Some (_, s) => s | None => ex_before end.
Definition ex_deadline : option Z := match turn ex_before with Some (Some nd, _) => nd | _ => None end.

Lemma ex_ask_handled :
  rtc sys_step (mkSystem ex_before [] [ex_ask] true) (mkSystem (ex_serve ex_ask ex_before) [] [] true).
Proof. apply rtc_once, (step_command ex_before ex_turned _ ex_deadline); vm_compute; reflexivity. Qed.

Lemma no_request_forgotten_witness : is_Some (recv 7%N (mkSystem (ex_serve ex_ask ex_before) [] [] true)).
Proof.
  destruct (no_request_forgotten (tick ex_crash) false ex_left ex_wal_config ex_restart _ ex_ask _
    ex_restart_start ex_ask_sent (list_elem_of_here _ _) ex_ask_handled) as [_ H].
  exact (match H 7%N eq_refl with
         | or_introl Hin => False_ind _ (not_elem_of_nil _ Hin)
         | or_intror Hr => Hr
         end).
Defined.

(** The recovered job is ready again: its retry was due in the first turn. *)
Example ex_ask_answer :
  match recv 7%N (mkSystem (ex_serve ex_ask ex_before) [] [] true) with
  | Some r => match expect_job r with Ok job => job_state job = Queued | Err _ => False end
  | None => False
  end.
Proof. vm_compute. reflexivity. Qed.
End witnesses.
