(* ===== verification/Worker.v ===== *)
(** * Workers ([worker.rs])

    A worker asks the coordinator for a job, runs the handler and reports the
    outcome, and gives up whatever it waits for when the runtime shuts down.
    What the outside does to a worker (when a reply or the handler's result is
    there, when the token is cancelled, whether the channel is open) is a script
    of polls; a script that ends leaves the worker waiting. *)

From S2P Require Import Prelude Types Config Store Codec ConcreteWire Scanner Writer Recovery.
From S2P Require Import RecoveryProofs RetryHeap Environment Coordinator QueueInv CoordinatorInv.
From S2P Require Import CoordinatorSafe CoordinatorLoop CoordinatorInit CoordinatorProps.

(** What the spawned handler task ends with. *)
Inductive TaskResult :=
| Task_done (r : result unit JobError)
| Task_join_error (is_panic : bool).

(** A poll of [select! { biased; result = future => .., _ = token.cancelled() => .. }]:
    what the future has, and whether the token is cancelled. *)
Definition polls (A : Type) : Type := list (option A * bool).

Fixpoint biased_select {A B} (on_result : A → B) (on_cancelled : B) (ps : polls A) : option B :=
  match ps with
  | [] => None
  | (Some a, _) :: _ => Some (on_result a)
  | (None, true) :: _ => Some on_cancelled
  | (None, false) :: ps => biased_select on_result on_cancelled ps
  end.

Definition outcome_of_task (result : TaskResult) : WorkerOutcome :=
  match result with
  | Task_done (Ok _) => Outcome_Success
  | Task_done (Err e) => if is_retryable e then Outcome_Retryable else Outcome_Fatal
  | Task_join_error _ => Outcome_Panic
  end.

(** The handler is [ps]; [None] while it runs. *)
Definition execute_with_cancellation (ps : polls TaskResult) : option WorkerOutcome :=
  biased_select outcome_of_task Outcome_Retryable ps.

(** The reply channel gives a job, [None], or an error when it was dropped. *)
Definition fetch_work (sent : bool) (ps : polls (result (option LeasedJob) unit))
    : option (option LeasedJob) :=
  if negb sent then Some None
  else biased_select (λ r, match r with Ok w => w | Err _ => None end) None ps.

(** One turn of the loop, as the outside makes it. *)
Record WorkerTurn := mkWorkerTurn {
  wt_cancelled : bool;
  wt_reply : Sender;
  wt_fetch_sent : bool;
  wt_fetch : polls (result (option LeasedJob) unit);
  wt_handler : polls TaskResult;
  wt_outcome_sent : bool;
}.

Inductive WorkerState :=
(** the loop has ended *)
| Worker_stopped
(** at the top of the loop *)
| Worker_idle
(** in [fetch_work] *)
| Worker_fetching
(** in [execute_with_cancellation] *)
| Worker_executing (leased : LeasedJob).

(** The commands of one turn, and where it leaves the worker. *)
Definition worker_turn (t : WorkerTurn) : list Command * WorkerState :=
  if wt_cancelled t then ([], Worker_stopped)
  else
    let fetch := if wt_fetch_sent t then [Cmd_FetchWork (wt_reply t)] else [] in
    match fetch_work (wt_fetch_sent t) (wt_fetch t) with
    | None => (fetch, Worker_fetching)
    | Some None => (fetch, Worker_stopped)
    | Some (Some leased) =>
        let job_id := ctx_id (lj_context leased) in
        let lease_id := lj_lease_id leased in
        match execute_with_cancellation (wt_handler t) with
        | None => (fetch, Worker_executing leased)
        | Some outcome =>
            (fetch ++ (if wt_outcome_sent t then [Cmd_WorkerOutcome job_id lease_id outcome] else []),
             Worker_idle)
        end
    end.

Fixpoint worker_loop (turns : list WorkerTurn) : list Command * WorkerState :=
  match turns with
  | [] => ([], Worker_idle)
  | t :: turns =>
      match worker_turn t with
      | (cmds, Worker_idle) => let '(cmds', st) := worker_loop turns in (cmds ++ cmds', st)
      | (cmds, st) => (cmds, st)
      end
  end.

Definition is_stopped (st : WorkerState) : bool :=
  match st with Worker_stopped => true | _ => false end.

(** [run_workers]: [concurrency] workers, each with its own script; the commands
    that each of them sends, and whether all tasks have been joined. *)
Definition run_workers (concurrency : nat) (scripts : nat → list WorkerTurn) : list (list Command) * bool :=
  let handles := (λ i, worker_loop (scripts i)) <$> seq 0 concurrency in
  (handles.*1, forallb (λ h, is_stopped h.2) handles).

(** ** The worker's side of the contract *)

(** The select takes the first thing that happens, and a result before a
    cancellation. *)
Lemma biased_select_pending {A B} (f : A → B) (c : B) (ps qs : polls A) :
  Forall (λ p, p = (None, false)) ps → biased_select f c (ps ++ qs) = biased_select f c qs.
Proof. induction 1 as [|p ps -> _ IH]; [done|]. apply IH. Qed.

(** The leases that a list of commands reports on. *)
Definition reported (cmds : list Command) : list (JobId * LeaseId) :=
  omap (λ cmd, match cmd with Cmd_WorkerOutcome id lid _ => Some (id, lid) | _ => None end) cmds.

(** The lease of a job that was handed to a worker. *)
Definition lease_of (leased : LeasedJob) : JobId * LeaseId := (ctx_id (lj_context leased), lj_lease_id leased).

(** The jobs that the coordinator's answers give to a worker, up to the answer
    that stops it. *)
Fixpoint granted (turns : list WorkerTurn) : list LeasedJob :=
  match turns with
  | [] => []
  | t :: turns =>
      if wt_cancelled t then []
      else match fetch_work (wt_fetch_sent t) (wt_fetch t) with
           | Some (Some leased) => leased :: granted turns
           | _ => []
           end
  end.

Definition in_hand (st : WorkerState) : list LeasedJob :=
  match st with Worker_executing leased => [leased] | _ => [] end.

Lemma reported_app cmds cmds' : reported (cmds ++ cmds') = reported cmds ++ reported cmds'.
Proof. apply omap_app. Qed.

(** A worker reports exactly once on every job it is given, with the lease that
    it was given, in order: while the channel is open, the reported leases and
    the one in hand are the granted ones, and nothing is left when the worker
    stops. *)
Lemma worker_reports_every_lease turns cmds st :
  Forall (λ t, wt_outcome_sent t = true) turns → worker_loop turns = (cmds, st) →
  reported cmds ++ (lease_of <$> in_hand st) `prefix_of` (lease_of <$> granted turns)
  ∧ (in_hand st = [] → reported cmds = lease_of <$> granted turns).
Proof.
  intros Hopen. revert cmds st; induction Hopen as [|t turns Hs _ IH]; intros cmds st H; cbn [worker_loop granted] in *.
  { by simplify_eq. }
  unfold worker_turn in H. destruct (wt_cancelled t); [by simplify_eq|]. rewrite Hs in H.
  assert (reported (if wt_fetch_sent t then [Cmd_FetchWork (wt_reply t)] else []) = []) as Hf
    by (by destruct (wt_fetch_sent t)).
  destruct (fetch_work _ _) as [[leased|]|]; simplify_eq; [|by rewrite Hf..].
  destruct (execute_with_cancellation _) as [o|].
  - destruct (worker_loop turns) as [cmds' st'] eqn:Hl. simplify_eq. destruct (IH _ _ eq_refl) as [Hp He].
    rewrite !reported_app, Hf. change (reported [_]) with [lease_of leased]. rewrite fmap_cons. cbn [app]. split.
    + by apply prefix_cons.
    + intros Hn. by rewrite He.
  - simplify_eq. rewrite Hf. split; [|done]. cbn. apply prefix_cons, prefix_nil.
Qed.

(** Every wait of the turn ends, at the latest when the token is cancelled. *)
Definition wakes_up {A} (ps : polls A) : Prop := Exists (λ p, is_Some p.1 ∨ p.2 = true) ps.

Lemma biased_select_wakes {A B} (f : A → B) (c : B) (ps : polls A) :
  wakes_up ps → is_Some (biased_select f c ps).
Proof. induction 1 as [[[a|] []] ps H|[[a|] []] ps _ IH]; cbn in *; by eauto; naive_solver. Qed.

(** A worker whose waits all end and which then sees the cancelled token at the
    top of its loop has stopped. *)
Lemma worker_loop_stops turns last :
  Forall (λ t, wakes_up (wt_fetch t) ∧ wakes_up (wt_handler t)) turns → wt_cancelled last = true →
  (worker_loop (turns ++ [last])).2 = Worker_stopped.
Proof.
  intros Hw Hl. induction Hw as [|t turns [Hf Hh] _ IH]; cbn [app worker_loop].
  { unfold worker_turn. by rewrite Hl. }
  unfold worker_turn. destruct (wt_cancelled t); [done|].
  assert (is_Some (fetch_work (wt_fetch_sent t) (wt_fetch t))) as [r Hr].
  { unfold fetch_work. destruct (wt_fetch_sent t); cbn; [by apply biased_select_wakes|by eexists]. }
  rewrite Hr. destruct r as [leased|]; [|done].
  destruct (biased_select_wakes outcome_of_task Outcome_Retryable _ Hh) as [o Ho].
  unfold execute_with_cancellation. rewrite Ho. by destruct (worker_loop (turns ++ [last])).
Qed.

(** The pool is joined once the token is cancelled: no worker waits for a handler
    or for work that does not come. *)
Lemma run_workers_joined concurrency (turns : nat → list WorkerTurn) (last : nat → WorkerTurn) :
  (∀ i, (i < concurrency)%nat →
     Forall (λ t, wakes_up (wt_fetch t) ∧ wakes_up (wt_handler t)) (turns i) ∧ wt_cancelled (last i) = true) →
  (run_workers concurrency (λ i, turns i ++ [last i])).2 = true.
Proof.
  intros H. cbn [run_workers snd]. apply forallb_forall.
  intros h (i & -> & Hi%elem_of_seq)%list_elem_of_In%list_elem_of_fmap.
  rewrite worker_loop_stops; [done|apply H; lia..].
Qed.

Section shutdown.
Context `{W : Wire} `{HI : HashIter} `{RH : RetryHeap} `{!RetryHeapLaws RH}.
Context `{SM : Semaphores} `{!SemaphoresLaws SM} `{EN : Env} `{!EnvLaws EN}.

(** The turn of a worker that gets [leased], whose handler does nothing for the
    polls [ps] and is then cut off by the shutdown. *)
Definition cut_off (reply : Sender) (leased : LeasedJob) (ps : polls TaskResult) : WorkerTurn :=
  mkWorkerTurn false reply true [(Some (Ok (Some leased)), false)] (ps ++ [(None, true)]) true.

(** C27: a shutdown does not wait for running handlers: it cancels the workers'
    token at once, a worker whose handler is still running then aborts it,
    reports a retryable failure and stops, and this outcome ends the last
    attempt of a job: once the record of its death is appended it is [Dead],
    although its handler did not fail. *)
Theorem shutdown_kills_last_attempt P `{!LogInv P} s s1 reply fetch leased lease job ps last :
  inv P s → co_shutting_down (coord s) = false → start_shutdown reply s = Some ((), s1) →
  co_leases (coord s) !! ctx_id (lj_context leased) = Some lease → al_lease_id lease = lj_lease_id leased →
  co_store (coord s) !! ctx_id (lj_context leased) = Some job →
  max_attempts (job_spec job) ≤ job_attempts job →
  is_ok (persist (env_io (S (tick s1))) (co_storage (coord s1))
    (JobDead (ctx_id (lj_context leased)) (lj_lease_id leased) (env_wall (tick s1)))).1 = true →
  Forall (λ p, p = (None, false)) ps → wt_cancelled last = true →
  TokenCancelled (co_shutdown_token (coord s)) ∈ trace s1
  ∧ worker_loop [cut_off fetch leased ps; last] =
      ([Cmd_FetchWork fetch; Cmd_WorkerOutcome (ctx_id (lj_context leased)) (lj_lease_id leased) Outcome_Retryable],
       Worker_stopped)
  ∧ ∃ s2, do_worker_outcome (ctx_id (lj_context leased)) (lj_lease_id leased) Outcome_Retryable s1 = Some ((), s2)
      ∧ co_leases (coord s2) !! ctx_id (lj_context leased) = None
      ∧ co_store (coord s2) !! ctx_id (lj_context leased) = Some (set_state Dead job).
Proof.
  intros I Hsh Hstart Hl Hlid Hj Hlast Hdisk Hps Hc.
  destruct (wp_result _ _ _ _ _ (start_shutdown_safe P s reply I) Hstart) as (I1 & _ & _ & Hl1 & Hst1 & Htr).
  rewrite <-Hl1 in Hl. rewrite <-Hst1 in Hj. split_and!.
  - eapply elem_of_prefix; [|by apply Htr]. apply elem_of_app. right. by left.
  - unfold worker_loop, worker_turn, cut_off, execute_with_cancellation.
    cbn [wt_cancelled wt_fetch_sent wt_fetch wt_handler wt_outcome_sent wt_reply].
    rewrite biased_select_pending, Hc by done. done.
  - rewrite <-Hlid in *. destruct (wp_total _ _ _ (do_worker_outcome_done P s1 _ lease job Outcome_Retryable I1 Hl Hj))
      as ([] & s2 & H2 & Hd).
    exists s2. split; [done|]. unfold outcome_done, outcome_record, outcome_state in Hd.
    rewrite (proj2 (Z.leb_le _ _) Hlast) in Hd. destruct (persist _ _ _) as [[m|e] sto]; [|done].
    destruct Hd as (Hl2 & _ & Hst2 & _). by rewrite Hl2, lookup_delete_eq, Hst2, lookup_insert_eq.
Qed.
End shutdown.

(** ** Witness *)

Section witness.
#[local] Existing Instance canonical_iter.
#[local] Existing Instance sorted_heap.
#[local] Existing Instance counting_semaphores.
#[local] Existing Instance steady_env.

(** A job with a single attempt runs when the shutdown begins. *)
Definition ex_once : list Wakeup :=
  [Wake_command (Cmd_Submit ex_queue_q (mkJobSpec [Byte.x2a] 1) "q" 1%N);
   Wake_command (Cmd_FetchWork 2%N)].
Definition ex_running_memory : State := ex_after_run ex_once.
(** ... with its records in a log. *)
Definition ex_running : State :=
  mkState (set_storage (Storage_Wal (mkWalWriter true (WriterThread_new (header_encode WalHeader_new) 1)))
    (coord ex_running_memory)) (tick ex_running_memory) (trace ex_running_memory).
Definition ex_shut : State := match start_shutdown 3%N ex_running with Some (_, s) => s | None => ex_running end.
Definition ex_leased : LeasedJob :=
  mkLeasedJob (mkJobContext (from_uuid 2) ex_queue_q [Byte.x2a] 1 1 0%N) (LeaseId_new 1).

Lemma ex_running_inv : inv (λ _ _ _, True) ex_running.
Proof.
  refine (inv_storage _ ex_running_memory _). refine (proj1 (wp_result _ _ _ _ _ (run_safe (λ _ _ _, True) ex_once ex_start ex_inv _) _)).
  - repeat constructor; vm_compute; intuition discriminate.
  - vm_compute. reflexivity.
Qed.

Lemma shutdown_kills_last_attempt_witness :
  ∃ s2, do_worker_outcome (from_uuid 2) (LeaseId_new 1) Outcome_Retryable ex_shut = Some ((), s2)
    ∧ job_state <$> co_store (coord s2) !! from_uuid 2 = Some Dead.
Proof.
  destruct (co_leases (coord ex_running) !! from_uuid 2) as [lease|] eqn:Hl; [|vm_compute in Hl; discriminate Hl].
  destruct (co_store (coord ex_running) !! from_uuid 2) as [job|] eqn:Hj; [|vm_compute in Hj; discriminate Hj].
  destruct (shutdown_kills_last_attempt (λ _ _ _, True) ex_running ex_shut 3%N 2%N ex_leased lease job
    [(None, false)] (mkWorkerTurn true 4%N true [] [] true) ex_running_inv) as (_ & _ & s2 & H1 & _ & H2).
  - vm_compute. reflexivity.
  - vm_compute. reflexivity.
  - exact Hl.
  - vm_compute in Hl. injection Hl as <-. vm_compute. reflexivity.
  - exact Hj.
  - vm_compute in Hj. injection Hj as <-. vm_compute. discriminate.
  - vm_compute. reflexivity.
  - constructor; [reflexivity|constructor].
  - reflexivity.
  - exists s2. split; [exact H1|]. change (ctx_id (lj_context ex_leased)) with (from_uuid 2) in H2.
    rewrite H2. reflexivity.
Defined.
End witness.
