(* ===== verification/Pool.v ===== *)
(** * The worker pool at work ([worker.rs] with the coordinator)

    The workers as tasks beside the coordinator and its clients: every await of
    [worker_loop], [fetch_work] and [execute_with_cancellation] is a state of the
    worker, and what it waits for comes from the trace of the coordinator.  A
    worker asks on a new one-shot channel each time.  [pool_step] interleaves the
    steps of all workers with those of the system; it shows that the handlers of
    one job exclude each other, and that outcomes are not lost. *)

From S2P Require Import Prelude Types Config Store Codec ConcreteWire Scanner Writer Recovery.
From S2P Require Import RecoveryProofs RecoveryTotal RetryHeap Environment Coordinator QueueInv.
From S2P Require Import CoordinatorInv CoordinatorSafe CoordinatorLoop CoordinatorInit CoordinatorProps.
From S2P Require Import CoordinatorReplies Durability Runtime RuntimeProofs JobMachine Refinement History Lifecycle Worker.

(** Where a worker is; [r] is the channel it asked on. *)
Inductive Wk :=
(** at the top of the loop *)
| Wk_idle
(** sends [FetchWork] *)
| Wk_asking (r : Sender)
(** waits for the reply *)
| Wk_waiting (r : Sender)
(** the handler runs *)
| Wk_busy (r : Sender) (lj : LeasedJob)
(** sends [WorkerOutcome] *)
| Wk_reporting (r : Sender) (lj : LeasedJob) (o : WorkerOutcome)
| Wk_stopped.

Definition wk_channel (w : Wk) : option Sender :=
  match w with
  | Wk_asking r | Wk_waiting r | Wk_busy r _ | Wk_reporting r _ _ => Some r
  | Wk_idle | Wk_stopped => None
  end.

Definition wk_holds (w : Wk) : option LeasedJob :=
  match w with Wk_busy _ lj | Wk_reporting _ lj _ => Some lj | _ => None end.

(** What a reply on the channel [r] says. *)
Definition replied (tr : list Effect) (r : Sender) (w : option LeasedJob) : Prop :=
  Sent r (Reply_work w) true ∈ tr.

(** The steps of a worker that send nothing: [fresh] is a new channel, [stop]
    says that the shutdown token is cancelled, [closed] that the command channel
    is gone, and with it the senders of replies. *)
Inductive wk_step (tr : list Effect) (stop closed : Prop) (fresh : Sender) : Wk → Wk → Prop :=
| wk_break : stop → wk_step tr stop closed fresh Wk_idle Wk_stopped
| wk_ask : ¬ stop → wk_step tr stop closed fresh Wk_idle (Wk_asking fresh)
| wk_ask_closed r : closed → wk_step tr stop closed fresh (Wk_asking r) Wk_stopped
| wk_work r lj : replied tr r (Some lj) → wk_step tr stop closed fresh (Wk_waiting r) (Wk_busy r lj)
| wk_no_work r : replied tr r None → wk_step tr stop closed fresh (Wk_waiting r) Wk_stopped
| wk_dropped r : closed → (∀ w, ¬ replied tr r w) → wk_step tr stop closed fresh (Wk_waiting r) Wk_stopped
| wk_cancelled r : stop → (∀ w, ¬ replied tr r w) → wk_step tr stop closed fresh (Wk_waiting r) Wk_stopped
| wk_done r lj res :
    wk_step tr stop closed fresh (Wk_busy r lj) (Wk_reporting r lj (outcome_of_task res))
| wk_abort r lj : stop → wk_step tr stop closed fresh (Wk_busy r lj) (Wk_reporting r lj Outcome_Retryable)
| wk_report_closed r lj o : closed → wk_step tr stop closed fresh (Wk_reporting r lj o) Wk_idle.

(** The command that a worker sends, and where it is then. *)
Definition wk_send (w : Wk) : option (Command * Wk) :=
  match w with
  | Wk_asking r => Some (Cmd_FetchWork r, Wk_waiting r)
  | Wk_reporting r lj o => Some (Cmd_WorkerOutcome (ctx_id (lj_context lj)) (lj_lease_id lj) o, Wk_idle)
  | _ => None
  end.

(** A command of a client. *)
Definition is_client_command (cmd : Command) : bool :=
  match cmd with Cmd_FetchWork _ | Cmd_WorkerOutcome _ _ _ => false | _ => true end.

Section pool.
Context `{W : Wire} `{!WireLaws W} `{HI : HashIter} `{RH : RetryHeap} `{!RetryHeapLaws RH}.
Context `{SM : Semaphores} `{!SemaphoresLaws SM} `{EN : Env} `{!EnvLaws EN}.

Record Pool := mkPool {
  p_sys : System;
  p_workers : list Wk;
  (** the next channel that no worker has used *)
  p_fresh : Sender;
  (** the leases that workers have reported on, in order *)
  p_reported : list (JobId * LeaseId);
}.

Definition p_trace (p : Pool) : list Effect := trace (sys_state (p_sys p)).

Definition shutdown_signalled (sys : System) : Prop :=
  TokenCancelled (co_shutdown_token (coord (sys_state sys))) ∈ trace (sys_state sys).

Inductive pool_step : Pool → Pool → Prop :=
(** the coordinator or a client *)
| pool_system sys sys' ws fr rep :
    sys_step sys sys' → Forall (λ cmd, is_client_command cmd = true) (sys_waiting sys') →
    pool_step (mkPool sys ws fr rep) (mkPool sys' ws fr rep)
| pool_worker i w w' sys ws fr rep :
    ws !! i = Some w →
    wk_step (trace (sys_state sys)) (shutdown_signalled sys) (sys_running sys = false) fr w w' →
    pool_step (mkPool sys ws fr rep) (mkPool sys (<[i := w']> ws) (fr + 1)%N rep)
(** a worker gets a place in the channel *)
| pool_send i w w' cmd s wt ch ws fr rep :
    ws !! i = Some w → wk_send w = Some (cmd, w') → zlen ch < channel_capacity (co_config (coord s)) →
    pool_step (mkPool (mkSystem s wt ch true) ws fr rep)
      (mkPool (mkSystem s wt (ch ++ [cmd]) true) (<[i := w']> ws) fr (rep ++ reported [cmd])).

(** [run_workers] after [start]. *)
Definition pool_started (c : Coordinator) (t : nat) (concurrency : nat) : Pool :=
  mkPool (started c t) (replicate concurrency Wk_idle) 0%N [].

(** A worker step, seen by the system, is a request and a place in the channel. *)
Lemma pool_step_sys p p' : pool_step p p' → rtc sys_step (p_sys p) (p_sys p').
Proof.
  intros [sys sys' ws fr rep Hs _| |i w w' cmd s wt ch ws fr rep _ Hw Hroom]; cbn [p_sys];
    [by apply rtc_once|constructor|].
  eapply rtc_l; [apply (step_request cmd); by destruct w; simplify_eq/=|].
  eapply rtc_l; [apply (step_send (length wt) cmd); [by rewrite lookup_app_r, Nat.sub_diag by done|done]|].
  rewrite delete_middle, app_nil_r. constructor.
Qed.

(** ** The invariant of the pool *)

(** Every lease has its own number, from [e0] on. *)
Definition numbered (e0 : Z) (v : View) : Prop :=
  small (v_tick v) → e0 ≤ v_epoch v ∧ lease_numbers (v_trace v) = seqZ e0 (v_epoch v - e0).

Lemma numbered_path R F e0 v v' :
  path R F v v' → (small (v_tick v) → epochs_fit v) → numbered e0 v → numbered e0 v'.
Proof.
  intros Hp Hfit Hn Hsm. assert (small (v_tick v)) as Hsm0 by (apply path_tick in Hp; unfold small in *; lia).
  destruct (path_numbers _ _ _ _ Hp Hsm (Hfit Hsm0)) as (_ & Hle & H). destruct (Hn Hsm0) as [Hle0 H0].
  split; [lia|]. rewrite H, H0.
  replace (v_epoch v' - e0) with ((v_epoch v - e0) + (v_epoch v' - v_epoch v)) by lia.
  rewrite seqZ_app by lia. do 2 f_equal. lia.
Qed.

Lemma numbered_nodup e0 v : numbered e0 v → small (v_tick v) → NoDup (lease_numbers (v_trace v)).
Proof. intros Hn Hsm. destruct (Hn Hsm) as [_ ->]. apply NoDup_seqZ. Qed.

(** A lease was given once. *)
Lemma grant_once tr r r' lj lj' :
  NoDup (lease_numbers tr) → replied tr r (Some lj) → replied tr r' (Some lj') →
  lj_lease_id lj = lj_lease_id lj' → r = r' ∧ lj = lj'.
Proof.
  intros Hnd H1 H2 Heq. assert (Sent r (Reply_work (Some lj)) true = Sent r' (Reply_work (Some lj')) true) as He.
  { unfold lease_numbers, grants in Hnd. rewrite list_fmap_omap in Hnd.
    refine (NoDup_omap_eq _ _ _ _ _ Hnd H1 H2 eq_refl _). cbn. by rewrite Heq. }
  by injection He as -> ->.
Qed.

(** The lease [l] was given on a channel that no worker uses any more. *)
Definition done_with (p : Pool) (l : JobId * LeaseId) : Prop :=
  ∃ r lj, replied (p_trace p) r (Some lj) ∧ lease_of lj = l ∧ (r < p_fresh p)%N
    ∧ ∀ i w, p_workers p !! i = Some w → wk_channel w ≠ Some r.

(** Workers use different channels, that are not new any more, and have their
    jobs from there. *)
Record workers_ok (tr : list Effect) (fr : Sender) (ws : list Wk) : Prop := {
  wo_hand : ∀ i w r lj, ws !! i = Some w → wk_channel w = Some r → wk_holds w = Some lj → replied tr r (Some lj);
  wo_apart : ∀ i j wi wj r, ws !! i = Some wi → ws !! j = Some wj →
    wk_channel wi = Some r → wk_channel wj = Some r → i = j;
  wo_fresh : ∀ i w r, ws !! i = Some w → wk_channel w = Some r → (r < fr)%N;
}.

Record pool_inv (P : nat → Storage → MemoryStore → Prop) (order : list string) (cap lost : string → Z) (e0 : Z)
    (p : Pool) : Prop := {
  pi_sys : sys_inv P order cap lost (p_sys p);
  pi_numbered : numbered e0 (sys_view (p_sys p));
  pi_workers : workers_ok (p_trace p) (p_fresh p) (p_workers p);
  pi_done : Forall (done_with p) (p_reported p);
  pi_once : small (tick (sys_state (p_sys p))) → NoDup (p_reported p);
  pi_handled : ∃ handled, p_reported p = handled ++ reported (sys_channel (p_sys p))
    ∧ ∀ lj, lj ∈ grants (p_trace p) →
        current (sys_view (p_sys p)) lj ∨ revoked (sys_view (p_sys p)) lj ∨ lease_of lj ∈ handled;
  pi_clients : Forall (λ cmd, is_client_command cmd = true) (sys_waiting (p_sys p));
}.

Section invariant.
Context (P : nat → Storage → MemoryStore → Prop) `{!LogInv P} (order : list string) (cap lost : string → Z) (e0 : Z).

Abbreviation pinv := (pool_inv P order cap lost e0).

Lemma sys_inv_epochs sys : sys_inv P order cap lost sys → small (v_tick (sys_view sys)) → epochs_fit (sys_view sys).
Proof. intros SI Hsm. exact (proj1 (i_epoch _ _ (s_inv _ _ _ _ _ SI) Hsm)). Qed.

(** What a step of the coordinator or a client takes from the channel, or drops
    with it, has been handled. *)
Lemma channel_step sys sys' handled rep :
  sys_step sys sys' → Forall (λ cmd, is_client_command cmd = true) (sys_waiting sys) →
  rep = handled ++ reported (sys_channel sys) →
  ∃ more, rep = (handled ++ more) ++ reported (sys_channel sys')
    ∧ ∀ id lid, takes_report sys sys' id lid → (id, lid) ∈ more.
Proof.
  intros Hs Hcl ->. assert (∀ ch wt s s' b b' wt', ¬ ∃ id lid, takes_report (mkSystem s wt ch b) (mkSystem s' wt' ch b') id lid) as Hsame.
  { intros ch wt s s' b b' wt' (id & lid & cmd & Hch & _). cbn in Hch. by apply (f_equal length) in Hch; cbn in Hch; lia. }
  destruct Hs as [| | |i cmd s wt ch Hi _| | |s s1 s2 nd cmd wt ch _ _| |s s1 wt ch _]; sys_simpl;
    try (exists []; rewrite (app_nil_r handled); split; [done|intros id lid Ht; exfalso; eapply Hsame; eauto]; fail).
  - exists []. rewrite app_nil_r, reported_app. apply (Forall_lookup_1 _ _ _ _ Hcl) in Hi. split.
    + destruct cmd; cbn in *; rewrite ?app_nil_r; done.
    + intros id lid (cmd' & Hch & _). cbn in Hch. apply (f_equal length) in Hch. cbn in Hch.
      rewrite length_app in Hch. cbn in Hch. lia.
  - exists (reported [cmd]). rewrite <-app_assoc. split; [by rewrite <-reported_app|].
    intros id lid (cmd' & Hch & Hr). cbn in Hch. simplify_eq. destruct cmd'; cbn in Hr; [done..| |done].
    destruct Hr as [-> ->]. by left.
  - exists (reported ch). cbn. rewrite app_nil_r. split; [done|]. intros id lid (cmd & Hch & Hr). cbn in Hch.
    subst ch. destruct cmd; cbn in Hr; [done..| |done]. destruct Hr as [-> ->]. by left.
Qed.

Lemma done_with_mono p p' l :
  done_with p l → p_trace p `prefix_of` p_trace p' → (p_fresh p ≤ p_fresh p')%N →
  (∀ i w r, p_workers p' !! i = Some w → wk_channel w = Some r →
     r = p_fresh p ∨ ∃ j w0, p_workers p !! j = Some w0 ∧ wk_channel w0 = Some r) → done_with p' l.
Proof.
  intros (r & lj & Hr & Hl & Hlt & Hno) Hpre Hfr Hw. exists r, lj. split_and!; [by eapply elem_of_prefix|done|lia|].
  intros i w Hi Hc. destruct (Hw _ _ _ Hi Hc) as [->|(j & w0 & Hj & Hc0)]; [lia|]. by eapply Hno.
Qed.

Lemma pool_system_inv sys sys' ws fr rep :
  pinv (mkPool sys ws fr rep) → sys_step sys sys' →
  Forall (λ cmd, is_client_command cmd = true) (sys_waiting sys') → pinv (mkPool sys' ws fr rep).
Proof.
  intros [SI Hn Hw Hd Ho (handled & Hrep & Hc) Hcl] Hs Hcl'. cbn [p_sys p_workers p_fresh p_reported] in *.
  pose proof (sys_step_path P _ _ _ _ _ SI Hs) as Hp. pose proof (path_trace _ _ _ _ Hp) as Hpre.
  pose proof (path_tick _ _ _ _ Hp) as Htick.
  split; cbn [p_sys p_workers p_fresh p_reported]; [by eapply sys_step_inv| |..].
  - eapply numbered_path; [exact Hp|by apply sys_inv_epochs|done].
  - destruct Hw as [Hh Ha Hf]. split; [|done..]. intros i w r lj Hi H1 H2. eapply elem_of_prefix; [by eapply Hh|done].
  - eapply Forall_impl; [exact Hd|]. intros l Hl. eapply done_with_mono; [exact Hl|exact Hpre|done|]. cbn. eauto.
  - intros Hsm. apply Ho. unfold small in *. cbn in *. lia.
  - destruct (channel_step _ _ _ _ Hs Hcl Hrep) as (more & Hrep' & Hmore). exists (handled ++ more). split; [done|].
    refine (path_current _ _ (λ lj, lease_of lj ∈ handled ++ more) _ _ _ Hp _).
    + intros lj Ht. apply elem_of_app. right. by apply Hmore.
    + intros lj Hin. destruct (Hc lj Hin) as [?|[?|?]]; [by left|by right; left|]. right. right. apply elem_of_app. by left.
  - done.
Qed.

(** ** The steps of the workers *)

Lemma wk_step_channel tr stop closed fr w w' r :
  wk_step tr stop closed fr w w' → wk_channel w' = Some r → wk_channel w = Some r ∨ r = fr.
Proof. intros [] Hr; cbn in *; simplify_eq; auto. Qed.

Lemma wk_step_holds tr stop closed fr w w' r lj :
  wk_step tr stop closed fr w w' → wk_channel w' = Some r → wk_holds w' = Some lj →
  replied tr r (Some lj) ∨ wk_channel w = Some r ∧ wk_holds w = Some lj.
Proof. intros [] Hr Hlj; cbn in *; simplify_eq; auto. Qed.

(** One worker moves on. *)
Lemma workers_ok_update tr fr fr' ws i w w' :
  workers_ok tr fr ws → ws !! i = Some w → (fr ≤ fr')%N →
  (∀ r, wk_channel w' = Some r → wk_channel w = Some r ∨ r = fr ∧ (fr < fr')%N) →
  (∀ r lj, wk_channel w' = Some r → wk_holds w' = Some lj →
     replied tr r (Some lj) ∨ wk_channel w = Some r ∧ wk_holds w = Some lj) →
  workers_ok tr fr' (<[i := w']> ws).
Proof.
  intros [Hh Ha Hf] Hi Hle Hc Hl. assert (∀ k wk, <[i := w']> ws !! k = Some wk →
    k = i ∧ wk = w' ∨ k ≠ i ∧ ws !! k = Some wk) as Hcases.
  { intros k wk Hk. apply list_lookup_insert_Some in Hk. naive_solver. }
  split.
  - intros k wk r lj [[-> ->]|[_ Hk]]%Hcases H1 H2; [|by eapply Hh]. destruct (Hl _ _ H1 H2) as [?|[]]; [done|by eapply Hh].
  - intros k j wk wj r [[-> ->]|[Hki Hk]]%Hcases [[-> ->]|[Hji Hj]]%Hcases H1 H2; [done| | |by eapply Ha].
    + destruct (Hc _ H1) as [H1'|[-> _]]; [by eapply Ha|]. apply (Hf _ _ _ Hj) in H2. lia.
    + destruct (Hc _ H2) as [H2'|[-> _]]; [by eapply Ha|]. apply (Hf _ _ _ Hk) in H1. lia.
  - intros k wk r [[-> ->]|[_ Hk]]%Hcases H1; [|specialize (Hf _ _ _ Hk H1); lia].
    destruct (Hc _ H1) as [H1'|[-> Hlt]]; [specialize (Hf _ _ _ Hi H1'); lia|done].
Qed.

(** The channels of the workers afterwards. *)
Lemma update_channels fr (ws : list Wk) i w w' :
  ws !! i = Some w → (∀ r, wk_channel w' = Some r → wk_channel w = Some r ∨ r = fr) →
  ∀ k wk r, <[i := w']> ws !! k = Some wk → wk_channel wk = Some r →
    r = fr ∨ ∃ j w0, ws !! j = Some w0 ∧ wk_channel w0 = Some r.
Proof.
  intros Hi Hc k wk r Hk Hr. apply list_lookup_insert_Some in Hk as [(_ & <- & _)|[_ Hk]]; [|eauto].
  destruct (Hc _ Hr) as [?| ->]; eauto.
Qed.

Lemma pool_worker_inv i w w' sys ws fr rep stop closed :
  pinv (mkPool sys ws fr rep) → ws !! i = Some w →
  wk_step (trace (sys_state sys)) stop closed fr w w' → pinv (mkPool sys (<[i := w']> ws) (fr + 1)%N rep).
Proof.
  intros [SI Hn Hw Hd Ho Hh Hcl] Hi Hs. split; [done|done| | |done|done|done]; cbn [p_workers p_fresh] in *.
  - eapply workers_ok_update; [exact Hw|done|lia| |].
    + intros r Hr. destruct (wk_step_channel _ _ _ _ _ _ _ Hs Hr) as [?| ->]; [by left|right; split; [done|lia]].
    + intros r lj. by eapply wk_step_holds.
  - eapply Forall_impl; [exact Hd|]. intros l Hl. eapply done_with_mono; [exact Hl|done|cbn; lia|].
    apply (update_channels _ _ _ w); [done|]. intros r. by eapply wk_step_channel.
Qed.

(** A worker that sends [cmd]: the channel of a report is not used any more. *)
Lemma wk_send_channel w cmd w' r : wk_send w = Some (cmd, w') → wk_channel w' = Some r → wk_channel w = Some r.
Proof. by destruct w; intros [= <- <-] Hr. Qed.

Lemma wk_send_report w cmd w' l :
  wk_send w = Some (cmd, w') → l ∈ reported [cmd] →
  ∃ r lj, wk_channel w = Some r ∧ wk_holds w = Some lj ∧ lease_of lj = l ∧ wk_channel w' = None.
Proof.
  destruct w; intros [= <- <-] Hl; [by apply elem_of_nil in Hl|]. apply list_elem_of_singleton in Hl as ->.
  by eexists _, _.
Qed.

Lemma pool_send_inv i w w' cmd s wt ch ws fr rep :
  pinv (mkPool (mkSystem s wt ch true) ws fr rep) → ws !! i = Some w → wk_send w = Some (cmd, w') →
  zlen ch < channel_capacity (co_config (coord s)) →
  pinv (mkPool (mkSystem s wt (ch ++ [cmd]) true) (<[i := w']> ws) fr (rep ++ reported [cmd])).
Proof.
  intros PI Hi Hs Hroom.
  pose proof (pool_step_sys _ _ (pool_send i w w' cmd s wt ch ws fr rep Hi Hs Hroom)) as Hsys.
  pose proof (sys_reachable_inv _ _ _ _ _ _ (pi_sys _ _ _ _ _ _ PI) Hsys) as SI'.
  destruct PI as [SI Hn Hw Hd Ho (handled & Hrep & Hc) Hcl]. cbn [p_sys p_workers p_fresh p_reported] in *.
  split; cbn [p_sys p_workers p_fresh p_reported]; [done|done|..].
  - eapply workers_ok_update; [exact Hw|done|lia| |].
    + intros r Hr. left. by eapply wk_send_channel.
    + intros r lj _ Hlj. by destruct w; simplify_eq/=.
  - apply Forall_app. split.
    + eapply Forall_impl; [exact Hd|]. intros l Hl. eapply done_with_mono; [exact Hl|done|done|].
      apply (update_channels _ _ _ w); [done|]. intros r Hr. left. by eapply wk_send_channel.
    + apply Forall_forall. intros l Hl. destruct (wk_send_report _ _ _ _ Hs Hl) as (r & lj & Hr & Hlj & <- & Hno).
      exists r, lj. split_and!; [by eapply (wo_hand _ _ _ Hw)|done|by eapply (wo_fresh _ _ _ Hw)|].
      intros k wk Hk Hrk. cbn in Hk. apply list_lookup_insert_Some in Hk as [(_ & <- & _)|[Hne Hk]]; [congruence|].
      by destruct Hne; eapply (wo_apart _ _ _ Hw).
  - intros Hsm. apply NoDup_app. split_and!; [by apply Ho| |by destruct cmd; repeat constructor; intros ?%elem_of_nil].
    intros l Hl Hl'. destruct (wk_send_report _ _ _ _ Hs Hl') as (r & lj & Hr & Hlj & <- & _).
    apply (proj1 (Forall_forall _ _) Hd) in Hl as (r' & lj' & Hrep' & Heq & _ & Hno).
    destruct (grant_once _ r' r lj' lj (numbered_nodup _ _ Hn Hsm) Hrep') as [-> _];
      [by eapply (wo_hand _ _ _ Hw)|by injection Heq as _ ->|]. by eapply Hno.
  - exists handled. split; [|exact Hc]. sys_simpl. by rewrite reported_app, Hrep, app_assoc.
  - done.
Qed.

Lemma pool_step_inv p p' : pinv p → pool_step p p' → pinv p'.
Proof.
  intros PI Hs. destruct Hs; [by eapply pool_system_inv|by eapply pool_worker_inv|by eapply pool_send_inv].
Qed.

Lemma pool_reachable_inv p p' : pinv p → rtc pool_step p p' → pinv p'.
Proof. intros PI. induction 1 as [|x y z Hxy _ IH]; [done|]. by apply IH, (pool_step_inv x). Qed.
End invariant.

Lemma start_pool_inv t locked file config c n :
  log_left t file → config_fits config → (∀ q, 0 ≤ capacity_of config q) →
  start t locked file config = Ok (Some c) →
  ∃ order cap lost e0, pool_inv (λ _ _ _, True) order cap lost e0 (pool_started c t n).
Proof.
  intros Hleft Hfit Hcap Hst.
  pose proof (start_sys_inv (λ _ _ _, True) _ _ _ _ _ Hleft Hfit Hcap ltac:(done) Hst) as SI.
  eexists _, _, _, (co_next_lease_epoch c). split; [exact SI|..]; cbn [pool_started p_sys p_workers p_reported].
  - intros _. cbn. by rewrite Z.sub_diag.
  - split; intros; exfalso; match goal with H : replicate _ _ !! _ = Some _ |- _ =>
      apply lookup_replicate in H as [-> _]; done end.
  - constructor.
  - intros _. constructor.
  - exists []. split; [done|]. by intros lj ?%elem_of_nil.
  - constructor.
Qed.

(** A job that a worker has in hand. *)
Lemma held_not_reported P `{!LogInv P} order cap lost e0 p i w lj :
  pool_inv P order cap lost e0 p → small (tick (sys_state (p_sys p))) →
  p_workers p !! i = Some w → wk_holds w = Some lj →
  ∃ r, wk_channel w = Some r ∧ replied (p_trace p) r (Some lj) ∧ lease_of lj ∉ p_reported p.
Proof.
  intros PI Hsm Hi Hlj. assert (∃ r, wk_channel w = Some r) as [r Hr] by (destruct w; by eauto).
  pose proof (wo_hand _ _ _ (pi_workers _ _ _ _ _ _ PI) _ _ _ _ Hi Hr Hlj) as Hrep. exists r. split_and!; [done..|].
  intros Hin. apply (proj1 (Forall_forall _ _) (pi_done _ _ _ _ _ _ PI)) in Hin as (r' & lj' & Hrep' & Heq & _ & Hno).
  destruct (grant_once _ r' r lj' lj (numbered_nodup _ _ (pi_numbered _ _ _ _ _ _ PI) Hsm) Hrep' Hrep) as [-> _];
    [by injection Heq|]. by eapply Hno.
Qed.

Lemma replied_grant tr r lj : replied tr r (Some lj) → lj ∈ grants tr.
Proof. intros H. apply list_elem_of_omap. by eexists. Qed.

Lemma held_current P `{!LogInv P} order cap lost e0 p i w lj :
  pool_inv P order cap lost e0 p → small (tick (sys_state (p_sys p))) →
  p_workers p !! i = Some w → wk_holds w = Some lj →
  current (sys_view (p_sys p)) lj ∨ revoked (sys_view (p_sys p)) lj.
Proof.
  intros PI Hsm Hi Hlj. destruct (held_not_reported _ _ _ _ _ _ _ _ _ PI Hsm Hi Hlj) as (r & _ & Hrep & Hno).
  destruct (pi_handled _ _ _ _ _ _ PI) as (handled & Heq & Hc).
  destruct (Hc lj (replied_grant _ _ _ Hrep)) as [?|[?|Hin]]; [by left|by right|].
  destruct Hno. rewrite Heq. apply elem_of_app. by left.
Qed.

(** C4: nobody works twice on one job: whatever the clients, the workers and the
    clock do after [start], a worker with a job in hand holds the current lease of
    this job, which is running, or its cancellation token has been cancelled; so
    when two workers have the same job in hand, at least one of them has been told
    to stop. *)
Theorem exclusive_execution t locked file config c n p i j wi wj lji ljj :
  log_left t file → config_fits config → (∀ q, 0 ≤ capacity_of config q) →
  start t locked file config = Ok (Some c) → rtc pool_step (pool_started c t n) p →
  small (tick (sys_state (p_sys p))) →
  p_workers p !! i = Some wi → wk_holds wi = Some lji →
  let co := coord (sys_state (p_sys p)) in
  let stopped lj := TokenCancelled (ctx_cancellation (lj_context lj)) ∈ p_trace p in
  (stopped lji ∨ ∃ lease job, co_leases co !! ctx_id (lj_context lji) = Some lease
     ∧ al_lease_id lease = lj_lease_id lji
     ∧ co_store co !! ctx_id (lj_context lji) = Some job ∧ job_state job = Running)
  ∧ (p_workers p !! j = Some wj → wk_holds wj = Some ljj → i ≠ j →
     ctx_id (lj_context lji) = ctx_id (lj_context ljj) → stopped lji ∨ stopped ljj).
Proof.
  intros Hleft Hfit Hcap Hst Hr Hsm Hi Hlji co stopped.
  destruct (start_pool_inv _ _ _ _ _ n Hleft Hfit Hcap Hst) as (order & cap & lost & e0 & PI0).
  pose proof (pool_reachable_inv _ _ _ _ _ _ _ PI0 Hr) as PI. pose proof (s_inv _ _ _ _ _ (pi_sys _ _ _ _ _ _ PI)) as I.
  pose proof (held_current _ _ _ _ _ _ _ _ _ PI Hsm Hi Hlji) as Hci. split.
  - destruct Hci as [(l & Hl & Hid & _)|?]; [right|by left]. destruct (i_leases _ _ I _ _ Hl) as (job & Hj & Hs). by exists l, job.
  - intros Hj Hljj Hne Hsame. destruct Hci as [(l & Hl & Hid & _)|?]; [|by left].
    destruct (held_current _ _ _ _ _ _ _ _ _ PI Hsm Hj Hljj) as [(l' & Hl' & Hid' & _)|?]; [|by right].
    rewrite <-Hsame, Hl in Hl'. injection Hl' as <-. destruct Hne.
    destruct (held_not_reported _ _ _ _ _ _ _ _ _ PI Hsm Hi Hlji) as (r & Hri & Hrepi & _).
    destruct (held_not_reported _ _ _ _ _ _ _ _ _ PI Hsm Hj Hljj) as (r' & Hrj & Hrepj & _).
    destruct (grant_once _ r r' lji ljj (numbered_nodup _ _ (pi_numbered _ _ _ _ _ _ PI) Hsm) Hrepi Hrepj) as [-> _];
      [congruence|]. by eapply (wo_apart _ _ _ (pi_workers _ _ _ _ _ _ PI)).
Qed.

(** C5: no outcome is lost or taken for another: every outcome that reaches the
    coordinator is for a lease that was given to a worker; and unless this worker
    was told to stop before, its job is running under this very lease, and handling
    the outcome ends the lease and, when the append of the record of this outcome
    succeeds, moves the job to the state that the outcome calls for; when just this
    append fails, the error is logged and the job stays as it is
    ([outcome_done]). *)
Theorem outcomes_count t locked file config c n p s s1 nd id lid o wt ch :
  log_left t file → config_fits config → (∀ q, 0 ≤ capacity_of config q) →
  start t locked file config = Ok (Some c) → rtc pool_step (pool_started c t n) p → small (tick s) →
  p_sys p = mkSystem s wt (Cmd_WorkerOutcome id lid o :: ch) true → turn s = Some (Some nd, s1) →
  ∃ r lj, replied (trace s) r (Some lj) ∧ lease_of lj = (id, lid)
    ∧ (TokenCancelled (ctx_cancellation (lj_context lj)) ∈ trace s1
       ∨ ∃ job s2, co_store (coord s1) !! id = Some job ∧ job_state job = Running
           ∧ handle (Cmd_WorkerOutcome id lid o) s1 = Some ((), s2) ∧ outcome_done s1 id lid job o s2).
Proof.
  intros Hleft Hfit Hcap Hst Hr Hsm Hsys Hturn.
  destruct (start_pool_inv _ _ _ _ _ n Hleft Hfit Hcap Hst) as (order & cap & lost & e0 & PI0).
  pose proof (pool_reachable_inv _ _ _ _ _ _ _ PI0 Hr) as [SI _ _ Hd Ho (handled & Heq & Hc) _].
  unfold p_trace in Hc. unfold done_with, p_trace in Hd. rewrite Hsys in *. sys_simpl. pose proof (s_inv _ _ _ _ _ SI) as I. sys_simpl.
  specialize (Ho Hsm). cbn [reported] in Heq. change (reported (Cmd_WorkerOutcome id lid o :: ch)) with ((id, lid) :: reported ch) in Heq.
  assert ((id, lid) ∈ p_reported p) as Hin by (rewrite Heq; apply elem_of_app; right; left).
  apply (proj1 (Forall_forall _ _) Hd) in Hin as (r & lj & Hrep & Hl & _). exists r, lj. split_and!; [done..|].
  pose proof (wp_result _ _ _ _ _ (turn_continues _ _ I) Hturn (mk_is_Some _ _ eq_refl)) as Hv.
  destruct (wp_result _ _ _ _ _ (turn_safe _ _ I) Hturn) as (I1 & _).
  destruct (path_current _ _ (λ lj, lease_of lj ∈ handled) _ _ (λ _ H, False_ind _ H) Hv Hc lj) as [(l & Hl1 & Hid & _)|[Hrv|Hh]].
  - eapply replied_grant, elem_of_prefix; [exact Hrep|exact (path_trace _ _ _ _ Hv)].
  - right. injection Hl as <- <-. destruct (i_leases _ _ I1 _ _ Hl1) as (job & Hj & Hs).
    destruct (wp_total _ _ _ (do_worker_outcome_done _ s1 _ l job o I1 Hl1 Hj)) as ([] & s2 & H2 & Hdone).
    exists job, s2. rewrite <-Hid. done.
  - by left.
  - rewrite Heq, Hl in *. apply NoDup_app in Ho as (_ & Ho & _). destruct (Ho _ Hh). left.
Qed.
End pool.

(** ** Witnesses *)

Section witnesses.
#[local] Existing Instance canonical_iter.
#[local] Existing Instance sorted_heap.
#[local] Existing Instance counting_semaphores.
#[local] Existing Instance steady_env.

Abbreviation quiet s := (mkSystem s [] [] true).

(** The coordinator handles the command that worker [i] sends. *)
Lemma ex_pool_serve i w w' cmd s ws fr rep :
  ws !! i = Some w → wk_send w = Some (cmd, w') → (0 <? channel_capacity (co_config (coord s))) = true →
  match ex_served cmd s with Some _ => true | None => false end = true →
  rtc pool_step (mkPool (quiet s) ws fr rep)
    (mkPool (quiet (ex_serve cmd s)) (<[i := w']> ws) fr (rep ++ reported [cmd])).
Proof.
  intros Hi Hw Hcap%Z.ltb_lt Hs. unfold ex_serve, ex_served in *.
  destruct (turn s) as [[[nd|] s1]|] eqn:Ht; [|done..].
  destruct (handle cmd s1) as [[[] s2]|] eqn:Hh; [|done]. cbn [default].
  eapply rtc_l; [by eapply pool_send|]. cbn [app].
  eapply rtc_l; [eapply pool_system; [by eapply (step_command s s1 s2)|constructor]|]. apply rtc_refl.
Qed.

(** ... or that a client sends. *)
Lemma ex_pool_client cmd s ws fr rep :
  is_submit_command cmd = false → is_client_command cmd = true →
  (0 <? channel_capacity (co_config (coord s))) = true →
  match ex_served cmd s with Some _ => true | None => false end = true →
  rtc pool_step (mkPool (quiet s) ws fr rep) (mkPool (quiet (ex_serve cmd s)) ws fr rep).
Proof.
  intros Hn Hc Hcap%Z.ltb_lt Hs. unfold ex_serve, ex_served in *.
  destruct (turn s) as [[[nd|] s1]|] eqn:Ht; [|done..].
  destruct (handle cmd s1) as [[[] s2]|] eqn:Hh; [|done]. cbn [default].
  eapply rtc_l; [eapply pool_system; [by apply (step_request cmd)|by repeat constructor]|].
  eapply rtc_l; [eapply pool_system; [by apply (step_send 0 cmd)|constructor]|].
  eapply rtc_l; [eapply pool_system; [by eapply (step_command s s1 s2)|constructor]|]. apply rtc_refl.
Qed.

Lemma ex_pool_submit s ws fr rep :
  (0 <? channel_capacity (co_config (coord s))) = true →
  match try_submit ex_queue_q ex_spec 1%N s with
  | Some (Ok cmd, s') => is_client_command cmd && match ex_served cmd s' with Some _ => true | None => false end
  | _ => false
  end = true →
  rtc pool_step (mkPool (quiet s) ws fr rep) (mkPool (quiet (ex_submit s)) ws fr rep).
Proof.
  intros Hcap%Z.ltb_lt Hs. unfold ex_submit, ex_serve, ex_served in *.
  destruct (try_submit ex_queue_q ex_spec 1%N s) as [[[cmd|e] s']|] eqn:Hsub; [|done..].
  apply andb_true_iff in Hs as [Hc Hs].
  destruct (turn s') as [[[nd|] s1]|] eqn:Ht; [|done..].
  destruct (handle cmd s1) as [[[] s2]|] eqn:Hh; [|done]. cbn [default].
  eapply rtc_l; [eapply pool_system; [eapply (step_try_submit ex_queue_q ex_spec 1%N);
    [exact Hsub|vm_compute; intuition discriminate]|by repeat constructor]|].
  eapply rtc_l; [eapply pool_system; [apply (step_send 0 cmd); [done|]|constructor]|].
  { by rewrite (try_submit_config _ _ _ _ _ _ Hsub). }
  eapply rtc_l; [eapply pool_system; [by eapply (step_command s' s1 s2)|constructor]|]. apply rtc_refl.
Qed.

(** Leases of a millisecond, and short delays. *)
Definition ex_hasty_config : RuntimeConfig :=
  mkRuntimeConfig [mkQueueConfig (mkQueueName "q") 2] 16 2 NANOS_PER_MILLI (mkRetryConfig 1 1 NoJitter) (from_secs 30)
    MemoryStorage.
Definition ex_hasty : Coordinator :=
  match start 0 false None ex_hasty_config with Ok (Some c) => c | _ => ex_coord end.
Definition ex_h1 : State := ex_submit (mkState ex_hasty 2 []).
Definition ex_h2 : State := ex_serve (Cmd_FetchWork 0%N) ex_h1.
Definition ex_h3 : State := ex_serve (Cmd_FetchWork 2%N) ex_h2.
Definition ex_h4 : State := ex_serve (Cmd_Stats 9%N) ex_h3.

Definition ex_attempt (n : Z) (token : N) : LeasedJob :=
  mkLeasedJob (mkJobContext (from_uuid 4) ex_queue_q [Byte.x2a] n 3 token) (LeaseId_new n).
Definition ex_two_busy : Pool :=
  mkPool (quiet ex_h4) [Wk_busy 0 (ex_attempt 1 12); Wk_busy 2 (ex_attempt 2 25)] 4 [].

Ltac find_effect := vm_compute; repeat first [apply list_elem_of_here | apply list_elem_of_further].
Ltac no_effect :=
  let H := fresh in intros H; vm_compute in H;
  repeat (apply elem_of_cons in H as [H|H]; [discriminate H|]); by apply elem_of_nil in H.

(** A worker is too slow: its lease ends, and the next attempt is given to
    another one, while it still works. *)
Lemma ex_two_busy_reached : rtc pool_step (pool_started ex_hasty 0 2) ex_two_busy.
Proof.
  transitivity (mkPool (quiet ex_h1) [Wk_idle; Wk_idle] 0 []).
  { apply ex_pool_submit; vm_compute; reflexivity. }
  eapply rtc_l; [apply (pool_worker 0 Wk_idle); [reflexivity|apply wk_ask; no_effect]|].
  etrans; [eapply (ex_pool_serve 0); [reflexivity|reflexivity|vm_compute; reflexivity|vm_compute; reflexivity]|].
  change (ex_serve _ ex_h1) with ex_h2. cbn [insert list_insert app reported omap list_omap].
  eapply rtc_l; [apply (pool_worker 0 (Wk_waiting 0)); [reflexivity|apply (wk_work _ _ _ _ _ (ex_attempt 1 12)); find_effect]|].
  eapply rtc_l; [apply (pool_worker 1 Wk_idle); [reflexivity|apply wk_ask; no_effect]|].
  etrans; [eapply (ex_pool_serve 1); [reflexivity|reflexivity|vm_compute; reflexivity|vm_compute; reflexivity]|].
  etrans; [apply (ex_pool_client (Cmd_Stats 9%N)); [reflexivity|reflexivity|vm_compute; reflexivity|vm_compute; reflexivity]|].
  eapply rtc_l; [apply (pool_worker 1 (Wk_waiting 2)); [reflexivity|apply (wk_work _ _ _ _ _ (ex_attempt 2 25)); find_effect]|].
  apply rtc_refl.
Qed.

Lemma ex_hasty_fits : config_fits ex_hasty_config.
Proof.
  split; [vm_compute; split; discriminate|]. split; [vm_compute; split; discriminate|].
  intros t. change (env_instant t) with (Z.min (Z.of_nat t * NANOS_PER_MILLI) (2 ^ 60)).
  assert (2 ^ 60 + visibility_timeout ex_hasty_config ≤ instant_max) by (vm_compute; discriminate).
  assert (2 ^ 60 + shutdown_timeout ex_hasty_config ≤ instant_max) by (vm_compute; discriminate).
  assert (2 ^ 60 + max_delay (cfg_retry ex_hasty_config) ≤ instant_max) by (vm_compute; discriminate).
  lia.
Qed.

Lemma exclusive_execution_witness :
  TokenCancelled 12 ∈ trace ex_h4 ∨ TokenCancelled 25 ∈ trace ex_h4.
Proof.
  refine (proj2 (exclusive_execution 0 false None ex_hasty_config ex_hasty 2 ex_two_busy 0 1 _ _
    (ex_attempt 1 12) (ex_attempt 2 25) (or_introl eq_refl) ex_hasty_fits ex_capacity _ ex_two_busy_reached _
    eq_refl eq_refl) eq_refl eq_refl _ eq_refl).
  - vm_compute. reflexivity.
  - vm_compute. reflexivity.
  - discriminate.
Defined.

(** A worker that is in time, and its outcome in the channel. *)
Definition ex_given : State := ex_serve (Cmd_FetchWork 0%N) ex_submitted.
Definition ex_outcome : Command := Cmd_WorkerOutcome (from_uuid 4) (LeaseId_new 1) Outcome_Success.
Definition ex_reported : Pool :=
  mkPool (mkSystem ex_given [] [ex_outcome] true) [Wk_idle] 3 [(from_uuid 4, LeaseId_new 1)].
Definition ex_given' : State := default ex_given (snd <$> turn ex_given).
Definition ex_given_deadline : option Z := from_option (λ r, default None r.1) None (turn ex_given).

Lemma ex_reported_reached : rtc pool_step (pool_started ex_fresh 0 1) ex_reported.
Proof.
  transitivity (mkPool (quiet ex_submitted) [Wk_idle] 0 []).
  { apply ex_pool_submit; vm_compute; reflexivity. }
  eapply rtc_l; [apply (pool_worker 0 Wk_idle); [reflexivity|apply wk_ask; no_effect]|].
  etrans; [eapply (ex_pool_serve 0); [reflexivity|reflexivity|vm_compute; reflexivity|vm_compute; reflexivity]|].
  change (ex_serve _ ex_submitted) with ex_given. cbn [insert list_insert app reported omap list_omap].
  eapply rtc_l; [apply (pool_worker 0 (Wk_waiting 0)); [reflexivity|apply (wk_work _ _ _ _ _ (ex_attempt 1 12)); find_effect]|].
  eapply rtc_l; [apply (pool_worker 0 (Wk_busy 0 (ex_attempt 1 12))); [reflexivity|apply (wk_done _ _ _ _ _ _ (Task_done (Ok ())))]|].
  eapply rtc_l; [eapply (pool_send 0); [reflexivity|reflexivity|vm_compute; reflexivity]|].
  apply rtc_refl.
Qed.

Lemma outcomes_count_witness :
  ∃ lj, lease_of lj = (from_uuid 4, LeaseId_new 1)
    ∧ (TokenCancelled (ctx_cancellation (lj_context lj)) ∈ trace ex_given'
       ∨ ∃ job s2, co_store (coord ex_given') !! from_uuid 4 = Some job ∧ job_state job = Running
           ∧ handle ex_outcome ex_given' = Some ((), s2) ∧ outcome_done ex_given' (from_uuid 4) (LeaseId_new 1) job Outcome_Success s2).
Proof.
  destruct (outcomes_count 0 false None ex_config ex_fresh 1 ex_reported ex_given ex_given' ex_given_deadline (from_uuid 4) (LeaseId_new 1)
    Outcome_Success [] [] (or_introl eq_refl) ex_fits ex_capacity ltac:(vm_compute; reflexivity) ex_reported_reached
    ltac:(vm_compute; reflexivity) eq_refl ltac:(vm_compute; reflexivity)) as (r & lj & _ & Hl & H).
  exists lj. exact (conj Hl H).
Defined.
End witnesses.
