(* ===== verification/Schedule.v ===== *)
(** * Running the queue

    A deterministic scheduler for the system with its worker pool: it lets the
    workers and the coordinator move, in this order, until everybody waits.  Every
    move is a step of [pool_step], so what the scheduler computes is a run of the
    system.  The calls of a client program run between such phases. *)

From S2P Require Import Prelude Types Config Store Codec ConcreteWire Scanner Writer Recovery.
From S2P Require Import RetryHeap Environment Coordinator Runtime Client Worker Pool.

Section schedule.
Context `{W : Wire} `{HI : HashIter} `{RH : RetryHeap} `{SM : Semaphores} `{EN : Env}.

(** [CancellationToken::is_cancelled] *)
Definition token_cancelled (tr : list Effect) (token : CancellationToken) : bool :=
  existsb (λ e, match e with TokenCancelled token' => (token' =? token)%N | _ => false end) tr.

(** [JobContext::is_cancelled] *)
Definition is_cancelled (tr : list Effect) (ctx : JobContext) : bool :=
  token_cancelled tr (ctx_cancellation ctx).

(** [Handler]: what it returns, when it looks at its token at the end. *)
Definition Handler : Type := JobContext → bool → result unit JobError.

(** The answer to a request for work. *)
Fixpoint work_reply (tr : list Effect) (r : Sender) : option (option LeasedJob) :=
  match tr with
  | [] => None
  | Sent r' (Reply_work w) true :: tr => if (r' =? r)%N then Some w else work_reply tr r
  | _ :: tr => work_reply tr r
  end.

(** ** Moves *)

Definition move_worker (p : Pool) (i : nat) (w : Wk) : Pool :=
  mkPool (p_sys p) (<[i := w]> (p_workers p)) (p_fresh p + 1)%N (p_reported p).

Definition send_from (p : Pool) (i : nat) (cmd : Command) (w : Wk) : option Pool :=
  let sys := p_sys p in
  if zlen (sys_channel sys) <? channel_capacity (co_config (coord (sys_state sys)))
  then Some (mkPool (mkSystem (sys_state sys) (sys_waiting sys) (sys_channel sys ++ [cmd]) true)
               (<[i := w]> (p_workers p)) (p_fresh p) (p_reported p ++ reported [cmd]))
  else None.

Definition worker_next (handler : Handler) (p : Pool) (i : nat) : option Pool :=
  let sys := p_sys p in
  let tr := trace (sys_state sys) in
  let stop := is_shutting_down sys in
  match p_workers p !! i with
  | None | Some Wk_stopped => None
  | Some Wk_idle => Some (move_worker p i (if stop then Wk_stopped else Wk_asking (p_fresh p)))
  | Some (Wk_asking r) =>
      if sys_running sys then send_from p i (Cmd_FetchWork r) (Wk_waiting r)
      else Some (move_worker p i Wk_stopped)
  | Some (Wk_waiting r) =>
      match work_reply tr r with
      | Some (Some lj) => Some (move_worker p i (Wk_busy r lj))
      | Some None => Some (move_worker p i Wk_stopped)
      | None => if stop || negb (sys_running sys) then Some (move_worker p i Wk_stopped) else None
      end
  | Some (Wk_busy r lj) =>
      let result := Task_done (handler (lj_context lj) (is_cancelled tr (lj_context lj))) in
      Some (move_worker p i (Wk_reporting r lj (outcome_of_task result)))
  | Some (Wk_reporting r lj o) =>
      if sys_running sys
      then send_from p i (Cmd_WorkerOutcome (ctx_id (lj_context lj)) (lj_lease_id lj) o) Wk_idle
      else Some (move_worker p i Wk_idle)
  end.

Definition with_sys (p : Pool) (sys : System) : Pool :=
  mkPool sys (p_workers p) (p_fresh p) (p_reported p).

Definition coordinator_next (p : Pool) : option Pool :=
  let sys := p_sys p in
  if negb (sys_running sys) then None
  else match turn (sys_state sys) with
       | None => None
       | Some (None, s1) =>
           Some (with_sys p (mkSystem (foldr drop_command s1 (sys_channel sys)) (sys_waiting sys) [] false))
       | Some (Some nd, s1) =>
           match sys_channel sys with
           | cmd :: ch =>
               match handle cmd s1 with
               | Some ((), s2) => Some (with_sys p (mkSystem s2 (sys_waiting sys) ch true))
               | None => None
               end
           | [] =>
               match nd with
               | Some d =>
                   if d <=? env_instant (tick s1) then Some (with_sys p (mkSystem s1 (sys_waiting sys) [] true)) else None
               | None => None
               end
           end
       end.

(** The first that can move. *)
Fixpoint first_worker (handler : Handler) (p : Pool) (n : nat) : option Pool :=
  match n with
  | O => None
  | S n => match first_worker handler p n with Some p' => Some p' | None => worker_next handler p n end
  end.

Definition pool_next (handler : Handler) (p : Pool) : option Pool :=
  match first_worker handler p (length (p_workers p)) with
  | Some p' => Some p'
  | None => coordinator_next p
  end.

(** Until everybody waits, [fuel] moves at most. *)
Fixpoint settle (fuel : nat) (handler : Handler) (p : Pool) : Pool :=
  match fuel with
  | O => p
  | S fuel => match pool_next handler p with Some p' => settle fuel handler p' | None => p end
  end.

(** ** Calls *)

(** A call of a client that waits for its reply. *)
Definition do_call {A} (fuel : nat) (handler : Handler) (c : Call A) (p : Pool) : option (Result A * Pool) :=
  match call_begin c (p_sys p) with
  | None => None
  | Some (Err e, sys) => Some (Err e, with_sys p sys)
  | Some (Ok _, sys) =>
      match cmd_send (call_reply _ c) sys with
      | None => None
      | Some (Err e, sys) => Some (Err e, with_sys p sys)
      | Some (Ok _, sys) =>
          let p := settle fuel handler (with_sys p sys) in
          (λ r, (r, p)) <$> call_end c (p_sys p)
      end
  end.

Definition all_stopped (p : Pool) : bool :=
  forallb (λ w, match w with Wk_stopped => true | _ => false end) (p_workers p).

(** [Runtime::shutdown], to its end: [None] when it waits for ever. *)
Definition do_shutdown (fuel : nat) (handler : Handler) (reply : Sender) (p : Pool) : option Pool :=
  '(phase, sys) ← runtime_shutdown reply (all_stopped p) Sd_begin (p_sys p);
  '(phase, sys) ← runtime_shutdown reply (all_stopped p) phase sys;
  let p := settle fuel handler (with_sys p sys) in
  '(phase, sys) ← runtime_shutdown reply (all_stopped p) phase (p_sys p);
  '(phase, sys) ← runtime_shutdown reply (all_stopped p) phase sys;
  '(phase, sys) ← runtime_shutdown reply (all_stopped p) phase sys;
  match phase with Sd_returned => Some (with_sys p sys) | _ => None end.

(** ** Every move is a step *)

Lemma is_shutting_down_spec sys : is_shutting_down sys = true ↔ shutdown_signalled sys.
Proof.
  unfold is_shutting_down, shutdown_signalled. rewrite existsb_exists. setoid_rewrite <-list_elem_of_In. split.
  - intros ([| token|] & Hin & Ht); try done. apply N.eqb_eq in Ht as ->. done.
  - intros Hin. eexists. split; [exact Hin|]. apply N.eqb_refl.
Qed.

Lemma work_reply_spec tr r : match work_reply tr r with Some w => replied tr r w | None => ∀ w, ¬ replied tr r w end.
Proof.
  induction tr as [|e tr IH]; cbn [work_reply]; [intros w H; by apply elem_of_nil in H|].
  assert (∀ e', e' = e → (∀ w, e' ≠ Sent r (Reply_work w) true) →
    match work_reply tr r with Some w => replied (e :: tr) r w | None => ∀ w, ¬ replied (e :: tr) r w end) as Hskip.
  { intros e' -> Hne. destruct (work_reply tr r) as [w|]; [by right|].
    intros w [Heq|H]%elem_of_cons; [by destruct (Hne w)|by eapply IH]. }
  destruct e as [r' rep d|token|op e]; [|by eapply Hskip..]. destruct rep, d; try (eapply Hskip; [reflexivity|]; congruence).
  destruct (N.eqb_spec r' r) as [->|Hne]; [by left|]. eapply Hskip; [reflexivity|]. congruence.
Qed.

Lemma send_from_step p i w cmd w' p' :
  p_workers p !! i = Some w → wk_send w = Some (cmd, w') → sys_running (p_sys p) = true →
  send_from p i cmd w' = Some p' → pool_step p p'.
Proof.
  unfold send_from. destruct p as [[s wt ch b] ws fr rep]. cbn. intros Hi Hw -> H.
  destruct (Z.ltb_spec (zlen ch) (channel_capacity (co_config (coord s)))); [|done]. injection H as <-. by eapply pool_send.
Qed.

Lemma worker_next_step handler p i p' : worker_next handler p i = Some p' → pool_step p p'.
Proof.
  unfold worker_next. destruct (p_workers p !! i) as [w|] eqn:Hi; [|done].
  assert (∀ w', wk_step (trace (sys_state (p_sys p))) (shutdown_signalled (p_sys p)) (sys_running (p_sys p) = false)
    (p_fresh p) w w' → pool_step p (move_worker p i w')) as Hmove.
  { intros w' Hs. destruct p as [sys ws fr rep]. by eapply pool_worker. }
  pose proof (is_shutting_down_spec (p_sys p)) as Hstop.
  destruct w as [|r|r|r lj|r lj o|]; [..|done].
  - intros [= <-]. apply Hmove. destruct (is_shutting_down (p_sys p)); constructor; [by apply Hstop|].
    intros H. by apply Hstop in H.
  - destruct (sys_running (p_sys p)) eqn:Hr; [by apply (send_from_step _ _ (Wk_asking r))|]. intros [= <-].
    apply Hmove. by constructor.
  - pose proof (work_reply_spec (trace (sys_state (p_sys p))) r) as Hw.
    destruct (work_reply _ r) as [[lj|]|]; [intros [= <-]; apply Hmove; by constructor..|].
    destruct (is_shutting_down (p_sys p)); cbn [orb].
    + intros [= <-]. apply Hmove. apply wk_cancelled; [by apply Hstop|done].
    + destruct (sys_running (p_sys p)); [done|]. intros [= <-]. apply Hmove. by apply wk_dropped.
  - intros [= <-]. apply Hmove. exact (wk_done _ _ _ _ r lj (Task_done _)).
  - destruct (sys_running (p_sys p)) eqn:Hr; [by apply (send_from_step _ _ (Wk_reporting r lj o))|]. intros [= <-].
    apply Hmove. by constructor.
Qed.

(** No command of a worker waits outside the channel. *)
Definition clients_only (sys : System) : Prop := Forall (λ cmd, is_client_command cmd = true) (sys_waiting sys).

Lemma coordinator_next_step p p' : clients_only (p_sys p) → coordinator_next p = Some p' → pool_step p p'.
Proof.
  unfold coordinator_next. destruct p as [[s wt ch b] ws fr rep]. cbn. intros Hc. destruct b; [|done]. cbn.
  destruct (turn s) as [[[nd|] s1]|] eqn:Ht; [| |done].
  - destruct ch as [|cmd ch].
    + destruct nd as [d|]; [|done]. destruct (Z.leb_spec d (env_instant (tick s1))); [|done].
      intros [= <-]. apply pool_system; [by eapply step_timer|done].
    + destruct (handle cmd s1) as [[[] s2]|] eqn:Hh; [|done]. intros [= <-]. apply pool_system; [by eapply step_command|done].
  - intros [= <-]. apply pool_system; [by eapply step_stop|done].
Qed.

Lemma first_worker_step handler p n p' : first_worker handler p n = Some p' → pool_step p p'.
Proof.
  revert p'; induction n as [|n IH]; intros p'; [done|]. cbn. destruct (first_worker handler p n) as [p1|].
  - intros [= <-]. by apply IH.
  - apply worker_next_step.
Qed.

Lemma pool_next_step handler p p' : clients_only (p_sys p) → pool_next handler p = Some p' → pool_step p p'.
Proof.
  intros Hc. unfold pool_next. destruct (first_worker _ _ _) as [p1|] eqn:Hf.
  - intros [= <-]. by eapply first_worker_step.
  - by apply coordinator_next_step.
Qed.

Lemma pool_step_clients p p' : pool_step p p' → clients_only (p_sys p) → clients_only (p_sys p').
Proof. by intros []. Qed.

Lemma settle_steps fuel handler p :
  clients_only (p_sys p) → rtc pool_step p (settle fuel handler p) ∧ clients_only (p_sys (settle fuel handler p)).
Proof.
  revert p; induction fuel as [|fuel IH]; intros p Hc; cbn [settle]; [by split; [constructor|]|].
  destruct (pool_next handler p) as [p1|] eqn:Hp; [|by split; [constructor|]].
  apply pool_next_step in Hp as Hs; [|done]. destruct (IH p1) as [Hr Hc']; [by eapply pool_step_clients|].
  split; [by eapply rtc_l|done].
Qed.

(** *** Calls *)

Definition reaches (p p' : Pool) : Prop := rtc pool_step p p' ∧ clients_only (p_sys p').

Lemma reaches_step p sys : clients_only sys → sys_step (p_sys p) sys → reaches p (with_sys p sys).
Proof. intros Hc Hs. split; [|done]. apply rtc_once. destruct p. by apply pool_system. Qed.

Lemma with_sys_same p : with_sys p (p_sys p) = p.
Proof. by destruct p. Qed.

(** The beginning of a call is made of steps. *)
Definition call_steps {A} (c : Call A) : Prop :=
  ∀ p r sys, clients_only (p_sys p) → call_begin c (p_sys p) = Some (r, sys) → reaches p (with_sys p sys).

Lemma enqueue_steps {A} cmd reply (e : System → option (Result A)) :
  is_submit_command cmd = false → is_client_command cmd = true → call_steps (mkCall A (enqueue cmd) reply e).
Proof.
  intros Hn Hcl p r sys Hc H. cbn in H. injection H as <- <-. apply reaches_step.
  - by apply Forall_app; split; [|constructor].
  - by eapply enqueue_step.
Qed.

Lemma call_submit_steps queue spec reply : u32_range (max_attempts spec) → call_steps (call_submit queue spec reply).
Proof.
  intros Hmax p r sys Hc H. destruct r as [[]|e].
  - destruct (submission_step queue spec reply (p_sys p) sys Hmax (or_introl H)) as [Hs _].
    apply reaches_step; [|done]. cbn in H. destruct (submit queue spec reply _) as [[[[cmd|e]|] s']|] eqn:Hsub; [|done..].
    cbn in H. injection H as <-. pose proof (submit_command _ _ _ _ _ _ Hsub) as ->. by apply Forall_app; split; [|constructor].
  - assert (sys = p_sys p) as ->; [|by rewrite with_sys_same; split; [constructor|]]. cbn in H.
    destruct (submit queue spec reply _) as [[[[cmd|e']|] s']|] eqn:Hsub; [done| |done..]. cbn in H. injection H as <- <-.
    unfold submit, mbind, action_bind, mret, action_ret, get, modify in Hsub. cbn in Hsub. destruct p as [[s wt ch b] ws fr rep]. cbn in *.
    destruct (co_semaphores (coord s) !! as_str queue) as [sem|]; [|by injection Hsub as _ <-].
    destruct (sem_try_acquire sem) as [[[]|[]] sem']; cbn in Hsub; by simplify_eq.
Qed.

Lemma cmd_send_steps reply p r sys :
  clients_only (p_sys p) → cmd_send reply (p_sys p) = Some (r, sys) → reaches p (with_sys p sys).
Proof.
  intros Hc H. destruct (cmd_send_step _ _ _ _ H) as [Hs _]. apply reaches_step; [|done]. unfold cmd_send in H.
  destruct (list_find _ _) as [[i cmd]|]; [|done]. repeat case_match; simplify_eq; sys_simpl; by apply Forall_delete.
Qed.

Lemma reaches_trans p1 p2 p3 : reaches p1 p2 → reaches p2 p3 → reaches p1 p3.
Proof. intros [H1 _] [H2 Hc]. split; [by etrans|done]. Qed.

Lemma do_call_steps {A} fuel handler (c : Call A) p r p' :
  call_steps c → clients_only (p_sys p) → do_call fuel handler c p = Some (r, p') → reaches p p'.
Proof.
  intros Hsteps Hc H. unfold do_call in H. destruct (call_begin c (p_sys p)) as [[[[]|e] sys1]|] eqn:Hb; [| |done].
  2: { injection H as <- <-. by eapply Hsteps. }
  pose proof (Hsteps _ _ _ Hc Hb) as H1. destruct (cmd_send (call_reply _ c) sys1) as [[[[]|e] sys2]|] eqn:Hs; [| |done].
  2: { injection H as <- <-. eapply reaches_trans; [exact H1|]. exact (cmd_send_steps _ (with_sys p sys1) _ _ (proj2 H1) Hs). }
  pose proof (cmd_send_steps _ (with_sys p sys1) _ _ (proj2 H1) Hs) as H2. apply fmap_Some in H as (r' & _ & [= -> ->]).
  eapply reaches_trans; [exact H1|]. eapply reaches_trans; [exact H2|]. apply settle_steps, H2.
Qed.

Lemma do_shutdown_steps fuel handler reply p p' :
  clients_only (p_sys p) → do_shutdown fuel handler reply p = Some p' → reaches p p'.
Proof.
  intros Hc H. unfold do_shutdown in H. cbn [runtime_shutdown enqueue mbind option_bind] in H.
  pose proof (enqueue_steps (Cmd_Shutdown reply) reply (λ sys, recv reply sys) eq_refl eq_refl p _ _ Hc eq_refl) as H1.
  set (sys1 := mkSystem _ _ _ _) in H. destruct (cmd_send reply sys1) as [[r sys2]|] eqn:Hs; [|discriminate H].
  cbn [mbind option_bind] in H. pose proof (cmd_send_steps _ (with_sys p sys1) _ _ (proj2 H1) Hs) as H2.
  assert (reaches p (settle fuel handler (with_sys p sys2))) as H3.
  { eapply reaches_trans; [exact H1|]. eapply reaches_trans; [exact H2|]. apply settle_steps, H2. }
  set (p1 := settle _ _ _) in *. clearbody p1. cbn in H. destruct (recv reply (p_sys p1)); cbn in H; [|done].
  destruct (all_stopped p1); cbn in H; [|done]. destruct (sys_running (p_sys p1)); cbn in H; [done|].
  injection H as <-. by rewrite with_sys_same.
Qed.
End schedule.
