(* ===== verification/Basic.v ===== *)
(** * The example program ([examples/basic.rs])

    The example on the modelled runtime: its handler, its configuration and its
    [main], run by the scheduler of [Schedule] with the workers, the coordinator
    and the memory storage.  What it prints is computed, and the computation is a
    run of the system. *)

From S2P Require Import Prelude Text Types Config Store Codec ConcreteWire Scanner Writer Recovery Cli.
From S2P Require Import RetryHeap Environment Coordinator CoordinatorProps Runtime RuntimeProofs Client Worker Pool Schedule.

(** ** The handler

    Its lines on the standard output are left out. *)

(** [JobError::retryable] and [JobError::fatal] *)
Definition JobError_retryable (e : string) : JobError := Retryable_error e.
Definition JobError_fatal (e : string) : JobError := Fatal_error e.

(** [str::contains] for an ASCII pattern, which a lossy conversion to text neither
    adds nor removes. *)
Fixpoint contains (pattern text : list byte) : bool :=
  match strip_prefix pattern text with
  | Some _ => true
  | None => match text with [] => false | _ :: text => contains pattern text end
  end.

Abbreviation text s := (String.list_byte_of_string s) (only parsing).

Definition basic_handler (ctx : JobContext) (cancelled : bool) : result unit JobError :=
  if cancelled then Ok ()
  else if contains (text "fail-once") (ctx_payload ctx) && (ctx_attempt ctx =? 1) then
    Err (JobError_retryable "transient failure")
  else if contains (text "fatal") (ctx_payload ctx) then Err (JobError_fatal "permanent failure")
  else Ok ().

(** ** [main] *)

Definition basic_config (emails reports : QueueName) : RuntimeConfig :=
  let queues := [mkQueueConfig emails 100; mkQueueConfig reports 50] in
  let config := RuntimeConfig_new queues 64 in
  let config := with_storage config MemoryStorage in
  let config := with_worker_concurrency config 4 in
  let config := with_retry config (RetryConfig_new (from_secs 1) (from_secs 30)) in
  let config := with_visibility_timeout config (from_secs 60) in
  with_shutdown_timeout config (from_secs 10).

(** [{:?}] *)
Definition debug_state (s : JobState) : string :=
  match s with
  | Queued => "Queued"
  | Running => "Running"
  | RetryWaiting => "RetryWaiting"
  | Completed => "Completed"
  | Dead => "Dead"
  | Cancelled => "Cancelled"
  end.

(** Enough moves for three jobs. *)
Definition BASIC_FUEL : nat := 1000.

Section main.
Context `{W : Wire} `{HI : HashIter} `{RH : RetryHeap} `{SM : Semaphores} `{EN : Env}.
(** [Display] of [Uuid] *)
Context (uuid_display : JobId → string).

(** The lines of the standard output, and the pool or an error; [None] when a call
    waits for ever. *)
Definition Outcome : Type := option (list string * Result Pool).

(** [rt.call(..).await?], and the rest of the program. *)
Definition and_then {A} (c : Call A) (out : list string) (p : Pool) (k : A → Pool → Outcome) : Outcome :=
  match do_call BASIC_FUEL basic_handler c p with
  | None => None
  | Some (Err e, _) => Some (out, Err e)
  | Some (Ok a, p) => k a p
  end.

(** The calls have reply channels that no worker uses. *)
Definition basic_calls (emails reports : QueueName) (p : Pool) : Outcome :=
  and_then (call_submit emails (JobSpec_new (text "send welcome email")) 5001%N) [] p (λ job1 p,
  let out := [String.append "Submitted job: " (uuid_display (job_id job1))] in
  and_then (call_submit emails (JobSpec_new (text "fail-once: retry test")) 5002%N) out p (λ job2 p,
  let out := out ++ [String.append "Submitted job: " (uuid_display (job_id job2))] in
  and_then (call_submit reports (JobSpec_new (text "generate monthly report")) 5003%N) out p (λ job3 p,
  let out := out ++ [String.append "Submitted job: " (uuid_display (job_id job3))] in
  (* three seconds in which the others go on *)
  let p := settle BASIC_FUEL basic_handler p in
  and_then (call_status (job_id job1) 5004%N) out p (λ status1 p,
  and_then (call_status (job_id job2) 5005%N) out p (λ status2 p,
  and_then (call_status (job_id job3) 5006%N) out p (λ status3 p,
  let out := out ++ [EmptyString; "Job statuses:";
    String.append "  Job 1: " (debug_state (job_state status1));
    String.append "  Job 2: " (String.append (debug_state (job_state status2))
      (String.append (line " (attempts: " (job_attempts status2)) ")"));
    String.append "  Job 3: " (debug_state (job_state status3))] in
  and_then (call_stats 5007%N) out p (λ stats p,
  let out := out ++ [EmptyString; "Statistics:"; line "  Submitted: " (snap_submitted stats);
    line "  Completed: " (snap_completed stats); line "  Retried: " (snap_retried stats)] in
  match do_shutdown BASIC_FUEL basic_handler 5008%N p with
  | None => None
  | Some p => Some (out ++ [EmptyString; "Shutdown complete."], Ok p)
  end))))))).

Definition basic_main (t : nat) : Outcome :=
  match QueueName_new "emails", QueueName_new "reports" with
  | Some emails, Some reports =>
      match Runtime_start t false None (basic_config emails reports) with
      | Err e => Some ([], Err e)
      | Ok None => None
      | Ok (Some (sys, workers)) =>
          basic_calls emails reports (mkPool sys (replicate (Z.to_nat workers) Wk_idle) 0%N [])
      end
  | _, _ => None
  end.
End main.

(** ** The run *)

Section sound.
Context `{W : Wire} `{HI : HashIter} `{RH : RetryHeap} `{SM : Semaphores} `{EN : Env}.
Context (uuid_display : JobId → string).

Lemma and_then_ok {A} (c : Call A) out p k o p' :
  call_steps c → clients_only (p_sys p) → and_then c out p k = Some (o, Ok p') →
  ∃ a p1, reaches p p1 ∧ k a p1 = Some (o, Ok p').
Proof.
  intros Hs Hc H. unfold and_then in H. destruct (do_call _ _ c p) as [[[a|e] p1]|] eqn:Hd; [|done..].
  exists a, p1. split; [by eapply do_call_steps|done].
Qed.

Ltac next_call H Hr :=
  apply and_then_ok in H; [|first [by apply call_submit_steps | by apply enqueue_steps]|by apply Hr];
  let a := fresh "a" in let p1 := fresh "p" in let Hr1 := fresh "Hr" in
  destruct H as (a & p1 & Hr1 & H); apply (reaches_trans _ _ _ Hr) in Hr1; clear Hr; rename Hr1 into Hr.

(** The calls of [main] are a run of the system, whatever the environment does. *)
Lemma basic_calls_run emails reports p out p' :
  clients_only (p_sys p) → basic_calls uuid_display emails reports p = Some (out, Ok p') → reaches p p'.
Proof.
  intros Hc H. unfold basic_calls in H. assert (reaches p p) as Hr by (by split; [constructor|]).
  do 3 next_call H Hr. cbv zeta in H.
  match type of H with and_then _ _ (settle _ _ ?p3) _ = _ =>
    pose proof (reaches_trans _ _ _ Hr (settle_steps BASIC_FUEL basic_handler p3 (proj2 Hr))) as Hr'; clear Hr;
    rename Hr' into Hr end.
  do 4 next_call H Hr.
  destruct (do_shutdown _ _ _ _) as [pf|] eqn:Hd; [|done]. injection H as _ <-.
  eapply reaches_trans; [exact Hr|]. by eapply do_shutdown_steps; [apply Hr|].
Qed.

Lemma basic_main_run t emails reports c out p' :
  QueueName_new "emails" = Some emails → QueueName_new "reports" = Some reports →
  start t false None (basic_config emails reports) = Ok (Some c) →
  basic_main uuid_display t = Some (out, Ok p') → rtc pool_step (pool_started c t 4) p'.
Proof.
  intros He Hr Hst Hm. unfold basic_main, Runtime_start in Hm. rewrite He, Hr, Hst in Hm.
  apply basic_calls_run in Hm as [Hm _]; [exact Hm|constructor].
Qed.

(** The pool at the end. *)
Definition final_pool (o : Outcome) (p0 : Pool) : Pool := match o with Some (_, Ok p) => p | _ => p0 end.

Definition succeeds (o : Outcome) : bool := match o with Some (_, Ok _) => true | _ => false end.

Lemma outcome_ok (o : Outcome) p0 out :
  succeeds o = true → fst <$> o = Some out →
  o = Some (out, Ok (final_pool o p0)).
Proof. destruct o as [[out' [p|e]]|]; [|done..]. by intros _ [= <-]. Qed.
End sound.

Section run.
#[local] Existing Instance canonical_iter.
#[local] Existing Instance sorted_heap.
#[local] Existing Instance counting_semaphores.
Context (uuid_display : JobId → string).

(** Half a second passes from question to question. *)
Definition brisk_env : Env := {|
  env_instant t := Z.min (Z.of_nat t * (500 * NANOS_PER_MILLI)) (2 ^ 60);
  instant_max := 2 ^ 63 * NANOS_PER_SEC;
  env_wall t := from_millis (1000 + 500 * Z.of_nat t);
  env_uuid t := from_uuid (N.of_nat t);
  env_token t := N.of_nat t;
  env_rand t hi := 0;
  env_io t := io_ok;
  env_alive t := true;
|}.
#[local] Existing Instance brisk_env.

Definition basic_emails : QueueName := mkQueueName "emails".
Definition basic_reports : QueueName := mkQueueName "reports".
Definition basic_coordinator : Coordinator :=
  match start 0 false None (basic_config basic_emails basic_reports) with Ok (Some c) => c | _ => ex_coord end.
Definition basic_end : Pool := final_pool (basic_main uuid_display 0) (pool_started basic_coordinator 0 4).

(** The line that a submission prints. *)
Definition submitted_line (id : N) : string := String.append "Submitted job: " (uuid_display (from_uuid id)).

Definition basic_output : list string :=
  [submitted_line 4; submitted_line 29; submitted_line 53; EmptyString; "Job statuses:"; "  Job 1: Completed";
   "  Job 2: Completed (attempts: 2)"; "  Job 3: Completed"; EmptyString; "Statistics:"; "  Submitted: 3";
   "  Completed: 3"; "  Retried: 1"; EmptyString; "Shutdown complete."]%string.

Lemma basic_main_prints : fst <$> basic_main uuid_display 0 = Some basic_output.
Proof. vm_compute. reflexivity. Qed.

Lemma basic_main_succeeds : succeeds (basic_main uuid_display 0) = true.
Proof. vm_compute. reflexivity. Qed.

Lemma basic_main_result : basic_main uuid_display 0 = Some (basic_output, Ok basic_end).
Proof. exact (outcome_ok (basic_main uuid_display 0) (pool_started basic_coordinator 0 4) basic_output basic_main_succeeds basic_main_prints). Qed.

Lemma basic_main_stops : all_stopped basic_end && negb (sys_running (p_sys basic_end)) = true.
Proof. vm_compute. reflexivity. Qed.

Lemma basic_start : start 0 false None (basic_config basic_emails basic_reports) = Ok (Some basic_coordinator).
Proof. vm_compute. reflexivity. Qed.

(** The example prints that its three jobs are completed, the second at its second
    attempt, and ends when all workers and the coordinator have; and this is a run of
    the system from its start. *)
Lemma basic_example_runs :
  basic_main uuid_display 0 = Some (basic_output, Ok basic_end)
  ∧ all_stopped basic_end && negb (sys_running (p_sys basic_end)) = true
  ∧ rtc pool_step (pool_started basic_coordinator 0 4) basic_end.
Proof.
  refine (conj basic_main_result (conj basic_main_stops _)).
  refine (basic_main_run uuid_display 0 basic_emails basic_reports basic_coordinator _ _ _ _ basic_start basic_main_result);
    vm_compute; reflexivity.
Qed.
End run.
